(* ===== verification/_CoqProject ===== *)
-Q . S2P
Prelude.v
LockSpec.v
InMemory.v
Sharded.v
Utf8.v
Json.v
JsonFacts.v
GoTime.v
Mux.v
Http.v
HttpFacts.v
ServerTheorems.v
Concurrent.v
ConcurrentFacts.v
Progress.v
TornListing.v
ConcurrencyTheorems.v
Validate.v
ValidateFacts.v
ValidateTheorems.v
Scenarios.v
ScenarioFacts.v
ScenarioBounds.v
ScenarioTheorems.v
Float64.v
Float64Facts.v
Format.v
FormatFacts.v
Stats.v
Measure.v
MeasureFacts.v
MeasureTheorems.v
Docker.v
Reporter.v
ReporterFacts.v
Runner.v
RunnerFacts.v
RunnerTheorems.v
ReporterTheorems.v
BenchmarkTheorems.v
