(* ===== verification/Prelude.v ===== *)
(** * Distributed locking: a verification of the Go lock servers and their benchmark

    The repository holds lock servers with one HTTP API (spec.md) and a
    benchmark runner that builds, validates and loads them. This library
    models the Go programs: the servers [solutions/go-inmemory] and
    [solutions/go-sharded], and the runner [benchmark/].

    ** How the program is put together

    A server is a store (a map from keys to locks, guarded by a mutex) behind
    four HTTP handlers: GET /healthz, POST /lock, POST /unlock, GET /locks.
    [net/http] serves every request in its own goroutine. The runner reads a
    solution's manifest, builds and starts its container, polls /healthz, lets
    [validateSpec] check the API with a fixed dialogue, and then runs the
    scenarios: phases in which many goroutines acquire and release locks and
    poll the listing, counting what they see. The counts become results in
    [float64], the results a report, and [main] writes the report as JSON and
    Markdown and prints a summary.

    ** The files

    - [Prelude]: results, tactics, [int64] wrap-around, maps split over parts,
      sums over maps.
    - [LockSpec]: the contract of a store. The abstract state is a finite map
      from held keys to holder and time; [spec_acquire], [spec_release] and
      [locks_of] are the operations, [LockService] is the interface of a store
      and [LockServiceLaws] its laws (no panic, refinement of the contract).
    - [InMemory] (go-inmemory: [store], [acquire], [release], [list]) and
      [Sharded] (go-sharded: the same over 64 shards, for any hash function):
      the two implementations and their instances of the laws. Their source
      function [list] is [list_locks] here.
    - [Utf8], [Json], [JsonFacts], [GoTime]: what the programs use of
      [unicode/utf8], [encoding/json] and [time]: runes, a JSON printer with
      HTML escaping, a parser as in [json.Decoder] (escapes, surrogates,
      invalid UTF-8 replaced, depth limit), decoding into structs with folded
      field names, RFC 3339 times. The parser's fuel is twice the input length
      plus one; [parse_total] proves that it is never used up.
    - [Mux]: what [http.ServeMux] does with a path (cleaning and redirects,
      escapes, the four patterns). [Http]: the handlers and the routes of both
      [main]s over any [LockService]. [HttpFacts]: what spec.md says
      ([spec_md]), the exact contract of the Go servers ([api_step]), which
      satisfies it and also fixes redirects and the plain-text errors, and the
      proof that serving a request is such a step; [ServerTheorems].
    - [Concurrent]: goroutines inside [acquire], [release] and [list] as
      threads that take one visible action at a time on maps with
      [sync.RWMutex]es, in which an announced writer keeps new readers out and
      parked readers go before the next writer; one map is go-inmemory, 64
      maps are go-sharded. [ConcurrentFacts]: its invariant (mutex counts,
      legal history); [Progress]: no deadlock, termination; [TornListing]: a
      listing that no moment of the call explains; [ConcurrencyTheorems].
    - [Validate] (validate.go over an abstract network [Transport]),
      [ValidateFacts], [ValidateTheorems].
    - [Scenarios] (scenarios.go, [isTimeout] of stats.go): key pools, workers
      and readers, counters, and a phase as the machine of its goroutines, the
      server and the network. An action touches one shared thing only. Sending,
      handling and answering a request are separate actions; a client may give
      up in between, and the server may still handle the request at any later
      time, in a later phase too. A goroutine without keys panics.
      [ScenarioFacts]: invariants; [ScenarioBounds]: what can go wrong when
      only the ends of phases cut requests off; [ScenarioTheorems].
    - [Float64]: the arithmetic of [float64], by the binary floats of the
      Standard Library's [SpecFloat] (precision 53, maximal exponent 1024);
      [Float64Facts]: correct rounding, monotonicity and exactness on the
      range of numbers that occur. [Format]: number texts as [fmt], [strconv]
      and [encoding/json] write and read them; [FormatFacts]: 17 digits are
      enough to tell two [float64]s apart, so that the search for the shortest
      text always ends in one that reads back. (That the text found is the
      shortest is its definition: it is the first to read back.)
    - [Stats] (stats.go), [Measure] (whole scenarios: warmup, measurement, leak
      check, [ScenarioResult]), [MeasureFacts], [MeasureTheorems]. What the
      program does not determine (interleaving, lost and late requests, clock
      readings) is an argument, the [schedule].
    - [Docker] (docker.go) and [Runner] (runner.go, main.go, types.go): programs
      over the interface [Host] (daemon, files, clock, network) that record
      their calls with their outcomes; [RunnerFacts], [RunnerTheorems]. The
      startup timeout is the [int64] product of the source. The polling loops
      have fuel for two polls more than the timeout has tenths of a second,
      which is proved to be enough. The runner calls the load generator
      through the interface [Bench].
    - [Reporter] (reporter.go): the report as JSON value and text, the Markdown
      tables and the summary; [ReporterFacts]: reading the texts back;
      [ReporterTheorems].
    - [BenchmarkTheorems]: [BenchLaws] says that the [Bench] the runner uses is
      the load generator of [Measure] running against the solution's server,
      and composes the layers.

    ** What the theorems show

    Servers: any sequence of requests is answered without a panic, as spec.md
    says and exactly as the contract says; the two servers are indistinguishable up to the order
    of listings; a lock stays with its holder; errors change nothing; what is
    held is well-formed UTF-8. Concurrency: no data race, linearizability with
    real-time order, every request returns under every schedule; a listing is
    sound and complete for locks held throughout, atomic for one map and not
    for several. Validator: exactly which services pass, and no false alarms.
    Load generator: exclusion among workers that did not give up on an unlock
    (and a run that shows why the others are left out), no conflicts on
    partitioned keys, counters that differ by the requests under way, the end
    of a phase, an exact leak check, and how a leaked lock disturbs a later
    phase. Results: percentiles are the samples of the exact rank
    although the index is computed in floating point; all numbers are finite
    and in order, so nothing is refused by the JSON encoder, and nothing panics
    when the workers have keys. Runner: the life of a container on every path
    and when it is left behind, what a pass rests on, the end of the polling
    loops, the build context and the build log, what is done about the network
    at the end, exactly which results are returned. Reports: a JSON file that
    was written gives back the identical report, the tables are regular, show each solution its own
    results, and print correctly rounded numbers; three limits of the tables
    are stated as lemmas. Composition: a solution that implements the API and
    answers requests as long as they are not cancelled is validated and
    benchmarked to the end, with leaks and errors bounded by the requests that
    the ends of the phases cut off.

    ** Not modelled

    The solutions in other languages; [net/http], Docker, the file system and
    the hash function, which are parameters; progress and error messages on
    the terminal (the ticker of a phase among them). The alignment of the
    printed summary is not stated. The counters of a phase and the iteration
    number of a worker are unbounded integers: 2^63 requests are out of reach.
    A request is served at one moment; that concurrent requests behave so is
    the subject of [ConcurrencyTheorems]. *)


From Stdlib Require Export Ascii ZifyBool ZifyN ZifyNat.
From stdpp Require Export base gmap strings pretty fin_maps numbers option list.
From stdpp Require Import options.

(** ** Results: a Go function that returns [(value, error)] *)

(** [Ok a] is [(a, nil)], [Err e] is [(_, e)] with a non-nil error. *)
Inductive result (E A : Type) : Type :=
| Ok (a : A)
| Err (e : E).
Arguments Ok {E A} a.
Arguments Err {E A} e.

#[export] Instance result_ret E : MRet (result E) := fun _ a => Ok a.
#[export] Instance result_bind E : MBind (result E) := fun _ _ f m =>
  match m with Ok a => f a | Err e => Err e end.
#[export] Instance result_fmap E : FMap (result E) := fun _ _ f m =>
  match m with Ok a => Ok (f a) | Err e => Err e end.

#[export] Instance result_eq_dec `{EqDecision E, EqDecision A} :
  EqDecision (result E A).
Proof. solve_decision. Defined.

Definition is_ok {E A} (r : result E A) : bool :=
  match r with Ok _ => true | Err _ => false end.

(** ** Tactics *)

(** Split every [match] and [if] of the goal, keeping the equations. *)
Ltac split_match :=
  repeat match goal with
  | |- context [match ?x with _ => _ end] =>
      lazymatch x with
      | context [match _ with _ => _ end] => fail
      | _ => destruct x eqn:?
      end; simplify_eq/=
  end.

Create HintDb locks.

(** Turn boolean string tests into the propositions they decide. *)
Ltac destruct_eqb :=
  repeat match goal with
  | |- context [String.eqb ?a ?b] => destruct (String.eqb_spec a b); simplify_eq/=
  | H : context [String.eqb ?a ?b] |- _ => destruct (String.eqb_spec a b); simplify_eq/=
  end.

(** ** HTTP status codes, [net/http] *)

Definition StatusOK : Z := 200.
Definition StatusMovedPermanently : Z := 301.
Definition StatusBadRequest : Z := 400.
Definition StatusForbidden : Z := 403.
Definition StatusNotFound : Z := 404.
Definition StatusMethodNotAllowed : Z := 405.
Definition StatusConflict : Z := 409.

(** ** Machine integers *)

(** The [int64] with the same low 64 bits. *)
Definition wrap64 (z : Z) : Z := ((z + 2 ^ 63) mod 2 ^ 64 - 2 ^ 63)%Z.

Lemma wrap64_id z : (- 2 ^ 63 <= z < 2 ^ 63)%Z -> wrap64 z = z.
Proof. intros H. unfold wrap64. rewrite Z.mod_small; lia. Qed.

(** ** Maps split over a list of disjoint parts

    [ms] holds every key [k] in part number [f k] only: the union of the
    parts then behaves as one map. *)
Section partition.
Context {V : Type}.
Implicit Types (m : gmap string V) (ms : list (gmap string V)).

Lemma map_to_list_union_perm m1 m2 :
  m1 ##ₘ m2 -> map_to_list (m1 ∪ m2) ≡ₚ map_to_list m1 ++ map_to_list m2.
Proof.
  intros Hd. apply NoDup_Permutation.
  - apply NoDup_map_to_list.
  - apply NoDup_app. split_and!; [apply NoDup_map_to_list| |apply NoDup_map_to_list].
    intros [k v] H1%elem_of_map_to_list H2%elem_of_map_to_list.
    eapply map_disjoint_spec; eauto.
  - intros [k v]. rewrite elem_of_app, !elem_of_map_to_list.
    by apply lookup_union_Some.
Qed.

Definition parted_from (f : string -> nat) (off : nat) (ms : list (gmap string V)) : Prop :=
  forall i m k, ms !! i = Some m -> is_Some (m !! k) -> f k = (off + i)%nat.

Lemma parted_from_cons f off m ms :
  parted_from f off (m :: ms) <->
  (forall k, is_Some (m !! k) -> f k = off) /\ parted_from f (S off) ms.
Proof.
  split.
  - intros Hp. split.
    + intros k Hk. rewrite (Hp 0%nat m k eq_refl Hk). lia.
    + intros i m' k Hm Hk. rewrite (Hp (S i) m' k Hm Hk). lia.
  - intros [H0 Hp] [|i] m' k Hm Hk; simplify_eq/=.
    + rewrite (H0 k Hk). lia.
    + rewrite (Hp i m' k Hm Hk). lia.
Qed.

Lemma lookup_parted_before f off ms k :
  parted_from f off ms -> (f k < off)%nat -> (⋃ ms) !! k = None.
Proof.
  revert off. induction ms as [|m ms IH]; intros off; simpl; [by rewrite lookup_empty|].
  intros [H0 Hp]%parted_from_cons Hlt. apply lookup_union_None. split.
  - apply eq_None_not_Some. intros Hk%H0. lia.
  - apply (IH (S off)); auto.
Qed.

Lemma lookup_parted f off ms k :
  parted_from f off ms -> (off <= f k)%nat ->
  (⋃ ms) !! k = ms !! (f k - off)%nat ≫= (.!! k).
Proof.
  revert off. induction ms as [|m ms IH]; intros off; simpl.
  { intros _ _. apply lookup_empty. }
  intros [H0 Hp]%parted_from_cons Hle.
  destruct (decide (f k = off)) as [Heq|Hne].
  - rewrite Heq, Nat.sub_diag. simpl.
    destruct (m !! k) as [v|] eqn:E.
    + by apply lookup_union_Some_l.
    + rewrite lookup_union_r by done. eapply lookup_parted_before; eauto. lia.
  - rewrite lookup_union_r.
    + rewrite (IH (S off)) by (auto; lia).
      replace (f k - off)%nat with (S (f k - S off)) by lia. done.
    + apply eq_None_not_Some. intros Hk%H0. lia.
Qed.

Lemma map_to_list_parted f off ms :
  parted_from f off ms -> map_to_list (⋃ ms) ≡ₚ (ms ≫= map_to_list).
Proof.
  revert off. induction ms as [|m ms IH]; intros off; simpl.
  { intros _. by rewrite map_to_list_empty. }
  intros [H0 Hp]%parted_from_cons.
  rewrite map_to_list_union_perm, (IH (S off)); auto.
  apply map_disjoint_spec. intros k v1 v2 Hm Hms.
  rewrite (lookup_parted_before f (S off)) in Hms; [done|done|].
  rewrite (H0 k); eauto.
Qed.

(** Changing one key in its own part changes that key of the union. *)
Lemma parted_update f ms i m m' key :
  parted_from f 0 ms -> ms !! i = Some m -> f key = i ->
  (forall k, k <> key -> m' !! k = m !! k) ->
  parted_from f 0 (<[i := m']> ms) /\
  ⋃ (<[i := m']> ms) = partial_alter (fun _ => m' !! key) key (⋃ ms).
Proof.
  intros Hp Hi <- Hm. pose proof (lookup_lt_Some _ _ _ Hi) as Hlt.
  assert (parted_from f 0 (<[f key := m']> ms)) as Hp'.
  { intros j mj k. rewrite list_lookup_insert.
    case_decide as Hd; [destruct Hd as [<- _]; intros [= <-] Hs|by apply Hp].
    destruct (decide (k = key)) as [->|Hne]; [done|].
    rewrite Hm in Hs by done. by apply (Hp (f key) m). }
  split; [done|]. apply map_eq. intros k.
  rewrite (lookup_parted f 0) by (auto with lia). rewrite Nat.sub_0_r.
  destruct (decide (k = key)) as [->|Hk].
  - by rewrite lookup_partial_alter_eq, list_lookup_insert_eq.
  - rewrite lookup_partial_alter_ne, (lookup_parted f 0), Nat.sub_0_r by (auto with lia).
    rewrite list_lookup_insert. case_decide as Hd; [|done].
    destruct Hd as [He _]. rewrite <- He, Hi. cbn. by apply Hm.
Qed.

End partition.

(** ** Counting the entries of a map that satisfy a test *)

Definition count {A} (p : A -> bool) (m : gmap nat A) : nat :=
  size (filter (fun kv => p kv.2 = true) m).

Lemma count_insert_new {A} (p : A -> bool) m k x :
  m !! k = None -> count p (<[k := x]> m) = ((if p x then 1 else 0) + count p m)%nat.
Proof.
  intros Hk. unfold count. destruct (p x) eqn:E.
  - rewrite map_filter_insert_True by done. apply map_size_insert_None.
    apply map_lookup_filter_None. by left.
  - rewrite map_filter_insert_False by (cbn; congruence). by rewrite delete_id.
Qed.

Lemma count_insert {A} (p : A -> bool) m k x y :
  m !! k = Some x ->
  ((if p x then 1 else 0) + count p (<[k := y]> m))%nat = ((if p y then 1 else 0) + count p m)%nat.
Proof.
  intros Hk. rewrite <- (insert_delete_id m k x) at 2 by done.
  rewrite <- (insert_delete_eq m k y).
  rewrite !count_insert_new by apply lookup_delete_eq. lia.
Qed.

Lemma count_pos {A} (p : A -> bool) m k x :
  m !! k = Some x -> p x = true -> (1 <= count p m)%nat.
Proof.
  intros Hk Hp. rewrite <- (insert_delete_id m k x) by done.
  rewrite count_insert_new by apply lookup_delete_eq. rewrite Hp. lia.
Qed.

(** Two entries that pass count for two. *)
Lemma count_two {A} (p : A -> bool) m k1 k2 x1 x2 :
  k1 <> k2 -> m !! k1 = Some x1 -> m !! k2 = Some x2 -> p x1 = true -> p x2 = true ->
  (2 <= count p m)%nat.
Proof.
  intros Hne H1 H2 P1 P2. rewrite <- (insert_delete_id m k1 x1) by done.
  rewrite count_insert_new by apply lookup_delete_eq. rewrite P1.
  assert (1 <= count p (delete k1 m))%nat; [|lia].
  apply (count_pos p _ k2 x2); [|done]. by rewrite lookup_delete_ne.
Qed.

(** ** Sums over the entries of a map *)

Section weigh.
Context {A : Type}.
Implicit Types (f : nat -> A -> nat) (m : gmap nat A).

Definition weigh f m : nat := map_fold (fun k x acc => f k x + acc)%nat 0%nat m.

Lemma weigh_empty f : weigh f ∅ = 0%nat.
Proof. apply map_fold_empty. Qed.

Lemma weigh_insert_new f m k x : m !! k = None -> weigh f (<[k := x]> m) = (f k x + weigh f m)%nat.
Proof. intros Hk. unfold weigh. rewrite map_fold_insert_L; [done|intros; lia|done]. Qed.

Lemma weigh_insert f m k x y :
  m !! k = Some x -> (weigh f (<[k := y]> m) + f k x = weigh f m + f k y)%nat.
Proof.
  intros Hk. rewrite <- (insert_delete_id m k x Hk) at 2.
  rewrite <- (insert_delete_eq m k y).
  rewrite !weigh_insert_new by apply lookup_delete_eq. lia.
Qed.

Lemma weigh_le f g m : (forall k x, m !! k = Some x -> f k x <= g k x)%nat -> (weigh f m <= weigh g m)%nat.
Proof.
  induction m as [|k x m Hk IH] using map_ind; intros H; [by rewrite !weigh_empty|].
  rewrite !weigh_insert_new by done. pose proof (H k x (lookup_insert_eq _ _ _)).
  assert (weigh f m <= weigh g m)%nat; [|lia]. apply IH. intros k' x' Hx.
  apply (H k'). rewrite lookup_insert_ne; [done|congruence].
Qed.

(** All weights but one are at most those of [g]. *)
Lemma weigh_le_but_one f g m j :
  (forall k x, m !! k = Some x -> k <> j -> f k x <= g k x)%nat ->
  (forall x, m !! j = Some x -> f j x <= g j x + 1)%nat -> (weigh f m <= weigh g m + 1)%nat.
Proof.
  intros H Hj. destruct (m !! j) as [x|] eqn:E.
  - rewrite <- (insert_delete_id m j x E). rewrite !weigh_insert_new by apply lookup_delete_eq.
    specialize (Hj x eq_refl). assert (weigh f (delete j m) <= weigh g (delete j m))%nat; [|lia].
    apply weigh_le. intros k y [Hne Hk]%lookup_delete_Some. by apply H.
  - assert (weigh f m <= weigh g m)%nat; [|lia]. apply weigh_le. intros k x Hk.
    apply H; [done|]. intros ->. by rewrite E in Hk.
Qed.

(** One entry changes; the weights of the others do not grow. *)
Lemma weigh_update f g m j x y :
  m !! j = Some x -> (forall k z, m !! k = Some z -> k <> j -> f k z <= g k z)%nat ->
  (weigh f (<[j := y]> m) + g j x <= weigh g m + f j y)%nat.
Proof.
  intros Hj H. rewrite <- (insert_delete_eq m j y).
  rewrite <- (insert_delete_id m j x Hj) at 2. rewrite !weigh_insert_new by apply lookup_delete_eq.
  assert (weigh f (delete j m) <= weigh g (delete j m))%nat; [|lia].
  apply weigh_le. intros k z [Hne Hk]%lookup_delete_Some. by apply H.
Qed.

Lemma weigh_bound f b m : (forall k x, f k x <= b)%nat -> (weigh f m <= b * size m)%nat.
Proof.
  intros Hb. induction m as [|k x m Hk IH] using map_ind; [rewrite weigh_empty; lia|].
  rewrite weigh_insert_new, map_size_insert_None by done. pose proof (Hb k x). lia.
Qed.

Lemma weigh_zero f m : (forall k x, m !! k = Some x -> f k x = 0)%nat -> weigh f m = 0%nat.
Proof.
  intros H. assert (weigh f m <= weigh (fun _ _ => 0) m)%nat as Hle.
  { apply weigh_le. intros k x Hk. by rewrite (H k x Hk). }
  pose proof (weigh_bound (fun _ _ => 0%nat) 0 m (fun _ _ => le_n 0)). lia.
Qed.

End weigh.

(** Weights that do not depend on the key. *)
Notation total f := (weigh (fun _ => f)).

Lemma total_insert {A} (f : A -> nat) m k x y :
  m !! k = Some x -> (total f (<[k := y]> m) + f x = total f m + f y)%nat.
Proof. apply (weigh_insert (fun _ => f)). Qed.
