(* ===== verification/LockSpec.v ===== *)
(** * The lock table contract

    The abstract state every solution promises (spec.md): a finite map from
    the held keys to their holder, the four operations on it, and the
    interface [LockService] that a store implements and that the HTTP
    handlers, the validator and the load generator are verified against. *)

From S2P Require Import Prelude.
From stdpp Require Import options.

(** One entry of a store, [type Lock struct]; [Since] is an instant in
    nanoseconds since the Unix epoch (UTC). *)
Record Lock := mkLock { Key : string; Lockee : string; Since : Z }.

#[export] Instance Lock_eq_dec : EqDecision Lock.
Proof. solve_decision. Defined.

(** ** Abstract state *)

Record hold := Hold { h_lockee : string; h_since : Z }.

#[export] Instance hold_eq_dec : EqDecision hold.
Proof. solve_decision. Defined.

Definition hold_of (l : Lock) : hold := Hold (Lockee l) (Since l).
Definition lock_of (k : string) (h : hold) : Lock := mkLock k (h_lockee h) (h_since h).

Definition held_by (t : gmap string hold) (key lockee : string) : bool :=
  bool_decide (h_lockee <$> t !! key = Some lockee).

(** spec.md, POST /lock: the request is granted when the key is free, when
    the caller already holds it, or when it is forced. *)
Definition may_acquire (t : gmap string hold) (key lockee : string) (force : bool) : bool :=
  bool_decide (t !! key = None) || held_by t key lockee || force.

(** A grant to the present holder keeps its [since]; any other grant installs
    the caller with the current time; a refusal changes nothing. *)
Definition spec_acquire (now : Z) (key lockee : string) (force : bool)
    (t : gmap string hold) : bool * gmap string hold :=
  if may_acquire t key lockee force
  then (true, if held_by t key lockee then t else <[key := Hold lockee now]> t)
  else (false, t).

Inductive release_outcome := Released | NotHolder | NoSuchLock.

#[export] Instance release_outcome_eq_dec : EqDecision release_outcome.
Proof. solve_decision. Defined.

(** spec.md, POST /unlock. *)
Definition spec_release (key lockee : string) (t : gmap string hold)
    : release_outcome * gmap string hold :=
  if bool_decide (t !! key = None) then (NoSuchLock, t)
  else if held_by t key lockee then (Released, delete key t)
  else (NotHolder, t).

Definition outcome_status (o : release_outcome) : Z :=
  match o with
  | Released => StatusOK
  | NotHolder => StatusForbidden
  | NoSuchLock => StatusNotFound
  end.

(** The text of the error response; spec.md leaves it open, both solutions
    use these words. *)
Definition outcome_msg (o : release_outcome) : string :=
  match o with
  | Released => ""
  | NotHolder => "lockee mismatch"
  | NoSuchLock => "not found"
  end.

(** spec.md, GET /locks: all held locks, in no particular order. *)
Definition locks_of (t : gmap string hold) : list Lock :=
  (fun kh => lock_of kh.1 kh.2) <$> map_to_list t.

(** ** Iteration order

    Go ranges over a map in an unspecified order, chosen afresh by each loop.
    A model of a function that ranges over maps takes the order as an
    argument: [order i l] is the order in which the [i]-th loop of the call
    visits the entries [l]. *)
Record iteration := Iteration {
  order : nat -> list Lock -> list Lock;
  order_perm : forall i l, order i l ≡ₚ l
}.

Definition insertion_order : iteration :=
  Iteration (fun _ l => l) (fun _ l => reflexivity l).
Definition reverse_order : iteration :=
  Iteration (fun _ l => reverse l) (fun _ l => reverse_Permutation l).

(** ** The interface of a store

    The operations, with [None] for a run-time panic. *)
Class LockService (S : Type) := {
  ls_new : S;
  ls_acquire : Z -> string -> string -> bool -> S -> option ((Lock * bool) * S);
  ls_release : string -> string -> S -> option ((Z * string) * S);
  ls_list : iteration -> S -> list Lock
}.

(** What a store promises: an invariant, an abstract table, no panic, and a
    step-by-step refinement of the specification. *)
Class LockServiceLaws (S : Type) `{!LockService S} := {
  ls_inv : S -> Prop;
  ls_abs : S -> gmap string hold;
  ls_new_inv : ls_inv ls_new;
  ls_new_abs : ls_abs ls_new = ∅;
  ls_acquire_law now key lockee force s : ls_inv s ->
    exists l ok s',
      ls_acquire now key lockee force s = Some (l, ok, s') /\ ls_inv s' /\
      spec_acquire now key lockee force (ls_abs s) = (ok, ls_abs s') /\
      Key l = key /\ ls_abs s' !! key = Some (hold_of l);
  ls_release_law key lockee s : ls_inv s ->
    exists o s',
      ls_release key lockee s = Some (outcome_status o, outcome_msg o, s') /\ ls_inv s' /\
      spec_release key lockee (ls_abs s) = (o, ls_abs s');
  ls_list_law it s : ls_inv s -> ls_list it s ≡ₚ locks_of (ls_abs s)
}.

(** ** Facts about the specification *)

Section spec_facts.
Implicit Types (t : gmap string hold) (key lockee : string).

Lemma held_by_true t key lockee :
  held_by t key lockee = true <-> exists since, t !! key = Some (Hold lockee since).
Proof.
  unfold held_by. rewrite bool_decide_eq_true. split.
  - destruct (t !! key) as [[]|] eqn:?; intros ?; simplify_eq/=; eauto.
  - intros [? ->]. done.
Qed.

Lemma held_by_Some t key h lockee :
  t !! key = Some h -> held_by t key lockee = bool_decide (h_lockee h = lockee).
Proof. intros Ht. unfold held_by. rewrite Ht; simpl. apply bool_decide_ext. naive_solver. Qed.

Lemma spec_acquire_refused now key lockee force t t' :
  spec_acquire now key lockee force t = (false, t') ->
  force = false /\ t' = t /\ exists h, t !! key = Some h /\ h_lockee h <> lockee.
Proof.
  unfold spec_acquire, may_acquire. intros H.
  destruct (t !! key) as [h|] eqn:E; simplify_option_eq.
  rewrite (held_by_Some _ _ _ _ E) in H.
  destruct force; repeat (case_bool_decide || simplify_eq/=); naive_solver.
Qed.

Lemma spec_acquire_granted now key lockee force t t' :
  spec_acquire now key lockee force t = (true, t') ->
  exists since, t' !! key = Some (Hold lockee since).
Proof.
  unfold spec_acquire. intros H.
  destruct (may_acquire _ _ _ _); simplify_eq/=.
  destruct (held_by t key lockee) eqn:E.
  - by apply held_by_true in E.
  - rewrite lookup_insert_eq. eauto.
Qed.

Lemma spec_acquire_other now key lockee force t ok t' k :
  spec_acquire now key lockee force t = (ok, t') -> k <> key -> t' !! k = t !! k.
Proof.
  unfold spec_acquire. intros H Hk.
  destruct (may_acquire _ _ _ _), (held_by t key lockee); simplify_eq/=; auto.
  by rewrite lookup_insert_ne.
Qed.

Lemma spec_release_other key lockee t o t' k :
  spec_release key lockee t = (o, t') -> k <> key -> t' !! k = t !! k.
Proof.
  unfold spec_release. intros H Hk.
  case_bool_decide; destruct (held_by t key lockee); simplify_eq/=; auto.
  by rewrite lookup_delete_ne.
Qed.

(** The five cases of the operations, by the state of the key. *)
Lemma spec_acquire_free now key lockee force t :
  t !! key = None -> spec_acquire now key lockee force t = (true, <[key := Hold lockee now]> t).
Proof. intros E. unfold spec_acquire, may_acquire, held_by. by rewrite E. Qed.

Lemma spec_acquire_again now key lockee force t since :
  t !! key = Some (Hold lockee since) -> spec_acquire now key lockee force t = (true, t).
Proof.
  intros E. unfold spec_acquire, may_acquire. rewrite (held_by_Some _ _ _ _ E).
  rewrite (bool_decide_true (h_lockee _ = _)) by done. by rewrite orb_true_r.
Qed.

Lemma spec_acquire_taken now key lockee force t h :
  t !! key = Some h -> h_lockee h <> lockee ->
  spec_acquire now key lockee force t =
  (force, if force then <[key := Hold lockee now]> t else t).
Proof.
  intros E Hne. unfold spec_acquire, may_acquire. rewrite (held_by_Some _ _ _ _ E), E.
  rewrite !bool_decide_false by done. by destruct force.
Qed.

Lemma spec_release_held key lockee t since :
  t !! key = Some (Hold lockee since) -> spec_release key lockee t = (Released, delete key t).
Proof.
  intros E. unfold spec_release. rewrite (held_by_Some _ _ _ _ E), E.
  rewrite bool_decide_false, bool_decide_true by done. done.
Qed.

Lemma elem_of_locks_of t l :
  l ∈ locks_of t <-> t !! Key l = Some (hold_of l).
Proof.
  unfold locks_of. rewrite list_elem_of_fmap. split.
  - intros ([k h] & -> & ?%elem_of_map_to_list). simpl. by destruct h.
  - intros H. exists (Key l, hold_of l). destruct l. by rewrite elem_of_map_to_list.
Qed.

Lemma length_locks_of t : length (locks_of t) = size t.
Proof. unfold locks_of. rewrite length_fmap. apply length_map_to_list. Qed.

End spec_facts.
