(* ===== verification/InMemory.v ===== *)
(** * solutions/go-inmemory: the single-map store

    [store] keeps one Go map from keys to [Lock]s. Every operation runs under
    the store's [sync.RWMutex], so the sequential operations are modelled
    here and their interleavings in [Concurrent]. [time.Now().UTC()] is the
    argument [now]. *)

From S2P Require Import Prelude LockSpec.
From stdpp Require Import options.

Record store := mkStore { locks : gmap string Lock }.

Definition newStore : store := mkStore ∅.

Definition acquire (now : Z) (key lockee : string) (force : bool) (s : store)
    : (Lock * bool) * store :=
  match s.(locks) !! key with
  | Some existing =>
      if String.eqb existing.(Lockee) lockee then (existing, true, s)
      else if negb force then (existing, false, s)
      else let l := mkLock key lockee now in
           (l, true, mkStore (<[key := l]> s.(locks)))
  | None =>
      let l := mkLock key lockee now in
      (l, true, mkStore (<[key := l]> s.(locks)))
  end.

Definition release (key lockee : string) (s : store) : (Z * string) * store :=
  match s.(locks) !! key with
  | None => (StatusNotFound, "not found", s)
  | Some existing =>
      if negb (String.eqb existing.(Lockee) lockee)
      then (StatusForbidden, "lockee mismatch", s)
      else (StatusOK, "", mkStore (delete key s.(locks)))
  end.

Definition list_locks (it : iteration) (s : store) : list Lock :=
  it.(order) 0 (snd <$> map_to_list s.(locks)).

(** ** Invariant: an entry is stored under its own key *)

Definition inv (s : store) : Prop :=
  forall k l, s.(locks) !! k = Some l -> Key l = k.

Definition abs (s : store) : gmap string hold := hold_of <$> s.(locks).

Lemma newStore_inv : inv newStore.
Proof. intros k l. simpl. by rewrite lookup_empty. Qed.

Lemma keyed_insert (m : gmap string Lock) (l : Lock) :
  inv (mkStore m) -> inv (mkStore (<[Key l := l]> m)).
Proof. intros Hi k l'. simpl. rewrite lookup_insert. case_decide; naive_solver. Qed.

Lemma keyed_delete (m : gmap string Lock) key :
  inv (mkStore m) -> inv (mkStore (delete key m)).
Proof. intros Hi k l'. simpl. rewrite lookup_delete. case_decide; naive_solver. Qed.

#[export] Hint Resolve newStore_inv keyed_delete : locks.

Lemma acquire_inv now key lockee force s :
  inv s -> inv (acquire now key lockee force s).2.
Proof.
  intros Hi. destruct s as [m]. unfold acquire; simpl.
  split_match; simpl; auto; apply (keyed_insert m (mkLock key lockee now)); auto.
Qed.

Lemma release_inv key lockee s : inv s -> inv (release key lockee s).2.
Proof. intros Hi. destruct s as [m]. unfold release; simpl. split_match; auto with locks. Qed.

(** ** Refinement of the contract *)

Lemma lookup_abs s k : abs s !! k = hold_of <$> s.(locks) !! k.
Proof. apply lookup_fmap. Qed.

Lemma abs_insert m k l : abs (mkStore (<[k := l]> m)) = <[k := hold_of l]> (abs (mkStore m)).
Proof. apply fmap_insert. Qed.

Lemma abs_delete m k : abs (mkStore (delete k m)) = delete k (abs (mkStore m)).
Proof. apply fmap_delete. Qed.

Lemma held_by_abs s k l who :
  s.(locks) !! k = Some l -> held_by (abs s) k who = String.eqb (Lockee l) who.
Proof.
  intros Hl. rewrite (held_by_Some _ _ (hold_of l)); [|by rewrite lookup_abs, Hl].
  simpl. case_bool_decide; by destruct (String.eqb_spec (Lockee l) who).
Qed.

Lemma acquire_refines now key lockee force s l ok s' :
  acquire now key lockee force s = (l, ok, s') ->
  spec_acquire now key lockee force (abs s) = (ok, abs s').
Proof.
  unfold acquire, spec_acquire, may_acquire. intros H.
  destruct (s.(locks) !! key) as [e|] eqn:E.
  - rewrite (held_by_abs _ _ _ _ E), lookup_abs, E.
    destruct (String.eqb (Lockee e) lockee), force; simplify_eq/=; auto.
    by rewrite abs_insert; destruct s.
  - assert (held_by (abs s) key lockee = false) as ->.
    { unfold held_by. by rewrite lookup_abs, E. }
    rewrite lookup_abs, E. simplify_eq/=. by rewrite abs_insert; destruct s.
Qed.

Lemma acquire_returns now key lockee force s l ok s' :
  inv s -> acquire now key lockee force s = (l, ok, s') ->
  Key l = key /\ abs s' !! key = Some (hold_of l).
Proof.
  unfold acquire. intros Hi H. rewrite lookup_abs.
  destruct (s.(locks) !! key) as [e|] eqn:E;
    repeat case_match; simplify_eq/=; rewrite ?lookup_insert_eq, ?E; eauto.
Qed.

Lemma release_refines key lockee s st msg s' :
  release key lockee s = (st, msg, s') ->
  exists o, st = outcome_status o /\ msg = outcome_msg o /\
    spec_release key lockee (abs s) = (o, abs s').
Proof.
  unfold release, spec_release. intros H. rewrite lookup_abs.
  destruct (s.(locks) !! key) as [e|] eqn:E; simplify_eq/=; [|by exists NoSuchLock].
  rewrite (held_by_abs _ _ _ _ E).
  destruct (String.eqb (Lockee e) lockee); simplify_eq/=.
  - exists Released. split_and!; [done..|]. by rewrite abs_delete; destruct s.
  - by exists NotHolder.
Qed.

Lemma list_refines it s : inv s -> list_locks it s ≡ₚ locks_of (abs s).
Proof.
  intros Hi. unfold list_locks, locks_of, abs. rewrite order_perm, map_to_list_fmap.
  rewrite <- list_fmap_compose. apply reflexive_eq, list_fmap_ext.
  intros i [k l] Hl. simpl.
  apply list_elem_of_lookup_2, elem_of_map_to_list, Hi in Hl. subst. by destruct l.
Qed.

#[export] Instance inmemory_service : LockService store := {
  ls_new := newStore;
  ls_acquire now key lockee force s := Some (acquire now key lockee force s);
  ls_release key lockee s := Some (release key lockee s);
  ls_list := list_locks
}.

#[export] Program Instance inmemory_laws : LockServiceLaws store := {
  ls_inv := inv; ls_abs := abs; ls_new_inv := newStore_inv; ls_list_law := list_refines
}.
Next Obligation. apply fmap_empty. Qed.
Next Obligation.
  intros now key lockee force s Hi. simpl.
  destruct (acquire now key lockee force s) as [[l ok] s'] eqn:E.
  exists l, ok, s'. split_and!; auto.
  - generalize (acquire_inv now key lockee force s Hi). by rewrite E.
  - eauto using acquire_refines.
  - eapply acquire_returns; eauto.
  - eapply acquire_returns; eauto.
Qed.
Next Obligation.
  intros key lockee s Hi. simpl.
  destruct (release key lockee s) as [[st msg] s'] eqn:E.
  destruct (release_refines _ _ _ _ _ _ E) as (o & -> & -> & ?).
  exists o, s'. split_and!; auto.
  generalize (release_inv key lockee s Hi). by rewrite E.
Qed.
