(* ===== verification/Sharded.v ===== *)
(** * solutions/go-sharded: the store split over 64 mutex-protected maps

    Each [LockShard] has its own [sync.RWMutex] (see [Concurrent]) and its own
    map; a key lives in the shard its hash selects. The hash function
    [rapidhash.Hash] is third-party code: every definition takes it as the
    argument [Hash], and every theorem holds for any function. An index out of
    the range of [shards] is a run-time panic, modelled as [None]. *)

From S2P Require Import Prelude LockSpec InMemory.
From stdpp Require Import options.

Definition SHARD_COUNT : Z := 64.

Record LockShard := mkLockShard { shardKey : Z; locks : gmap string Lock }.
Record store := mkStore { shards : list LockShard }.

Definition newStore : store :=
  mkStore ((fun i => mkLockShard i ∅) <$> seqZ 0 64).

Section hashed.
Context (Hash : string -> Z).

Definition shard_of (key : string) : Z := Z.land (Hash key) (SHARD_COUNT - 1).

Definition acquire (now : Z) (key lockee : string) (force : bool) (s : store)
    : option ((Lock * bool) * store) :=
  let shard := Z.to_nat (shard_of key) in
  shard_info ← s.(shards) !! shard;
  let put m := mkStore (<[shard := mkLockShard shard_info.(shardKey) m]> s.(shards)) in
  match shard_info.(locks) !! key with
  | Some existing =>
      if String.eqb existing.(Lockee) lockee then Some (existing, true, s)
      else if negb force then Some (existing, false, s)
      else let l := mkLock key lockee now in
           Some (l, true, put (<[key := l]> shard_info.(locks)))
  | None =>
      let l := mkLock key lockee now in
      Some (l, true, put (<[key := l]> shard_info.(locks)))
  end.

Definition release (key lockee : string) (s : store) : option ((Z * string) * store) :=
  let shard := Z.to_nat (shard_of key) in
  shard_info ← s.(shards) !! shard;
  match shard_info.(locks) !! key with
  | None => Some (StatusNotFound, "not found", s)
  | Some existing =>
      if negb (String.eqb existing.(Lockee) lockee)
      then Some (StatusForbidden, "lockee mismatch", s)
      else Some (StatusOK, "",
             mkStore (<[shard := mkLockShard shard_info.(shardKey)
                                   (delete key shard_info.(locks))]> s.(shards)))
  end.

(** The shards are visited one after the other; loop [i] ranges over the map
    of shard [i]. *)
Definition list_locks (it : iteration) (s : store) : list Lock :=
  concat (imap (fun i sh => it.(order) i (snd <$> map_to_list sh.(locks))) s.(shards)).

(** ** Invariant *)

Definition shard_nat (key : string) : nat := Z.to_nat (shard_of key).

Record inv (s : store) : Prop := mkInv {
  inv_len : length s.(shards) = 64%nat;
  inv_shardKey : forall i sh, s.(shards) !! i = Some sh -> sh.(shardKey) = Z.of_nat i;
  inv_parted : parted_from shard_nat 0 (locks <$> s.(shards));
  inv_keyed : forall i sh k l, s.(shards) !! i = Some sh ->
                sh.(locks) !! k = Some l -> Key l = k
}.

Lemma shard_of_range key : (0 <= shard_of key < 64)%Z.
Proof.
  unfold shard_of, SHARD_COUNT. change (64 - 1)%Z with (Z.ones 6).
  rewrite Z.land_ones by lia. apply Z.mod_pos_bound. lia.
Qed.

Lemma shard_nat_lt key : (shard_nat key < 64)%nat.
Proof. unfold shard_nat. pose proof (shard_of_range key). lia. Qed.

Lemma inv_shard s key : inv s -> exists sh, s.(shards) !! shard_nat key = Some sh.
Proof.
  intros Hi. apply lookup_lt_is_Some_2. rewrite (inv_len _ Hi). apply shard_nat_lt.
Qed.

Lemma fresh_inv : inv newStore.
Proof.
  unfold newStore. split; cbn [shards].
  - by rewrite length_fmap, length_seqZ.
  - intros i sh. rewrite list_lookup_fmap.
    destruct (seqZ 0 64 !! i) eqn:E; intros ?; simplify_eq/=.
    apply lookup_seqZ in E. lia.
  - intros i m k Hm [v Hv]. rewrite list_lookup_fmap, list_lookup_fmap in Hm.
    destruct (seqZ 0 64 !! i); simplify_eq/=.
  - intros i sh k l Hsh Hl. rewrite list_lookup_fmap in Hsh.
    destruct (seqZ 0 64 !! i); simplify_eq/=.
Qed.

(** ** Flattening: the single-map store with the same entries *)

Definition merged (s : store) : gmap string Lock := ⋃ (locks <$> s.(shards)).
Definition flatten (s : store) : InMemory.store := InMemory.mkStore (merged s).

Lemma lookup_merged s sh k :
  inv s -> s.(shards) !! shard_nat k = Some sh -> merged s !! k = sh.(locks) !! k.
Proof.
  intros Hi Hsh. unfold merged.
  rewrite (lookup_parted shard_nat 0) by (auto using inv_parted with lia).
  by rewrite Nat.sub_0_r, list_lookup_fmap, Hsh.
Qed.

(** Replacing the map of the shard of [key] by one that differs at [key] only. *)
Definition put_shard (key : string) (sh : LockShard) (m : gmap string Lock) (s : store) : store :=
  mkStore (<[shard_nat key := mkLockShard sh.(shardKey) m]> s.(shards)).

Lemma put_shard_ok key sh m s :
  inv s -> s.(shards) !! shard_nat key = Some sh ->
  (forall k, k <> key -> m !! k = sh.(locks) !! k) ->
  (forall l, m !! key = Some l -> Key l = key) ->
  inv (put_shard key sh m s) /\
  merged (put_shard key sh m s) = partial_alter (fun _ => m !! key) key (merged s).
Proof.
  intros Hi Hsh Hm Hk.
  destruct (parted_update shard_nat (locks <$> s.(shards)) _ sh.(locks) m key
              (inv_parted _ Hi) ltac:(by rewrite list_lookup_fmap, Hsh) eq_refl Hm) as [Hp Hu].
  unfold merged, put_shard; cbn [shards]. rewrite list_fmap_insert. split; [|exact Hu].
  split; cbn [shards].
  - rewrite length_insert. apply Hi.
  - intros i sh'. rewrite list_lookup_insert_Some.
    intros [(<- & <- & _)|[_ ?]]; simpl; eapply inv_shardKey; eauto.
  - by rewrite list_fmap_insert.
  - intros i sh' k l. rewrite list_lookup_insert_Some.
    intros [(<- & <- & _)|[_ ?]]; simpl; [|eapply inv_keyed; eauto].
    destruct (decide (k = key)) as [->|Hne]; [auto|]. rewrite Hm by done. eapply inv_keyed; eauto.
Qed.

Lemma put_insert key sh l s :
  inv s -> s.(shards) !! shard_nat key = Some sh -> Key l = key ->
  inv (put_shard key sh (<[key := l]> sh.(locks)) s) /\
  merged (put_shard key sh (<[key := l]> sh.(locks)) s) = <[key := l]> (merged s).
Proof.
  intros Hi Hsh Hl. edestruct (put_shard_ok key sh (<[key := l]> sh.(locks)) s) as [? Hm]; auto.
  - intros k ?. by rewrite lookup_insert_ne.
  - intros l'. rewrite lookup_insert_eq. naive_solver.
  - split; [done|]. by rewrite Hm, lookup_insert_eq.
Qed.

Lemma put_delete key sh s :
  inv s -> s.(shards) !! shard_nat key = Some sh ->
  inv (put_shard key sh (delete key sh.(locks)) s) /\
  merged (put_shard key sh (delete key sh.(locks)) s) = delete key (merged s).
Proof.
  intros Hi Hsh. edestruct (put_shard_ok key sh (delete key sh.(locks)) s) as [? Hm]; auto.
  - intros k ?. by rewrite lookup_delete_ne.
  - intros l'. by rewrite lookup_delete_eq.
  - split; [done|]. by rewrite Hm, lookup_delete_eq.
Qed.

(** ** Every operation does what the single-map store does *)

Lemma flatten_inv s : inv s -> InMemory.inv (flatten s).
Proof.
  intros Hi k l Hl. destruct (inv_shard s k Hi) as [sh Hsh]. simpl in Hl.
  rewrite (lookup_merged s sh k) in Hl by done. eapply inv_keyed; eauto.
Qed.

Lemma acquire_flatten now key lockee force s :
  inv s ->
  exists l ok s', acquire now key lockee force s = Some (l, ok, s') /\ inv s' /\
    InMemory.acquire now key lockee force (flatten s) = (l, ok, flatten s').
Proof.
  intros Hi. destruct (inv_shard s key Hi) as [sh Hsh].
  destruct (put_insert key sh (mkLock key lockee now) s Hi Hsh eq_refl) as [Hi' Hm].
  unfold acquire, InMemory.acquire, flatten. fold (shard_nat key). rewrite Hsh. simpl.
  fold (put_shard key sh (<[key := mkLock key lockee now]> sh.(locks)) s).
  rewrite (lookup_merged s sh key Hi Hsh).
  destruct (sh.(locks) !! key) as [e|] eqn:E; [|by rewrite <- Hm; eauto 8].
  destruct (String.eqb (Lockee e) lockee), force; simpl; rewrite <- ?Hm; eauto 8.
Qed.

Lemma release_flatten key lockee s :
  inv s ->
  exists st msg s', release key lockee s = Some (st, msg, s') /\ inv s' /\
    InMemory.release key lockee (flatten s) = (st, msg, flatten s').
Proof.
  intros Hi. destruct (inv_shard s key Hi) as [sh Hsh].
  destruct (put_delete key sh s Hi Hsh) as [Hi' Hm].
  unfold release, InMemory.release, flatten. fold (shard_nat key). rewrite Hsh. simpl.
  fold (put_shard key sh (delete key sh.(locks)) s).
  rewrite (lookup_merged s sh key Hi Hsh).
  destruct (sh.(locks) !! key) as [e|] eqn:E; [|by eauto 8].
  destruct (String.eqb (Lockee e) lockee); simpl; rewrite <- ?Hm; eauto 8.
Qed.

Lemma imap_order_perm it (shs : list LockShard) (f : nat -> nat) :
  concat (imap (fun i sh => it.(order) (f i) (snd <$> map_to_list sh.(locks))) shs)
  ≡ₚ snd <$> ((locks <$> shs) ≫= map_to_list).
Proof.
  revert f. induction shs as [|sh shs IH]; intros f; simpl; [done|].
  rewrite order_perm, fmap_app. f_equiv. apply (IH (f ∘ S)).
Qed.

Lemma list_flatten it s :
  inv s -> list_locks it s ≡ₚ InMemory.list_locks it (flatten s).
Proof.
  intros Hi. unfold list_locks, InMemory.list_locks, flatten, merged. simpl.
  rewrite order_perm, (imap_order_perm it _ (fun i => i)).
  f_equiv. symmetry. eapply map_to_list_parted, inv_parted, Hi.
Qed.

Definition abs (s : store) : gmap string hold := InMemory.abs (flatten s).

#[export] Instance sharded_service : LockService store := {
  ls_new := newStore; ls_acquire := acquire; ls_release := release; ls_list := list_locks
}.

Lemma newStore_merged : merged newStore = ∅.
Proof. unfold merged, newStore; simpl. by vm_compute. Qed.

#[export] Program Instance sharded_laws : LockServiceLaws store := {
  ls_inv := inv; ls_abs := abs; ls_new_inv := fresh_inv
}.
Next Obligation.
  change (hold_of <$> merged newStore = ∅). rewrite newStore_merged. apply fmap_empty.
Qed.
Next Obligation.
  intros now key lockee force s Hi. simpl.
  destruct (acquire_flatten now key lockee force s Hi) as (l & ok & s' & -> & Hi' & E).
  exists l, ok, s'. split_and!; auto.
  - eapply InMemory.acquire_refines, E.
  - eapply InMemory.acquire_returns; [|exact E]. by apply flatten_inv.
  - eapply InMemory.acquire_returns; [|exact E]. by apply flatten_inv.
Qed.
Next Obligation.
  intros key lockee s Hi. simpl.
  destruct (release_flatten key lockee s Hi) as (st & msg & s' & -> & Hi' & E).
  destruct (InMemory.release_refines _ _ _ _ _ _ E) as (o & -> & -> & ?). eauto 8.
Qed.
Next Obligation.
  intros it s Hi. simpl. rewrite list_flatten by done.
  apply InMemory.list_refines, flatten_inv, Hi.
Qed.

End hashed.
