(* ===== verification/Utf8.v ===== *)
(** * UTF-8, as Go's [unicode/utf8] reads and writes it

    A Go string is a sequence of bytes, here a [string] of 8-bit [ascii]
    characters. [decode_rune] is [utf8.DecodeRuneInString] (an ill-formed
    prefix is the rune U+FFFD with width 1), [encode_rune] is
    [utf8.AppendRune]. The JSON encoder and decoder are built on them. *)

From S2P Require Import Prelude.
From stdpp Require Import options.
Local Open Scope N_scope.

Ltac Zify.zify_post_hook ::= Z.div_mod_to_equations.

Definition byte (a : ascii) : N := N_of_ascii a.
Definition chr (n : N) : ascii := ascii_of_N n.

Lemma byte_chr n : n < 256 -> byte (chr n) = n.
Proof. apply N_ascii_embedding. Qed.
Lemma chr_byte a : chr (byte a) = a.
Proof. apply ascii_N_embedding. Qed.
Lemma byte_lt a : byte a < 256.
Proof. apply N_ascii_bounded. Qed.

Fixpoint sdrop (n : nat) (s : string) : string :=
  match n, s with
  | S n, String _ s => sdrop n s
  | _, _ => s
  end.

Lemma sdrop_app s t : sdrop (String.length s) (s +:+ t) = t.
Proof. induction s; simpl; auto. Qed.
Lemma length_sdrop n s : String.length (sdrop n s) = (String.length s - n)%nat.
Proof. revert s; induction n; intros [|? s]; simpl; auto. Qed.

Lemma string_app_nil_r s : s +:+ "" = s.
Proof. induction s as [|a s IH]; [done|]. change (String a (s +:+ "") = String a s). by rewrite IH. Qed.
Lemma string_app_nil_l s : "" +:+ s = s.
Proof. done. Qed.
Lemma string_app_cons a s t : String a s +:+ t = String a (s +:+ t).
Proof. done. Qed.
Lemma string_app_assoc (s t u : string) : (s +:+ t) +:+ u = s +:+ (t +:+ u).
Proof. induction s as [|a s IH]; [done|]. by rewrite !string_app_cons, IH. Qed.
Lemma length_sapp s t : String.length (s +:+ t) = (String.length s + String.length t)%nat.
Proof. induction s as [|a s IH]; [done|]. rewrite string_app_cons. simpl. by rewrite IH. Qed.

Definition RuneError : N := 0xFFFD.

Definition valid_rune (r : N) : bool := (r <=? 0x10FFFF) && negb ((0xD800 <=? r) && (r <=? 0xDFFF)).

Definition between (lo hi b : N) : bool := (lo <=? b) && (b <=? hi).

(** [utf8.DecodeRuneInString]: the rune and its width. *)
Definition decode_rune (s : string) : N * nat :=
  match s with
  | "" => (RuneError, 0%nat)
  | String a0 s1 =>
      let b0 := byte a0 in
      if b0 <? 0x80 then (b0, 1%nat)
      else if between 0xC2 0xDF b0 then
        match s1 with
        | String a1 _ =>
            if between 0x80 0xBF (byte a1)
            then ((b0 - 0xC0) * 64 + (byte a1 - 0x80), 2%nat) else (RuneError, 1%nat)
        | _ => (RuneError, 1%nat)
        end
      else if between 0xE0 0xEF b0 then
        match s1 with
        | String a1 (String a2 _) =>
            if between (if b0 =? 0xE0 then 0xA0 else 0x80) (if b0 =? 0xED then 0x9F else 0xBF) (byte a1)
               && between 0x80 0xBF (byte a2)
            then ((b0 - 0xE0) * 4096 + (byte a1 - 0x80) * 64 + (byte a2 - 0x80), 3%nat)
            else (RuneError, 1%nat)
        | _ => (RuneError, 1%nat)
        end
      else if between 0xF0 0xF4 b0 then
        match s1 with
        | String a1 (String a2 (String a3 _)) =>
            if between (if b0 =? 0xF0 then 0x90 else 0x80) (if b0 =? 0xF4 then 0x8F else 0xBF) (byte a1)
               && between 0x80 0xBF (byte a2) && between 0x80 0xBF (byte a3)
            then ((b0 - 0xF0) * 262144 + (byte a1 - 0x80) * 4096 + (byte a2 - 0x80) * 64
                  + (byte a3 - 0x80), 4%nat)
            else (RuneError, 1%nat)
        | _ => (RuneError, 1%nat)
        end
      else (RuneError, 1%nat)
  end.

(** [utf8.AppendRune]: surrogates and runes out of range become U+FFFD. *)
Definition encode_rune (r0 : N) : string :=
  let r := if valid_rune r0 then r0 else RuneError in
  if r <? 0x80 then String (chr r) ""
  else if r <? 0x800 then
    String (chr (0xC0 + r / 64)) (String (chr (0x80 + r mod 64)) "")
  else if r <? 0x10000 then
    String (chr (0xE0 + r / 4096)) (String (chr (0x80 + (r / 64) mod 64))
      (String (chr (0x80 + r mod 64)) ""))
  else
    String (chr (0xF0 + r / 262144)) (String (chr (0x80 + (r / 4096) mod 64))
      (String (chr (0x80 + (r / 64) mod 64)) (String (chr (0x80 + r mod 64)) ""))).

(** Well-formed UTF-8: the encoding of a sequence of valid runes. *)
Inductive utf8 : string -> Prop :=
| utf8_nil : utf8 ""
| utf8_cons r s : valid_rune r = true -> utf8 s -> utf8 (encode_rune r +:+ s).

Create HintDb utf8.
#[export] Hint Constructors utf8 : utf8.

(** Split the boolean range tests and let [lia] read the byte equations. *)
Ltac rune_lia := unfold valid_rune, between, RuneError in *; lia.
Ltac rune_cases :=
  repeat match goal with
  | |- context [if ?b then _ else _] =>
      lazymatch b with context [if _ then _ else _] => fail | _ => destruct b eqn:? end
  end.

Lemma decode_encode_rune r s :
  valid_rune r = true ->
  decode_rune (encode_rune r +:+ s) = (r, String.length (encode_rune r)).
Proof.
  intros Hr. unfold encode_rune. rewrite Hr.
  destruct (r <? 0x80) eqn:E1; [|destruct (r <? 0x800) eqn:E2; [|destruct (r <? 0x10000) eqn:E3]];
    rewrite !string_app_cons; cbn [decode_rune String.length];
    rewrite !byte_chr by rune_lia; rune_cases; try rune_lia; f_equal; rune_lia.
Qed.

Lemma decode_rune_valid s : valid_rune (decode_rune s).1 = true.
Proof.
  unfold decode_rune. destruct s as [|a0 [|a1 [|a2 [|a3 s]]]]; [done|..];
    rune_cases; cbn [fst]; try done;
    repeat match goal with a : ascii |- _ => pose proof (byte_lt a); generalize dependent (byte a); clear a; intros end;
    rune_lia.
Qed.

Lemma decode_rune_width s :
  s <> "" -> (1 <= (decode_rune s).2 <= String.length s)%nat.
Proof.
  intros Hs. unfold decode_rune. destruct s as [|a0 [|a1 [|a2 [|a3 s]]]]; [done|..];
    rune_cases; cbn [snd String.length]; lia.
Qed.

Lemma encode_rune_nonempty r : (1 <= String.length (encode_rune r))%nat.
Proof. unfold encode_rune. rune_cases; cbn [String.length]; lia. Qed.

Lemma utf8_app s t : utf8 s -> utf8 t -> utf8 (s +:+ t).
Proof. intros Hs Ht. induction Hs; [done|]. rewrite string_app_assoc. by constructor. Qed.

Lemma utf8_rune r : valid_rune r = true -> utf8 (encode_rune r).
Proof. intros Hr. rewrite <- (string_app_nil_r (encode_rune r)). auto with utf8. Qed.

Lemma encode_rune_coerced r : encode_rune r = encode_rune (if valid_rune r then r else RuneError).
Proof. unfold encode_rune. destruct (valid_rune r) eqn:E; by rewrite ?E. Qed.

(** Whatever [encode_rune] is given, what it writes is well formed. *)
Lemma utf8_encode_rune r : utf8 (encode_rune r).
Proof. rewrite encode_rune_coerced. apply utf8_rune. destruct (valid_rune r) eqn:E; by rewrite ?E. Qed.

Lemma encode_rune_ascii a : byte a < 0x80 -> encode_rune (byte a) = String a "".
Proof.
  intros Ha. unfold encode_rune.
  assert (valid_rune (byte a) = true) as -> by rune_lia.
  destruct (byte a <? 0x80) eqn:E; [|rune_lia]. by rewrite chr_byte.
Qed.

Lemma utf8_ascii_cons a s : byte a < 0x80 -> utf8 s -> utf8 (String a s).
Proof.
  intros Ha Hs. change (String a s) with (String a "" +:+ s).
  rewrite <- encode_rune_ascii by done. constructor; [rune_lia|done].
Qed.

(** A decidable sufficient condition: pure ASCII. *)
Fixpoint ascii_only (s : string) : bool :=
  match s with "" => true | String a s => (byte a <? 0x80) && ascii_only s end.

Lemma utf8_ascii s : ascii_only s = true -> utf8 s.
Proof.
  induction s as [|a s IH]; simpl; [auto with utf8|].
  intros [? ?]%andb_true_iff. apply utf8_ascii_cons; [lia|auto].
Qed.

#[export] Hint Resolve utf8_app utf8_encode_rune utf8_rune utf8_ascii : utf8.

(** The runes of a string with their widths, as [for range] visits them. *)
Fixpoint runes_fuel (n : nat) (s : string) : list (N * nat) :=
  match n with
  | O => []
  | S n =>
      match s with
      | "" => []
      | _ => let rw := decode_rune s in rw :: runes_fuel n (sdrop rw.2 s)
      end
  end.
Definition runes (s : string) : list (N * nat) := runes_fuel (String.length s) s.

Lemma runes_fuel_enough n m s :
  (String.length s <= n)%nat -> (String.length s <= m)%nat -> runes_fuel n s = runes_fuel m s.
Proof.
  revert m s. induction n as [|n IH]; intros [|m] s Hn Hm; try (destruct s; simpl in *; [done|lia]).
  destruct s as [|a s']; [done|]. cbn [runes_fuel].
  pose proof (decode_rune_width (String a s') ltac:(done)) as Hw. cbv zeta. f_equal.
  apply IH; rewrite length_sdrop; cbn [String.length] in *; lia.
Qed.

Lemma runes_cons r s :
  valid_rune r = true -> runes (encode_rune r +:+ s) = (r, String.length (encode_rune r)) :: runes s.
Proof.
  intros Hr. unfold runes.
  pose proof (encode_rune_nonempty r) as Hne. rewrite length_sapp.
  destruct (String.length (encode_rune r) + String.length s)%nat as [|n] eqn:En; [lia|].
  cbn [runes_fuel]. rewrite decode_encode_rune by done. cbn [snd]. rewrite sdrop_app.
  destruct (encode_rune r +:+ s) eqn:Es; [apply (f_equal String.length) in Es; rewrite length_sapp in Es; simpl in Es; lia|].
  f_equal. apply runes_fuel_enough; lia.
Qed.

#[global] Arguments decode_rune : simpl never.
#[global] Arguments encode_rune : simpl never.
#[global] Arguments byte : simpl never.
#[global] Arguments chr : simpl never.
#[global] Arguments sdrop : simpl never.
