(* ===== verification/Json.v ===== *)
(** * JSON, as Go's [encoding/json] reads and writes it

    [print] is the compact output of [json.Marshal] and [Encoder.Encode]
    (strings escaped as [appendString] does with HTML escaping on),
    [parse_value] the syntax [scanner] accepts with [unquote] for string
    literals, and [decode_struct] the way [decodeState.object] fills a struct.
    The parser takes fuel: every call consumes input, except that an array
    element is parsed where the array's tail starts, so that one unit more than
    twice the length of the input is always enough ([JsonFacts.parse_total]). *)

From S2P Require Import Prelude Utf8.
From stdpp Require Import options.
Local Open Scope N_scope.

#[local] Set Warnings "-register-all".

Inductive json :=
| JNull
| JBool (b : bool)
| JNum (lit : string)
| JStr (s : string)
| JArr (l : list json)
| JObj (ms : list (string * json)).

(** Induction that reaches into the lists. *)
Section json_ind'.
Context (P : json -> Prop)
  (Hnull : P JNull) (Hbool : forall b, P (JBool b)) (Hnum : forall l, P (JNum l))
  (Hstr : forall s, P (JStr s))
  (Harr : forall l, Forall P l -> P (JArr l))
  (Hobj : forall ms, Forall (fun kv => P kv.2) ms -> P (JObj ms)).

Fixpoint json_ind' (v : json) : P v :=
  match v with
  | JNull => Hnull
  | JBool b => Hbool b
  | JNum l => Hnum l
  | JStr s => Hstr s
  | JArr l => Harr l ((fix go l : Forall P l :=
      match l with [] => List.Forall_nil _ | v :: l => List.Forall_cons _ _ _ (json_ind' v) (go l) end) l)
  | JObj ms => Hobj ms ((fix go ms : Forall (fun kv => P kv.2) ms :=
      match ms with
      | [] => List.Forall_nil _
      | kv :: ms => List.Forall_cons _ _ _ (json_ind' kv.2) (go ms)
      end) ms)
  end.
End json_ind'.

(** ** Characters *)

Definition dquote : ascii := "034"%char.
Definition backslash : ascii := "092"%char.
Definition str1 (a : ascii) : string := String a "".

Definition hex (n : N) : ascii := if n <? 10 then chr (48 + n) else chr (87 + n).

Definition unhex (a : ascii) : option N :=
  let b := byte a in
  if between 48 57 b then Some (b - 48)
  else if between 97 102 b then Some (b - 87)
  else if between 65 70 b then Some (b - 55)
  else None.

Lemma unhex_hex n : n < 16 -> unhex (hex n) = Some n.
Proof.
  intros Hn. unfold unhex, hex. destruct (n <? 10) eqn:E; rewrite byte_chr by lia;
    rune_cases; try rune_lia; f_equal; rune_lia.
Qed.

(** ** Writing strings, [appendString] *)

Definition short_escape (r : N) : option ascii :=
  if r =? 34 then Some dquote else if r =? 92 then Some backslash
  else if r =? 8 then Some "b"%char else if r =? 12 then Some "f"%char
  else if r =? 10 then Some "n"%char else if r =? 13 then Some "r"%char
  else if r =? 9 then Some "t"%char else None.

Definition needs_u_escape (r : N) : bool :=
  (r <? 32) || (r =? 60) || (r =? 62) || (r =? 38).

Definition quote_rune (rw : N * nat) : string :=
  let '(r, w) := rw in
  if r <? 0x80 then
    match short_escape r with
    | Some c => String backslash (str1 c)
    | None =>
        if needs_u_escape r
        then String backslash ("u00" +:+ String (hex (r / 16)) (str1 (hex (r mod 16))))
        else str1 (chr r)
    end
  else if (r =? RuneError) && (w =? 1)%nat then String backslash "ufffd"
  else if (r =? 0x2028) || (r =? 0x2029)
  then String backslash ("u202" +:+ str1 (hex (r mod 16)))
  else encode_rune r.

Definition cat (l : list string) : string := foldr String.app "" l.

Definition quote (s : string) : string :=
  String dquote (cat (quote_rune <$> runes s) +:+ str1 dquote).

(** ** Reading *)

(** Outcome of a parser: a value and the unread input, a syntax error, or
    fuel run out. *)
Inductive pres (A : Type) :=
| POk (a : A) (rest : string)
| PErr
| PFuel.
Arguments POk {A} a rest.
Arguments PErr {A}.
Arguments PFuel {A}.

Definition pbind {A B} (m : pres A) (k : A -> string -> pres B) : pres B :=
  match m with POk a r => k a r | PErr => PErr | PFuel => PFuel end.

Definition pmap {A B} (f : A -> B) (m : pres A) : pres B := pbind m (fun a r => POk (f a) r).

(** The input after the character [c], if it starts with [c]. *)
Definition eat (c : ascii) (s : string) : option string :=
  match s with
  | String a s' => if Ascii.eqb a c then Some s' else None
  | "" => None
  end.

Definition unescape (a : ascii) : option ascii :=
  match a with
  | "034"%char => Some dquote | "092"%char => Some backslash | "/"%char => Some "/"%char
  | "b"%char => Some "008"%char | "f"%char => Some "012"%char | "n"%char => Some "010"%char
  | "r"%char => Some "013"%char | "t"%char => Some "009"%char
  | _ => None
  end.

(** Four hexadecimal digits. *)
Definition getu4 (s : string) : option N :=
  match s with
  | String a (String b (String c (String d _))) =>
      a ← unhex a; b ← unhex b; c ← unhex c; d ← unhex d;
      Some (((a * 16 + b) * 16 + c) * 16 + d)
  | _ => None
  end.

(** A further \uXXXX at the head of [s]. *)
Definition next_u4 (s : string) : option N :=
  s1 ← eat backslash s; s2 ← eat "u" s1; getu4 s2.

Definition is_surrogate (r : N) : bool := between 0xD800 0xDFFF r.

(** [utf16.DecodeRune] *)
Definition join_surrogates (r1 r2 : N) : option N :=
  if between 0xD800 0xDBFF r1 && between 0xDC00 0xDFFF r2
  then Some ((r1 - 0xD800) * 1024 + (r2 - 0xDC00) + 0x10000) else None.

(** The rest of a string literal after its opening quote, [unquoteBytes]. *)
Fixpoint unquote (n : nat) (s : string) : pres string :=
  match n with
  | O => PFuel
  | S n =>
      match s with
      | "" => PErr
      | String c s1 =>
          let b := byte c in
          if b =? 34 then POk "" s1
          else if b =? 92 then
            match s1 with
            | "" => PErr
            | String e s2 =>
                match unescape e with
                | Some c' => pmap (String c') (unquote n s2)
                | None =>
                    if Ascii.eqb e "u"%char then
                      match getu4 s2 with
                      | None => PErr
                      | Some rr =>
                          let s3 := sdrop 4 s2 in
                          if is_surrogate rr then
                            match rr1 ← next_u4 s3; join_surrogates rr rr1 with
                            | Some dec => pmap (String.app (encode_rune dec)) (unquote n (sdrop 6 s3))
                            | None => pmap (String.app (encode_rune RuneError)) (unquote n s3)
                            end
                          else pmap (String.app (encode_rune rr)) (unquote n s3)
                      end
                    else PErr
                end
            end
          else if b <? 32 then PErr
          else if b <? 128 then pmap (String c) (unquote n s1)
          else let rw := decode_rune s in
               pmap (String.app (encode_rune rw.1)) (unquote n (sdrop rw.2 s))
      end
  end.

Definition parse_string (s : string) : pres string := unquote (S (String.length s)) s.

Definition is_space (a : ascii) : bool :=
  let b := byte a in (b =? 32) || (b =? 9) || (b =? 10) || (b =? 13).

Fixpoint skip_ws (s : string) : string :=
  match s with
  | String a s' => if is_space a then skip_ws s' else s
  | "" => ""
  end.

Definition is_digit (a : ascii) : bool := between 48 57 (byte a).

Fixpoint digits (s : string) : string * string :=
  match s with
  | String a s' => if is_digit a then let ds := digits s' in (String a ds.1, ds.2) else ("", s)
  | "" => ("", "")
  end.

(** The integer part: 0, or a non-zero digit and more digits. *)
Definition scan_int (s : string) : option (string * string) :=
  match eat "0" s, s with
  | Some s', _ => Some ("0", s')
  | None, String a _ => if is_digit a then Some (digits s) else None
  | None, "" => None
  end.

Definition scan_digits1 (pre s : string) : option (string * string) :=
  let ds := digits s in
  if String.eqb ds.1 "" then None else Some (pre +:+ ds.1, ds.2).

Definition scan_frac (s : string) : option (string * string) :=
  match eat "." s with
  | Some s' => scan_digits1 "." s'
  | None => Some ("", s)
  end.

Definition is_exp_char (a : ascii) : bool := Ascii.eqb a "e" || Ascii.eqb a "E".
Definition is_sign_char (a : ascii) : bool := Ascii.eqb a "+" || Ascii.eqb a "-".

Definition scan_exp (s : string) : option (string * string) :=
  match s with
  | String e s' =>
      if is_exp_char e then
        match s' with
        | String g s'' =>
            if is_sign_char g then scan_digits1 (String e (str1 g)) s''
            else scan_digits1 (str1 e) s'
        | "" => None
        end
      else Some ("", s)
  | "" => Some ("", "")
  end.

(** A number literal, kept as text. *)
Definition scan_number (s : string) : option (string * string) :=
  let ms := match eat "-" s with Some s' => ("-", s') | None => ("", s) end in
  i ← scan_int ms.2; f ← scan_frac i.2; e ← scan_exp f.2;
  Some (ms.1 +:+ i.1 +:+ f.1 +:+ e.1, e.2).

(** [maxNestingDepth] *)
Definition max_depth : N := 10000.

Definition expect (lit : string) (v : json) (s : string) : pres json :=
  if String.prefix lit s then POk v (sdrop (String.length lit) s) else PErr.

Fixpoint parse_value (n : nat) (d : N) (s : string) {struct n} : pres json :=
  match n with
  | O => PFuel
  | S n =>
      match skip_ws s with
      | "" => PErr
      | String c s1 =>
          if Ascii.eqb c "{" then
            if max_depth <? d + 1 then PErr else
            match eat "}" (skip_ws s1) with
            | Some s2 => POk (JObj []) s2
            | None => pmap JObj (parse_members n (d + 1) s1)
            end
          else if Ascii.eqb c "[" then
            if max_depth <? d + 1 then PErr else
            match eat "]" (skip_ws s1) with
            | Some s2 => POk (JArr []) s2
            | None => pmap JArr (parse_elements n (d + 1) s1)
            end
          else if Ascii.eqb c dquote then pmap JStr (parse_string s1)
          else if Ascii.eqb c "t" then expect "rue" (JBool true) s1
          else if Ascii.eqb c "f" then expect "alse" (JBool false) s1
          else if Ascii.eqb c "n" then expect "ull" JNull s1
          else match scan_number (String c s1) with
               | Some (lit, r) => POk (JNum lit) r
               | None => PErr
               end
      end
  end
with parse_members (n : nat) (d : N) (s : string) {struct n} : pres (list (string * json)) :=
  match n with
  | O => PFuel
  | S n =>
      match eat dquote (skip_ws s) with
      | Some s1 =>
          pbind (parse_string s1) (fun k r =>
          match eat ":" (skip_ws r) with
          | Some r1 =>
              pbind (parse_value n d r1) (fun v r2 =>
              match eat "," (skip_ws r2), eat "}" (skip_ws r2) with
              | Some r3, _ => pmap (cons (k, v)) (parse_members n d r3)
              | None, Some r3 => POk [(k, v)] r3
              | None, None => PErr
              end)
          | None => PErr
          end)
      | None => PErr
      end
  end
with parse_elements (n : nat) (d : N) (s : string) {struct n} : pres (list json) :=
  match n with
  | O => PFuel
  | S n =>
      pbind (parse_value n d s) (fun v r =>
      match eat "," (skip_ws r), eat "]" (skip_ws r) with
      | Some r1, _ => pmap (cons v) (parse_elements n d r1)
      | None, Some r1 => POk [v] r1
      | None, None => PErr
      end)
  end.

Definition parse (s : string) : pres json := parse_value (S (2 * String.length s)) 0 s.

(** ** Writing values *)

Fixpoint print (v : json) : string :=
  match v with
  | JNull => "null"
  | JBool true => "true"
  | JBool false => "false"
  | JNum lit => lit
  | JStr s => quote s
  | JArr l => "[" +:+ String.concat "," (print <$> l) +:+ "]"
  | JObj ms => "{" +:+ String.concat "," ((fun kv => quote kv.1 +:+ ":" +:+ print kv.2) <$> ms) +:+ "}"
  end.

(** ** Decoding into structs *)

(** [foldName] on the runes that matter to an ASCII field name: letters to
    upper case, U+017F (long s) to S and U+212A (Kelvin sign) to K. Any other
    rune folds to a rune that no ASCII name contains, and is kept. *)
Definition fold_rune (r : N) : N :=
  if between 97 122 r then r - 32
  else if r =? 0x17F then 83 else if r =? 0x212A then 75 else r.

Definition fold_name (s : string) : string :=
  cat ((fun rw => encode_rune (fold_rune rw.1)) <$> runes s).

(** The struct field an object key selects: the field with exactly that name,
    else the first whose name is equal after folding. *)
Definition match_field (names : list string) (key : string) : option string :=
  if bool_decide (key ∈ names) then Some key
  else list_find (fun f => fold_name f = fold_name key) names ≫= fun f => Some f.2.

(** Storing a value in a field: the new content and whether there was an
    [UnmarshalTypeError]; [null] leaves the field as it is. *)
Definition set_string (old : string) (v : json) : string * bool :=
  match v with JStr s => (s, false) | JNull => (old, false) | _ => (old, true) end.
Definition set_bool (old : bool) (v : json) : bool * bool :=
  match v with JBool b => (b, false) | JNull => (old, false) | _ => (old, true) end.

(** [set t f v] stores [v] in field [f] of [t]. A type error is remembered and
    decoding goes on; unknown keys are skipped. *)
Definition decode_struct {T} (names : list string) (set : T -> string -> json -> T * bool)
    (zero : T) (v : json) : T * bool :=
  match v with
  | JNull => (zero, false)
  | JObj ms =>
      foldl (fun te kv =>
        match match_field names kv.1 with
        | Some f => let te' := set te.1 f kv.2 in (te'.1, te.2 || te'.2)
        | None => te
        end) (zero, false) ms
  | _ => (zero, true)
  end.

(** Decoding into a fresh slice. *)
Definition decode_slice {T} (elem : json -> T * bool) (old : list T) (v : json) : list T * bool :=
  match v with
  | JNull => ([], false)
  | JArr l => (fst <$> (elem <$> l), existsb snd (elem <$> l))
  | _ => (old, true)
  end.

(** [json.NewDecoder(r).Decode(&x)]: one value from the head of the stream. *)
Definition Decode {T} (dec : json -> T * bool) (s : string) : option T :=
  match parse s with
  | POk v _ => let te := dec v in if te.2 then None else Some te.1
  | _ => None
  end.

(** [json.Unmarshal(s, &x)]: the whole input is one value. *)
Definition Unmarshal {T} (dec : json -> T * bool) (s : string) : option T :=
  match parse s with
  | POk v r =>
      if String.eqb (skip_ws r) "" then
        let te := dec v in if te.2 then None else Some te.1
      else None
  | _ => None
  end.

(** [json.NewEncoder(w).Encode(v)] *)
Definition Encode (v : json) : string := print v +:+ str1 "010"%char.
