(* ===== verification/JsonFacts.v ===== *)
(** * Facts about the JSON layer

    The parser is total (its fuel is never what makes it fail), every string
    it returns is well-formed UTF-8, and it reads back what [print] writes. *)

From S2P Require Import Prelude Utf8 Json.
From stdpp Require Import options.
Local Open Scope N_scope.

(** ** Sequencing *)

Lemma pmap_POk {A B} (f : A -> B) m b r :
  pmap f m = POk b r <-> exists a, m = POk a r /\ b = f a.
Proof. unfold pmap. destruct m; simpl; naive_solver. Qed.
Lemma pbind_POk {A B} (m : pres A) (k : A -> string -> pres B) b r :
  pbind m k = POk b r <-> exists a s, m = POk a s /\ k a s = POk b r.
Proof. destruct m; simpl; naive_solver. Qed.
Lemma pmap_PFuel {A B} (f : A -> B) m : pmap f m = PFuel <-> m = PFuel.
Proof. unfold pmap. destruct m; simpl; naive_solver. Qed.
Lemma pbind_PFuel {A B} (m : pres A) (k : A -> string -> pres B) :
  pbind m k = PFuel <-> m = PFuel \/ exists a s, m = POk a s /\ k a s = PFuel.
Proof. destruct m; simpl; naive_solver. Qed.

(** Take a parser hypothesis apart, one construct at a time. *)
Ltac parse_inv :=
  repeat match goal with
  | H : pmap _ _ = POk _ _ |- _ => apply pmap_POk in H; destruct H as (? & ? & ?)
  | H : pbind _ _ = POk _ _ |- _ => apply pbind_POk in H; destruct H as (? & ? & ? & ?)
  | H : pmap _ _ = PFuel |- _ => apply pmap_PFuel in H
  | H : pbind _ _ = PFuel |- _ =>
      apply pbind_PFuel in H; destruct H as [?|(? & ? & ? & ?)]
  | H : match ?x with _ => _ end = _ |- _ =>
      lazymatch x with
      | context [match _ with _ => _ end] => fail
      | _ => destruct x eqn:?
      end
  | _ => progress simplify_eq/=
  end.

(** ** String literals *)

Lemma unquote_shorter n s t r :
  unquote n s = POk t r -> (String.length r < String.length s)%nat.
Proof.
  revert s t r. induction n as [|n IH]; intros s t r; [done|].
  destruct s as [|c s1]; [done|]. cbn [unquote]. intros H.
  assert (Hw := decode_rune_width (String c s1) ltac:(done)).
  parse_inv;
    repeat match goal with
    | H : unquote _ _ = POk _ _ |- _ =>
        apply IH in H; rewrite ?length_sdrop in H; cbn [String.length] in *
    end; cbn [String.length] in *; lia.
Qed.

Lemma unquote_total n s : (String.length s < n)%nat -> unquote n s <> PFuel.
Proof.
  revert s. induction n as [|n IH]; intros s Hn H; [lia|].
  destruct s as [|c s1]; [done|]. cbn [unquote] in H.
  assert (Hw := decode_rune_width (String c s1) ltac:(done)).
  parse_inv;
    match goal with
    | H : unquote _ _ = PFuel |- _ =>
        apply IH in H; [done|rewrite ?length_sdrop; cbn [String.length] in *; lia]
    end.
Qed.

Lemma unescape_ascii a b : unescape a = Some b -> byte b < 0x80.
Proof. unfold unescape. intros H. repeat (case_match; simplify_eq/=); vm_compute; done. Qed.

(** Whatever bytes arrive, a decoded string is well-formed UTF-8. *)
Lemma unquote_utf8 n s t r : unquote n s = POk t r -> utf8 t.
Proof.
  revert s t r. induction n as [|n IH]; intros s t r; [done|].
  destruct s as [|c s1]; [done|]. cbn [unquote]. intros H.
  parse_inv; eauto with utf8.
  - apply utf8_ascii_cons; eauto using unescape_ascii.
  - apply utf8_ascii_cons; eauto. lia.
Qed.

Lemma encode_rune_high r :
  valid_rune r = true -> 0x80 <= r ->
  exists a s, encode_rune r = String a s /\ 0x80 <= byte a.
Proof.
  intros Hr Hge. unfold encode_rune. rewrite Hr.
  rune_cases; try rune_lia; eexists _, _; (split; [done|]); rewrite byte_chr; rune_lia.
Qed.

Lemma pmap_ext {A B} (f g : A -> B) m : (forall a, f a = g a) -> pmap f m = pmap g m.
Proof. intros Hfg. destruct m; unfold pmap; simpl; by rewrite ?Hfg. Qed.

Lemma short_escape_cases r c :
  short_escape r = Some c ->
  r < 0x80 /\ unescape c = Some (chr r) /\ encode_rune r = str1 (chr r).
Proof.
  unfold short_escape. intros H.
  repeat match type of H with
  | (if ?b then _ else _) = _ => destruct b eqn:?
  end; simplify_eq; repeat match goal with E : (r =? _) = true |- _ => apply N.eqb_eq in E; subst end;
  vm_compute; done.
Qed.

Lemma getu4_hex4 a b c d s :
  a < 16 -> b < 16 -> c < 16 -> d < 16 ->
  getu4 (String (hex a) (String (hex b) (String (hex c) (String (hex d) s))))
  = Some (((a * 16 + b) * 16 + c) * 16 + d).
Proof. intros. cbn [getu4]. by rewrite !unhex_hex by done. Qed.

(** One escaped rune is read back as that rune. *)
Lemma unquote_u n r d0 d1 d2 d3 s :
  d0 < 16 -> d1 < 16 -> d2 < 16 -> d3 < 16 ->
  r = ((d0 * 16 + d1) * 16 + d2) * 16 + d3 -> is_surrogate r = false ->
  unquote (S n) (String backslash (String "u" (String (hex d0) (String (hex d1)
                  (String (hex d2) (String (hex d3) s))))))
  = pmap (String.app (encode_rune r)) (unquote n s).
Proof.
  intros ???? -> Hs. cbn [unquote].
  change (byte backslash =? 34) with false. change (byte backslash =? 92) with true.
  change (unescape "u") with (@None ascii). change (Ascii.eqb "u" "u") with true. cbv iota.
  rewrite getu4_hex4 by done. cbv zeta iota. rewrite Hs. done.
Qed.

Lemma unquote_quote_rune n r s :
  valid_rune r = true ->
  unquote (S n) (quote_rune (r, String.length (encode_rune r)) +:+ s)
  = pmap (String.app (encode_rune r)) (unquote n s).
Proof.
  intros Hr. unfold quote_rune, str1. destruct (r <? 0x80) eqn:Elt.
  - assert (encode_rune r = String (chr r) "") as Henc.
    { rewrite <- (byte_chr r) at 1 by lia. apply encode_rune_ascii. rewrite byte_chr; lia. }
    destruct (short_escape r) as [c|] eqn:Es; [|destruct (needs_u_escape r) eqn:En].
    + apply short_escape_cases in Es as (_ & Hu & _).
      rewrite !string_app_cons. cbn [unquote].
      change (byte backslash =? 34) with false. change (byte backslash =? 92) with true.
      cbv iota. change ("" +:+ s) with s. rewrite Hu, Henc. by apply pmap_ext.
    + rewrite !string_app_cons.
      apply (unquote_u n r 0 0 (r / 16) (r mod 16) s); unfold is_surrogate; try rune_lia.
    + rewrite !string_app_cons. cbn [unquote]. rewrite byte_chr by lia.
      unfold needs_u_escape, short_escape in *.
      destruct (r =? 34) eqn:?; [done|]. destruct (r =? 92) eqn:?; [done|].
      destruct (r <? 32) eqn:?; [done|]. destruct (r <? 128) eqn:?; [|lia].
      rewrite Henc. by apply pmap_ext.
  - destruct ((r =? RuneError) && _) eqn:E1.
    { apply andb_true_iff in E1 as [E E1]. apply N.eqb_eq in E. by subst r. }
    destruct ((r =? 0x2028) || (r =? 0x2029)) eqn:E2.
    + rewrite !string_app_cons.
      apply (unquote_u n r 2 0 2 (r mod 16) s); unfold is_surrogate; try rune_lia.
    + destruct (encode_rune_high r Hr ltac:(lia)) as (a & s' & He & Ha).
      assert (decode_rune (encode_rune r +:+ s) = (r, String.length (encode_rune r)))
        as Hd by by apply decode_encode_rune.
      assert (sdrop (String.length (encode_rune r)) (encode_rune r +:+ s) = s)
        as Hdrop by apply sdrop_app.
      rewrite He, string_app_cons in Hd, Hdrop |- *. cbn [unquote].
      destruct (byte a =? 34) eqn:?; [lia|]. destruct (byte a =? 92) eqn:?; [lia|].
      destruct (byte a <? 32) eqn:?; [lia|]. destruct (byte a <? 128) eqn:?; [lia|].
      cbv zeta. rewrite Hd. cbn [fst snd]. rewrite Hdrop. by rewrite He.
Qed.

Lemma quote_rune_nonempty rw : (1 <= String.length (quote_rune rw))%nat.
Proof.
  destruct rw as [r w]. unfold quote_rune, str1.
  repeat case_match; cbn [String.length]; try lia; apply encode_rune_nonempty.
Qed.

Lemma cat_cons s l : cat (s :: l) = s +:+ cat l.
Proof. done. Qed.

Lemma length_cat_runes l :
  (length l <= String.length (cat (quote_rune <$> l)))%nat.
Proof.
  induction l as [|rw l IH]; [done|].
  rewrite fmap_cons, cat_cons, length_sapp. cbn [length]. pose proof (quote_rune_nonempty rw). lia.
Qed.

Lemma unquote_runes s :
  utf8 s -> forall n rest, (length (runes s) < n)%nat ->
  unquote n (cat (quote_rune <$> runes s) +:+ String dquote rest) = POk s rest.
Proof.
  induction 1 as [|r s Hr Hs IH]; intros n rest Hn.
  - destruct n as [|n]; [lia|]. done.
  - rewrite runes_cons in Hn |- * by done.
    destruct n as [|n]; [lia|]. 
    rewrite fmap_cons, cat_cons, string_app_assoc, unquote_quote_rune by done.
    rewrite IH; [done|]. cbn [length] in Hn. lia.
Qed.

(** The text of a string literal after its opening quote. *)
Definition qbody (s : string) : string := cat (quote_rune <$> runes s) +:+ str1 dquote.

Lemma quote_eq s rest : quote s +:+ rest = String dquote (qbody s +:+ rest).
Proof. done. Qed.

Lemma parse_string_quote s rest :
  utf8 s -> parse_string (qbody s +:+ rest) = POk s rest.
Proof.
  intros Hs. unfold parse_string, qbody. rewrite string_app_assoc.
  apply unquote_runes; [done|]. rewrite length_sapp.
  pose proof (length_cat_runes (runes s)). lia.
Qed.

Lemma parse_string_total s : parse_string s <> PFuel.
Proof. apply unquote_total. lia. Qed.
Lemma parse_string_shorter s t r :
  parse_string s = POk t r -> (String.length r < String.length s)%nat.
Proof. apply unquote_shorter. Qed.
Lemma parse_string_utf8 s t r : parse_string s = POk t r -> utf8 t.
Proof. apply unquote_utf8. Qed.

#[global] Opaque parse_string.

(** ** Numbers and literals *)

Lemma length_skip_ws s : (String.length (skip_ws s) <= String.length s)%nat.
Proof. induction s as [|a s IH]; simpl; [lia|]. destruct (is_space a); simpl; lia. Qed.

Lemma digits_app s : (digits s).1 +:+ (digits s).2 = s.
Proof.
  induction s as [|a s IH]; [done|]. cbn [digits].
  destruct (is_digit a); cbn [fst snd]; [|done]. by rewrite string_app_cons, IH.
Qed.

Lemma scan_digits1_app pre s p r :
  scan_digits1 pre s = Some (p, r) -> p +:+ r = pre +:+ s.
Proof.
  unfold scan_digits1. intros H. case_match; simplify_eq.
  by rewrite string_app_assoc, digits_app.
Qed.

Lemma eat_Some c s r : eat c s = Some r -> s = String c r.
Proof.
  unfold eat. destruct s as [|a s]; [done|].
  destruct (Ascii.eqb_spec a c); intros ?; by simplify_eq.
Qed.

Lemma scan_int_app s p r : scan_int s = Some (p, r) -> p +:+ r = s /\ p <> "".
Proof.
  unfold scan_int. intros H. destruct (eat "0" s) as [s'|] eqn:E0.
  { apply eat_Some in E0. simplify_eq. by split. }
  destruct s as [|a s]; [done|]. destruct (is_digit a) eqn:Hd; [|done].
  apply (inj Some) in H. pose proof (digits_app (String a s)) as Ha. rewrite H in Ha.
  split; [exact Ha|]. cbn [digits] in H. rewrite Hd in H. by simplify_eq.
Qed.

Lemma scan_frac_app s p r : scan_frac s = Some (p, r) -> p +:+ r = s.
Proof.
  unfold scan_frac. intros H. destruct (eat "." s) as [s'|] eqn:E0; [|by simplify_eq].
  apply eat_Some in E0 as ->. by apply scan_digits1_app in H.
Qed.

Lemma scan_exp_app s p r : scan_exp s = Some (p, r) -> p +:+ r = s.
Proof.
  unfold scan_exp. intros H. repeat case_match; simplify_eq; try done;
    apply scan_digits1_app in H; done.
Qed.

(** A scanned number is a non-empty prefix of the input. *)
Lemma scan_number_app s p r :
  scan_number s = Some (p, r) -> p +:+ r = s /\ p <> "".
Proof.
  unfold scan_number. intros H.
  set (ms := match eat "-" s with Some s' => ("-", s') | None => ("", s) end) in H.
  assert (ms.1 +:+ ms.2 = s) as Hms.
  { subst ms. destruct (eat "-" s) eqn:E; [by apply eat_Some in E as ->|done]. }
  destruct (scan_int ms.2) as [[ip ir]|] eqn:Ei; [|done]. cbn [mbind option_bind] in H.
  destruct (scan_frac ir) as [[fp fr]|] eqn:Ef; cbn in H; rewrite ?Ef in H; [|done].
  cbn in H. destruct (scan_exp fr) as [[ep er]|] eqn:Ee; rewrite ?Ee in H; [|done].
  cbn in H. simplify_eq.
  apply scan_int_app in Ei as [Ei Hne]. apply scan_frac_app in Ef. apply scan_exp_app in Ee.
  split.
  - rewrite !string_app_assoc. by rewrite Ee, Ef, Ei.
  - intros Hnil. destruct ms.1; [|done]. by destruct ip.
Qed.

Lemma scan_number_shorter s p r :
  scan_number s = Some (p, r) -> (String.length r < String.length s)%nat.
Proof.
  intros [<- Hne]%scan_number_app. rewrite length_sapp.
  destruct p; [done|]. simpl. lia.
Qed.

Lemma expect_POk lit v s w r :
  expect lit v s = POk w r -> w = v /\ (String.length r <= String.length s)%nat.
Proof. unfold expect. intros H. case_match; simplify_eq. rewrite length_sdrop. split; [done|lia]. Qed.
Lemma expect_not_PFuel lit v s : expect lit v s <> PFuel.
Proof. unfold expect. by case_match. Qed.

#[global] Opaque expect scan_number.

(** ** Values: consumption and totality *)

Lemma eat_ws_shorter c s r :
  eat c (skip_ws s) = Some r -> (String.length r < String.length s)%nat.
Proof.
  intros H%eat_Some. pose proof (length_skip_ws s). rewrite H in *. simpl in *. lia.
Qed.

Lemma skip_ws_cons_le s c s1 :
  skip_ws s = String c s1 -> (String.length s1 < String.length s)%nat.
Proof. intros H. pose proof (length_skip_ws s). rewrite H in *. simpl in *. lia. Qed.

(** Collect what every parsed part says about lengths, then [lia]. *)
Ltac lengths IHv IHm IHe :=
  repeat match goal with
  | H : parse_string _ = POk _ _ |- _ => apply parse_string_shorter in H
  | H : parse_value _ _ _ = POk _ _ |- _ => apply IHv in H
  | H : parse_members _ _ _ = POk _ _ |- _ => apply IHm in H
  | H : parse_elements _ _ _ = POk _ _ |- _ => apply IHe in H
  | H : eat _ (skip_ws _) = Some _ |- _ => apply eat_ws_shorter in H
  | H : skip_ws _ = String _ _ |- _ => apply skip_ws_cons_le in H
  | H : expect _ _ _ = POk _ _ |- _ => apply expect_POk in H as [_ H]
  | H : scan_number _ = Some _ |- _ => apply scan_number_shorter in H
  end; cbn [String.length] in *; lia.

Lemma parse_shorter n :
  (forall d s v r, parse_value n d s = POk v r -> (String.length r < String.length s)%nat) /\
  (forall d s v r, parse_members n d s = POk v r -> (String.length r < String.length s)%nat) /\
  (forall d s v r, parse_elements n d s = POk v r -> (String.length r < String.length s)%nat).
Proof.
  induction n as [|n (IHv & IHm & IHe)]; [done|].
  split_and!; intros d s v r H.
  - cbn [parse_value] in H. parse_inv; lengths IHv IHm IHe.
  - cbn [parse_members] in H. parse_inv; lengths IHv IHm IHe.
  - cbn [parse_elements] in H. parse_inv; lengths IHv IHm IHe.
Qed.

Lemma parse_value_shorter n d s v r :
  parse_value n d s = POk v r -> (String.length r < String.length s)%nat.
Proof. apply parse_shorter. Qed.

Lemma parse_total n :
  (forall d s, (2 * String.length s < n)%nat -> parse_value n d s <> PFuel) /\
  (forall d s, (2 * String.length s < n)%nat -> parse_members n d s <> PFuel) /\
  (forall d s, (S (2 * String.length s) < n)%nat -> parse_elements n d s <> PFuel).
Proof.
  induction n as [|n (IHv & IHm & IHe)]; [split_and!; intros; lia|].
  destruct (parse_shorter n) as (Sv & Sm & Se).
  split_and!; intros d s Hn H.
  - cbn [parse_value] in H. parse_inv;
      try (by eapply parse_string_total); try (by eapply expect_not_PFuel);
      match goal with
      | H : parse_members _ _ _ = PFuel |- _ => revert H; apply IHm
      | H : parse_elements _ _ _ = PFuel |- _ => revert H; apply IHe
      end; lengths Sv Sm Se.
  - cbn [parse_members] in H. parse_inv; try (by eapply parse_string_total);
      match goal with
      | H : parse_value _ _ _ = PFuel |- _ => revert H; apply IHv
      | H : parse_members _ _ _ = PFuel |- _ => revert H; apply IHm
      end; lengths Sv Sm Se.
  - cbn [parse_elements] in H. parse_inv;
      match goal with
      | H : parse_value _ _ _ = PFuel |- _ => revert H; apply IHv
      | H : parse_elements _ _ _ = PFuel |- _ => revert H; apply IHe
      end; lengths Sv Sm Se.
Qed.

(** ** Every decoded string is well formed *)

Inductive json_utf8 : json -> Prop :=
| ju_null : json_utf8 JNull
| ju_bool b : json_utf8 (JBool b)
| ju_num l : json_utf8 (JNum l)
| ju_str s : utf8 s -> json_utf8 (JStr s)
| ju_arr l : Forall json_utf8 l -> json_utf8 (JArr l)
| ju_obj ms : Forall (fun kv => utf8 kv.1 /\ json_utf8 kv.2) ms -> json_utf8 (JObj ms).

#[export] Hint Constructors json_utf8 : utf8.

Lemma parse_utf8 n :
  (forall d s v r, parse_value n d s = POk v r -> json_utf8 v) /\
  (forall d s ms r, parse_members n d s = POk ms r ->
     Forall (fun kv => utf8 kv.1 /\ json_utf8 kv.2) ms) /\
  (forall d s l r, parse_elements n d s = POk l r -> Forall json_utf8 l).
Proof.
  induction n as [|n (IHv & IHm & IHe)]; [done|].
  split_and!; intros d s v r H.
  - cbn [parse_value] in H. parse_inv;
      repeat match goal with H : expect _ _ _ = POk _ _ |- _ => apply expect_POk in H as [-> _] end;
      eauto using parse_string_utf8 with utf8.
  - cbn [parse_members] in H. parse_inv; eauto 8 using parse_string_utf8.
  - cbn [parse_elements] in H. parse_inv; eauto.
Qed.

(** ** Numbers in context *)

(** No prefix of [rest] continues a number. *)
Definition num_stop (rest : string) : bool :=
  match rest with
  | "" => true
  | String a _ => negb (is_digit a || Ascii.eqb a "." || is_exp_char a)
  end.

Definition is_number (lit : string) : Prop := scan_number lit = Some (lit, "").

(** [r] is what a scanner left of [s]; it is final when it is not empty or
    when what follows [s] cannot continue the number. *)
Definition final (r rest : string) : Prop := r <> "" \/ num_stop rest = true.

Lemma digits_ext s rest :
  final (digits s).2 rest -> digits (s +:+ rest) = ((digits s).1, (digits s).2 +:+ rest).
Proof.
  induction s as [|a s IH]; cbn [digits].
  - intros [?|Hs]; [done|]. change ("" +:+ rest) with rest.
    destruct rest as [|b rest]; [done|]. cbn in Hs |- *.
    destruct (is_digit b); [discriminate Hs|done].
  - rewrite string_app_cons. cbn [digits]. destruct (is_digit a); cbn [fst snd]; [|done].
    intros Hf. by rewrite IH.
Qed.

Lemma scan_digits1_ext pre s p r rest :
  scan_digits1 pre s = Some (p, r) -> final r rest ->
  scan_digits1 pre (s +:+ rest) = Some (p, r +:+ rest).
Proof.
  unfold scan_digits1. intros H Hf. case_match eqn:E; simplify_eq.
  rewrite digits_ext by done. cbn [fst snd]. by rewrite E.
Qed.

Lemma eat_ext c s r rest : eat c s = Some r -> eat c (s +:+ rest) = Some (r +:+ rest).
Proof. intros ->%eat_Some. rewrite string_app_cons. unfold eat. by rewrite Ascii.eqb_refl. Qed.

Lemma eat_None_ext c s rest : s <> "" -> eat c s = None -> eat c (s +:+ rest) = None.
Proof.
  destruct s as [|a s]; [done|]. rewrite string_app_cons. unfold eat.
  by destruct (Ascii.eqb a c).
Qed.

Lemma scan_int_ext s p r rest :
  scan_int s = Some (p, r) -> final r rest -> scan_int (s +:+ rest) = Some (p, r +:+ rest).
Proof.
  unfold scan_int. intros H Hf. destruct (eat "0" s) as [s'|] eqn:E.
  - rewrite (eat_ext _ _ _ rest E). by simplify_eq.
  - destruct s as [|a s]; [done|]. rewrite (eat_None_ext _ _ rest) by done.
    rewrite string_app_cons. destruct (is_digit a) eqn:Ha; [|done].
    apply (inj Some) in H. rewrite <- string_app_cons, digits_ext; by rewrite H.
Qed.

Lemma scan_frac_ext s p r rest :
  scan_frac s = Some (p, r) -> final r rest -> scan_frac (s +:+ rest) = Some (p, r +:+ rest).
Proof.
  unfold scan_frac. intros H Hf. destruct (eat "." s) as [s'|] eqn:E.
  - rewrite (eat_ext _ _ _ rest E). by apply scan_digits1_ext.
  - simplify_eq. destruct (decide (r = "")) as [->|Hr].
    + destruct Hf as [?|Hf]; [done|]. change ("" +:+ rest) with rest.
      destruct rest as [|b rest]; [done|]. cbn in Hf |- *.
      destruct (b =? ".")%char; [|done]. by destruct (is_digit b).
    + by rewrite eat_None_ext.
Qed.

Lemma scan_exp_ext s p r rest :
  scan_exp s = Some (p, r) -> final r rest -> scan_exp (s +:+ rest) = Some (p, r +:+ rest).
Proof.
  unfold scan_exp. intros H Hf. destruct s as [|e s].
  - simplify_eq. destruct Hf as [?|Hf]; [done|]. change ("" +:+ rest) with rest.
    destruct rest as [|b rest]; [done|]. cbn in Hf.
    destruct (is_exp_char b) eqn:E; [|done].
    by rewrite orb_true_r in Hf.
  - rewrite string_app_cons. destruct (is_exp_char e); [|by simplify_eq].
    destruct s as [|g s]; [done|]. rewrite string_app_cons.
    destruct (is_sign_char g); [by apply scan_digits1_ext|].
    rewrite <- string_app_cons. by apply scan_digits1_ext.
Qed.

Lemma final_app r p rest : final r rest -> final (p +:+ r) rest.
Proof. intros [Hr|Hs]; [left|by right]. by destruct p. Qed.

Transparent scan_number.
Lemma scan_number_ext s p r rest :
  scan_number s = Some (p, r) -> final r rest -> scan_number (s +:+ rest) = Some (p, r +:+ rest).
Proof.
  intros H Hf. pose proof (scan_number_app _ _ _ H) as [Hs Hne].
  unfold scan_number in *.
  set (ms := match eat "-" s with Some s' => ("-", s') | None => ("", s) end) in *.
  assert (match eat "-" (s +:+ rest) with Some s' => ("-", s') | None => ("", s +:+ rest) end
          = (ms.1, ms.2 +:+ rest)) as ->.
  { subst ms. destruct (eat "-" s) as [s'|] eqn:E.
    - by rewrite (eat_ext _ _ _ rest E).
    - rewrite eat_None_ext; [done| |done]. intros ->. by destruct p. }
  cbn [fst snd]. destruct (scan_int ms.2) as [[ip ir]|] eqn:Ei; [|done].
  cbn in H. destruct (scan_frac ir) as [[fp fr]|] eqn:Ef; [|done].
  cbn in H. destruct (scan_exp fr) as [[ep er]|] eqn:Ee; [|done].
  cbn in H. simplify_eq.
  pose proof (scan_frac_app _ _ _ Ef) as Hfa. pose proof (scan_exp_app _ _ _ Ee) as Hea.
  rewrite (scan_int_ext _ _ _ rest Ei); [|subst ir fr; auto using final_app].
  cbn. rewrite (scan_frac_ext _ _ _ rest Ef); [|subst fr; auto using final_app].
  cbn. rewrite (scan_exp_ext _ _ _ rest Ee) by done. cbn. by rewrite H.
Qed.
#[global] Opaque scan_number.

(** ** Round trip: the parser reads what the printer wrote *)

(** A value the printer writes and the parser accepts at nesting depth [d]. *)
Inductive printable : N -> json -> Prop :=
| pr_null d : printable d JNull
| pr_bool d b : printable d (JBool b)
| pr_num d l : is_number l -> printable d (JNum l)
| pr_str d s : utf8 s -> printable d (JStr s)
| pr_arr d l : d + 1 <= max_depth -> Forall (printable (d + 1)) l -> printable d (JArr l)
| pr_obj d ms : d + 1 <= max_depth ->
    Forall (fun kv => utf8 kv.1 /\ printable (d + 1) kv.2) ms -> printable d (JObj ms).

#[export] Hint Constructors printable : json.

Transparent expect.
Lemma expect_app lit v rest : expect lit v (lit +:+ rest) = POk v rest.
Proof.
  unfold expect. rewrite sdrop_app.
  assert (String.prefix lit (lit +:+ rest) = true) as ->; [|done].
  induction lit as [|a lit IH]; [by destruct rest|]. rewrite string_app_cons. cbn [String.prefix].
  destruct (ascii_dec a a); [exact IH|congruence].
Qed.
#[global] Opaque expect.

Lemma number_head lit :
  is_number lit -> exists c s, lit = String c s /\ (is_digit c = true \/ c = "-"%char).
Proof.
  Transparent scan_number. unfold is_number, scan_number. Opaque scan_number.
  intros H. destruct (eat "-" lit) as [s'|] eqn:E.
  { apply eat_Some in E as ->. eauto. }
  cbn [fst snd] in H. destruct (scan_int lit) as [[ip ir]|] eqn:Ei; [|done].
  unfold scan_int in Ei. destruct (eat "0" lit) as [s'|] eqn:E0.
  { apply eat_Some in E0 as ->. eauto. }
  destruct lit as [|a s]; [done|]. destruct (is_digit a) eqn:Ha; [|done]. eauto.
Qed.

(** A number's first character selects the number branch of [parse_value]. *)
Lemma number_dispatch n d c s :
  is_digit c = true \/ c = "-"%char ->
  parse_value (S n) d (String c s) =
  match scan_number (String c s) with Some (lit, r) => POk (JNum lit) r | None => PErr end.
Proof.
  intros Hc.
  assert (forall x, is_digit x = false -> x <> "-"%char -> Ascii.eqb c x = false) as Hne.
  { intros x Hx Hm. destruct (Ascii.eqb_spec c x); [|done]. naive_solver congruence. }
  assert (is_space c = false) as Hs.
  { unfold is_space. destruct Hc as [Hd| ->]; [|done]. unfold is_digit in Hd. rune_lia. }
  cbn [parse_value skip_ws]. rewrite Hs, !Hne by done. done.
Qed.

Lemma skip_ws_cons c s : is_space c = false -> skip_ws (String c s) = String c s.
Proof. intros Hc. cbn [skip_ws]. by rewrite Hc. Qed.

Lemma eat_cons c s : eat c (String c s) = Some s.
Proof. unfold eat. by rewrite Ascii.eqb_refl. Qed.

(** [print] starts with a character that is neither space nor a closer. *)
Lemma print_head d v : printable d v ->
  exists c s, print v = String c s /\ is_space c = false /\ c <> "]"%char /\ c <> "}"%char.
Proof.
  destruct 1 as [d|d []|d l Hl|d s Hs|d l ? ?|d ms ? ?]; try (eexists _, _; split; [done|]; done).
  destruct (number_head l Hl) as (c & s & -> & [Hd| ->]); eexists _, _; (split; [done|]); [|done].
  split_and!.
  - unfold is_digit, is_space in *. rune_lia.
  - intros ->. done.
  - intros ->. done.
Qed.

Lemma eat_close_print c d v rest :
  printable d v -> c = "]"%char \/ c = "}"%char -> eat c (skip_ws (print v +:+ rest)) = None.
Proof.
  intros (a & s & -> & Hs & H1 & H2)%print_head Hc.
  rewrite string_app_cons. cbn [skip_ws]. rewrite Hs. unfold eat.
  destruct (Ascii.eqb_spec a c); [naive_solver|done].
Qed.

Definition member (kv : string * json) : string := quote kv.1 +:+ ":" +:+ print kv.2.

(** [v] is read back from any context that does not continue a number. *)
Definition reads (v : json) : Prop :=
  forall n d rest, printable d v -> num_stop rest = true ->
    (2 * String.length (print v +:+ rest) < n)%nat ->
    parse_value n d (print v +:+ rest) = POk v rest.

Lemma parse_member n d kv tail :
  reads kv.2 -> utf8 kv.1 -> printable d kv.2 -> num_stop tail = true ->
  (2 * String.length (member kv +:+ tail) < S n)%nat ->
  parse_members (S n) d (member kv +:+ tail) =
  match eat "," (skip_ws tail), eat "}" (skip_ws tail) with
  | Some r3, _ => pmap (cons kv) (parse_members n d r3)
  | None, Some r3 => POk [kv] r3
  | None, None => PErr
  end.
Proof.
  destruct kv as [k v]; cbn [fst snd]. intros Hv Hk Hp Hs Hn.
  unfold member in *; cbn [fst snd] in *.
  rewrite !string_app_assoc, quote_eq in *.
  cbn [parse_members]. rewrite skip_ws_cons by done.
  rewrite eat_cons, parse_string_quote by done. cbn [pbind].
  rewrite (string_app_cons ":"), string_app_nil_l in *.
  rewrite skip_ws_cons, eat_cons by done.
  rewrite Hv; [done|done|done|].
  cbn [String.length] in Hn. rewrite length_sapp in Hn. cbn [String.length] in Hn. lia.
Qed.

Lemma concat_cons s a b l :
  String.concat s (a :: b :: l) = a +:+ s +:+ String.concat s (b :: l).
Proof. done. Qed.

Lemma parse_members_print ms : forall n d rest,
  ms <> [] -> Forall (fun kv => reads kv.2) ms ->
  Forall (fun kv => utf8 kv.1 /\ printable d kv.2) ms ->
  (2 * String.length (String.concat "," (member <$> ms) +:+ "}" +:+ rest) < n)%nat ->
  parse_members n d (String.concat "," (member <$> ms) +:+ "}" +:+ rest) = POk ms rest.
Proof.
  induction ms as [|kv ms IH]; intros n d rest Hne Hr Hp Hn; [done|].
  apply Forall_cons in Hr as [Hr Hrs]. apply Forall_cons in Hp as [[Hk Hp] Hps].
  destruct n as [|n]; [lia|]. destruct ms as [|kv' ms].
  - cbn [fmap list_fmap String.concat] in *. by rewrite parse_member.
  - rewrite !fmap_cons, concat_cons, !string_app_assoc in *.
    rewrite parse_member by done.
    rewrite (string_app_cons ","), string_app_nil_l in *.
    rewrite skip_ws_cons, eat_cons by done.
    rewrite <- !fmap_cons in *. rewrite IH; [done..|].
    rewrite length_sapp in Hn. cbn [String.length] in Hn. lia.
Qed.

Lemma parse_element n d v tail :
  reads v -> printable d v -> num_stop tail = true ->
  (2 * String.length (print v +:+ tail) < n)%nat ->
  parse_elements (S n) d (print v +:+ tail) =
  match eat "," (skip_ws tail), eat "]" (skip_ws tail) with
  | Some r1, _ => pmap (cons v) (parse_elements n d r1)
  | None, Some r1 => POk [v] r1
  | None, None => PErr
  end.
Proof. intros Hv Hp Hs Hn. cbn [parse_elements]. rewrite Hv by done. done. Qed.

Lemma parse_elements_print l : forall n d rest,
  l <> [] -> Forall reads l -> Forall (printable d) l ->
  (S (2 * String.length (String.concat "," (print <$> l) +:+ "]" +:+ rest)) < n)%nat ->
  parse_elements n d (String.concat "," (print <$> l) +:+ "]" +:+ rest) = POk l rest.
Proof.
  induction l as [|v l IH]; intros n d rest Hne Hr Hp Hn; [done|].
  apply Forall_cons in Hr as [Hr Hrs]. apply Forall_cons in Hp as [Hp Hps].
  destruct n as [|n]; [lia|]. destruct l as [|v' l].
  - cbn [fmap list_fmap String.concat] in *. rewrite parse_element; [done..|lia].
  - rewrite !fmap_cons, concat_cons, !string_app_assoc in *.
    rewrite parse_element; [|done..|lia].
    rewrite (string_app_cons ","), string_app_nil_l in *.
    rewrite skip_ws_cons, eat_cons by done.
    rewrite <- !fmap_cons in *. rewrite IH; [done..|].
    rewrite length_sapp in Hn. cbn [String.length] in Hn. lia.
Qed.

Lemma reads_all v : reads v.
Proof.
  induction v as [|b|l|s|l IH|ms IH] using json_ind'; intros n d rest Hp Hs Hn;
    (destruct n as [|n]; [lia|]); inversion Hp; subst.
  - cbn [print parse_value]. apply (expect_app "ull").
  - destruct b; cbn [print parse_value]; [apply (expect_app "rue")|apply (expect_app "alse")].
  - cbn [print]. match goal with H : is_number l |- _ => rename H into Hl end.
    pose proof (scan_number_ext _ _ _ rest Hl (or_intror Hs)) as He.
    destruct (number_head l Hl) as (c & s & -> & Hc).
    rewrite string_app_cons in *. rewrite number_dispatch by done. by rewrite He.
  - cbn [print parse_value]. rewrite quote_eq.
    rewrite skip_ws_cons by done. cbv iota.
    change (Ascii.eqb dquote "{") with false. change (Ascii.eqb dquote "[") with false.
    change (Ascii.eqb dquote dquote) with true. cbv iota.
    by rewrite parse_string_quote.
  - cbn [print] in *. rewrite !string_app_assoc, string_app_cons in *. cbn [parse_value].
    rewrite skip_ws_cons by done. cbv iota.
    change (Ascii.eqb "[" "{") with false. change (Ascii.eqb "[" "[") with true. cbv iota.
    rewrite string_app_nil_l in *.
    destruct (max_depth <? d + 1) eqn:?; [lia|].
    destruct l as [|v l]; [done|].
    destruct (eat "]" (skip_ws _)) eqn:E.
    + exfalso. revert E. rewrite fmap_cons.
      match goal with H : Forall (printable _) _ |- _ => apply Forall_cons in H as [Hpv _] end.
      destruct l; rewrite ?fmap_cons, ?concat_cons, ?string_app_assoc;
        cbn [fmap list_fmap String.concat]; erewrite eat_close_print by eauto; done.
    + rewrite parse_elements_print; [done|done|done|done|].
      cbn [String.length] in Hn. lia.
  - cbn [print] in *. rewrite !string_app_assoc, string_app_cons in *. cbn [parse_value].
    rewrite skip_ws_cons by done. cbv iota.
    change (Ascii.eqb "{" "{") with true. cbv iota. rewrite string_app_nil_l in *.
    destruct (max_depth <? d + 1) eqn:?; [lia|].
    destruct ms as [|kv ms]; [done|].
    change ((fun kv : string * json => quote kv.1 +:+ ":" +:+ print kv.2)) with member in *.
    destruct (eat "}" (skip_ws _)) eqn:E.
    + exfalso. revert E. rewrite fmap_cons.
      destruct ms; rewrite ?fmap_cons, ?concat_cons, ?string_app_assoc;
        cbn [fmap list_fmap String.concat]; unfold member at 1;
        rewrite !string_app_assoc, quote_eq; done.
    + rewrite parse_members_print; [done|done|done|done|].
      cbn [String.length] in Hn. lia.
Qed.

(** What [json.Marshal] or [Encoder.Encode] writes is read back as the same value. *)
Lemma parse_print v rest :
  printable 0 v -> num_stop rest = true -> parse (print v +:+ rest) = POk v rest.
Proof. intros Hp Hs. unfold parse. apply reads_all; auto. Qed.
