(* ===== verification/GoTime.v ===== *)
(** * Instants and their RFC 3339 form

    An instant is its number of nanoseconds since the Unix epoch. [rfc3339] is
    [t.UTC().Format(time.RFC3339)]: the proleptic Gregorian date and the time
    of day, without the fraction of the second. *)

From S2P Require Import Prelude Utf8.
From stdpp Require Import options.
Local Open Scope Z_scope.

Definition second : Z := 1000000000.
Definition millisecond : Z := 1000000.

(** Year, month and day of a day number counted from 1970-01-01. Years are
    counted from March inside 400-year eras, so that the leap day is the last
    day of the year. *)
Definition year_of_era (doe : Z) : Z := (doe - doe / 1460 + doe / 36524 - doe / 146096) / 365.
Definition day_of_year (doe : Z) : Z :=
  let yoe := year_of_era doe in doe - (365 * yoe + yoe / 4 - yoe / 100).

Definition civil (days : Z) : Z * Z * Z :=
  let z := days + 719468 in
  let era := z / 146097 in
  let doe := z mod 146097 in
  let yoe := year_of_era doe in
  let doy := day_of_year doe in
  let mp := (5 * doy + 2) / 153 in
  let d := doy - (153 * mp + 2) / 5 + 1 in
  let m := if mp <? 10 then mp + 3 else mp - 9 in
  (yoe + era * 400 + (if m <=? 2 then 1 else 0), m, d).

(** The day number of a date. *)
Definition days_of (y m d : Z) : Z :=
  let y' := if m <=? 2 then y - 1 else y in
  let mp := if m <=? 2 then m + 9 else m - 3 in
  let yoe := y' mod 400 in
  (y' / 400) * 146097 + (yoe * 365 + yoe / 4 - yoe / 100 + (153 * mp + 2) / 5 + d - 1) - 719468.

Definition digit (n : Z) : ascii := chr (48 + Z.to_N n).
Definition pad2 (n : Z) : string := String (digit (n / 10)) (String (digit (n mod 10)) "").
Definition pad4 (n : Z) : string := pad2 (n / 100) +:+ pad2 (n mod 100).

(** [appendInt(b, year, 4)] *)
Definition year_string (y : Z) : string :=
  if (0 <=? y) && (y <=? 9999) then pad4 y
  else if y <? 0 then "-" +:+ (if y <? -9999 then pretty (- y) else pad4 (- y))
  else pretty y.

Definition rfc3339 (t : Z) : string :=
  let sec := t / second in
  let days := sec / 86400 in
  let s := sec mod 86400 in
  let '(y, m, d) := civil days in
  year_string y +:+ "-" +:+ pad2 m +:+ "-" +:+ pad2 d +:+ "T" +:+
  pad2 (s / 3600) +:+ ":" +:+ pad2 ((s / 60) mod 60) +:+ ":" +:+ pad2 (s mod 60) +:+ "Z".

Example rfc3339_epoch : rfc3339 0 = "1970-01-01T00:00:00Z".
Proof. vm_compute. reflexivity. Qed.
Example rfc3339_leap : rfc3339 (951827696 * second + 5) = "2000-02-29T12:34:56Z".
Proof. vm_compute. reflexivity. Qed.
Example rfc3339_readme : rfc3339 (1777843495 * second) = "2026-05-03T21:24:55Z".
Proof. vm_compute. reflexivity. Qed.

(** ** The date determines the day *)

Lemma era_bounds doe :
  0 <= doe < 146097 -> 0 <= year_of_era doe < 400 /\ 0 <= day_of_year doe <= 365.
Proof.
  intros Hd. unfold day_of_year, year_of_era.
  destruct (Z.eq_dec doe 146096) as [->|]; [vm_compute; intuition discriminate|].
  assert (doe / 146096 = 0) as -> by lia.
  set (c := doe / 36524). assert (36524 * c <= doe < 36524 * c + 36524) by (subst c; lia).
  set (q := doe / 1460). assert (1460 * q <= doe < 1460 * q + 1460) by (subst q; lia).
  set (y := (doe - q + c - 0) / 365).
  assert (365 * y <= doe - q + c < 365 * y + 365) by (subst y; lia).
  clearbody c q y. split; [lia|].
  assert (c = 0 \/ c = 1 \/ c = 2 \/ c = 3) as [->|[->|[->| ->]]] by lia; lia.
Qed.

Lemma days_of_civil days : let '(y, m, d) := civil days in days_of y m d = days.
Proof.
  unfold civil, days_of.
  pose proof (era_bounds ((days + 719468) mod 146097) ltac:(lia)) as [Hy Hd].
  unfold day_of_year in *. cbv zeta in *.
  set (z := days + 719468) in *. set (doe := z mod 146097) in *.
  set (yoe := year_of_era doe) in *. set (era := z / 146097) in *.
  set (doy := doe - (365 * yoe + yoe / 4 - yoe / 100)) in *.
  set (mp := (5 * doy + 2) / 153) in *.
  assert (0 <= mp <= 11) by lia.
  set (m := if mp <? 10 then mp + 3 else mp - 9) in *.
  assert ((if m <=? 2 then yoe + era * 400 + (if m <=? 2 then 1 else 0) - 1
           else yoe + era * 400 + (if m <=? 2 then 1 else 0)) = yoe + era * 400) as ->
    by (destruct (m <=? 2); lia).
  assert ((if m <=? 2 then m + 9 else m - 3) = mp) as ->
    by (subst m; destruct (mp <? 10) eqn:?, (_ <=? 2) eqn:?; lia).
  rewrite Z.mod_add, Z.mod_small, Z.div_add, Z.div_small by lia.
  assert (z = 146097 * era + doe) by (subst era doe; apply Z.div_mod; lia).
  lia.
Qed.

(** The calendar fields are two-digit numbers. *)
Lemma civil_bounds days : let '(_, m, d) := civil days in 1 <= m <= 12 /\ 1 <= d <= 31.
Proof.
  unfold civil. pose proof (era_bounds ((days + 719468) mod 146097) ltac:(lia)) as [_ Hd].
  cbv zeta. generalize dependent (day_of_year ((days + 719468) mod 146097)).
  intros doy Hd. destruct (_ <? 10) eqn:?; lia.
Qed.

(** ** Fixed-width fields *)

Lemma digit_inj a b : 0 <= a < 10 -> 0 <= b < 10 -> digit a = digit b -> a = b.
Proof.
  unfold digit. intros Ha Hb H. apply (f_equal byte) in H.
  rewrite !byte_chr in H by lia. lia.
Qed.

Lemma pad2_app_inj a b s t :
  0 <= a < 100 -> 0 <= b < 100 -> pad2 a +:+ s = pad2 b +:+ t -> a = b /\ s = t.
Proof.
  unfold pad2. rewrite !string_app_cons, !string_app_nil_l.
  intros Ha Hb H. injection H as H1 H2 ->. split; [|done].
  apply digit_inj in H1; [|lia..]. apply digit_inj in H2; [|lia..]. lia.
Qed.

Lemma pad4_app_inj a b s t :
  0 <= a < 10000 -> 0 <= b < 10000 -> pad4 a +:+ s = pad4 b +:+ t -> a = b /\ s = t.
Proof.
  unfold pad4. rewrite !string_app_assoc. intros Ha Hb H.
  apply pad2_app_inj in H as [H1 H]; [|lia..]. apply pad2_app_inj in H as [H2 ->]; [|lia..].
  split; [lia|done].
Qed.

(** A four-digit year, where the format has a fixed width. *)
Definition year_ok (t : Z) : Prop :=
  let '(y, _, _) := civil (t / second / 86400) in 0 <= y <= 9999.

(** Two instants have the same RFC 3339 form exactly when they lie in the same
    second. *)
Lemma rfc3339_same_second t u :
  year_ok t -> year_ok u -> (rfc3339 t = rfc3339 u <-> t / second = u / second).
Proof.
  unfold year_ok, rfc3339. intros Ht Hu. split; [|by intros ->].
  pose proof (days_of_civil (t / second / 86400)) as Dt.
  pose proof (days_of_civil (u / second / 86400)) as Du.
  pose proof (civil_bounds (t / second / 86400)) as Bt.
  pose proof (civil_bounds (u / second / 86400)) as Bu.
  destruct (civil (t / second / 86400)) as [[y m] d].
  destruct (civil (u / second / 86400)) as [[y' m'] d'].
  unfold year_string.
  destruct ((0 <=? y) && (y <=? 9999)) eqn:?; [|lia].
  destruct ((0 <=? y') && (y' <=? 9999)) eqn:?; [|lia].
  intros H. apply pad4_app_inj in H as [-> H]; [|lia..]. apply (inj (String.app "-")) in H.
  apply pad2_app_inj in H as [-> H]; [|lia..]. apply (inj (String.app "-")) in H.
  apply pad2_app_inj in H as [-> H]; [|lia..]. apply (inj (String.app "T")) in H.
  assert (t / second / 86400 = u / second / 86400) as Hdays by congruence.
  rewrite (Z.div_mod (t / second) 86400), (Z.div_mod (u / second) 86400), Hdays by lia.
  pose proof (Z.mod_pos_bound (t / second) 86400 ltac:(lia)) as Rt.
  pose proof (Z.mod_pos_bound (u / second) 86400 ltac:(lia)) as Ru.
  generalize dependent ((t / second) mod 86400).
  generalize dependent ((u / second) mod 86400). clear. intros s' Ru s H Rt.
  apply pad2_app_inj in H as [Hh H]; [|lia..]. apply (inj (String.app ":")) in H.
  apply pad2_app_inj in H as [Hm H]; [|lia..]. apply (inj (String.app ":")) in H.
  apply pad2_app_inj in H as [Hs _]; [|lia..]. lia.
Qed.
