(* ===== verification/Mux.v ===== *)
(** * Routing: what [http.ServeMux] of Go 1.23 does with a request path

    The four patterns of the servers are "GET /healthz", "POST /lock",
    "POST /unlock" and "GET /locks". Before it matches a path the mux cleans
    it, and it answers a request for a path that is not clean with a redirect;
    it then compares the unescaped segments of the path with the pattern. A
    path here is what [r.URL.EscapedPath()] returns for the request. *)

From S2P Require Import Prelude Utf8 Json.
From stdpp Require Import options.
Local Open Scope Z_scope.

Definition slash : ascii := "/"%char.

(** ** [path.Clean] on a rooted path *)

(** The texts between the slashes. *)
Fixpoint segments (s : string) : list string :=
  match s with
  | "" => [""]
  | String a s =>
      if Ascii.eqb a slash then "" :: segments s
      else match segments s with [] => [str1 a] | f :: fs => String a f :: fs end
  end.

(** Empty segments and "." are skipped, ".." removes the segment before it. *)
Definition push_segment (stack : list string) (seg : string) : list string :=
  if String.eqb seg "" || String.eqb seg "." then stack
  else if String.eqb seg ".." then removelast stack
  else stack ++ [seg].

Definition rooted (segs : list string) : string := String slash (String.concat (str1 slash) segs).

Definition path_Clean (p : string) : string := rooted (fold_left push_segment (segments p) []).

Fixpoint last_char (s : string) : option ascii :=
  match s with "" => None | String a "" => Some a | String _ s => last_char s end.

(** [cleanPath] of net/http: rooted, clean, and with its trailing slash. *)
Definition cleanPath (p : string) : string :=
  let p := match p with
           | String a _ => if Ascii.eqb a slash then p else String slash p
           | "" => str1 slash
           end in
  let np := path_Clean p in
  if bool_decide (last_char p = Some slash) && negb (String.eqb np (str1 slash))
  then np +:+ str1 slash else np.

(** ** Escapes *)

(** [url.PathUnescape]; [None] is its error. *)
Fixpoint PathUnescape (s : string) : option string :=
  match s with
  | "" => Some ""
  | String "%" (String a (String b s)) =>
      x ← unhex a; y ← unhex b; r ← PathUnescape s; Some (String (chr (16 * x + y)) r)
  | String "%" _ => None
  | String a s => r ← PathUnescape s; Some (String a r)
  end.

Definition pathUnescape (s : string) : string := default s (PathUnescape s).

(** [url.escape] in mode [encodePath] *)
Definition path_char (a : ascii) : bool :=
  let n := byte a in
  ((48 <=? n) && (n <=? 57) || (65 <=? n) && (n <=? 90) || (97 <=? n) && (n <=? 122))%N ||
  existsb (Ascii.eqb a) ["-"; "_"; "."; "~"; "$"; "&"; "+"; ","; "/"; ":"; ";"; "="; "@"]%char.

Definition upper_hex (n : N) : ascii := chr (if (n <? 10)%N then 48 + n else 55 + n)%N.

Fixpoint escape_path (s : string) : string :=
  match s with
  | "" => ""
  | String a s =>
      (if path_char a then str1 a
       else String "%" (String (upper_hex (byte a / 16)) (str1 (upper_hex (byte a mod 16))))) +:+ escape_path s
  end.

(** [htmlEscape] on an escaped path *)
Fixpoint html_escape (s : string) : string :=
  match s with
  | "" => ""
  | String a s => (if Ascii.eqb a "&" then "&amp;" else str1 a) +:+ html_escape s
  end.

(** ** Where a request goes *)

Inductive target :=
| ToHealthz | ToLock | ToUnlock | ToLocks
| ToRedirect (path : string)       (* a path that is not clean *)
| ToBadURI                         (* the request URI "*" *)
| ToNowhere.                       (* no pattern has this path *)

(** The one segment of a path, unescaped. *)
Definition only_segment (p : string) : option string :=
  match p with
  | String a seg => if Ascii.eqb a slash && (length (segments seg) =? 1)%nat then Some (pathUnescape seg) else None
  | "" => None
  end.

Definition pattern_target (p : string) : target :=
  match only_segment p with
  | None => ToNowhere
  | Some seg =>
      if String.eqb seg "healthz" then ToHealthz
      else if String.eqb seg "lock" then ToLock
      else if String.eqb seg "unlock" then ToUnlock
      else if String.eqb seg "locks" then ToLocks
      else ToNowhere
  end.

(** [ServeMux.findHandler]: the path of CONNECT requests is not cleaned. *)
Definition mux_target (method path : string) : target :=
  if String.eqb path "*" then ToBadURI
  else if String.eqb method "CONNECT" then pattern_target path
  else if String.eqb (cleanPath path) path then pattern_target path
  else ToRedirect (cleanPath path).

(** The routes the clients use, and some they do not. *)
Example routes :
  mux_target "POST" "/lock" = ToLock /\ mux_target "GET" "/locks" = ToLocks /\
  mux_target "POST" "//lock" = ToRedirect "/lock" /\ mux_target "POST" "/a/../lock/" = ToRedirect "/lock/" /\
  mux_target "POST" "/lock/" = ToNowhere /\ mux_target "POST" "/loc%6B" = ToLock /\
  mux_target "GET" "" = ToRedirect "/" /\ mux_target "CONNECT" "//lock" = ToNowhere.
Proof. split_and!; reflexivity. Qed.
