(* ===== verification/Http.v ===== *)
(** * The HTTP service of both Go solutions

    [main] of go-inmemory and of go-sharded register the same four handlers on
    a [http.ServeMux]; they differ in the store only. The handlers are written
    once, over any [LockService], and instantiated for the two servers at the
    end of the file. A handler maps the request body and the store to the
    response and the new store; [None] is a panic of the store.

    Which handler gets a request is decided in [Mux]. A request has the escaped
    URL path that was sent, without the query string, which no handler reads;
    [now] is what [time.Now()] returns while the request is served. *)

From S2P Require Import Prelude Utf8 Json JsonFacts GoTime LockSpec InMemory Sharded Mux.
From stdpp Require Import options.
Local Open Scope Z_scope.

Record request := mkRequest { method : string; path : string; req_body : string }.

Record response := mkResponse {
  status : Z;
  content_type : option string;
  allow : option string;
  location : option string;
  body : string
}.

Definition newline : string := str1 "010"%char.

(** ** Writing responses *)

Definition writeJSON (st : Z) (v : json) : response :=
  mkResponse st (Some "application/json") None None (Encode v).

(** [http.Error] *)
Definition http_error (msg : string) (code : Z) : response :=
  mkResponse code (Some "text/plain; charset=utf-8") None None (msg +:+ newline).

Definition lockOKResp (locked : bool) (key lockee : string) : json :=
  JObj [("locked", JBool locked); ("key", JStr key); ("lockee", JStr lockee)].

Definition lockConflictResp (locked : bool) (key currentLockee : string) : json :=
  JObj [("locked", JBool locked); ("key", JStr key); ("currentLockee", JStr currentLockee)].

Definition lockListEntry (key lockee since : string) : json :=
  JObj [("key", JStr key); ("lockee", JStr lockee); ("since", JStr since)].

Definition lockListResp (locks : list json) : json := JObj [("locks", JArr locks)].

(** ** Request bodies *)

Record lockReq := mkLockReq { rKey : string; rLockee : string; rForce : bool }.

Definition set_lockReq (r : lockReq) (f : string) (v : json) : lockReq * bool :=
  if String.eqb f "key" then
    let x := set_string r.(rKey) v in (mkLockReq x.1 r.(rLockee) r.(rForce), x.2)
  else if String.eqb f "lockee" then
    let x := set_string r.(rLockee) v in (mkLockReq r.(rKey) x.1 r.(rForce), x.2)
  else
    let x := set_bool r.(rForce) v in (mkLockReq r.(rKey) r.(rLockee) x.1, x.2).

Definition decode_lockReq : json -> lockReq * bool :=
  decode_struct ["key"; "lockee"; "force"] set_lockReq (mkLockReq "" "" false).

Record unlockReq := mkUnlockReq { uKey : string; uLockee : string }.

Definition set_unlockReq (r : unlockReq) (f : string) (v : json) : unlockReq * bool :=
  if String.eqb f "key" then
    let x := set_string r.(uKey) v in (mkUnlockReq x.1 r.(uLockee), x.2)
  else
    let x := set_string r.(uLockee) v in (mkUnlockReq r.(uKey) x.1, x.2).

Definition decode_unlockReq : json -> unlockReq * bool :=
  decode_struct ["key"; "lockee"] set_unlockReq (mkUnlockReq "" "").

(** ** Handlers *)

Definition is_empty (s : string) : bool := String.eqb s "".

Definition healthz_handler : response :=
  writeJSON StatusOK (JObj [("status", JStr "ok")]).

Section handlers.
Context {St : Type} `{!LockService St}.

Definition lock_handler (now : Z) (req_body : string) (s : St) : option (response * St) :=
  match Decode decode_lockReq req_body with
  | None => Some (http_error "bad request" StatusBadRequest, s)
  | Some req =>
      if is_empty req.(rKey) || is_empty req.(rLockee)
      then Some (http_error "key and lockee are required" StatusBadRequest, s)
      else
        '(l, acquired, s') ← ls_acquire now req.(rKey) req.(rLockee) req.(rForce) s;
        Some (if (acquired : bool)
              then writeJSON StatusOK (lockOKResp true l.(Key) l.(Lockee))
              else writeJSON StatusConflict (lockConflictResp false req.(rKey) l.(Lockee)), s')
  end.

Definition unlock_handler (req_body : string) (s : St) : option (response * St) :=
  match Decode decode_unlockReq req_body with
  | None => Some (http_error "bad request" StatusBadRequest, s)
  | Some req =>
      if is_empty req.(uKey) || is_empty req.(uLockee)
      then Some (http_error "key and lockee are required" StatusBadRequest, s)
      else
        '(st, msg, s') ← ls_release req.(uKey) req.(uLockee) s;
        Some (if (st =? StatusOK)%Z then mkResponse StatusOK None None None ""
              else http_error msg st, s')
  end.

Definition list_entries (locks : list Lock) : list json :=
  (fun l => lockListEntry l.(Key) l.(Lockee) (rfc3339 l.(Since))) <$> locks.

Definition locks_handler (it : iteration) (s : St) : response :=
  writeJSON StatusOK (lockListResp (list_entries (ls_list it s))).

(** ** The mux *)

Definition method_not_allowed (methods : string) : response :=
  mkResponse StatusMethodNotAllowed (Some "text/plain; charset=utf-8") (Some methods) None
    ("Method Not Allowed" +:+ newline).

(** [http.Redirect] to a clean path: a page for GET only. *)
Definition redirect (m p : string) : response :=
  let url := escape_path p in
  mkResponse StatusMovedPermanently
    (if String.eqb m "GET" || String.eqb m "HEAD" then Some "text/html; charset=utf-8" else None)
    None (Some url)
    (if String.eqb m "GET"
     then "<a href=" +:+ str1 dquote +:+ html_escape url +:+ str1 dquote +:+ ">Moved Permanently</a>." +:+
          newline +:+ newline
     else "").

(** A GET pattern also matches HEAD. *)
Definition get_route (m : string) (r : response) : response :=
  if String.eqb m "GET" || String.eqb m "HEAD" then r else method_not_allowed "GET, HEAD".

(** The response to a HEAD request is sent without its body. *)
Definition sent (m : string) (r : response) : response :=
  if String.eqb m "HEAD"
  then mkResponse r.(status) r.(content_type) r.(allow) r.(location) "" else r.

Definition dispatch (now : Z) (it : iteration) (r : request) (s : St) : option (response * St) :=
  match mux_target r.(method) r.(path) with
  | ToHealthz => Some (get_route r.(method) healthz_handler, s)
  | ToLock =>
      if String.eqb r.(method) "POST" then lock_handler now r.(req_body) s
      else Some (method_not_allowed "POST", s)
  | ToUnlock =>
      if String.eqb r.(method) "POST" then unlock_handler r.(req_body) s
      else Some (method_not_allowed "POST", s)
  | ToLocks => Some (get_route r.(method) (locks_handler it s), s)
  | ToRedirect p => Some (redirect r.(method) p, s)
  | ToBadURI => Some (mkResponse StatusBadRequest None None None "", s)
  | ToNowhere => Some (http_error "404 page not found" StatusNotFound, s)
  end.

Definition serve (now : Z) (it : iteration) (r : request) (s : St) : option (response * St) :=
  '(resp, s') ← dispatch now it r s; Some (sent r.(method) resp, s').

End handlers.

(** ** The two servers *)

Definition inmemory_main : Z -> iteration -> request -> InMemory.store -> option (response * InMemory.store) :=
  serve.

Section sharded_main.
Context (Hash : string -> Z).
#[local] Existing Instance Sharded.sharded_service.

Definition sharded_main
  : Z -> iteration -> request -> Sharded.store -> option (response * Sharded.store) :=
  @serve Sharded.store (Sharded.sharded_service Hash).

End sharded_main.
