(* ===== verification/HttpFacts.v ===== *)
(** * The service meets its specification

    [api_step] is the contract of the servers: the exact response to every
    request, over the abstract lock table; [serve_refines] shows that a server
    over any [LockService] takes exactly such a step. Everything the clients
    rely on is then derived from [api_step] alone. [spec_md] is what the file
    spec.md itself says: statuses, the bodies of successes and conflicts, and
    the effect on the table; [api_step_spec_md] shows that the contract
    satisfies it. The contract also fixes what spec.md leaves open or states
    otherwise: errors carry the plain text of [http.Error], where the notes of
    spec.md ask for JSON. *)

From S2P Require Import Prelude Utf8 Json JsonFacts GoTime LockSpec InMemory Sharded Mux Http.
From stdpp Require Import options.
Local Open Scope Z_scope.

Notation table := (gmap string hold) (only parsing).

(** ** The contract of the API *)

Definition holder (t : table) (key : string) : string := from_option h_lockee "" (t !! key).

Definition api_lock (now : Z) (b : string) (t : table) : response * table :=
  match Decode decode_lockReq b with
  | None => (http_error "bad request" StatusBadRequest, t)
  | Some req =>
      if is_empty (rKey req) || is_empty (rLockee req)
      then (http_error "key and lockee are required" StatusBadRequest, t)
      else
        let '(granted, t') := spec_acquire now (rKey req) (rLockee req) (rForce req) t in
        (if granted then writeJSON StatusOK (lockOKResp true (rKey req) (rLockee req))
         else writeJSON StatusConflict (lockConflictResp false (rKey req) (holder t (rKey req))), t')
  end.

Definition api_unlock (b : string) (t : table) : response * table :=
  match Decode decode_unlockReq b with
  | None => (http_error "bad request" StatusBadRequest, t)
  | Some req =>
      if is_empty (uKey req) || is_empty (uLockee req)
      then (http_error "key and lockee are required" StatusBadRequest, t)
      else
        let '(o, t') := spec_release (uKey req) (uLockee req) t in
        (match o with
         | Released => mkResponse StatusOK None None None ""
         | _ => http_error (outcome_msg o) (outcome_status o)
         end, t')
  end.

(** Every request but a listing has one answer. *)
Definition api_fun (now : Z) (r : request) (t : table) : response * table :=
  match mux_target (method r) (path r) with
  | ToHealthz => (get_route (method r) healthz_handler, t)
  | ToLock =>
      if String.eqb (method r) "POST" then api_lock now (req_body r) t else (method_not_allowed "POST", t)
  | ToUnlock =>
      if String.eqb (method r) "POST" then api_unlock (req_body r) t else (method_not_allowed "POST", t)
  | ToRedirect p => (redirect (method r) p, t)
  | ToBadURI => (mkResponse StatusBadRequest None None None "", t)
  | _ => (http_error "404 page not found" StatusNotFound, t)
  end.

(** A listing shows the held locks in some order and changes nothing. *)
Definition list_response (m : string) (ls : list Lock) : response :=
  sent m (get_route m (writeJSON StatusOK (lockListResp (list_entries ls)))).
Definition list_reply (m : string) (t : table) (resp : response) : Prop :=
  exists ls, ls ≡ₚ locks_of t /\ resp = list_response m ls.

Definition api_step (now : Z) (r : request) (t : table) (resp : response) (t' : table) : Prop :=
  match mux_target (method r) (path r) with
  | ToLocks => t' = t /\ list_reply (method r) t resp
  | _ => resp = sent (method r) (api_fun now r t).1 /\ t' = (api_fun now r t).2
  end.

(** The requests the clients send. *)
Lemma api_step_lock now b t resp t' :
  api_step now (mkRequest "POST" "/lock" b) t resp t' -> (resp, t') = api_lock now b t.
Proof.
  intros H. change (resp = (api_lock now b t).1 /\ t' = (api_lock now b t).2) in H.
  destruct H as [-> ->]. by destruct (api_lock now b t).
Qed.

Lemma api_step_unlock now b t resp t' :
  api_step now (mkRequest "POST" "/unlock" b) t resp t' -> (resp, t') = api_unlock b t.
Proof.
  intros H. change (resp = (api_unlock b t).1 /\ t' = (api_unlock b t).2) in H.
  destruct H as [-> ->]. by destruct (api_unlock b t).
Qed.

Lemma api_step_locks now b t resp t' :
  api_step now (mkRequest "GET" "/locks" b) t resp t' ->
  t' = t /\ exists ls, ls ≡ₚ locks_of t /\ resp = writeJSON StatusOK (lockListResp (list_entries ls)).
Proof. intros [-> (ls & Hls & ->)]. split; [done|]. by exists ls. Qed.

Lemma api_step_healthz now b t resp t' :
  api_step now (mkRequest "GET" "/healthz" b) t resp t' -> resp = healthz_handler /\ t' = t.
Proof. by intros [-> ->]. Qed.

(** ** Refinement *)

Section refinement.
Context {St : Type} `{LSL : LockServiceLaws St}.
Implicit Types s : St.

Lemma lock_handler_refines now b s :
  ls_inv s -> exists resp s',
    lock_handler now b s = Some (resp, s') /\ ls_inv s' /\
    (resp, ls_abs s') = api_lock now b (ls_abs s).
Proof.
  intros Hi. unfold lock_handler, api_lock.
  destruct (Decode decode_lockReq b) as [req|]; [|by eauto 8].
  destruct (is_empty _ || is_empty _); [by eauto 8|].
  destruct (ls_acquire_law now (rKey req) (rLockee req) (rForce req) s Hi)
    as (l & ok & s' & -> & Hi' & Hs & Hk & Ha).
  rewrite Hs. cbn. eexists _, s'. split_and!; [done..|]. destruct ok.
  - destruct (spec_acquire_granted _ _ _ _ _ _ Hs) as [since Hg].
    rewrite Ha in Hg. destruct l. unfold hold_of in Hg. by simplify_eq/=.
  - apply spec_acquire_refused in Hs as (_ & Ht & _). rewrite <- Ht.
    unfold holder. by rewrite Ha.
Qed.

Lemma unlock_handler_refines b s :
  ls_inv s -> exists resp s',
    unlock_handler b s = Some (resp, s') /\ ls_inv s' /\
    (resp, ls_abs s') = api_unlock b (ls_abs s).
Proof.
  intros Hi. unfold unlock_handler, api_unlock.
  destruct (Decode decode_unlockReq b) as [req|]; [|by eauto 8].
  destruct (is_empty _ || is_empty _); [by eauto 8|].
  destruct (ls_release_law (uKey req) (uLockee req) s Hi) as (o & s' & -> & Hi' & ->).
  cbn. eexists _, s'. split_and!; [done..|]. by destruct o.
Qed.

Lemma serve_refines now it r s :
  ls_inv s -> exists resp s',
    serve now it r s = Some (resp, s') /\ ls_inv s' /\
    api_step now r (ls_abs s) resp (ls_abs s').
Proof.
  intros Hi. unfold serve, dispatch, api_step, api_fun.
  destruct (mux_target (method r) (path r)); try by eexists _, s.
  - destruct (String.eqb (method r) "POST"); [|by eexists _, s].
    destruct (lock_handler_refines now (req_body r) s Hi) as (resp & s' & -> & ? & <-). by eexists _, s'.
  - destruct (String.eqb (method r) "POST"); [|by eexists _, s].
    destruct (unlock_handler_refines (req_body r) s Hi) as (resp & s' & -> & ? & <-). by eexists _, s'.
  - eexists _, s. split_and!; [done..|]. eexists. split; [by apply (ls_list_law it)|done].
Qed.

End refinement.

(** ** Sequences of requests *)

(** [server] serves the requests one after the other; [its i] is the iteration order Go
    picks for request [i]. *)
Fixpoint serve_all {St} (server : Z -> iteration -> request -> St -> option (response * St))
    (its : nat -> iteration) (i : nat) (reqs : list (Z * request)) (s : St)
    : option (list response * St) :=
  match reqs with
  | [] => Some ([], s)
  | (now, r) :: reqs =>
      '(resp, s1) ← server now (its i) r s;
      '(resps, s2) ← serve_all server its (S i) reqs s1;
      Some (resp :: resps, s2)
  end.

Inductive runs (step : Z -> request -> table -> response -> table -> Prop)
  : list (Z * request) -> table -> list response -> table -> Prop :=
| runs_nil t : runs step [] t [] t
| runs_cons now r reqs t resp t1 resps t2 :
    step now r t resp t1 -> runs step reqs t1 resps t2 ->
    runs step ((now, r) :: reqs) t (resp :: resps) t2.

Notation api_run := (runs api_step).

Lemma runs_mono (step step' : Z -> request -> table -> response -> table -> Prop) reqs t resps t' :
  (forall now r t resp t', step now r t resp t' -> step' now r t resp t') ->
  runs step reqs t resps t' -> runs step' reqs t resps t'.
Proof. intros Hs. induction 1; econstructor; eauto. Qed.

Lemma serve_all_refines {St} `{LSL : LockServiceLaws St} its i reqs (s : St) :
  ls_inv s -> exists resps s',
    serve_all serve its i reqs s = Some (resps, s') /\ ls_inv s' /\
    api_run reqs (ls_abs s) resps (ls_abs s').
Proof.
  revert i s. induction reqs as [|[now r] reqs IH]; intros i s Hi.
  { eexists [], s. split_and!; [done..|constructor]. }
  destruct (serve_refines now (its i) r s Hi) as (resp & s1 & E1 & Hi1 & Hs1).
  destruct (IH (S i) s1 Hi1) as (resps & s2 & E2 & Hi2 & Hs2).
  cbn [serve_all]. rewrite E1. cbn. rewrite E2. cbn.
  eexists _, s2. split_and!; [done..|]. econstructor; eauto.
Qed.

(** Responses that differ in the order of a listing only. *)
Definition resp_equiv (r1 r2 : response) : Prop :=
  r1 = r2 \/ exists m ls1 ls2, ls1 ≡ₚ ls2 /\ r1 = list_response m ls1 /\ r2 = list_response m ls2.

#[export] Instance resp_equiv_refl : Reflexive resp_equiv.
Proof. by left. Qed.
#[export] Instance resp_equiv_sym : Symmetric resp_equiv.
Proof. intros r1 r2 [->|(m & l1 & l2 & ? & ? & ?)]; [done|right; exists m, l2, l1; by split_and!]. Qed.

Lemma sent_status m r : status (sent m r) = status r.
Proof. unfold sent. by destruct (String.eqb m "HEAD"). Qed.

Lemma resp_equiv_status r1 r2 : resp_equiv r1 r2 -> status r1 = status r2.
Proof.
  intros [->|(m & l1 & l2 & _ & -> & ->)]; [done|]. unfold list_response. rewrite !sent_status.
  unfold get_route. by destruct (_ || _).
Qed.

Lemma api_step_det now r t resp1 t1 resp2 t2 :
  api_step now r t resp1 t1 -> api_step now r t resp2 t2 -> t1 = t2 /\ resp_equiv resp1 resp2.
Proof.
  unfold api_step. destruct (mux_target (method r) (path r)); try by intros [-> ->] [-> ->].
  intros [-> (l1 & H1 & ->)] [-> (l2 & H2 & ->)]. split; [done|right].
  exists (method r), l1, l2. split_and!; [by rewrite H1, H2|done..].
Qed.

Lemma api_run_det reqs t resps1 t1 resps2 t2 :
  api_run reqs t resps1 t1 -> api_run reqs t resps2 t2 ->
  t1 = t2 /\ Forall2 resp_equiv resps1 resps2.
Proof.
  intros H. revert resps2 t2.
  induction H as [t|now r reqs t resp t1' resps t1 Hs Hr IH]; intros resps2 t2 H2;
    inversion H2 as [|? ? ? ? resp' ? resps' ? Hs' Hr']; subst; [done|].
  destruct (api_step_det _ _ _ _ _ _ _ Hs Hs') as [-> ?].
  destruct (IH _ _ Hr') as [-> ?]. auto.
Qed.

(** ** Who holds what: well-formed tables *)

Definition entry_ok (k : string) (h : hold) : Prop :=
  k <> "" /\ utf8 k /\ h_lockee h <> "" /\ utf8 (h_lockee h).
Definition table_ok (t : table) : Prop := map_Forall entry_ok t.

Lemma Decode_Some {T} (dec : json -> T * bool) b x :
  Decode dec b = Some x -> exists v, json_utf8 v /\ dec v = (x, false).
Proof.
  unfold Decode. destruct (parse b) as [v r| |] eqn:E; [|done..].
  apply parse_utf8 in E. destruct (dec v) as [y []] eqn:Ed; simpl; intros ?; simplify_eq; eauto.
Qed.

(** An invariant of the fields holds for the decoded struct. *)
Lemma decode_struct_ind {T} (P : T -> Prop) names set zero v :
  P zero -> (forall t f j, P t -> json_utf8 j -> P (set t f j).1) -> json_utf8 v ->
  P (decode_struct names set zero v).1.
Proof.
  intros H0 Hset Hv. unfold decode_struct. destruct Hv as [| | | | |ms Hms]; auto.
  cut (forall te, P te.1 -> P (foldl (fun te kv =>
        match match_field names kv.1 with
        | Some f => let te' := set te.1 f kv.2 in (te'.1, te.2 || te'.2)
        | None => te
        end) te ms).1); [intros H; by apply H|].
  induction Hms as [|kv ms [_ Hkv] Hms IH]; intros te Hte; [done|].
  cbn [foldl]. apply IH. destruct (match_field names kv.1); cbn; auto.
Qed.

Lemma set_string_utf8 old v : utf8 old -> json_utf8 v -> utf8 (set_string old v).1.
Proof. intros Ho Hv. by destruct Hv. Qed.

Lemma Decode_lockReq_utf8 b req :
  Decode decode_lockReq b = Some req -> utf8 (rKey req) /\ utf8 (rLockee req).
Proof.
  intros (v & Hv & Hd)%Decode_Some.
  assert (req = (decode_lockReq v).1) as -> by by rewrite Hd.
  apply (decode_struct_ind (fun r => utf8 (rKey r) /\ utf8 (rLockee r))); auto with utf8.
  intros r f j [??] Hj. unfold set_lockReq. repeat case_match; cbn; auto using set_string_utf8.
Qed.

Lemma is_empty_false s : is_empty s = false -> s <> "".
Proof. unfold is_empty. by destruct (String.eqb_spec s ""). Qed.

(** The requests that reach the store. *)
Definition lock_request (r : request) : option lockReq :=
  match mux_target (method r) (path r) with
  | ToLock =>
      if String.eqb (method r) "POST" then
        req ← Decode decode_lockReq (req_body r);
        if is_empty (rKey req) || is_empty (rLockee req) then None else Some req
      else None
  | _ => None
  end.

Definition unlock_request (r : request) : option unlockReq :=
  match mux_target (method r) (path r) with
  | ToUnlock =>
      if String.eqb (method r) "POST" then
        req ← Decode decode_unlockReq (req_body r);
        if is_empty (uKey req) || is_empty (uLockee req) then None else Some req
      else None
  | _ => None
  end.

(** What a request does to the table. *)
Lemma api_step_table now r t resp t' :
  api_step now r t resp t' ->
  t' = match lock_request r, unlock_request r with
       | Some q, _ => (spec_acquire now (rKey q) (rLockee q) (rForce q) t).2
       | None, Some q => (spec_release (uKey q) (uLockee q) t).2
       | None, None => t
       end.
Proof.
  unfold api_step, api_fun, lock_request, unlock_request.
  destruct (mux_target (method r) (path r)); try by (intros [_ ->] || intros [-> _]).
  - destruct (String.eqb (method r) "POST"); [|by intros [_ ->]]. intros [_ ->].
    unfold api_lock. destruct (Decode _ _) as [req|]; [|done]. cbn [mbind option_bind].
    destruct (_ || _); [done|]. by destruct (spec_acquire _ _ _ _ _).
  - destruct (String.eqb (method r) "POST"); [|by intros [_ ->]]. intros [_ ->].
    unfold api_unlock. destruct (Decode _ _) as [req|]; [|done]. cbn [mbind option_bind].
    destruct (_ || _); [done|]. by destruct (spec_release _ _ _).
Qed.

(** ** What spec.md says *)

Definition json_reply (st : Z) (v : json) (resp : response) : Prop :=
  status resp = st /\ content_type resp = Some "application/json" /\ body resp = Encode v.

(** Requests for which spec.md has no answer, malformed ones included, are
    not answered 200 and change nothing. *)
Definition spec_md (now : Z) (r : request) (t : table) (resp : response) (t' : table) : Prop :=
  match lock_request r, unlock_request r with
  | Some q, _ =>
      let '(granted, t1) := spec_acquire now (rKey q) (rLockee q) (rForce q) t in
      t' = t1 /\
      if granted then json_reply StatusOK (lockOKResp true (rKey q) (rLockee q)) resp
      else json_reply StatusConflict (lockConflictResp false (rKey q) (holder t (rKey q))) resp
  | None, Some q =>
      let '(o, t1) := spec_release (uKey q) (uLockee q) t in
      t' = t1 /\ status resp = outcome_status o
  | None, None =>
      t' = t /\
      match mux_target (method r) (path r) with
      | ToHealthz => method r = "GET" -> json_reply StatusOK (JObj [("status", JStr "ok")]) resp
      | ToLocks => method r = "GET" -> exists ls, ls ≡ₚ locks_of t /\
                     json_reply StatusOK (lockListResp (list_entries ls)) resp
      | _ => status resp <> StatusOK
      end
  end.

Lemma api_step_spec_md now r t resp t' : api_step now r t resp t' -> spec_md now r t resp t'.
Proof.
  unfold api_step, spec_md, lock_request, unlock_request, api_fun.
  destruct (mux_target (method r) (path r)); try by (intros [-> ->]; rewrite sent_status).
  - intros [-> ->]. split; [done|]. by intros ->.
  - destruct (String.eqb_spec (method r) "POST") as [->|]; [|intros [-> ->]; by rewrite sent_status].
    intros [-> ->]. unfold api_lock. destruct (Decode _ _) as [q|]; [|done]. cbn [mbind option_bind].
    destruct (_ || _); [done|]. by destruct (spec_acquire _ _ _ _ _) as [[] t1].
  - destruct (String.eqb_spec (method r) "POST") as [->|]; [|intros [-> ->]; by rewrite sent_status].
    intros [-> ->]. unfold api_unlock. destruct (Decode _ _) as [q|]; [|done]. cbn [mbind option_bind].
    destruct (_ || _); [done|]. by destruct (spec_release _ _ _) as [[] t1].
  - intros [-> (ls & Hls & ->)]. split; [done|]. intros Hm. exists ls. split; [done|]. by rewrite Hm.
Qed.

Lemma lock_request_ok r q :
  lock_request r = Some q -> entry_ok (rKey q) (Hold (rLockee q) 0).
Proof.
  unfold lock_request. destruct (mux_target _ _); try done. destruct (String.eqb _ _); [|done].
  destruct (Decode decode_lockReq (req_body r)) as [req|] eqn:E; [|done]. cbn.
  destruct (is_empty (rKey req)) eqn:E1, (is_empty (rLockee req)) eqn:E2; cbn; intros ?; simplify_eq.
  apply Decode_lockReq_utf8 in E as [??]. split_and!; auto using is_empty_false.
Qed.

Lemma api_step_ok now r t resp t' :
  api_step now r t resp t' -> table_ok t -> table_ok t'.
Proof.
  intros ->%api_step_table Ht.
  destruct (lock_request r) as [q|] eqn:Eq.
  - apply lock_request_ok in Eq. unfold spec_acquire.
    repeat case_match; cbn; auto. by apply map_Forall_insert_2.
  - destruct (unlock_request r) as [q|]; [|done].
    unfold spec_release. repeat case_match; cbn; auto. by apply map_Forall_delete.
Qed.

Lemma api_run_ok reqs t resps t' : api_run reqs t resps t' -> table_ok t -> table_ok t'.
Proof. induction 1; eauto using api_step_ok. Qed.

(** ** A holder keeps its lock *)

(** [r] takes [key] from [who] by force. *)
Definition steals (key who : string) (r : request) : bool :=
  match lock_request r with
  | Some q => String.eqb (rKey q) key && negb (String.eqb (rLockee q) who) && rForce q
  | None => false
  end.

(** [r] is [who] giving [key] back. *)
Definition frees (key who : string) (r : request) : bool :=
  match unlock_request r with
  | Some q => String.eqb (uKey q) key && String.eqb (uLockee q) who
  | None => false
  end.

Lemma spec_acquire_keeps now key lockee force t k h :
  t !! k = Some h ->
  (String.eqb key k && negb (String.eqb lockee (h_lockee h)) && force) = false ->
  (spec_acquire now key lockee force t).2 !! k = Some h.
Proof.
  intros Ht Hf. unfold spec_acquire, may_acquire.
  destruct (String.eqb_spec key k) as [->|Hne].
  - rewrite (held_by_Some _ _ _ _ Ht), Ht.
    destruct (String.eqb_spec lockee (h_lockee h)) as [->|Hl].
    + rewrite (bool_decide_true (h_lockee h = h_lockee h)) by done. by rewrite orb_true_r.
    + cbn in Hf. subst force. rewrite bool_decide_false by done.
      rewrite bool_decide_false by done. done.
  - repeat case_match; cbn; auto. by rewrite lookup_insert_ne.
Qed.

Lemma spec_release_keeps key lockee t k h :
  t !! k = Some h -> (String.eqb key k && String.eqb lockee (h_lockee h)) = false ->
  (spec_release key lockee t).2 !! k = Some h.
Proof.
  intros Ht Hf. unfold spec_release.
  destruct (String.eqb_spec key k) as [->|Hne].
  - rewrite (held_by_Some _ _ _ _ Ht), Ht, bool_decide_false by done.
    destruct (String.eqb_spec lockee (h_lockee h)) as [->|Hl]; [done|].
    rewrite bool_decide_false by congruence. done.
  - repeat case_match; cbn; auto. by rewrite lookup_delete_ne.
Qed.

Lemma api_step_keeps now r t resp t' k h :
  api_step now r t resp t' -> t !! k = Some h ->
  steals k (h_lockee h) r = false -> frees k (h_lockee h) r = false ->
  t' !! k = Some h.
Proof.
  intros ->%api_step_table Ht. unfold steals, frees.
  destruct (lock_request r) as [q|]; [by intros; apply spec_acquire_keeps|].
  destruct (unlock_request r) as [q|]; [by intros; apply spec_release_keeps|done].
Qed.

Lemma api_run_keeps reqs t resps t' k h :
  api_run reqs t resps t' -> t !! k = Some h ->
  Forall (fun nr => steals k (h_lockee h) nr.2 = false /\ frees k (h_lockee h) nr.2 = false) reqs ->
  t' !! k = Some h.
Proof.
  induction 1 as [|now r reqs t resp t1 resps t2 Hs Hr IH]; intros Ht Hf; [done|].
  apply Forall_cons in Hf as [[Hst Hfr] Hf]. eauto using api_step_keeps.
Qed.

(** ** Bodies the clients write are the requests the server reads *)

Definition lock_body (key lockee : string) (force : bool) : string :=
  print (JObj [("force", JBool force); ("key", JStr key); ("lockee", JStr lockee)]).
Definition unlock_body (key lockee : string) : string :=
  print (JObj [("key", JStr key); ("lockee", JStr lockee)]).

Ltac printable_tac :=
  repeat match goal with
  | |- printable _ _ => constructor
  | |- Forall _ (_ :: _) => constructor
  | |- Forall _ [] => constructor
  | |- _ /\ _ => split; cbn [fst snd]
  | |- (_ <= _)%N => vm_compute; done
  | |- utf8 _ => solve [auto with utf8 | apply utf8_ascii; reflexivity]
  end.

Lemma Decode_print {T} (dec : json -> T * bool) v :
  printable 0 v -> Decode dec (print v) = if (dec v).2 then None else Some (dec v).1.
Proof.
  intros Hv. unfold Decode. rewrite <- (string_app_nil_r (print v)) at 1.
  by rewrite parse_print.
Qed.

Lemma Decode_lock_body key lockee force :
  utf8 key -> utf8 lockee ->
  Decode decode_lockReq (lock_body key lockee force) = Some (mkLockReq key lockee force).
Proof. intros Hk Hl. unfold lock_body. rewrite Decode_print; [done|printable_tac]. Qed.

Lemma Decode_unlock_body key lockee :
  utf8 key -> utf8 lockee ->
  Decode decode_unlockReq (unlock_body key lockee) = Some (mkUnlockReq key lockee).
Proof. intros Hk Hl. unfold unlock_body. rewrite Decode_print; [done|printable_tac]. Qed.

(** The specification of a request with a body the clients write. *)
Lemma api_lock_body now key lockee force t :
  entry_ok key (Hold lockee 0) ->
  api_lock now (lock_body key lockee force) t =
    let '(granted, t') := spec_acquire now key lockee force t in
    (if granted then writeJSON StatusOK (lockOKResp true key lockee)
     else writeJSON StatusConflict (lockConflictResp false key (holder t key)), t').
Proof.
  intros (Hk & Uk & Hl & Ul). unfold api_lock. rewrite Decode_lock_body by done.
  cbn [rKey rLockee rForce]. unfold is_empty.
  destruct (String.eqb_spec key ""); [done|]. by destruct (String.eqb_spec lockee "").
Qed.

Lemma api_unlock_body key lockee t :
  entry_ok key (Hold lockee 0) ->
  api_unlock (unlock_body key lockee) t =
    let '(o, t') := spec_release key lockee t in
    (match o with
     | Released => mkResponse StatusOK None None None ""
     | _ => http_error (outcome_msg o) (outcome_status o)
     end, t').
Proof.
  intros (Hk & Uk & Hl & Ul). unfold api_unlock. rewrite Decode_unlock_body by done.
  cbn [uKey uLockee]. unfold is_empty.
  destruct (String.eqb_spec key ""); [done|]. by destruct (String.eqb_spec lockee "").
Qed.
