(* ===== verification/ServerTheorems.v ===== *)
(** * What the two Go servers guarantee

    The properties of go-inmemory and go-sharded under a sequence of requests:
    the API of spec.md is implemented, the two servers cannot be told apart,
    and a lock stays with its holder. *)

From S2P Require Import Prelude Utf8 Json JsonFacts GoTime LockSpec InMemory Sharded Mux Http HttpFacts.
From stdpp Require Import options.
Local Open Scope Z_scope.

(** ** Requests used by the witnesses *)

Definition example_hash (s : string) : Z := Z.of_nat (String.length s).

Definition post_lock (key lockee : string) (force : bool) : request :=
  mkRequest "POST" "/lock" (lock_body key lockee force).
Definition post_unlock (key lockee : string) : request :=
  mkRequest "POST" "/unlock" (unlock_body key lockee).
Definition get_locks : request := mkRequest "GET" "/locks" "".

Definition held_store : InMemory.store := (InMemory.acquire 7 "k" "a" false InMemory.newStore).2.

Lemma held_store_inv : InMemory.inv held_store.
Proof. apply InMemory.acquire_inv, InMemory.newStore_inv. Qed.
Lemma held_store_abs : InMemory.abs held_store !! "k" = Some (Hold "a" 7).
Proof. reflexivity. Qed.

(** ** Shared lemmas *)

(** A refused or malformed request leaves the table alone. *)
Lemma api_step_error now r t resp t' :
  api_step now r t resp t' -> status resp <> StatusOK -> t' = t.
Proof.
  intros H Hst. apply api_step_spec_md in H. unfold spec_md in H.
  destruct (lock_request r) as [q|].
  - destruct (spec_acquire _ _ _ _ _) as [[] t1] eqn:E; destruct H as [-> (Hs & _)]; [done|].
    by apply spec_acquire_refused in E as (_ & -> & _).
  - destruct (unlock_request r) as [q|]; [|by destruct H as [-> _]].
    unfold spec_release in H. by repeat case_match; simplify_eq/=; destruct H as [-> H].
Qed.

(** A run from the fresh store. *)
Lemma fresh_run {St} `{LSL : LockServiceLaws St} its reqs :
  exists resps s', serve_all serve its 0 reqs (ls_new : St) = Some (resps, s') /\ ls_inv s' /\
    api_run reqs ∅ resps (ls_abs s').
Proof. rewrite <- (ls_new_abs (S := St)). apply serve_all_refines, ls_new_inv. Qed.

Definition statuses : list Z :=
  [StatusOK; StatusMovedPermanently; StatusBadRequest; StatusForbidden; StatusNotFound; StatusMethodNotAllowed;
   StatusConflict].

Lemma get_route_status m r : status r = StatusOK -> status (get_route m r) ∈ statuses.
Proof.
  unfold get_route. intros Hr. destruct (_ || _); cbn; rewrite ?Hr; apply list_elem_of_In; cbn; tauto.
Qed.

Lemma api_step_status now r t resp t' :
  api_step now r t resp t' -> status resp ∈ statuses.
Proof.
  unfold api_step. destruct (mux_target (method r) (path r)) eqn:E.
  4: { intros [_ (ls & _ & ->)]. unfold list_response. rewrite sent_status. by apply get_route_status. }
  all: intros [-> _]; rewrite sent_status; unfold api_fun; rewrite E; try (by apply get_route_status);
    unfold api_lock, api_unlock; repeat case_match; apply list_elem_of_In; cbn; tauto.
Qed.

(** * The properties *)

(** C1: both servers implement the API. For every sequence of requests that
    reaches the mux (any method, escaped path and body bytes) from the fresh
    store, in every order Go may range over its maps, each server answers every
    request without a panic; its answers and its final table are a run of
    spec.md (the statuses, the JSON of successes and conflicts, the effect on
    the locks) from the empty table, and in full detail, redirects and the
    plain-text errors of the Go code included, a run of the contract
    [api_step]. *)
Theorem servers_implement_api Hash its reqs :
  (exists resps s',
     serve_all inmemory_main its 0 reqs InMemory.newStore = Some (resps, s') /\
     runs spec_md reqs ∅ resps (InMemory.abs s') /\ runs api_step reqs ∅ resps (InMemory.abs s')) /\
  (exists resps s',
     serve_all (sharded_main Hash) its 0 reqs Sharded.newStore = Some (resps, s') /\
     runs spec_md reqs ∅ resps (Sharded.abs s') /\ runs api_step reqs ∅ resps (Sharded.abs s')).
Proof.
  split.
  - destruct (fresh_run (St := InMemory.store) its reqs) as (resps & s' & E & _ & Hr).
    exists resps, s'. split_and!; [exact E|by eapply runs_mono; [apply api_step_spec_md|]|exact Hr].
  - destruct (@fresh_run _ _ (Sharded.sharded_laws Hash) its reqs) as (resps & s' & E & _ & Hr).
    exists resps, s'. split_and!; [exact E|by eapply runs_mono; [apply api_step_spec_md|]|exact Hr].
Qed.

(** C2: go-sharded cannot be told from go-inmemory. For every hash function
    and every sequence of requests, even with different map orders, the two
    servers give the same responses, listings up to their order, and end with
    the same lock table. *)
Theorem sharded_equiv_inmemory Hash its1 its2 reqs :
  exists resps1 s1 resps2 s2,
    serve_all inmemory_main its1 0 reqs InMemory.newStore = Some (resps1, s1) /\
    serve_all (sharded_main Hash) its2 0 reqs Sharded.newStore = Some (resps2, s2) /\
    Forall2 resp_equiv resps1 resps2 /\ InMemory.abs s1 = Sharded.abs s2.
Proof.
  destruct (fresh_run (St := InMemory.store) its1 reqs) as (r1 & s1 & E1 & _ & H1).
  destruct (@fresh_run _ _ (Sharded.sharded_laws Hash) its2 reqs) as (r2 & s2 & E2 & _ & H2).
  destruct (api_run_det _ _ _ _ _ _ H1 H2) as [Ht Hr].
  exists r1, s1, r2, s2. split_and!; [exact E1|exact E2|exact Hr|exact Ht].
Qed.

(** C4: a lock stays with its holder. On any server, through any sequence of
    requests that contains neither an unlock of the key by its holder nor a
    forced lock of the key by somebody else, the key remains held by the same
    lockee since the same time. *)
Theorem holder_keeps_lock {St} `{LSL : LockServiceLaws St} its i reqs (s : St) k h :
  ls_inv s -> ls_abs s !! k = Some h ->
  Forall (fun nr => steals k (h_lockee h) nr.2 = false /\ frees k (h_lockee h) nr.2 = false) reqs ->
  exists resps s', serve_all serve its i reqs s = Some (resps, s') /\ ls_abs s' !! k = Some h.
Proof.
  intros Hi Hk Hf. destruct (serve_all_refines its i reqs s Hi) as (resps & s' & E & _ & Hr).
  exists resps, s'. split; [done|]. by eapply api_run_keeps.
Qed.

Lemma holder_keeps_lock_witness :
  exists resps s',
    serve_all inmemory_main (fun _ => insertion_order) 0
      [(8, post_lock "k" "b" false); (9, post_unlock "k" "b"); (10, post_lock "k" "a" true)] held_store
      = Some (resps, s') /\ ls_abs s' !! "k" = Some (Hold "a" 7).
Proof.
  apply (holder_keeps_lock (St := InMemory.store)).
  - exact held_store_inv.
  - exact held_store_abs.
  - repeat constructor; vm_compute; reflexivity.
Defined.

(** C23: mutual exclusion at the API. On any server, a POST /lock without force
    for a key that somebody else holds is answered 409 with the current
    holder's name, and the store's table does not change. *)
Theorem conflict_reported {St} `{LSL : LockServiceLaws St} now it (s : St) key lockee h :
  ls_inv s -> ls_abs s !! key = Some h -> h_lockee h <> lockee ->
  utf8 key -> utf8 lockee -> key <> "" -> lockee <> "" ->
  exists s',
    serve now it (post_lock key lockee false) s
      = Some (writeJSON StatusConflict (lockConflictResp false key (h_lockee h)), s') /\
    ls_inv s' /\ ls_abs s' = ls_abs s.
Proof.
  intros Hi Hh Hne Uk Ul Hk Hl.
  destruct (serve_refines now it (post_lock key lockee false) s Hi) as (resp & s' & E & Hi' & Hs).
  exists s'. rewrite E.
  apply api_step_lock in Hs. rewrite (api_lock_body _ _ _ _ _ (conj Hk (conj Uk (conj Hl Ul)))) in Hs.
  rewrite (spec_acquire_taken _ _ _ _ _ _ Hh Hne) in Hs. injection Hs as -> ->. unfold holder. by rewrite Hh.
Qed.

Lemma conflict_reported_witness :
  exists s',
    serve (St := InMemory.store) 8 insertion_order (post_lock "k" "b" false) held_store
      = Some (writeJSON StatusConflict (lockConflictResp false "k" "a"), s') /\
    ls_inv s' /\ ls_abs s' = ls_abs held_store.
Proof.
  apply (conflict_reported (St := InMemory.store) 8 insertion_order held_store "k" "b" (Hold "a" 7)).
  - exact held_store_inv.
  - exact held_store_abs.
  - discriminate.
  - apply utf8_ascii. reflexivity.
  - apply utf8_ascii. reflexivity.
  - discriminate.
  - discriminate.
Defined.

(** C24: only successful requests change anything. On any server every response
    to a request that reaches the mux has one of the statuses 200, 301, 400,
    403, 404, 405 and 409, and a response other than 200 comes with an
    unchanged table. *)
Theorem errors_change_nothing {St} `{LSL : LockServiceLaws St} now it r (s : St) :
  ls_inv s ->
  exists resp s', serve now it r s = Some (resp, s') /\ status resp ∈ statuses /\
    (status resp <> StatusOK -> ls_abs s' = ls_abs s).
Proof.
  intros Hi. destruct (serve_refines now it r s Hi) as (resp & s' & E & _ & Hs).
  exists resp, s'. split_and!; [done|by eapply api_step_status|by eapply api_step_error].
Qed.

Lemma errors_change_nothing_witness :
  exists resp s',
    serve (St := InMemory.store) 8 insertion_order (post_unlock "k" "b") held_store = Some (resp, s') /\
    status resp ∈ statuses /\ (status resp <> StatusOK -> ls_abs s' = ls_abs held_store).
Proof. apply (errors_change_nothing (St := InMemory.store)). exact held_store_inv. Defined.

(** C25: what gets into the table. After any sequence of requests to either
    server, every held key and every holder is a non-empty string of
    well-formed UTF-8, so every listing can be encoded and read back. *)
Theorem held_keys_wellformed Hash its reqs :
  (exists resps s',
     serve_all inmemory_main its 0 reqs InMemory.newStore = Some (resps, s') /\
     table_ok (InMemory.abs s')) /\
  (exists resps s',
     serve_all (sharded_main Hash) its 0 reqs Sharded.newStore = Some (resps, s') /\
     table_ok (Sharded.abs s')).
Proof.
  assert (table_ok ∅) as H0 by apply map_Forall_empty. split.
  - destruct (fresh_run (St := InMemory.store) its reqs) as (resps & s' & E & _ & Hr).
    eauto using api_run_ok.
  - destruct (@fresh_run _ _ (Sharded.sharded_laws Hash) its reqs) as (resps & s' & E & _ & Hr).
    exists resps, s'. split; [exact E|]. by apply (api_run_ok _ _ _ _ Hr).
Qed.

(** C11: the single-map store refines the contract. From any store whose
    entries lie under their own keys, [acquire] grants and refuses exactly as
    specified, keeps the holder's [since] on a repeated acquire, returns the
    lock that is then in the table, and keeps the invariant; [release] has the
    specified outcome, status and message; [list] is the table in some order. *)
Theorem inmemory_store_refines s :
  InMemory.inv s ->
  (forall now key lockee force l ok s',
     InMemory.acquire now key lockee force s = (l, ok, s') ->
     InMemory.inv s' /\ spec_acquire now key lockee force (InMemory.abs s) = (ok, InMemory.abs s') /\
     Key l = key /\ InMemory.abs s' !! key = Some (hold_of l)) /\
  (forall key lockee st msg s',
     InMemory.release key lockee s = (st, msg, s') ->
     InMemory.inv s' /\ exists o, st = outcome_status o /\ msg = outcome_msg o /\
       spec_release key lockee (InMemory.abs s) = (o, InMemory.abs s')) /\
  (forall it, InMemory.list_locks it s ≡ₚ locks_of (InMemory.abs s)).
Proof.
  intros Hi. split_and!.
  - intros now key lockee force l ok s' E.
    pose proof (InMemory.acquire_inv now key lockee force s Hi) as Hi'. rewrite E in Hi'.
    pose proof (InMemory.acquire_returns _ _ _ _ _ _ _ _ Hi E) as [? ?].
    eauto using InMemory.acquire_refines.
  - intros key lockee st msg s' E.
    pose proof (InMemory.release_inv key lockee s Hi) as Hi'. rewrite E in Hi'.
    eauto using InMemory.release_refines.
  - intros it. by apply InMemory.list_refines.
Qed.

Lemma inmemory_store_refines_witness :
  InMemory.list_locks reverse_order held_store ≡ₚ locks_of (InMemory.abs held_store).
Proof. apply (inmemory_store_refines held_store held_store_inv). Defined.

(** C10: sharding is transparent. For every hash function, from any
    well-formed sharded store, [acquire], [release] and [list] never index out
    of range, keep the store well-formed, and return exactly what the
    single-map store holding the same entries returns (listings up to order),
    leaving again the same entries. *)
Theorem sharding_transparent Hash s :
  Sharded.inv Hash s ->
  (forall now key lockee force, exists l ok s',
     Sharded.acquire Hash now key lockee force s = Some (l, ok, s') /\ Sharded.inv Hash s' /\
     InMemory.acquire now key lockee force (Sharded.flatten s) = (l, ok, Sharded.flatten s')) /\
  (forall key lockee, exists st msg s',
     Sharded.release Hash key lockee s = Some (st, msg, s') /\ Sharded.inv Hash s' /\
     InMemory.release key lockee (Sharded.flatten s) = (st, msg, Sharded.flatten s')) /\
  (forall it, Sharded.list_locks it s ≡ₚ InMemory.list_locks it (Sharded.flatten s)).
Proof.
  intros Hi. split_and!; intros.
  - by apply Sharded.acquire_flatten.
  - by apply Sharded.release_flatten.
  - by eapply Sharded.list_flatten.
Qed.

Lemma sharding_transparent_witness :
  exists l ok s',
    Sharded.acquire example_hash 5 "k" "a" false Sharded.newStore = Some (l, ok, s') /\
    Sharded.inv example_hash s' /\
    InMemory.acquire 5 "k" "a" false (Sharded.flatten Sharded.newStore) = (l, ok, Sharded.flatten s').
Proof.
  apply (sharding_transparent example_hash Sharded.newStore (Sharded.fresh_inv example_hash)).
Defined.

(** C38: what the clients send is what the server reads. For all well-formed
    UTF-8 keys and lockees, quotes, control characters and non-ASCII text
    included, the bodies the benchmark marshals decode in the handlers to
    exactly the key, lockee and force flag that were sent. *)
Theorem request_bodies_roundtrip key lockee force :
  utf8 key -> utf8 lockee ->
  Decode decode_lockReq (lock_body key lockee force) = Some (mkLockReq key lockee force) /\
  Decode decode_unlockReq (unlock_body key lockee) = Some (mkUnlockReq key lockee).
Proof. auto using Decode_lock_body, Decode_unlock_body. Qed.

Lemma request_bodies_roundtrip_witness :
  Decode decode_lockReq (lock_body "a<b" "new
line" true) = Some (mkLockReq "a<b" "new
line" true) /\
  Decode decode_unlockReq (unlock_body "a<b" "new
line") = Some (mkUnlockReq "a<b" "new
line").
Proof. apply request_bodies_roundtrip; apply utf8_ascii; reflexivity. Defined.
