(* ===== verification/Concurrent.v ===== *)
(** * Concurrent requests: the mutexes of the two stores

    [net/http] runs every request in its own goroutine, and the stores protect
    their maps by [sync.RWMutex]es. This file models [acquire], [release] and
    [list] as threads that take one visible action at a time (lock, read the
    map, write the map, visit an entry, unlock), interleaved in any order.

    One machine covers both stores: go-inmemory has one map and one mutex,
    go-sharded one of each per shard, with [list] locking the shards in turn.
    [part_of] is the shard of a key. [time.Now()] is the label's argument.

    The mutexes follow [sync.RWMutex] of Go 1.23. [Lock] first competes with
    other writers for the inner mutex, then announces itself, which keeps new
    readers out, and waits for the readers inside to leave. [RLock] enters
    unless a writer is announced; otherwise the reader is parked, and
    [Unlock] admits all parked readers before another writer can announce
    itself. *)

From S2P Require Import Prelude LockSpec InMemory Sharded.
From stdpp Require Import options.

Inductive kop :=
| KAcquire (key lockee : string) (force : bool)
| KRelease (key lockee : string).

Inductive kres :=
| RAcquire (l : Lock) (ok : bool)
| RRelease (st : Z) (msg : string).

Definition kop_key (o : kop) : string :=
  match o with KAcquire key _ _ => key | KRelease key _ => key end.

(** A map with its [sync.RWMutex]. *)
Record cell := mkCell {
  writer : bool;           (* a writer is announced or inside *)
  readers : nat;           (* readers admitted: inside, or woken and about to enter *)
  parked : nat;            (* readers waiting for the writer to leave *)
  woken : nat;             (* readers admitted by [Unlock] that have not resumed yet *)
  cmap : gmap string Lock
}.

Inductive thread :=
| TStart (o : kop)                                       (* before mu.Lock() *)
| TAnnounced (o : kop)                                   (* in mu.Lock(), waiting for readers *)
| TLocked (o : kop)                                      (* mutex held *)
| TRead (o : kop) (existing : option Lock)               (* after existing, ok := locks[key] *)
| TUnlock (o : kop) (r : kres)                           (* result chosen, deferred Unlock pending *)
| TDone (o : kop) (r : kres)
| TListWait (i : nat) (acc : list Lock)                  (* before RLock() of map i *)
| TListParked (i : nat) (acc : list Lock)                (* in RLock(), behind a writer *)
| TListIter (i : nat) (seen : gset string) (acc : list Lock)  (* inside the range loop *)
| TListDone (acc : list Lock).

(** The log records, for each keyed operation, the moment it takes effect. *)
Record event := mkEvent { ev_tid : nat; ev_now : Z; ev_op : kop; ev_res : kres }.

Record config := mkConfig {
  cells : list cell;
  threads : gmap nat thread;
  elog : list event
}.

Definition init (n : nat) : config := mkConfig (replicate n (mkCell false 0 0 0 ∅)) ∅ [].

(** Lines between the map read and the return, given what was read. *)
Definition commit (now : Z) (o : kop) (existing : option Lock) (m : gmap string Lock)
    : kres * gmap string Lock :=
  match o, existing with
  | KAcquire key lockee force, Some e =>
      if String.eqb e.(Lockee) lockee then (RAcquire e true, m)
      else if negb force then (RAcquire e false, m)
      else let l := mkLock key lockee now in (RAcquire l true, <[key := l]> m)
  | KAcquire key lockee force, None =>
      let l := mkLock key lockee now in (RAcquire l true, <[key := l]> m)
  | KRelease key lockee, None => (RRelease StatusNotFound "not found", m)
  | KRelease key lockee, Some e =>
      if negb (String.eqb e.(Lockee) lockee) then (RRelease StatusForbidden "lockee mismatch", m)
      else (RRelease StatusOK "", delete key m)
  end.

(** A scheduling decision: start a request, or let thread [tid] take its next
    action, at time [now], visiting key [pick] when it is in a range loop. *)
Inductive label :=
| LSpawn (tid : nat) (o : kop)
| LSpawnList (tid : nat)
| LRun (tid : nat) (now : Z) (pick : string).

Section machine.
Context (part_of : string -> nat).

Definition set_cell (i : nat) (c : cell) (cfg : config) (tid : nat) (t : thread) : config :=
  mkConfig (<[i := c]> cfg.(cells)) (<[tid := t]> cfg.(threads)) cfg.(elog).
Definition set_thread (cfg : config) (tid : nat) (t : thread) : config :=
  mkConfig cfg.(cells) (<[tid := t]> cfg.(threads)) cfg.(elog).

Definition run_thread (tid : nat) (now : Z) (pick : string) (t : thread) (cfg : config)
    : option config :=
  match t with
  | TStart o =>
      let i := part_of (kop_key o) in
      c ← cfg.(cells) !! i;
      if c.(writer) then None
      else Some (set_cell i (mkCell true c.(readers) c.(parked) c.(woken) c.(cmap)) cfg tid (TAnnounced o))
  | TAnnounced o =>
      c ← cfg.(cells) !! part_of (kop_key o);
      if bool_decide (c.(readers) = 0) then Some (set_thread cfg tid (TLocked o)) else None
  | TLocked o =>
      c ← cfg.(cells) !! part_of (kop_key o);
      Some (set_thread cfg tid (TRead o (c.(cmap) !! kop_key o)))
  | TRead o existing =>
      let i := part_of (kop_key o) in
      c ← cfg.(cells) !! i;
      let rm := commit now o existing c.(cmap) in
      Some (mkConfig (<[i := mkCell c.(writer) c.(readers) c.(parked) c.(woken) rm.2]> cfg.(cells))
                     (<[tid := TUnlock o rm.1]> cfg.(threads))
                     (cfg.(elog) ++ [mkEvent tid now o rm.1]))
  | TUnlock o r =>
      let i := part_of (kop_key o) in
      c ← cfg.(cells) !! i;
      Some (set_cell i (mkCell false (c.(readers) + c.(parked)) 0 (c.(woken) + c.(parked)) c.(cmap))
              cfg tid (TDone o r))
  | TListWait i acc =>
      match cfg.(cells) !! i with
      | None => Some (set_thread cfg tid (TListDone acc))
      | Some c =>
          Some (if c.(writer)
                then set_cell i (mkCell true c.(readers) (S c.(parked)) c.(woken) c.(cmap)) cfg tid (TListParked i acc)
                else set_cell i (mkCell false (S c.(readers)) c.(parked) c.(woken) c.(cmap)) cfg tid (TListIter i ∅ acc))
      end
  | TListParked i acc =>
      c ← cfg.(cells) !! i;
      match c.(woken) with
      | 0 => None
      | S w => Some (set_cell i (mkCell c.(writer) c.(readers) c.(parked) w c.(cmap)) cfg tid (TListIter i ∅ acc))
      end
  | TListIter i seen acc =>
      c ← cfg.(cells) !! i;
      if bool_decide (dom c.(cmap) ⊆ seen)
      then Some (set_cell i (mkCell c.(writer) (pred c.(readers)) c.(parked) c.(woken) c.(cmap))
                   cfg tid (TListWait (S i) acc))
      else if bool_decide (pick ∈ seen) then None
      else l ← c.(cmap) !! pick;
           Some (set_thread cfg tid (TListIter i ({[pick]} ∪ seen) (acc ++ [l])))
  | TDone _ _ | TListDone _ => None
  end.

Definition step (a : label) (cfg : config) : option config :=
  match a with
  | LSpawn tid o =>
      if bool_decide (cfg.(threads) !! tid = None) then Some (set_thread cfg tid (TStart o)) else None
  | LSpawnList tid =>
      if bool_decide (cfg.(threads) !! tid = None)
      then Some (set_thread cfg tid (TListWait 0 [])) else None
  | LRun tid now pick => t ← cfg.(threads) !! tid; run_thread tid now pick t cfg
  end.

Definition steps_to (c c' : config) : Prop := exists a, step a c = Some c'.
Definition reach : config -> config -> Prop := rtc steps_to.

(** The configuration a schedule ends in, and those it passes before. *)
Fixpoint exec (as_ : list label) (c : config) : option config :=
  match as_ with
  | [] => Some c
  | a :: as_ => c' ← step a c; exec as_ c'
  end.

Fixpoint passed (as_ : list label) (c : config) : list config :=
  match as_ with
  | [] => []
  | a :: as_ => match step a c with Some c' => c :: passed as_ c' | None => [] end
  end.

End machine.
