(* ===== verification/ConcurrentFacts.v ===== *)
(** * Safety and linearizability of the concurrent stores

    The invariant of the machine: the counts of each mutex agree with the
    threads in its sections, parked and woken readers included, and the log is
    a legal history of the single-map store that explains the maps. *)

From S2P Require Import Prelude LockSpec InMemory Sharded Concurrent.
From stdpp Require Import options.

(** ** Sequential meaning of a keyed operation *)

Definition seq_op (now : Z) (o : kop) (s : InMemory.store) : kres * InMemory.store :=
  match o with
  | KAcquire key lockee force =>
      let '(l, ok, s') := InMemory.acquire now key lockee force s in (RAcquire l ok, s')
  | KRelease key lockee =>
      let '(st, msg, s') := InMemory.release key lockee s in (RRelease st msg, s')
  end.

(** The events, in order, are a run of the sequential store that ends in [s]. *)
Inductive legal : list event -> InMemory.store -> Prop :=
| legal_nil : legal [] InMemory.newStore
| legal_snoc es s e s' :
    legal es s -> seq_op (ev_now e) (ev_op e) s = (ev_res e, s') -> legal (es ++ [e]) s'.

Lemma partial_alter_same (U : gmap string Lock) key v :
  U !! key = v -> partial_alter (fun _ => v) key U = U.
Proof.
  intros <-. apply map_eq. intros k. rewrite lookup_partial_alter. by case_decide; subst.
Qed.

(** Committing on a part of the store is the sequential operation on the whole. *)
Lemma commit_seq now o m r m' :
  commit now o (m !! kop_key o) m = (r, m') ->
  (forall k, k <> kop_key o -> m' !! k = m !! k) /\
  forall U, U !! kop_key o = m !! kop_key o ->
    seq_op now o (InMemory.mkStore U)
    = (r, InMemory.mkStore (partial_alter (fun _ => m' !! kop_key o) (kop_key o) U)).
Proof.
  destruct o as [key lockee force|key lockee]; cbn [kop_key];
    destruct (m !! key) as [e|] eqn:E; cbn [commit]; intros H;
    unfold seq_op, InMemory.acquire, InMemory.release; cbn [InMemory.locks];
    repeat case_match; simplify_eq; split; intros;
    repeat match goal with H : ?U !! _ = _ |- context [?U !! _] => rewrite H end;
    repeat match goal with H : ?b = true |- context [?b] => rewrite H | H : ?b = false |- context [?b] => rewrite H end;
    cbn; rewrite ?lookup_insert_eq, ?lookup_delete_eq; try done;
    try (by rewrite lookup_insert_ne); try (by rewrite lookup_delete_ne);
    rewrite ?E, ?partial_alter_same by done; done.
Qed.

(** The entries of [m] a range loop has visited. *)
Definition seen_map (m : gmap string Lock) (seen : gset string) : gmap string Lock :=
  filter (fun kv => kv.1 ∈ seen) m.
Definition seen_locks (m : gmap string Lock) (seen : gset string) : list Lock :=
  snd <$> map_to_list (seen_map m seen).

Lemma seen_map_empty m : seen_map m ∅ = ∅.
Proof.
  apply map_empty. intros k. apply map_lookup_filter_None. right. intros l _ Hk.
  by apply not_elem_of_empty in Hk.
Qed.

Lemma seen_map_add m seen k l :
  m !! k = Some l -> seen_map m ({[k]} ∪ seen) = <[k := l]> (seen_map m seen).
Proof.
  intros Hk. unfold seen_map. apply map_eq. intros x. apply option_eq. intros v.
  rewrite lookup_insert_Some, !map_lookup_filter_Some. cbn.
  destruct (decide (k = x)) as [->|]; set_solver.
Qed.

Lemma seen_locks_empty m : seen_locks m ∅ = [].
Proof. unfold seen_locks. by rewrite seen_map_empty, map_to_list_empty. Qed.

Lemma seen_locks_add m seen k l :
  m !! k = Some l -> k ∉ seen -> seen_locks m ({[k]} ∪ seen) ≡ₚ seen_locks m seen ++ [l].
Proof.
  intros Hk Hs. unfold seen_locks. rewrite (seen_map_add _ _ _ l Hk).
  rewrite map_to_list_insert; [cbn; by rewrite <- Permutation_cons_append|].
  apply map_lookup_filter_None. right. intros ? _. done.
Qed.

Lemma seen_locks_all m seen : dom m ⊆ seen -> seen_locks m seen = snd <$> map_to_list m.
Proof.
  intros Hd. unfold seen_locks, seen_map. f_equal. f_equal. apply map_filter_id.
  intros k l Hk. apply Hd. by eapply elem_of_dom_2.
Qed.

Section machine_facts.
Context (part_of : string -> nat) (n : nat).

Notation step := (step part_of).
Notation steps_to := (steps_to part_of).
Notation reach := (reach part_of).

(** ** Critical sections *)

Definition wsec (t : thread) : option nat :=
  match t with
  | TLocked o | TRead o _ | TUnlock o _ => Some (part_of (kop_key o))
  | _ => None
  end.
Definition rsec (t : thread) : option nat :=
  match t with TListIter i _ _ => Some i | _ => None end.

(** Where a thread is at a mutex. *)
Inductive place := Announced | Writing | Reading | Parked.
Definition place_eqb (p q : place) : bool :=
  match p, q with
  | Announced, Announced | Writing, Writing | Reading, Reading | Parked, Parked => true
  | _, _ => false
  end.
Definition place_of (t : thread) : option (place * nat) :=
  match t with
  | TAnnounced o => Some (Announced, part_of (kop_key o))
  | TLocked o | TRead o _ | TUnlock o _ => Some (Writing, part_of (kop_key o))
  | TListIter i _ _ => Some (Reading, i)
  | TListParked i _ => Some (Parked, i)
  | _ => None
  end.
Definition at_place (p : place) (i : nat) (t : thread) : bool :=
  match place_of t with Some (q, j) => place_eqb q p && bool_decide (j = i) | None => false end.

Lemma at_place_eq p i t :
  at_place p i t = match place_of t with Some (q, j) => place_eqb q p && bool_decide (j = i) | None => false end.
Proof. done. Qed.
Lemma at_place_true p i t : place_of t = Some (p, i) -> at_place p i t = true.
Proof. intros H. unfold at_place. rewrite H, bool_decide_true by done. by destruct p. Qed.
Lemma wsec_place t i : wsec t = Some i -> place_of t = Some (Writing, i).
Proof. by destruct t; cbn; intros; simplify_eq. Qed.
Lemma rsec_place t i : rsec t = Some i -> place_of t = Some (Reading, i).
Proof. by destruct t; cbn; intros; simplify_eq. Qed.

(** Threads at a place of mutex [i]. *)
Notation there p i ts := (count (at_place p i) ts).

(** The mutex of a cell agrees with the threads at its places. *)
Record mutex_ok (i : nat) (c : cell) (ts : gmap nat thread) : Prop := mkMutexOk {
  mu_writers : there Announced i ts + there Writing i ts = (if writer c then 1 else 0);
  mu_readers : there Reading i ts + woken c = readers c;
  mu_parked : there Parked i ts = parked c + woken c;
  mu_exclusive : 0 < there Writing i ts -> readers c = 0;
  mu_free : writer c = false -> parked c = 0
}.

(** The event of a thread: none before it commits, then exactly one. *)
Definition log_ok (tid : nat) (t : option thread) (es : list event) : Prop :=
  let mine := filter (fun e => ev_tid e = tid) es in
  match t with
  | Some (TUnlock o r) | Some (TDone o r) => exists now, mine = [mkEvent tid now o r]
  | _ => mine = []
  end.

Lemma log_ok_length tid t es :
  log_ok tid t es -> length (filter (fun e => ev_tid e = tid) es) <= 1.
Proof.
  unfold log_ok. destruct t as [[]|]; first [intros [? ->]|intros ->]; cbn; lia.
Qed.

Definition contents (c : config) : gmap string Lock := ⋃ (cmap <$> cells c).

Record cinv (c : config) : Prop := mkCinv {
  ci_len : length (cells c) = n;
  ci_mutex : forall i cl, cells c !! i = Some cl -> mutex_ok i cl (threads c);
  ci_parted : parted_from part_of 0 (cmap <$> cells c);
  ci_read : forall tid o e cl, threads c !! tid = Some (TRead o e) ->
              cells c !! part_of (kop_key o) = Some cl -> e = cmap cl !! kop_key o;
  ci_legal : legal (elog c) (InMemory.mkStore (contents c));
  ci_log : forall tid, log_ok tid (threads c !! tid) (elog c)
}.

(** A step that replaces thread [tid] and at most the cell [i]. *)
Lemma there_same (ts : gmap nat thread) tid t t' p j :
  ts !! tid = Some t -> at_place p j t = at_place p j t' -> there p j (<[tid := t']> ts) = there p j ts.
Proof. intros Ht He. pose proof (count_insert (at_place p j) ts tid t t' Ht) as C. rewrite He in C. lia. Qed.

Lemma mutex_thread (ts : gmap nat thread) (cs : list cell) tid t t' :
  (forall j cl, cs !! j = Some cl -> mutex_ok j cl ts) ->
  ts !! tid = Some t -> (forall p j, at_place p j t = at_place p j t') ->
  forall j cl, cs !! j = Some cl -> mutex_ok j cl (<[tid := t']> ts).
Proof.
  intros Hm Ht Hsame j cl Hj. destruct (Hm j cl Hj).
  split; rewrite ?(there_same ts tid t t') by done; done.
Qed.

Lemma mutex_update (ts : gmap nat thread) (cs : list cell) tid t t' i c' :
  (forall j cl, cs !! j = Some cl -> mutex_ok j cl ts) ->
  ts !! tid = Some t ->
  (forall p j, j <> i -> at_place p j t = at_place p j t') ->
  mutex_ok i c' (<[tid := t']> ts) ->
  forall j cl, <[i := c']> cs !! j = Some cl -> mutex_ok j cl (<[tid := t']> ts).
Proof.
  intros Hm Ht Hother Hi j cl. rewrite list_lookup_insert_Some.
  intros [(<- & <- & _)|[Hne Hj]]; [done|]. destruct (Hm j cl Hj).
  split; rewrite ?(there_same ts tid t t') by auto; done.
Qed.

Lemma mutex_spawn (ts : gmap nat thread) (cs : list cell) tid t' :
  (forall j cl, cs !! j = Some cl -> mutex_ok j cl ts) ->
  ts !! tid = None -> place_of t' = None ->
  forall j cl, cs !! j = Some cl -> mutex_ok j cl (<[tid := t']> ts).
Proof.
  intros Hm Ht Hp j cl Hj. destruct (Hm j cl Hj).
  assert (forall p, there p j (<[tid := t']> ts) = there p j ts) as E.
  { intros p. rewrite count_insert_new by done. unfold at_place. by rewrite Hp. }
  split; rewrite ?E; done.
Qed.

(** Two threads are never inside the write section of one cell. *)
Lemma cinv_exclusive c tid1 tid2 t1 t2 i cl :
  cinv c -> cells c !! i = Some cl -> tid1 <> tid2 ->
  threads c !! tid1 = Some t1 -> threads c !! tid2 = Some t2 ->
  wsec t1 = Some i -> wsec t2 <> Some i /\ rsec t2 <> Some i.
Proof.
  intros Hc Hcl Hne H1 H2 Hw1%wsec_place%at_place_true.
  destruct (ci_mutex c Hc i cl Hcl) as [Cw Cr _ Hx _].
  pose proof (count_pos _ _ _ _ H1 Hw1) as Hpos. specialize (Hx Hpos). split.
  - intros Hw2%wsec_place%at_place_true.
    pose proof (count_two _ _ _ _ _ _ Hne H1 H2 Hw1 Hw2). destruct (writer cl); lia.
  - intros Hr2%rsec_place%at_place_true. pose proof (count_pos _ _ _ _ H2 Hr2). lia.
Qed.

(** ** The invariant is preserved *)

Lemma log_ok_insert (ts : gmap nat thread) tid t' es :
  (forall x, log_ok x (ts !! x) es) -> log_ok tid (Some t') es ->
  forall x, log_ok x (<[tid := t']> ts !! x) es.
Proof. intros Hall Ht x. rewrite lookup_insert. case_decide; subst; auto. Qed.

(** Steps that leave the maps alone. *)
Lemma cinv_same_maps c cs' tid t' :
  cinv c -> cmap <$> cs' = cmap <$> cells c ->
  (forall j cl, cs' !! j = Some cl -> mutex_ok j cl (<[tid := t']> (threads c))) ->
  log_ok tid (Some t') (elog c) ->
  (forall o e cl, t' = TRead o e -> cells c !! part_of (kop_key o) = Some cl -> e = cmap cl !! kop_key o) ->
  cinv (mkConfig cs' (<[tid := t']> (threads c)) (elog c)).
Proof.
  intros Hc Hmaps Hmut Hlog Hread. destruct Hc as [Hl Hm Hp Hr Hleg Hlo].
  split; unfold contents; cbn [cells threads elog].
  - by rewrite <- Hl, <- (length_fmap cmap cs'), Hmaps, length_fmap.
  - done.
  - by rewrite Hmaps.
  - intros x o e cl Hx Hcl.
    assert (exists cl0, cells c !! part_of (kop_key o) = Some cl0 /\ cmap cl0 = cmap cl) as (cl0 & H0 & <-).
    { apply (f_equal (fun l => l !! part_of (kop_key o))) in Hmaps.
      rewrite !list_lookup_fmap, Hcl in Hmaps. cbn in Hmaps.
      destruct (cells c !! part_of (kop_key o)); simplify_eq/=; eauto. }
    rewrite lookup_insert in Hx. case_decide; simplify_eq; eauto.
  - by rewrite Hmaps.
  - by apply log_ok_insert.
Qed.

Lemma cinv_cell c tid t t' i cl cl' :
  cinv c -> threads c !! tid = Some t -> cells c !! i = Some cl -> cmap cl' = cmap cl ->
  (forall p j, j <> i -> at_place p j t = at_place p j t') ->
  mutex_ok i cl' (<[tid := t']> (threads c)) ->
  log_ok tid (Some t') (elog c) ->
  (forall o e cl, t' = TRead o e -> cells c !! part_of (kop_key o) = Some cl -> e = cmap cl !! kop_key o) ->
  cinv (set_cell i cl' c tid t').
Proof.
  intros Hc Ht Hi Hm Hsame Hmut Hlog Hread. apply cinv_same_maps; auto.
  - rewrite list_fmap_insert, Hm. apply list_insert_id. by rewrite list_lookup_fmap, Hi.
  - eapply mutex_update; eauto. apply Hc.
Qed.

Lemma cinv_thread c tid t t' :
  cinv c -> threads c !! tid = Some t ->
  (forall p j, at_place p j t = at_place p j t') ->
  log_ok tid (Some t') (elog c) ->
  (forall o e cl, t' = TRead o e -> cells c !! part_of (kop_key o) = Some cl -> e = cmap cl !! kop_key o) ->
  cinv (set_thread c tid t').
Proof.
  intros Hc Ht Hsame Hlog Hread. apply cinv_same_maps; auto.
  eapply mutex_thread; eauto. apply Hc.
Qed.

Lemma cinv_spawn c tid t' :
  cinv c -> threads c !! tid = None ->
  (exists o, t' = TStart o) \/ t' = TListWait 0 [] -> cinv (set_thread c tid t').
Proof.
  intros Hc Ht Hs. apply cinv_same_maps; auto.
  - apply mutex_spawn; auto; [apply Hc|destruct Hs as [[? ->]| ->]; done].
  - pose proof (ci_log c Hc tid) as Hl. rewrite Ht in Hl. destruct Hs as [[? ->]| ->]; done.
  - intros o e cl ->. destruct Hs as [[? ?]|?]; done.
Qed.

Lemma cinv_commit c tid now o e cl r m' :
  cinv c -> threads c !! tid = Some (TRead o e) ->
  cells c !! part_of (kop_key o) = Some cl -> commit now o e (cmap cl) = (r, m') ->
  cinv (mkConfig (<[part_of (kop_key o) := mkCell (writer cl) (readers cl) (parked cl) (woken cl) m']> (cells c))
                 (<[tid := TUnlock o r]> (threads c)) (elog c ++ [mkEvent tid now o r])).
Proof.
  intros Hc Ht Hcl Hcom. pose proof Hc as [Hl Hm Hp Hr Hleg Hlo].
  rewrite (Hr _ _ _ _ Ht Hcl) in Hcom. apply commit_seq in Hcom as [Hother Hseq].
  assert ((cmap <$> cells c) !! part_of (kop_key o) = Some (cmap cl)) as Hcl'
    by by rewrite list_lookup_fmap, Hcl.
  destruct (parted_update part_of _ _ _ m' (kop_key o) Hp Hcl' eq_refl Hother) as [Hp' Hu].
  split; unfold contents in *; cbn [cells threads elog]; rewrite ?list_fmap_insert, ?length_insert; auto.
  - eapply mutex_update; eauto. destruct (Hm _ _ Hcl).
    split; rewrite ?(there_same _ tid (TRead o e) (TUnlock o r)) by done; done.
  - intros x o' e' cl' Hx Hx'. rewrite lookup_insert in Hx. case_decide as Hd; [done|].
    rewrite list_lookup_insert_Some in Hx'. destruct Hx' as [(He & <- & _)|[Hne Hx']]; [|eauto].
    destruct (cinv_exclusive c tid x _ _ _ cl Hc Hcl Hd Ht Hx eq_refl) as [Hno _].
    cbn in Hno. congruence.
  - econstructor; [exact Hleg|]. cbn [ev_now ev_op ev_res]. cbn [cmap]. rewrite Hu.
    apply Hseq. rewrite (lookup_parted part_of 0) by (auto with lia).
    by rewrite Nat.sub_0_r, Hcl'.
  - intros x. specialize (Hlo x). unfold log_ok in *. rewrite lookup_insert, filter_app.
    case_decide as Hd.
    + subst x. rewrite Ht in Hlo. rewrite Hlo. cbn. rewrite decide_True by done. eauto.
    + rewrite (filter_cons_False _ (mkEvent _ _ _ _)) by done. by rewrite filter_nil, app_nil_r.
Qed.

(** The counts around a thread that changes its place. *)
Ltac places Ht Hc Hcl i t' :=
  pose proof (count_insert (at_place Announced i) _ _ _ t' Ht) as CA;
  pose proof (count_insert (at_place Writing i) _ _ _ t' Ht) as CW;
  pose proof (count_insert (at_place Reading i) _ _ _ t' Ht) as CR;
  pose proof (count_insert (at_place Parked i) _ _ _ t' Ht) as CP;
  rewrite !at_place_eq in CA, CW, CR, CP; cbn [place_of place_eqb andb] in CA, CW, CR, CP;
  try rewrite !bool_decide_true in CA by done; try rewrite !bool_decide_true in CW by done;
  try rewrite !bool_decide_true in CR by done; try rewrite !bool_decide_true in CP by done;
  destruct (ci_mutex _ Hc _ _ Hcl) as [M1 M2 M3 M4 M5].

Lemma place_elsewhere p j t t' i :
  (forall q x, place_of t = Some (q, x) -> x = i) -> (forall q x, place_of t' = Some (q, x) -> x = i) ->
  j <> i -> at_place p j t = at_place p j t'.
Proof.
  intros H1 H2 Hne. assert (forall u, (forall q x, place_of u = Some (q, x) -> x = i) -> at_place p j u = false) as E.
  { intros u Hu. unfold at_place. destruct (place_of u) as [[q x]|]; [|done].
    rewrite (Hu q x), bool_decide_false, andb_false_r by done. done. }
  by rewrite !E.
Qed.

Ltac elsewhere := intros ? ? ?; eapply place_elsewhere; [| |eassumption]; intros ? ? ?; by simplify_eq/=.

Lemma run_thread_cinv tid now pick t c c' :
  cinv c -> threads c !! tid = Some t -> run_thread part_of tid now pick t c = Some c' -> cinv c'.
Proof.
  intros Hc Ht H. pose proof (ci_log c Hc tid) as Hlog. rewrite Ht in Hlog.
  destruct t as [o|o|o|o e|o r|o r|i acc|i acc|i seen acc|acc]; cbn [run_thread] in H; try done.
  - destruct (cells c !! part_of (kop_key o)) as [cl|] eqn:Hcl; [|done]. cbn in H.
    destruct (writer cl) eqn:Hw; [done|]. simplify_eq/=. places Ht Hc Hcl (part_of (kop_key o)) (TAnnounced o).
    rewrite Hw in *. apply (cinv_cell c tid _ _ _ cl _ Hc Ht Hcl); [done|elsewhere| |done|done].
    split; cbn [writer readers parked woken]; lia || done.
  - destruct (cells c !! part_of (kop_key o)) as [cl|] eqn:Hcl; [|done]. cbn in H.
    case_bool_decide as Hr; [|done]. simplify_eq/=. places Ht Hc Hcl (part_of (kop_key o)) (TLocked o).
    assert (set_thread c tid (TLocked o) = set_cell (part_of (kop_key o)) cl c tid (TLocked o)) as ->.
    { unfold set_thread, set_cell. by rewrite list_insert_id. }
    apply (cinv_cell c tid _ _ _ cl _ Hc Ht Hcl); [done|elsewhere| |done|done]. split; lia || done.
  - destruct (cells c !! part_of (kop_key o)) as [cl|] eqn:Hcl; [|done]. simplify_eq/=.
    apply (cinv_thread c tid _ _ Hc Ht); [done|done|]. intros ? ? ? [= <- <-] ?. congruence.
  - destruct (cells c !! part_of (kop_key o)) as [cl|] eqn:Hcl; [|done]. cbn in H.
    destruct (commit now o e (cmap cl)) as [r m'] eqn:Hcom. simplify_eq/=.
    eapply cinv_commit; eauto.
  - destruct (cells c !! part_of (kop_key o)) as [cl|] eqn:Hcl; [|done]. simplify_eq/=.
    places Ht Hc Hcl (part_of (kop_key o)) (TDone o r).
    apply (cinv_cell c tid _ _ _ cl _ Hc Ht Hcl); [done|elsewhere| |done|done].
    split; cbn [writer readers parked woken]; [destruct (writer cl); lia|lia|lia|destruct (writer cl); lia|done].
  - destruct (cells c !! i) as [cl|] eqn:Hcl; [|simplify_eq/=; by apply (cinv_thread c tid _ _ Hc Ht)].
    destruct (writer cl) eqn:Hw; simplify_eq/=.
    + places Ht Hc Hcl i (TListParked i acc). rewrite Hw in *.
      apply (cinv_cell c tid _ _ _ cl _ Hc Ht Hcl); [done|elsewhere| |done|done].
      split; cbn [writer readers parked woken]; lia || done.
    + places Ht Hc Hcl i (TListIter i ∅ acc). rewrite Hw in *.
      apply (cinv_cell c tid _ _ _ cl _ Hc Ht Hcl); [done|elsewhere| |done|done].
      split; cbn [writer readers parked woken]; lia || done.
  - destruct (cells c !! i) as [cl|] eqn:Hcl; [|done]. cbn in H. destruct (woken cl) as [|w] eqn:Hw; [done|].
    simplify_eq/=. places Ht Hc Hcl i (TListIter i ∅ acc).
    apply (cinv_cell c tid _ _ _ cl _ Hc Ht Hcl); [done|elsewhere| |done|done].
    split; cbn [writer readers parked woken]; first [lia|intros; apply M5; done|intros; lia].
  - destruct (cells c !! i) as [cl|] eqn:Hcl; [|done]. cbn in H.
    case_bool_decide as Hd; [|case_bool_decide; [done|]].
    + simplify_eq/=. places Ht Hc Hcl i (TListWait (S i) acc).
      apply (cinv_cell c tid _ _ _ cl _ Hc Ht Hcl); [done|elsewhere| |done|done].
      split; cbn [writer readers parked woken]; first [lia|done].
    + destruct (cmap cl !! pick) as [l|]; [|done]. simplify_eq/=. by apply (cinv_thread c tid _ _ Hc Ht).
Qed.

Lemma step_cinv a c c' : cinv c -> step a c = Some c' -> cinv c'.
Proof.
  intros Hc H. destruct a as [tid o|tid|tid now pick]; cbn in H.
  - case_bool_decide; simplify_eq. apply cinv_spawn; eauto.
  - case_bool_decide; simplify_eq. apply cinv_spawn; eauto.
  - destruct (threads c !! tid) as [t|] eqn:Ht; [|done]. eapply run_thread_cinv; eauto.
Qed.

Lemma count_empty {A} (p : A -> bool) : count p ∅ = 0.
Proof. unfold count. by rewrite map_filter_empty, map_size_empty. Qed.

Lemma init_maps : ⋃ (cmap <$> cells (init n)) = ∅.
Proof.
  cbn. rewrite fmap_replicate. cbn. induction n; cbn; [done|].
  by rewrite (left_id_L ∅ (∪)).
Qed.

Lemma init_cinv : cinv (init n).
Proof.
  split; cbn [init cells threads elog].
  - apply length_replicate.
  - intros i cl [-> _]%lookup_replicate. by split; rewrite ?count_empty.
  - intros i m k. rewrite fmap_replicate, lookup_replicate. intros [-> _] [v Hv].
    cbn [cmap] in Hv. by rewrite lookup_empty in Hv.
  - intros tid o e cl. by rewrite lookup_empty.
  - unfold contents. rewrite init_maps. constructor.
  - intros tid. rewrite lookup_empty. done.
Qed.

Lemma reach_cinv c c' : cinv c -> reach c c' -> cinv c'.
Proof. intros Hc. induction 1 as [|x y z [a Ha] _ IH]; eauto using step_cinv. Qed.

Lemma reachable_cinv c : reach (init n) c -> cinv c.
Proof. apply reach_cinv, init_cinv. Qed.

(** ** Executions with their intermediate configurations

    [trace c0 pre c]: a run from [c0] to [c] that passes through the
    configurations [pre] (with [c0] first, without [c]). *)
Inductive trace (c0 : config) : list config -> config -> Prop :=
| trace_nil : trace c0 [] c0
| trace_snoc pre c c' : trace c0 pre c -> steps_to c c' -> trace c0 (pre ++ [c]) c'.

Lemma trace_reach c0 pre c : trace c0 pre c -> reach c0 c.
Proof. induction 1; [constructor|]. eapply rtc_r; eauto. Qed.

Lemma trace_cinv c0 pre c : cinv c0 -> trace c0 pre c -> cinv c /\ Forall cinv pre.
Proof.
  intros H0. induction 1 as [|pre c c' Ht [Hc Hp] [a Ha]]; [by split|].
  split; [by eapply step_cinv|]. apply Forall_app; auto.
Qed.

Lemma step_log a c c' : step a c = Some c' -> elog c `prefix_of` elog c'.
Proof.
  destruct a as [tid o|tid|tid now pick]; cbn; intros H.
  - case_bool_decide; by simplify_eq.
  - case_bool_decide; by simplify_eq.
  - destruct (threads c !! tid) as [[]|]; cbn in H; try done;
      repeat (case_match || destruct (_ !! _); cbn in * ); simplify_eq/=; try done;
      try (by apply prefix_app_r); by eexists.
Qed.

Lemma reach_log c c' : reach c c' -> elog c `prefix_of` elog c'.
Proof. induction 1 as [|x y z [a Ha] _ IH]; [done|]. transitivity (elog y); [by eapply step_log|done]. Qed.

Lemma legal_inv es s : legal es s -> InMemory.inv s.
Proof.
  induction 1 as [|es s e s' _ IH Hs]; [apply InMemory.newStore_inv|].
  destruct (ev_op e) as [key lockee force|key lockee]; cbn in Hs.
  - pose proof (InMemory.acquire_inv (ev_now e) key lockee force s IH) as Hi.
    destruct (InMemory.acquire _ _ _ _ _) as [[? ?] ?]; by simplify_eq/=.
  - pose proof (InMemory.release_inv key lockee s IH) as Hi.
    destruct (InMemory.release _ _ _) as [[? ?] ?]; by simplify_eq/=.
Qed.

(** ** What [list] returns *)

Definition part_locks (c : config) (i : nat) : list Lock :=
  match cells c !! i with Some cl => snd <$> map_to_list (cmap cl) | None => [] end.

(** Part [i] as it was in the [i]-th configuration of [css]. *)
Definition snapshot (css : list config) : list Lock := concat (imap (fun i c => part_locks c i) css).

Lemma snapshot_snoc css c : snapshot (css ++ [c]) = snapshot css ++ part_locks c (length css).
Proof.
  unfold snapshot. rewrite imap_app, concat_app. cbn. by rewrite Nat.add_0_r, app_nil_r.
Qed.

Definition cmap_at (c : config) (i : nat) : option (gmap string Lock) := cmap <$> cells c !! i.

(** While a thread reads map [i], nobody writes it. *)
Lemma step_stable a c c' tid i seen acc :
  cinv c -> step a c = Some c' -> threads c !! tid = Some (TListIter i seen acc) ->
  cmap_at c' i = cmap_at c i.
Proof.
  intros Hc H Ht. unfold cmap_at.
  assert (forall j cl cl', cells c !! j = Some cl -> (i = j -> cmap cl' = cmap cl) ->
            cmap <$> <[j := cl']> (cells c) !! i = cmap <$> cells c !! i) as Hupd.
  { intros j cl cl' Hj Hm. rewrite list_lookup_insert. case_decide as Hd; [|done].
    destruct Hd as [-> _]. rewrite Hj. cbn. by rewrite Hm. }
  destruct a as [x o|x|x now pick]; cbn in H; [by case_bool_decide; simplify_eq..|].
  destruct (threads c !! x) as [t|] eqn:Hx; [|done].
  destruct t as [o|o|o|o e|o r|o r|j acc'|j acc'|j seen' acc'|acc']; cbn in H; try done.
  - destruct (cells c !! part_of _) eqn:E; cbn in H; [|done]. case_match; simplify_eq/=. by eapply Hupd.
  - destruct (cells c !! part_of _) eqn:E; cbn in H; [|done]. by case_bool_decide; simplify_eq/=.
  - destruct (cells c !! part_of _) eqn:E; cbn in H; simplify_eq/=. done.
  - destruct (cells c !! part_of _) as [cl|] eqn:E; cbn in H; simplify_eq/=. eapply Hupd; [done|].
    intros ->. destruct (decide (x = tid)) as [->|Hne]; [congruence|].
    by destruct (cinv_exclusive c x tid _ _ _ cl Hc E Hne Hx Ht eq_refl) as [_ []].
  - destruct (cells c !! part_of _) eqn:E; cbn in H; simplify_eq/=. by eapply Hupd.
  - destruct (cells c !! j) eqn:E; [case_match|]; simplify_eq/=; [by eapply Hupd..|done].
  - destruct (cells c !! j) eqn:E; cbn in H; [|done]. case_match; simplify_eq/=. by eapply Hupd.
  - destruct (cells c !! j) eqn:E; cbn in H; [|done].
    repeat case_bool_decide; simplify_eq/=; [by eapply Hupd|].
    destruct (cmap _ !! pick); by simplify_eq/=.
Qed.

(** What a listing thread has collected: the parts it has passed, each as it
    was in one of the earlier configurations, in order, and the entries seen
    so far of the part it is reading. *)
Definition list_ok (pre : list config) (c : config) (t : thread) : Prop :=
  match t with
  | TListWait i acc | TListParked i acc =>
      i <= n /\ exists css, css `sublist_of` pre /\ length css = i /\ acc ≡ₚ snapshot css
  | TListIter i seen acc =>
      exists css m, css `sublist_of` pre /\ length css = i /\ cmap_at c i = Some m /\
        acc ≡ₚ snapshot css ++ seen_locks m seen
  | TListDone acc =>
      exists css, css `sublist_of` pre /\ length css = n /\ acc ≡ₚ snapshot css
  | _ => False
  end.

Lemma run_thread_threads tid now pick t c c' :
  run_thread part_of tid now pick t c = Some c' -> exists t', threads c' = <[tid := t']> (threads c).
Proof.
  intros H. destruct t; cbn in H; try done;
    repeat match type of H with
    | context [cells c !! ?i] => destruct (cells c !! i); cbn in H
    | context [cmap ?cl !! ?k] => destruct (cmap cl !! k); cbn in H
    | context [if ?b then _ else _] => destruct b
    | context [woken ?cl] => destruct (woken cl)
    end; simplify_eq/=; eauto.
Qed.

Lemma step_other a c c' tid t :
  step a c = Some c' -> threads c !! tid = Some t ->
  (forall now pick, a <> LRun tid now pick) -> threads c' !! tid = Some t.
Proof.
  intros H Ht Ha. destruct a as [x o|x|x now pick]; cbn in H.
  - case_bool_decide; simplify_eq/=. rewrite lookup_insert_ne by congruence. done.
  - case_bool_decide; simplify_eq/=. rewrite lookup_insert_ne by congruence. done.
  - assert (x <> tid) by (intros ->; by eapply Ha).
    destruct (threads c !! x) as [u|]; [|done].
    apply run_thread_threads in H as [t' ->]. by rewrite lookup_insert_ne.
Qed.

Lemma list_ok_other pre c c' a tid t :
  cinv c -> step a c = Some c' -> threads c !! tid = Some t ->
  list_ok pre c t -> list_ok (pre ++ [c]) c' t.
Proof.
  intros Hc Hs Ht. destruct t as [| | | | | |i acc|i acc|i seen acc|acc]; cbn; try done.
  1,2: intros (? & css & ? & ? & ?); split; [done|]; exists css; split_and!; auto; by apply sublist_inserts_r.
  - intros (css & m & ? & ? & ? & ?). exists css, m. split_and!; auto using sublist_inserts_r.
    by erewrite step_stable.
  - intros (css & ? & ? & ?). exists css. split_and!; auto using sublist_inserts_r.
Qed.

Lemma list_ok_own pre c c' now pick tid t :
  cinv c -> step (LRun tid now pick) c = Some c' -> threads c !! tid = Some t ->
  list_ok pre c t -> exists t', threads c' !! tid = Some t' /\ list_ok (pre ++ [c]) c' t'.
Proof.
  intros Hc Hs Ht Hok. cbn in Hs. rewrite Ht in Hs. cbn in Hs.
  destruct t as [| | | | | |i acc|i acc|i seen acc|acc]; try done; cbn in Hs, Hok.
  - destruct Hok as (Hi & css & Hsub & Hlen & Hacc).
    destruct (cells c !! i) as [cl|] eqn:Hcl; [destruct (writer cl)|]; simplify_eq/=;
      rewrite lookup_insert_eq; eexists; (split; [done|]); cbn.
    + split; [done|]. exists css. split_and!; auto using sublist_inserts_r.
    + exists css, (cmap cl). rewrite seen_locks_empty, app_nil_r.
      split_and!; auto using sublist_inserts_r. unfold cmap_at; cbn.
      rewrite list_lookup_insert_eq by (by eapply lookup_lt_Some). done.
    + exists css. split_and!; auto using sublist_inserts_r.
      apply lookup_ge_None in Hcl. rewrite (ci_len c Hc) in Hcl. lia.
  - destruct Hok as (Hi & css & Hsub & Hlen & Hacc).
    destruct (cells c !! i) as [cl|] eqn:Hcl; [|done]. cbn in Hs. destruct (woken cl); simplify_eq/=.
    rewrite lookup_insert_eq. eexists. split; [done|]. cbn. exists css, (cmap cl).
    rewrite seen_locks_empty, app_nil_r. split_and!; auto using sublist_inserts_r. unfold cmap_at; cbn.
    rewrite list_lookup_insert_eq by (by eapply lookup_lt_Some). done.
  - destruct Hok as (css & m & Hsub & Hlen & Hm & Hacc). unfold cmap_at in Hm.
    destruct (cells c !! i) as [cl|] eqn:Hcl; [|done]. cbn in Hm, Hs. simplify_eq.
    case_bool_decide as Hd; [|case_bool_decide as Hp; [done|]].
    + simplify_eq/=. rewrite lookup_insert_eq. eexists. split; [done|]. cbn. split.
      { apply lookup_lt_Some in Hcl. rewrite (ci_len c Hc) in Hcl. lia. }
      exists (css ++ [c]). rewrite length_app, snapshot_snoc, Hacc, (seen_locks_all _ _ Hd).
      split_and!; [by apply sublist_app|cbn; lia|]. unfold part_locks. by rewrite Hcl.
    + destruct (cmap cl !! pick) as [l|] eqn:Hl; simplify_eq/=. rewrite lookup_insert_eq.
      eexists. split; [done|]. cbn. exists css, (cmap cl).
      split_and!; auto using sublist_inserts_r; [unfold cmap_at; cbn; by rewrite Hcl|].
      by rewrite seen_locks_add, Hacc, app_assoc.
Qed.

Lemma trace_list_ok c0 pre c tid :
  cinv c0 -> threads c0 !! tid = Some (TListWait 0 []) -> trace c0 pre c ->
  exists t, threads c !! tid = Some t /\ list_ok pre c t.
Proof.
  intros H0 Ht0 Htr. pose proof (trace_cinv _ _ _ H0 Htr) as [Hc _]. revert Hc.
  induction Htr as [|pre c c' Htr IH [a Ha]]; intros Hc'.
  - exists (TListWait 0 []). split; [done|]. cbn. split; [lia|]. by exists [].
  - pose proof (trace_cinv _ _ _ H0 Htr) as [Hc _]. destruct (IH Hc) as (t & Ht & Hok).
    assert ((exists now pick, a = LRun tid now pick) \/ (forall now pick, a <> LRun tid now pick))
      as [(now & pick & ->)|Hne].
    { destruct a as [| |x now pick]; [by right..|].
      destruct (decide (x = tid)) as [->|]; [left|right]; [by eauto|congruence]. }
    + by eapply list_ok_own.
    + exists t. split; [by eapply step_other|by eapply list_ok_other].
Qed.

(** The locks of a configuration, part by part. *)
Lemma cell_contents c i cl k l :
  cinv c -> cells c !! i = Some cl -> cmap cl !! k = Some l -> contents c !! k = Some l.
Proof.
  intros Hc Hcl Hk. assert (part_of k = i) as Hp.
  { apply (ci_parted c Hc i (cmap cl)); [by rewrite list_lookup_fmap, Hcl|eauto]. }
  unfold contents. rewrite (lookup_parted part_of 0) by (auto using ci_parted with lia).
  by rewrite Nat.sub_0_r, Hp, list_lookup_fmap, Hcl.
Qed.

Lemma cell_key c i cl k l :
  cinv c -> cells c !! i = Some cl -> cmap cl !! k = Some l -> Key l = k.
Proof. intros Hc Hcl Hk. by eapply (legal_inv _ _ (ci_legal c Hc)), cell_contents. Qed.

Lemma elem_of_part_locks c i l :
  cinv c -> l ∈ part_locks c i -> contents c !! Key l = Some l.
Proof.
  intros Hc Hl. unfold part_locks in Hl.
  destruct (cells c !! i) as [cl|] eqn:Hcl; [|by apply elem_of_nil in Hl].
  apply list_elem_of_fmap in Hl as ([k v] & -> & Hkv%elem_of_map_to_list). cbn.
  rewrite (cell_key c i cl k v) by done. by eapply cell_contents.
Qed.

Lemma part_locks_elem c k l :
  cinv c -> contents c !! k = Some l -> l ∈ part_locks c (part_of k).
Proof.
  intros Hc Hk. unfold contents in Hk.
  rewrite (lookup_parted part_of 0), Nat.sub_0_r, list_lookup_fmap in Hk
    by (auto using ci_parted with lia).
  unfold part_locks. destruct (cells c !! part_of k) as [cl|]; [|done]. cbn in Hk.
  apply list_elem_of_fmap. exists (k, l). by rewrite elem_of_map_to_list.
Qed.

Lemma elem_of_snapshot css l :
  l ∈ snapshot css <-> exists i c, css !! i = Some c /\ l ∈ part_locks c i.
Proof.
  unfold snapshot. rewrite list_elem_of_In, in_concat. setoid_rewrite <- list_elem_of_In. split.
  - intros (x & Hx & Hl). apply elem_of_lookup_imap in Hx as (i & c & -> & ?). eauto.
  - intros (i & c & Hc & Hl). exists (part_locks c i). split; [|done].
    apply elem_of_lookup_imap. eauto.
Qed.

End machine_facts.
