(* ===== verification/Progress.v ===== *)
(** * Progress of the concurrent stores

    No reachable configuration is stuck while a request is unfinished, and
    whatever order the scheduler picks, the requests in flight finish after
    finitely many steps. *)

From S2P Require Import Prelude LockSpec InMemory Sharded Concurrent ConcurrentFacts.
From stdpp Require Import options.

Definition finished (t : thread) : bool :=
  match t with TDone _ _ | TListDone _ => true | _ => false end.

Lemma count_zero {A} (p : A -> bool) (m : gmap nat A) :
  (forall k x, m !! k = Some x -> p x = false) -> count p m = 0.
Proof.
  intros H. unfold count. apply map_size_empty_iff, map_empty. intros k.
  apply map_lookup_filter_None. right. intros x Hx. cbn. by rewrite (H k x Hx).
Qed.

Lemma count_find {A} (p : A -> bool) (m : gmap nat A) :
  0 < count p m -> exists k x, m !! k = Some x /\ p x = true.
Proof.
  intros H. destruct (decide (map_Forall (fun _ x => p x = false) m)) as [Hall|Hex].
  - rewrite (count_zero p m) in H by exact Hall. lia.
  - apply map_not_Forall in Hex as (k & x & Hk & Hx); [|apply _]. exists k, x.
    split; [done|]. by destruct (p x).
Qed.

(** ** Every run of the requests in flight is finite *)

(** Steps a keyed operation has left. *)
Definition krank (t : thread) : nat :=
  match t with
  | TStart _ => 5 | TAnnounced _ => 4 | TLocked _ => 3 | TRead _ _ => 2 | TUnlock _ _ => 1
  | _ => 0
  end.

Definition rest (ms : list (gmap string Lock)) (i : nat) : nat :=
  sum_list ((fun m => size m + 3) <$> drop i ms).
Definition unseen (ms : list (gmap string Lock)) (i : nat) (seen : gset string) : nat :=
  match ms !! i with Some m => size (dom m ∖ seen) | None => 0 end.

(** Steps a listing has left as long as the maps stay as they are. *)
Definition lrank (ms : list (gmap string Lock)) (t : thread) : nat :=
  match t with
  | TListWait i _ => 1 + rest ms i
  | TListParked i _ => 3 + unseen ms i ∅ + rest ms (S i)
  | TListIter i seen _ => 2 + unseen ms i seen + rest ms (S i)
  | _ => 0
  end.

Lemma rest_lookup ms i m : ms !! i = Some m -> rest ms i = size m + 3 + rest ms (S i).
Proof. intros Hi. unfold rest. by rewrite (drop_S ms m i Hi). Qed.

Lemma unseen_add ms i m seen k :
  ms !! i = Some m -> is_Some (m !! k) -> k ∉ seen ->
  unseen ms i ({[k]} ∪ seen) < unseen ms i seen.
Proof.
  intros Hi Hk Hs. unfold unseen. rewrite Hi. apply subset_size.
  apply elem_of_dom in Hk. set_solver.
Qed.

Lemma unseen_empty ms i m : ms !! i = Some m -> unseen ms i ∅ = size m.
Proof. intros Hi. unfold unseen. by rewrite Hi, difference_empty_L, size_dom. Qed.

Section progress.
Context (part_of : string -> nat).

Notation maps c := (cmap <$> cells c).

(** A step finishes part of a keyed operation, or leaves the maps and the
    keyed operations alone and advances a listing. *)
Definition advances (c c' : config) : Prop :=
  total krank (threads c') < total krank (threads c) \/
  total krank (threads c') = total krank (threads c) /\ maps c' = maps c /\
  total (lrank (maps c)) (threads c') < total (lrank (maps c)) (threads c).

Lemma advances_keyed cs c tid t t' lg :
  threads c !! tid = Some t -> krank t' < krank t ->
  advances c (mkConfig cs (<[tid := t']> (threads c)) lg).
Proof.
  intros Ht Hlt. left. cbn [threads]. pose proof (total_insert krank _ _ _ t' Ht). lia.
Qed.

Lemma advances_list cs c tid t t' :
  threads c !! tid = Some t -> krank t' = krank t -> cmap <$> cs = maps c ->
  lrank (maps c) t' < lrank (maps c) t ->
  advances c (mkConfig cs (<[tid := t']> (threads c)) (elog c)).
Proof.
  intros Ht Hk Hm Hlt. right. cbn [threads cells].
  pose proof (total_insert krank _ _ _ t' Ht).
  pose proof (total_insert (lrank (maps c)) _ _ _ t' Ht). split_and!; [lia|done|lia].
Qed.

Lemma insert_same_map (cs : list cell) i cl cl' :
  cs !! i = Some cl -> cmap cl' = cmap cl -> cmap <$> <[i := cl']> cs = cmap <$> cs.
Proof.
  intros Hi Hm. rewrite list_fmap_insert, Hm. apply list_insert_id. by rewrite list_lookup_fmap, Hi.
Qed.

Lemma run_thread_advances tid now pick t c c' :
  threads c !! tid = Some t -> run_thread part_of tid now pick t c = Some c' -> advances c c'.
Proof.
  intros Ht H.
  destruct t as [o|o|o|o e|o r|o r|i acc|i acc|i seen acc|acc]; cbn [run_thread] in H; try done.
  1-5: destruct (cells c !! part_of (kop_key o)) as [cl|]; [|done]; cbn in H;
    repeat case_match; simplify_eq; apply (advances_keyed _ _ _ _ _ _ Ht); cbn; lia.
  - destruct (cells c !! i) as [cl|] eqn:Hi.
    + assert (maps c !! i = Some (cmap cl)) as Hm by by rewrite list_lookup_fmap, Hi.
      destruct (writer cl); simplify_eq/=;
        (apply (advances_list _ _ _ _ _ Ht); [done|by eapply insert_same_map|]; cbn [lrank];
         rewrite (unseen_empty _ _ _ Hm), (rest_lookup _ _ _ Hm); lia).
    + simplify_eq/=. apply (advances_list _ _ _ _ _ Ht); cbn; [done..|lia].
  - destruct (cells c !! i) as [cl|] eqn:Hi; [|done]. cbn in H. destruct (woken cl); simplify_eq/=.
    apply (advances_list _ _ _ _ _ Ht); [done|by eapply insert_same_map|]. cbn [lrank]. lia.
  - destruct (cells c !! i) as [cl|] eqn:Hi; [|done]. cbn in H.
    assert (maps c !! i = Some (cmap cl)) as Hm by by rewrite list_lookup_fmap, Hi.
    case_bool_decide as Hd; [|case_bool_decide as Hp; [done|]].
    + simplify_eq. apply (advances_list _ _ _ _ _ Ht); [done|by eapply insert_same_map|].
      cbn [lrank]. lia.
    + destruct (cmap cl !! pick) as [l|] eqn:Hl; [|done]. simplify_eq/=.
      apply (advances_list _ _ _ _ _ Ht); [done..|]. cbn [lrank].
      pose proof (unseen_add _ _ _ seen pick Hm ltac:(eauto) Hp). lia.
Qed.

Definition scheduled (c' c : config) : Prop :=
  exists tid now pick, step part_of (LRun tid now pick) c = Some c'.

Lemma scheduled_wf : well_founded scheduled.
Proof.
  intros c. remember (total krank (threads c)) as k eqn:Hk. revert c Hk.
  induction (lt_wf k) as [k _ IHk]. intros c.
  remember (total (lrank (maps c)) (threads c)) as l eqn:Hl. revert c Hl.
  induction (lt_wf l) as [l _ IHl]. intros c Hl Hk.
  constructor. intros c' (tid & now & pick & Hs). cbn in Hs.
  destruct (threads c !! tid) as [t|] eqn:Ht; [|done].
  destruct (run_thread_advances _ _ _ _ _ _ Ht Hs) as [Hlt|(He & Hm & Hlt)].
  - eapply IHk; [|done]. lia.
  - eapply IHl; [|done|lia]. rewrite Hm. lia.
Qed.

(** ** Deadlock freedom *)

Context (n : nat).

(** A thread inside a critical section can always take its next action. *)
Lemma section_runs c tid t i :
  cinv part_of n c -> threads c !! tid = Some t -> i < n ->
  wsec part_of t = Some i \/ rsec t = Some i ->
  exists pick c', step part_of (LRun tid 0 pick) c = Some c'.
Proof.
  intros Hc Ht Hi Hsec.
  assert (exists cl, cells c !! i = Some cl) as [cl Hcl].
  { apply lookup_lt_is_Some_2. by rewrite (ci_len _ _ _ Hc). }
  cbn. rewrite Ht. cbn.
  destruct t as [o|o|o|o e|o r|o r|j acc|j acc|j seen acc|acc]; destruct Hsec as [Hsec|Hsec];
    simplify_eq/=; rewrite Hcl; cbn; try (by exists ""; eauto).
  case_bool_decide as Hd; [by exists ""; eauto|].
  destruct (decide (dom (cmap cl) ∖ seen = ∅)) as [He|Hne].
  { by apply empty_difference_subseteq_L in He. }
  apply set_choose_L in Hne as [k Hk]. exists k.
  apply elem_of_difference in Hk as [[l Hl]%elem_of_dom Hs].
  rewrite bool_decide_false by done. rewrite Hl. cbn. eauto.
Qed.

(** Threads at mutexes of existing cells only. *)
Definition places_ok (c : config) : Prop :=
  length (cells c) = n /\ forall tid t p i, threads c !! tid = Some t -> place_of part_of t = Some (p, i) -> i < n.

Lemma run_thread_shape tid now pick t c c' :
  run_thread part_of tid now pick t c = Some c' ->
  exists t', threads c' = <[tid := t']> (threads c) /\ length (cells c') = length (cells c) /\
    forall p i, place_of part_of t' = Some (p, i) -> i < length (cells c).
Proof.
  intros H. destruct t; cbn in H; try done;
    repeat match type of H with
    | context [cells c !! ?i] => destruct (cells c !! i) eqn:?; cbn in H
    | context [cmap ?cl !! ?k] => destruct (cmap cl !! k); cbn in H
    | context [if ?b then _ else _] => destruct b
    | context [woken ?cl] => destruct (woken cl)
    end; simplify_eq/=; eexists; (split; [done|]); rewrite ?length_insert; (split; [done|]);
    cbn; intros; simplify_eq; eauto using lookup_lt_Some.
Qed.

Lemma places_ok_thread c c' tid t' :
  places_ok c -> length (cells c') = length (cells c) -> threads c' = <[tid := t']> (threads c) ->
  (forall p i, place_of part_of t' = Some (p, i) -> i < length (cells c)) -> places_ok c'.
Proof.
  intros [Hlen Hr] Hl Ht Hi. split; [congruence|]. intros x t p i. rewrite Ht, lookup_insert.
  case_decide; intros; simplify_eq; eauto.
Qed.

Lemma step_places a c c' : places_ok c -> step part_of a c = Some c' -> places_ok c'.
Proof.
  intros Hr H. destruct a as [tid o|tid|tid now pick]; cbn in H.
  1,2: case_bool_decide; simplify_eq; by eapply places_ok_thread.
  destruct (threads c !! tid) as [t|] eqn:Ht; [|done].
  apply run_thread_shape in H as (t' & ? & ? & ?). eapply places_ok_thread; eauto.
Qed.

Lemma reach_places c c' : places_ok c -> reach part_of c c' -> places_ok c'.
Proof. intros Hc. induction 1 as [|x y z [a Ha] _ IH]; eauto using step_places. Qed.

Lemma init_places : places_ok (init n).
Proof. split; [apply length_replicate|]. intros tid t p i. cbn. by rewrite lookup_empty. Qed.

Definition can_run (c : config) : Prop := exists tid now pick c', step part_of (LRun tid now pick) c = Some c'.

Lemma runs_at c tid t now pick c' :
  threads c !! tid = Some t -> run_thread part_of tid now pick t c = Some c' -> can_run c.
Proof. intros Ht H. exists tid, now, pick, c'. cbn. by rewrite Ht. Qed.

(** A parked reader that has been woken can go on. *)
Lemma woken_runs c i cl :
  cinv part_of n c -> cells c !! i = Some cl -> 0 < woken cl -> can_run c.
Proof.
  intros Hc Hcl Hw. pose proof (mu_parked _ _ _ _ (ci_mutex _ _ _ Hc _ _ Hcl)) as Hp.
  destruct (count_find (at_place part_of Parked i) (threads c)) as (tid & t & Ht & Hat); [lia|].
  unfold at_place in Hat. destruct t as [o|o|o|o e|o r|o r|j acc|j acc|j seen acc|acc]; try done.
  cbn in Hat. apply bool_decide_eq_true in Hat as ->.
  destruct (woken cl) as [|w] eqn:Ew; [lia|].
  eapply (runs_at c tid _ 0%Z ""); [done|]. cbn. rewrite Hcl. cbn. by rewrite Ew.
Qed.

(** With nobody inside a section, an announced writer or a reader it waits for
    can go on. *)
Lemma announced_runs c tid o :
  cinv part_of n c -> places_ok c ->
  map_Forall (fun _ t => wsec part_of t = None /\ rsec t = None) (threads c) ->
  threads c !! tid = Some (TAnnounced o) -> can_run c.
Proof.
  intros Hc [Hlen Hpl] Hidle Ht. specialize (Hpl tid _ _ _ Ht eq_refl).
  destruct (lookup_lt_is_Some_2 (cells c) (part_of (kop_key o))) as [cl Hcl]; [lia|].
  pose proof (mu_readers _ _ _ _ (ci_mutex _ _ _ Hc _ _ Hcl)) as Hr.
  rewrite count_zero in Hr.
  2: { intros k t Hk. unfold at_place. destruct t; try done. by destruct (Hidle k _ Hk). }
  destruct (decide (readers cl = 0)) as [E|].
  - eapply (runs_at c tid _ 0%Z ""); [done|]. cbn. rewrite Hcl. cbn. by rewrite bool_decide_true.
  - apply (woken_runs c (part_of (kop_key o)) cl Hc Hcl). lia.
Qed.

(** With nobody announced or inside, every mutex is free. *)
Lemma free_mutex c i cl :
  cinv part_of n c -> cells c !! i = Some cl ->
  map_Forall (fun _ t => wsec part_of t = None /\ rsec t = None) (threads c) ->
  (forall tid o, threads c !! tid <> Some (TAnnounced o)) -> writer cl = false /\ parked cl = 0.
Proof.
  intros Hc Hcl Hidle Hann. destruct (ci_mutex _ _ _ Hc _ _ Hcl) as [Hw _ _ _ Hfree].
  rewrite !count_zero in Hw.
  - destruct (writer cl); [done|auto].
  - intros k t Hk. unfold at_place. destruct t; try done; by destruct (Hidle k _ Hk).
  - intros k t Hk. unfold at_place. destruct t; try done. by destruct (Hann k o).
Qed.

Lemma not_stuck c tid t :
  (forall k, part_of k < n) -> reach part_of (init n) c ->
  threads c !! tid = Some t -> finished t = false -> can_run c.
Proof.
  intros Hpart Hreach Ht Hf. pose proof (reachable_cinv _ _ _ Hreach) as Hc.
  pose proof (reach_places _ _ init_places Hreach) as Hp.
  destruct (decide (map_Forall (fun _ t => wsec part_of t = None /\ rsec t = None) (threads c)))
    as [Hidle|Hin].
  2: { apply map_not_Forall in Hin as (x & u & Hx & Hsec); [|apply _].
       destruct (place_of part_of u) as [[p i]|] eqn:Eu; [|by destruct u; naive_solver].
       destruct (section_runs c x u i Hc Hx) as (pick & c' & Hs); [by eapply Hp| |by exists x, 0%Z, pick, c'].
       destruct u; simplify_eq/=; naive_solver. }
  destruct (decide (map_Forall (fun _ t => match t with TAnnounced _ => true | _ => false end = false) (threads c)))
    as [Hann|Hin].
  2: { apply map_not_Forall in Hin as (x & u & Hx & Hu); [|apply _].
       destruct u; try (by destruct Hu). by eapply announced_runs. }
  assert (forall x o, threads c !! x <> Some (TAnnounced o)) as Hno by (intros x o Hx; by specialize (Hann x _ Hx)).
  destruct (Hidle _ _ Ht) as [Hw Hr].
  destruct t as [o|o|o|o e|o r|o r|j acc|j acc|j seen acc|acc]; simplify_eq/=.
  - destruct (lookup_lt_is_Some_2 (cells c) (part_of (kop_key o))) as [cl Hcl]; [by rewrite (ci_len _ _ _ Hc)|].
    destruct (free_mutex c _ cl Hc Hcl Hidle Hno) as [Ew _].
    eapply (runs_at c tid _ 0%Z ""); [done|]. cbn. rewrite Hcl. cbn. by rewrite Ew.
  - by destruct (Hno tid o).
  - destruct (cells c !! j) as [cl|] eqn:Hcl; eapply (runs_at c tid _ 0%Z ""); try done; cbn; by rewrite Hcl.
  - destruct Hp as [Hlen Hpl]. specialize (Hpl tid _ _ _ Ht eq_refl).
    destruct (lookup_lt_is_Some_2 (cells c) j) as [cl Hcl]; [lia|].
    destruct (free_mutex c _ cl Hc Hcl Hidle Hno) as [_ Ep].
    pose proof (mu_parked _ _ _ _ (ci_mutex _ _ _ Hc _ _ Hcl)) as Hpk.
    pose proof (count_pos (at_place part_of Parked j) _ _ _ Ht) as Hpos.
    rewrite at_place_true in Hpos by done. specialize (Hpos eq_refl).
    apply (woken_runs c j cl Hc Hcl). lia.
Qed.

(** ** Every schedule completes the requests *)

(** Every way to go on from [c] arrives at [P]. *)
Inductive inevitable (P : config -> Prop) (c : config) : Prop :=
| inev_now : P c -> inevitable P c
| inev_later : (exists c', scheduled c' c) -> (forall c', scheduled c' c -> inevitable P c') -> inevitable P c.

Lemma run_to_completion c :
  (forall k, part_of k < n) -> reach part_of (init n) c ->
  inevitable (fun c => map_Forall (fun _ t => finished t = true) (threads c)) c.
Proof.
  intros Hpart. induction (scheduled_wf c) as [c _ IH]. intros Hc.
  destruct (decide (map_Forall (fun _ t => finished t = true) (threads c))) as [Hf|Hf]; [by apply inev_now|].
  apply map_not_Forall in Hf as (tid & t & Ht & Hnf%not_true_is_false); [|apply _].
  destruct (not_stuck c tid t Hpart Hc Ht Hnf) as (x & now & pick & c1 & Hs).
  apply inev_later; [by exists c1, x, now, pick|]. intros c' Hs'. apply (IH c' Hs').
  destruct Hs' as (x' & now' & pick' & Hs'). eapply rtc_r; [done|]. by eexists.
Qed.

End progress.
