(* ===== verification/TornListing.v ===== *)
(** * A listing of several maps need not be a snapshot

    For any two keys in different parts there is a run in which [list] passes
    the part of the first, both keys are then acquired one after the other,
    and the listing finds the second only. *)

From S2P Require Import Prelude LockSpec InMemory Sharded Concurrent ConcurrentFacts.
From stdpp Require Import options.

Section torn.
Context (part_of : string -> nat).

Notation trace := (trace part_of).
Notation step := (step part_of).
Notation maps c := (cmap <$> cells c).

Lemma trace_cons c c1 pre c' : steps_to part_of c c1 -> trace c1 pre c' -> trace c (c :: pre) c'.
Proof.
  intros Hs. induction 1 as [|pre c2 c3 Ht IH Hs'].
  - apply (trace_snoc _ _ [] c c1); [constructor|done].
  - apply (trace_snoc _ _ (c :: pre)); done.
Qed.

Lemma trace_app c pre c1 pre' c2 : trace c pre c1 -> trace c1 pre' c2 -> trace c (pre ++ pre') c2.
Proof.
  intros H1. induction 1 as [|pre' c3 c4 Ht IH Hs]; [by rewrite app_nil_r|].
  rewrite app_assoc. by eapply trace_snoc.
Qed.

(** A run through configurations that satisfy [Q]. *)
Definition via (Q : config -> Prop) (c c' : config) : Prop := exists pre, trace c pre c' /\ Forall Q pre.

Lemma via_refl Q c : via Q c c.
Proof. exists []. split; constructor. Qed.
Lemma via_step Q c a c1 c2 : step a c = Some c1 -> Q c -> via Q c1 c2 -> via Q c c2.
Proof.
  intros Hs Hq (pre & Ht & Hp). exists (c :: pre). split; [|by constructor].
  eapply trace_cons; [by exists a|done].
Qed.
Lemma via_trans Q c c1 c2 : via Q c c1 -> via Q c1 c2 -> via Q c c2.
Proof.
  intros (p1 & T1 & Q1) (p2 & T2 & Q2). exists (p1 ++ p2). split; [by eapply trace_app|by apply Forall_app].
Qed.

(** Cells that nobody is using. *)
Definition idle_cells (ms : list (gmap string Lock)) : list cell := mkCell false 0 0 0 <$> ms.

Lemma idle_maps ms : cmap <$> idle_cells ms = ms.
Proof. unfold idle_cells. rewrite <- list_fmap_compose. by rewrite list_fmap_id. Qed.

Lemma idle_lookup ms i m : ms !! i = Some m -> idle_cells ms !! i = Some (mkCell false 0 0 0 m).
Proof. intros H. unfold idle_cells. by rewrite list_lookup_fmap, H. Qed.

Lemma busy_lookup ms i m cl : ms !! i = Some m -> <[i := cl]> (idle_cells ms) !! i = Some cl.
Proof.
  intros H. apply list_lookup_insert_eq. unfold idle_cells. rewrite length_fmap. by eapply lookup_lt_Some.
Qed.

Lemma busy_maps ms i m cl : ms !! i = Some m -> cmap cl = m -> cmap <$> <[i := cl]> (idle_cells ms) = ms.
Proof. intros H <-. rewrite list_fmap_insert, idle_maps. by apply list_insert_id. Qed.

Lemma idle_again ms i m : <[i := mkCell false 0 0 0 m]> (idle_cells ms) = idle_cells (<[i := m]> ms).
Proof. unfold idle_cells. by rewrite list_fmap_insert. Qed.

Context (Q : config -> Prop) (HQ : forall c c', maps c = maps c' -> Q c -> Q c').

Lemma Q_idle ms cs ts ts' lg lg' :
  Q (mkConfig (idle_cells ms) ts lg) -> cmap <$> cs = ms -> Q (mkConfig cs ts' lg').
Proof using HQ. intros H E. eapply HQ; [|exact H]. cbn. by rewrite idle_maps. Qed.

(** The listing passes a map that holds nothing, or one lock. *)
Lemma pass_empty tid ms ts lg i acc :
  ms !! i = Some ∅ -> ts !! tid = Some (TListWait i acc) -> Q (mkConfig (idle_cells ms) ts lg) ->
  via Q (mkConfig (idle_cells ms) ts lg) (mkConfig (idle_cells ms) (<[tid := TListWait (S i) acc]> ts) lg).
Proof using HQ.
  intros Hi Ht Hq. eapply (via_step _ _ (LRun tid 0 "")); [|done|eapply (via_step _ _ (LRun tid 0 ""))].
  - cbn. rewrite Ht. cbn. by rewrite (idle_lookup _ _ _ Hi).
  - cbn. rewrite lookup_insert_eq. cbn. rewrite (busy_lookup _ _ _ _ Hi). cbn. done.
  - eapply Q_idle; [exact Hq|by eapply busy_maps].
  - unfold set_cell. cbn. rewrite list_insert_insert_eq, insert_insert_eq, idle_again, list_insert_id by done.
    apply via_refl.
Qed.

Lemma pass_one tid ms ts lg i acc k l :
  ms !! i = Some {[k := l]} -> ts !! tid = Some (TListWait i acc) -> Q (mkConfig (idle_cells ms) ts lg) ->
  via Q (mkConfig (idle_cells ms) ts lg) (mkConfig (idle_cells ms) (<[tid := TListWait (S i) (acc ++ [l])]> ts) lg).
Proof using HQ.
  intros Hi Ht Hq.
  eapply (via_step _ _ (LRun tid 0 "")); [|done|
    eapply (via_step _ _ (LRun tid 0 k)); [| |eapply (via_step _ _ (LRun tid 0 ""))]].
  - cbn. rewrite Ht. cbn. by rewrite (idle_lookup _ _ _ Hi).
  - cbn. rewrite lookup_insert_eq. cbn. rewrite (busy_lookup _ _ _ _ Hi). cbn.
    rewrite bool_decide_false by set_solver. rewrite bool_decide_false by set_solver.
    rewrite lookup_singleton_eq. cbn. done.
  - eapply Q_idle; [exact Hq|by eapply busy_maps].
  - cbn. rewrite lookup_insert_eq. cbn. rewrite (busy_lookup _ _ _ _ Hi). cbn.
    rewrite bool_decide_true by set_solver. done.
  - eapply Q_idle; [exact Hq|by eapply busy_maps].
  - unfold set_cell. cbn.
    rewrite list_insert_insert_eq, !insert_insert_eq, idle_again, list_insert_id by done. apply via_refl.
Qed.

Lemma pass_many tid ms lg acc d : forall i ts,
  (forall j, i <= j < i + d -> ms !! j = Some ∅) -> ts !! tid = Some (TListWait i acc) ->
  Q (mkConfig (idle_cells ms) ts lg) ->
  via Q (mkConfig (idle_cells ms) ts lg) (mkConfig (idle_cells ms) (<[tid := TListWait (i + d) acc]> ts) lg).
Proof using HQ.
  induction d as [|d IH]; intros i ts He Ht Hq.
  - rewrite Nat.add_0_r, insert_id by done. apply via_refl.
  - eapply via_trans; [apply (pass_empty tid ms ts lg i acc); auto with lia|].
    rewrite <- (insert_insert_eq ts tid (TListWait (i + S d) acc) (TListWait (S i) acc)). replace (i + S d) with (S i + d) by lia.
    apply IH; [intros j Hj; apply He; lia|apply lookup_insert_eq|].
    eapply Q_idle; [exact Hq|apply idle_maps].
Qed.

(** The next step of a request that is alone at its mutex. *)
Ltac by_run Hm Hk :=
  cbn; rewrite lookup_insert_eq; cbn;
  rewrite ?(idle_lookup _ _ _ Hm), ?(busy_lookup _ _ _ _ Hm), ?list_insert_insert_eq; cbn;
  rewrite ?(busy_lookup _ _ _ _ Hm); cbn; rewrite ?Hk; cbn; reflexivity.

(** A request acquires a free key from start to end. *)
Lemma acquire_free tid ms ts lg k lockee m :
  ms !! part_of k = Some m -> m !! k = None -> ts !! tid = None -> Q (mkConfig (idle_cells ms) ts lg) ->
  (forall ts lg, Q (mkConfig (idle_cells (<[part_of k := <[k := mkLock k lockee 0]> m]> ms)) ts lg)) ->
  exists lg' r, via Q (mkConfig (idle_cells ms) ts lg)
    (mkConfig (idle_cells (<[part_of k := <[k := mkLock k lockee 0]> m]> ms))
       (<[tid := TDone (KAcquire k lockee false) r]> ts) lg').
Proof using HQ.
  intros Hm Hk Ht Hq Hq'. do 2 eexists.
  eapply (via_step _ _ (LSpawn tid (KAcquire k lockee false))); [cbn; by rewrite bool_decide_true|done|].
  eapply (via_step _ _ (LRun tid 0 "")); [by_run Hm Hk|eapply Q_idle; [exact Hq|apply idle_maps]|].
  eapply (via_step _ _ (LRun tid 0 "")); [by_run Hm Hk|eapply Q_idle; [exact Hq|by eapply busy_maps]|].
  eapply (via_step _ _ (LRun tid 0 "")); [by_run Hm Hk|eapply Q_idle; [exact Hq|by eapply busy_maps]|].
  eapply (via_step _ _ (LRun tid 0 "")); [by_run Hm Hk|eapply Q_idle; [exact Hq|by eapply busy_maps]|].
  eapply (via_step _ _ (LRun tid 0 "")); [by_run Hm Hk| |].
  - eapply Q_idle; [exact (Hq' ∅ [])|]. cbn.
    rewrite ?list_insert_insert_eq, list_fmap_insert, idle_maps. done.
  - cbn. unfold set_cell, set_thread. cbn.
    rewrite ?list_insert_insert_eq, !insert_insert_eq, idle_again. cbn. apply via_refl.
Qed.

End torn.

(** ** The run *)

Section torn_run.
Context (part_of : string -> nat) (n : nat) (a b : string).
Context (Hab : part_of a < part_of b) (Hb : part_of b < n).

(** What is held of a key, in the map of its part. *)
Definition held_at (c : config) (k : string) : option Lock := (cmap <$> cells c) !! part_of k ≫= (.!! k).
Definition a_before_b (c : config) : Prop := is_Some (held_at c b) -> is_Some (held_at c a).

Lemma a_before_b_maps c c' : cmap <$> cells c = cmap <$> cells c' -> a_before_b c -> a_before_b c'.
Proof. unfold a_before_b, held_at. by intros ->. Qed.

Definition torn_start : config := mkConfig (idle_cells (replicate n ∅)) {[9 := TListWait 0 []]} [].

Lemma held_at_idle ms ts lg k m :
  ms !! part_of k = Some m -> held_at (mkConfig (idle_cells ms) ts lg) k = m !! k.
Proof. intros H. unfold held_at. cbn. by rewrite idle_maps, H. Qed.

(** The maps before the two requests, after the first and after both. *)
Definition ms0 : list (gmap string Lock) := replicate n ∅.
Definition ms1 : list (gmap string Lock) := <[part_of a := <[a := mkLock a "x" 0]> ∅]> ms0.
Definition ms2 : list (gmap string Lock) := <[part_of b := <[b := mkLock b "x" 0]> ∅]> ms1.

Lemma ms0_empty j : j < n -> ms0 !! j = Some ∅.
Proof. apply lookup_replicate_2. Qed.

Lemma ms1_empty j : j <> part_of a -> j < n -> ms1 !! j = Some ∅.
Proof. intros Hne Hj. unfold ms1. rewrite list_lookup_insert_ne by done. by apply ms0_empty. Qed.

Lemma ms2_empty j : j <> part_of a -> j <> part_of b -> j < n -> ms2 !! j = Some ∅.
Proof. intros Ha Hne Hj. unfold ms2. rewrite list_lookup_insert_ne by done. by apply ms1_empty. Qed.

Lemma ms1_a : ms1 !! part_of a = Some (<[a := mkLock a "x" 0]> ∅).
Proof using Hab Hb. apply list_lookup_insert_eq. unfold ms0. rewrite length_replicate. lia. Qed.

Lemma ms2_a : ms2 !! part_of a = Some (<[a := mkLock a "x" 0]> ∅).
Proof using Hab Hb. unfold ms2. rewrite list_lookup_insert_ne by lia. apply ms1_a. Qed.

Lemma ms2_b : ms2 !! part_of b = Some {[b := mkLock b "x" 0]}.
Proof using Hb. clear Hab. apply list_lookup_insert_eq. unfold ms1, ms0. rewrite length_insert, length_replicate. lia. Qed.

Lemma before_idle ts lg : a_before_b (mkConfig (idle_cells ms0) ts lg).
Proof using Hb. unfold a_before_b. rewrite (held_at_idle _ _ _ b ∅) by (by apply ms0_empty). by intros []. Qed.

Lemma after_a ms ts lg :
  ms !! part_of a = Some (<[a := mkLock a "x" 0]> ∅) -> a_before_b (mkConfig (idle_cells ms) ts lg).
Proof. intros Hm _. rewrite (held_at_idle _ _ _ a _ Hm). eexists. apply lookup_insert_eq. Qed.

(** Both keys are acquired, one after the other, while the listing waits. *)
Lemma both_acquired :
  exists (ts : gmap nat thread) lg, ts !! 9 = Some (TListWait (S (part_of a)) []) /\
    via part_of a_before_b (mkConfig (idle_cells ms0) {[9 := TListWait (S (part_of a)) []]} [])
      (mkConfig (idle_cells ms2) ts lg).
Proof using Hab Hb.
  pose proof a_before_b_maps as HQ. pose proof ms1_a as H1a. pose proof ms2_a as H2a.
  destruct (acquire_free part_of a_before_b HQ 1 ms0 {[9 := TListWait (S (part_of a)) []]} [] a "x" ∅)
    as (lg1 & r1 & V1); [by apply ms0_empty; lia|done|done|apply before_idle|by intros; apply after_a|].
  fold ms1 in V1. set (ts1 := <[1 := _]> _) in V1.
  destruct (acquire_free part_of a_before_b HQ 2 ms1 ts1 lg1 b "x" ∅)
    as (lg2 & r2 & V2); [by apply ms1_empty; lia|done|done|by apply after_a|by intros; apply after_a|].
  fold ms2 in V2. do 2 eexists. split; [|eapply via_trans; [exact V1|exact V2]]. done.
Qed.

(** The listing passes the part of the first key before and the part of the
    second after that. *)
Lemma listing_passes :
  exists (ts : gmap nat thread) lg, ts !! 9 = Some (TListWait n [mkLock b "x" 0]) /\
    via part_of a_before_b torn_start (mkConfig (idle_cells ms2) ts lg).
Proof using Hab Hb.
  pose proof a_before_b_maps as HQ. pose proof ms2_a as H2a.
  destruct both_acquired as (ts & lg & Ht & V). do 2 eexists. split; cycle 1.
  - eapply via_trans; [eapply (pass_many part_of a_before_b HQ 9 ms0 [] [] (S (part_of a)) 0);
      [intros; apply ms0_empty; lia|done|apply before_idle]|].
    change (<[9 := ?t]> {[9 := ?t']}) with (<[9 := t]> (<[9 := t']> (∅ : gmap nat thread))).
    rewrite insert_insert_eq. eapply via_trans; [exact V|]. eapply via_trans.
    { eapply (pass_many part_of a_before_b HQ 9 ms2 lg [] (part_of b - S (part_of a)) (S (part_of a)));
        [intros; apply ms2_empty; lia|done|by apply after_a]. }
    replace (S (part_of a) + (part_of b - S (part_of a))) with (part_of b) by lia. eapply via_trans.
    { eapply (pass_one part_of a_before_b HQ 9 ms2 _ lg (part_of b) []);
        [exact ms2_b|apply lookup_insert_eq|by apply after_a]. }
    eapply (pass_many part_of a_before_b HQ 9 ms2 lg _ (n - S (part_of b)) (S (part_of b)));
      [intros; apply ms2_empty; lia|apply lookup_insert_eq|by apply after_a].
  - rewrite lookup_insert_eq. do 2 f_equal. lia.
Qed.

Lemma torn_run :
  exists pre c, trace part_of torn_start pre c /\ Forall a_before_b (pre ++ [c]) /\
    threads c !! 9 = Some (TListDone [mkLock b "x" 0]).
Proof using Hab Hb.
  destruct listing_passes as (ts & lg & Hts & pre & Htr & Hpre).
  set (c := mkConfig (idle_cells ms2) ts lg) in *.
  exists (pre ++ [c]), (set_thread c 9 (TListDone [mkLock b "x" 0])). split_and!.
  - eapply trace_snoc; [exact Htr|]. exists (LRun 9 0 ""). cbn. rewrite Hts. cbn.
    rewrite (proj2 (lookup_ge_None (idle_cells ms2) n)); [done|].
    unfold idle_cells, ms2, ms1, ms0. by rewrite length_fmap, !length_insert, length_replicate.
  - apply Forall_app. split; [apply Forall_app; split; [done|]|]; apply Forall_singleton; apply after_a, ms2_a.
  - cbn. apply lookup_insert_eq.
Qed.

End torn_run.
