(* ===== verification/ConcurrencyTheorems.v ===== *)
(** * What the concurrent stores guarantee

    The properties of the two stores under concurrent requests, for the
    machine of [Concurrent]: go-inmemory is the instance with one map
    ([inmemory_part]), go-sharded the instance with 64 maps
    ([Sharded.shard_nat Hash], for any hash function). *)

From S2P Require Import Prelude LockSpec InMemory Sharded Concurrent ConcurrentFacts Progress TornListing.
From stdpp Require Import options.

(** go-inmemory keeps every key in its only map. *)
Definition inmemory_part : string -> nat := fun _ => 0.

Lemma inmemory_part_lt k : inmemory_part k < 1.
Proof. unfold inmemory_part. lia. Qed.

(** ** Running a schedule *)

Lemma exec_reach part_of as_ c c' : exec part_of as_ c = Some c' -> reach part_of c c'.
Proof.
  revert c. induction as_ as [|a as_ IH]; intros c H; cbn in H; [simplify_eq; constructor|].
  destruct (step part_of a c) as [c1|] eqn:Ha; [|done]. cbn in H.
  eapply rtc_l; [by exists a|by apply IH].
Qed.

Lemma exec_trace part_of as_ c c' :
  exec part_of as_ c = Some c' -> trace part_of c (passed part_of as_ c) c'.
Proof.
  revert c. induction as_ as [|a as_ IH]; intros c H; cbn in H |- *; [simplify_eq; constructor|].
  destruct (step part_of a c) as [c1|] eqn:Ha; [|done]. eapply trace_cons; [by exists a|by apply IH].
Qed.

(** ** Listings *)

Lemma part_locks_keys part_of n c i :
  cinv part_of n c -> NoDup (Key <$> part_locks c i) /\ Forall (fun k => part_of k = i) (Key <$> part_locks c i).
Proof.
  intros Hc. unfold part_locks. destruct (cells c !! i) as [cl|] eqn:Hcl; [|by repeat constructor].
  assert (Key <$> (snd <$> map_to_list (cmap cl)) = (map_to_list (cmap cl)).*1) as ->.
  { rewrite <- list_fmap_compose. apply list_fmap_ext. intros j [k l] Hj. cbn.
    apply list_elem_of_lookup_2 in Hj.
    apply elem_of_map_to_list in Hj. by eapply cell_key. }
  split; [apply NoDup_fst_map_to_list|]. apply Forall_forall.
  intros k [[k' l] [-> Hl%elem_of_map_to_list]]%list_elem_of_fmap. cbn.
  apply (ci_parted _ _ _ Hc i (cmap cl)); [by rewrite list_lookup_fmap, Hcl|eauto].
Qed.

Lemma snapshot_keys part_of n css :
  Forall (cinv part_of n) css ->
  NoDup (Key <$> snapshot css) /\ Forall (fun k => part_of k < length css) (Key <$> snapshot css).
Proof.
  induction css as [|c css IH] using rev_ind; intros H; [by repeat constructor|].
  apply Forall_app in H as [Hcss [Hc _]%Forall_cons]. destruct (IH Hcss) as [Hnd Hlt].
  destruct (part_locks_keys part_of n c (length css) Hc) as [Hnd' Heq].
  rewrite snapshot_snoc, fmap_app, length_app. cbn [length]. split.
  - apply NoDup_app. split_and!; [done| |done]. intros k Hk Hk'.
    rewrite Forall_forall in Hlt, Heq. specialize (Hlt k Hk). specialize (Heq k Hk'). lia.
  - apply Forall_app. split; (eapply Forall_impl; [eassumption|]; cbn; lia).
Qed.

Lemma listing_parts part_of n c0 pre c tid acc :
  reach part_of (init n) c0 -> threads c0 !! tid = Some (TListWait 0 []) ->
  trace part_of c0 pre c -> threads c !! tid = Some (TListDone acc) ->
  exists css, css `sublist_of` pre /\ length css = n /\ acc ≡ₚ snapshot css /\ Forall (cinv part_of n) css.
Proof.
  intros H0 Ht0 Htr Hd. apply reachable_cinv in H0.
  destruct (trace_list_ok _ _ _ _ _ _ H0 Ht0 Htr) as (t & Ht & Hok).
  rewrite Hd in Ht. simplify_eq. destruct Hok as (css & Hsub & Hlen & Hacc).
  exists css. split_and!; auto. destruct (trace_cinv _ _ _ _ _ H0 Htr) as [_ Hpre].
  rewrite Forall_forall in Hpre |- *. intros x Hx. apply Hpre.
  by eapply elem_of_sublist.
Qed.

(** * The properties *)

(** ** Runs used by the witnesses

    Thread 1 acquires [k] and finishes; then thread 2 takes the mutex to
    release it, and thread 3 asks for a listing. *)
Definition demo : list label :=
  [LSpawn 1 (KAcquire "k" "a" false); LRun 1 5 ""; LRun 1 5 ""; LRun 1 5 ""; LRun 1 5 ""; LRun 1 6 "";
   LSpawn 2 (KRelease "k" "a"); LSpawnList 3; LRun 2 7 ""; LRun 2 7 ""].
Definition demo_end (part_of : string -> nat) (n : nat) : config :=
  default (init n) (exec part_of demo (init n)).

(** A hash function for the examples. *)
Definition length_hash (s : string) : Z := Z.of_nat (String.length s).
Notation example_part := (Sharded.shard_nat length_hash).

(** C5: data-race freedom. In every reachable configuration of either store,
    while one goroutine is between [mu.Lock()] and [mu.Unlock()] of a map
    (about to read, to write or to unlock it), no other goroutine is inside a
    write section or a read section of that map. *)
Theorem race_free part_of n c tid1 tid2 t1 t2 i :
  (forall k, part_of k < n) -> reach part_of (init n) c -> tid1 <> tid2 ->
  threads c !! tid1 = Some t1 -> threads c !! tid2 = Some t2 ->
  wsec part_of t1 = Some i -> wsec part_of t2 <> Some i /\ rsec t2 <> Some i.
Proof.
  intros Hpart Hc Hne H1 H2 Hw. apply reachable_cinv in Hc.
  assert (i < n) as Hi by (destruct t1; simplify_eq/=; auto).
  destruct (lookup_lt_is_Some_2 (cells c) i) as [cl Hcl]; [by rewrite (ci_len _ _ _ Hc)|].
  by eapply cinv_exclusive.
Qed.

Lemma race_free_witness :
  threads (demo_end inmemory_part 1) !! 2 = Some (TLocked (KRelease "k" "a")) /\
  rsec (TListWait 0 []) <> Some 0.
Proof.
  split; [reflexivity|].
  apply (race_free inmemory_part 1 (demo_end inmemory_part 1) 2 3 (TLocked (KRelease "k" "a"))
           (TListWait 0 []) 0).
  - exact inmemory_part_lt.
  - apply (exec_reach _ demo). reflexivity.
  - discriminate.
  - reflexivity.
  - reflexivity.
  - reflexivity.
Defined.

(** C3: linearizability. In every reachable configuration the events recorded
    at the writes of [acquire] and [release] form a legal sequential history
    of the single-map store that ends in the present contents of the maps,
    and every finished request has exactly one event in it, with the result
    it returned to its caller. *)
Theorem linearizable part_of n c :
  reach part_of (init n) c ->
  legal (elog c) (InMemory.mkStore (contents c)) /\
  forall tid o r, threads c !! tid = Some (TDone o r) ->
    exists now, filter (fun e => ev_tid e = tid) (elog c) = [mkEvent tid now o r].
Proof.
  intros Hc%reachable_cinv. split; [apply (ci_legal _ _ _ Hc)|]. intros tid o r Ht.
  pose proof (ci_log _ _ _ Hc tid) as Hl. by rewrite Ht in Hl.
Qed.

Lemma linearizable_witness :
  legal (elog (demo_end example_part 64)) (InMemory.mkStore (contents (demo_end example_part 64))) /\
  exists now, filter (fun e => ev_tid e = 1) (elog (demo_end example_part 64)) =
    [mkEvent 1 now (KAcquire "k" "a" false) (RAcquire (mkLock "k" "a" 5) true)].
Proof.
  assert (reach example_part (init 64) (demo_end example_part 64)) as H
    by (apply (exec_reach _ demo); vm_compute; reflexivity).
  split; [apply (linearizable example_part 64 _ H)|].
  apply (linearizable example_part 64 _ H). vm_compute. reflexivity.
Defined.

(** C16: the linearization respects real time. If a request was finished before
    another one started, then in every later configuration the history splits
    so that the event of the first is in the first part and those of the
    second are in the second. *)
Theorem real_time_order part_of n c1 c2 tid1 tid2 o r :
  reach part_of (init n) c1 -> reach part_of c1 c2 ->
  threads c1 !! tid1 = Some (TDone o r) -> threads c1 !! tid2 = None ->
  exists pre post now, elog c2 = pre ++ post /\ mkEvent tid1 now o r ∈ pre /\
    (forall e, e ∈ pre -> ev_tid e <> tid2) /\ (forall e, e ∈ post -> ev_tid e <> tid1).
Proof.
  intros H0 H12 Ht1 Ht2. pose proof (reachable_cinv _ _ _ H0) as Hc1.
  pose proof (reach_cinv _ _ _ _ Hc1 H12) as Hc2.
  destruct (reach_log _ _ _ H12) as [post Hpost].
  pose proof (ci_log _ _ _ Hc1 tid1) as L1. rewrite Ht1 in L1. destruct L1 as [now L1].
  pose proof (ci_log _ _ _ Hc1 tid2) as L2. rewrite Ht2 in L2. cbn in L2.
  assert (mkEvent tid1 now o r ∈ elog c1) as Hin.
  { assert (mkEvent tid1 now o r ∈ filter (fun e => ev_tid e = tid1) (elog c1)) as Hf
      by (rewrite L1; by left). by apply list_elem_of_filter in Hf as [_ ?]. }
  exists (elog c1), post, now. split_and!; [done|done|..].
  - intros e He Heq. apply (filter_nil_not_elem_of (fun e => ev_tid e = tid2) _ _ L2 Heq He).
  - intros e He Heq.
    assert (e ∈ filter (fun e => ev_tid e = tid1) post) as Hf by (by apply list_elem_of_filter).
    pose proof (log_ok_length _ _ _ (ci_log _ _ _ Hc2 tid1)) as Hle.
    rewrite Hpost, filter_app, length_app, L1 in Hle. cbn in Hle.
    destruct (filter _ post); [by apply elem_of_nil in Hf|cbn in Hle; lia].
Qed.

Lemma real_time_order_witness :
  exists pre post now, elog (demo_end inmemory_part 1) = pre ++ post /\
    mkEvent 1 now (KAcquire "k" "a" false) (RAcquire (mkLock "k" "a" 5) true) ∈ pre /\
    (forall e, e ∈ pre -> ev_tid e <> 2) /\ (forall e, e ∈ post -> ev_tid e <> 1).
Proof.
  apply (real_time_order inmemory_part 1
           (default (init 1) (exec inmemory_part (take 6 demo) (init 1)))
           (demo_end inmemory_part 1) 1 2 (KAcquire "k" "a" false) (RAcquire (mkLock "k" "a" 5) true)).
  - apply (exec_reach _ (take 6 demo)). reflexivity.
  - apply (exec_reach _ (drop 6 demo)). reflexivity.
  - reflexivity.
  - reflexivity.
Defined.

(** C12: every request returns. From every reachable configuration, in which
    writers may wait for readers and readers for an announced writer, every
    schedule of the goroutines already running leads to one in which all
    requests have returned: there is always a goroutine that can go on until
    then, and no schedule goes on forever. *)
Theorem requests_finish part_of n c :
  (forall k, part_of k < n) -> reach part_of (init n) c ->
  inevitable part_of (fun c => map_Forall (fun _ t => finished t = true) (threads c)) c.
Proof. apply run_to_completion. Qed.

(** A listing is parked behind a writer that is inside. *)
Definition parked_demo : list label := demo ++ [LRun 3 0 ""].

Lemma requests_finish_witness :
  let c := default (init 1) (exec inmemory_part parked_demo (init 1)) in
  threads c !! 2 = Some (TLocked (KRelease "k" "a")) /\ threads c !! 3 = Some (TListParked 0 []) /\
  inevitable inmemory_part (fun c => map_Forall (fun _ t => finished t = true) (threads c)) c.
Proof.
  split; [vm_compute; reflexivity|]. split; [vm_compute; reflexivity|].
  apply (requests_finish inmemory_part 1).
  - exact inmemory_part_lt.
  - apply (exec_reach _ parked_demo). vm_compute. reflexivity.
Defined.


(** C18: what a listing returns. A lock in the result was held at some moment
    of the call, a lock held at every moment of the call is in the result, and
    no key is listed twice, whatever the other requests do meanwhile. *)
Theorem listing_sound_and_complete part_of n c0 pre c tid acc :
  (forall k, part_of k < n) -> reach part_of (init n) c0 ->
  threads c0 !! tid = Some (TListWait 0 []) -> trace part_of c0 pre c ->
  threads c !! tid = Some (TListDone acc) ->
  (forall l, l ∈ acc -> exists c', c' ∈ pre /\ contents c' !! Key l = Some l) /\
  (forall k l, (forall c', c' ∈ pre -> contents c' !! k = Some l) -> l ∈ acc) /\
  NoDup (Key <$> acc).
Proof.
  intros Hpart H0 Ht0 Htr Hd.
  destruct (listing_parts _ _ _ _ _ _ _ H0 Ht0 Htr Hd) as (css & Hsub & Hlen & Hacc & Hinv).
  rewrite Hacc. split_and!.
  - intros l. rewrite Hacc. intros (i & c' & Hi%list_elem_of_lookup_2 & Hl)%elem_of_snapshot.
    exists c'. split; [by eapply elem_of_sublist|].
    rewrite Forall_forall in Hinv. eapply elem_of_part_locks; eauto.
  - intros k l Hk. rewrite Hacc. apply elem_of_snapshot.
    destruct (lookup_lt_is_Some_2 css (part_of k)) as [c' Hc']; [by rewrite Hlen|].
    exists (part_of k), c'. split; [done|]. apply list_elem_of_lookup_2 in Hc'.
    rewrite Forall_forall in Hinv. eapply part_locks_elem; [by apply Hinv|].
    apply Hk. by eapply elem_of_sublist.
  - by apply (snapshot_keys part_of n).
Qed.

(** A listing of a table that holds [k], undisturbed. *)
Definition list_start (part_of : string -> nat) (n : nat) : config :=
  default (init n) (exec part_of (take 6 demo ++ [LSpawnList 3]) (init n)).
Definition list_labels : list label := [LRun 3 0 ""; LRun 3 0 "k"; LRun 3 0 ""; LRun 3 0 ""].

Lemma listing_sound_and_complete_witness :
  mkLock "k" "a" 5 ∈ [mkLock "k" "a" 5] /\ NoDup (Key <$> [mkLock "k" "a" 5]).
Proof.
  destruct (listing_sound_and_complete inmemory_part 1 (list_start inmemory_part 1)
    (passed inmemory_part list_labels (list_start inmemory_part 1))
    (default (init 1) (exec inmemory_part list_labels (list_start inmemory_part 1)))
    3 [mkLock "k" "a" 5]) as (_ & Hc & Hn).
  - exact inmemory_part_lt.
  - apply (exec_reach _ (take 6 demo ++ [LSpawnList 3])). reflexivity.
  - reflexivity.
  - apply exec_trace. reflexivity.
  - reflexivity.
  - split; [|exact Hn]. apply (Hc "k"). intros c' Hin.
    repeat (apply elem_of_cons in Hin as [->|Hin]; [reflexivity|]). by apply elem_of_nil in Hin.
Defined.

(** C19: go-inmemory's listing is an atomic snapshot: it is, up to order, the
    whole table at one moment of the call. *)
Theorem inmemory_listing_atomic c0 pre c tid acc :
  reach inmemory_part (init 1) c0 -> threads c0 !! tid = Some (TListWait 0 []) ->
  trace inmemory_part c0 pre c -> threads c !! tid = Some (TListDone acc) ->
  exists c', c' ∈ pre /\ acc ≡ₚ snd <$> map_to_list (contents c').
Proof.
  intros H0 Ht0 Htr Hd.
  destruct (listing_parts _ _ _ _ _ _ _ H0 Ht0 Htr Hd) as (css & Hsub & Hlen & Hacc & Hinv).
  destruct css as [|c' [|]]; try done. exists c'. split.
  - eapply elem_of_sublist; [|done]. by left.
  - rewrite Hacc. unfold snapshot, part_locks, contents. cbn. rewrite app_nil_r.
    apply Forall_cons in Hinv as [Hc _]. pose proof (ci_len _ _ _ Hc) as Hl.
    destruct (cells c') as [|cl [|]]; try done. cbn. by rewrite (right_id_L ∅ (∪)).
Qed.

Lemma inmemory_listing_atomic_witness :
  exists c', c' ∈ passed inmemory_part list_labels (list_start inmemory_part 1) /\
    [mkLock "k" "a" 5] ≡ₚ snd <$> map_to_list (contents c').
Proof.
  apply (inmemory_listing_atomic (list_start inmemory_part 1)
    (passed inmemory_part list_labels (list_start inmemory_part 1))
    (default (init 1) (exec inmemory_part list_labels (list_start inmemory_part 1))) 3).
  - apply (exec_reach _ (take 6 demo ++ [LSpawnList 3])). reflexivity.
  - reflexivity.
  - apply exec_trace. reflexivity.
  - reflexivity.
Defined.

Lemma listed_alone part_of n c k k' l :
  cinv part_of n c -> k <> k' -> Key l = k ->
  [l] ≡ₚ snd <$> map_to_list (contents c) ->
  is_Some (contents c !! k) /\ contents c !! k' = None.
Proof.
  intros Hc Hne Hl Hp.
  assert (forall x v, contents c !! x = Some v -> v = l /\ x = k) as Hall.
  { intros x v Hx. assert (v ∈ [l]) as Hv.
    { rewrite Hp. apply list_elem_of_fmap. exists (x, v). by rewrite elem_of_map_to_list. }
    apply list_elem_of_singleton in Hv as ->. split; [done|].
    rewrite <- Hl. symmetry. by apply (legal_inv _ _ (ci_legal _ _ _ Hc)) in Hx. }
  split.
  - assert (l ∈ snd <$> map_to_list (contents c)) as Hin by (rewrite <- Hp; by left).
    apply list_elem_of_fmap in Hin as ([x v] & -> & Hx%elem_of_map_to_list).
    destruct (Hall _ _ Hx) as [_ ->]. eauto.
  - destruct (contents c !! k') as [v|] eqn:E; [|done]. by destruct (Hall _ _ E).
Qed.

Lemma contents_held part_of n c k : cinv part_of n c -> contents c !! k = held_at part_of c k.
Proof.
  intros Hc. unfold contents, held_at.
  rewrite (lookup_parted part_of 0); [by rewrite Nat.sub_0_r|by eapply ci_parted|lia].
Qed.

(** The run of [torn_run], whose result is the contents at no moment. *)
Lemma torn_listing part_of n a b :
  part_of a < part_of b -> part_of b < n ->
  exists c0 pre c tid acc,
    reach part_of (init n) c0 /\ threads c0 !! tid = Some (TListWait 0 []) /\
    trace part_of c0 pre c /\ threads c !! tid = Some (TListDone acc) /\
    forall c', c' ∈ pre ++ [c] -> ~ acc ≡ₚ snd <$> map_to_list (contents c').
Proof.
  intros Hab Hb. destruct (torn_run part_of n a b Hab Hb) as (pre & c & Htr & HQ & Hd).
  assert (reach part_of (init n) (torn_start n)) as H0.
  { eapply rtc_l; [|constructor]. exists (LSpawnList 9). cbn.
    unfold set_thread, torn_start, idle_cells. cbn. by rewrite fmap_replicate. }
  exists (torn_start n), pre, c, 9, [mkLock b "x" 0]. split_and!; [done|done|done|done|].
  intros c' Hin Hp. destruct (trace_cinv _ n _ _ _ (reachable_cinv _ _ _ H0) Htr) as [He Hpre].
  assert (cinv part_of n c') as Hc.
  { apply elem_of_app in Hin as [Hin|Hin].
    - rewrite Forall_forall in Hpre. auto.
    - by apply list_elem_of_singleton in Hin as ->. }
  rewrite Forall_forall in HQ. specialize (HQ c' Hin). unfold a_before_b in HQ.
  rewrite <- !(contents_held _ n) in HQ by done.
  destruct (listed_alone _ _ c' b a (mkLock b "x" 0) Hc) as [Hbb Ha]; [by intros ->; lia|done|done|].
  rewrite Ha in HQ. by destruct (HQ Hbb).
Qed.

(** C20: go-sharded's listing is not a snapshot. For every hash function that
    puts some two keys into different shards there is a run in which the
    result of [list] is at no moment of the call the contents of the store:
    it misses a lock that was acquired, and the request answered, before a
    listed one was requested. *)
Theorem sharded_listing_not_atomic Hash a b :
  Sharded.shard_nat Hash a <> Sharded.shard_nat Hash b ->
  let part_of := Sharded.shard_nat Hash in
  exists c0 pre c tid acc,
    reach part_of (init 64) c0 /\ threads c0 !! tid = Some (TListWait 0 []) /\
    trace part_of c0 pre c /\ threads c !! tid = Some (TListDone acc) /\
    forall c', c' ∈ pre ++ [c] -> ~ acc ≡ₚ snd <$> map_to_list (contents c').
Proof.
  intros Hne part_of. pose proof (Sharded.shard_nat_lt Hash).
  destruct (Nat.lt_total (part_of a) (part_of b)) as [?|[?|?]]; [|done|].
  - by apply (torn_listing part_of 64 a b).
  - by apply (torn_listing part_of 64 b a).
Qed.

Lemma sharded_listing_not_atomic_witness :
  exists c0 pre c tid acc,
    reach example_part (init 64) c0 /\ threads c0 !! tid = Some (TListWait 0 []) /\
    trace example_part c0 pre c /\ threads c !! tid = Some (TListDone acc) /\
    forall c', c' ∈ pre ++ [c] -> ~ acc ≡ₚ snd <$> map_to_list (contents c').
Proof. apply (sharded_listing_not_atomic length_hash "a" "bb"). vm_compute. discriminate. Defined.
