(* ===== verification/Validate.v ===== *)
(** * benchmark/validate.go: the specification check of a running solution

    [validateSpec] sends a fixed sequence of requests and returns an error at
    the first deviation. The client code is written over an abstract network
    ([Transport]); [serve_transport] connects it to a server of [Http]. An
    error value keeps what the message is built from. *)

From S2P Require Import Prelude Utf8 Json JsonFacts GoTime LockSpec Http HttpFacts.
From stdpp Require Import options.
Local Open Scope Z_scope.

(** ** The network as the client sees it *)

Inductive net_error := ErrTimeout | ErrCanceled | ErrConnection.

#[export] Instance net_error_eq_dec : EqDecision net_error.
Proof. solve_decision. Defined.

(** A received response: the status code, and the body or the error that
    reading it ends with. *)
Record reply := mkReply { StatusCode : Z; Body : result net_error string }.

(** [client.Do]; the argument threads the state of the world. *)
Class Transport (W : Type) := client_Do : request -> W -> result net_error reply * W.

(** ** Errors *)

Inductive verror :=
| NetErr (e : net_error)
| ReadBody (e : net_error)
| DecodeLock (st : Z) (raw : string)
| DecodeLocks (st : Z) (raw : string)
| KeyNotListed (key : string) (st : Z) (raw : string)
| StepCall (step : nat) (call : string) (e : verror)
| StepStatus (step : nat) (expected got : Z)
| StepNotLocked (step : nat)
| StepSinceChanged (was now : string)
| StepStillPresent.

(** ** Client programs *)

Definition prog (W A : Type) : Type := W -> result verror A * W.

#[export] Instance prog_ret W : MRet (prog W) := fun _ a w => (Ok a, w).
#[export] Instance prog_bind W : MBind (prog W) := fun _ _ k m w =>
  match m w with
  | (Ok a, w') => k a w'
  | (Err e, w') => (Err e, w')
  end.

Definition throw {W A} (e : verror) : prog W A := fun w => (Err e, w).
(** [if err != nil { return fmt.Errorf(... %w, err) }] *)
Definition wrap {W A} (f : verror -> verror) (m : prog W A) : prog W A := fun w =>
  match m w with (Ok a, w') => (Ok a, w') | (Err e, w') => (Err (f e), w') end.
(** Continue with the result, error or not. *)
Definition attempt {W A} (m : prog W A) : prog W (result verror A) := fun w =>
  match m w with (r, w') => (Ok r, w') end.

(** ** Response bodies *)

Record lockResponse := mkLockResponse {
  lrLocked : bool; lrKey : string; lrLockee : string; lrCurrentLockee : string
}.

Definition set_lockResponse (r : lockResponse) (f : string) (v : json) : lockResponse * bool :=
  if String.eqb f "locked" then
    let x := set_bool r.(lrLocked) v in
    (mkLockResponse x.1 r.(lrKey) r.(lrLockee) r.(lrCurrentLockee), x.2)
  else if String.eqb f "key" then
    let x := set_string r.(lrKey) v in
    (mkLockResponse r.(lrLocked) x.1 r.(lrLockee) r.(lrCurrentLockee), x.2)
  else if String.eqb f "lockee" then
    let x := set_string r.(lrLockee) v in
    (mkLockResponse r.(lrLocked) r.(lrKey) x.1 r.(lrCurrentLockee), x.2)
  else
    let x := set_string r.(lrCurrentLockee) v in
    (mkLockResponse r.(lrLocked) r.(lrKey) r.(lrLockee) x.1, x.2).

Definition decode_lockResponse : json -> lockResponse * bool :=
  decode_struct ["locked"; "key"; "lockee"; "currentLockee"] set_lockResponse
    (mkLockResponse false "" "" "").

Record lockEntry := mkLockEntry { leKey : string; leLockee : string; leSince : string }.

Definition set_lockEntry (r : lockEntry) (f : string) (v : json) : lockEntry * bool :=
  if String.eqb f "key" then
    let x := set_string r.(leKey) v in (mkLockEntry x.1 r.(leLockee) r.(leSince), x.2)
  else if String.eqb f "lockee" then
    let x := set_string r.(leLockee) v in (mkLockEntry r.(leKey) x.1 r.(leSince), x.2)
  else
    let x := set_string r.(leSince) v in (mkLockEntry r.(leKey) r.(leLockee) x.1, x.2).

Definition decode_lockEntry : json -> lockEntry * bool :=
  decode_struct ["key"; "lockee"; "since"] set_lockEntry (mkLockEntry "" "" "").

(** The only field of [locksResponse] is the slice of entries. *)
Definition decode_locksResponse : json -> list lockEntry * bool :=
  decode_struct ["locks"] (fun ls _ v => decode_slice decode_lockEntry ls v) [].

(** ** The calls *)

Section client.
Context {W : Type} `{!Transport W}.

Definition client_do (r : request) : prog W reply := fun w =>
  match client_Do r w with (Ok a, w') => (Ok a, w') | (Err e, w') => (Err (NetErr e), w') end.

Definition read_all (r : reply) : prog W string := fun w =>
  match r.(Body) with Ok raw => (Ok raw, w) | Err e => (Err (ReadBody e), w) end.

Definition sendLock (key lockee : string) (force : bool) : prog W (Z * lockResponse) :=
  httpResp ← client_do (mkRequest "POST" "/lock" (lock_body key lockee force));
  rawBody ← read_all httpResp;
  match Unmarshal decode_lockResponse rawBody with
  | None => throw (DecodeLock httpResp.(StatusCode) rawBody)
  | Some lr => mret (httpResp.(StatusCode), lr)
  end.

Definition sendUnlock (key lockee : string) : prog W Z :=
  httpResp ← client_do (mkRequest "POST" "/unlock" (unlock_body key lockee));
  mret httpResp.(StatusCode).

Fixpoint find_entry (key : string) (ls : list lockEntry) : option string :=
  match ls with
  | [] => None
  | e :: ls => if String.eqb e.(leKey) key then Some e.(leSince) else find_entry key ls
  end.

Definition findLockSince (key : string) : prog W string :=
  httpResp ← client_do (mkRequest "GET" "/locks" "");
  rawBody ← read_all httpResp;
  match Unmarshal decode_locksResponse rawBody with
  | None => throw (DecodeLocks httpResp.(StatusCode) rawBody)
  | Some ls =>
      match find_entry key ls with
      | Some since => mret since
      | None => throw (KeyNotListed key httpResp.(StatusCode) rawBody)
      end
  end.

Definition expect_status (step : nat) (expected got : Z) : prog W unit :=
  if got =? expected then mret () else throw (StepStatus step expected got).
Definition expect_locked (step : nat) (resp : lockResponse) : prog W unit :=
  if resp.(lrLocked) then mret () else throw (StepNotLocked step).

Definition vkey : string := "__validate__".
Definition lockeeA : string := "lockee-a".
Definition lockeeB : string := "lockee-b".

Definition validateSpec : prog W unit :=
  (* 1. Acquire lock as lockee-a. *)
  '(status, resp) ← wrap (StepCall 1 "POST /lock") (sendLock vkey lockeeA false);
  _ ← expect_status 1 StatusOK status;
  _ ← expect_locked 1 resp;
  since1 ← wrap (StepCall 1 "GET /locks") (findLockSince vkey);
  (* 2. Re-acquire same key with same lockee. *)
  '(status, resp) ← wrap (StepCall 2 "POST /lock") (sendLock vkey lockeeA false);
  _ ← expect_status 2 StatusOK status;
  _ ← expect_locked 2 resp;
  since2 ← wrap (StepCall 2 "GET /locks") (findLockSince vkey);
  _ ← (if String.eqb since2 since1 then mret () else throw (StepSinceChanged since1 since2) : prog W unit);
  (* 3. Acquire with a different lockee without force. *)
  '(status, _) ← wrap (StepCall 3 "POST /lock") (sendLock vkey lockeeB false);
  _ ← expect_status 3 StatusConflict status;
  (* 4. Acquire with a different lockee with force=true. *)
  '(status, resp) ← wrap (StepCall 4 "POST /lock (force)") (sendLock vkey lockeeB true);
  _ ← expect_status 4 StatusOK status;
  _ ← expect_locked 4 resp;
  (* 5. Free the lock and verify no entry remains. *)
  status ← wrap (StepCall 5 "DELETE /lock") (sendUnlock vkey lockeeB);
  _ ← expect_status 5 StatusOK status;
  r ← attempt (findLockSince vkey);
  match r with
  | Ok _ => throw StepStillPresent
  | Err _ => mret ()
  end.

End client.

(** ** A server behind the network

    [clock i] is the time and [its i] the iteration order while request [i]
    is served; a handler panic closes the connection. *)
Definition serve_transport {St} `{!LockService St} (clock : nat -> Z) (its : nat -> iteration)
    : Transport (nat * St) := fun r w =>
  match serve (clock w.1) (its w.1) r w.2 with
  | Some (resp, s') => (Ok (mkReply resp.(status) (Ok resp.(body))), (S w.1, s'))
  | None => (Err ErrConnection, (S w.1, w.2))
  end.
