(* ===== verification/ValidateFacts.v ===== *)
(** * The validator against a correct server *)

From S2P Require Import Prelude Utf8 Json JsonFacts GoTime LockSpec InMemory Sharded Http HttpFacts Validate.
From stdpp Require Import options.
Local Open Scope Z_scope.

(** ** Response bodies are read back *)

Lemma Unmarshal_Encode {T} (dec : json -> T * bool) v :
  printable 0 v -> Unmarshal dec (Encode v) = if (dec v).2 then None else Some (dec v).1.
Proof. intros Hv. unfold Unmarshal, Encode. by rewrite parse_print. Qed.

Lemma ascii_only_app s t : ascii_only (s +:+ t) = ascii_only s && ascii_only t.
Proof.
  induction s as [|a s IH]; [done|]. rewrite string_app_cons. cbn [ascii_only].
  by rewrite IH, andb_assoc.
Qed.

Lemma ascii_only_pretty_N_go x s :
  ascii_only s = true -> ascii_only (pretty_N_go x s) = true.
Proof.
  revert s. induction (N.lt_wf_0 x) as [x _ IH]; intros s Hs.
  destruct (decide (x = 0)%N) as [->|Hx]; [by rewrite pretty_N_go_0|].
  rewrite pretty_N_go_step by lia. apply IH; [lia|]. cbn [ascii_only].
  rewrite Hs, andb_true_r. unfold pretty_N_char. by repeat case_match.
Qed.

Lemma ascii_only_pretty_N (x : N) : ascii_only (pretty x) = true.
Proof. unfold pretty, pretty_N. case_decide; [done|]. by apply ascii_only_pretty_N_go. Qed.

Lemma ascii_only_pretty_Z (x : Z) : ascii_only (pretty x) = true.
Proof.
  destruct x as [|p|p]; [done|exact (ascii_only_pretty_N (N.pos p))|].
  change (ascii_only ("-" +:+ pretty (N.pos p)) = true).
  by rewrite ascii_only_app, ascii_only_pretty_N.
Qed.

Lemma ascii_only_digit n s : 0 <= n < 10 -> ascii_only (String (digit n) s) = ascii_only s.
Proof.
  intros Hn. cbn [ascii_only]. unfold digit. rewrite byte_chr by lia.
  destruct (_ <? 128)%N eqn:?; [done|lia].
Qed.

Lemma ascii_only_pad2 n : 0 <= n < 100 -> ascii_only (pad2 n) = true.
Proof. intros Hn. unfold pad2. by rewrite !ascii_only_digit by lia. Qed.

Lemma ascii_only_year y : ascii_only (year_string y) = true.
Proof.
  unfold year_string, pad4. repeat case_match; rewrite ?ascii_only_app, ?ascii_only_pretty_Z; try done;
    rewrite !ascii_only_pad2 by lia; done.
Qed.

Lemma ascii_only_rfc3339 t : ascii_only (rfc3339 t) = true.
Proof.
  unfold rfc3339. pose proof (civil_bounds (t / second / 86400)) as Hc.
  destruct (civil _) as [[y m] d]. rewrite !ascii_only_app, ascii_only_year.
  pose proof (Z.mod_pos_bound (t / second) 86400 ltac:(lia)) as Hs.
  generalize dependent ((t / second) mod 86400). intros s Hs.
  rewrite !ascii_only_pad2 by lia. done.
Qed.

Definition entry_of (l : Lock) : lockEntry := mkLockEntry (Key l) (Lockee l) (rfc3339 (Since l)).

Lemma decode_list ls :
  decode_locksResponse (lockListResp (list_entries ls)) = (entry_of <$> ls, false).
Proof.
  change (decode_slice decode_lockEntry [] (JArr (list_entries ls)) = (entry_of <$> ls, false)).
  unfold decode_slice, list_entries. f_equal.
  - by rewrite <- !list_fmap_compose.
  - induction ls as [|l ls IH]; [done|]. exact IH.
Qed.

Lemma printable_list ls :
  Forall (fun l => utf8 (Key l) /\ utf8 (Lockee l)) ls ->
  printable 0 (lockListResp (list_entries ls)).
Proof.
  intros Hls. unfold lockListResp. printable_tac.
  unfold list_entries. apply Forall_fmap. eapply Forall_impl; [exact Hls|].
  intros l [??]. cbn. unfold lockListEntry. printable_tac.
  apply utf8_ascii, ascii_only_rfc3339.
Qed.

Lemma table_ok_list t ls :
  table_ok t -> ls ≡ₚ locks_of t -> Forall (fun l => utf8 (Key l) /\ utf8 (Lockee l)) ls.
Proof.
  intros Ht Hp. rewrite Hp. apply Forall_forall. intros l Hl%elem_of_locks_of.
  apply Ht in Hl as (_ & ? & _ & ?). done.
Qed.

Lemma find_entry_None key ls :
  (forall l, l ∈ ls -> Key l <> key) -> find_entry key (entry_of <$> ls) = None.
Proof.
  induction ls as [|l ls IH]; intros H; [done|]. rewrite fmap_cons. cbn [find_entry entry_of leKey].
  destruct (String.eqb_spec (Key l) key) as [E|_]; [by destruct (H l); [left|]|].
  apply IH. intros l' Hl'. apply H. by right.
Qed.

Lemma find_entry_Some key ls since :
  (forall l, l ∈ ls -> Key l = key -> Since l = since) -> (exists l, l ∈ ls /\ Key l = key) ->
  find_entry key (entry_of <$> ls) = Some (rfc3339 since).
Proof.
  induction ls as [|l ls IH]; intros H [l' [Hl' Hk]]; [by apply elem_of_nil in Hl'|].
  rewrite fmap_cons. cbn [find_entry entry_of leKey leSince].
  destruct (String.eqb_spec (Key l) key) as [E|Hne]; [by rewrite (H l); [|left|]|].
  apply IH; [intros; apply H; [by right|done]|].
  apply elem_of_cons in Hl' as [->|Hl']; [done|eauto].
Qed.

(** Looking a key up in a listing is looking it up in the table. *)
Lemma find_entry_table key ls t :
  ls ≡ₚ locks_of t ->
  find_entry key (entry_of <$> ls) = (fun h => rfc3339 (h_since h)) <$> t !! key.
Proof.
  intros Hp.
  assert (forall l, l ∈ ls <-> t !! Key l = Some (hold_of l)) as Hin.
  { intros l. rewrite Hp. apply elem_of_locks_of. }
  destruct (t !! key) as [h|] eqn:E.
  - apply find_entry_Some.
    + intros l Hl%Hin Hk. subst key. rewrite E in Hl. by simplify_eq.
    + exists (lock_of key h). split; [|done]. apply Hin. destruct h. done.
  - apply find_entry_None. intros l Hl%Hin Hk. congruence.
Qed.

(** ** One call against a server *)

(** What a client relies on: behind the network is a service that takes steps
    of the API specification. [sv_step] relates the world before and after a
    request. *)
Class Served (W : Type) `{!Transport W} := {
  sv_ok : W -> Prop;
  sv_tab : W -> table;
  sv_now : W -> Z;
  sv_step : W -> W -> Prop;
  sv_do r w : sv_ok w -> exists resp w',
    client_Do r w = (Ok (mkReply (status resp) (Ok (body resp))), w') /\
    sv_ok w' /\ sv_step w w' /\ api_step (sv_now w) r (sv_tab w) resp (sv_tab w')
}.

(** A server of [Http] over any store that meets the contract. *)
Definition server_served {St} `{LSL : LockServiceLaws St} clock its
    : @Served (nat * St) (serve_transport clock its).
Proof.
  refine {| sv_ok w := ls_inv w.2; sv_tab w := ls_abs w.2; sv_now w := clock w.1;
            sv_step w w' := w'.1 = S w.1 |}.
  intros r [i s] Hi. destruct (serve_refines (clock i) (its i) r s Hi) as (resp & s' & E & Hi' & Hs).
  exists resp, (S i, s'). split_and!; [|done..].
  unfold client_Do, serve_transport. cbn. by rewrite E.
Defined.

Section calls.
Context {W : Type} `{!Transport W} `{SV : !Served W}.
Implicit Types (w : W).

Lemma client_do_served r w :
  sv_ok w -> exists resp w',
    client_do r w = (Ok (mkReply (status resp) (Ok (body resp))), w') /\
    sv_ok w' /\ sv_step w w' /\ api_step (sv_now w) r (sv_tab w) resp (sv_tab w').
Proof.
  intros Hi. destruct (sv_do r w Hi) as (resp & w' & E & Hi' & Hst & Hs).
  exists resp, w'. split_and!; [|done..]. unfold client_do. by rewrite E.
Qed.

Lemma sendLock_served w t key lockee force :
  sv_ok w -> sv_tab w = t -> table_ok t -> entry_ok key (Hold lockee 0) ->
  exists ok resp w',
    sendLock key lockee force w = (Ok (if ok : bool then StatusOK else StatusConflict, resp), w') /\
    lrLocked resp = ok /\ sv_ok w' /\ sv_step w w' /\
    spec_acquire (sv_now w) key lockee force t = (ok, sv_tab w').
Proof.
  intros Hi <- Ht He. unfold sendLock, mbind, prog_bind.
  destruct (client_do_served (mkRequest "POST" "/lock" (lock_body key lockee force)) w Hi)
    as (resp & w' & -> & Hi' & Hst & Hs).
  apply api_step_lock in Hs.
  rewrite (api_lock_body _ _ _ _ _ He) in Hs.
  destruct (spec_acquire _ _ _ _ _) as [ok t'] eqn:Ea. injection Hs as -> <-.
  cbn [read_all Body StatusCode]. destruct ok; cbn [writeJSON status body].
  - destruct He as (_ & Uk & _ & Ul). cbn in Ul.
    rewrite Unmarshal_Encode by (unfold lockOKResp; printable_tac).
    by eexists true, _, w'.
  - rewrite Unmarshal_Encode; [by eexists false, _, w'|].
    apply spec_acquire_refused in Ea as (_ & _ & h & Hh & _).
    unfold lockConflictResp, holder. rewrite Hh. cbn.
    apply Ht in Hh as (_ & _ & _ & ?). destruct He as (_ & Uk & _). printable_tac.
Qed.

Lemma sendUnlock_served w t key lockee :
  sv_ok w -> sv_tab w = t -> entry_ok key (Hold lockee 0) ->
  exists o w', sendUnlock key lockee w = (Ok (outcome_status o), w') /\ sv_ok w' /\ sv_step w w' /\
    spec_release key lockee t = (o, sv_tab w').
Proof.
  intros Hi <- He. unfold sendUnlock, mbind, prog_bind.
  destruct (client_do_served (mkRequest "POST" "/unlock" (unlock_body key lockee)) w Hi)
    as (resp & w' & -> & Hi' & Hst & Hs).
  apply api_step_unlock in Hs.
  rewrite (api_unlock_body _ _ _ He) in Hs.
  destruct (spec_release _ _ _) as [o t'] eqn:Ea. injection Hs as -> <-.
  exists o, w'. split_and!; [|done..]. by destruct o.
Qed.

Lemma findLockSince_served w t key :
  sv_ok w -> sv_tab w = t -> table_ok t ->
  exists w', sv_ok w' /\ sv_step w w' /\ sv_tab w' = t /\
    match t !! key with
    | Some h => findLockSince key w = (Ok (rfc3339 (h_since h)), w')
    | None => exists raw, findLockSince key w = (Err (KeyNotListed key StatusOK raw), w')
    end.
Proof.
  intros Hi <- Ht. unfold findLockSince, mbind, prog_bind.
  destruct (client_do_served (mkRequest "GET" "/locks" "") w Hi) as (resp & w' & -> & Hi' & Hst & Hs).
  apply api_step_locks in Hs as [Ha (ls & Hp & ->)]. exists w'. split_and!; [done..|].
  cbn [read_all Body StatusCode writeJSON status body].
  rewrite Unmarshal_Encode by eauto using printable_list, table_ok_list.
  rewrite decode_list. cbn [fst snd]. rewrite (find_entry_table _ _ _ Hp).
  destruct (sv_tab w !! key); cbn; eauto.
Qed.

End calls.

(** ** Sequencing client programs *)

Lemma prog_bind_Ok {W A B} (m : prog W A) (k : A -> prog W B) w a w' :
  m w = (Ok a, w') -> (m ≫= k) w = k a w'.
Proof. intros E. unfold mbind, prog_bind. by rewrite E. Qed.
Lemma wrap_Ok {W A} f (m : prog W A) w a w' : m w = (Ok a, w') -> wrap f m w = (Ok a, w').
Proof. intros E. unfold wrap. by rewrite E. Qed.
Lemma attempt_eq {W A} (m : prog W A) w r w' : m w = (r, w') -> attempt m w = (Ok r, w').
Proof. intros E. unfold attempt. by rewrite E. Qed.

(** Run one call of the program whose effect is the equation [E]. *)
Ltac run_call E :=
  first [ rewrite (prog_bind_Ok _ _ _ _ _ (wrap_Ok _ _ _ _ _ E))
        | rewrite (prog_bind_Ok _ _ _ _ _ (attempt_eq _ _ _ _ E)) ]; cbv iota beta.
(** Pass a check that succeeds by computation. *)
Ltac run_check := erewrite prog_bind_Ok by reflexivity.

Lemma vkey_ok lockee : lockee = lockeeA \/ lockee = lockeeB -> entry_ok vkey (Hold lockee 0).
Proof. intros [->| ->]; split_and!; try done; apply utf8_ascii; reflexivity. Qed.

Lemma table_ok_insert_vkey t lockee since :
  table_ok t -> lockee = lockeeA \/ lockee = lockeeB ->
  table_ok (<[vkey := Hold lockee since]> t).
Proof. intros Ht Hl. apply map_Forall_insert_2; [exact (vkey_ok lockee Hl)|done]. Qed.

(** The validator accepts every service that takes the steps of the API
    specification, with eight requests, and leaves its locks as they were. *)
Lemma validateSpec_passes {W} `{!Transport W} `{SV : !Served W} (w : W) :
  sv_ok w -> table_ok (sv_tab w) -> sv_tab w !! vkey = None ->
  exists w', validateSpec w = (Ok (), w') /\ sv_ok w' /\ sv_tab w' = sv_tab w /\ nsteps sv_step 8 w w'.
Proof.
  intros Hi Ht Hfree. remember (sv_tab w) as t eqn:A0. symmetry in A0.
  pose proof (vkey_ok lockeeA ltac:(by left)) as HA. pose proof (vkey_ok lockeeB ltac:(by right)) as HB.
  (* 1 *)
  destruct (sendLock_served w t vkey lockeeA false Hi A0 Ht HA)
    as (ok1 & r1 & w1 & E1 & L1 & I1 & T1 & A1).
  rewrite spec_acquire_free in A1 by done. injection A1 as <- A1.
  remember (<[vkey := Hold lockeeA (sv_now w)]> t) as t1 eqn:Et1.
  assert (table_ok t1) as Ht1 by (subst t1; apply table_ok_insert_vkey; auto).
  assert (t1 !! vkey = Some (Hold lockeeA (sv_now w))) as Hv1 by (subst t1; apply lookup_insert_eq).
  destruct (findLockSince_served w1 t1 vkey I1 (eq_sym A1) Ht1)
    as (w2 & I2 & T2 & A2 & E2). rewrite Hv1 in E2.
  (* 2 *)
  destruct (sendLock_served w2 t1 vkey lockeeA false I2 A2 Ht1 HA)
    as (ok3 & r3 & w3 & E3 & L3 & I3 & T3 & A3).
  rewrite (spec_acquire_again _ _ _ _ _ _ Hv1) in A3. injection A3 as <- A3.
  destruct (findLockSince_served w3 t1 vkey I3 (eq_sym A3) Ht1)
    as (w4 & I4 & T4 & A4 & E4). rewrite Hv1 in E4.
  (* 3 *)
  destruct (sendLock_served w4 t1 vkey lockeeB false I4 A4 Ht1 HB)
    as (ok5 & r5 & w5 & E5 & L5 & I5 & T5 & A5).
  rewrite (spec_acquire_taken _ _ _ _ _ _ Hv1) in A5 by done. injection A5 as <- A5.
  (* 4 *)
  destruct (sendLock_served w5 t1 vkey lockeeB true I5 (eq_sym A5) Ht1 HB)
    as (ok6 & r6 & w6 & E6 & L6 & I6 & T6 & A6).
  rewrite (spec_acquire_taken _ _ _ _ _ _ Hv1) in A6 by done. injection A6 as <- A6.
  (* 5 *)
  destruct (sendUnlock_served w6 _ vkey lockeeB I6 (eq_sym A6) HB)
    as (o7 & w7 & E7 & I7 & T7 & A7).
  erewrite spec_release_held in A7 by apply lookup_insert_eq.
  subst t1. rewrite insert_insert_eq, delete_insert_id in A7 by done. injection A7 as <- A7.
  destruct (findLockSince_served w7 t vkey I7 (eq_sym A7) Ht)
    as (w8 & I8 & T8 & A8 & E8). rewrite Hfree in E8. destruct E8 as [raw E8].
  exists w8. split_and!; [|done..|].
  - unfold validateSpec. run_call E1. run_check. unfold expect_locked. rewrite L1. run_check.
    run_call E2. run_call E3. run_check. rewrite L3. run_check. run_call E4.
    rewrite String.eqb_refl. run_check. run_call E5. run_check. run_call E6. run_check.
    rewrite L6. run_check. run_call E7. run_check. run_call E8. done.
  - do 8 (eapply nsteps_l; [eassumption|]). constructor.
Qed.
