(* ===== verification/ValidateTheorems.v ===== *)
(** * What the validator guarantees, and what it does not

    [dialogue] is the sequence of answers a service must give; a pass is
    equivalent to it. Lawful servers pass, and so does a service that renews
    [since] within a second. *)

From S2P Require Import Prelude Utf8 Json JsonFacts GoTime LockSpec InMemory Sharded Http HttpFacts.
From S2P Require Import Validate ValidateFacts.
From stdpp Require Import options.
Local Open Scope Z_scope.

(** ** Successful runs *)

Lemma prog_bind_passes {W A B} (m : prog W A) (k : A -> prog W B) w b w2 :
  (m ≫= k) w = (Ok b, w2) <-> exists a w1, m w = (Ok a, w1) /\ k a w1 = (Ok b, w2).
Proof.
  unfold mbind, prog_bind. destruct (m w) as [[a|e] w1]; [|naive_solver].
  split; [eauto|]. by intros (a' & w1' & [= <- <-] & H).
Qed.

Lemma wrap_passes {W A} f (m : prog W A) w a w1 : wrap f m w = (Ok a, w1) <-> m w = (Ok a, w1).
Proof. unfold wrap. by destruct (m w) as [[]]. Qed.

Section runs.
Context {W : Type} `{!Transport W}.

Lemma expect_status_Ok step expected got (w : W) u w1 :
  expect_status step expected got w = (Ok u, w1) <-> got = expected /\ w1 = w.
Proof.
  destruct u. unfold expect_status. destruct (Z.eqb_spec got expected); [|naive_solver].
  split; [by intros [= <-]|by intros [_ ->]].
Qed.

Lemma expect_locked_Ok step r (w : W) u w1 :
  expect_locked step r w = (Ok u, w1) <-> lrLocked r = true /\ w1 = w.
Proof.
  destruct u. unfold expect_locked. destruct (lrLocked r); [|naive_solver].
  split; [by intros [= <-]|by intros [_ ->]].
Qed.

(** A call that succeeded got a reply with this status and a body that
    decodes to this response. *)
Lemma sendLock_Ok key lockee force (w : W) st lr w1 :
  sendLock key lockee force w = (Ok (st, lr), w1) <->
  exists raw, client_Do (mkRequest "POST" "/lock" (lock_body key lockee force)) w
                = (Ok (mkReply st (Ok raw)), w1) /\
    Unmarshal decode_lockResponse raw = Some lr.
Proof.
  unfold sendLock, client_do, mbind, prog_bind, read_all. destruct (client_Do _ w) as [[[st' [raw|e]]|e] w'];
    cbn; [|naive_solver..].
  destruct (Unmarshal decode_lockResponse raw) eqn:E; split; try naive_solver.
  cbv [mret prog_ret]. intros [= <- <- <-]. eauto.
Qed.

Lemma sendUnlock_Ok key lockee (w : W) st w1 :
  sendUnlock key lockee w = (Ok st, w1) <->
  exists b, client_Do (mkRequest "POST" "/unlock" (unlock_body key lockee)) w = (Ok (mkReply st b), w1).
Proof.
  unfold sendUnlock, client_do, mbind, prog_bind. destruct (client_Do _ w) as [[[st' b]|e] w']; [|naive_solver].
  cbv [mret prog_ret]. cbn. naive_solver.
Qed.

(** A listing that shows the key with this [since]. *)
Definition listed (since : string) (w w1 : W) : Prop :=
  exists st raw ls, client_Do (mkRequest "GET" "/locks" "") w = (Ok (mkReply st (Ok raw)), w1) /\
    Unmarshal decode_locksResponse raw = Some ls /\ find_entry vkey ls = Some since.

Lemma findLockSince_Ok (w : W) since w1 : findLockSince vkey w = (Ok since, w1) <-> listed since w w1.
Proof.
  unfold listed, findLockSince, client_do, mbind, prog_bind, read_all.
  destruct (client_Do _ w) as [[[st' [raw|e]]|e] w']; cbn.
  2,3: split; [done|by intros (? & ? & ? & [=] & _)].
  destruct (Unmarshal decode_locksResponse raw) as [ls|] eqn:E.
  2: split; [done|intros (? & ? & ? & [= <- <- <-] & ? & _); congruence].
  destruct (find_entry vkey ls) eqn:E3.
  2: split; [done|intros (? & ? & ? & [= <- <- <-] & ? & ?); congruence].
  split; [cbv [mret prog_ret]; intros [= <- <-]; eauto 8|].
  intros (? & ? & ? & [= <- <- <-] & ? & ?). by simplify_eq.
Qed.

(** A listing that does not show it: the request failed, or its body could
    not be read or decoded, or there is no entry for the key. *)
Definition not_listed (w w1 : W) : Prop :=
  exists r, client_Do (mkRequest "GET" "/locks" "") w = (r, w1) /\
    forall st raw ls, r = Ok (mkReply st (Ok raw)) -> Unmarshal decode_locksResponse raw = Some ls ->
      find_entry vkey ls = None.

Lemma findLockSince_Err (w w1 : W) : (exists e, findLockSince vkey w = (Err e, w1)) <-> not_listed w w1.
Proof.
  unfold not_listed, findLockSince, client_do, mbind, prog_bind, read_all.
  destruct (client_Do _ w) as [[[st' [raw|e]]|e] w']; cbn.
  2,3: split; [intros [e' [= <- <-]]; eexists; by split|intros (r & [= <- <-] & _); eauto].
  destruct (Unmarshal decode_locksResponse raw) as [ls|] eqn:E.
  2: { split; [|intros (r & [= <- <-] & _); by eexists]. intros [e' [= <- <-]]. eexists. split; [done|].
       intros ? ? ? [= <- <-]. congruence. }
  destruct (find_entry vkey ls) eqn:E3; split.
  - by intros [e' ?].
  - intros (r & [= <- <-] & H). specialize (H _ _ _ eq_refl E). congruence.
  - intros [e' [= <- <-]]. eexists. split; [done|]. intros ? ? ? [= <- <-]. congruence.
  - intros (r & [= <- <-] & _). by eexists.
Qed.

(** ** What the validator has observed when it passes *)

(** The answer to a POST /lock: its status and what its body decodes to. *)
Definition lock_answer (lockee : string) (force : bool) (w : W) (st : Z) (lr : lockResponse) (w1 : W) : Prop :=
  exists raw, client_Do (mkRequest "POST" "/lock" (lock_body vkey lockee force)) w
                = (Ok (mkReply st (Ok raw)), w1) /\ Unmarshal decode_lockResponse raw = Some lr.

(** A granted acquire: status 200 and a body with [locked] true. *)
Definition granted (lockee : string) (force : bool) (w w1 : W) : Prop :=
  exists lr, lock_answer lockee force w StatusOK lr w1 /\ lrLocked lr = true.

Lemma granted_Ok step name lockee force (w : W) (k : prog W unit) w2 :
  ('(status, resp) ← wrap (StepCall step name) (sendLock vkey lockee force);
   _ ← expect_status step StatusOK status;
   _ ← expect_locked step resp;
   k) w = (Ok (), w2) <->
  exists w1, granted lockee force w w1 /\ k w1 = (Ok (), w2).
Proof.
  rewrite prog_bind_passes. split.
  - intros ([st lr] & w1 & E%wrap_passes & H).
    apply prog_bind_passes in H as (? & ? & [-> ->]%expect_status_Ok & H).
    apply prog_bind_passes in H as (? & ? & [Hl ->]%expect_locked_Ok & H).
    apply sendLock_Ok in E. exists w1. split; [|done]. by exists lr.
  - intros (w1 & (lr & E & Hl) & H). exists (StatusOK, lr), w1. split; [by apply wrap_passes, sendLock_Ok|].
    apply prog_bind_passes. exists (), w1. split; [by apply expect_status_Ok|].
    apply prog_bind_passes. exists (), w1. split; [by apply expect_locked_Ok|done].
Qed.

Lemma listed_Ok step name (w : W) (k : string -> prog W unit) w2 :
  (wrap (StepCall step name) (findLockSince vkey) ≫= k) w = (Ok (), w2) <->
  exists since w1, listed since w w1 /\ k since w1 = (Ok (), w2).
Proof. rewrite prog_bind_passes. setoid_rewrite wrap_passes. by setoid_rewrite findLockSince_Ok. Qed.

(** The end of the dialogue: the unlock and the last listing. *)
Lemma freed_Ok (w w2 : W) :
  (status ← wrap (StepCall 5 "DELETE /lock") (sendUnlock vkey lockeeB);
   _ ← expect_status 5 StatusOK status;
   r ← attempt (findLockSince vkey);
   match r with Ok _ => throw StepStillPresent | Err _ => mret () end) w = (Ok (), w2) <->
  exists b w1, client_Do (mkRequest "POST" "/unlock" (unlock_body vkey lockeeB)) w = (Ok (mkReply StatusOK b), w1) /\
    not_listed w1 w2.
Proof.
  rewrite prog_bind_passes. setoid_rewrite <- findLockSince_Err. split.
  - intros (st & w1 & E%wrap_passes%sendUnlock_Ok & H). apply prog_bind_passes in H as (? & ? & [-> ->]%expect_status_Ok & H).
    destruct E as [b E]. exists b, w1. split; [done|]. unfold mbind, prog_bind, attempt in H.
    destruct (findLockSince vkey w1) as [[since|e] w3]; [done|]. cbv [mret prog_ret] in H. simplify_eq. eauto.
  - intros (b & w1 & E & e & H). exists StatusOK, w1. split; [by apply wrap_passes, sendUnlock_Ok; exists b|].
    apply prog_bind_passes. exists (), w1. split; [by apply expect_status_Ok|].
    unfold mbind, prog_bind, attempt. by rewrite H.
Qed.

(** The eight answers of a service that passes. *)
Definition dialogue (w w8 : W) : Prop :=
  exists w1 w2 w3 w4 w5 w6 w7 since lr b,
    granted lockeeA false w w1 /\ listed since w1 w2 /\
    granted lockeeA false w2 w3 /\ listed since w3 w4 /\
    lock_answer lockeeB false w4 StatusConflict lr w5 /\
    granted lockeeB true w5 w6 /\
    client_Do (mkRequest "POST" "/unlock" (unlock_body vkey lockeeB)) w6 = (Ok (mkReply StatusOK b), w7) /\
    not_listed w7 w8.

End runs.

(** * The properties *)

(** C21: what a pass means. The validator accepts a service, of whatever
    behaviour, if and only if the service grants the key to lockee-a, lists
    it, grants it again to lockee-a with the same [since] in the next listing,
    answers 409 to lockee-b, grants the key to lockee-b by force, answers 200
    to lockee-b's unlock, and the last listing does not show the key: because
    it has no such entry, or because that listing failed. *)
Theorem validate_pass_means {W} `{!Transport W} (w w8 : W) :
  validateSpec w = (Ok (), w8) <-> dialogue w w8.
Proof.
  unfold validateSpec, dialogue. rewrite granted_Ok. setoid_rewrite listed_Ok. setoid_rewrite granted_Ok.
  setoid_rewrite listed_Ok. split.
  - intros (w1 & G1 & since & w2 & L1 & w3 & G2 & since' & w4 & L2 & H).
    apply prog_bind_passes in H as ([] & w4' & E & H).
    destruct (String.eqb_spec since' since) as [->|]; [|done]. cbv [mret prog_ret] in E. injection E as <-.
    apply prog_bind_passes in H as ([st lr] & w5 & E%wrap_passes%sendLock_Ok & H).
    apply prog_bind_passes in H as (? & ? & [-> ->]%expect_status_Ok & H).
    apply granted_Ok in H as (w6 & G4 & H). apply freed_Ok in H as (b & w7 & E7 & E8).
    by exists w1, w2, w3, w4, w5, w6, w7, since, lr, b.
  - intros (w1 & w2 & w3 & w4 & w5 & w6 & w7 & since & lr & b & G1 & L1 & G2 & L2 & E5 & G4 & E7 & E8).
    exists w1. split; [done|]. exists since, w2. split; [done|]. exists w3. split; [done|].
    exists since, w4. split; [done|]. apply prog_bind_passes. exists (), w4.
    split; [by rewrite String.eqb_refl|]. apply prog_bind_passes. exists (StatusConflict, lr), w5.
    split; [by apply wrap_passes, sendLock_Ok|]. apply prog_bind_passes. exists (), w5.
    split; [by apply expect_status_Ok|]. apply granted_Ok. exists w6. split; [done|].
    apply freed_Ok. eauto.
Qed.

Definition example_clock (i : nat) : Z := 1777843495 * second + Z.of_nat i.
Definition example_world : Transport (nat * InMemory.store) :=
  serve_transport example_clock (fun _ => insertion_order).

(** The request counter of a run. *)
Lemma counted_steps {St} n (w w' : nat * St) :
  nsteps (fun w w' : nat * St => w'.1 = S w.1) n w w' -> w'.1 = (n + w.1)%nat.
Proof. induction 1 as [|n w w1 w' E _ IH]; [done|]. rewrite IH, E. lia. Qed.

(** C22: no false alarms. The validator accepts every server over a store that
    meets the contract, whatever its clock and map orders, when the
    validator's key is free: all calls get through, it returns no error after
    exactly eight requests, and the table is again what it was. *)
Theorem validate_accepts {St} `{LSL : LockServiceLaws St} clock its i (s : St) :
  ls_inv s -> table_ok (ls_abs s) -> ls_abs s !! vkey = None ->
  exists s', @validateSpec _ (serve_transport clock its) (i, s) = (Ok (), ((8 + i)%nat, s')) /\
    ls_inv s' /\ ls_abs s' = ls_abs s.
Proof.
  intros Hi Ht Hfree.
  destruct (@validateSpec_passes _ (serve_transport clock its) (server_served clock its) (i, s) Hi Ht Hfree)
    as ([j s'] & E & Hi' & Ha & Hn).
  exists s'. split_and!; [|done..]. rewrite E. do 2 f_equal. apply counted_steps in Hn. exact Hn.
Qed.

Lemma sharded_new_abs Hash :
  @ls_abs _ _ (Sharded.sharded_laws Hash) Sharded.newStore = ∅.
Proof. exact (@ls_new_abs _ _ (Sharded.sharded_laws Hash)). Qed.

Lemma validate_accepts_witness :
  exists s', @validateSpec _ (@serve_transport _ (Sharded.sharded_service (fun _ => 5)) example_clock
                                (fun _ => reverse_order)) (0%nat, Sharded.newStore)
               = (Ok (), (8%nat, s')) /\
    @ls_inv _ _ (Sharded.sharded_laws (fun _ => 5)) s' /\
    @ls_abs _ _ (Sharded.sharded_laws (fun _ => 5)) s'
      = @ls_abs _ _ (Sharded.sharded_laws (fun _ => 5)) Sharded.newStore.
Proof.
  apply (@validate_accepts _ _ (Sharded.sharded_laws (fun _ => 5))).
  - exact (Sharded.fresh_inv (fun _ => 5)).
  - rewrite sharded_new_abs. apply map_Forall_empty.
  - rewrite sharded_new_abs. reflexivity.
Defined.

(** C39: a client sees its own lock. On any server, after a successful
    POST /lock for a free key, looking the key up in GET /locks returns the
    time of the acquire in RFC 3339 form, to the second. *)
Theorem client_sees_its_lock {St} `{LSL : LockServiceLaws St} clock its i (s : St) key lockee force :
  ls_inv s -> table_ok (ls_abs s) -> ls_abs s !! key = None -> entry_ok key (Hold lockee 0) ->
  exists resp s1 s2,
    @sendLock _ (serve_transport clock its) key lockee force (i, s) = (Ok (StatusOK, resp), (S i, s1)) /\
    lrLocked resp = true /\
    @findLockSince _ (serve_transport clock its) key (S i, s1) = (Ok (rfc3339 (clock i)), (S (S i), s2)).
Proof.
  intros Hi Ht Hfree He.
  destruct (@sendLock_served _ _ (server_served clock its) (i, s) _ key lockee force Hi eq_refl Ht He)
    as (ok & resp & [j s1] & E1 & L1 & I1 & T1 & A1). cbn in A1, T1. subst j.
  rewrite spec_acquire_free in A1 by done. injection A1 as <- A1.
  assert (table_ok (ls_abs s1)) as Ht1 by (rewrite <- A1; by apply map_Forall_insert_2).
  destruct (@findLockSince_served _ _ (server_served clock its) (S i, s1) _ key I1 eq_refl Ht1)
    as ([j s2] & _ & T2 & _ & E2). cbn in E2, T2. subst j.
  rewrite <- A1, lookup_insert_eq in E2. by exists resp, s1, s2.
Qed.

Lemma client_sees_its_lock_witness :
  exists resp s1 s2,
    @sendLock _ example_world "k" "a" false (0%nat, InMemory.newStore) = (Ok (StatusOK, resp), (1%nat, s1)) /\
    lrLocked resp = true /\
    @findLockSince _ example_world "k" (1%nat, s1) = (Ok "2026-05-03T21:24:55Z", (2%nat, s2)).
Proof.
  apply (client_sees_its_lock (St := InMemory.store) example_clock (fun _ => insertion_order)).
  - exact InMemory.newStore_inv.
  - exact (map_Forall_empty entry_ok).
  - reflexivity.
  - split_and!; [discriminate|apply utf8_ascii; reflexivity|discriminate|apply utf8_ascii; reflexivity].
Defined.

(** The listing shows seconds only. Two acquire times of four-digit years
    appear the same in GET /locks exactly when they lie in the same second, so
    comparing [since] strings detects a change of holder time only across a
    second boundary. *)
Theorem since_compares_seconds l1 l2 :
  year_ok (Since l1) -> year_ok (Since l2) -> Key l1 = Key l2 -> Lockee l1 = Lockee l2 ->
  (list_entries [l1] = list_entries [l2] <-> Since l1 / second = Since l2 / second).
Proof.
  intros H1 H2 Hk Hl. rewrite <- rfc3339_same_second by done. unfold list_entries, lockListEntry. cbn.
  rewrite Hk, Hl. split; [intros [= H]; exact H|by intros ->].
Qed.

(** ** A faulty service that passes *)

(** A store that renews [since] when the holder acquires again. *)
Definition renewing_acquire (now : Z) (key lockee : string) (force : bool) (s : InMemory.store)
    : (Lock * bool) * InMemory.store :=
  match InMemory.locks s !! key with
  | Some existing =>
      if negb (String.eqb (Lockee existing) lockee) && negb force then (existing, false, s)
      else let l := mkLock key lockee now in (l, true, InMemory.mkStore (<[key := l]> (InMemory.locks s)))
  | None => let l := mkLock key lockee now in (l, true, InMemory.mkStore (<[key := l]> (InMemory.locks s)))
  end.

Definition renewing_service : LockService InMemory.store := {|
  ls_new := InMemory.newStore;
  ls_acquire now key lockee force s := Some (renewing_acquire now key lockee force s);
  ls_release key lockee s := Some (InMemory.release key lockee s);
  ls_list := InMemory.list_locks
|}.

(** Step 2 compares listings that show whole seconds: a service that overwrites
    the holder's [since] on every repeated acquire passes, when the two acquires
    fall in the same second, although it breaks the rule the step is there to
    check. *)
Example validator_misses_renewal :
  @validateSpec _ (@serve_transport _ renewing_service example_clock (fun _ => insertion_order))
     (0%nat, InMemory.newStore) = (Ok (), (8%nat, InMemory.newStore)) /\
  let s1 := (renewing_acquire (example_clock 0) vkey lockeeA false InMemory.newStore).2 in
  let s2 := (renewing_acquire (example_clock 2) vkey lockeeA false s1).2 in
  InMemory.abs s2 <> (spec_acquire (example_clock 2) vkey lockeeA false (InMemory.abs s1)).2.
Proof.
  split; [vm_compute; reflexivity|]. cbv zeta. intros H.
  apply (f_equal (fun t => t !! vkey)) in H. vm_compute in H. discriminate.
Qed.
