(* ===== verification/Scenarios.v ===== *)
(** * benchmark/scenarios.go: the load generator

    A scenario starts goroutines that acquire and release locks, or poll the
    listing, until their context ends, and counts what they see in shared
    atomic counters and a buffered channel. This file models the key pools,
    one loop of [acquireRelease] and of a list_heavy reader as the actions
    between which goroutines interleave, and a phase ([runPhase]) as the
    machine of all its goroutines with the server they talk to. An action
    touches one thing other goroutines can see: the server, one counter, the
    channel or the context.

    A request is sent, handled by the server and answered in separate actions.
    The client can give up in between (its timeout, the end of the context, a
    broken connection). A request it gave up on is not recalled: it stays in
    the network and the server can still handle it at any later time, in this
    phase or in a later one. A request is only sent while the context is alive.
    The Go errors carry what [isTimeout] looks at. *)

From S2P Require Import Prelude Utf8 Json GoTime LockSpec InMemory Sharded Http HttpFacts Validate.
From stdpp Require Import options.
Local Open Scope Z_scope.

(** ** stats.go: [isTimeout] on a chain of wrapped errors *)

Inductive err_node := DeadlineExceeded | Canceled | NetError (timeout : bool) | OtherError.

Definition errors_Is_Deadline (chain : list err_node) : bool :=
  existsb (fun n => match n with DeadlineExceeded => true | _ => false end) chain.

(** The first [net.Error] of the chain. [context.DeadlineExceeded] is one. *)
Fixpoint errors_As_net (chain : list err_node) : option bool :=
  match chain with
  | [] => None
  | NetError t :: _ => Some t
  | DeadlineExceeded :: _ => Some true
  | _ :: chain => errors_As_net chain
  end.

Definition isTimeout (chain : list err_node) : bool :=
  if errors_Is_Deadline chain then true
  else match errors_As_net chain with Some t => t | None => false end.

(** What [client.Do] returns: a [*url.Error], which is a [net.Error], around
    the cause. *)
Definition err_chain (e : net_error) : list err_node :=
  match e with
  | ErrTimeout => [NetError true; DeadlineExceeded]
  | ErrCanceled => [NetError false; Canceled]
  | ErrConnection => [NetError false; OtherError]
  end.

(** ** Configuration *)

Record scenarioCfg := mkScenarioCfg {
  ID : string; Concurrency : Z; KeyPoolSize : Z; Duration : Z; Warmup : Z; PartitionKeys : bool
}.

Definition defaultScenarios : list scenarioCfg :=
  [mkScenarioCfg "sequential" 1 1000 0 0 true;
   mkScenarioCfg "low_concurrency" 10 1000 0 0 true;
   mkScenarioCfg "high_concurrency" 100 10000 0 0 true;
   mkScenarioCfg "contention" 50 5 0 0 false].

(** ** Workers *)

Record worker := mkWorker { w_id : Z; w_keys : list string; w_lockee : string }.

Definition key_name (n : Z) : string := "key-" +:+ pretty n.

Definition per_worker (pool workers : Z) : Z :=
  let perWorker := Z.quot pool workers in
  if perWorker <? 1 then 1 else perWorker.

(** [makeKeys] *)
Definition makeKeys (workerID poolSize totalWorkers : Z) : list string :=
  let perWorker := per_worker poolSize totalWorkers in
  let offset := workerID * perWorker in
  (fun i => key_name (offset + i)) <$> seqZ 0 perWorker.

(** [buildWorker] of [runScenario] *)
Definition buildWorker (cfg : scenarioCfg) (id : Z) : worker :=
  let keys :=
    if cfg.(PartitionKeys) then
      let perWorker := per_worker cfg.(KeyPoolSize) cfg.(Concurrency) in
      let offset := id * perWorker in
      (fun j => key_name (offset + j)) <$> seqZ 0 perWorker
    else key_name <$> seqZ 0 cfg.(KeyPoolSize) in
  mkWorker id keys ("worker-" +:+ pretty id).

(** ** Metrics *)

Record metrics := mkMetrics { m_latencies : list Z; m_errors : Z; m_conflicts : Z; m_total : Z }.

Definition latency_capacity : Z := 2 ^ 20.

(** [select { case w.latencies <- elapsed: default: }] *)
Definition offer (ns : Z) (m : metrics) : metrics :=
  if Z.of_nat (length m.(m_latencies)) <? latency_capacity
  then mkMetrics (m.(m_latencies) ++ [ns]) m.(m_errors) m.(m_conflicts) m.(m_total)
  else m.
Definition add_error (m : metrics) : metrics :=
  mkMetrics m.(m_latencies) (m.(m_errors) + 1) m.(m_conflicts) m.(m_total).
Definition add_conflict (m : metrics) : metrics :=
  mkMetrics m.(m_latencies) m.(m_errors) (m.(m_conflicts) + 1) m.(m_total).
Definition add_total (m : metrics) : metrics :=
  mkMetrics m.(m_latencies) m.(m_errors) m.(m_conflicts) (m.(m_total) + 1).

(** The counters and the channel as [runScenario] creates them, and as the
    reset after the warmup leaves them. *)
Definition no_metrics : metrics := mkMetrics [] 0 0 0.

(** ** Requests *)

(** [postLock], [deleteLock] and the reader's poll: the request each sends. *)
Definition postLock (key lockee : string) (force : bool) : request :=
  mkRequest "POST" "/lock" (lock_body key lockee force).
Definition deleteLock (key lockee : string) : request :=
  mkRequest "POST" "/unlock" (unlock_body key lockee).
Definition pollLocks : request := mkRequest "GET" "/locks" "".

(** ** A phase *)

(** What a goroutine runs, the requests it makes, and where it is. *)
Inductive role := Writer (w : worker) | Reader.

Definition role_lockee (ro : role) : string :=
  match ro with Writer w => w.(w_lockee) | Reader => "" end.

Inductive op :=
| OPost (i : nat) (key : string)                       (* the acquire of iteration i *)
| ODelete (i : nat) (key : string)                     (* its release *)
| OList.

Definition op_request (lockee : string) (o : op) : request :=
  match o with
  | OPost _ key => postLock key lockee false
  | ODelete _ key => deleteLock key lockee
  | OList => pollLocks
  end.

Inductive wpc :=
| WLoop (i : nat)                                      (* select on ctx.Done() *)
| WAsk (o : op)                                        (* before client.Do *)
| WSent (o : op)                                       (* the server has not handled it *)
| WServed (o : op) (st : Z)                            (* the answer is on its way *)
| WReturned (o : op) (r : result net_error Z)          (* before total.Add *)
| WCounted (o : op) (r : result net_error Z)           (* looks at the outcome *)
| WAborting (o : op)                                   (* before abort *)
| WErred (o : op)                                      (* before errors.Add *)
| WSampled (i : nat) (key : string) (st : Z)           (* switch statusCode *)
| WStopped.

(** Where the loop continues. *)
Definition next_loop (o : op) : wpc :=
  match o with OPost i _ | ODelete i _ => WLoop (S i) | OList => WLoop 0 end.

(** [WStep]: the goroutine runs on; [elapsed] is its reading of the clock.
    [WHandle]: the server handles its request. [WReply]: it gets the answer.
    [WGiveUp]: [client.Do] fails. [WLate]: the server handles a request whose
    client has given up. [WDeadline]: the timeout of the phase expires. *)
Inductive wlabel :=
| WStep (id : nat) (elapsed : Z)
| WHandle (id : nat) (now : Z) (it : iteration)
| WReply (id : nat)
| WGiveUp (id : nat) (e : net_error)
| WLate (n : nat) (now : Z) (it : iteration)
| WDeadline.

(** What [w.keys[i%len(w.keys)]] does on an empty list: it divides by zero. *)
Definition start_key (w : worker) (i : nat) : result unit string :=
  match w.(w_keys) !! (i mod length w.(w_keys))%nat with Some key => Ok key | None => Err () end.

Section requests.
Context {St : Type} `{!LockService St}.

Record phase := mkPhase {
  p_srv : St;
  p_net : list request;        (* requests given up on and not yet handled *)
  p_pcs : gmap nat wpc;
  p_metrics : metrics;
  p_done : bool;               (* the phase's context has ended *)
  p_cause : bool;              (* abort has been called *)
  p_crashed : bool             (* a goroutine has panicked: the program is gone *)
}.

Definition set_pc (p : phase) (id : nat) (pc : wpc) : phase :=
  mkPhase p.(p_srv) p.(p_net) (<[id := pc]> p.(p_pcs)) p.(p_metrics) p.(p_done) p.(p_cause) p.(p_crashed).
Definition set_srv (p : phase) (s : St) : phase :=
  mkPhase s p.(p_net) p.(p_pcs) p.(p_metrics) p.(p_done) p.(p_cause) p.(p_crashed).
Definition set_net (p : phase) (net : list request) : phase :=
  mkPhase p.(p_srv) net p.(p_pcs) p.(p_metrics) p.(p_done) p.(p_cause) p.(p_crashed).
Definition set_metrics (p : phase) (m : metrics) : phase :=
  mkPhase p.(p_srv) p.(p_net) p.(p_pcs) m p.(p_done) p.(p_cause) p.(p_crashed).
(** [abort(err)]: the context ends with a cause. *)
Definition abort (p : phase) : phase :=
  mkPhase p.(p_srv) p.(p_net) p.(p_pcs) p.(p_metrics) true true p.(p_crashed).
Definition deadline (p : phase) : phase :=
  mkPhase p.(p_srv) p.(p_net) p.(p_pcs) p.(p_metrics) true p.(p_cause) p.(p_crashed).
Definition crash (p : phase) : phase :=
  mkPhase p.(p_srv) p.(p_net) p.(p_pcs) p.(p_metrics) p.(p_done) p.(p_cause) true.

(** What a goroutine does once the request is counted in [total]. *)
Definition look (id : nat) (elapsed : Z) (o : op) (r : result net_error Z) (p : phase) : phase :=
  match r with
  | Err e =>
      set_pc p id (if negb p.(p_done) && isTimeout (err_chain e) then WAborting o else WErred o)
  | Ok st =>
      match o with
      | OPost i key => set_pc (set_metrics p (offer elapsed p.(p_metrics))) id (WSampled i key st)
      | ODelete _ _ =>
          if negb (st =? StatusOK) && negb (st =? StatusNotFound)
          then set_pc (set_metrics p (add_error p.(p_metrics))) id (next_loop o)
          else set_pc (set_metrics p (offer elapsed p.(p_metrics))) id (next_loop o)
      | OList =>
          if negb (st =? StatusOK)
          then set_pc (set_metrics p (add_error p.(p_metrics))) id (next_loop o)
          else set_pc (set_metrics p (offer elapsed p.(p_metrics))) id (next_loop o)
      end
  end.

(** [switch statusCode] after an acquire. *)
Definition switch (id i : nat) (key : string) (st : Z) (p : phase) : phase :=
  if st =? StatusConflict then set_pc (set_metrics p (add_conflict p.(p_metrics))) id (WLoop (S i))
  else if st =? StatusOK then set_pc p id (WAsk (ODelete i key))
  else set_pc (set_metrics p (add_error p.(p_metrics))) id (WLoop (S i)).

Definition goroutine_step (id : nat) (elapsed : Z) (ro : role) (pc : wpc) (p : phase) : option phase :=
  match pc with
  | WLoop i =>
      if p.(p_done) then Some (set_pc p id WStopped)
      else match ro with
           | Reader => Some (set_pc p id (WAsk OList))
           | Writer w =>
               match start_key w i with
               | Err _ => Some (crash p)
               | Ok key => Some (set_pc p id (WAsk (OPost i key)))
               end
           end
  | WAsk o => if p.(p_done) then None else Some (set_pc p id (WSent o))
  | WReturned o r => Some (set_pc (set_metrics p (add_total p.(p_metrics))) id (WCounted o r))
  | WCounted o r => Some (look id elapsed o r p)
  | WAborting o => Some (set_pc (abort p) id (WErred o))
  | WErred o => Some (set_pc (set_metrics p (add_error p.(p_metrics))) id (next_loop o))
  | WSampled i key st => Some (switch id i key st p)
  | WSent _ | WServed _ _ | WStopped => None
  end.

(** [client.Do] fails: a request that was sent stays in the network. *)
Definition request_fails (id : nat) (e : net_error) (ro : role) (pc : wpc) (p : phase) : option phase :=
  match pc with
  | WAsk o | WServed o _ => Some (set_pc p id (WReturned o (Err e)))
  | WSent o =>
      Some (set_pc (set_net p (p.(p_net) ++ [op_request (role_lockee ro) o])) id (WReturned o (Err e)))
  | _ => None
  end.

Definition phase_step (rs : list role) (l : wlabel) (p : phase) : option phase :=
  if p.(p_crashed) then None
  else match l with
  | WDeadline => Some (deadline p)
  | WStep id elapsed => ro ← rs !! id; pc ← p.(p_pcs) !! id; goroutine_step id elapsed ro pc p
  | WHandle id now it =>
      ro ← rs !! id; pc ← p.(p_pcs) !! id;
      match pc with
      | WSent o =>
          '(resp, s') ← serve now it (op_request (role_lockee ro) o) p.(p_srv);
          Some (set_pc (set_srv p s') id (WServed o resp.(status)))
      | _ => None
      end
  | WReply id =>
      pc ← p.(p_pcs) !! id;
      match pc with WServed o st => Some (set_pc p id (WReturned o (Ok st))) | _ => None end
  | WGiveUp id e => ro ← rs !! id; pc ← p.(p_pcs) !! id; request_fails id e ro pc p
  | WLate n now it =>
      r ← p.(p_net) !! n; '(_, s') ← serve now it r p.(p_srv);
      Some (set_net (set_srv p s') (delete n p.(p_net)))
  end.

(** A phase starts with the requests that earlier ones gave up on. *)
Definition phase_start (rs : list role) (s : St) (net : list request) (m : metrics) : phase :=
  mkPhase s net (map_seq 0 ((fun _ => WLoop 0) <$> rs)) m false false false.

Fixpoint phase_run (rs : list role) (ls : list wlabel) (p : phase) : option phase :=
  match ls with
  | [] => Some p
  | l :: ls => p' ← phase_step rs l p; phase_run rs ls p'
  end.

(** [wg.Wait()] returns when every goroutine has. *)
Definition all_stopped (p : phase) : Prop := map_Forall (fun _ pc => pc = WStopped) p.(p_pcs).

End requests.
Arguments phase : clear implicits.

(** The goroutines of a phase of [runScenario] and of [runListHeavy]. *)
Definition scenario_roles (cfg : scenarioCfg) : list role :=
  (fun id => Writer (buildWorker cfg id)) <$> seqZ 0 cfg.(Concurrency).

Definition writers : Z := 20.
Definition readers : Z := 5.
Definition keyPool : Z := 1000.

Definition list_heavy_roles : list role :=
  ((fun id => Writer (mkWorker id (makeKeys id keyPool writers) ("writer-" +:+ pretty id)))
     <$> seqZ 0 writers) ++ replicate (Z.to_nat readers) Reader.

(** ** [checkLeakedLocks] *)

(** The payload struct: its only field is a slice of raw messages. *)
Definition decode_payload : json -> list json * bool :=
  decode_struct ["locks"] (fun ls _ v => decode_slice (fun v => (v, false)) ls v) [].

Definition checkLeakedLocks {W} `{!Transport W} (w : W) : Z * W :=
  match client_Do (mkRequest "GET" "/locks" "") w with
  | (Err _, w') => (-1, w')
  | (Ok resp, w') =>
      match resp.(Body) with
      | Err _ => (-1, w')
      | Ok raw =>
          match Decode decode_payload raw with
          | None => (-1, w')
          | Some locks => (Z.of_nat (length locks), w')
          end
      end
  end.
