(* ===== verification/ScenarioFacts.v ===== *)
(** * Invariants of the load generator

    Every step of a phase is a small [move] of one goroutine with its [effect]
    on the rest, or the late handling of a request. From this: who is granted
    which key, which requests are on the way, what the counters say, and how
    far each goroutine is from its end. *)

From S2P Require Import Prelude Utf8 Json GoTime LockSpec InMemory Sharded Http HttpFacts.
From S2P Require Import Validate ValidateFacts Scenarios.
From stdpp Require Import options.
Local Open Scope Z_scope.

(** ** Workers that do not get in each other's way *)

(** Well-formed keys and a lockee of its own for every writer. *)
Definition role_ok (ro : role) : Prop :=
  match ro with
  | Writer w => Forall (fun k => entry_ok k (Hold (w_lockee w) 0)) (w_keys w)
  | Reader => True
  end.

Record fleet_ok (rs : list role) : Prop := mkFleetOk {
  fleet_roles : Forall role_ok rs;
  fleet_lockees : forall i j w w', rs !! i = Some (Writer w) -> rs !! j = Some (Writer w') ->
                    w_lockee w = w_lockee w' -> i = j
}.

(** No key is shared by two writers. *)
Definition partitioned (rs : list role) : Prop :=
  forall i j w w' k, rs !! i = Some (Writer w) -> rs !! j = Some (Writer w') ->
    k ∈ w_keys w -> k ∈ w_keys w' -> i = j.

(** Every writer has a key to ask for. *)
Definition armed (rs : list role) : Prop := forall i w, rs !! i = Some (Writer w) -> w_keys w <> [].

(** ** The requests of the clients and what a server does with them *)

Inductive query := QLock (key lockee : string) | QUnlock (key lockee : string) | QList.

Definition query_request (q : query) : request :=
  match q with
  | QLock key lockee => postLock key lockee false
  | QUnlock key lockee => deleteLock key lockee
  | QList => pollLocks
  end.

Definition query_ok (q : query) : Prop :=
  match q with QLock key lockee | QUnlock key lockee => entry_ok key (Hold lockee 0) | QList => True end.

(** A request some worker can have sent. *)
Definition client_request (r : request) : Prop := exists q, query_ok q /\ r = query_request q.

Lemma query_request_inj q q' :
  query_ok q -> query_ok q' -> query_request q = query_request q' -> q = q'.
Proof.
  destruct q as [k l|k l|], q' as [k' l'|k' l'|]; cbn; try done; intros (_ & Uk & _ & Ul) (_ & Uk' & _ & Ul');
    intros E; apply (f_equal req_body) in E; cbn -[lock_body unlock_body] in E.
  - apply (f_equal (Decode decode_lockReq)) in E. rewrite !Decode_lock_body in E by done. by simplify_eq.
  - apply (f_equal (Decode decode_unlockReq)) in E. rewrite !Decode_unlock_body in E by done. by simplify_eq.
Qed.

(** Table and status before and after a request. *)
Inductive handled (t : table) : query -> Z -> table -> Prop :=
| handled_lock now key lockee ok t' :
    spec_acquire now key lockee false t = (ok, t') ->
    handled t (QLock key lockee) (if ok : bool then StatusOK else StatusConflict) t'
| handled_unlock key lockee o t' :
    spec_release key lockee t = (o, t') -> handled t (QUnlock key lockee) (outcome_status o) t'
| handled_list : handled t QList StatusOK t.

Lemma serve_query {St} `{LSL : LockServiceLaws St} now it q (s : St) :
  ls_inv s -> query_ok q -> exists resp s',
    serve now it (query_request q) s = Some (resp, s') /\ ls_inv s' /\
    handled (ls_abs s) q (status resp) (ls_abs s').
Proof.
  intros Hi Hq. destruct (serve_refines now it (query_request q) s Hi) as (resp & s' & E & Hi' & Hs).
  exists resp, s'. split_and!; [done..|]. destruct q as [key lockee|key lockee|]; cbn in Hq.
  - apply api_step_lock in Hs. rewrite (api_lock_body _ _ _ _ _ Hq) in Hs.
    destruct (spec_acquire now key lockee false (ls_abs s)) as [ok t'] eqn:Ea.
    injection Hs as -> ->. replace (status _) with (if ok then StatusOK else StatusConflict) by (by destruct ok).
    by econstructor.
  - apply api_step_unlock in Hs. rewrite (api_unlock_body _ _ _ Hq) in Hs.
    destruct (spec_release key lockee (ls_abs s)) as [o t'] eqn:Ea.
    injection Hs as -> ->. replace (status _) with (outcome_status o) by (by destruct o).
    by constructor.
  - apply api_step_locks in Hs as (-> & ls & _ & ->). constructor.
Qed.

Definition holds (t : table) (key lockee : string) : Prop := h_lockee <$> t !! key = Some lockee.

#[export] Instance holds_dec t key lockee : Decision (holds t key lockee).
Proof. unfold holds. apply _. Defined.

(** A lock goes away only by an unlock of its holder. *)
Lemma handled_keeps t q st t' key h :
  handled t q st t' -> t !! key = Some h -> q <> QUnlock key (h_lockee h) -> t' !! key = Some h.
Proof.
  intros H Hk Hq. destruct H as [now k l ok t' Ha|k l o t' Ha|]; [| |done].
  - pose proof (spec_acquire_keeps now k l false t key h Hk) as K. rewrite Ha in K.
    apply K. by rewrite andb_false_r.
  - pose proof (spec_release_keeps k l t key h Hk) as K. rewrite Ha in K. apply K.
    destruct (String.eqb_spec k key) as [->|]; [|done].
    destruct (String.eqb_spec l (h_lockee h)) as [->|]; [|done]. done.
Qed.

Lemma handled_holds t q st t' key lockee :
  handled t q st t' -> holds t key lockee -> q <> QUnlock key lockee -> holds t' key lockee.
Proof.
  unfold holds. intros H Hh Hq. destruct (t !! key) as [h|] eqn:E; simplify_eq/=.
  by rewrite (handled_keeps _ _ _ _ _ _ H E Hq).
Qed.

Lemma handled_new t q st t' key h :
  handled t q st t' -> t' !! key = Some h ->
  t !! key = Some h \/ t !! key = None /\ q = QLock key (h_lockee h).
Proof.
  intros H Hk. destruct H as [now k l ok t' Ha|k l o t' Ha|]; [| |by left].
  - unfold spec_acquire in Ha. destruct (may_acquire t k l false) eqn:Em; simplify_eq; [|by left].
    destruct (held_by t k l) eqn:Eh; [by left|]. destruct (decide (k = key)) as [->|Hne].
    + rewrite lookup_insert_eq in Hk. simplify_eq/=. right. split; [|done].
      unfold may_acquire in Em. rewrite Eh, !orb_false_r in Em. by apply bool_decide_eq_true in Em.
    + rewrite lookup_insert_ne in Hk by done. by left.
  - left. unfold spec_release in Ha. repeat case_match; simplify_eq; try done.
    by apply lookup_delete_Some in Hk as [_ ?].
Qed.

Lemma handled_table_ok t q st t' : handled t q st t' -> query_ok q -> table_ok t -> table_ok t'.
Proof.
  intros H Hq Ht k h Hk. destruct (handled_new _ _ _ _ _ _ H Hk) as [Hk'|[_ ->]]; [by apply (Ht k)|].
  done.
Qed.

(** What the answers can be. *)
Definition query_answer (q : query) (st : Z) : Prop :=
  match q with
  | QLock _ _ => st = StatusOK \/ st = StatusConflict
  | QUnlock _ _ => st = StatusOK \/ st = StatusForbidden \/ st = StatusNotFound
  | QList => st = StatusOK
  end.

Lemma handled_answer t q st t' : handled t q st t' -> query_answer q st.
Proof. destruct 1 as [now k l [] t'|k l [] t'|]; cbn; auto. Qed.

Lemma handled_granted t key lockee t' : handled t (QLock key lockee) StatusOK t' -> holds t' key lockee.
Proof.
  intros H. inversion H as [now k l ok t1 Ha| |]; subst. destruct ok; [|done].
  apply spec_acquire_granted in Ha as [since Hs]. unfold holds. by rewrite Hs.
Qed.

Lemma handled_release t key lockee st t' :
  handled t (QUnlock key lockee) st t' -> holds t key lockee -> st = StatusOK /\ t' = delete key t.
Proof.
  intros H Hh. inversion H as [|k l o t1 Ha|]; subst. unfold holds in Hh.
  destruct (t !! key) as [[lk since]|] eqn:E; simplify_eq/=.
  rewrite (spec_release_held _ _ _ _ E) in Ha. by simplify_eq.
Qed.

(** ** What a step of a phase does *)

Definition op_query (lockee : string) (o : op) : query :=
  match o with
  | OPost _ key => QLock key lockee
  | ODelete _ key => QUnlock key lockee
  | OList => QList
  end.

Lemma op_query_request lockee o : op_request lockee o = query_request (op_query lockee o).
Proof. by destruct o. Qed.

(** A goroutine is where its role allows, on a key of its own. *)
Definition op_wf (ro : role) (o : op) : Prop :=
  match ro, o with
  | Writer w, (OPost _ key | ODelete _ key) => key ∈ w_keys w
  | Reader, OList => True
  | _, _ => False
  end.

Definition pc_wf (ro : role) (pc : wpc) : Prop :=
  match pc with
  | WLoop _ | WStopped => True
  | WAsk o | WSent o | WServed o _ | WReturned o _ | WCounted o _ | WAborting o | WErred o => op_wf ro o
  | WSampled i key _ => op_wf ro (OPost i key)
  end.

Definition label_elapsed (l : wlabel) : Z := match l with WStep _ elapsed => elapsed | _ => 0 end.
(** An action of a goroutine or on its request. *)
Definition is_step (l : wlabel) : bool := match l with WLate _ _ _ | WDeadline => false | _ => true end.
Definition is_cut (l : wlabel) : bool := match l with WGiveUp _ _ => true | _ => false end.

(** An outcome of a release or of a poll that is counted as an error. *)
Definition bad_answer (o : op) (st : Z) : bool :=
  match o with
  | OPost _ _ => false
  | ODelete _ _ => negb (st =? StatusOK) && negb (st =? StatusNotFound)
  | OList => negb (st =? StatusOK)
  end.

Definition is_post (o : op) : bool := match o with OPost _ _ => true | _ => false end.

Definition kept (m : metrics) : metrics := m.

(** [move l done ro pc pc' add f ab]: by label [l] a goroutine goes from [pc]
    to [pc'], adds [add] to the network, changes the metrics by [f] and, if
    [ab], aborts. *)
Inductive move (l : wlabel) (done : bool) (ro : role)
    : wpc -> wpc -> list request -> (metrics -> metrics) -> bool -> Prop :=
| mv_stop i : done = true -> move l done ro (WLoop i) WStopped [] kept false
| mv_start i o : done = false -> op_wf ro o -> (is_post o = true \/ o = OList) ->
    move l done ro (WLoop i) (WAsk o) [] kept false
| mv_send o : done = false -> move l done ro (WAsk o) (WSent o) [] kept false
| mv_reply o st : move l done ro (WServed o st) (WReturned o (Ok st)) [] kept false
| mv_unsent o e : is_cut l = true -> move l done ro (WAsk o) (WReturned o (Err e)) [] kept false
| mv_abandon o e : is_cut l = true ->
    move l done ro (WSent o) (WReturned o (Err e)) [op_request (role_lockee ro) o] kept false
| mv_lost o st e : is_cut l = true -> move l done ro (WServed o st) (WReturned o (Err e)) [] kept false
| mv_count o r : move l done ro (WReturned o r) (WCounted o r) [] add_total false
| mv_timeout o e : done = false -> move l done ro (WCounted o (Err e)) (WAborting o) [] kept false
| mv_err o e : move l done ro (WCounted o (Err e)) (WErred o) [] kept false
| mv_abort o : move l done ro (WAborting o) (WErred o) [] kept true
| mv_erred o : move l done ro (WErred o) (next_loop o) [] add_error false
| mv_sample i key st :
    move l done ro (WCounted (OPost i key) (Ok st)) (WSampled i key st) [] (offer (label_elapsed l)) false
| mv_conflict i key :
    move l done ro (WSampled i key StatusConflict) (WLoop (S i)) [] add_conflict false
| mv_granted i key : move l done ro (WSampled i key StatusOK) (WAsk (ODelete i key)) [] kept false
| mv_odd i key st : st <> StatusConflict -> st <> StatusOK ->
    move l done ro (WSampled i key st) (WLoop (S i)) [] add_error false
| mv_done o st : is_post o = false -> bad_answer o st = false ->
    move l done ro (WCounted o (Ok st)) (next_loop o) [] (offer (label_elapsed l)) false
| mv_bad o st : is_post o = false -> bad_answer o st = true ->
    move l done ro (WCounted o (Ok st)) (next_loop o) [] add_error false.

(** The request a label abandons. *)
Definition adds {St} (rs : list role) (l : wlabel) (p : phase St) : list request :=
  match l with
  | WGiveUp id _ =>
      match rs !! id, p_pcs p !! id with
      | Some ro, Some (WSent o) => [op_request (role_lockee ro) o]
      | _, _ => []
      end
  | _ => []
  end.

(** All requests that a run gives up on after they were sent. *)
Fixpoint abandoned {St} `{!LockService St} (rs : list role) (ls : list wlabel) (p : phase St) : list request :=
  match ls with
  | [] => []
  | l :: ls => adds rs l p ++ match phase_step rs l p with Some p' => abandoned rs ls p' | None => [] end
  end.

Section phases.
Context {St : Type} `{LSL : LockServiceLaws St} (rs : list role) (Hfleet : fleet_ok rs).
Implicit Types (p : phase St) (s : St).

Notation tab p := (ls_abs (p_srv p)).

Record base p : Prop := mkBase {
  b_srv : ls_inv (p_srv p);
  b_net : Forall client_request (p_net p);
  b_pcs : forall id pc, p_pcs p !! id = Some pc -> exists ro, rs !! id = Some ro /\ pc_wf ro pc
}.

Inductive effect (l : wlabel) p : phase St -> Prop :=
| eff_move id ro pc pc' add f ab :
    is_step l = true -> rs !! id = Some ro -> p_pcs p !! id = Some pc -> pc_wf ro pc -> pc_wf ro pc' ->
    move l (p_done p) ro pc pc' add f ab -> add = adds rs l p ->
    effect l p (mkPhase (p_srv p) (p_net p ++ add) (<[id := pc']> (p_pcs p)) (f (p_metrics p))
                  (p_done p || ab) (p_cause p || ab) (p_crashed p))
| eff_handle id ro o st s' :
    is_step l = true -> rs !! id = Some ro -> p_pcs p !! id = Some (WSent o) -> op_wf ro o -> ls_inv s' ->
    handled (tab p) (op_query (role_lockee ro) o) st (ls_abs s') ->
    effect l p (set_pc (set_srv p s') id (WServed o st))
| eff_late n q st s' :
    is_step l = false -> p_net p !! n = Some (query_request q) -> query_ok q -> ls_inv s' ->
    handled (tab p) q st (ls_abs s') ->
    effect l p (set_net (set_srv p s') (delete n (p_net p)))
| eff_deadline : is_step l = false -> effect l p (deadline p)
| eff_crash id w i :
    is_step l = true -> p_done p = false -> rs !! id = Some (Writer w) -> start_key w i = Err () -> effect l p (crash p).

Lemma start_key_Ok w i key : start_key w i = Ok key -> key ∈ w_keys w.
Proof.
  unfold start_key. destruct (w_keys w !! _) as [k|] eqn:E; intros ?; simplify_eq.
  by eapply list_elem_of_lookup_2.
Qed.

Lemma start_key_Err w i : start_key w i = Err () -> w_keys w = [].
Proof.
  unfold start_key. destruct (w_keys w !! _) eqn:E; [done|]. intros _.
  apply lookup_ge_None in E. destruct (w_keys w) as [|k ks]; [done|].
  pose proof (Nat.mod_upper_bound i (length (k :: ks)) ltac:(done)). lia.
Qed.

Lemma op_query_ok id ro o : rs !! id = Some ro -> op_wf ro o -> query_ok (op_query (role_lockee ro) o).
Proof using Hfleet.
  intros Hr Ho. pose proof (Forall_lookup_1 _ _ _ _ (fleet_roles _ Hfleet) Hr) as Hw.
  destruct ro as [w|], o; try done; cbn in *; rewrite Forall_forall in Hw; auto.
Qed.

(** The shape of the result of a move without network, counters or abort. *)
Lemma eff_plain l p id ro pc pc' :
  is_step l = true -> rs !! id = Some ro -> p_pcs p !! id = Some pc -> pc_wf ro pc -> pc_wf ro pc' ->
  move l (p_done p) ro pc pc' [] kept false -> adds rs l p = [] -> effect l p (set_pc p id pc').
Proof.
  intros Hl Hr Hp Hw Hw' Hm Ha. pose proof (eff_move l p id ro pc pc' [] _ _ Hl Hr Hp Hw Hw' Hm) as E.
  rewrite app_nil_r, !orb_false_r in E. by apply E.
Qed.

Lemma eff_counter l p id ro pc pc' f :
  is_step l = true -> rs !! id = Some ro -> p_pcs p !! id = Some pc -> pc_wf ro pc -> pc_wf ro pc' ->
  move l (p_done p) ro pc pc' [] f false -> adds rs l p = [] ->
  effect l p (set_pc (set_metrics p (f (p_metrics p))) id pc').
Proof.
  intros Hl Hr Hp Hw Hw' Hm Ha. pose proof (eff_move l p id ro pc pc' [] _ _ Hl Hr Hp Hw Hw' Hm) as E.
  rewrite app_nil_r, !orb_false_r in E. by apply E.
Qed.

Local Ltac by_plain :=
  eapply eff_plain; [done|eassumption|eassumption|eassumption| |solve [constructor; auto]|done]; try done.
Local Ltac by_counter f :=
  eapply (eff_counter _ _ _ _ _ _ f); [done|eassumption|eassumption|eassumption| | |done]; try done.

Lemma look_effect id elapsed ro o r p :
  rs !! id = Some ro -> p_pcs p !! id = Some (WCounted o r) -> op_wf ro o ->
  effect (WStep id elapsed) p (look id elapsed o r p).
Proof.
  intros Hr Hp Hw. unfold look. destruct r as [st|e].
  - destruct o as [i key|i key|].
    + by_counter (offer elapsed). apply (mv_sample (WStep id elapsed)).
    + destruct (negb _ && _) eqn:Eb; [by_counter add_error; by apply mv_bad|].
      by_counter (offer elapsed). by apply (mv_done (WStep id elapsed)).
    + destruct (negb _) eqn:Eb; [by_counter add_error; by apply mv_bad|].
      by_counter (offer elapsed). by apply (mv_done (WStep id elapsed)).
  - destruct (p_done p) eqn:Hd; cbn [negb andb]; [by_plain|]. destruct (isTimeout _); by_plain.
Qed.

Lemma goroutine_step_effect id elapsed ro pc p p' :
  rs !! id = Some ro -> p_pcs p !! id = Some pc -> pc_wf ro pc ->
  goroutine_step id elapsed ro pc p = Some p' -> effect (WStep id elapsed) p p'.
Proof.
  intros Hr Hp Hw H. destruct pc as [i|o|o|o st|o r|o r|o|o|i key st|]; cbn [goroutine_step] in H; try done.
  - destruct (p_done p) eqn:Hd; simplify_eq; [by_plain|].
    destruct ro as [w|]; [|simplify_eq; by_plain].
    destruct (start_key w i) as [key|[]] eqn:Hk; simplify_eq; [|by eapply eff_crash].
    pose proof (start_key_Ok _ _ _ Hk). by_plain.
  - destruct (p_done p) eqn:Hd; simplify_eq. by_plain.
  - simplify_eq. by_counter add_total. constructor.
  - simplify_eq. by apply (look_effect _ _ ro).
  - simplify_eq. pose proof (eff_move (WStep id elapsed) p id ro _ (WErred o) [] _ _ eq_refl Hr Hp Hw Hw (mv_abort _ _ _ _)) as E.
    rewrite app_nil_r, !orb_true_r in E. by apply E.
  - simplify_eq. by_counter add_error; [by destruct o|constructor].
  - simplify_eq. unfold switch. destruct (Z.eqb_spec st StatusConflict) as [->|Hc].
    { by_counter add_conflict. constructor. }
    destruct (Z.eqb_spec st StatusOK) as [->|Ho]; [by_plain|].
    by_counter add_error. by constructor.
Qed.

Lemma phase_step_effect l p p' : base p -> phase_step rs l p = Some p' -> effect l p p'.
Proof using Hfleet.
  intros [Hi Hn Hwf] H. unfold phase_step in H. destruct (p_crashed p); [done|].
  assert (forall id ro pc, rs !! id = Some ro -> p_pcs p !! id = Some pc -> pc_wf ro pc) as Hpc.
  { intros id ro pc Hr Hp. destruct (Hwf _ _ Hp) as (ro' & Hr' & ?). by simplify_eq. }
  destruct l as [id elapsed|id now it|id|id e|n now it|].
  - destruct (rs !! id) as [ro|] eqn:Hr; [|done]. destruct (p_pcs p !! id) as [pc|] eqn:Hp; [|done].
    eapply goroutine_step_effect; eauto.
  - destruct (rs !! id) as [ro|] eqn:Hr; [|done]. destruct (p_pcs p !! id) as [pc|] eqn:Hp; [|done].
    specialize (Hpc _ _ _ Hr Hp). destruct pc as [| |o| | | | | | |]; try done. cbn [mbind option_bind] in H.
    rewrite op_query_request in H.
    destruct (serve_query now it _ (p_srv p) Hi (op_query_ok _ _ _ Hr Hpc)) as (resp & s' & E & Hi' & Hh).
    rewrite E in H. cbn in H. simplify_eq. by eapply eff_handle.
  - destruct (p_pcs p !! id) as [pc|] eqn:Hp; [|done]. destruct (Hwf _ _ Hp) as (ro & Hr & Hw).
    destruct pc; try done. cbn in H. simplify_eq. by_plain.
  - destruct (rs !! id) as [ro|] eqn:Hr; [|done]. destruct (p_pcs p !! id) as [pc|] eqn:Hp; [|done].
    specialize (Hpc _ _ _ Hr Hp). cbn [mbind option_bind] in H.
    destruct pc as [|o|o|o st| | | | | |]; try done; cbn in H; simplify_eq.
    + eapply eff_plain; [done..|by constructor|]. cbn. by rewrite Hr, Hp.
    + pose proof (eff_move (WGiveUp id e) p id ro _ (WReturned o (Err e)) _ _ _ eq_refl Hr Hp Hpc Hpc
        (mv_abandon (WGiveUp id e) (p_done p) ro o e eq_refl)) as E.
      rewrite !orb_false_r in E. apply E. cbn. by rewrite Hr, Hp.
    + eapply eff_plain; [done..|by constructor|]. cbn. by rewrite Hr, Hp.
  - destruct (p_net p !! n) as [r|] eqn:Hr; [|done]. cbn [mbind option_bind] in H.
    destruct (Forall_lookup_1 _ _ _ _ Hn Hr) as (q & Hq & ->).
    destruct (serve_query now it q (p_srv p) Hi Hq) as (resp & s' & E & Hi' & Hh).
    rewrite E in H. cbn in H. simplify_eq. by eapply eff_late.
  - simplify_eq. by constructor.
Qed.

(** A property of every goroutine, after one of them has moved. *)
Lemma pcs_update (P Q : nat -> role -> wpc -> Prop) (pcs : gmap nat wpc) id ro pc' :
  (forall x pc, pcs !! x = Some pc -> exists r, rs !! x = Some r /\ P x r pc) ->
  (forall x r pc, x <> id -> rs !! x = Some r -> P x r pc -> Q x r pc) ->
  rs !! id = Some ro -> Q id ro pc' ->
  forall x pc, <[id := pc']> pcs !! x = Some pc -> exists r, rs !! x = Some r /\ Q x r pc.
Proof.
  intros HP HPQ Hr HQ x pc. rewrite lookup_insert. case_decide as Hx; intros ?; simplify_eq; [eauto|].
  destruct (HP x pc ltac:(done)) as (r & ? & ?). eauto.
Qed.

Lemma adds_client l p : base p -> Forall client_request (adds rs l p).
Proof using Hfleet.
  intros Hb. destruct l; try done. cbn. destruct (rs !! id) as [ro|] eqn:Hr; [|done].
  destruct (p_pcs p !! id) as [pc|] eqn:Hp; [|done]. destruct pc; try done.
  destruct (b_pcs _ Hb _ _ Hp) as (ro' & Hr' & Hw). simplify_eq.
  apply Forall_singleton. eexists. split; [by eapply op_query_ok|]. apply op_query_request.
Qed.

Lemma base_effect l p p' : base p -> effect l p p' -> base p'.
Proof using Hfleet.
  intros Hb He. pose proof (adds_client l p Hb) as Ha. destruct Hb as [Hi Hn Hwf].
  destruct He as [id ro pc pc' add f ab Hl Hr Hp Hw Hw' Hm ->|id ro o st s' Hl Hr Hp Hw Hi' Hh
    |n q st s' Hl Hq Hok Hi' Hh| |id w i Hl Hd Hr Hk]; split; cbn; try done.
  - by apply Forall_app.
  - by eapply (pcs_update (fun _ => pc_wf) (fun _ => pc_wf)).
  - by eapply (pcs_update (fun _ => pc_wf) (fun _ => pc_wf)).
  - by apply Forall_delete.
Qed.

Lemma phase_start_pcs s net m id pc :
  p_pcs (phase_start rs s net m) !! id = Some pc -> exists ro, rs !! id = Some ro /\ pc = WLoop 0.
Proof.
  cbn. rewrite lookup_map_seq_0, list_lookup_fmap. destruct (rs !! id) as [ro|]; [|done].
  cbn. intros [= <-]. eauto.
Qed.

Lemma phase_start_base s net m :
  ls_inv s -> Forall client_request net -> base (phase_start rs s net m).
Proof.
  intros Hi Hn. split; [done..|]. intros id pc Hp. apply phase_start_pcs in Hp as (ro & Hr & ->). by exists ro.
Qed.

(** ** Invariants along a run *)

(** [Q] holds of every action and the state in which it is taken. *)
Fixpoint along (Q : wlabel -> phase St -> Prop) (ls : list wlabel) p : Prop :=
  match ls with
  | [] => True
  | l :: ls => Q l p /\ forall p', phase_step rs l p = Some p' -> along Q ls p'
  end.

Lemma along_all (Q : wlabel -> phase St -> Prop) ls p : (forall l p, Q l p) -> along Q ls p.
Proof. intros H. revert p. induction ls; cbn; auto. Qed.

Lemma along_Forall (Q : wlabel -> Prop) ls p : Forall Q ls -> along (fun l _ => Q l) ls p.
Proof. intros H. revert p. induction H; cbn; auto. Qed.

Lemma along_and (Q R : wlabel -> phase St -> Prop) ls p :
  along Q ls p -> along R ls p -> along (fun l p => Q l p /\ R l p) ls p.
Proof. revert p. induction ls as [|l ls IH]; intros p; cbn; [done|].
  intros [? H1] [? H2]. split; [done|]. intros p' E. auto.
Qed.

Lemma phase_run_inv (I : phase St -> Prop) (Q : wlabel -> phase St -> Prop) ls p p' :
  (forall l p p', Q l p -> base p -> I p -> effect l p p' -> I p') ->
  along Q ls p -> base p -> I p -> phase_run rs ls p = Some p' -> base p' /\ I p'.
Proof using Hfleet.
  intros Hstep. revert p. induction ls as [|l ls IH]; intros p Hq Hb HI H; cbn in H; [by simplify_eq|].
  destruct Hq as [Hl Hls].
  destruct (phase_step rs l p) as [p1|] eqn:E; [|done]. cbn in H.
  pose proof (phase_step_effect _ _ _ Hb E). eapply (IH p1); eauto using base_effect.
Qed.

(** An invariant that holds whatever happens. *)
Lemma phase_inv (I : phase St -> Prop) ls p p' :
  (forall l p p', base p -> I p -> effect l p p' -> I p') ->
  base p -> I p -> phase_run rs ls p = Some p' -> base p' /\ I p'.
Proof using Hfleet.
  intros Hstep Hb HI H. eapply (phase_run_inv I (fun _ _ => True)); eauto. by apply along_all.
Qed.

(** ** The answers a goroutine can see *)

Definition pc_answer (pc : wpc) : Prop :=
  match pc with
  | WServed o st | WReturned o (Ok st) | WCounted o (Ok st) => query_answer (op_query "" o) st
  | WSampled i key st => query_answer (QLock key "") st
  | _ => True
  end.

Definition answers_ok p : Prop := map_Forall (fun _ pc => pc_answer pc) (p_pcs p).

Lemma move_answer l d ro pc pc' add f ab :
  move l d ro pc pc' add f ab -> pc_answer pc -> pc_answer pc'.
Proof. destruct 1; cbn; try done; by destruct o. Qed.

Lemma answers_ok_effect l p p' : base p -> answers_ok p -> effect l p p' -> answers_ok p'.
Proof.
  intros _ Ha He. destruct He as [id ro pc pc' add f ab Hl Hr Hp Hw Hw' Hm ->|id ro o st s' Hl Hr Hp Hw Hi' Hh
    |n q st s' Hl Hq Hok Hi' Hh| |id w i Hl Hd Hr Hk]; try done; apply map_Forall_insert_2; try done.
  - eapply move_answer; [done|]. by apply (Ha id).
  - apply handled_answer in Hh. by destruct o.
Qed.

Lemma phase_start_answers s net m : answers_ok (phase_start rs s net m).
Proof. intros id pc Hp. by apply phase_start_pcs in Hp as (ro & _ & ->). Qed.

(** ** A granted lock is held until it is given back *)

(** The key a goroutine has been granted and whose unlock is not handled. *)
Definition granted (pc : wpc) : option string :=
  match pc with
  | WServed (OPost _ key) st | WReturned (OPost _ key) (Ok st)
  | WCounted (OPost _ key) (Ok st) | WSampled _ key st => if st =? StatusOK then Some key else None
  | WAsk (ODelete _ key) | WSent (ODelete _ key) => Some key
  | _ => None
  end.

(** The status of an answered unlock of [key]. *)
Definition unlock_answer (key : string) (pc : wpc) : option Z :=
  match pc with
  | WServed (ODelete _ k) st | WReturned (ODelete _ k) (Ok st) | WCounted (ODelete _ k) (Ok st) =>
      if String.eqb k key then Some st else None
  | _ => None
  end.

Lemma move_granted l d ro pc pc' add f ab :
  move l d ro pc pc' add f ab -> granted pc' = granted pc \/ granted pc' = None.
Proof.
  destruct 1 as [| |o|o st|o e|o e|o st e|o r|o e|o e|o|o|i key st|i key|i key|i key st|o st|o st];
    cbn; auto; try (destruct o; by auto); try done.
  destruct o; auto. by destruct H1.
Qed.

Lemma move_unlock_answer key l d ro pc pc' add f ab :
  move l d ro pc pc' add f ab ->
  unlock_answer key pc' = unlock_answer key pc \/ unlock_answer key pc' = None.
Proof.
  destruct 1 as [| |o|o st|o e|o e|o st e|o r|o e|o e|o|o|i k st|i k|i k|i k st|o st|o st];
    cbn; auto; try (destruct o; by auto).
Qed.

(** Worker [id], lockee [lockee], has [key] for as long as it was granted, and
    its unlocks of [key] succeed. *)
Definition keeps_key (key lockee : string) p (pc : wpc) : Prop :=
  (granted pc = Some key -> holds (tab p) key lockee) /\
  (forall st, unlock_answer key pc = Some st -> st = StatusOK).

Definition secure (id : nat) (key lockee : string) p : Prop :=
  deleteLock key lockee ∉ p_net p /\
  forall pc, p_pcs p !! id = Some pc -> keeps_key key lockee p pc.

(** A request of another goroutine or a late one leaves the lock alone. *)
Lemma keeps_key_handled q st key lockee p (p' : phase St) pc :
  handled (tab p) q st (tab p') -> q <> QUnlock key lockee ->
  keeps_key key lockee p pc -> keeps_key key lockee p' pc.
Proof. intros Hh Hq [Hg Hu]. split; [|done]. intros E. eapply handled_holds; eauto. Qed.

(** The goroutine's own request. *)
Lemma keeps_key_served o st key w p (p' : phase St) :
  handled (tab p) (op_query (w_lockee w) o) st (tab p') ->
  keeps_key key (w_lockee w) p (WSent o) -> keeps_key key (w_lockee w) p' (WServed o st).
Proof.
  intros Hh [Hg Hu]. destruct o as [i k|i k|]; split; cbn; try done.
  - destruct (Z.eqb_spec st StatusOK) as [->|]; [|done]. intros [= ->]. by eapply handled_granted.
  - intros st'. destruct (String.eqb_spec k key) as [->|]; [|done]. intros [= <-].
    by apply (handled_release _ _ _ _ _ Hh), Hg.
Qed.

Lemma secure_effect id w key l p p' :
  rs !! id = Some (Writer w) -> deleteLock key (w_lockee w) ∉ adds rs l p ->
  base p -> secure id key (w_lockee w) p -> effect l p p' -> secure id key (w_lockee w) p'.
Proof using Hfleet.
  intros Hr Hadd Hb [Hn Hs] He. destruct He as
    [id' ro pc pc' add f ab Hl Hr' Hp Hw Hw' Hm ->|id' ro o st s' Hl Hr' Hp Hw Hi' Hh
    |n q st s' Hl Hq Hok Hi' Hh| |id' w' i Hl Hd Hr' Hk]; split; cbn [p_net p_pcs set_pc set_srv set_net crash deadline]; try done.
  - by rewrite elem_of_app; intros [|].
  - intros pc1. rewrite lookup_insert. case_decide as Hd; [|by apply Hs]. intros [= <-]. subst id'.
    destruct (Hs pc Hp) as [Hg Hu]. split.
    + destruct (move_granted _ _ _ _ _ _ _ _ Hm) as [->| ->]; [done|done].
    + destruct (move_unlock_answer key _ _ _ _ _ _ _ _ Hm) as [->| ->]; done.
  - intros pc1. rewrite lookup_insert. case_decide as Hd; intros Hpc; simplify_eq.
    + eapply keeps_key_served; [exact Hh|by apply Hs].
    + eapply (keeps_key_handled (op_query (role_lockee ro) o) st key _ p); [done| |by apply Hs].
      intros Eq. destruct ro as [w'|], o; try done. cbn in Eq. simplify_eq.
      apply Hd. by eapply (fleet_lockees _ Hfleet).
  - intros Hin. apply Hn. rewrite (delete_Permutation _ _ _ Hq). by right.
  - intros pc Hpc. eapply (keeps_key_handled q st key _ p); [done| |by apply Hs].
    intros ->. apply Hn. by eapply list_elem_of_lookup_2.
Qed.

Lemma along_abandoned (r : request) ls p :
  r ∉ abandoned rs ls p -> along (fun l p => r ∉ adds rs l p) ls p.
Proof.
  revert p. induction ls as [|l ls IH]; intros p; cbn; [done|]. rewrite elem_of_app. intros Hn.
  split; [by auto|]. intros p' E. apply IH. intros Hin. apply Hn. right. by rewrite E.
Qed.

Lemma secure_run id w key ls s net m p :
  rs !! id = Some (Writer w) -> ls_inv s -> Forall client_request net ->
  deleteLock key (w_lockee w) ∉ net ++ abandoned rs ls (phase_start rs s net m) ->
  phase_run rs ls (phase_start rs s net m) = Some p ->
  secure id key (w_lockee w) p.
Proof using Hfleet.
  intros Hr Hi Hn Hnot Hrun. rewrite elem_of_app in Hnot.
  eapply (phase_run_inv (secure id key (w_lockee w))
    (fun l p => deleteLock key (w_lockee w) ∉ adds rs l p) ls (phase_start rs s net m)); [| | | |done].
  - intros l p1 p2 Ha Hb Hs He. by eapply secure_effect.
  - apply along_abandoned. auto.
  - by apply phase_start_base.
  - split; [cbn; auto|]. intros pc Hp. by apply phase_start_pcs in Hp as (ro & _ & ->).
Qed.

(** ** Partitioned keys *)

(** A lock request for a key of a worker that comes from this worker. *)
Definition own_query (q : query) : Prop :=
  match q with
  | QLock key lockee => forall id w, rs !! id = Some (Writer w) -> key ∈ w_keys w -> lockee = w_lockee w
  | _ => True
  end.

Definition own_request (r : request) : Prop := exists q, query_ok q /\ own_query q /\ r = query_request q.

Definition own_table (t : table) : Prop :=
  forall id w k h, rs !! id = Some (Writer w) -> k ∈ w_keys w -> t !! k = Some h ->
    h_lockee h = w_lockee w.

(** The lock request of this goroutine was refused. *)
Definition refused (pc : wpc) : bool :=
  match pc with
  | WServed (OPost _ _) st | WReturned (OPost _ _) (Ok st)
  | WCounted (OPost _ _) (Ok st) | WSampled _ _ st => st =? StatusConflict
  | _ => false
  end.

Record apart p : Prop := mkApart {
  ap_table : own_table (tab p);
  ap_net : Forall own_request (p_net p);
  ap_conflicts : m_conflicts (p_metrics p) = 0;
  ap_pcs : map_Forall (fun _ pc => refused pc = false) (p_pcs p)
}.

Lemma op_query_own id ro o :
  partitioned rs -> rs !! id = Some ro -> op_wf ro o -> own_query (op_query (role_lockee ro) o).
Proof.
  intros Hpart Hr Hw. destruct ro as [w|], o as [i key|i key|]; try done.
  intros id' w' Hr' Hk'. cbn in Hw. destruct (Hpart _ _ _ _ _ Hr Hr' Hw Hk'). by simplify_eq.
Qed.

Lemma own_table_handled t q st t' : own_table t -> own_query q -> handled t q st t' -> own_table t'.
Proof.
  intros Ht Hq Hh id w k h Hr Hk Hl.
  destruct (handled_new _ _ _ _ _ _ Hh Hl) as [Hl'|[_ ->]]; eauto.
Qed.

(** On its own keys a writer is always granted the lock. *)
Lemma own_lock_granted t id w key st t' :
  own_table t -> rs !! id = Some (Writer w) -> key ∈ w_keys w ->
  handled t (QLock key (w_lockee w)) st t' -> st = StatusOK.
Proof.
  intros Ht Hr Hk Hh. inversion Hh as [now k l ok t1 Ha| |]; subst. destruct ok; [done|].
  apply spec_acquire_refused in Ha as (_ & _ & h & Hl & Hne). by destruct Hne; eapply Ht.
Qed.

Lemma move_refused l d ro pc pc' add f ab :
  move l d ro pc pc' add f ab -> refused pc = false -> refused pc' = false.
Proof. destruct 1; cbn; try done; by destruct o. Qed.

Lemma offer_conflicts ns m : m_conflicts (offer ns m) = m_conflicts m.
Proof. unfold offer. by destruct (_ <? _). Qed.

Lemma move_conflicts l d ro pc pc' add f ab m :
  move l d ro pc pc' add f ab -> refused pc = false -> m_conflicts (f m) = m_conflicts m.
Proof. destruct 1; cbn; try done; intros _; apply offer_conflicts. Qed.

Lemma adds_own l p : partitioned rs -> base p -> Forall own_request (adds rs l p).
Proof using Hfleet.
  intros Hpart Hb. destruct l; try done. cbn. destruct (rs !! id) as [ro|] eqn:Hr; [|done].
  destruct (p_pcs p !! id) as [pc|] eqn:Hp; [|done]. destruct pc; try done.
  destruct (b_pcs _ Hb _ _ Hp) as (ro' & Hr' & Hw). simplify_eq.
  apply Forall_singleton. exists (op_query (role_lockee ro) o).
  split_and!; [by eapply op_query_ok|by eapply op_query_own|apply op_query_request].
Qed.

Lemma apart_effect l p p' : partitioned rs -> base p -> apart p -> effect l p p' -> apart p'.
Proof using Hfleet.
  intros Hpart Hb [Ht Hn Hc Hpcs] He. pose proof (adds_own l p Hpart Hb) as Ha. destruct He as
    [id ro pc pc' add f ab Hl Hr Hp Hw Hw' Hm ->|id ro o st s' Hl Hr Hp Hw Hi' Hh
    |n q st s' Hl Hq Hok Hi' Hh| |id w i Hl Hd Hr Hk]; try done.
  - split; cbn; [done|by apply Forall_app| |].
    + rewrite (move_conflicts _ _ _ _ _ _ _ _ _ Hm); [done|]. by apply (Hpcs id).
    + apply map_Forall_insert_2; [|done]. eapply move_refused; [done|]. by apply (Hpcs id).
  - split; cbn; [|done..|].
    + eapply own_table_handled; [done|by eapply op_query_own|done].
    + apply map_Forall_insert_2; [|done]. destruct ro as [w|], o as [i key|i key|]; try done.
      by rewrite (own_lock_granted _ _ _ _ _ _ Ht Hr Hw Hh).
  - split; cbn; [|by apply Forall_delete|done..].
    destruct (Forall_lookup_1 _ _ _ _ Hn Hq) as (q' & Hok' & Hown & E).
    apply query_request_inj in E as <-; [|done..]. by eapply own_table_handled.
Qed.

Lemma apart_run ls s net p :
  partitioned rs -> ls_inv s -> Forall own_request net -> own_table (ls_abs s) ->
  phase_run rs ls (phase_start rs s net no_metrics) = Some p -> apart p.
Proof using Hfleet.
  intros Hpart Hi Hn Hown Hrun.
  apply (phase_inv apart ls (phase_start rs s net no_metrics) p); eauto using apart_effect.
  - apply phase_start_base; [done|]. eapply Forall_impl; [done|]. intros r (q & ? & _ & ?). by exists q.
  - split; [done..|]. intros id pc Hp. by apply phase_start_pcs in Hp as (ro & _ & ->).
Qed.

(** ** A lock of somebody else *)

(** The lock [h] on [key] belongs to none of the workers and none of the
    requests in the network gives it back. *)
Definition foreign (lockee : string) : Prop := forall id w, rs !! id = Some (Writer w) -> w_lockee w <> lockee.

Definition spares (key lockee : string) (r : request) : Prop :=
  exists q, query_ok q /\ q <> QUnlock key lockee /\ r = query_request q.

Record blocked (key : string) (h : hold) p : Prop := mkBlocked {
  bk_held : tab p !! key = Some h;
  bk_net : Forall (spares key (h_lockee h)) (p_net p);
  bk_pcs : map_Forall (fun _ pc => granted pc <> Some key) (p_pcs p)
}.

Lemma foreign_query lockee id ro o key :
  foreign lockee -> rs !! id = Some ro -> op_wf ro o -> op_query (role_lockee ro) o <> QUnlock key lockee.
Proof.
  intros Hf Hr Hw. destruct ro as [w|], o; try done. cbn. intros [= -> E]. by eapply Hf.
Qed.

Lemma adds_spares key lockee l p : foreign lockee -> base p -> Forall (spares key lockee) (adds rs l p).
Proof using Hfleet.
  intros Hf Hb. destruct l; try done. cbn. destruct (rs !! id) as [ro|] eqn:Hr; [|done].
  destruct (p_pcs p !! id) as [pc|] eqn:Hp; [|done]. destruct pc; try done.
  destruct (b_pcs _ Hb _ _ Hp) as (ro' & Hr' & Hw). simplify_eq.
  apply Forall_singleton. exists (op_query (role_lockee ro) o).
  split_and!; [by eapply op_query_ok|by eapply foreign_query|apply op_query_request].
Qed.

Lemma blocked_effect key h l p p' :
  foreign (h_lockee h) -> base p -> blocked key h p -> effect l p p' -> blocked key h p'.
Proof using Hfleet.
  intros Hf Hb [Hk Hn Hpcs] He. pose proof (adds_spares key _ l p Hf Hb) as Ha. destruct He as
    [id ro pc pc' add f ab Hl Hr Hp Hw Hw' Hm ->|id ro o st s' Hl Hr Hp Hw Hi' Hh
    |n q st s' Hl Hq Hok Hi' Hh| |id w i Hl Hd Hr Hkey]; try done.
  - split; cbn; [done|by apply Forall_app|]. apply map_Forall_insert_2; [|done].
    destruct (move_granted _ _ _ _ _ _ _ _ Hm) as [->| ->]; [|done]. by apply (Hpcs id).
  - split; cbn; [|done|].
    + eapply handled_keeps; [done..|]. by eapply foreign_query.
    + apply map_Forall_insert_2; [|done]. destruct ro as [w|], o as [i k|i k|]; cbn; try done.
      destruct (Z.eqb_spec st StatusOK) as [->|]; [|done]. intros [= ->].
      apply (Hf _ _ Hr). inversion Hh as [now k' l' ok t1 Hac| |]; subst. destruct ok; [|done].
      destruct (decide (h_lockee h = w_lockee w)) as [|Hne]; [done|].
      by rewrite (spec_acquire_taken _ _ _ _ _ _ Hk Hne) in Hac.
  - destruct (Forall_lookup_1 _ _ _ _ Hn Hq) as (q' & Hok' & Hsp & E).
    apply query_request_inj in E as <-; [|done..].
    split; cbn; [by eapply handled_keeps|by apply Forall_delete|done].
Qed.

Lemma blocked_run key h ls s net m p :
  foreign (h_lockee h) -> ls_inv s -> Forall client_request net ->
  ls_abs s !! key = Some h -> deleteLock key (h_lockee h) ∉ net ->
  phase_run rs ls (phase_start rs s net m) = Some p -> blocked key h p /\ answers_ok p.
Proof using Hfleet.
  intros Hf Hi Hn Hk Hnot Hrun.
  apply (phase_inv (fun p => blocked key h p /\ answers_ok p) ls (phase_start rs s net m) p); [| | |done].
  - intros l p1 p2 Hb [H1 H2] He. split; [by eapply blocked_effect|by eapply answers_ok_effect].
  - by apply phase_start_base.
  - split; [|apply phase_start_answers]. split; [done| |].
    + apply Forall_forall. intros r Hr. rewrite Forall_forall in Hn. destruct (Hn r Hr) as (q & Hq & ->).
      exists q. split_and!; [done| |done]. by intros ->.
    + intros id pc Hp. by apply phase_start_pcs in Hp as (ro & _ & ->).
Qed.

(** ** Accounting *)

(** Between [total.Add] and the sample or [errors.Add]; between the sample and
    [conflicts.Add]. *)
Definition owing (pc : wpc) : nat :=
  match pc with WCounted _ _ | WAborting _ | WErred _ => 1 | _ => 0 end.
Definition unsettled (pc : wpc) : nat :=
  match pc with WSampled _ _ st => if st =? StatusConflict then 1 else 0 | _ => 0 end.

Record counters p : Prop := mkCounters {
  ct_errors : 0 <= m_errors (p_metrics p);
  ct_conflicts : 0 <= m_conflicts (p_metrics p);
  ct_total : m_errors (p_metrics p) + m_conflicts (p_metrics p)
             + Z.of_nat (total owing (p_pcs p)) + Z.of_nat (total unsettled (p_pcs p))
             <= m_total (p_metrics p);
  ct_samples : Z.of_nat (length (m_latencies (p_metrics p))) =
               Z.min latency_capacity
                 (m_total (p_metrics p) - m_errors (p_metrics p) - Z.of_nat (total owing (p_pcs p)))
}.

Lemma length_offer x m :
  Z.of_nat (length (m_latencies (offer x m))) =
  if Z.of_nat (length (m_latencies m)) <? latency_capacity
  then Z.of_nat (length (m_latencies m)) + 1 else Z.of_nat (length (m_latencies m)).
Proof. unfold offer. destruct (_ <? _); cbn; [rewrite length_app; cbn; lia|done]. Qed.

Lemma offer_counters x m :
  m_errors (offer x m) = m_errors m /\ m_conflicts (offer x m) = m_conflicts m /\
  m_total (offer x m) = m_total m.
Proof. unfold offer. by destruct (_ <? _). Qed.

Lemma next_loop_idle o : owing (next_loop o) = 0%nat /\ unsettled (next_loop o) = 0%nat.
Proof. by destruct o. Qed.

Lemma counters_move l p id ro pc pc' add f ab :
  answers_ok p -> p_pcs p !! id = Some pc -> move l (p_done p) ro pc pc' add f ab -> counters p ->
  counters (mkPhase (p_srv p) (p_net p ++ add) (<[id := pc']> (p_pcs p)) (f (p_metrics p))
              (p_done p || ab) (p_cause p || ab) (p_crashed p)).
Proof.
  intros Han Hp Hm [He Hc Ht Hs]. specialize (Han _ _ Hp). cbn in Han.
  pose proof (total_insert owing _ _ _ pc' Hp) as T1. pose proof (total_insert unsettled _ _ _ pc' Hp) as T2.
  unfold latency_capacity in Hs.
  destruct Hm as [| |o|o st|o e|o e|o st e|o r|o e|o e|o|o|i key st|i key|i key|i key st|o st|o st];
    try destruct (next_loop_idle o) as [N1 N2]; rewrite ?N1, ?N2 in T1, T2; cbn in T1, T2;
    try destruct (offer_counters (label_elapsed l) (p_metrics p)) as (O1 & O2 & O3);
    split; cbn; unfold kept; rewrite ?O1, ?O2, ?O3, ?length_offer; unfold latency_capacity; try lia.
  all: try (destruct (st =? StatusConflict); lia).
  all: try (destruct (_ <? 2 ^ 20) eqn:?; lia).
  all: destruct Han; lia.
Qed.

Lemma counters_effect l p p' :
  base p -> answers_ok p -> counters p -> effect l p p' -> counters p'.
Proof.
  intros Hb Han Hc He. destruct He as
    [id ro pc pc' add f ab Hl Hr Hp Hw Hw' Hm ->|id ro o st s' Hl Hr Hp Hw Hi' Hh
    |n q st s' Hl Hq Hok Hi' Hh| |id w i Hl Hd Hr Hkey]; try (by destruct Hc; split).
  - by eapply counters_move.
  - pose proof (total_insert owing _ _ _ (WServed o st) Hp) as T1.
    pose proof (total_insert unsettled _ _ _ (WServed o st) Hp) as T2. cbn in T1, T2.
    destruct Hc as [? ? ? ?]. split; cbn; try done; lia.
Qed.

Lemma phase_start_counters s net : counters (phase_start rs s net no_metrics).
Proof.
  assert (forall f : wpc -> nat, f (WLoop 0) = 0%nat ->
    total f (p_pcs (phase_start rs s net no_metrics)) = 0%nat) as Hz.
  { intros f Hf. apply weigh_zero. intros id pc Hp. by apply phase_start_pcs in Hp as (ro & _ & ->). }
  split; [done..| |]; rewrite !Hz by done; [done|]. cbn. done.
Qed.

Lemma counters_run ls s net p :
  ls_inv s -> Forall client_request net ->
  phase_run rs ls (phase_start rs s net no_metrics) = Some p -> counters p.
Proof using Hfleet.
  intros Hi Hn Hrun.
  apply (phase_inv (fun p => answers_ok p /\ counters p) ls (phase_start rs s net no_metrics) p); [| | |done].
  - intros l p1 p2 Hb [H1 H2] He. split; [by eapply answers_ok_effect|by eapply counters_effect].
  - by apply phase_start_base.
  - split; [apply phase_start_answers|apply phase_start_counters].
Qed.

(** ** Winding down *)

(** Actions a goroutine has left once its context has ended. *)
Definition wrank (pc : wpc) : nat :=
  match pc with
  | WSent o => if is_post o then 10 else 6
  | WServed o _ | WAsk o => if is_post o then 9 else 5
  | WReturned o _ => if is_post o then 8 else 4
  | WCounted o _ => if is_post o then 7 else 3
  | WSampled _ _ _ => 6
  | WAborting _ => 3
  | WErred _ => 2
  | WLoop _ => 1
  | WStopped => 0
  end.

Lemma wrank_le pc : (wrank pc <= 10)%nat.
Proof. destruct pc as [|o|o|o st|o r|o r|o|o|i key st|]; cbn; try destruct (is_post o); lia. Qed.

Lemma move_rank l ro pc pc' add f ab : move l true ro pc pc' add f ab -> (wrank pc' < wrank pc)%nat.
Proof. destruct 1; cbn; try done; try (destruct o; cbn in *; lia); lia. Qed.

Lemma effect_done l p p' : effect l p p' -> p_done p = true -> p_done p' = true.
Proof. destruct 1; cbn; try done. by intros ->. Qed.

Lemma effect_rank l p p' :
  p_done p = true -> effect l p p' ->
  ((if is_step l then 1 else 0) + total wrank (p_pcs p') <= total wrank (p_pcs p))%nat.
Proof.
  intros Hd He. destruct He as
    [id ro pc pc' add f ab Hl Hr Hp Hw Hw' Hm ->|id ro o st s' Hl Hr Hp Hw Hi' Hh
    |n q st s' Hl Hq Hok Hi' Hh|Hl|id w i Hl Hd' Hr Hkey]; rewrite Hl; cbn; try lia; [| |congruence].
  - rewrite Hd in Hm. apply move_rank in Hm. pose proof (total_insert wrank _ _ _ pc' Hp). lia.
  - pose proof (total_insert wrank _ _ _ (WServed o st) Hp) as T. cbn in T. destruct (is_post o); lia.
Qed.

(** The goroutines' actions in a schedule. *)
Definition steps_of (ls : list wlabel) : nat := length (filter (fun l => is_step l = true) ls).

Lemma steps_of_cons l ls : steps_of (l :: ls) = ((if is_step l then 1 else 0) + steps_of ls)%nat.
Proof. unfold steps_of. rewrite filter_cons. by destruct (is_step l). Qed.

Lemma winds_down ls p p' :
  base p -> p_done p = true -> phase_run rs ls p = Some p' ->
  (steps_of ls + total wrank (p_pcs p') <= total wrank (p_pcs p))%nat.
Proof using Hfleet.
  revert p. induction ls as [|l ls IH]; intros p Hb Hd H; cbn in H; [simplify_eq; cbn; lia|].
  destruct (phase_step rs l p) as [p1|] eqn:E; [|done]. cbn in H.
  pose proof (phase_step_effect _ _ _ Hb E) as He. pose proof (effect_rank _ _ _ Hd He).
  pose proof (IH p1 (base_effect _ _ _ Hb He) (effect_done _ _ _ He Hd) H).
  rewrite steps_of_cons. lia.
Qed.

(** ** A goroutine that has not stopped can act *)

(** Its next action when nothing goes wrong. *)
Definition next_label p (id : nat) : wlabel :=
  match p_pcs p !! id with
  | Some (WSent _) => WHandle id 0 insertion_order
  | Some (WServed _ _) => WReply id
  | Some (WAsk _) => if p_done p then WGiveUp id ErrCanceled else WStep id 0
  | _ => WStep id 0
  end.

Lemma next_label_step p id : is_step (next_label p id) = true.
Proof. unfold next_label. repeat case_match; done. Qed.

Lemma can_act p id pc :
  base p -> p_crashed p = false -> p_done p = true \/ armed rs ->
  p_pcs p !! id = Some pc -> pc <> WStopped ->
  exists p', phase_step rs (next_label p id) p = Some p' /\ p_crashed p' = false /\
    forall x, x <> id -> p_pcs p' !! x = p_pcs p !! x.
Proof using Hfleet.
  intros [Hi Hn Hwf] Hc Hd Hpc Hne. destruct (Hwf _ _ Hpc) as (ro & Hr & Hok).
  assert (forall p1 pc', p_crashed p1 = false -> p_pcs p1 = p_pcs p ->
    exists p', Some (set_pc p1 id pc') = Some p' /\ p_crashed p' = false /\
    forall x, x <> id -> p_pcs p' !! x = p_pcs p !! x) as Hset.
  { intros p1 pc' Hc1 Hp1. eexists. split_and!; [done|done|]. intros x Hx. cbn.
    by rewrite lookup_insert_ne, Hp1 by done. }
  unfold next_label, phase_step. rewrite Hpc, Hc.
  destruct pc as [i|o|o|o st|o r|o r|o|o|i key st|]; rewrite ?Hr, ?Hpc; cbn [mbind option_bind goroutine_step];
    rewrite ?Hr, ?Hpc; cbn [mbind option_bind]; try (by apply Hset); try done.
  - destruct (p_done p) eqn:Ed; [by apply Hset|]. destruct Hd as [|Ha]; [done|].
    destruct ro as [w|]; [|by apply Hset]. destruct (start_key w i) as [key|[]] eqn:Ek; [by apply Hset|].
    apply start_key_Err in Ek. by destruct (Ha _ _ Hr).
  - destruct (p_done p) eqn:Ed; cbn; rewrite ?Hr, ?Hpc; cbn; rewrite ?Ed; by apply Hset.
  - rewrite op_query_request.
    destruct (serve_query 0 insertion_order _ (p_srv p) Hi (op_query_ok _ _ _ Hr Hok)) as (resp & s' & -> & _).
    cbn. by apply (Hset (set_srv p s')).
  - unfold look. destruct r as [st|e]; [|by apply Hset]. destruct o; repeat case_match; by apply (Hset (set_metrics _ _)).
  - unfold switch. repeat case_match; [by apply (Hset (set_metrics _ _))|by apply Hset|by apply (Hset (set_metrics _ _))].
Qed.

(** Let goroutine [id] take [k] actions: the actions and the state after them. *)
Fixpoint drive (k : nat) (id : nat) p : list wlabel * phase St :=
  match k with
  | O => ([], p)
  | S k =>
      match phase_step rs (next_label p id) p with
      | None => ([], p)
      | Some p' => let '(ls, p2) := drive k id p' in (next_label p id :: ls, p2)
      end
  end.

Fixpoint drive_all (k : nat) (ids : list nat) p : list wlabel * phase St :=
  match ids with
  | [] => ([], p)
  | id :: ids => let '(ls, p1) := drive k id p in
                 let '(ls', p2) := drive_all k ids p1 in (ls ++ ls', p2)
  end.

Lemma phase_run_app ls1 ls2 p : phase_run rs (ls1 ++ ls2) p = phase_run rs ls1 p ≫= phase_run rs ls2.
Proof.
  revert p. induction ls1 as [|l ls1 IH]; intros p; cbn; [done|].
  destruct (phase_step rs l p); cbn; [apply IH|done].
Qed.

Lemma drive_run k id p : phase_run rs (drive k id p).1 p = Some (drive k id p).2.
Proof.
  revert p. induction k as [|k IH]; intros p; cbn; [done|].
  destruct (phase_step rs (next_label p id) p) as [p1|] eqn:E; cbn; [|done].
  specialize (IH p1). destruct (drive k id p1) as [ls p2]. cbn in *. by rewrite E.
Qed.

Lemma drive_all_run k ids p : phase_run rs (drive_all k ids p).1 p = Some (drive_all k ids p).2.
Proof.
  revert p. induction ids as [|id ids IH]; intros p; cbn; [done|].
  pose proof (drive_run k id p) as H. destruct (drive k id p) as [ls p1]. cbn in H.
  specialize (IH p1). destruct (drive_all k ids p1) as [ls' p2]. cbn in *. by rewrite phase_run_app, H.
Qed.

Lemma wrank_zero pc : wrank pc = 0%nat -> pc = WStopped.
Proof. destruct pc as [|o|o|o|o|o| | | |]; cbn; try done; by destruct (is_post o). Qed.

Lemma stopped_stuck id p :
  (forall pc, p_pcs p !! id = Some pc -> pc = WStopped) -> phase_step rs (next_label p id) p = None.
Proof.
  intros H. unfold next_label, phase_step. destruct (p_pcs p !! id) as [pc|] eqn:Hp.
  - rewrite (H pc eq_refl). destruct (p_crashed p); [done|]. destruct (rs !! id); cbn; [|done].
    by rewrite Hp, (H pc eq_refl).
  - destruct (p_crashed p); [done|]. destruct (rs !! id); cbn; [|done]. by rewrite Hp.
Qed.

(** Actions enough for the goroutine to return, the others untouched. *)
Lemma drive_stops k id p :
  base p -> p_crashed p = false -> p_done p = true ->
  (forall pc, p_pcs p !! id = Some pc -> wrank pc <= k)%nat ->
  let p' := (drive k id p).2 in
  base p' /\ p_crashed p' = false /\ p_done p' = true /\
  (forall pc, p_pcs p' !! id = Some pc -> pc = WStopped) /\
  (forall x, x <> id -> p_pcs p' !! x = p_pcs p !! x).
Proof using Hfleet.
  assert (forall p k, base p -> p_crashed p = false -> p_done p = true ->
    (forall pc, p_pcs p !! id = Some pc -> pc = WStopped) -> drive k id p = ([], p)) as Hend.
  { intros p1 [|k'] _ _ _ H; [done|]. cbn. by rewrite stopped_stuck. }
  revert p. induction k as [|k IH]; intros p Hb Hc Hd Hk.
  { split_and!; try done. intros pc Hp. apply wrank_zero. specialize (Hk pc Hp). lia. }
  destruct (p_pcs p !! id) as [pc|] eqn:Hp.
  2: { cbn zeta. rewrite Hend by (try done; congruence). cbn. rewrite Hp. done. }
  destruct (decide (wrank pc = 0%nat)) as [Hz%wrank_zero|Hz].
  { subst pc. cbn zeta. rewrite Hend by (try done; congruence). cbn. rewrite Hp. split_and!; try done.
    by intros ? [= <-]. }
  destruct (can_act p id pc Hb Hc (or_introl Hd) Hp) as (p1 & E & Hc1 & Hx); [by intros ->|].
  pose proof (phase_step_effect _ _ _ Hb E) as He.
  cbn. rewrite E. destruct (IH p1) as (I1 & I2 & I3 & I4 & I5).
  - by eapply base_effect.
  - done.
  - by eapply effect_done.
  - intros pc1 Hp1. specialize (Hk pc eq_refl).
    assert (wrank pc1 < wrank pc)%nat; [|lia].
    pose proof (effect_rank _ _ _ Hd He) as Hr. rewrite next_label_step in Hr.
    assert (p_pcs p1 = <[id := pc1]> (p_pcs p)) as Eq.
    { apply map_eq. intros x. rewrite lookup_insert. case_decide; [by subst|by apply Hx]. }
    rewrite Eq in Hr. pose proof (total_insert wrank _ _ _ pc1 Hp). lia.
  - destruct (drive k id p1) as [ls p2]. cbn in *. split_and!; try done. intros x Hne. by rewrite I5, Hx.
Qed.

Lemma drive_all_stops k ids p :
  (forall pc, wrank pc <= k)%nat -> base p -> p_crashed p = false -> p_done p = true ->
  (forall id, is_Some (p_pcs p !! id) -> id ∈ ids \/ p_pcs p !! id = Some WStopped) ->
  base (drive_all k ids p).2 /\ p_crashed (drive_all k ids p).2 = false /\ all_stopped (drive_all k ids p).2.
Proof using Hfleet.
  intros Hk. revert p. induction ids as [|id ids IH]; intros p Hb Hc Hd Hids; cbn.
  - split_and!; [done..|]. intros x pc Hp. destruct (Hids x ltac:(eauto)) as [H|H]; [by inversion H|congruence].
  - destruct (drive_stops k id p Hb Hc Hd (fun pc _ => Hk pc)) as (I1 & I2 & I3 & I4 & I5).
    destruct (drive k id p) as [ls p1]. cbn [snd] in *.
    specialize (IH p1 I1 I2 I3). destruct (drive_all k ids p1) as [ls' p2]. cbn [snd] in *. apply IH.
    intros x [pc Hx]. destruct (decide (x = id)) as [->|Hne].
    + right. by rewrite Hx, (I4 pc Hx).
    + rewrite I5 in Hx |- * by done. destruct (Hids x ltac:(eauto)) as [H|H]; [|by right].
      apply elem_of_cons in H as [|]; [done|by left].
Qed.

Lemma drive_all_step k ids p : Forall (fun l => is_step l = true) (drive_all k ids p).1.
Proof.
  assert (forall id p, Forall (fun l => is_step l = true) (drive k id p).1) as Hd.
  { intros id. induction k as [|k IH]; intros p1; cbn; [done|].
    destruct (phase_step _ _ p1) as [p2|]; cbn; [|done]. specialize (IH p2). destruct (drive k id p2).
    constructor; [apply next_label_step|done]. }
  revert p. induction ids as [|id ids IH]; intros p; cbn; [done|].
  specialize (Hd id p). destruct (drive k id p) as [ls p1]. specialize (IH p1).
  destruct (drive_all k ids p1). by apply Forall_app.
Qed.

Lemma can_stop p :
  base p -> p_crashed p = false -> p_done p = true ->
  exists ls p', Forall (fun l => is_step l = true) ls /\ phase_run rs ls p = Some p' /\ all_stopped p'.
Proof using Hfleet.
  intros Hb Hc Hd. set (ids := (map_to_list (p_pcs p)).*1).
  destruct (drive_all_stops 10 ids p wrank_le Hb Hc Hd) as (_ & _ & Hst).
  - intros id [pc Hp]. left. apply list_elem_of_fmap. exists (id, pc). by rewrite elem_of_map_to_list.
  - eexists _, _. split_and!; [apply (drive_all_step 10 ids)|apply drive_all_run|done].
Qed.

End phases.
