(* ===== verification/ScenarioBounds.v ===== *)
(** * What a phase costs on a server that answers promptly

    In a phase whose requests are given up on only after its context has
    ended, nothing aborts the run, and what goes wrong is bounded by the
    number of goroutines: each is cut off at most once. A request cut off
    counts one error, can leave one lock behind, and stays in the network,
    where a late unlock can make one more unlock fail. *)

From S2P Require Import Prelude Utf8 Json GoTime LockSpec InMemory Sharded Http HttpFacts.
From S2P Require Import Validate ValidateFacts Scenarios ScenarioFacts.
From stdpp Require Import options.
Local Open Scope Z_scope.

(** No request is given up on before the deadline. *)
Fixpoint prompt (ls : list wlabel) : Prop :=
  match ls with
  | [] | WDeadline :: _ => True
  | WGiveUp _ _ :: _ => False
  | _ :: ls => prompt ls
  end.

Definition on_time {St} (l : wlabel) (p : phase St) : Prop := is_cut l = true -> p_done p = true.

(** The requests in the network that can take a lock. *)
Definition posts (net : list request) : nat := length (filter (fun r => path r = "/lock") net).

Lemma posts_app net net' : posts (net ++ net') = (posts net + posts net')%nat.
Proof. unfold posts. by rewrite filter_app, length_app. Qed.

Lemma posts_delete net n r :
  net !! n = Some r -> posts net = (posts [r] + posts (delete n net))%nat.
Proof.
  intros H. unfold posts. rewrite <- length_app, <- filter_app.
  by rewrite (delete_Permutation net n r H) at 1.
Qed.

Lemma posts_length net : (posts net <= length net)%nat.
Proof. apply length_filter. Qed.

Section bounds.
Context {St : Type} `{LSL : LockServiceLaws St} (rs : list role) (Hfleet : fleet_ok rs).
Implicit Types (p : phase St) (s : St).
Notation tab p := (ls_abs (p_srv p)).
Notation base := (base rs).
Notation effect := (effect rs).

Lemma along_prompt ls p : base p -> prompt ls \/ p_done p = true -> along rs on_time ls p.
Proof using Hfleet.
  revert p. induction ls as [|l ls IH]; intros p Hb H; [done|]. split.
  - intros Hc. destruct l; try done. destruct H as [[]|H]. exact H.
  - intros p' E. pose proof (phase_step_effect _ Hfleet _ _ _ Hb E) as He.
    apply IH; [exact (base_effect _ Hfleet _ _ _ Hb He)|]. destruct H as [H|H]; [|right; exact (effect_done _ _ _ _ He H)].
    destruct l; auto. right. unfold phase_step in E. by destruct (p_crashed p); simplify_eq.
Qed.

(** ** Nothing is aborted *)

(** An error in hand. *)
Definition failed (pc : wpc) : bool :=
  match pc with WReturned _ (Err _) | WCounted _ (Err _) | WErred _ => true | _ => false end.
Definition aborting (pc : wpc) : bool := match pc with WAborting _ => true | _ => false end.

Record quiet p : Prop := mkQuiet {
  qt_cause : p_cause p = false;
  qt_failed : p_done p = false -> map_Forall (fun _ pc => failed pc = false) (p_pcs p);
  qt_aborting : map_Forall (fun _ pc => aborting pc = false) (p_pcs p)
}.

Lemma move_quiet l d ro pc pc' add f ab :
  move l d ro pc pc' add f ab -> (is_cut l = true -> d = true) -> (failed pc = true -> d = true) ->
  aborting pc = false -> ab = false /\ aborting pc' = false /\ (failed pc' = true -> d = true).
Proof.
  intros Hm Hc Hf Ha.
  destruct Hm as [| |o|o st|o e|o e|o st e|o r|o e|o e|o|o|i key st|i key|i key|i key st|o st|o st];
    try done; try (by destruct o); cbn in *; split_and!; auto; try done.
  by rewrite Hf in H.
Qed.

Lemma quiet_pc p id pc : quiet p -> p_pcs p !! id = Some pc ->
  (failed pc = true -> p_done p = true) /\ aborting pc = false.
Proof.
  intros [_ Hf Ha] Hp. split; [|by apply (Ha id)]. intros Hx.
  destruct (p_done p) eqn:E; [done|]. specialize (Hf eq_refl _ _ Hp). cbn in Hf. congruence.
Qed.

Lemma quiet_effect l p p' : on_time l p -> quiet p -> effect l p p' -> quiet p'.
Proof.
  intros Ho Hq He. pose proof Hq as [Hc Hf Ha]. destruct He as
    [id ro pc pc' add f ab Hl Hr Hp Hw Hw' Hm ->|id ro o st s' Hl Hr Hp Hw Hi' Hh
    |n q st s' Hl Hq' Hok Hi' Hh|Hl|id w i Hl Hd Hr Hkey]; try done.
  - destruct (quiet_pc p id pc Hq Hp) as [Q1 Q2].
    destruct (move_quiet _ _ _ _ _ _ _ _ Hm Ho Q1 Q2) as (-> & A' & F').
    split; cbn; rewrite ?orb_false_r; [done| |by apply map_Forall_insert_2].
    intros Hd. apply map_Forall_insert_2; [|by apply Hf]. destruct (failed pc'); [|done].
    by rewrite F' in Hd.
  - split; cbn; [done| |by apply map_Forall_insert_2]. intros Hd. apply map_Forall_insert_2; auto.
Qed.

Lemma phase_start_quiet s net m : quiet (phase_start rs s net m).
Proof.
  split; [done|intros _|]; intros id pc Hp; by apply phase_start_pcs in Hp as (ro & _ & ->).
Qed.

(** ** Costs that depend on who holds what *)

Definition lockee_of (id : nat) : string := from_option role_lockee "" (rs !! id).

(** A cost does not grow while the goroutine keeps its lock, and by at most
    one when it loses it. *)
Definition stable (c : table -> nat -> wpc -> nat) : Prop :=
  forall t t' x pc, (c t' x pc <= c t x pc + 1)%nat /\
    ((forall k, granted pc = Some k -> holds t k (lockee_of x) -> holds t' k (lockee_of x)) ->
     c t' x pc <= c t x pc)%nat.

Lemma granted_writer p id pc k :
  base p -> p_pcs p !! id = Some pc -> granted pc = Some k ->
  exists w, rs !! id = Some (Writer w) /\ lockee_of id = w_lockee w.
Proof.
  intros Hb Hp Hg. destruct (b_pcs _ _ Hb _ _ Hp) as (ro & Hr & Hw). unfold lockee_of. rewrite Hr.
  destruct ro as [w|]; [by exists w|]. exfalso.
  destruct pc as [|o|o|o st|o r|o r|o|o|i key st|]; try done; by destruct o.
Qed.

(** A request of one goroutine takes no lock away from another. *)
Lemma others_stable (c : table -> nat -> wpc -> nat) p id ro o st (t' : table) :
  stable c -> base p -> rs !! id = Some ro -> op_wf ro o ->
  handled (tab p) (op_query (role_lockee ro) o) st t' ->
  forall x pc, p_pcs p !! x = Some pc -> x <> id -> (c t' x pc <= c (tab p) x pc)%nat.
Proof using Hfleet.
  intros Hc Hb Hr Hw Hh x pc Hp Hne. apply Hc. intros k Hg Hk. eapply handled_holds; [done..|].
  destruct (granted_writer _ _ _ _ Hb Hp Hg) as (w & Hrx & ->).
  intros E. destruct ro as [w'|], o; try done. cbn in E. simplify_eq.
  apply Hne. by eapply (fleet_lockees _ Hfleet).
Qed.

(** The lock a request takes away. *)
Definition takes (t : table) (q : query) : nat :=
  match q with QUnlock k l => if decide (holds t k l) then 1 else 0 | _ => 0 end.

(** A late request takes a lock away from at most one goroutine. *)
Lemma late_stable (c : table -> nat -> wpc -> nat) p q st (t' : table) :
  stable c -> base p -> handled (tab p) q st t' ->
  (weigh (c t') (p_pcs p) <= weigh (c (tab p)) (p_pcs p) + takes (tab p) q)%nat.
Proof using Hfleet.
  intros Hc Hb Hh.
  assert (forall x pc, p_pcs p !! x = Some pc ->
    ~ (exists k l, q = QUnlock k l /\ granted pc = Some k /\ lockee_of x = l /\ holds (tab p) k l) ->
    (c t' x pc <= c (tab p) x pc)%nat) as Hsafe.
  { intros x pc Hp Hn. apply Hc. intros k Hg Hk. eapply handled_holds; [done..|]. intros ->. apply Hn. eauto 8. }
  unfold takes. destruct q as [k l|k l|]; [rewrite Nat.add_0_r; apply weigh_le; naive_solver| |
    rewrite Nat.add_0_r; apply weigh_le; naive_solver].
  destruct (decide (holds (tab p) k l)) as [Hk|Hk];
    [|rewrite Nat.add_0_r; apply weigh_le; naive_solver].
  destruct (decide (map_Forall (fun x pc => ~ (granted pc = Some k /\ lockee_of x = l)) (p_pcs p))) as [Hall|Hex].
  { assert (weigh (c t') (p_pcs p) <= weigh (c (tab p)) (p_pcs p))%nat; [|lia].
    apply weigh_le. intros x pc Hp. apply (Hsafe x pc Hp). intros (k' & l' & [= <- <-] & Hg & Hl & _).
    by apply (Hall x pc Hp). }
  apply map_not_Forall in Hex as (j & pcj & Hj & Hgl); [|apply _].
  apply dec_stable in Hgl as [Hg Hl].
  apply (weigh_le_but_one _ _ _ j); [|intros pc _; apply Hc].
  intros x pc Hp Hne. apply (Hsafe x pc Hp). intros (k' & l' & [= <- <-] & Hg' & Hl' & _). apply Hne.
  destruct (granted_writer _ _ _ _ Hb Hp Hg') as (w & Hr & E1).
  destruct (granted_writer _ _ _ _ Hb Hj Hg) as (w' & Hr' & E2).
  eapply (fleet_lockees _ Hfleet); [done..|]. congruence.
Qed.

(** ** Errors *)

(** The goroutine was granted a lock and does not have it any more. *)
Definition shaken (t : table) (lockee : string) (pc : wpc) : nat :=
  match granted pc with Some k => if decide (holds t k lockee) then 0 else 1 | None => 0 end.

(** Its unlock was refused. *)
Definition forbidden (pc : wpc) : nat :=
  match pc with
  | WServed (ODelete _ _) st | WReturned (ODelete _ _) (Ok st) | WCounted (ODelete _ _) (Ok st) =>
      if st =? StatusForbidden then 1 else 0
  | _ => 0
  end.

(** Errors still to come: one for the request that is cut off, one for the
    late handling of it, one for a lock lost or an unlock refused. *)
Definition error_cost (d : bool) (t : table) (id : nat) (pc : wpc) : nat :=
  match pc with
  | WStopped => 0
  | WLoop _ => if d then 0 else 2
  | WReturned _ (Err _) | WCounted _ (Err _) | WAborting _ | WErred _ => 1
  | _ => 2 + shaken t (lockee_of id) pc + forbidden pc
  end.

Lemma shaken_stable t t' lockee pc :
  (shaken t' lockee pc <= shaken t lockee pc + 1)%nat /\
  ((forall k, granted pc = Some k -> holds t k lockee -> holds t' k lockee) ->
   shaken t' lockee pc <= shaken t lockee pc)%nat.
Proof.
  unfold shaken. destruct (granted pc) as [k|]; [|lia].
  destruct (decide (holds t k lockee)), (decide (holds t' k lockee)); split; try lia. naive_solver.
Qed.

Lemma error_cost_stable d : stable (error_cost d).
Proof.
  intros t t' x pc. destruct (shaken_stable t t' (lockee_of x) pc) as [S1 S2].
  destruct pc as [|o|o|o st|o [st|e]|o [st|e]|o|o|i key st|]; cbn [error_cost]; try (split; lia);
    (split; [lia|]; intros H; specialize (S2 H); lia).
Qed.

Lemma move_error_cost l d ro pc pc' add f ab t id m :
  move l d ro pc pc' add f ab -> pc_answer pc -> (is_cut l = true -> d = true) ->
  (failed pc = true -> d = true) -> aborting pc = false ->
  m_errors (f m) + Z.of_nat (error_cost d t id pc') + Z.of_nat (length add)
    <= m_errors m + Z.of_nat (error_cost d t id pc).
Proof.
  intros Hm Ha Hc Hf Hab.
  assert (forall o, error_cost d t id (next_loop o) <= 2)%nat as Hloop by (intros []; cbn; destruct d; lia).
  destruct Hm as [|i o Hd Hw Ho|o|o st|o e|o e|o st e|o r|o e|o e|o|o|i key st|i key|i key|i key st|o st Ho Hb|o st Ho Hb];
    cbn [pc_answer failed aborting] in *; unfold kept; try done.
  - cbn. destruct d; lia.
  - cbn. rewrite Hd. destruct Ho as [Ho| ->]; [|cbn; lia]. by destruct o; cbn; try lia.
  - replace (error_cost d t id (WSent o)) with (error_cost d t id (WAsk o)) by (by destruct o). cbn. lia.
  - replace (error_cost d t id (WServed o st)) with (error_cost d t id (WReturned o (Ok st))) by (by destruct o).
    cbn [length]. lia.
  - cbn [error_cost length]. lia.
  - cbn [error_cost length]. lia.
  - cbn [error_cost length]. lia.
  - replace (error_cost d t id (WCounted o r)) with (error_cost d t id (WReturned o r)) by (by destruct o, r).
    cbn [length add_total m_errors]. lia.
  - cbn. lia.
  - cbn. lia.
  - rewrite Hf by done. destruct o; cbn; lia.
  - destruct (offer_counters (label_elapsed l) m) as (-> & _).
    replace (error_cost d t id (WSampled i key st)) with (error_cost d t id (WCounted (OPost i key) (Ok st))) by done.
    cbn [length]. lia.
  - pose proof (Hloop (OPost i key)) as HL. cbn [next_loop] in HL. cbn [error_cost length add_conflict m_errors] in *. lia.
  - replace (error_cost d t id (WSampled i key StatusOK)) with (error_cost d t id (WAsk (ODelete i key))) by done.
    cbn [length]. lia.
  - by destruct Ha.
  - destruct (offer_counters (label_elapsed l) m) as (-> & _). pose proof (Hloop o). cbn [error_cost length]. lia.
  - pose proof (Hloop o). destruct o; [done| |]; cbn in Ha, Hb.
    + destruct Ha as [-> |[-> | ->]]; [done| |done]. cbn in *. lia.
    + by subst st.
Qed.

Lemma served_error_cost d t id w o st t' :
  handled t (op_query (w_lockee w) o) st t' -> lockee_of id = w_lockee w ->
  (error_cost d t' id (WServed o st) <= error_cost d t id (WSent o))%nat.
Proof.
  intros Hh Hl. destruct o as [i k|i k|]; cbn; unfold shaken; cbn; rewrite ?Hl; [| |lia].
  - destruct (Z.eqb_spec st StatusOK) as [->|]; [|lia]. apply handled_granted in Hh.
    rewrite decide_True by done. lia.
  - destruct (decide (holds t k (w_lockee w))) as [Hk|]; [|by destruct (st =? StatusForbidden); lia].
    destruct (handled_release _ _ _ _ _ Hh Hk) as [-> _]. done.
Qed.

Definition error_budget (b : Z) p : Prop :=
  m_errors (p_metrics p) + Z.of_nat (weigh (error_cost (p_done p) (tab p)) (p_pcs p))
    + Z.of_nat (length (p_net p)) <= b.

Lemma reader_served_cost (c : table -> nat -> wpc -> nat) p id o st (t' : table) :
  rs !! id = Some Reader -> op_wf Reader o -> handled (tab p) (op_query "" o) st t' ->
  o = OList /\ st = StatusOK /\ t' = tab p.
Proof. intros _ Hw Hh. destruct o; try done. by inversion Hh. Qed.

Lemma error_budget_effect b l p p' :
  on_time l p -> base p -> answers_ok p -> quiet p -> error_budget b p -> effect l p p' -> error_budget b p'.
Proof using Hfleet.
  unfold error_budget. intros Ho Hb Han Hq HB He. destruct He as
    [id ro pc pc' add f ab Hl Hr Hp Hw Hw' Hm ->|id ro o st s' Hl Hr Hp Hw Hi' Hh
    |n q st s' Hl Hq' Hok Hi' Hh|Hl|id w i Hl Hd Hr Hkey]; cbn [p_metrics p_done p_srv p_pcs p_net set_pc set_srv set_net deadline crash]; try done.
  - destruct (quiet_pc p id pc Hq Hp) as [Q1 Q2].
    destruct (move_quiet _ _ _ _ _ _ _ _ Hm Ho Q1 Q2) as (-> & _). rewrite orb_false_r, length_app.
    pose proof (move_error_cost _ _ _ _ _ _ _ _ (tab p) id (p_metrics p) Hm (Han _ _ Hp) Ho Q1 Q2).
    pose proof (weigh_insert (error_cost (p_done p) (tab p)) _ _ _ pc' Hp). lia.
  - pose proof (weigh_update (error_cost (p_done p) (ls_abs s')) (error_cost (p_done p) (tab p)) _ _ _ (WServed o st) Hp
      (others_stable _ _ _ _ _ _ _ (error_cost_stable _) Hb Hr Hw Hh)) as HU.
    assert (error_cost (p_done p) (ls_abs s') id (WServed o st) <= error_cost (p_done p) (tab p) id (WSent o))%nat; [|lia].
    destruct ro as [w|].
    + eapply served_error_cost; [exact Hh|]. unfold lockee_of. by rewrite Hr.
    + destruct (reader_served_cost (error_cost false) p id o st _ Hr Hw Hh) as (-> & -> & _). cbn. lia.
  - pose proof (late_stable _ p _ _ _ (error_cost_stable (p_done p)) Hb Hh).
    assert (takes (tab p) q <= 1)%nat by (unfold takes; repeat case_match; lia).
    pose proof (length_delete (p_net p) n ltac:(by rewrite Hq')).
    pose proof (lookup_lt_Some _ _ _ Hq'). lia.
  - pose proof (weigh_le (error_cost true (tab p)) (error_cost (p_done p) (tab p)) (p_pcs p)) as HW.
    assert (forall x pc, error_cost true (tab p) x pc <= error_cost (p_done p) (tab p) x pc)%nat as Hle
      by (intros x pc; destruct pc; cbn; lia). specialize (HW (fun x pc _ => Hle x pc)). lia.
Qed.

(** ** Leaked locks *)

(** Locks still to come into the table. *)
Definition lock_cost (d : bool) (t : table) (id : nat) (pc : wpc) : nat :=
  match pc with
  | WStopped | WReturned _ (Err _) | WCounted _ (Err _) | WAborting _ | WErred _ => 0
  | WLoop _ => if d then 0 else 1
  | _ => match granted pc with Some _ => shaken t (lockee_of id) pc | None => 1 end
  end.

Lemma lock_cost_stable d : stable (lock_cost d).
Proof.
  intros t t' x pc. destruct (shaken_stable t t' (lockee_of x) pc) as [S1 S2].
  destruct pc as [|o|o|o st|o [st|e]|o [st|e]|o|o|i key st|]; cbn [lock_cost]; try (split; lia);
    (destruct (granted _); split; [lia|intros H; specialize (S2 H); lia|lia|lia]).
Qed.

Lemma op_posts lockee o : posts [op_request lockee o] = if is_post o then 1%nat else 0%nat.
Proof. by destruct o. Qed.

Lemma move_lock_cost l d ro pc pc' add f ab t id :
  move l d ro pc pc' add f ab -> (failed pc = true -> d = true) -> aborting pc = false ->
  (lock_cost d t id pc' + posts add <= lock_cost d t id pc)%nat.
Proof.
  intros Hm Hf Hab.
  assert (forall o, lock_cost d t id (next_loop o) <= 1)%nat as Hloop by (intros []; cbn; destruct d; lia).
  destruct Hm as [|i o Hd Hw Ho|o|o st|o e|o e|o st e|o r|o e|o e|o|o|i key st|i key|i key|i key st|o st Ho Hb|o st Ho Hb];
    cbn [failed aborting] in *; rewrite ?op_posts; change (posts []) with 0%nat; try done.
  - cbn. destruct d; lia.
  - cbn. rewrite Hd. destruct Ho as [Ho| ->]; [|cbn; lia]. by destruct o; cbn; try lia.
  - replace (lock_cost d t id (WSent o)) with (lock_cost d t id (WAsk o)) by (by destruct o). lia.
  - replace (lock_cost d t id (WServed o st)) with (lock_cost d t id (WReturned o (Ok st))) by (by destruct o). lia.
  - cbn. lia.
  - destruct o; cbn; lia.
  - cbn. lia.
  - replace (lock_cost d t id (WCounted o r)) with (lock_cost d t id (WReturned o r)) by (by destruct o, r). lia.
  - rewrite Hf by done. destruct o; cbn; lia.
  - replace (lock_cost d t id (WSampled i key st)) with (lock_cost d t id (WCounted (OPost i key) (Ok st))) by done. lia.
  - cbn. destruct d; lia.
  - replace (lock_cost d t id (WSampled i key StatusOK)) with (lock_cost d t id (WAsk (ODelete i key))) by done. lia.
  - cbn. destruct (Z.eqb_spec st StatusOK); [done|]. cbn. destruct d; lia.
  - pose proof (Hloop o). destruct o; cbn in *; lia.
  - pose proof (Hloop o). destruct o; cbn in *; lia.
Qed.

Lemma handled_size t q st t' :
  handled t q st t' ->
  (size t' <= size t + match q with QLock _ _ => 1 | _ => 0 end)%nat /\
  (size t' + takes t q <= size t + match q with QLock _ _ => 1 | _ => 0 end)%nat.
Proof.
  intros H. unfold takes. destruct H as [now k l ok t' Ha|k l o t' Ha|]; [| |lia].
  - unfold spec_acquire in Ha. destruct (may_acquire t k l false); simplify_eq; [|lia].
    destruct (held_by t k l); [lia|]. rewrite map_size_insert. destruct (t !! k); cbn; lia.
  - destruct (decide (holds t k l)) as [Hk|Hk].
    + destruct (handled_release _ _ _ _ _ (handled_unlock _ _ _ _ _ Ha) Hk) as [_ ->].
      unfold holds in Hk. destruct (t !! k) as [h|] eqn:E; [|done].
      rewrite map_size_delete_Some by eauto.
      assert (size t <> 0)%nat by (rewrite map_size_ne_0_lookup; eauto). lia.
    + unfold spec_release, held_by in Ha. unfold holds in Hk. rewrite (bool_decide_false (_ = Some l)) in Ha by done.
      case_bool_decide; simplify_eq; lia.
Qed.

Definition lock_budget (b : nat) p : Prop :=
  (size (tab p) + posts (p_net p) + weigh (lock_cost (p_done p) (tab p)) (p_pcs p) <= b)%nat.

Lemma served_lock_cost d t id w o st t' :
  handled t (op_query (w_lockee w) o) st t' -> lockee_of id = w_lockee w ->
  (size t' + lock_cost d t' id (WServed o st) <= size t + lock_cost d t id (WSent o))%nat.
Proof.
  intros Hh Hl. destruct (handled_size _ _ _ _ Hh) as [H1 H2].
  destruct o as [i k|i k|]; cbn in H1, H2 |- *; unfold shaken; cbn; rewrite ?Hl; [| |lia].
  - destruct (Z.eqb_spec st StatusOK) as [->|]; cbn; rewrite ?Hl.
    + apply handled_granted in Hh. rewrite decide_True by done. lia.
    + assert (t' = t) as ->; [|lia]. inversion Hh as [now k' l ok t1 Ha| |]; subst.
      destruct ok; [done|]. by apply spec_acquire_refused in Ha as (_ & -> & _).
  - unfold takes in H2. destruct (decide (holds t k (w_lockee w))); lia.
Qed.

Lemma lock_budget_effect b l p p' :
  on_time l p -> base p -> quiet p -> lock_budget b p -> effect l p p' -> lock_budget b p'.
Proof using Hfleet.
  unfold lock_budget. intros Ho Hb Hq HB He. destruct He as
    [id ro pc pc' add f ab Hl Hr Hp Hw Hw' Hm ->|id ro o st s' Hl Hr Hp Hw Hi' Hh
    |n q st s' Hl Hq' Hok Hi' Hh|Hl|id w i Hl Hd Hr Hkey]; cbn [p_metrics p_done p_srv p_pcs p_net set_pc set_srv set_net deadline crash]; try done.
  - destruct (quiet_pc p id pc Hq Hp) as [Q1 Q2].
    destruct (move_quiet _ _ _ _ _ _ _ _ Hm Ho Q1 Q2) as (-> & _). rewrite orb_false_r, posts_app.
    pose proof (move_lock_cost _ _ _ _ _ _ _ _ (tab p) id Hm Q1 Q2).
    pose proof (weigh_insert (lock_cost (p_done p) (tab p)) _ _ _ pc' Hp). lia.
  - pose proof (weigh_update (lock_cost (p_done p) (ls_abs s')) (lock_cost (p_done p) (tab p)) _ _ _ (WServed o st) Hp
      (others_stable _ _ _ _ _ _ _ (lock_cost_stable _) Hb Hr Hw Hh)) as HU.
    assert (size (ls_abs s') + lock_cost (p_done p) (ls_abs s') id (WServed o st)
            <= size (tab p) + lock_cost (p_done p) (tab p) id (WSent o))%nat; [|lia].
    destruct ro as [w|].
    + eapply served_lock_cost; [exact Hh|]. unfold lockee_of. by rewrite Hr.
    + destruct (reader_served_cost (lock_cost false) p id o st _ Hr Hw Hh) as (-> & -> & ->). cbn. lia.
  - pose proof (late_stable _ p _ _ _ (lock_cost_stable (p_done p)) Hb Hh).
    destruct (handled_size _ _ _ _ Hh) as [_ H2].
    rewrite (posts_delete _ _ _ Hq') in HB.
    assert (posts [query_request q] = match q with QLock _ _ => 1 | _ => 0 end)%nat by (by destruct q). lia.
  - pose proof (weigh_le (lock_cost true (tab p)) (lock_cost (p_done p) (tab p)) (p_pcs p)) as HW.
    assert (forall x pc, lock_cost true (tab p) x pc <= lock_cost (p_done p) (tab p) x pc)%nat as Hle
      by (intros x pc; destruct pc; cbn; lia). specialize (HW (fun x pc _ => Hle x pc)). lia.
Qed.

(** ** A whole phase *)

Lemma phase_start_size s net m : size (p_pcs (phase_start rs s net m)) = length rs.
Proof.
  cbn. assert (forall (l : list wpc) i, size (map_seq i l : gmap nat wpc) = length l) as H.
  { induction l as [|x l IH]; intros i; [done|]. cbn [map_seq length].
    rewrite map_size_insert_None; [by rewrite IH|]. apply lookup_map_seq_None. lia. }
  by rewrite H, length_fmap.
Qed.

Definition prompt_inv (e : Z) (b : nat) p : Prop :=
  answers_ok p /\ quiet p /\ error_budget e p /\ lock_budget b p.

Lemma prompt_run ls s net p :
  ls_inv s -> Forall client_request net -> prompt ls ->
  phase_run rs ls (phase_start rs s net no_metrics) = Some p ->
  p_cause p = false /\
  (all_stopped p ->
   m_errors (p_metrics p) + Z.of_nat (length (p_net p)) <= Z.of_nat (length net + 2 * length rs) /\
   (size (tab p) + posts (p_net p) <= size (ls_abs s) + posts net + length rs)%nat).
Proof using Hfleet.
  intros Hi Hn Hpr Hrun. set (p0 := phase_start rs s net no_metrics).
  assert (base p0) as Hb0 by (by apply phase_start_base).
  destruct (phase_run_inv rs Hfleet
    (prompt_inv (Z.of_nat (length net + 2 * length rs)) (size (ls_abs s) + posts net + length rs))
    on_time ls p0 p) as (_ & _ & Hq & HE & HL); [| | | |done|].
  - intros l p1 p2 Ho Hb (H1 & H2 & H3 & H4) He.
    split_and!; eauto using answers_ok_effect, quiet_effect, error_budget_effect, lock_budget_effect.
  - apply along_prompt; auto.
  - done.
  - split_and!; [apply phase_start_answers|apply phase_start_quiet| |].
    + unfold error_budget. pose proof (phase_start_size s net no_metrics) as Hsz. fold p0 in Hsz.
      pose proof (weigh_le (error_cost (p_done p0) (tab p0)) (fun _ _ => 2%nat) (p_pcs p0)) as HW.
      pose proof (weigh_bound (fun (_ : nat) (_ : wpc) => 2%nat) 2 (p_pcs p0) (fun _ _ => le_n 2)) as HB.
      assert (forall k x, p_pcs p0 !! k = Some x -> error_cost (p_done p0) (tab p0) k x <= 2)%nat as Hle
        by (intros k x Hp; by apply phase_start_pcs in Hp as (ro & _ & ->)).
      specialize (HW Hle). cbn [p_metrics p_net p0 phase_start m_errors no_metrics]. fold p0. lia.
    + unfold lock_budget. pose proof (phase_start_size s net no_metrics) as Hsz. fold p0 in Hsz.
      pose proof (weigh_le (lock_cost (p_done p0) (tab p0)) (fun _ _ => 1%nat) (p_pcs p0)) as HW.
      pose proof (weigh_bound (fun (_ : nat) (_ : wpc) => 1%nat) 1 (p_pcs p0) (fun _ _ => le_n 1)) as HB.
      assert (forall k x, p_pcs p0 !! k = Some x -> lock_cost (p_done p0) (tab p0) k x <= 1)%nat as Hle
        by (intros k x Hp; by apply phase_start_pcs in Hp as (ro & _ & ->)).
      specialize (HW Hle). cbn [p_net p_srv p0 phase_start]. fold p0. cbn [p_srv p0 phase_start] in HW. lia.
  - split; [apply Hq|]. intros Hst. unfold error_budget, lock_budget in *.
    rewrite weigh_zero in HE by (intros id pc Hp; by rewrite (Hst id pc Hp)).
    rewrite weigh_zero in HL by (intros id pc Hp; by rewrite (Hst id pc Hp)). lia.
Qed.

(** ** Two more invariants of every run *)

Lemma armed_run ls s net m p :
  armed rs -> ls_inv s -> Forall client_request net ->
  phase_run rs ls (phase_start rs s net m) = Some p -> p_crashed p = false.
Proof using Hfleet.
  intros Ha Hi Hn Hrun.
  apply (phase_inv rs Hfleet (fun p => p_crashed p = false) ls (phase_start rs s net m) p); [| |done..].
  - intros l p1 p2 _ Hc He. destruct He as [| | | |id w i Hl Hd Hr Hk]; try done.
    apply start_key_Err in Hk. by destruct (Ha _ _ Hr).
  - by apply phase_start_base.
Qed.

Lemma table_ok_run ls s net m p :
  ls_inv s -> Forall client_request net -> table_ok (ls_abs s) ->
  phase_run rs ls (phase_start rs s net m) = Some p -> base p /\ table_ok (tab p).
Proof using Hfleet.
  intros Hi Hn Ht Hrun.
  apply (phase_inv rs Hfleet (fun p => table_ok (tab p)) ls (phase_start rs s net m) p); [| |done..].
  - intros l p1 p2 _ Hc He. destruct He; try done; cbn; eapply handled_table_ok; eauto using op_query_ok.
  - by apply phase_start_base.
Qed.

(** ** A phase in which every goroutine completes a round

    Each goroutine takes twelve actions in turn, enough to acquire and release
    a lock; then the time is up and all return. *)

Definition round s net : list wlabel * phase St :=
  let ids := seq 0 (length rs) in
  let '(l1, p1) := drive_all rs 12 ids (phase_start rs s net no_metrics) in
  let '(l2, p2) := drive_all rs 10 ids (deadline p1) in
  (l1 ++ WDeadline :: l2, p2).

Lemma drive_all_Forall (P : wlabel -> Prop) k ids p :
  (forall p id, P (next_label p id)) ->
  Forall P (drive_all rs k ids p).1 /\ (length (drive_all rs k ids p).1 <= k * length ids)%nat.
Proof.
  intros HP. assert (forall id p, Forall P (drive rs k id p).1 /\ (length (drive rs k id p).1 <= k)%nat) as Hd.
  { intros id. induction k as [|k IH]; intros p1; cbn; [done|].
    destruct (phase_step _ _ p1) as [p2|]; cbn; [|split; [done|lia]]. specialize (IH p2).
    destruct (drive rs k id p2) as [ls p3]. cbn in *. destruct IH. split; [by constructor|lia]. }
  revert p. induction ids as [|id ids IH]; intros p; cbn; [split; [done|lia]|].
  specialize (Hd id p). destruct (drive rs k id p) as [ls p1]. specialize (IH p1).
  destruct (drive_all rs k ids p1) as [ls' p2]. cbn in *. destruct Hd, IH.
  rewrite Forall_app, length_app. split; [done|lia].
Qed.

Lemma effect_calm l p p' :
  is_step l = true -> is_cut l = false -> quiet p -> p_done p = false -> effect l p p' ->
  p_done p' = false /\ quiet p'.
Proof.
  intros Hl Hc Hq Hd He. split; [|eapply quiet_effect; [|done..]; intros H; congruence].
  destruct He as [id ro pc pc' add f ab Hl' Hr Hp Hw Hw' Hm ->| |n q st s' Hl'|Hl'|]; cbn; try done; try congruence.
  destruct (quiet_pc p id pc Hq Hp) as [Q1 Q2].
  destruct (move_quiet _ _ _ _ _ _ _ _ Hm ltac:(congruence) Q1 Q2) as (-> & _). by rewrite Hd.
Qed.

Definition calm p : Prop := base p /\ quiet p /\ p_done p = false.

Lemma drive_calm k id p :
  calm p -> Forall (fun l => is_cut l = false /\ is_step l = true) (drive rs k id p).1 /\ calm (drive rs k id p).2.
Proof using Hfleet.
  revert p. induction k as [|k IH]; intros p Hc; cbn; [done|].
  destruct (phase_step rs (next_label p id) p) as [p1|] eqn:E; cbn; [|done].
  destruct Hc as (Hb & Hq & Hd). pose proof (phase_step_effect _ Hfleet _ _ _ Hb E) as He.
  assert (is_cut (next_label p id) = false) as Hcut.
  { unfold next_label. rewrite Hd. by repeat case_match. }
  destruct (effect_calm _ _ _ (next_label_step p id) Hcut Hq Hd He) as [Hd1 Hq1].
  specialize (IH p1 (conj (base_effect _ Hfleet _ _ _ Hb He) (conj Hq1 Hd1))).
  destruct (drive rs k id p1) as [ls p2]. cbn in *. destruct IH as [I1 I2]. split; [|done].
  constructor; [|done]. split; [done|apply next_label_step].
Qed.

Lemma drive_all_calm k ids p :
  calm p ->
  Forall (fun l => is_cut l = false /\ is_step l = true) (drive_all rs k ids p).1 /\ calm (drive_all rs k ids p).2.
Proof using Hfleet.
  revert p. induction ids as [|id ids IH]; intros p Hc; cbn; [done|].
  destruct (drive_calm k id p Hc) as [D1 D2]. destruct (drive rs k id p) as [ls p1].
  destruct (IH p1 D2) as [I1 I2]. destruct (drive_all rs k ids p1) as [ls' p2]. cbn in *.
  by rewrite Forall_app.
Qed.

Lemma prompt_app ls ls' :
  Forall (fun l => is_cut l = false /\ is_step l = true) ls -> prompt (ls ++ WDeadline :: ls').
Proof. induction 1 as [|l ls [H1 H2] _ IH]; [done|]. by destruct l. Qed.

Lemma round_ok s net :
  armed rs -> ls_inv s -> Forall client_request net ->
  let '(ls, p) := round s net in
  phase_run rs ls (phase_start rs s net no_metrics) = Some p /\ all_stopped p /\ p_crashed p = false /\
  prompt ls /\ Forall (fun l => label_elapsed l = 0) ls /\ (length ls <= 22 * length rs + 1)%nat.
Proof using Hfleet.
  intros Ha Hi Hn. unfold round. set (ids := seq 0 (length rs)). set (p0 := phase_start rs s net no_metrics).
  assert (forall p id, label_elapsed (next_label p id) = 0) as Hel.
  { intros p id. unfold next_label. by repeat case_match. }
  destruct (drive_all_calm 12 ids p0) as [Hcalm Hc1].
  { split; [by apply phase_start_base|]. split; [apply phase_start_quiet|done]. }
  pose proof (drive_all_run rs 12 ids p0) as R1.
  destruct (drive_all_Forall (fun l => label_elapsed l = 0) 12 ids p0 Hel) as [F1 L1].
  destruct (drive_all rs 12 ids p0) as [l1 p1]. cbn [fst snd] in *.
  assert (p_crashed p1 = false) as Hcr by (by eapply (armed_run l1 s net no_metrics)).
  destruct Hc1 as (Hb1 & _ & _).
  assert (base (deadline p1)) as Hb1' by (by destruct Hb1; split).
  destruct (drive_all_stops rs Hfleet 10 ids (deadline p1) wrank_le Hb1' Hcr eq_refl) as (_ & Hcr2 & Hst).
  { intros id [pc Hp]. left. destruct (b_pcs _ _ Hb1' _ _ Hp) as (ro & Hr & _).
    apply elem_of_seq. apply lookup_lt_Some in Hr. lia. }
  pose proof (drive_all_run rs 10 ids (deadline p1)) as R2.
  destruct (drive_all_Forall (fun l => label_elapsed l = 0) 10 ids (deadline p1) Hel) as [F2 L2].
  destruct (drive_all rs 10 ids (deadline p1)) as [l2 p2]. cbn [fst snd] in *.
  unfold ids in L1, L2. rewrite length_seq in L1, L2.
  split_and!; [|done|done|by apply prompt_app| |].
  - rewrite phase_run_app, R1. cbn. unfold phase_step. rewrite Hcr. done.
  - apply Forall_app. split; [done|]. by constructor.
  - rewrite length_app. cbn [length]. lia.
Qed.

End bounds.
