(* ===== verification/ScenarioTheorems.v ===== *)
(** * What the load generator guarantees

    Exclusion among workers and its limit, partitioned keys, counters, the end
    of a phase, the leak check, and the effect of a leaked lock. *)

From S2P Require Import Prelude Utf8 Json JsonFacts GoTime LockSpec InMemory Sharded Http HttpFacts.
From S2P Require Import Validate ValidateFacts Scenarios ScenarioFacts ScenarioBounds.
From stdpp Require Import options.
Local Open Scope Z_scope.

(** ** The fleets of the scenarios *)

Lemma key_name_inj a b : key_name a = key_name b -> a = b.
Proof. intros H. apply (inj (String.app "key-")) in H. by apply (inj pretty) in H. Qed.

Lemma key_name_ok n lockee :
  lockee <> "" -> ascii_only lockee = true -> entry_ok (key_name n) (Hold lockee 0).
Proof.
  intros Hl Ha. split_and!; [done| |done|by apply utf8_ascii].
  apply utf8_ascii. unfold key_name. by rewrite ascii_only_app, ascii_only_pretty_Z.
Qed.

Lemma per_worker_pos pool workers : 1 <= per_worker pool workers.
Proof. unfold per_worker. destruct (_ <? 1) eqn:?; lia. Qed.

Lemma elem_of_makeKeys k id pool workers :
  k ∈ makeKeys id pool workers <->
  exists n, k = key_name n /\ id * per_worker pool workers <= n < (id + 1) * per_worker pool workers.
Proof.
  unfold makeKeys. rewrite list_elem_of_fmap. setoid_rewrite elem_of_seqZ. split.
  - intros (j & -> & Hj). eexists. split; [done|]. lia.
  - intros (n & -> & Hn). exists (n - id * per_worker pool workers). split; [f_equal; lia|lia].
Qed.

Lemma makeKeys_disjoint k id id' pool workers :
  k ∈ makeKeys id pool workers -> k ∈ makeKeys id' pool workers -> id = id'.
Proof.
  rewrite !elem_of_makeKeys. intros (n & -> & Hn) (n' & Hnn%key_name_inj & Hn'). subst n'.
  pose proof (per_worker_pos pool workers) as Hp.
  generalize dependent (per_worker pool workers). intros q Hn Hn' Hq. nia.
Qed.

Lemma buildWorker_partition cfg id :
  PartitionKeys cfg = true -> w_keys (buildWorker cfg id) = makeKeys id (KeyPoolSize cfg) (Concurrency cfg).
Proof. intros Hp. unfold buildWorker. by rewrite Hp. Qed.

Lemma scenario_role cfg i w :
  scenario_roles cfg !! i = Some (Writer w) -> w = buildWorker cfg (Z.of_nat i).
Proof.
  unfold scenario_roles. rewrite list_lookup_fmap.
  destruct (seqZ 0 (Concurrency cfg) !! i) as [z|] eqn:E; [|done].
  apply lookup_seqZ in E as [-> _]. by intros [= <-].
Qed.

Lemma prefix_pretty_inj pre a b : pre +:+ pretty a = pre +:+ pretty b -> a = b :> Z.
Proof. intros H. apply (inj (String.app pre)) in H. by apply (inj pretty) in H. Qed.

Lemma keys_ok lockee (ns : list Z) (f : Z -> Z) :
  lockee <> "" -> ascii_only lockee = true ->
  Forall (fun k => entry_ok k (Hold lockee 0)) ((fun n => key_name (f n)) <$> ns).
Proof. intros Hl Ha. apply Forall_fmap, Forall_forall. intros n _. by apply key_name_ok. Qed.

Lemma named_ok pre id : pre <> "" -> ascii_only pre = true ->
  pre +:+ pretty id <> "" /\ ascii_only (pre +:+ pretty (id : Z)) = true.
Proof.
  intros Hp Ha. split; [by destruct pre|]. by rewrite ascii_only_app, Ha, ascii_only_pretty_Z.
Qed.

Lemma scenario_fleet cfg : fleet_ok (scenario_roles cfg).
Proof.
  split.
  - apply Forall_fmap, Forall_forall. intros id _. cbn.
    destruct (named_ok "worker-" id) as [Hn Ha]; [done..|].
    destruct (PartitionKeys cfg); [by apply keys_ok|].
    by apply (keys_ok _ _ (fun n => n)).
  - intros i j w w' ->%scenario_role ->%scenario_role H. cbn in H. apply prefix_pretty_inj in H. lia.
Qed.

Lemma scenario_partitioned cfg : PartitionKeys cfg = true -> partitioned (scenario_roles cfg).
Proof.
  intros Hp i j w w' k ->%scenario_role ->%scenario_role.
  rewrite !buildWorker_partition by done. intros H1 H2.
  pose proof (makeKeys_disjoint _ _ _ _ _ H1 H2). lia.
Qed.

Lemma list_heavy_role i w :
  list_heavy_roles !! i = Some (Writer w) ->
  w = mkWorker (Z.of_nat i) (makeKeys (Z.of_nat i) keyPool writers) ("writer-" +:+ pretty (Z.of_nat i)).
Proof.
  unfold list_heavy_roles. intros [H|[_ H]]%lookup_app_Some.
  - rewrite list_lookup_fmap in H. destruct (seqZ 0 writers !! i) as [z|] eqn:E; [|done].
    apply lookup_seqZ in E as [-> _]. by simplify_eq/=.
  - by apply lookup_replicate in H as [? _].
Qed.

Lemma list_heavy_fleet : fleet_ok list_heavy_roles.
Proof.
  split.
  - apply Forall_app. split; [|by apply Forall_replicate].
    apply Forall_fmap, Forall_forall. intros id _. cbn [role_ok w_keys w_lockee].
    destruct (named_ok "writer-" id) as [Hn Ha]; [done..|]. by apply keys_ok.
  - intros i j w w' ->%list_heavy_role ->%list_heavy_role H. cbn in H.
    apply prefix_pretty_inj in H. lia.
Qed.

Lemma list_heavy_partitioned : partitioned list_heavy_roles.
Proof.
  intros i j w w' k ->%list_heavy_role ->%list_heavy_role. cbn [w_keys]. intros H1 H2.
  pose proof (makeKeys_disjoint _ _ _ _ _ H1 H2). lia.
Qed.

Lemma makeKeys_not_nil id pool workers : makeKeys id pool workers <> [].
Proof.
  pose proof (per_worker_pos pool workers) as Hp. unfold makeKeys. intros H%fmap_nil_inv.
  apply (f_equal length) in H. rewrite length_seqZ in H. cbn in H. lia.
Qed.

(** Partitioned keys are never empty; a shared pool is not if it has a size. *)
Lemma scenario_armed cfg : PartitionKeys cfg = true \/ 0 < KeyPoolSize cfg -> armed (scenario_roles cfg).
Proof.
  intros H i w ->%scenario_role. destruct (PartitionKeys cfg) eqn:Hp.
  - rewrite buildWorker_partition by done. apply makeKeys_not_nil.
  - destruct H as [|H]; [done|]. unfold buildWorker. rewrite Hp. cbn. intros E%fmap_nil_inv.
    apply (f_equal length) in E. rewrite length_seqZ in E. cbn in E. lia.
Qed.

Lemma list_heavy_armed : armed list_heavy_roles.
Proof. intros i w ->%list_heavy_role. apply makeKeys_not_nil. Qed.

(** * The properties *)

(** ** Inputs of the witnesses *)

Definition tiny : scenarioCfg := mkScenarioCfg "tiny" 2 4 0 0 true.
Definition tiny_shared : scenarioCfg := mkScenarioCfg "tiny" 2 1 0 0 false.
(** Worker [id] runs on; its request is handled and answered. *)
Definition act (id : nat) : wlabel := WStep id 100.
Definition exchange (id : nat) : list wlabel := [act id; WHandle id 7 insertion_order; WReply id; act id; act id].
(** Worker 0 acquires [key-0] and is about to release it. *)
Definition first_acquire : list wlabel := [act 0] ++ exchange 0 ++ [act 0].
Definition start_of {St} `{!LockService St} (rs : list role) (s : St) : phase St := phase_start rs s [] no_metrics.
Definition tiny_run (cfg : scenarioCfg) (ls : list wlabel) : phase InMemory.store :=
  let p0 := start_of (scenario_roles cfg) InMemory.newStore in
  default p0 (phase_run (scenario_roles cfg) ls p0).

Definition worker_name (id : nat) : string := "worker-" +:+ pretty (Z.of_nat id).

Lemma scenario_lockee cfg id ro :
  scenario_roles cfg !! id = Some ro -> exists w, ro = Writer w /\ w_lockee w = worker_name id.
Proof.
  destruct ro as [w|].
  - intros ->%scenario_role. by eexists.
  - unfold scenario_roles. rewrite list_lookup_fmap. by destruct (seqZ _ _ !! id).
Qed.

(** C6: exclusion among the workers. In any scenario, against any server,
    however requests interleave, get lost or are handled late: take the
    workers that never gave up on an unlock of the key in question, in this
    phase or before it. Two of them that were both granted the key and whose
    unlock has not been handled are one and the same, and every answer to an
    unlock of such a worker is 200. A worker that gave up on an unlock is no
    exception by oversight: the server may handle that unlock after granting
    the key to the worker again ([late_unlock_breaks_exclusion]). *)
Theorem workers_exclude_each_other {St} `{LSL : LockServiceLaws St} cfg ls (s : St) net m p :
  ls_inv s -> Forall client_request net ->
  phase_run (scenario_roles cfg) ls (phase_start (scenario_roles cfg) s net m) = Some p ->
  let gave_up key id :=
    deleteLock key (worker_name id)
      ∈ net ++ abandoned (scenario_roles cfg) ls (phase_start (scenario_roles cfg) s net m) in
  (forall id1 id2 pc1 pc2 key,
     p_pcs p !! id1 = Some pc1 -> granted pc1 = Some key -> ~ gave_up key id1 ->
     p_pcs p !! id2 = Some pc2 -> granted pc2 = Some key -> ~ gave_up key id2 -> id1 = id2) /\
  (forall id pc key st, p_pcs p !! id = Some pc -> unlock_answer key pc = Some st -> ~ gave_up key id ->
     st = StatusOK).
Proof.
  intros Hi Hn Hrun gave_up. pose proof (scenario_fleet cfg) as Hf.
  destruct (phase_inv _ Hf (fun _ => True) ls _ p ltac:(done)
              (phase_start_base (scenario_roles cfg) s net m Hi Hn) I Hrun) as [Hb _].
  assert (forall id pc key, p_pcs p !! id = Some pc -> ~ gave_up key id ->
    exists w, scenario_roles cfg !! id = Some (Writer w) /\ keeps_key key (w_lockee w) p pc) as Hkeep.
  { intros id pc key Hp Hnot. destruct (b_pcs _ _ Hb _ _ Hp) as (ro & Hr & _).
    destruct (scenario_lockee _ _ _ Hr) as (w & -> & Hl). exists w. split; [done|].
    unfold gave_up in Hnot. rewrite <- Hl in Hnot.
    by apply (secure_run _ Hf id w key ls s net m p Hr Hi Hn Hnot Hrun). }
  split.
  - intros id1 id2 pc1 pc2 key P1 G1 N1 P2 G2 N2.
    destruct (Hkeep _ _ _ P1 N1) as (w1 & R1 & K1 & _), (Hkeep _ _ _ P2 N2) as (w2 & R2 & K2 & _).
    specialize (K1 G1). specialize (K2 G2). unfold holds in *. rewrite K1 in K2. injection K2 as K2.
    by apply (fleet_lockees _ Hf id1 id2 w1 w2).
  - intros id pc key st P U N. destruct (Hkeep _ _ _ P N) as (w & _ & _ & K). by apply K.
Qed.

Lemma workers_exclude_each_other_witness :
  let p := tiny_run tiny_shared first_acquire in
  p_pcs p !! 0%nat = Some (WAsk (ODelete 0 "key-0")) /\
  (forall id pc, p_pcs p !! id = Some pc -> granted pc = Some "key-0" ->
     deleteLock "key-0" (worker_name id) ∉ [] ++ abandoned (scenario_roles tiny_shared) first_acquire
                                  (start_of (scenario_roles tiny_shared) InMemory.newStore) -> 0%nat = id).
Proof.
  split; [vm_compute; reflexivity|]. intros id pc P G N.
  destruct (workers_exclude_each_other (St := InMemory.store) tiny_shared first_acquire InMemory.newStore []
    no_metrics (tiny_run tiny_shared first_acquire)) as [H _].
  - exact InMemory.newStore_inv.
  - constructor.
  - vm_compute. reflexivity.
  - apply (H 0%nat id (WAsk (ODelete 0 "key-0")) pc "key-0"); try assumption.
    + vm_compute. reflexivity.
    + reflexivity.
    + vm_compute. intros Hin. inversion Hin.
Defined.

(** The warmup ends while worker 0's unlock of [key-0] is in flight. *)
Definition cut_unlock : list wlabel :=
  first_acquire ++ [act 0; WDeadline; WGiveUp 0 ErrCanceled; act 0; act 0; act 0; act 0; act 1].
Definition warmed_up : phase InMemory.store := tiny_run tiny_shared cut_unlock.
(** In the measurement worker 0 is granted the key it still holds; then its
    old unlock arrives, and worker 1 is granted the key as well. *)
Definition late_unlock : list wlabel :=
  first_acquire ++ [WLate 0 7 insertion_order] ++ [act 1] ++ exchange 1 ++ [act 1].

Example late_unlock_breaks_exclusion :
  let p0 := phase_start (scenario_roles tiny_shared) (p_srv warmed_up) (p_net warmed_up) no_metrics in
  p_net warmed_up = [deleteLock "key-0" "worker-0"] /\
  (fun p => (p_pcs p !! 0%nat, p_pcs p !! 1%nat)) <$> phase_run (scenario_roles tiny_shared) late_unlock p0
    = Some (Some (WAsk (ODelete 0 "key-0")), Some (WAsk (ODelete 0 "key-0"))).
Proof. split; vm_compute; reflexivity. Qed.

(** C17: partitioned keys never conflict. In a scenario with partitioned keys,
    and in list_heavy, started with no pool key held, the conflict counter
    stays 0 in every interleaving, even when requests or replies are lost and
    the workers' own requests are handled late, those of an earlier phase of
    the same scenario included. *)
Theorem partitioned_never_conflict {St} `{LSL : LockServiceLaws St} cfg rs ls (s : St) net p :
  (rs = scenario_roles cfg /\ PartitionKeys cfg = true) \/ rs = list_heavy_roles ->
  ls_inv s -> (forall n, ls_abs s !! key_name n = None) -> Forall (own_request rs) net ->
  phase_run rs ls (phase_start rs s net no_metrics) = Some p ->
  m_conflicts (p_metrics p) = 0.
Proof.
  intros Hrs Hi Hfree Hnet Hrun.
  assert (fleet_ok rs /\ partitioned rs) as [Hf Hp].
  { destruct Hrs as [[-> Hp]| ->]; split; auto using scenario_fleet, scenario_partitioned,
      list_heavy_fleet, list_heavy_partitioned. }
  apply (ap_conflicts rs), (apart_run rs Hf ls s net p Hp Hi Hnet); [|done].
  intros id w k h Hr Hk Hh. exfalso.
  assert (exists n, k = key_name n) as [n ->].
  { destruct Hrs as [[-> Hpk]| ->].
    - apply scenario_role in Hr as ->. rewrite buildWorker_partition in Hk by done.
      apply elem_of_makeKeys in Hk as (n & -> & _). eauto.
    - apply list_heavy_role in Hr as ->. apply elem_of_makeKeys in Hk as (n & -> & _). eauto. }
  by rewrite Hfree in Hh.
Qed.

Lemma partitioned_never_conflict_witness :
  m_conflicts (p_metrics (tiny_run tiny first_acquire)) = 0.
Proof.
  apply (partitioned_never_conflict (St := InMemory.store) tiny (scenario_roles tiny) first_acquire InMemory.newStore []).
  - left. split; reflexivity.
  - exact InMemory.newStore_inv.
  - intros n. reflexivity.
  - constructor.
  - vm_compute. reflexivity.
Defined.

(** Worker 0 acquires and releases [key-0]; then the time is up. *)
Definition whole_phase : list wlabel := first_acquire ++ exchange 0 ++ [WDeadline; act 0; act 1].

(** C26: the counters add up. At every moment of a phase, for any behaviour of
    the network: the requests counted in [total] that are neither sampled nor
    counted as errors are exactly those of the goroutines between [total.Add]
    and the sample or [errors.Add], unless the channel was full; errors and
    conflicts, with those about to be counted, never exceed the total. When
    all goroutines have returned, the samples are the requests without an
    error, up to the capacity of the channel. *)
Theorem counters_consistent {St} `{LSL : LockServiceLaws St} rs ls (s : St) net p :
  fleet_ok rs -> ls_inv s -> Forall client_request net ->
  phase_run rs ls (phase_start rs s net no_metrics) = Some p ->
  counters p /\
  (all_stopped p ->
   Z.of_nat (length (m_latencies (p_metrics p))) =
     Z.min latency_capacity (m_total (p_metrics p) - m_errors (p_metrics p)) /\
   m_errors (p_metrics p) + m_conflicts (p_metrics p) <= m_total (p_metrics p)).
Proof.
  intros Hf Hi Hn Hrun. pose proof (counters_run rs Hf ls s net p Hi Hn Hrun) as Hc. split; [done|].
  intros Hst. destruct Hc as [? ? Ht Hs].
  assert (forall f : wpc -> nat, f WStopped = 0%nat -> total f (p_pcs p) = 0%nat) as Hz.
  { intros f Hf0. apply weigh_zero. intros id pc Hp. by rewrite (Hst id pc Hp). }
  rewrite !Hz in Ht by done. rewrite Hz in Hs by done. split; [rewrite Hs; f_equal|]; lia.
Qed.

Lemma counters_consistent_witness :
  counters (tiny_run tiny whole_phase) /\
  (all_stopped (tiny_run tiny whole_phase) ->
   Z.of_nat (length (m_latencies (p_metrics (tiny_run tiny whole_phase)))) =
     Z.min latency_capacity (m_total (p_metrics (tiny_run tiny whole_phase)) - m_errors (p_metrics (tiny_run tiny whole_phase))) /\
   m_errors (p_metrics (tiny_run tiny whole_phase)) + m_conflicts (p_metrics (tiny_run tiny whole_phase))
     <= m_total (p_metrics (tiny_run tiny whole_phase))).
Proof.
  apply (counters_consistent (scenario_roles tiny) whole_phase InMemory.newStore []).
  - exact (scenario_fleet tiny).
  - exact InMemory.newStore_inv.
  - constructor.
  - vm_compute. reflexivity.
Defined.

(** C30: a phase ends. Once the context has ended, the goroutines and the
    requests they have sent take at most ten more actions per goroutine in any
    schedule, whatever late requests are handled in between, and a schedule
    exists after which all of them have returned, so that [wg.Wait()] does. *)
Theorem phase_winds_down {St} `{LSL : LockServiceLaws St} rs (p : phase St) :
  fleet_ok rs -> base rs p -> p_crashed p = false -> p_done p = true ->
  (forall ls p', phase_run rs ls p = Some p' -> (steps_of ls <= 10 * size (p_pcs p))%nat) /\
  exists ls p', Forall (fun l => is_step l = true) ls /\ phase_run rs ls p = Some p' /\ all_stopped p'.
Proof.
  intros Hf Hb Hc Hd. split.
  - intros ls p' Hrun. pose proof (winds_down rs Hf ls p p' Hb Hd Hrun).
    pose proof (weigh_bound (fun _ => wrank) 10 (p_pcs p) (fun _ => wrank_le)). lia.
  - by apply can_stop.
Qed.

Lemma phase_winds_down_witness :
  let p := tiny_run tiny [act 0; act 0; WDeadline] in
  (forall ls p', phase_run (scenario_roles tiny) ls p = Some p' -> (steps_of ls <= 10 * size (p_pcs p))%nat) /\
  exists ls p', Forall (fun l => is_step l = true) ls /\ phase_run (scenario_roles tiny) ls p = Some p' /\
    all_stopped p'.
Proof.
  apply (phase_winds_down (scenario_roles tiny) (tiny_run tiny [act 0; act 0; WDeadline])).
  - exact (scenario_fleet tiny).
  - apply (phase_inv (scenario_roles tiny) (scenario_fleet tiny) (fun _ => True)
             [act 0; act 0; WDeadline] (start_of (scenario_roles tiny) InMemory.newStore)).
    + done.
    + apply phase_start_base; [exact InMemory.newStore_inv|constructor].
    + done.
    + vm_compute. reflexivity.
  - reflexivity.
  - reflexivity.
Defined.

(** C37: locks leak from one phase into the next. A key that is held, when a
    phase begins, by somebody who is none of its workers, and whose holder has
    no unlock on the way, stays held by the same holder since the same time
    through the whole phase, whatever is lost or late: no worker is ever
    granted it, every lock request for it that the server handles is answered
    409, and no unlock of it is ever sent. So a scenario with partitioned keys
    counts conflicts after a lock leaked from a scenario whose workers have
    other names. *)
Theorem leaked_lock_blocks_key {St} `{LSL : LockServiceLaws St} rs ls (s : St) net m p key h :
  fleet_ok rs -> ls_inv s -> Forall client_request net ->
  ls_abs s !! key = Some h -> foreign rs (h_lockee h) -> deleteLock key (h_lockee h) ∉ net ->
  phase_run rs ls (phase_start rs s net m) = Some p ->
  ls_abs (p_srv p) !! key = Some h /\
  forall id pc, p_pcs p !! id = Some pc ->
    granted pc <> Some key /\
    (forall i st, pc = WServed (OPost i key) st \/ pc = WReturned (OPost i key) (Ok st) \/
       pc = WCounted (OPost i key) (Ok st) \/ pc = WSampled i key st -> st = StatusConflict) /\
    (forall i, pc <> WSent (ODelete i key)).
Proof.
  intros Hf Hi Hn Hk Hfor Hnot Hrun.
  destruct (blocked_run rs Hf key h ls s net m p Hfor Hi Hn Hk Hnot Hrun) as [[Hheld _ Hpcs] Han].
  split; [done|]. intros id pc Hp. specialize (Hpcs id pc Hp). specialize (Han id pc Hp). cbn in Hpcs, Han.
  split_and!; [done| |by intros i ->].
  intros i st Hpc. destruct (Z.eqb_spec st StatusOK) as [->|Hne].
  - by destruct Hpc as [-> |[-> |[-> | ->]]].
  - by destruct Hpc as [-> |[-> |[-> | ->]]]; destruct Han.
Qed.

(** A lock request of the contention phase is cut off by the end of the phase
    and granted; the writers of list_heavy have other names. *)
Definition contention : scenarioCfg := mkScenarioCfg "contention" 50 5 0 0 false.
Definition cut_off_end : phase InMemory.store :=
  tiny_run contention
    ([act 0; act 0; WHandle 0 7 insertion_order; WDeadline; WGiveUp 0 ErrCanceled; act 0; act 0; act 0] ++
     (act <$> seq 0 50)).
Definition list_heavy_end : phase InMemory.store :=
  let p0 := start_of list_heavy_roles (p_srv cut_off_end) in
  default p0 (phase_run list_heavy_roles first_acquire p0).

Lemma leaked_lock_blocks_key_witness :
  m_conflicts (p_metrics list_heavy_end) = 1 /\
  ls_abs (p_srv list_heavy_end) !! "key-0" = Some (Hold "worker-0" 7).
Proof.
  split; [vm_compute; reflexivity|].
  apply (leaked_lock_blocks_key list_heavy_roles first_acquire (p_srv cut_off_end) [] no_metrics list_heavy_end
           "key-0" (Hold "worker-0" 7)).
  - exact list_heavy_fleet.
  - apply (phase_inv (scenario_roles contention) (scenario_fleet contention) (fun _ => True)
      ([act 0; act 0; WHandle 0 7 insertion_order; WDeadline; WGiveUp 0 ErrCanceled; act 0; act 0; act 0] ++
     (act <$> seq 0 50)) (start_of (scenario_roles contention) InMemory.newStore)).
    + done.
    + apply phase_start_base; [exact InMemory.newStore_inv|constructor].
    + done.
    + vm_compute. reflexivity.
  - constructor.
  - vm_compute. reflexivity.
  - intros id w ->%list_heavy_role. cbn. intros E. by apply (f_equal (String.get 1)) in E.
  - apply not_elem_of_nil.
  - vm_compute. reflexivity.
Defined.

Lemma Decode_Encode {T} (dec : json -> T * bool) v :
  printable 0 v -> Decode dec (Encode v) = if (dec v).2 then None else Some (dec v).1.
Proof. intros Hv. unfold Decode, Encode. by rewrite parse_print. Qed.

Lemma decode_payload_list ls :
  decode_payload (lockListResp (list_entries ls)) = (list_entries ls, false).
Proof.
  change (decode_slice (fun v : json => (v, false)) [] (JArr (list_entries ls)) = (list_entries ls, false)).
  unfold decode_slice. f_equal.
  - rewrite <- list_fmap_compose. apply list_fmap_id.
  - induction (list_entries ls) as [|v vs IH]; [done|]. exact IH.
Qed.

(** The leak check, once its request has been served. *)
Lemma leak_check_served {W} `{!Transport W} now t resp t' (w w' : W) :
  client_Do (mkRequest "GET" "/locks" "") w = (Ok (mkReply (status resp) (Ok (body resp))), w') ->
  api_step now (mkRequest "GET" "/locks" "") t resp t' -> table_ok t ->
  checkLeakedLocks w = (Z.of_nat (size t), w') /\ t' = t.
Proof.
  intros Hdo (Ha & ls & Hp & ->)%api_step_locks Ht. split; [|done]. unfold checkLeakedLocks. rewrite Hdo.
  cbn [Body writeJSON body].
  rewrite Decode_Encode by eauto using printable_list, table_ok_list.
  rewrite decode_payload_list. cbn [fst snd]. unfold list_entries.
  by rewrite length_fmap, Hp, length_locks_of.
Qed.

(** C34: the leak check counts the held locks. Against any server, with
    well-formed keys, checkLeakedLocks returns exactly the number of locks
    held when it asks, never the error value -1, and changes nothing. *)
Theorem leak_check_exact {St} `{LSL : LockServiceLaws St} clock its i (s : St) :
  ls_inv s -> table_ok (ls_abs s) ->
  exists s', @checkLeakedLocks _ (serve_transport clock its) (i, s)
             = (Z.of_nat (size (ls_abs s)), (S i, s')) /\ ls_abs s' = ls_abs s.
Proof.
  intros Hi Ht.
  destruct (serve_refines (clock i) (its i) (mkRequest "GET" "/locks" "") s Hi) as (resp & s' & E & _ & Hs).
  exists s'. eapply (@leak_check_served _ (serve_transport clock its)); [|exact Hs|done].
  unfold client_Do, serve_transport. cbn [fst snd]. by rewrite E.
Qed.

Lemma leak_check_exact_witness :
  exists s', @checkLeakedLocks _ (serve_transport (fun _ => 0) (fun _ => insertion_order))
               (0%nat, p_srv (tiny_run tiny first_acquire)) = (1, (1%nat, s')) /\
    ls_abs s' = ls_abs (p_srv (tiny_run tiny first_acquire)).
Proof.
  assert (Z.of_nat (size (ls_abs (p_srv (tiny_run tiny first_acquire)))) = 1) as <- by (vm_compute; reflexivity).
  apply (leak_check_exact (St := InMemory.store) (fun _ => 0) (fun _ => insertion_order) 0
           (p_srv (tiny_run tiny first_acquire))).
  - apply (InMemory.acquire_inv 7 "key-0" "worker-0" false InMemory.newStore InMemory.newStore_inv).
  - change (table_ok (<["key-0" := Hold "worker-0" 7]> ∅)).
    apply map_Forall_insert_2; [|exact (map_Forall_empty entry_ok)].
    split_and!; [discriminate|apply utf8_ascii; reflexivity|discriminate|apply utf8_ascii; reflexivity].
Defined.
