(* ===== verification/Float64.v ===== *)
(** * Go's [float64]

    The numbers are the [spec_float]s of precision 53 and maximal exponent
    1024: signed zeros, infinities, one NaN, and [m * 2 ^ e] with a positive
    [m]. Arithmetic is IEEE 754 arithmetic rounded to nearest, ties to even,
    as the Go specification prescribes. *)

From S2P Require Import Prelude.
From Stdlib Require Export SpecFloat.
From stdpp Require Import options.
Local Open Scope Z_scope.

Definition prec64 : Z := 53.
Definition emax64 : Z := 1024.

Definition fzero : spec_float := S754_zero false.

(** [float64(n)] for an integer [n] *)
Definition of_int (n : Z) : spec_float := binary_normalize prec64 emax64 n 0 false.

Definition fadd : spec_float -> spec_float -> spec_float := SFadd prec64 emax64.
Definition fmul : spec_float -> spec_float -> spec_float := SFmul prec64 emax64.
Definition fdiv : spec_float -> spec_float -> spec_float := SFdiv prec64 emax64.
Definition fltb : spec_float -> spec_float -> bool := SFltb.
Definition fleb : spec_float -> spec_float -> bool := SFleb.

(** Neither infinite nor NaN. *)
Definition is_finite (f : spec_float) : bool :=
  match f with S754_zero _ | S754_finite _ _ _ => true | _ => false end.

(** [int(f)]: the fraction is dropped. Go leaves a value that does not fit
    implementation-defined, which is [None] here. *)
Definition to_int (f : spec_float) : option Z :=
  match f with
  | S754_zero _ => Some 0
  | S754_finite s m e =>
      let a := if 0 <=? e then Zpos m * 2 ^ e else Zpos m / 2 ^ (- e) in
      let n := if s then - a else a in
      if (- 2 ^ 63 <=? n) && (n <? 2 ^ 63) then Some n else None
  | _ => None
  end.

(** [d.Seconds()] of a duration in nanoseconds: whole seconds plus the rest. *)
Definition Seconds (d : Z) : spec_float :=
  fadd (of_int (Z.quot d 1000000000)) (fdiv (of_int (Z.rem d 1000000000)) (of_int 1000000000)).

(** [d.Milliseconds()] *)
Definition Milliseconds (d : Z) : Z := Z.quot d 1000000.

(** ** Rounding a quotient of integers to the nearest integer, ties to even *)

Definition rne (N D : Z) : Z :=
  let q := N / D in
  match 2 * (N mod D) ?= D with
  | Lt => q
  | Eq => if Z.even q then q else q + 1
  | Gt => q + 1
  end.

#[export] Instance spec_float_eq_dec : EqDecision spec_float.
Proof. solve_decision. Defined.
