(* ===== verification/Float64Facts.v ===== *)
(** * Rounding of [float64] arithmetic

    A positive value is measured in units of [2 ^ -2148], the product of two
    smallest numbers, so that every exponent that occurs before rounding is an
    integer number of units. [rounded X D V] says that [V] units is the
    [float64] nearest to [X / D] units. The arithmetic of [Float64] rounds in
    this sense on the range the programs use, and everything else follows
    from two facts: rounding is monotone, and it fixes what is representable. *)

From S2P Require Import Prelude Float64.
From stdpp Require Import options.
Local Open Scope Z_scope.

(** ** [rne] *)

Lemma rne_cases N D : 0 < D -> rne N D = N / D \/ rne N D = N / D + 1.
Proof. intros _. unfold rne. destruct (_ ?= _); [destruct (Z.even _)|..]; auto. Qed.

Lemma rne_exact q D : 0 < D -> rne (q * D) D = q.
Proof.
  intros HD. unfold rne. rewrite Z.mod_mul, Z.div_mul by lia.
  by replace (2 * 0 ?= D) with Lt by (symmetry; apply Z.compare_lt_iff; lia).
Qed.

Lemma rne_mono N1 D1 N2 D2 :
  0 < D1 -> 0 < D2 -> N1 * D2 <= N2 * D1 -> rne N1 D1 <= rne N2 D2.
Proof.
  intros H1 H2 H.
  pose proof (Z.div_mod N1 D1 ltac:(lia)) as E1. pose proof (Z.div_mod N2 D2 ltac:(lia)) as E2.
  pose proof (Z.mod_pos_bound N1 D1 H1) as B1. pose proof (Z.mod_pos_bound N2 D2 H2) as B2.
  assert (N1 / D1 <= N2 / D2) as Hq by (apply Z.div_le_lower_bound; [done|nia]).
  destruct (Z.eq_dec (N1 / D1) (N2 / D2)) as [Eq|].
  - assert (N1 mod D1 * D2 <= N2 mod D2 * D1) as Hr.
    { rewrite E1, E2, <- Eq in H. nia. }
    unfold rne. rewrite <- Eq. clear - H1 H2 B1 B2 Hr.
    destruct (Z.compare_spec (2 * (N1 mod D1)) D1), (Z.compare_spec (2 * (N2 mod D2)) D2);
      try destruct (Z.even (N1 / D1)); try lia; exfalso; nia.
  - pose proof (rne_cases N1 D1 H1). pose proof (rne_cases N2 D2 H2). lia.
Qed.

(** ** Where a quotient lies between two integers *)

Definition loc_of (r D : Z) : location :=
  if r =? 0 then loc_Exact else loc_Inexact (2 * r ?= D).

Definition inbetween (m : Z) (l : location) (N D : Z) : Prop :=
  exists r, N = m * D + r /\ 0 <= r < D /\ l = loc_of r D.

Lemma inbetween_exact m N : N = m -> inbetween m loc_Exact N 1.
Proof. intros ->. exists 0. split_and!; [lia|lia|lia|done]. Qed.

Lemma round_inbetween m l N D : inbetween m l N D -> round_nearest_even m l = rne N D.
Proof.
  intros (r & -> & Hr & ->). unfold rne.
  rewrite Z.add_comm, Z.div_add, Z.mod_add, Z.div_small, Z.mod_small by lia.
  unfold loc_of. destruct (Z.eqb_spec r 0) as [->|].
  - by replace (2 * 0 ?= D) with Lt by (symmetry; apply Z.compare_lt_iff; lia).
  - by destruct (_ ?= _).
Qed.

Lemma loc_shr_record m l : loc_of_shr_record (shr_record_of_loc m l) = l.
Proof. by destruct l as [|[]]. Qed.
Lemma m_shr_record m l : shr_m (shr_record_of_loc m l) = m.
Proof. by destruct l as [|[]]. Qed.

(** Dropping one bit. *)
Lemma shr_1_inbetween mrs N D :
  0 <= shr_m mrs -> inbetween (shr_m mrs) (loc_of_shr_record mrs) N D ->
  shr_m (shr_1 mrs) = shr_m mrs / 2 /\
  inbetween (shr_m (shr_1 mrs)) (loc_of_shr_record (shr_1 mrs)) N (2 * D).
Proof.
  intros Hm (r & -> & Hr & Hl).
  assert (exists b : bool, shr_m mrs = 2 * (shr_m mrs / 2) + Z.b2z b /\
    shr_1 mrs = Build_shr_record (shr_m mrs / 2) b (shr_r mrs || shr_s mrs)) as (b & E1 & E2).
  { destruct mrs as [m b s]; cbn in *. destruct m as [|[p|p|]|]; try lia.
    - by exists false.
    - exists true. change (Z.pos p~1) with (2 * Z.pos p + 1).
      replace ((2 * Z.pos p + 1) / 2) with (Z.pos p); [done|].
      apply (Z.div_unique _ _ _ 1); lia.
    - exists false. rewrite (Pos2Z.inj_xO p). replace (2 * Z.pos p / 2) with (Z.pos p); [cbn; split; [lia|done]|].
      apply (Z.div_unique _ _ _ 0); lia.
    - by exists true. }
  rewrite E2. cbn [shr_m]. split; [done|].
  exists (Z.b2z b * D + r). split_and!; [|destruct b; cbn; lia..|].
  { rewrite E1 at 1. lia. }
  assert (shr_r mrs || shr_s mrs = negb (r =? 0)) as ->.
  { unfold loc_of in Hl. destruct mrs as [m [] []]; cbn in *; destruct (r =? 0); done. }
  unfold loc_of. destruct b, (Z.eqb_spec r 0); cbn; try lia.
  - subst r. case_match; [lia|]. do 2 f_equal. symmetry. apply Z.compare_eq_iff. lia.
  - case_match; [lia|]. do 2 f_equal. symmetry. apply Z.compare_gt_iff. lia.
  - by subst r.
  - case_match; [lia|]. do 2 f_equal. symmetry. apply Z.compare_lt_iff. lia.
Qed.

Lemma iter_shr p : forall mrs N D,
  0 < D -> 0 <= shr_m mrs -> inbetween (shr_m mrs) (loc_of_shr_record mrs) N D ->
  let mrs' := iter_pos shr_1 p mrs in
  0 <= shr_m mrs' /\ inbetween (shr_m mrs') (loc_of_shr_record mrs') N (D * 2 ^ Zpos p).
Proof.
  induction p as [p IH|p IH|]; intros mrs N D HD Hm Hi; cbn [iter_pos];
    try pose proof (Z.pow_pos_nonneg 2 (Zpos p) ltac:(lia) ltac:(lia)) as Hp.
  - destruct (shr_1_inbetween mrs N D Hm Hi) as [E1 H1].
    destruct (IH (shr_1 mrs) N (2 * D)) as [H2 H3]; [lia| |done|].
    { rewrite E1. apply Z.div_pos; lia. }
    destruct (IH _ N (2 * D * 2 ^ Zpos p) ltac:(nia) H2 H3) as [H4 H5]. split; [done|].
    replace (D * 2 ^ Z.pos p~1) with (2 * D * 2 ^ Z.pos p * 2 ^ Z.pos p); [done|].
    rewrite (Pos2Z.inj_xI p), Z.pow_add_r, Z.pow_twice_r by lia. lia.
  - destruct (IH mrs N D HD Hm Hi) as [H2 H3].
    destruct (IH _ N (D * 2 ^ Zpos p) ltac:(nia) H2 H3) as [H4 H5]. split; [done|].
    replace (D * 2 ^ Z.pos p~0) with (D * 2 ^ Z.pos p * 2 ^ Z.pos p); [done|].
    rewrite (Pos2Z.inj_xO p), Z.pow_twice_r. lia.
  - destruct (shr_1_inbetween mrs N D Hm Hi) as [E1 H1]. split.
    + rewrite E1. apply Z.div_pos; lia.
    + by rewrite Z.mul_comm.
Qed.

(** ** Bit lengths *)

Lemma digits_log2 m : Zpos (digits2_pos m) = Z.log2 (Zpos m) + 1.
Proof.
  assert (forall p, 0 < Zpos p) as Hp by (intros; lia).
  induction m as [m IH|m IH|]; cbn [digits2_pos]; [| |done]; rewrite Pos2Z.inj_succ, IH.
  - rewrite (Pos2Z.inj_xI m), Z.log2_succ_double by done. lia.
  - rewrite (Pos2Z.inj_xO m), Z.log2_double by done. lia.
Qed.

Lemma Zdigits_log2 m : 0 < m -> Zdigits2 m = Z.log2 m + 1.
Proof. destruct m as [|m|m]; try lia. intros _. apply digits_log2. Qed.

Lemma log2_pow_bounds m k : 0 <= k -> 2 ^ k <= m < 2 ^ (k + 1) -> Z.log2 m = k.
Proof. intros Hk Hm. by apply Z.log2_unique. Qed.

(** ** Rounding to a [float64] *)

(** One is [2 ^ unit_exp] units. *)
Definition unit_exp : Z := 2148.
Definition one : Z := 2 ^ unit_exp.

Definition rounded (X D V : Z) : Prop :=
  exists k, 0 <= k /\ 2 ^ 52 * (D * 2 ^ k) <= X < 2 ^ 53 * (D * 2 ^ k) /\
            V = rne X (D * 2 ^ k) * 2 ^ k.

(** A number of 53 significant bits. *)
Definition representable (V : Z) : Prop :=
  exists m k, 0 <= k /\ 2 ^ 52 <= m < 2 ^ 53 /\ V = m * 2 ^ k.

Lemma pow2_pos k : 0 <= k -> 0 < 2 ^ k.
Proof. intros Hk. by apply Z.pow_pos_nonneg. Qed.

Lemma pow2_split a b : 0 <= b <= a -> 2 ^ a = 2 ^ b * 2 ^ (a - b).
Proof. intros. rewrite <- Z.pow_add_r by lia. f_equal. lia. Qed.

Lemma rne_bounds N D a b : 0 < D -> a * D <= N <= b * D -> a <= rne N D <= b.
Proof.
  intros HD HN. rewrite <- (rne_exact a D), <- (rne_exact b D) by done. split; apply rne_mono; nia.
Qed.

Lemma rounded_mono X1 D1 V1 X2 D2 V2 :
  0 < D1 -> 0 < D2 -> rounded X1 D1 V1 -> rounded X2 D2 V2 -> X1 * D2 <= X2 * D1 -> V1 <= V2.
Proof.
  intros H1 H2 (k1 & K1 & B1 & ->) (k2 & K2 & B2 & ->) H.
  pose proof (pow2_pos k1 K1) as P1. pose proof (pow2_pos k2 K2) as P2.
  assert (0 < D1 * 2 ^ k1) as Q1 by nia. assert (0 < D2 * 2 ^ k2) as Q2 by nia.
  destruct (Z.lt_trichotomy k1 k2) as [Hk|[->|Hk]].
  - pose proof (rne_bounds X1 _ (2 ^ 52) (2 ^ 53) Q1 ltac:(lia)).
    pose proof (rne_bounds X2 _ (2 ^ 52) (2 ^ 53) Q2 ltac:(lia)).
    assert (2 ^ 1 * 2 ^ k1 <= 2 ^ k2).
    { rewrite <- Z.pow_add_r by lia. apply Z.pow_le_mono_r; lia. }
    change (2 ^ 53) with (2 * 2 ^ 52) in *. nia.
  - apply Z.mul_le_mono_nonneg_r; [lia|]. apply rne_mono; [done..|nia].
  - exfalso. assert (2 ^ 1 * 2 ^ k2 <= 2 ^ k1).
    { rewrite <- Z.pow_add_r by lia. apply Z.pow_le_mono_r; lia. }
    change (2 ^ 53) with (2 * 2 ^ 52) in *.
    assert (2 ^ 52 * (D1 * 2 ^ k1) * D2 < 2 * 2 ^ 52 * (D2 * 2 ^ k2) * D1) by nia.
    change (2 ^ 1) with 2 in *. nia.
Qed.

Lemma rounded_exact V D : 0 < D -> representable V -> rounded (V * D) D V.
Proof.
  intros HD (m & k & Hk & Hm & ->). exists k. pose proof (pow2_pos k Hk).
  replace (m * 2 ^ k * D) with (m * (D * 2 ^ k)) by lia.
  split_and!; [done|nia|nia|]. by rewrite rne_exact by nia.
Qed.

Lemma rounded_ge X D V W : 0 < D -> rounded X D V -> representable W -> W * D <= X -> W <= V.
Proof.
  intros HD HV HW H. apply (rounded_mono (W * D) D W X D V); eauto using rounded_exact. nia.
Qed.

Lemma rounded_le X D V W : 0 < D -> rounded X D V -> representable W -> X <= W * D -> V <= W.
Proof.
  intros HD HV HW H. apply (rounded_mono X D V (W * D) D W); eauto using rounded_exact. nia.
Qed.

Lemma rounded_unique X D V W : 0 < D -> rounded X D V -> rounded X D W -> V = W.
Proof. intros HD H1 H2. apply Z.le_antisymm; eapply rounded_mono; eauto; lia. Qed.

(** Integers of at most 53 bits, scaled. *)
Lemma representable_int i k : 0 < i < 2 ^ 53 -> 53 <= k -> representable (i * 2 ^ k).
Proof.
  intros Hi Hk. pose proof (Z.log2_nonneg i) as Hl. destruct (Z.log2_spec i ltac:(lia)) as [L1 L2].
  assert (Z.log2 i < 53) by (apply Z.log2_lt_pow2; lia).
  pose proof (pow2_pos (52 - Z.log2 i) ltac:(lia)) as P.
  exists (i * 2 ^ (52 - Z.log2 i)), (k - (52 - Z.log2 i)). split_and!.
  - lia.
  - rewrite (pow2_split 52 (Z.log2 i)) by lia. nia.
  - rewrite (pow2_split 53 (Z.succ (Z.log2 i))) by lia.
    replace (53 - Z.succ (Z.log2 i)) with (52 - Z.log2 i) by lia. nia.
  - rewrite <- Z.mul_assoc, <- Z.pow_add_r by lia. do 2 f_equal. lia.
Qed.

Lemma representable_pow2 k : 53 <= k -> representable (2 ^ k).
Proof. intros Hk. rewrite <- (Z.mul_1_l (2 ^ k)). by apply representable_int. Qed.

(** ** Normal numbers *)

(** The units of a positive normal number. *)
Definition normal (f : spec_float) (V : Z) : Prop :=
  exists m e, f = S754_finite false m e /\ 2 ^ 52 <= Zpos m < 2 ^ 53 /\ -1074 <= e <= 971 /\
              V = Zpos m * 2 ^ (e + unit_exp).

(** [X / D] units are well inside the range of normal numbers. *)
Definition in_range (X D : Z) : Prop :=
  D * 2 ^ (unit_exp - 1000) <= X < D * 2 ^ (unit_exp + 1000).

Lemma fexp_normal d : -1021 <= d -> fexp prec64 emax64 d = d - 53.
Proof. intros. unfold fexp, emin, prec64, emax64. lia. Qed.

(** The last step: renormalize after a carry. *)
Lemma carry R e :
  2 ^ 52 <= R <= 2 ^ 53 -> -1074 <= e <= 970 ->
  let '(mrs, e') := shr_fexp prec64 emax64 R e loc_Exact in
  2 ^ 52 <= shr_m mrs < 2 ^ 53 /\ e <= e' <= e + 1 /\ shr_m mrs * 2 ^ (e' + unit_exp) = R * 2 ^ (e + unit_exp).
Proof.
  intros HR He. unfold shr_fexp. rewrite Zdigits_log2 by lia.
  destruct (Z.eq_dec R (2 ^ 53)) as [->|].
  - change (Z.log2 (2 ^ 53)) with 53. rewrite fexp_normal by lia.
    replace (53 + 1 + e - 53 - e) with 1 by lia. vm_compute (shr_record_of_loc _ _).
    cbn [shr iter_pos shr_1 shr_m]. change 4503599627370496 with (2 ^ 52).
    split_and!; [lia..|].
    rewrite <- !Z.pow_add_r by (unfold unit_exp; lia). f_equal. lia.
  - rewrite (log2_pow_bounds R 52) by lia. rewrite fexp_normal by lia.
    replace (52 + 1 + e - 53 - e) with 0 by lia. cbn [shr]. rewrite m_shr_record. split_and!; lia.
Qed.

Lemma binary_round_aux_spec m e l N D :
  0 < D -> 0 < m -> inbetween m l N D -> -unit_exp <= e -> 53 <= Zdigits2 m ->
  -1021 <= Zdigits2 m + e <= 1020 ->
  exists V, normal (binary_round_aux prec64 emax64 false m e l) V /\
            rounded (N * 2 ^ (e + unit_exp)) D V.
Proof.
  intros HD Hm Hi He Hd Hr. rewrite Zdigits_log2 in * by done.
  set (k := Z.log2 m + 1 - 53). destruct (Z.log2_spec m Hm) as [L1 L2].
  assert (exists mrs, shr_fexp prec64 emax64 m e l = (mrs, e + k) /\
    inbetween (shr_m mrs) (loc_of_shr_record mrs) N (D * 2 ^ k)) as (mrs & E & Hi').
  { unfold shr_fexp. rewrite Zdigits_log2, fexp_normal by lia.
    replace (Z.log2 m + 1 + e - 53 - e) with k by lia. destruct k as [|p|p] eqn:Ek; [| |lia].
    - eexists. split; [cbn [shr]; f_equal; lia|].
      by rewrite m_shr_record, loc_shr_record, Z.mul_1_r.
    - eexists. split; [done|]. apply iter_shr; rewrite ?m_shr_record, ?loc_shr_record; [lia..|done]. }
  assert (0 <= k) as Hk by lia. pose proof (pow2_pos k Hk) as Pk.
  assert (2 ^ Z.log2 m = 2 ^ 52 * 2 ^ k) as EL.
  { rewrite <- Z.pow_add_r by lia. f_equal. lia. }
  rewrite Z.pow_succ_r, EL in L2 by lia. rewrite EL in L1.
  assert (2 ^ 52 * (D * 2 ^ k) <= N < 2 ^ 53 * (D * 2 ^ k)) as HN.
  { destruct Hi as (r & -> & ? & _). change (2 ^ 53) with (2 * 2 ^ 52). nia. }
  pose proof (round_inbetween _ _ _ _ Hi') as ER.
  pose proof (rne_bounds N (D * 2 ^ k) (2 ^ 52) (2 ^ 53) ltac:(nia) ltac:(lia)) as HR.
  unfold binary_round_aux. rewrite E, ER.
  pose proof (carry (rne N (D * 2 ^ k)) (e + k) HR ltac:(lia)) as Hc.
  destruct (shr_fexp _ _ (rne _ _) _ _) as [mrs'' e'']. destruct Hc as (C1 & C2 & C3).
  destruct (shr_m mrs'') as [|p|p]; [lia| |lia].
  rewrite (proj2 (Z.leb_le _ _)) by (unfold prec64, emax64; lia).
  exists (rne N (D * 2 ^ k) * 2 ^ (e + k + unit_exp)).
  split; [exists p, e''; split_and!; [done|lia..|by rewrite C3]|]. pose proof (pow2_pos (e + unit_exp) ltac:(lia)) as Pe.
  assert (2 ^ (e + k + unit_exp) = 2 ^ k * 2 ^ (e + unit_exp)) as E2.
  { rewrite <- Z.pow_add_r by lia. f_equal. lia. }
  exists (e + k + unit_exp). split; [lia|]. rewrite E2. split; [nia|].
  f_equal. apply Z.le_antisymm; apply rne_mono; nia.
Qed.

(** Bounds on a quotient do not depend on how it is written. *)
Lemma cross_bounds X D X' D' a b :
  0 < D -> 0 < D' -> X * D' = X' * D -> D * a <= X < D * b -> D' * a <= X' < D' * b.
Proof.
  intros HD HD' E [H1 H2]. split.
  - apply (Z.mul_le_mono_pos_l _ _ D HD). nia.
  - apply (Z.mul_lt_mono_pos_l D _ _ HD). nia.
Qed.

Lemma rounded_cross X D V X' D' :
  0 < D -> 0 < D' -> X * D' = X' * D -> rounded X D V -> rounded X' D' V.
Proof.
  intros HD HD' E (k & Hk & HX & ->). pose proof (pow2_pos k Hk). exists k. split_and!; [done|..].
  1-2: pose proof (cross_bounds X D X' D' (2 ^ 52 * 2 ^ k) (2 ^ 53 * 2 ^ k) HD HD' E ltac:(lia)); lia.
  assert (X * (D' * 2 ^ k) = X' * (D * 2 ^ k)) by (rewrite !Z.mul_assoc, E; lia).
  f_equal. apply Z.le_antisymm; apply rne_mono; nia.
Qed.

Lemma in_range_cross X D X' D' :
  0 < D -> 0 < D' -> X * D' = X' * D -> in_range X D -> in_range X' D'.
Proof. intros HD HD' E. by apply cross_bounds. Qed.

Lemma in_range_digits m l N D e :
  0 < D -> 0 < m -> inbetween m l N D -> -unit_exp <= e -> in_range (N * 2 ^ (e + unit_exp)) D ->
  -1001 < Z.log2 m + e < 1000.
Proof.
  intros HD Hm (r & -> & Hr & _) He [H1 H2]. destruct (Z.log2_spec m Hm) as [L1 L2].
  pose proof (Z.log2_nonneg m). pose proof (pow2_pos (e + unit_exp) ltac:(lia)) as Pe.
  split.
  - assert (D * 2 ^ (unit_exp - 1000) < D * 2 ^ (Z.succ (Z.log2 m) + (e + unit_exp))) as Hlt.
    { rewrite Z.pow_add_r by lia. eapply Z.le_lt_trans; [exact H1|]. rewrite Z.mul_assoc.
      apply Z.mul_lt_mono_pos_r; [done|]. nia. }
    apply Z.mul_lt_mono_pos_l, Z.pow_lt_mono_r_iff in Hlt; lia.
  - assert (D * 2 ^ (Z.log2 m + (e + unit_exp)) < D * 2 ^ (unit_exp + 1000)) as Hlt.
    { rewrite (Z.pow_add_r 2 (Z.log2 m)) by lia. eapply Z.le_lt_trans; [|exact H2]. rewrite Z.mul_assoc.
      apply Z.mul_le_mono_pos_r; [done|]. nia. }
    apply Z.mul_lt_mono_pos_l, Z.pow_lt_mono_r_iff in Hlt; unfold unit_exp in *; lia.
Qed.

Lemma round_aux_in_range m e l N D :
  0 < D -> 0 < m -> inbetween m l N D -> -unit_exp <= e -> 53 <= Zdigits2 m ->
  in_range (N * 2 ^ (e + unit_exp)) D ->
  exists V, normal (binary_round_aux prec64 emax64 false m e l) V /\
            rounded (N * 2 ^ (e + unit_exp)) D V.
Proof.
  intros HD Hm Hi He Hd Hr. pose proof (in_range_digits _ _ _ _ _ HD Hm Hi He Hr).
  apply binary_round_aux_spec; try done. rewrite Zdigits_log2 by done. lia.
Qed.

Lemma iter_xO p m : Zpos (Pos.iter xO m p) = Zpos m * 2 ^ Zpos p.
Proof.
  induction p as [|p IH] using Pos.peano_ind; [cbn; lia|].
  rewrite Pos.iter_succ, (Pos2Z.inj_xO (Pos.iter _ _ _)), IH, Pos2Z.inj_succ, Z.pow_succ_r by lia. lia.
Qed.

Lemma binary_round_spec m e :
  -unit_exp <= e -> in_range (Zpos m * 2 ^ (e + unit_exp)) 1 ->
  exists V, normal (binary_round prec64 emax64 false m e) V /\
            rounded (Zpos m * 2 ^ (e + unit_exp)) 1 V.
Proof.
  intros He Hr.
  pose proof (in_range_digits _ _ _ _ _ Z.lt_0_1 (Pos2Z.is_pos m) (inbetween_exact _ _ eq_refl) He Hr) as HL.
  unfold binary_round, shl_align. rewrite fexp_normal by (rewrite digits_log2; lia).
  destruct (_ - _ - _) as [|p|p] eqn:E.
  3: { assert (Zpos (Pos.iter xO m p) * 2 ^ (Zpos (digits2_pos m) + e - 53 + unit_exp)
               = Zpos m * 2 ^ (e + unit_exp)) as EV.
       { rewrite iter_xO, <- Z.mul_assoc, <- Z.pow_add_r by (rewrite ?digits_log2; unfold unit_exp; lia).
         do 2 f_equal. lia. }
       rewrite <- EV in *. apply round_aux_in_range; try done.
       - by apply inbetween_exact.
       - rewrite digits_log2. unfold unit_exp. lia.
       - rewrite Zdigits_log2, iter_xO, Z.log2_mul_pow2 by lia. rewrite digits_log2 in E. lia. }
  all: apply round_aux_in_range; try done; [by apply inbetween_exact|cbn; lia].
Qed.

(** ** The operations on normal numbers *)

Lemma normal_pos f V : normal f V -> 0 < V.
Proof. intros (m & e & _ & Hm & He & ->). pose proof (pow2_pos (e + unit_exp)). unfold unit_exp in *. lia. Qed.

Lemma fmul_spec x y Vx Vy :
  normal x Vx -> normal y Vy -> in_range (Vx * Vy) one ->
  exists V, normal (fmul x y) V /\ rounded (Vx * Vy) one V.
Proof.
  intros (mx & ex & -> & Hmx & Hex & ->) (my & ey & -> & Hmy & Hey & ->) Hr.
  assert (Zpos (mx * my) * 2 ^ (ex + ey + unit_exp) * one
          = Zpos mx * 2 ^ (ex + unit_exp) * (Zpos my * 2 ^ (ey + unit_exp)) * 1) as EV.
  { unfold one. rewrite <- Z.mul_assoc, <- Z.pow_add_r by (unfold unit_exp; lia).
    replace (ex + ey + unit_exp + unit_exp) with ((ex + unit_exp) + (ey + unit_exp)) by lia.
    rewrite (Z.pow_add_r 2 (ex + unit_exp)) by (unfold unit_exp; lia). lia. }
  assert (0 < one) by (by apply pow2_pos).
  destruct (round_aux_in_range (Zpos (mx * my)) (ex + ey) loc_Exact (Zpos (mx * my)) 1) as (V & HV & HR).
  - lia.
  - lia.
  - by apply inbetween_exact.
  - unfold unit_exp. lia.
  - rewrite Zdigits_log2 by lia. assert (52 <= Z.log2 (Zpos (mx * my))); [|lia].
    apply Z.log2_le_pow2; lia.
  - eapply (in_range_cross _ _ _ _ _ _ (eq_sym EV)), Hr.
  - exists V. split; [exact HV|]. eapply (rounded_cross _ _ _ _ _ _ _ EV), HR.
  Unshelve. all: lia.
Qed.

Lemma new_location_spec r D : 0 <= r < D -> new_location D r = loc_of r D.
Proof.
  intros Hr. unfold new_location, new_location_even, new_location_odd, loc_of.
  destruct (Z.even D) eqn:E; [done|]. destruct (r =? 0); [done|]. f_equal.
  rewrite <- Z.negb_odd in E. apply negb_false_iff, Z.odd_spec in E as [c ->].
  destruct (Z.compare_spec (2 * r + 1) (2 * c + 1)), (Z.compare_spec (2 * r) (2 * c + 1)); lia || done.
Qed.

Lemma fdiv_spec x y Vx Vy :
  normal x Vx -> normal y Vy -> in_range (Vx * one) Vy ->
  exists V, normal (fdiv x y) V /\ rounded (Vx * one) Vy V.
Proof.
  intros (mx & ex & -> & Hmx & Hex & ->) (my & ey & -> & Hmy & Hey & ->) Hr.
  assert (0 < one) by (by apply pow2_pos).
  pose proof (pow2_pos (ey + unit_exp) ltac:(unfold unit_exp; lia)) as Py.
  assert (-1021 <= ex - ey) as Hlow.
  { destruct Hr as [H1 _]. apply Z.nlt_ge. intros Hlt. revert H1. apply Z.lt_nge.
    assert (2 * 2 ^ (ex + unit_exp) * 2 ^ unit_exp <= 2 ^ (ey + unit_exp) * 2 ^ (unit_exp - 1000)) as Hp.
    { rewrite <- Z.pow_succ_r, <- !Z.pow_add_r by (unfold unit_exp; lia).
      apply Z.pow_le_mono_r; [lia|]. lia. }
    change one with (2 ^ unit_exp).
    pose proof (pow2_pos (ex + unit_exp) ltac:(unfold unit_exp; lia)).
    set (A := 2 ^ (ex + unit_exp)) in *. set (B := 2 ^ unit_exp) in *.
    set (C := 2 ^ (ey + unit_exp)) in *. set (E := 2 ^ (unit_exp - 1000)) in *.
    assert (0 < B) by (by apply pow2_pos). clearbody A B C E.
    assert (0 < C * E) by nia. nia. }
  assert (mx_log : Zdigits2 (Zpos mx) = 53) by (rewrite Zdigits_log2, (log2_pow_bounds _ 52); lia).
  assert (my_log : Zdigits2 (Zpos my) = 53) by (rewrite Zdigits_log2, (log2_pow_bounds _ 52); lia).
  unfold fdiv, SFdiv, SFdiv_core_binary. rewrite mx_log, my_log, fexp_normal by lia.
  replace (Z.min _ _) with (ex - ey - 53) by lia. replace (ex - ey - (ex - ey - 53)) with 53 by lia.
  rewrite Z.shiftl_mul_pow2 by lia.
  pose proof (Z_div_mod (Zpos mx * 2 ^ 53) (Zpos my) ltac:(lia)) as Hdiv.
  destruct (Z.div_eucl _ _) as [q r]. destruct Hdiv as [Eq Hb]. rewrite new_location_spec by done.
  assert (2 ^ 52 <= q) by nia.
  assert (Zpos mx * 2 ^ 53 * 2 ^ (ex - ey - 53 + unit_exp) * (Zpos my * 2 ^ (ey + unit_exp))
          = Zpos mx * 2 ^ (ex + unit_exp) * one * Zpos my) as EV.
  { assert (2 ^ 53 * 2 ^ (ex - ey - 53 + unit_exp) * 2 ^ (ey + unit_exp) = 2 ^ (ex + unit_exp) * one) as Ep.
    { unfold one. rewrite <- !Z.pow_add_r by (unfold unit_exp; lia). f_equal. lia. }
    transitivity (Zpos mx * Zpos my * (2 ^ 53 * 2 ^ (ex - ey - 53 + unit_exp) * 2 ^ (ey + unit_exp))); [ring|].
    rewrite Ep. ring. }
  destruct (round_aux_in_range q (ex - ey - 53) (loc_of r (Zpos my)) (Zpos mx * 2 ^ 53) (Zpos my))
    as (V & HV & HR).
  - lia.
  - lia.
  - exists r. split_and!; [lia|lia|lia|done].
  - unfold unit_exp. lia.
  - rewrite Zdigits_log2 by lia. assert (52 <= Z.log2 q); [|lia]. apply Z.log2_le_pow2; lia.
  - eapply (in_range_cross _ _ _ _ _ _ (eq_sym EV)), Hr.
  - exists V. split; [exact HV|]. eapply (rounded_cross _ _ _ _ _ _ _ EV), HR.
  Unshelve. all: lia.
Qed.

Lemma fadd_spec x y Vx Vy :
  normal x Vx -> normal y Vy -> in_range (Vx + Vy) 1 ->
  exists V, normal (fadd x y) V /\ rounded (Vx + Vy) 1 V.
Proof.
  intros (mx & ex & -> & Hmx & Hex & ->) (my & ey & -> & Hmy & Hey & ->) Hr.
  assert (forall m e, Zpos (shl_align m e (Z.min ex ey)).1 * 2 ^ (Z.min ex ey + unit_exp)
    = Zpos m * 2 ^ (e + unit_exp) \/ e < Z.min ex ey) as Ha.
  { intros m e. destruct (Z_lt_le_dec e (Z.min ex ey)) as [|Hle]; [by right|left].
    unfold shl_align. destruct (_ - e) as [|p|p] eqn:E; [|lia|].
    - do 2 f_equal. lia.
    - cbn [fst]. rewrite iter_xO, <- Z.mul_assoc, <- Z.pow_add_r by (unfold unit_exp; lia).
      do 2 f_equal. lia. }
  destruct (Ha mx ex) as [E1|]; [|lia]. destruct (Ha my ey) as [E2|]; [|lia].
  rewrite <- E1, <- E2 in *. rewrite <- Z.mul_add_distr_r in *. cbn -[Z.mul Z.add Z.pow unit_exp].
  apply binary_round_spec; [unfold unit_exp; lia|done].
Qed.

(** ** Non-negative numbers *)

Definition nonneg (f : spec_float) (V : Z) : Prop := (f = fzero /\ V = 0) \/ normal f V.
Definition rounded0 (X D V : Z) : Prop := (X = 0 /\ V = 0) \/ (0 < X /\ rounded X D V).

Lemma nonneg_ge f V : nonneg f V -> 0 <= V.
Proof. intros [[_ ->]|H%normal_pos]; lia. Qed.

Lemma nonneg_finite f V : nonneg f V -> is_finite f = true.
Proof. by intros [[-> _]|(m & e & -> & _)]. Qed.

Lemma rounded_pos X D V : 0 < D -> rounded X D V -> 0 < V.
Proof.
  intros HD (k & Hk & HX & ->). pose proof (pow2_pos k Hk).
  pose proof (rne_bounds X (D * 2 ^ k) (2 ^ 52) (2 ^ 53) ltac:(nia) ltac:(lia)). lia.
Qed.

Lemma rounded0_mono X1 D1 V1 X2 D2 V2 :
  0 < D1 -> 0 < D2 -> rounded0 X1 D1 V1 -> rounded0 X2 D2 V2 -> X1 * D2 <= X2 * D1 -> V1 <= V2.
Proof.
  intros H1 H2 [[-> ->]|[P1 R1]] [[-> ->]|[P2 R2]] H; [lia| |nia|].
  - apply rounded_pos in R2; lia.
  - exact (rounded_mono _ _ _ _ _ _ H1 H2 R1 R2 H).
Qed.

Lemma normal_units_lt m e m' e' :
  2 ^ 52 <= m < 2 ^ 53 -> 2 ^ 52 <= m' < 2 ^ 53 -> -1074 <= e < e' ->
  m * 2 ^ (e + unit_exp) < m' * 2 ^ (e' + unit_exp).
Proof.
  intros Hm Hm' He. pose proof (pow2_pos (e + unit_exp) ltac:(unfold unit_exp; lia)).
  assert (2 ^ 1 * 2 ^ (e + unit_exp) <= 2 ^ (e' + unit_exp)).
  { rewrite <- Z.pow_add_r by (unfold unit_exp; lia). apply Z.pow_le_mono_r; lia. }
  change (2 ^ 53) with (2 * 2 ^ 52) in *. change (2 ^ 1) with 2 in *. nia.
Qed.

(** The comparisons compare the values. *)
Lemma SFcompare_nonneg f g V W :
  nonneg f V -> nonneg g W -> SFcompare f g = Some (V ?= W).
Proof.
  intros [[-> ->]|Hf] [[-> ->]|Hg].
  - done.
  - pose proof (normal_pos _ _ Hg). destruct Hg as (m & e & -> & _). cbn -[Z.compare]. f_equal. symmetry.
    by apply Z.compare_lt_iff.
  - pose proof (normal_pos _ _ Hf). destruct Hf as (m & e & -> & _). cbn -[Z.compare]. f_equal. symmetry.
    by apply Z.compare_gt_iff.
  - destruct Hf as (m & e & -> & Hm & He & ->), Hg as (m' & e' & -> & Hm' & He' & ->).
    cbn -[Z.pow Z.mul unit_exp Z.compare]. f_equal. symmetry. destruct (Z.compare_spec e e') as [->|Hlt|Hgt].
    + rewrite <- Zmult_compare_compat_r by (apply Z.lt_gt, pow2_pos; unfold unit_exp; lia). done.
    + apply Z.compare_lt_iff, normal_units_lt; lia.
    + apply Z.compare_gt_iff, normal_units_lt; lia.
Qed.

Lemma fleb_nonneg f g V W : nonneg f V -> nonneg g W -> fleb f g = (V <=? W).
Proof.
  intros Hf Hg. unfold fleb, SFleb. rewrite (SFcompare_nonneg f g V W) by done.
  unfold Z.leb. by destruct (V ?= W).
Qed.

Lemma fltb_nonneg f g V W : nonneg f V -> nonneg g W -> fltb f g = (V <? W).
Proof.
  intros Hf Hg. unfold fltb, SFltb. rewrite (SFcompare_nonneg f g V W) by done.
  unfold Z.ltb. by destruct (V ?= W).
Qed.

(** ** Magnitudes *)

(** Between [2 ^ -b] and [2 ^ b]. *)
Definition sized (b V : Z) : Prop := one <= V * 2 ^ b /\ V <= one * 2 ^ b.

Lemma one_pos : 0 < one.
Proof. by apply pow2_pos. Qed.

Lemma one_split b : 0 <= b <= unit_exp -> one = 2 ^ (unit_exp - b) * 2 ^ b.
Proof. intros Hb. unfold one. rewrite <- Z.pow_add_r by lia. f_equal. lia. Qed.

Lemma sized_mono b c V : 0 <= V -> 0 <= b <= c -> sized b V -> sized c V.
Proof.
  intros HV Hbc [H1 H2]. pose proof one_pos.
  assert (2 ^ b <= 2 ^ c) by (apply Z.pow_le_mono_r; lia). split; nia.
Qed.

(** Rounding keeps the magnitude. *)
Lemma rounded_sized X D V b :
  0 < D -> 0 <= b <= 2000 -> rounded X D V -> D * one <= X * 2 ^ b -> X <= D * one * 2 ^ b -> sized b V.
Proof.
  intros HD Hb HR H1 H2. pose proof (pow2_pos b ltac:(lia)) as Pb.
  rewrite (one_split b) in H1 by (unfold unit_exp; lia). split.
  - rewrite (one_split b) by (unfold unit_exp; lia).
    apply Z.mul_le_mono_pos_r; [done|]. apply (rounded_ge X D V _ HD HR).
    + apply representable_pow2. unfold unit_exp. lia.
    + nia.
  - apply (rounded_le X D V _ HD HR).
    + unfold one. rewrite <- Z.pow_add_r by (unfold unit_exp; lia).
      apply representable_pow2. unfold unit_exp. lia.
    + lia.
Qed.

Lemma bounds_in_range X D b :
  0 < D -> 0 <= b < 1000 -> D * one <= X * 2 ^ b -> X <= D * one * 2 ^ b -> in_range X D.
Proof.
  intros HD Hb H1 H2. pose proof (pow2_pos b ltac:(lia)) as Pb. pose proof one_pos as Po. split.
  - assert (2 ^ (unit_exp - 1000) * 2 ^ b <= one) as Hp.
    { unfold one. rewrite <- Z.pow_add_r by (unfold unit_exp; lia). apply Z.pow_le_mono_r; lia. }
    apply (Z.mul_le_mono_pos_r _ _ (2 ^ b) Pb). nia.
  - eapply Z.le_lt_trans; [exact H2|]. rewrite <- Z.mul_assoc. apply Z.mul_lt_mono_pos_l; [done|].
    unfold one. rewrite <- Z.pow_add_r by (unfold unit_exp; lia). apply Z.pow_lt_mono_r; unfold unit_exp; lia.
Qed.

(** ** Quantities: zero, or a positive normal number between [2 ^ -b] and [2 ^ b] *)

Definition quantity (b : Z) (f : spec_float) (V : Z) : Prop :=
  (f = fzero /\ V = 0) \/ (normal f V /\ sized b V).

Lemma quantity_nonneg b f V : quantity b f V -> nonneg f V.
Proof. intros [?|[? _]]; [by left|by right]. Qed.

Lemma quantity_pos b f V : quantity b f V -> 0 < V -> normal f V /\ sized b V.
Proof. intros [[_ ->]|?]; [lia|done]. Qed.

Lemma round_quantity b f X D V :
  0 < D -> 0 < X -> 0 <= b <= 2000 -> normal f V -> rounded X D V ->
  D * one <= X * 2 ^ b -> X <= D * one * 2 ^ b -> quantity b f V /\ rounded0 X D V.
Proof. intros. split; right; eauto using rounded_sized. Qed.

Lemma fmul_quantity b c x y Vx Vy :
  0 <= b -> 0 <= c -> b + c < 1000 -> quantity b x Vx -> quantity c y Vy ->
  exists V, quantity (b + c) (fmul x y) V /\ rounded0 (Vx * Vy) one V.
Proof.
  intros Hb Hc Hbc [[-> ->]|[Nx [X1 X2]]].
  { intros [[-> ->]|[(m & e & -> & _) _]]; exists 0; split; left; done || lia. }
  intros [[-> ->]|[Ny [Y1 Y2]]].
  { destruct Nx as (m & e & -> & _). exists 0. split; left; [done|lia]. }
  pose proof one_pos as Po. pose proof (pow2_pos b Hb) as Pb. pose proof (pow2_pos c Hc) as Pc.
  pose proof (normal_pos _ _ Nx). pose proof (normal_pos _ _ Ny).
  assert (one * one <= Vx * Vy * 2 ^ (b + c)) as L1.
  { rewrite Z.pow_add_r by done. replace (Vx * Vy * (2 ^ b * 2 ^ c)) with ((Vx * 2 ^ b) * (Vy * 2 ^ c)) by ring.
    apply Z.mul_le_mono_nonneg; lia. }
  assert (Vx * Vy <= one * one * 2 ^ (b + c)) as L2.
  { rewrite Z.pow_add_r by done. replace (one * one * (2 ^ b * 2 ^ c)) with ((one * 2 ^ b) * (one * 2 ^ c)) by ring.
    apply Z.mul_le_mono_nonneg; lia. }
  destruct (fmul_spec x y Vx Vy Nx Ny) as (V & HV & HR).
  { apply (bounds_in_range _ _ (b + c)); [done|lia|done|done]. }
  exists V. apply round_quantity; try done; lia || nia.
Qed.

Lemma fdiv_quantity b c x y Vx Vy :
  0 <= b -> 0 <= c -> b + c < 1000 -> quantity b x Vx -> quantity c y Vy -> 0 < Vy ->
  exists V, quantity (b + c) (fdiv x y) V /\ rounded0 (Vx * one) Vy V.
Proof.
  intros Hb Hc Hbc Hx Hy Hpos. destruct (quantity_pos _ _ _ Hy Hpos) as [Ny [Y1 Y2]].
  destruct Hx as [[-> ->]|[Nx [X1 X2]]].
  { destruct Ny as (m & e & -> & _). exists 0. split; left; [done|lia]. }
  pose proof one_pos as Po. pose proof (pow2_pos b Hb) as Pb. pose proof (pow2_pos c Hc) as Pc.
  pose proof (normal_pos _ _ Nx).
  assert (Vy * one <= Vx * one * 2 ^ (b + c)) as L1.
  { rewrite Z.pow_add_r by done. replace (Vx * one * (2 ^ b * 2 ^ c)) with ((Vx * 2 ^ b) * 2 ^ c * one) by ring.
    apply Z.mul_le_mono_pos_r; [done|]. nia. }
  assert (Vx * one <= Vy * one * 2 ^ (b + c)) as L2.
  { rewrite Z.pow_add_r by done. replace (Vy * one * (2 ^ b * 2 ^ c)) with ((Vy * 2 ^ c) * 2 ^ b * one) by ring.
    apply Z.mul_le_mono_pos_r; [done|]. nia. }
  destruct (fdiv_spec x y Vx Vy Nx Ny) as (V & HV & HR).
  { apply (bounds_in_range _ _ (b + c)); [done|lia|done|done]. }
  exists V. apply round_quantity; try done; lia || nia.
Qed.

Lemma quantity_mono b c f V : 0 <= b <= c -> quantity b f V -> quantity c f V.
Proof.
  intros Hbc [?|[N S]]; [by left|right]. split; [done|].
  apply (sized_mono b); [|done|done]. apply normal_pos in N. lia.
Qed.

Lemma normal_rounded f V : normal f V -> rounded V 1 V.
Proof.
  intros (m & e & _ & Hm & He & ->). rewrite <- (Z.mul_1_r (_ * _)) at 1. apply rounded_exact; [lia|].
  exists (Zpos m), (e + unit_exp). unfold unit_exp. split_and!; lia.
Qed.

Lemma fadd_quantity b x y Vx Vy :
  0 <= b < 998 -> quantity b x Vx -> quantity b y Vy ->
  exists V, quantity (b + 1) (fadd x y) V /\ rounded0 (Vx + Vy) 1 V.
Proof.
  intros Hb [[-> ->]|[Nx [X1 X2]]] [[-> ->]|[Ny [Y1 Y2]]].
  - exists 0. split; by left.
  - exists Vy. pose proof (normal_rounded _ _ Ny). pose proof (normal_pos _ _ Ny).
    destruct Ny as (m & e & -> & ?). split; [|by right].
    apply (quantity_mono b); [lia|]. right. split; [by exists m, e|done].
  - exists Vx. pose proof (normal_rounded _ _ Nx). pose proof (normal_pos _ _ Nx).
    rewrite Z.add_0_r. destruct Nx as (m & e & -> & ?). split; [|by right].
    apply (quantity_mono b); [lia|]. right. split; [by exists m, e|done].
  - pose proof one_pos as Po. pose proof (pow2_pos b ltac:(lia)) as Pb.
    pose proof (normal_pos _ _ Nx). pose proof (normal_pos _ _ Ny).
    destruct (fadd_spec x y Vx Vy Nx Ny) as (V & HV & HR).
    { apply (bounds_in_range _ _ (b + 1)); rewrite ?Z.pow_add_r by lia; lia || nia. }
    exists V. apply round_quantity; try done; rewrite ?Z.pow_add_r by lia; lia || nia.
Qed.

Lemma of_int_quantity n :
  0 <= n <= 2 ^ 64 -> exists V, quantity 64 (of_int n) V /\ rounded0 (n * one) 1 V.
Proof.
  intros Hn. pose proof one_pos as Po. destruct n as [|p|p]; [|change (Zpos p * one) with (Zpos p * 2 ^ (0 + unit_exp))|lia].
  { exists 0. split; by left. }
  change (2 ^ (0 + unit_exp)) with one.
  assert (1 * one <= Zpos p * one * 2 ^ 64 /\ Zpos p * one <= 1 * one * 2 ^ 64) as [B1 B2] by nia.
  destruct (binary_round_spec p 0) as (V & HV & HR).
  - unfold unit_exp. lia.
  - apply (bounds_in_range _ _ 64); lia || done.
  - exists V. apply round_quantity; try done; lia.
Qed.

Lemma rounded0_exact X D V W :
  0 < D -> 0 < W -> rounded0 X D V -> representable W -> X = W * D -> V = W.
Proof.
  intros HD HW [[-> ->]|[_ HR]] Hrep E; [nia|]. subst X.
  exact (rounded_unique _ _ _ _ HD HR (rounded_exact _ _ HD Hrep)).
Qed.

Lemma of_int_exact n : 0 <= n < 2 ^ 53 -> quantity 64 (of_int n) (n * one).
Proof.
  intros Hn. destruct (of_int_quantity n ltac:(lia)) as (V & HV & HR). pose proof one_pos as Po.
  destruct (Z.eq_dec n 0) as [->|]; [by left|].
  assert (V = n * one) as ->; [|done]. apply (rounded0_exact (n * one) 1); [lia|nia|done| |lia].
  apply representable_int; unfold unit_exp; lia.
Qed.

(** Bounds on rounded quotients by 53-bit integers over a power of two. *)
Lemma rounded0_ge X D V i k :
  0 < D -> 0 <= i < 2 ^ 53 -> 53 <= k -> rounded0 X D V -> i * 2 ^ k * D <= X -> i * 2 ^ k <= V.
Proof.
  intros HD Hi Hk [[-> ->]|[_ HR]] H.
  - pose proof (pow2_pos k). nia.
  - destruct (Z.eq_dec i 0) as [->|]; [apply rounded_pos in HR; lia|].
    apply (rounded_ge X D); try done. apply representable_int; lia.
Qed.

Lemma rounded0_le X D V i k :
  0 < D -> 0 < i < 2 ^ 53 -> 53 <= k -> rounded0 X D V -> X <= i * 2 ^ k * D -> V <= i * 2 ^ k.
Proof.
  intros HD Hi Hk [[-> ->]|[_ HR]] H.
  - pose proof (pow2_pos k). nia.
  - apply (rounded_le X D); try done. by apply representable_int.
Qed.

(** [int(f)] is the integer part. *)
Lemma to_int_spec f V : nonneg f V -> V < 2 ^ 63 * one -> to_int f = Some (V / one).
Proof.
  intros [[-> ->]|(m & e & -> & Hm & He & ->)] Hs; [done|].
  pose proof one_pos as Po.
  assert ((if 0 <=? e then Zpos m * 2 ^ e else Zpos m / 2 ^ (- e)) = Zpos m * 2 ^ (e + unit_exp) / one) as EV.
  { destruct (Z.leb_spec 0 e).
    - rewrite Z.pow_add_r, Z.mul_assoc by (unfold unit_exp; lia). change (2 ^ unit_exp) with one.
      symmetry. apply Z.div_mul. lia.
    - rewrite (one_split (e + unit_exp)) by (unfold unit_exp; lia).
      replace (unit_exp - (e + unit_exp)) with (- e) by lia. symmetry. apply Z.div_mul_cancel_r.
      + pose proof (pow2_pos (- e)). lia.
      + pose proof (pow2_pos (e + unit_exp)). unfold unit_exp in *. lia. }
  unfold to_int. rewrite EV. set (V := Zpos m * 2 ^ (e + unit_exp)) in *.
  assert (0 <= V / one < 2 ^ 63).
  { split; [apply Z.div_pos; subst V; [|done]|].
    - pose proof (pow2_pos (e + unit_exp)). unfold unit_exp in *. lia.
    - apply Z.div_lt_upper_bound; [done|]. lia. }
  rewrite (proj2 (Z.leb_le _ _)), (proj2 (Z.ltb_lt _ _)) by lia. done.
Qed.
