(* ===== verification/Format.v ===== *)
(** * Numbers as text: what the programs use of [strconv] and [fmt]

    Reading integers ([Atoi]); writing a [float64] with a fixed number of
    decimals ([%.0f], [%.1f], [%.2f]) and with the fewest digits that read back
    as the same number (as [encoding/json] writes it); padding on the right
    ([%-*s]). *)

From S2P Require Import Prelude Utf8 Json GoTime Float64.
From stdpp Require Import options.
Local Open Scope Z_scope.

(** ** [strconv.Atoi] *)

Fixpoint atoi_digits (s : string) (acc : Z) : option Z :=
  match s with
  | "" => Some acc
  | String a s => if is_digit a then atoi_digits s (10 * acc + (Z.of_N (byte a) - 48)) else None
  end.

Definition Atoi (s : string) : option Z :=
  let '(neg, ds) := match s with
    | String a s' => if Ascii.eqb a "-" then (true, s') else if Ascii.eqb a "+" then (false, s') else (false, s)
    | "" => (false, "")
    end in
  if String.eqb ds "" then None
  else n ← atoi_digits ds 0;
       let v := if (neg : bool) then - n else n in
       if (- 2 ^ 63 <=? v) && (v <? 2 ^ 63) then Some v else None.

(** ** Decimal digits *)

(** The last [p] decimal digits of [n], leading zeros included. *)
Fixpoint padded (p : nat) (n : Z) : string :=
  match p with
  | O => ""
  | S p => padded p (n / 10) +:+ str1 (digit (n mod 10))
  end.

Fixpoint srepeat (n : nat) (s : string) : string :=
  match n with O => "" | S n => s +:+ srepeat n s end.
Definition zeros (n : nat) : string := srepeat n "0".

(** ** [strconv.FormatFloat(f, 'f', prec, 64)] as [fmt] prints it *)

(** A positive finite number as a fraction of integers. *)
Definition ratio (m : positive) (e : Z) : Z * Z :=
  if 0 <=? e then (Zpos m * 2 ^ e, 1) else (Zpos m, 2 ^ (- e)).

(** The value times [10 ^ prec], rounded to an integer, ties to even. *)
Definition fixed_units (prec : nat) (f : spec_float) : Z :=
  match f with
  | S754_finite _ m e =>
      let '(N, D) := ratio m e in rne (N * 10 ^ Z.of_nat prec) D
  | _ => 0
  end.

Definition sign_of (f : spec_float) : string :=
  match f with
  | S754_zero true | S754_finite true _ _ => "-"
  | _ => ""
  end.

Definition fixed (prec : nat) (f : spec_float) : string :=
  match f with
  | S754_nan => "NaN"
  | S754_infinity s => if s then "-Inf" else "+Inf"
  | _ =>
      let u := fixed_units prec f in
      sign_of f +:+ pretty (u / 10 ^ Z.of_nat prec) +:+
      match prec with O => "" | _ => "." +:+ padded prec u end
  end.

(** ** [strconv.ParseFloat] on decimal numbers *)

(** The [float64] nearest to the quotient of two positive integers. *)
Definition of_ratio (N D : Z) : spec_float :=
  let '(q, e, l) := SFdiv_core_binary prec64 emax64 N 0 D 0 in
  binary_round_aux prec64 emax64 false q e l.

(** The [float64] nearest to [d * 10 ^ k]. *)
Definition of_dec (d k : Z) : spec_float :=
  if d =? 0 then fzero
  else if 0 <=? k then of_ratio (d * 10 ^ k) 1 else of_ratio d (10 ^ (- k)).

Definition read_exp (s : string) : option Z :=
  match s with
  | "" => Some 0
  | String c s =>
      if is_exp_char c then
        let '(neg, ds) := match s with
          | String g s' => if is_sign_char g then (Ascii.eqb g "-", s') else (false, s)
          | "" => (false, "")
          end in
        n ← atoi_digits ds 0; Some (if (neg : bool) then - n else n)
      else None
  end.

(** [ParseFloat] on a JSON number literal *)
Definition ParseFloat (lit : string) : option spec_float :=
  let '(neg, s) := match eat "-" lit with Some s => (true, s) | None => (false, lit) end in
  let '(i, r) := digits s in
  let '(fr, r) := match eat "." r with Some r => digits r | None => ("", r) end in
  if String.eqb (i +:+ fr) "" then None else
  x ← read_exp r;
  d ← atoi_digits (i +:+ fr) 0;
  let f := of_dec d (x - Z.of_nat (String.length fr)) in
  Some (if (neg : bool) then SFopp f else f).

(** ** [strconv.FormatFloat(f, fmt, -1, 64)] *)

(** The number of decimal digits of a positive integer. *)
Definition ndigits (n : Z) : Z := Z.of_nat (String.length (pretty n)).

(** The [dp] with [10 ^ (dp - 1) <= N / D < 10 ^ dp]. *)
Definition decimal_point (N D : Z) : Z :=
  if D <=? N then ndigits (N / D) else 1 - ndigits ((D + N - 1) / N - 1).

(** [N / D] in units of [10 ^ k]. *)
Definition in_units (N D k : Z) : Z * Z :=
  if 0 <=? k then (N, D * 10 ^ k) else (N * 10 ^ (- k), D).

(** The closest multiple of [10 ^ k] that reads back as [f], if any. *)
Definition candidate (f : spec_float) (N D k : Z) : option Z :=
  let '(num, den) := in_units N D k in
  let q := num / den in
  match bool_decide (of_dec q k = f), bool_decide (of_dec (q + 1) k = f) with
  | true, true => Some (rne num den)
  | true, false => Some q
  | false, true => Some (q + 1)
  | false, false => None
  end.

(** From [n] digits on, the first number of digits that is enough; at most 17
    are needed. *)
Fixpoint shortest_from (fuel : nat) (n : Z) (f : spec_float) (N D dp : Z) : Z * Z :=
  match fuel with
  | O => let '(num, den) := in_units N D (dp - 17) in (rne num den, dp - 17)
  | S fuel =>
      match candidate f N D (dp - n) with
      | Some d => (d, dp - n)
      | None => shortest_from fuel (n + 1) f N D dp
      end
  end.

(** Trailing zeros belong to the exponent. *)
Fixpoint strip_zeros (fuel : nat) (d k : Z) : Z * Z :=
  match fuel with
  | O => (d, k)
  | S fuel => if d mod 10 =? 0 then strip_zeros fuel (d / 10) (k + 1) else (d, k)
  end.

(** The digits [d] and the exponent [k] of the shortest [d * 10 ^ k]. *)
Definition shortest (f : spec_float) (m : positive) (e : Z) : Z * Z :=
  let '(N, D) := ratio m e in
  let '(d, k) := shortest_from 17 1 f N D (decimal_point N D) in
  strip_zeros 18 d k.

(** [%f] and [%e] of the digits. *)
Definition fmt_f (d k : Z) : string :=
  let ds := pretty d in
  let nd := Z.of_nat (String.length ds) in
  let dp := k + nd in
  if 0 <=? k then ds +:+ zeros (Z.to_nat k)
  else if dp <=? 0 then "0." +:+ zeros (Z.to_nat (- dp)) +:+ ds
  else String.substring 0 (Z.to_nat dp) ds +:+ "." +:+ sdrop (Z.to_nat dp) ds.

(** The exponent without a leading zero, as [encoding/json] rewrites it. *)
Definition fmt_e (d k : Z) : string :=
  let ds := pretty d in
  let x := k + Z.of_nat (String.length ds) - 1 in
  String.substring 0 1 ds +:+ (if ndigits d =? 1 then "" else "." +:+ sdrop 1 ds) +:+
  "e" +:+ (if x <? 0 then "-" else "+") +:+ pretty (Z.abs x).

(** [floatEncoder]: [%e] below [1e-6] and from [1e21] on. [None] is the error
    for infinities and NaN. *)
Definition json_float (f : spec_float) : option string :=
  match f with
  | S754_zero s => Some (if s then "-0" else "0")
  | S754_finite s m e =>
      let a := S754_finite false m e in
      let '(d, k) := shortest a m e in
      Some (sign_of f +:+
            (if fltb a (of_ratio 1 1000000) || fleb (of_int (10 ^ 21)) a then fmt_e d k else fmt_f d k))
  | _ => None
  end.

(** ** [fmt.Printf] padding: the width counts runes *)

Definition pad_right (w : nat) (s : string) : string := s +:+ srepeat (w - length (runes s)) " ".
