(* ===== verification/FormatFacts.v ===== *)
(** * Facts about numbers as text *)

From S2P Require Import Prelude Utf8 Json JsonFacts GoTime Float64 Float64Facts Format.
From stdpp Require Import options.
Local Open Scope Z_scope.

(** ** Reading a decimal number *)


Lemma of_ratio_spec N D :
  0 < N -> 0 < D -> in_range (N * one) D ->
  exists V, normal (of_ratio N D) V /\ rounded (N * one) D V.
Proof.
  intros HN HD Hr. unfold of_ratio, SFdiv_core_binary. rewrite !Zdigits_log2 by done.
  rewrite !Z.add_0_r, Z.sub_0_r. destruct (Z.log2_spec N HN) as [N1 N2]. destruct (Z.log2_spec D HD) as [D1 D2].
  pose proof (Z.log2_nonneg N) as LN. pose proof (Z.log2_nonneg D) as LD.
  set (a := Z.log2 N) in *. set (b := Z.log2 D) in *.
  assert (-1002 <= a - b <= 1000) as Hab.
  { destruct Hr as [R1 R2]. unfold one in *. split.
    - apply Z.nlt_ge. intros Hlt.
      assert (2 ^ (a + 1) * 2 ^ unit_exp <= 2 ^ b * 2 ^ (unit_exp - 1000)).
      { rewrite <- !Z.pow_add_r by (unfold unit_exp; lia). apply Z.pow_le_mono_r; lia. }
      assert (0 < 2 ^ unit_exp) by (by apply pow2_pos). 
      assert (0 < 2 ^ (unit_exp - 1000)) by (by apply pow2_pos).
      change (Z.succ a) with (a + 1) in N2. nia.
    - apply Z.nlt_ge. intros Hlt.
      assert (2 ^ (b + 1) * 2 ^ (unit_exp + 1000) <= 2 ^ a * 2 ^ unit_exp).
      { rewrite <- !Z.pow_add_r by (unfold unit_exp; lia). apply Z.pow_le_mono_r; lia. }
      assert (0 < 2 ^ unit_exp) by (by apply pow2_pos). 
      assert (0 < 2 ^ (unit_exp + 1000)) by (by apply pow2_pos).
      change (Z.succ b) with (b + 1) in D2. nia. }
  rewrite fexp_normal by lia. replace (a + 1 - (b + 1) - 53) with (a - b - 53) by lia.
  set (e := Z.min (a - b - 53) 0). set (s := 0 - e).
  assert (0 <= s) as Hs by lia. pose proof (pow2_pos s Hs) as Ps.
  assert (match s with Z0 => N | Zpos _ => Z.shiftl N s | Zneg _ => 0 end = N * 2 ^ s) as Em.
  { destruct s; [by rewrite Z.mul_1_r|by rewrite Z.shiftl_mul_pow2|lia]. }
  rewrite Em. pose proof (Z_div_mod (N * 2 ^ s) D ltac:(lia)) as Hdiv.
  destruct (Z.div_eucl _ _) as [q r]. destruct Hdiv as [Eq Hb]. rewrite new_location_spec by done.
  assert (2 ^ 52 <= q) as Hq.
  { assert (2 ^ 52 * 2 ^ (b + 1) <= 2 ^ a * 2 ^ s).
    { rewrite <- !Z.pow_add_r by lia. apply Z.pow_le_mono_r; lia. }
    change (Z.succ b) with (b + 1) in D2.
    assert (2 ^ 52 * D < D * q + D) by nia. nia. }
  assert (N * 2 ^ s * 2 ^ (e + unit_exp) = N * one) as EV.
  { unfold one. rewrite <- Z.mul_assoc, <- Z.pow_add_r by (unfold unit_exp; lia). do 2 f_equal. lia. }
  rewrite <- EV in *. apply round_aux_in_range; try done.
  - lia.
  - exists r. split_and!; [lia|lia|lia|done].
  - unfold unit_exp. lia.
  - rewrite Zdigits_log2 by lia. assert (52 <= Z.log2 q); [|lia]. apply Z.log2_le_pow2; lia.
Qed.

(** [d * 10 ^ k] as a fraction. *)
Definition dec_num (d k : Z) : Z := d * 10 ^ Z.max k 0.
Definition dec_den (k : Z) : Z := 10 ^ Z.max (- k) 0.

Lemma dec_den_pos k : 0 < dec_den k.
Proof. apply Z.pow_pos_nonneg; lia. Qed.

Lemma of_dec_ratio d k : d <> 0 -> of_dec d k = of_ratio (dec_num d k) (dec_den k).
Proof.
  intros Hd. unfold of_dec, dec_num, dec_den. rewrite (proj2 (Z.eqb_neq _ _)) by done.
  destruct (Z.leb_spec 0 k).
  - by rewrite Z.max_l, Z.max_r by lia.
  - rewrite Z.max_r, Z.max_l by lia. by rewrite Z.mul_1_r.
Qed.

Lemma normal_inj f g V : normal f V -> normal g V -> f = g.
Proof.
  intros (m & e & -> & Hm & He & E) (m' & e' & -> & Hm' & He' & ->).
  destruct (Z.lt_trichotomy e e') as [Hlt|[->|Hgt]].
  - pose proof (normal_units_lt (Zpos m) e (Zpos m') e' Hm Hm' ltac:(lia)). lia.
  - apply Z.mul_reg_r in E; [by simplify_eq|]. pose proof (pow2_pos (e' + unit_exp)). unfold unit_exp in *. lia.
  - pose proof (normal_units_lt (Zpos m') e' (Zpos m) e Hm' Hm ltac:(lia)). lia.
Qed.

Lemma of_dec_rounded d k V f :
  0 < d -> normal f V -> in_range (dec_num d k * one) (dec_den k) ->
  rounded (dec_num d k * one) (dec_den k) V -> of_dec d k = f.
Proof.
  intros Hd Hf Hr HR. rewrite of_dec_ratio by lia. pose proof (dec_den_pos k).
  destruct (of_ratio_spec (dec_num d k) (dec_den k)) as (W & HW & RW); [|done..|].
  { unfold dec_num. pose proof (Z.pow_pos_nonneg 10 (Z.max k 0)). lia. }
  rewrite (rounded_unique _ _ _ _ ltac:(done) RW HR) in HW. by eapply normal_inj.
Qed.

(** ** When a number is the nearest one *)

(** Less than half a unit in the last place away; below a power of two, where
    the numbers are closer together, less than a quarter. *)
Lemma rounded_near m k X D :
  0 < D -> 1 <= k -> 2 ^ 52 <= m < 2 ^ 53 ->
  (m = 2 ^ 52 -> 4 * (m * (D * 2 ^ k)) - D * 2 ^ k < 4 * X) ->
  2 * (m * (D * 2 ^ k)) - D * 2 ^ k < 2 * X < 2 * (m * (D * 2 ^ k)) + D * 2 ^ k ->
  rounded X D (m * 2 ^ k).
Proof.
  intros HD Hk Hm Hpow HX. pose proof (pow2_pos k ltac:(lia)) as Pk. set (U := D * 2 ^ k) in *.
  assert (0 < U) as PU by (subst U; nia).
  destruct (Z_lt_le_dec X (2 ^ 52 * U)) as [Hlow|Hin].
  - assert (m = 2 ^ 52) as -> by nia. specialize (Hpow eq_refl).
    assert (2 ^ k = 2 * 2 ^ (k - 1)) as E2 by (rewrite <- Z.pow_succ_r by lia; f_equal; lia).
    set (H := D * 2 ^ (k - 1)). assert (U = 2 * H) as EU by (subst U H; rewrite E2; ring).
    exists (k - 1). fold H. split_and!; [lia|lia|lia|].
    assert (rne X H = 2 ^ 53) as ->; [|rewrite E2; lia].
    apply Z.le_antisymm.
    + apply rne_bounds with (a := 2 ^ 52); lia.
    + unfold rne. assert (X / H = 2 ^ 53 - 1) as ->.
      { symmetry. apply (Z.div_unique _ _ _ (X - (2 ^ 53 - 1) * H)); lia. }
      pose proof (Z.div_mod X H ltac:(lia)) as Ed. 
      assert (X mod H = X - (2 ^ 53 - 1) * H) as ->.
      { symmetry. apply (Z.mod_unique _ _ (2 ^ 53 - 1)); lia. }
      destruct (Z.compare_spec (2 * (X - (2 ^ 53 - 1) * H)) H); [done|lia|lia].
  - exists k. fold U. split_and!; [lia|lia|nia|]. f_equal. symmetry.
    destruct (Z_lt_le_dec X (m * U)) as [Hlt|Hge].
    + unfold rne. assert (X / U = m - 1) as -> by (symmetry; apply (Z.div_unique _ _ _ (X - (m - 1) * U)); lia).
      assert (X mod U = X - (m - 1) * U) as -> by (symmetry; apply (Z.mod_unique _ _ (m - 1)); lia).
      destruct (Z.compare_spec (2 * (X - (m - 1) * U)) U); lia.
    + unfold rne. assert (X / U = m) as -> by (symmetry; apply (Z.div_unique _ _ _ (X - m * U)); lia).
      assert (X mod U = X - m * U) as -> by (symmetry; apply (Z.mod_unique _ _ m); lia).
      destruct (Z.compare_spec (2 * (X - m * U)) U); lia.
Qed.

(** ** Decimal digits *)

Lemma length_padded p n : String.length (padded p n) = p.
Proof. revert n. induction p as [|p IH]; intros n; [done|]. cbn. rewrite length_sapp, IH. cbn. lia. Qed.

Lemma byte_digit d : 0 <= d < 10 -> byte (digit d) = (48 + Z.to_N d)%N.
Proof. intros Hd. unfold digit. apply byte_chr. lia. Qed.

Lemma is_digit_digit d : 0 <= d < 10 -> is_digit (digit d) = true.
Proof. intros Hd. unfold is_digit, between. rewrite byte_digit by done. lia. Qed.

Lemma pretty_char_digit x : (x < 10)%N -> pretty_N_char x = digit (Z.of_N x).
Proof.
  intros Hx. assert (x = 0 \/ x = 1 \/ x = 2 \/ x = 3 \/ x = 4 \/ x = 5 \/ x = 6 \/ x = 7 \/ x = 8 \/ x = 9)%N
    as H by lia. by decompose [or] H; subst.
Qed.

Lemma pretty_go_padded p : forall (x : N) s,
  10 ^ Z.of_nat p <= Z.of_N x < 10 ^ (Z.of_nat p + 1) -> pretty_N_go x s = padded (S p) (Z.of_N x) +:+ s.
Proof.
  induction p as [|p IH]; intros x s Hx; (rewrite pretty_N_go_step by lia);
    rewrite pretty_char_digit by (apply N.mod_lt; lia); rewrite N2Z.inj_mod.
  - change (10 ^ (Z.of_nat 0 + 1)) with 10 in Hx.
    replace (x / 10)%N with 0%N by (symmetry; apply N.div_small; lia). rewrite pretty_N_go_0. done.
  - rewrite IH.
    + rewrite N2Z.inj_div. cbn [padded]. by rewrite !string_app_assoc.
    + rewrite N2Z.inj_div. change (Z.of_N 10) with 10.
      replace (Z.of_nat (S p)) with (Z.of_nat p + 1) in Hx by lia.
      rewrite (Z.pow_add_r 10 (Z.of_nat p + 1)), Z.pow_add_r in Hx by lia. rewrite Z.pow_add_r by lia.
      change (10 ^ 1) with 10 in *.
      split; [apply Z.div_le_lower_bound; lia|apply Z.div_lt_upper_bound; lia].
Qed.

Lemma pretty_padded p n :
  10 ^ Z.of_nat p <= n < 10 ^ (Z.of_nat p + 1) -> pretty n = padded (S p) n.
Proof.
  intros Hn. pose proof (Z.pow_pos_nonneg 10 (Z.of_nat p)). destruct n as [|n|n]; [lia| |lia].
  transitivity (pretty_N_go (Npos n) ""); [done|].
  rewrite (pretty_go_padded p) by done. by rewrite string_app_nil_r.
Qed.

Lemma pow10_bracket n : 0 < n -> exists p : nat, 10 ^ Z.of_nat p <= n < 10 ^ (Z.of_nat p + 1).
Proof.
  intros Hn. assert (0 <= n) as H0 by lia. revert Hn. pattern n. apply Zlt_0_ind; [|done]. clear n H0.
  intros n IH _ Hn. destruct (Z_lt_le_dec n 10) as [|Hge]; [exists 0%nat; cbn; lia|].
  assert (1 <= n / 10) by (apply Z.div_le_lower_bound; lia).
  destruct (IH (n / 10)) as [p Hp]; [split; [lia|apply Z.div_lt; lia]|lia|].
  exists (S p). replace (Z.of_nat (S p)) with (Z.of_nat p + 1) by lia.
  rewrite (Z.pow_add_r 10 (Z.of_nat p + 1)), Z.pow_add_r by lia. rewrite Z.pow_add_r in Hp by lia.
  change (10 ^ 1) with 10 in *.
  pose proof (Z.div_mod n 10 ltac:(lia)). pose proof (Z.mod_pos_bound n 10 ltac:(lia)). lia.
Qed.

Lemma ndigits_spec n : 0 < n -> 1 <= ndigits n /\ 10 ^ (ndigits n - 1) <= n < 10 ^ ndigits n.
Proof.
  intros Hn. destruct (pow10_bracket n Hn) as [p Hp]. unfold ndigits.
  rewrite (pretty_padded p n Hp), length_padded. split; [lia|].
  replace (Z.of_nat (S p) - 1) with (Z.of_nat p) by lia. by replace (Z.of_nat (S p)) with (Z.of_nat p + 1) by lia.
Qed.

Lemma pretty_digits n : 0 < n -> pretty n = padded (Z.to_nat (ndigits n)) n.
Proof.
  intros Hn. destruct (pow10_bracket n Hn) as [p Hp]. unfold ndigits.
  rewrite (pretty_padded p n Hp), length_padded. by rewrite Nat2Z.id.
Qed.

(** ** Reading digits *)

Lemma atoi_digits_app s t acc : atoi_digits (s +:+ t) acc = atoi_digits s acc ≫= atoi_digits t.
Proof.
  revert acc. induction s as [|a s IH]; intros acc; [done|]. rewrite string_app_cons. cbn.
  destruct (is_digit a); [apply IH|done].
Qed.

Lemma atoi_padded p : forall n acc,
  0 <= n < 10 ^ Z.of_nat p -> atoi_digits (padded p n) acc = Some (acc * 10 ^ Z.of_nat p + n).
Proof.
  induction p as [|p IH]; intros n acc Hn; [cbn in *; f_equal; lia|].
  replace (Z.of_nat (S p)) with (Z.of_nat p + 1) in * by lia. rewrite Z.pow_add_r in * by lia.
  change (10 ^ 1) with 10 in *.
  pose proof (Z.div_mod n 10 ltac:(lia)) as E. pose proof (Z.mod_pos_bound n 10 ltac:(lia)) as Hm.
  cbn [padded]. rewrite atoi_digits_app, IH.
  2: { split; [apply Z.div_pos; lia|apply Z.div_lt_upper_bound; lia]. }
  cbn. rewrite is_digit_digit, byte_digit by lia. f_equal. lia.
Qed.

Lemma atoi_zeros k acc : atoi_digits (zeros k) acc = Some (acc * 10 ^ Z.of_nat k).
Proof.
  revert acc. induction k as [|k IH]; intros acc; [cbn; f_equal; lia|].
  change (zeros (S k)) with ("0" +:+ zeros k). rewrite atoi_digits_app. cbn [atoi_digits].
  change (is_digit "0") with true. cbn [mbind option_bind]. rewrite IH. f_equal.
  replace (Z.of_nat (S k)) with (Z.of_nat k + 1) by lia. rewrite Z.pow_add_r by lia.
  change (Z.of_N (byte "0") - 48) with 0. lia.
Qed.

(** ** The position of the decimal point *)

Definition pow10_le (k N D : Z) : Prop := D * 10 ^ Z.max k 0 <= N * 10 ^ Z.max (- k) 0.

Lemma decimal_point_spec N D :
  0 < N -> 0 < D -> let dp := decimal_point N D in pow10_le (dp - 1) N D /\ ~ pow10_le dp N D.
Proof.
  intros HN HD. unfold decimal_point, pow10_le. destruct (Z.leb_spec D N) as [Hle|Hlt].
  - assert (1 <= N / D) by (apply Z.div_le_lower_bound; lia).
    destruct (ndigits_spec (N / D)) as (H1 & H2 & H3); [lia|]. set (k := ndigits (N / D)) in *.
    pose proof (Z.div_mod N D ltac:(lia)). pose proof (Z.mod_pos_bound N D HD).
    rewrite (Z.max_l (k - 1)), (Z.max_r (- (k - 1))), (Z.max_l k), (Z.max_r (- k)), !Z.mul_1_r by lia.
    split; nia.
  - set (c := (D + N - 1) / N). pose proof (Z.div_mod (D + N - 1) N ltac:(lia)) as E.
    pose proof (Z.mod_pos_bound (D + N - 1) N HN) as Hm. fold c in E.
    assert (1 < c) as Hc by nia.
    destruct (ndigits_spec (c - 1)) as (H1 & H2 & H3); [lia|]. set (j := ndigits (c - 1)) in *.
    replace (1 - j - 1) with (- j) by lia. rewrite Z.opp_involutive.
    rewrite (Z.max_r (- j)), (Z.max_l j), (Z.max_r (1 - j)), (Z.max_l (- (1 - j))) by lia.
    replace (- (1 - j)) with (j - 1) by lia. rewrite !Z.mul_1_r. split; [nia|].
    assert (N * 10 ^ (j - 1) < D) by nia. lia.
Qed.

Lemma pow10_le_shift k j N D :
  0 < N -> 0 < D -> 0 <= j -> pow10_le (k + j) N D ->
  D * 10 ^ Z.max k 0 * 10 ^ j <= N * 10 ^ Z.max (- k) 0.
Proof.
  unfold pow10_le. intros HN HD Hj H.
  destruct (Z_le_gt_dec 0 k).
  - rewrite (Z.max_l k), (Z.max_r (- k)) by lia. rewrite (Z.max_l (k + j)), (Z.max_r (- (k + j))) in H by lia.
    rewrite Z.pow_add_r in H by lia. lia.
  - rewrite (Z.max_r k), (Z.max_l (- k)) by lia. destruct (Z_le_gt_dec 0 (k + j)).
    + rewrite (Z.max_l (k + j)), (Z.max_r (- (k + j))) in H by lia.
      pose proof (Z.pow_pos_nonneg 10 (- k)).
      assert (10 ^ j = 10 ^ (k + j) * 10 ^ (- k)) as -> by (rewrite <- Z.pow_add_r by lia; f_equal; lia). nia.
    + rewrite (Z.max_r (k + j)), (Z.max_l (- (k + j))) in H by lia.
      pose proof (Z.pow_pos_nonneg 10 j).
      assert (10 ^ (- k) = 10 ^ (- (k + j)) * 10 ^ j) as -> by (rewrite <- Z.pow_add_r by lia; f_equal; lia). nia.
Qed.

Lemma in_units_eq N D k : in_units N D k = (N * 10 ^ Z.max (- k) 0, D * 10 ^ Z.max k 0).
Proof.
  unfold in_units. destruct (Z.leb_spec 0 k).
  - by rewrite (Z.max_r (- k)), (Z.max_l k), Z.mul_1_r by lia.
  - by rewrite (Z.max_l (- k)), (Z.max_r k), Z.mul_1_r by lia.
Qed.

Lemma rne_close num den : 0 < den -> 2 * Z.abs (num - rne num den * den) <= den.
Proof.
  intros Hden. unfold rne. pose proof (Z.div_mod num den ltac:(lia)). pose proof (Z.mod_pos_bound num den Hden).
  set (q := num / den) in *. set (r := num mod den) in *. clearbody q r.
  destruct (Z.compare_spec (2 * r) den); [destruct (Z.even q)|..]; nia.
Qed.

Lemma rne_even num den :
  0 < den -> 2 * Z.abs (num - rne num den * den) = den -> Z.even (rne num den) = true.
Proof.
  intros Hden. unfold rne. pose proof (Z.div_mod num den ltac:(lia)). pose proof (Z.mod_pos_bound num den Hden).
  set (q := num / den) in *. set (r := num mod den) in *. clearbody q r.
  destruct (Z.compare_spec (2 * r) den) as [E|E|E]; [destruct (Z.even q) eqn:Eq; [done|]|nia|nia].
  intros _. by rewrite Z.even_add, Eq.
Qed.

Lemma dec_shift d k : dec_num (d * 10) k * dec_den (k + 1) = dec_num d (k + 1) * dec_den k.
Proof.
  unfold dec_num, dec_den. destruct (Z_le_gt_dec 0 k).
  - rewrite (Z.max_l k), (Z.max_r (- (k + 1))), (Z.max_l (k + 1)), (Z.max_r (- k)), Z.pow_add_r by lia. lia.
  - rewrite (Z.max_r k), (Z.max_l (- (k + 1))), (Z.max_r (k + 1)), (Z.max_l (- k)) by lia.
    replace (- k) with (- (k + 1) + 1) by lia. rewrite Z.pow_add_r by lia. lia.
Qed.

(** ** The shortest decimal *)

Section shortest.
Context (m : positive) (e V b N D : Z).
Context (Hm : 2 ^ 52 <= Zpos m < 2 ^ 53) (He : -1074 <= e <= 971) (HV : V = Zpos m * 2 ^ (e + unit_exp)).
Context (Hb : 0 <= b <= 900) (Hsize : sized b V) (Hratio : ratio m e = (N, D)).
Notation f := (S754_finite false m e).

Lemma f_normal : normal f V.
Proof using Hm He HV. exists m, e. done. Qed.

Lemma ratio_value : 0 < N /\ 0 < D /\ V * D = N * one.
Proof using Hm He HV Hratio.
  unfold ratio in Hratio. unfold one. destruct (Z.leb_spec 0 e); injection Hratio as <- <-.
  - pose proof (pow2_pos e). split_and!; [lia|lia|]. rewrite HV, Z.pow_add_r by (unfold unit_exp; lia). ring.
  - pose proof (pow2_pos (- e)). split_and!; [lia|lia|].
    rewrite HV, <- Z.mul_assoc, <- Z.pow_add_r by (unfold unit_exp; lia). do 2 f_equal. lia.
Qed.

(** [d * 10 ^ k] is within a factor of two of the number. *)
Definition near (d k : Z) : Prop :=
  0 < d /\ N * 10 ^ Z.max (- k) 0 <= 2 * (d * (D * 10 ^ Z.max k 0)) /\
  d * (D * 10 ^ Z.max k 0) <= 2 * (N * 10 ^ Z.max (- k) 0).

Lemma near_in_range d k : near d k -> in_range (dec_num d k * one) (dec_den k).
Proof using Hm He HV Hb Hsize Hratio.
  intros (Hd & H1 & H2). destruct ratio_value as (HN & HD & E). destruct Hsize as [S1 S2].
  pose proof (dec_den_pos k) as Pd. unfold dec_num, dec_den in *.
  set (P := 10 ^ Z.max k 0) in *. set (M := 10 ^ Z.max (- k) 0) in *.
  pose proof one_pos as Po. pose proof (pow2_pos b ltac:(lia)) as Pb.
  assert (0 < P) by (apply Z.pow_pos_nonneg; lia).
  apply (bounds_in_range _ _ (b + 1)); [done|lia|rewrite Z.pow_add_r by lia|rewrite Z.pow_add_r by lia];
    change (2 ^ 1) with 2; apply (Z.mul_le_mono_pos_l _ _ D HD).
  - transitivity (M * (V * D) * 2 ^ b); [nia|]. rewrite E.
    replace (M * (N * one) * 2 ^ b) with (N * M * (one * 2 ^ b)) by ring.
    replace (D * (d * P * one * (2 ^ b * 2))) with (2 * (d * (D * P)) * (one * 2 ^ b)) by ring.
    apply Z.mul_le_mono_nonneg_r; lia.
  - transitivity (2 * (N * M) * one); [nia|].
    replace (2 * (N * M) * one) with (2 * M * (N * one)) by ring. rewrite <- E.
    replace (D * (M * one * (2 ^ b * 2))) with (2 * M * (one * 2 ^ b * D)) by ring.
    apply Z.mul_le_mono_nonneg_l; [lia|]. apply Z.mul_le_mono_nonneg_r; lia.
Qed.

(** The closest 17-digit decimal reads back. *)
Lemma seventeen_digits d k :
  near d k -> D * 10 ^ Z.max k 0 * 10 ^ 16 <= N * 10 ^ Z.max (- k) 0 ->
  2 * Z.abs (N * 10 ^ Z.max (- k) 0 - d * (D * 10 ^ Z.max k 0)) <= D * 10 ^ Z.max k 0 ->
  of_dec d k = f.
Proof using Hm He HV Hb Hsize Hratio.
  intros Hn H16 Hclose. pose proof (near_in_range d k Hn) as Hr. destruct Hn as (Hd & _).
  destruct ratio_value as (HN & HD & E). apply (of_dec_rounded d k V); [done|apply f_normal|done|].
  pose proof (dec_den_pos k) as Pd. unfold dec_num, dec_den in *.
  set (P := 10 ^ Z.max k 0) in *. set (M := 10 ^ Z.max (- k) 0) in *. pose proof one_pos as Po.
  assert (0 < P) as PP by (apply Z.pow_pos_nonneg; lia).
  apply (rounded_cross (d * P * one * D) (M * D)); [nia|done|ring|]. rewrite HV.
  set (U := M * D * 2 ^ (e + unit_exp)).
  assert (Zpos m * U = N * M * one) as EU.
  { subst U. replace (N * M * one) with (M * (N * one)) by ring. rewrite <- E, HV. ring. }
  set (A := N * M) in *. set (B := D * P) in *. assert (0 < B) as PB by (subst B; nia).
  replace (d * P * one * D) with (d * B * one) by (subst B; ring).
  assert (0 < U) as PU by (subst U; pose proof (pow2_pos (e + unit_exp)); unfold unit_exp in *; nia).
  assert (B * one < U) as HU.
  { apply Z.nle_gt. intros Hle. assert (Zpos m * U <= Zpos m * (B * one)) by nia.
    assert (10 ^ 16 * (B * one) <= A * one) by nia. nia. }
  clearbody A B. assert (2 * Z.abs (A - d * B) * one <= B * one) as Hc by nia.
  apply rounded_near; [nia|unfold unit_exp; lia|done| |];
    change (M * D * 2 ^ (e + unit_exp)) with U; clearbody U.
  - intros Em. assert (2 * (B * one) < U).
    { apply Z.nle_gt. intros Hle. rewrite Em in EU. assert (10 ^ 16 * (B * one) <= A * one) by nia. lia. }
    rewrite EU. nia.
  - rewrite EU. nia.
Qed.

Notation dp := (decimal_point N D).

Lemma candidate_floor n :
  1 <= n -> let '(num, den) := in_units N D (dp - n) in 0 < den /\ 1 <= num / den /\ den * 10 ^ (n - 1) <= num.
Proof using Hm He HV Hratio.
  intros Hn. destruct ratio_value as (HN & HD & _). rewrite in_units_eq.
  destruct (decimal_point_spec N D HN HD) as [H _].
  replace (dp - 1) with ((dp - n) + (n - 1)) in H by lia. apply pow10_le_shift in H; [|lia..].
  pose proof (Z.pow_pos_nonneg 10 (Z.max (dp - n) 0)). pose proof (Z.pow_pos_nonneg 10 (n - 1)).
  split_and!; [nia| |done]. apply Z.div_le_lower_bound; [nia|]. nia.
Qed.

Lemma near_floor n d :
  1 <= n -> let '(num, den) := in_units N D (dp - n) in
  d = num / den \/ d = num / den + 1 -> near d (dp - n).
Proof using Hm He HV Hratio.
  intros Hn. pose proof (candidate_floor n Hn) as H. unfold near. rewrite in_units_eq in *.
  destruct H as (Hden & Hq & _).
  set (num := N * _) in *. set (den := D * _) in *. clearbody num den.
  pose proof (Z.div_mod num den ltac:(lia)). pose proof (Z.mod_pos_bound num den Hden).
  set (q := num / den) in *. clearbody q. intros [->| ->]; split_and!; nia.
Qed.

Lemma candidate_near n d :
  1 <= n -> candidate f N D (dp - n) = Some d -> of_dec d (dp - n) = f /\ near d (dp - n).
Proof using Hm He HV Hratio.
  intros Hn. pose proof (near_floor n d Hn) as Hnear. unfold candidate.
  pose proof (candidate_floor n Hn) as Hc.
  destruct (in_units N D (dp - n)) as [num den]. destruct Hc as (Hden & _).
  pose proof (rne_cases num den Hden).
  case_bool_decide as H1; case_bool_decide as H2; intros [= <-]; (split; [|by apply Hnear; auto]); try done.
  destruct (rne_cases num den Hden) as [->| ->]; done.
Qed.

Lemma candidate_17 : candidate f N D (dp - 17) <> None.
Proof using Hm He HV Hb Hsize Hratio.
  pose proof (candidate_floor 17 ltac:(lia)) as Hc. unfold candidate.
  pose proof (near_floor 17) as Hnear.
  assert (forall d, 2 * Z.abs ((in_units N D (dp - 17)).1 - d * (in_units N D (dp - 17)).2)
                    <= (in_units N D (dp - 17)).2 -> near d (dp - 17) -> of_dec d (dp - 17) = f) as Hread.
  { intros d Hd Hn. rewrite in_units_eq in Hc, Hd. destruct Hc as (_ & _ & H16).
    by apply seventeen_digits. }
  destruct (in_units N D (dp - 17)) as [num den]. destruct Hc as (Hden & _).
  pose proof (rne_close num den Hden) as Hclose. cbn [fst snd] in Hread.
  destruct (rne_cases num den Hden) as [E|E]; rewrite E in Hclose.
  - rewrite (bool_decide_true (of_dec (num / den) (dp - 17) = f)); [by case_bool_decide|].
    apply Hread; [done|]. apply (Hnear (num / den)); [lia|by left].
  - rewrite (bool_decide_true (of_dec (num / den + 1) (dp - 17) = f)); [by case_bool_decide|].
    apply Hread; [done|]. apply (Hnear (num / den + 1)); [lia|by right].
Qed.

Lemma shortest_from_spec fuel : forall n,
  1 <= n -> n + Z.of_nat fuel = 18 -> (0 < fuel)%nat ->
  let '(d, k) := shortest_from fuel n f N D dp in of_dec d k = f /\ near d k.
Proof using Hm He HV Hb Hsize Hratio.
  induction fuel as [|fuel IH]; intros n Hn Hf Hpos; [lia|]. cbn [shortest_from].
  destruct (candidate f N D (dp - n)) as [d|] eqn:E; [by apply candidate_near|].
  destruct fuel as [|fuel]; [|apply IH; lia].
  replace n with 17 in E by lia. by apply candidate_17 in E.
Qed.

Lemma normal_fun V1 V2 : normal f V1 -> normal f V2 -> V1 = V2.
Proof. intros (? & ? & [= <- <-] & _ & _ & ->) (? & ? & [= <- <-] & _ & _ & ->). done. Qed.

Lemma near_shift d k : near (d * 10) k -> near d (k + 1).
Proof using m e N D.
  unfold near. intros (H1 & H2 & H3). destruct (Z_le_gt_dec 0 k).
  - rewrite (Z.max_l k), (Z.max_r (- k)) in * by lia.
    rewrite (Z.max_r (- (k + 1))), (Z.max_l (k + 1)), Z.pow_add_r by lia. lia.
  - rewrite (Z.max_r k), (Z.max_l (- k)) in * by lia.
    rewrite (Z.max_l (- (k + 1))), (Z.max_r (k + 1)) by lia.
    replace (- k) with (- (k + 1) + 1) in * by lia. rewrite Z.pow_add_r in H2, H3 by lia. lia.
Qed.

Lemma of_dec_shift d k : near (d * 10) k -> of_dec (d * 10) k = f -> of_dec d (k + 1) = f.
Proof using Hm He HV Hb Hsize Hratio.
  intros Hn H. pose proof (near_shift d k Hn) as Hn'. pose proof (near_in_range _ _ Hn) as Hr.
  destruct Hn as (Hd & _). assert (0 < d) as Hd' by lia. pose proof (dec_den_pos k). pose proof (dec_den_pos (k + 1)).
  rewrite of_dec_ratio in H by lia.
  destruct (of_ratio_spec (dec_num (d * 10) k) (dec_den k)) as (W & HW & RW); [|done..|].
  { unfold dec_num. pose proof (Z.pow_pos_nonneg 10 (Z.max k 0)). nia. }
  rewrite H in HW. pose proof (normal_fun _ _ HW f_normal) as ->.
  apply (of_dec_rounded d (k + 1) V); [done|apply f_normal|by apply near_in_range|].
  apply (rounded_cross (dec_num (d * 10) k * one) (dec_den k)); [done..| |done].
  transitivity (dec_num (d * 10) k * dec_den (k + 1) * one); [ring|]. rewrite dec_shift. ring.
Qed.

Lemma strip_zeros_spec fuel : forall d k,
  of_dec d k = f -> near d k -> let '(d', k') := strip_zeros fuel d k in of_dec d' k' = f /\ near d' k'.
Proof using Hm He HV Hb Hsize Hratio.
  induction fuel as [|fuel IH]; intros d k Hd Hn; [done|]. cbn [strip_zeros].
  destruct (Z.eqb_spec (d mod 10) 0) as [E|]; [|done].
  assert (d / 10 * 10 = d) as Ed by (pose proof (Z.div_mod d 10 ltac:(lia)); lia).
  rewrite <- Ed in Hd, Hn. apply IH; [by apply of_dec_shift|by apply near_shift].
Qed.

Lemma shortest_spec : let '(d, k) := shortest f m e in of_dec d k = f /\ near d k.
Proof using Hm He HV Hb Hsize Hratio.
  unfold shortest. rewrite Hratio. pose proof (shortest_from_spec 17 1 ltac:(lia) eq_refl ltac:(lia)) as H.
  destruct (shortest_from _ _ _ _ _ _) as [d k]. destruct H. by apply strip_zeros_spec.
Qed.

End shortest.

(** ** Number literals *)

Definition all_digits (s : string) : Prop := digits s = (s, "").

Lemma all_digits_cons a s : is_digit a = true -> all_digits s -> all_digits (String a s).
Proof. unfold all_digits. intros Ha Hs. cbn [digits]. by rewrite Ha, Hs. Qed.

Lemma all_digits_app s t : all_digits s -> all_digits t -> all_digits (s +:+ t).
Proof.
  intros Hs Ht. induction s as [|a s IH]; [done|]. rewrite string_app_cons.
  unfold all_digits in Hs. cbn [digits] in Hs. destruct (is_digit a) eqn:Ha; [|done].
  injection Hs as E1 E2. apply all_digits_cons; [done|]. apply IH. unfold all_digits.
  destruct (digits s); cbn in *; by subst.
Qed.

(** What follows does not go on with a digit. *)
Definition no_digit (rest : string) : Prop := match rest with "" => True | String a _ => is_digit a = false end.

Lemma digits_all s rest : all_digits s -> no_digit rest -> digits (s +:+ rest) = (s, rest).
Proof.
  intros Hs Hr. induction s as [|a s IH].
  - rewrite string_app_nil_l. destruct rest as [|a r]; [done|]. cbn in *. by rewrite Hr.
  - unfold all_digits in Hs. cbn [digits] in Hs. rewrite string_app_cons. cbn [digits].
    destruct (is_digit a); [|done]. injection Hs as E1 E2. rewrite IH; [done|].
    unfold all_digits. destruct (digits s); cbn in *; by subst.
Qed.

Definition int_part (s : string) : Prop :=
  s = "0" \/ exists c t, s = String c t /\ is_digit c = true /\ c <> "0"%char /\ all_digits t.

Definition exp_part (s : string) (x : Z) : Prop :=
  (s = "" /\ x = 0) \/
  exists g ds n, s = String "e" (String g ds) /\ (g = "+"%char /\ x = n \/ g = "-"%char /\ x = - n) /\
    ds <> "" /\ all_digits ds /\ atoi_digits ds 0 = Some n.

Definition literal (i fr ex : string) : string :=
  i +:+ (if String.eqb fr "" then "" else "." +:+ fr) +:+ ex.

Lemma int_part_digits i : int_part i -> all_digits i /\ i <> "".
Proof. intros [->|(c & t & -> & Hc & _ & Ht)]; [done|]. split; [by apply all_digits_cons|done]. Qed.

Lemma exp_part_head ex x : exp_part ex x -> no_digit ex /\ eat "." ex = None.
Proof. intros [[-> _]|(g & ds & n & -> & _)]; done. Qed.

Lemma frac_head fr ex x :
  exp_part ex x -> no_digit ((if String.eqb fr "" then "" else "." +:+ fr) +:+ ex).
Proof. intros H%exp_part_head. destruct (String.eqb fr ""); [apply H|done]. Qed.

Lemma scan_literal i fr ex x : int_part i -> all_digits fr -> exp_part ex x -> is_number (literal i fr ex).
Proof.
  intros Hi Hf Hx. pose proof (frac_head fr ex x Hx) as Hh. pose proof (exp_part_head _ _ Hx) as [Hn Hdot].
  Transparent scan_number. unfold is_number, scan_number, literal. Opaque scan_number.
  set (rest := (if String.eqb fr "" then "" else "." +:+ fr) +:+ ex) in *.
  assert (eat "-" (i +:+ rest) = None) as ->.
  { destruct Hi as [->|(c & t & -> & Hc & _)]; [done|]. rewrite string_app_cons. unfold eat.
    destruct (Ascii.eqb_spec c "-"); [by subst|done]. }
  assert (scan_int (i +:+ rest) = Some (i, rest)) as Es.
  { destruct Hi as [->|(c & t & -> & Hc & H0 & Ht)]; [done|].
    unfold scan_int. rewrite string_app_cons. unfold eat. destruct (Ascii.eqb_spec c "0"); [done|].
    rewrite Hc, <- string_app_cons, digits_all; [done|by apply all_digits_cons|done]. }
  cbn [fst snd]. rewrite Es. cbn.
  assert (scan_frac rest = Some (if String.eqb fr "" then "" else "." +:+ fr, ex)) as Ef.
  { subst rest. unfold scan_frac. destruct (String.eqb_spec fr "") as [->|Hne].
    - rewrite string_app_nil_l, Hdot. done.
    - rewrite string_app_assoc, string_app_cons, eat_cons, string_app_nil_l.
      unfold scan_digits1. rewrite digits_all by done. cbn. destruct (String.eqb_spec fr ""); done. }
  rewrite Ef. cbn.
  assert (scan_exp ex = Some (ex, "")) as Ee.
  { destruct Hx as [[-> _]|(g & ds & n & -> & Hg & Hne & Hd & _)]; [done|].
    unfold scan_exp. change (is_exp_char "e") with true. cbv iota.
    replace (is_sign_char g) with true by (destruct Hg as [[-> _]|[-> _]]; done).
    unfold scan_digits1. rewrite Hd. cbn [fst snd]. destruct (String.eqb_spec ds ""); done. }
  rewrite Ee. cbn. by rewrite string_app_nil_l.
Qed.

Lemma ParseFloat_literal i fr ex x d :
  int_part i -> all_digits fr -> exp_part ex x -> atoi_digits (i +:+ fr) 0 = Some d ->
  ParseFloat (literal i fr ex) = Some (of_dec d (x - Z.of_nat (String.length fr))).
Proof.
  intros Hi Hf Hx Hd. pose proof (frac_head fr ex x Hx) as Hh. pose proof (exp_part_head _ _ Hx) as [Hn Hdot].
  pose proof (int_part_digits i Hi) as [Hid Hine]. unfold ParseFloat, literal.
  set (rest := (if String.eqb fr "" then "" else "." +:+ fr) +:+ ex) in *.
  assert (eat "-" (i +:+ rest) = None) as ->.
  { destruct Hi as [->|(c & t & -> & Hc & _)]; [done|]. rewrite string_app_cons. unfold eat.
    destruct (Ascii.eqb_spec c "-"); [by subst|done]. }
  rewrite digits_all by done.
  assert (match eat "." rest with Some r => digits r | None => ("", rest) end = (fr, ex)) as ->.
  { subst rest. destruct (String.eqb_spec fr "") as [->|Hne].
    - by rewrite string_app_nil_l, Hdot.
    - rewrite string_app_assoc, string_app_cons, eat_cons, string_app_nil_l. by apply digits_all. }
  destruct (String.eqb_spec (i +:+ fr) "") as [E|Hne]; [by destruct i|].
  assert (read_exp ex = Some x) as ->.
  { destruct Hx as [[-> ->]|(g & ds & n & -> & Hg & _ & _ & Hn')]; [done|].
    cbn [read_exp]. change (is_exp_char "e") with true. cbv iota.
    destruct Hg as [[-> ->]|[-> ->]]; cbn -[atoi_digits]; by rewrite Hn'. }
  cbn [mbind option_bind]. by rewrite Hd.
Qed.

Lemma all_digits_padded p n : all_digits (padded p n).
Proof.
  induction p as [|p IH] in n |- *; [done|]. cbn [padded]. apply all_digits_app; [apply IH|].
  apply all_digits_cons; [|done]. apply is_digit_digit. apply Z.mod_pos_bound. lia.
Qed.

Lemma all_digits_zeros k : all_digits (zeros k).
Proof. induction k as [|k IH]; [done|]. by apply all_digits_cons. Qed.

Lemma padded_app p q n : padded (p + q) n = padded p (n / 10 ^ Z.of_nat q) +:+ padded q n.
Proof.
  revert n. induction q as [|q IH]; intros n.
  - rewrite Nat.add_0_r, Z.div_1_r. by rewrite string_app_nil_r.
  - rewrite Nat.add_succ_r. cbn [padded]. rewrite IH, string_app_assoc. do 2 f_equal.
    rewrite Z.div_div by lia. f_equal. replace (Z.of_nat (S q)) with (1 + Z.of_nat q) by lia.
    by rewrite Z.pow_add_r by lia.
Qed.

Lemma digit_nonzero d : 0 < d < 10 -> digit d <> "0"%char.
Proof. intros Hd E. apply (f_equal byte) in E. rewrite byte_digit in E by lia. change (byte "0") with 48%N in E. lia. Qed.

(** The digits of a number, or of its leading part, start a literal. *)
Lemma int_part_padded p n :
  10 ^ Z.of_nat p <= n < 10 ^ (Z.of_nat p + 1) -> int_part (padded (S p) n).
Proof.
  intros Hn. right. change (S p) with (1 + p)%nat. rewrite padded_app. cbn [padded].
  pose proof (Z.pow_pos_nonneg 10 (Z.of_nat p)). rewrite Z.pow_add_r in Hn by lia. change (10 ^ 1) with 10 in Hn.
  assert (1 <= n / 10 ^ Z.of_nat p < 10).
  { split; [apply Z.div_le_lower_bound; lia|apply Z.div_lt_upper_bound; lia]. }
  rewrite string_app_nil_l, Z.mod_small by lia. eexists _, _. split_and!; [done|..].
  - apply is_digit_digit. lia.
  - apply digit_nonzero. lia.
  - apply all_digits_padded.
Qed.

Lemma int_part_app i s : int_part i -> i <> "0" -> all_digits s -> int_part (i +:+ s).
Proof.
  intros [->|(c & t & -> & H1 & H2 & H3)] Hne Hs; [done|]. right. exists c, (t +:+ s).
  split_and!; [done..|]. by apply all_digits_app.
Qed.

Lemma sdrop_padded p q n : sdrop p (padded (p + q) n) = padded q n.
Proof. rewrite padded_app. rewrite <- (length_padded p (n / 10 ^ Z.of_nat q)) at 1. apply sdrop_app. Qed.

Lemma substring_app s t : String.substring 0 (String.length s) (s +:+ t) = s.
Proof.
  induction s as [|a s IH]; [by destruct t|]. rewrite string_app_cons. cbn [String.length String.substring].
  by rewrite IH.
Qed.

Lemma substring_padded p q n : String.substring 0 p (padded (p + q) n) = padded p (n / 10 ^ Z.of_nat q).
Proof. rewrite padded_app. rewrite <- (length_padded p (n / 10 ^ Z.of_nat q)) at 1. apply substring_app. Qed.

Lemma pretty_nat_literal n :
  0 <= n -> int_part (pretty n) /\ atoi_digits (pretty n) 0 = Some n.
Proof.
  intros Hn. destruct (Z.eq_dec n 0) as [->|]; [split; [by left|done]|].
  destruct (pow10_bracket n ltac:(lia)) as [p Hp]. rewrite (pretty_padded p n Hp).
  split; [by apply int_part_padded|]. rewrite atoi_padded; [f_equal; lia|].
  split; [lia|]. replace (Z.of_nat (S p)) with (Z.of_nat p + 1) by lia. apply Hp.
Qed.

(** A literal that reads back as [f]. *)
Definition reads_as (lit : string) (f : spec_float) : Prop := is_number lit /\ ParseFloat lit = Some f.

Lemma literal_reads_as i fr ex x d f :
  int_part i -> all_digits fr -> exp_part ex x -> atoi_digits (i +:+ fr) 0 = Some d ->
  of_dec d (x - Z.of_nat (String.length fr)) = f -> reads_as (literal i fr ex) f.
Proof. intros Hi Hf Hx Hd <-. split; [by eapply scan_literal|by apply ParseFloat_literal]. Qed.

Lemma literal_frac i fr ex : fr <> "" -> literal i fr ex = i +:+ "." +:+ fr +:+ ex.
Proof. intros H. unfold literal. destruct (String.eqb_spec fr ""); [done|]. by rewrite string_app_assoc. Qed.

Lemma no_exp : exp_part "" 0.
Proof. by left. Qed.

Lemma srepeat_length k s : String.length (srepeat k s) = (k * String.length s)%nat.
Proof. induction k as [|k IH]; [done|]. cbn. rewrite length_sapp, IH. lia. Qed.

Lemma fmt_f_reads d k : 0 < d -> reads_as (fmt_f d k) (of_dec d k).
Proof.
  intros Hd. destruct (pretty_nat_literal d ltac:(lia)) as [Hi Ha]. pose proof (int_part_digits _ Hi) as [Hdig Hne].
  destruct (ndigits_spec d Hd) as (Hnd & Hlo & Hhi). pose proof (pretty_digits d Hd) as Ep.
  unfold fmt_f. change (Z.of_nat (String.length (pretty d))) with (ndigits d).
  destruct (Z.leb_spec 0 k) as [Hk|Hk]; [|destruct (Z.leb_spec (k + ndigits d) 0) as [Hdp|Hdp]].
  - replace (pretty d +:+ zeros (Z.to_nat k)) with (literal (pretty d +:+ zeros (Z.to_nat k)) "" "")
      by (unfold literal; cbn; by rewrite !string_app_nil_r).
    apply (literal_reads_as _ _ _ 0 (d * 10 ^ k)).
    + apply int_part_app; [done| |apply all_digits_zeros]. intros E. rewrite E in Ha. cbn in Ha. injection Ha. lia.
    + done.
    + apply no_exp.
    + rewrite string_app_nil_r, atoi_digits_app, Ha. cbn. rewrite atoi_zeros, Z2Nat.id by lia. done.
    + pose proof (Z.pow_pos_nonneg 10 k). rewrite !of_dec_ratio by nia. unfold dec_num, dec_den. cbn [String.length].
      rewrite (Z.max_l k), (Z.max_r (- k)) by lia. f_equal. apply Z.mul_1_r.
  - assert (zeros (Z.to_nat (- (k + ndigits d))) +:+ pretty d <> "") as Hfr.
    { intros E. apply (f_equal String.length) in E. rewrite length_sapp in E. unfold ndigits in *. cbn in E. lia. }
    replace ("0." +:+ zeros (Z.to_nat (- (k + ndigits d))) +:+ pretty d)
      with (literal "0" (zeros (Z.to_nat (- (k + ndigits d))) +:+ pretty d) "")
      by (rewrite literal_frac, string_app_nil_r by done; done).
    apply (literal_reads_as _ _ _ 0 d); [by left| |apply no_exp| |].
    + apply all_digits_app; [apply all_digits_zeros|done].
    + rewrite atoi_digits_app. change (atoi_digits "0" 0) with (Some 0). cbn [mbind option_bind].
      rewrite atoi_digits_app, atoi_zeros. cbn [mbind option_bind]. by rewrite Z.mul_0_l.
    + f_equal. rewrite length_sapp. unfold zeros. rewrite srepeat_length. cbn. unfold ndigits in *. lia.
  - set (p := Z.to_nat (k + ndigits d)). set (q := Z.to_nat (- k)).
    assert (pretty d = padded (p + q) d) as Epq by (rewrite Ep; f_equal; lia).
    rewrite Epq, substring_padded, sdrop_padded.
    assert (padded q d <> "") as Hfr.
    { intros E. apply (f_equal String.length) in E. rewrite length_padded in E. cbn in E. lia. }
    rewrite <- (string_app_nil_r (padded q d)). rewrite <- literal_frac by done.
    apply (literal_reads_as _ _ _ 0 d); [|apply all_digits_padded|apply no_exp| |].
    + destruct p as [|p'] eqn:Ep'; [lia|]. apply int_part_padded.
      replace (ndigits d - 1) with (Z.of_nat p' + Z.of_nat q) in Hlo by lia.
      replace (ndigits d) with (Z.of_nat p' + 1 + Z.of_nat q) in Hhi by lia.
      rewrite Z.pow_add_r in Hlo, Hhi by lia. pose proof (Z.pow_pos_nonneg 10 (Z.of_nat q)).
      split; [apply Z.div_le_lower_bound; lia|apply Z.div_lt_upper_bound; lia].
    + by rewrite <- padded_app, <- Epq.
    + f_equal. rewrite length_padded. lia.
Qed.

Lemma fmt_e_reads d k : 0 < d -> reads_as (fmt_e d k) (of_dec d k).
Proof.
  intros Hd. destruct (pretty_nat_literal d ltac:(lia)) as [_ Ha].
  destruct (ndigits_spec d Hd) as (Hnd & Hlo & Hhi). pose proof (pretty_digits d Hd) as Ep.
  unfold fmt_e. change (Z.of_nat (String.length (pretty d))) with (ndigits d).
  set (q := Z.to_nat (ndigits d - 1)). assert (pretty d = padded (1 + q) d) as Epq by (rewrite Ep; f_equal; lia).
  rewrite Epq, substring_padded, sdrop_padded. set (x := k + ndigits d - 1).
  set (ex := "e" +:+ (if x <? 0 then "-" else "+") +:+ pretty (Z.abs x)).
  replace (padded 1 (d / 10 ^ Z.of_nat q) +:+ (if ndigits d =? 1 then "" else "." +:+ padded q d) +:+ ex)
    with (literal (padded 1 (d / 10 ^ Z.of_nat q)) (padded q d) ex).
  2: { unfold literal. do 2 f_equal. destruct (Z.eqb_spec (ndigits d) 1) as [E|E].
       - subst q. rewrite E. done.
       - destruct (String.eqb_spec (padded q d) "") as [E'|]; [|done].
         apply (f_equal String.length) in E'. rewrite length_padded in E'. cbn in E'. lia. }
  destruct (pretty_nat_literal (Z.abs x) ltac:(lia)) as [Hxi Hxa]. pose proof (int_part_digits _ Hxi) as [Hxd Hxne].
  apply (literal_reads_as _ _ _ x d); [|apply all_digits_padded| | |].
  - apply (int_part_padded 0). replace (ndigits d) with (1 + Z.of_nat q) in Hhi by lia.
    replace (ndigits d - 1) with (Z.of_nat q) in Hlo by lia.
    rewrite Z.pow_add_r in Hhi by lia. pose proof (Z.pow_pos_nonneg 10 (Z.of_nat q)).
    split; [apply Z.div_le_lower_bound; cbn; lia|apply Z.div_lt_upper_bound; lia].
  - right. exists (if (x <? 0)%Z then "-"%char else "+"%char), (pretty (Z.abs x)), (Z.abs x).
    split_and!; [subst ex; by destruct (x <? 0)| |done..]. destruct (Z.ltb_spec x 0); [right|left]; split; done || lia.
  - by rewrite <- padded_app, <- Epq.
  - f_equal. rewrite length_padded. lia.
Qed.

(** ** What [encoding/json] writes for a number reads back as that number *)
Lemma json_float_reads b f V :
  0 <= b <= 900 -> quantity b f V -> exists lit, json_float f = Some lit /\ reads_as lit f.
Proof.
  intros Hb [[-> _]|[(m & e & -> & Hm & He & HV) Hs]]; [by exists "0"|].
  destruct (ratio m e) as [N D] eqn:Er. cbn [json_float].
  pose proof (shortest_spec m e V b N D Hm He HV Hb Hs Er) as H.
  destruct (shortest _ m e) as [d k]. destruct H as (Hd & Hpos & _).
  eexists. split; [done|]. cbn [sign_of]. rewrite string_app_nil_l.
  destruct (_ || _); rewrite <- Hd; [by apply fmt_e_reads|by apply fmt_f_reads].
Qed.

(** ** Integers *)

Lemma atoi_pretty n : - 2 ^ 63 <= n < 2 ^ 63 -> Atoi (pretty n) = Some n /\ is_number (pretty n).
Proof.
  intros Hn. destruct (Z_lt_le_dec n 0) as [Hneg|Hpos].
  - assert (pretty n = String "-" (pretty (- n))) as ->.
    { destruct n as [|p|p]; [lia|lia|]. done. }
    destruct (pretty_nat_literal (- n) ltac:(lia)) as [Hi Ha]. pose proof (int_part_digits _ Hi) as [Hd Hne]. split.
    + unfold Atoi. rewrite Ascii.eqb_refl. destruct (String.eqb_spec (pretty (- n)) ""); [done|].
      rewrite Ha. cbn -[Z.pow Z.opp]. rewrite Z.opp_involutive, (proj2 (Z.leb_le _ _)), (proj2 (Z.ltb_lt _ _)) by lia.
      done.
    + pose proof (scan_literal (pretty (- n)) "" "" 0 Hi eq_refl no_exp) as H.
      unfold literal in H. cbn [String.eqb] in H. rewrite !string_app_nil_r in H.
      Transparent scan_number. unfold is_number, scan_number in *. Opaque scan_number.
      rewrite eat_cons. cbn [fst snd].
      assert (eat "-" (pretty (- n)) = None) as Ee.
      { destruct Hi as [->|(c & t & -> & Hc & _)]; [done|]. unfold eat.
        destruct (Ascii.eqb_spec c "-"); [by subst|done]. }
      rewrite Ee in H. cbn [fst snd] in H.
      destruct (scan_int _) as [[i1 i2]|]; [|done]. cbn in *. destruct (scan_frac _) as [[f1 f2]|]; [|done]. cbn in *.
      destruct (scan_exp _) as [[e1 e2]|]; [|done]. cbn in *. rewrite string_app_nil_l in H.
      injection H as <- ->. done.
  - destruct (pretty_nat_literal n Hpos) as [Hi Ha]. pose proof (int_part_digits _ Hi) as [Hd Hne]. split.
    + unfold Atoi.
      assert (match pretty n with
        | "" => (false, "")
        | String a s' => if Ascii.eqb a "-" then (true, s') else if Ascii.eqb a "+" then (false, s') else (false, pretty n)
        end = (false, pretty n)) as ->.
      { destruct Hi as [->|(c & t & -> & Hc & _)]; [done|].
        destruct (Ascii.eqb_spec c "-"); [by subst|]. destruct (Ascii.eqb_spec c "+"); [by subst|done]. }
      destruct (String.eqb_spec (pretty n) ""); [done|].
      rewrite Ha. cbn -[Z.pow]. rewrite (proj2 (Z.leb_le _ _)), (proj2 (Z.ltb_lt _ _)) by lia. done.
    + pose proof (scan_literal (pretty n) "" "" 0 Hi eq_refl no_exp) as H.
      unfold literal in H. cbn [String.eqb] in H. by rewrite !string_app_nil_r in H.
Qed.

Lemma padded_mod p n : padded p n = padded p (n mod 10 ^ Z.of_nat p).
Proof.
  induction p as [|p IH] in n |- *; [done|]. cbn [padded].
  replace (Z.of_nat (S p)) with (1 + Z.of_nat p) by lia. rewrite Z.pow_add_r by lia. change (10 ^ 1) with 10.
  pose proof (Z.pow_pos_nonneg 10 (Z.of_nat p) ltac:(lia) ltac:(lia)) as HT. f_equal.
  - rewrite (IH (n / 10)), (IH (_ / 10)). f_equal.
    rewrite Z.rem_mul_r by lia. rewrite Z.mul_comm, Z.add_comm, Z.div_add_l by lia.
    rewrite (Z.div_small (n mod 10)) by (apply Z.mod_pos_bound; lia). by rewrite Z.add_0_r, Z.mod_mod by lia.
  - rewrite Z.rem_mul_r by lia. rewrite (Z.mul_comm 10), Z.mod_add, Z.mod_mod by lia. done.
Qed.
