(* ===== verification/Stats.v ===== *)
(** * benchmark/stats.go: percentile and maximum of the latency samples

    Samples are nanoseconds in an [int64], results are milliseconds in a
    [float64]. ([isTimeout] is in [Scenarios].) *)

From S2P Require Import Prelude Float64 Float64Facts.
From stdpp Require Import sorting options.
Local Open Scope Z_scope.

(** [float64(ns) / 1e6] *)
Definition ms (ns : Z) : spec_float := fdiv (of_int ns) (of_int 1000000).

(** [percentileMs]. The sorted copy is what any correct sort of integers
    returns; [None] is the panic of an index out of range. *)
Definition percentileMs (samples : list Z) (p : spec_float) : option spec_float :=
  if Nat.eqb (length samples) 0 then Some fzero
  else
    let sorted := merge_sort Z.le samples in
    idx ← to_int (fdiv (fmul (of_int (Z.of_nat (length sorted) - 1)) p) (of_int 100));
    if idx <? 0 then None
    else ns ← sorted !! Z.to_nat idx; Some (ms ns).

(** [maxMs] *)
Definition max_sample (samples : list Z) : Z :=
  fold_left (fun m v => if m <? v then v else m) samples 0.

Definition maxMs (samples : list Z) : spec_float :=
  if Nat.eqb (length samples) 0 then fzero else ms (max_sample samples).

(** ** The index *)

(** The rounded index is the integer part of the exact one: the product is
    exact, and the quotient is at least a hundredth away from the next
    integer, far more than the rounding error below [2 ^ 21]. *)
Lemma index_exact n p :
  0 <= n <= 2 ^ 20 -> 0 <= p <= 100 ->
  to_int (fdiv (fmul (of_int n) (of_int p)) (of_int 100)) = Some (n * p / 100).
Proof.
  intros Hn Hp. pose proof one_pos as Po.
  destruct (fmul_quantity 64 64 (of_int n) (of_int p) (n * one) (p * one)) as (V & HV & RV);
    try apply of_int_exact; try lia.
  assert (V = n * p * one) as ->.
  { destruct (Z.eq_dec (n * p) 0) as [E|].
    - rewrite E. destruct RV as [[_ ->]|[? _]]; nia.
    - apply (rounded0_exact (n * one * (p * one)) one); [done|nia|done| |ring].
      apply representable_int; unfold unit_exp; nia. }
  destruct (fdiv_quantity 128 64 (fmul (of_int n) (of_int p)) (of_int 100) (n * p * one) (100 * one))
    as (W & HW & RW); [lia..|done|by apply of_int_exact|lia|].
  set (q := n * p / 100). pose proof (Z.div_mod (n * p) 100 ltac:(lia)) as Eq.
  pose proof (Z.mod_pos_bound (n * p) 100 ltac:(lia)) as Hr. fold q in Eq.
  assert (0 <= q <= 2 ^ 20) as Hq by (split; [apply Z.div_pos; nia|apply Z.div_le_upper_bound; nia]).
  assert (q * one <= W) as Hlow.
  { apply (rounded0_ge (n * p * one * one) (100 * one) W q unit_exp); [lia|lia|by vm_compute|done|].
    change (2 ^ unit_exp) with one. nia. }
  assert (W < (q + 1) * one) as Hup.
  { assert (one = 2 ^ 32 * 2 ^ (unit_exp - 32)) as E1.
    { unfold one. rewrite <- Z.pow_add_r by (unfold unit_exp; lia). f_equal. }
    assert (0 < 2 ^ (unit_exp - 32)) as Pu by (apply pow2_pos; unfold unit_exp; lia).
    eapply Z.le_lt_trans; [apply (rounded0_le (n * p * one * one) (100 * one) W ((q + 1) * 2 ^ 32 - 1) (unit_exp - 32))|];
      [lia|lia|by vm_compute|done| |rewrite E1; nia].
    replace (((q + 1) * 2 ^ 32 - 1) * 2 ^ (unit_exp - 32) * (100 * one))
      with (((q + 1) * (2 ^ 32 * 2 ^ (unit_exp - 32)) - 2 ^ (unit_exp - 32)) * 100 * one) by ring.
    rewrite <- E1. apply Z.mul_le_mono_nonneg_r; [lia|]. rewrite E1 in *. nia. }
  rewrite (to_int_spec _ W) by (eauto using quantity_nonneg; nia). f_equal.
  symmetry. apply (Z.div_unique _ _ _ (W - q * one)); lia.
Qed.

(** ** Milliseconds *)

Lemma ms_spec ns :
  0 <= ns < 2 ^ 63 -> exists V W, rounded0 (ns * one) 1 V /\ rounded0 (V * one) (1000000 * one) W /\
    quantity 128 (ms ns) W.
Proof.
  intros Hns. pose proof one_pos. destruct (of_int_quantity ns ltac:(lia)) as (V & QV & RV).
  destruct (fdiv_quantity 64 64 (of_int ns) (of_int 1000000) V (1000000 * one)) as (W & QW & RW);
    [lia..|done|by apply of_int_exact|lia|].
  exists V, W. split_and!; done.
Qed.

Lemma ms_mono a b : 0 <= a <= b -> b < 2 ^ 63 -> fleb (ms a) (ms b) = true.
Proof.
  intros Ha Hb. pose proof one_pos as Po.
  destruct (ms_spec a ltac:(lia)) as (Va & Wa & RVa & RWa & Qa).
  destruct (ms_spec b ltac:(lia)) as (Vb & Wb & RVb & RWb & Qb).
  assert (Va <= Vb) by (eapply rounded0_mono; [| |exact RVa|exact RVb|]; nia).
  assert (Wa <= Wb) by (eapply rounded0_mono; [| |exact RWa|exact RWb|]; nia).
  rewrite (fleb_nonneg _ _ Wa Wb) by eauto using quantity_nonneg. lia.
Qed.

(** ** Ranks in a sorted list *)

Definition samples_le (x : Z) (l : list Z) : nat := length (filter (fun v => v <= x) l).
Definition samples_ge (x : Z) (l : list Z) : nat := length (filter (fun v => x <= v) l).

Lemma filter_all (P : Z -> Prop) `{!forall x, Decision (P x)} l : Forall P l -> filter P l = l.
Proof. induction 1 as [|x l Hx _ IH]; [done|]. by rewrite filter_cons_True, IH. Qed.

Lemma sorted_le_lookup l i j x y :
  StronglySorted Z.le l -> (i <= j)%nat -> l !! i = Some x -> l !! j = Some y -> x <= y.
Proof.
  intros Hs Hij Hx Hy. rewrite <- (take_drop (S i) l) in Hs.
  destruct (decide (i = j)) as [->|]; [rewrite Hx in Hy; by simplify_eq|].
  apply (StronglySorted_app_1_elem_of Z.le _ _ x y Hs).
  - apply (list_elem_of_lookup_2 _ i). rewrite lookup_take. case_decide; [done|lia].
  - apply (list_elem_of_lookup_2 _ (j - S i)). rewrite lookup_drop. by replace (S i + (j - S i))%nat with j by lia.
Qed.

Lemma sorted_ranks l i x :
  StronglySorted Z.le l -> l !! i = Some x ->
  (S i <= samples_le x l)%nat /\ (length l - i <= samples_ge x l)%nat.
Proof.
  intros Hs Hx. pose proof (lookup_lt_Some _ _ _ Hx) as Hi. unfold samples_le, samples_ge. split.
  - rewrite <- (take_drop (S i) l) at 1. rewrite filter_app, length_app.
    rewrite (filter_all _ (take (S i) l)), length_take; [lia|].
    apply Forall_lookup. intros j y Hy. rewrite lookup_take in Hy. case_decide; [|done].
    by apply (sorted_le_lookup l j i y x Hs ltac:(lia)).
  - rewrite <- (take_drop i l) at 2. rewrite filter_app, length_app.
    rewrite (filter_all _ (drop i l)), length_drop; [lia|].
    apply Forall_lookup. intros j y Hy. rewrite lookup_drop in Hy.
    by apply (sorted_le_lookup l i (i + j) x y Hs ltac:(lia)).
Qed.

(** A sort is determined by its result being a sorted permutation. *)
Lemma sort_unique l l' : Sorted Z.le l' -> l' ≡ₚ l -> merge_sort Z.le l = l'.
Proof.
  intros Hs Hp. apply (Sorted_unique Z.le); [apply (Sorted_merge_sort _)|done|].
  by rewrite merge_sort_Permutation.
Qed.

(** ** [percentileMs] *)

Lemma percentileMs_sorted samples p :
  samples <> [] -> Z.of_nat (length samples) <= 2 ^ 20 -> 0 <= p <= 100 ->
  exists ns, merge_sort Z.le samples !! Z.to_nat ((Z.of_nat (length samples) - 1) * p / 100) = Some ns /\
    percentileMs samples (of_int p) = Some (ms ns).
Proof.
  intros Hne Hlen Hp. unfold percentileMs.
  assert (length (merge_sort Z.le samples) = length samples) as EL by (by rewrite merge_sort_Permutation).
  rewrite EL.
  destruct samples as [|x l] eqn:E; [done|]. rewrite <- E in *.
  assert (0 < Z.of_nat (length samples)) as Hpos by (rewrite E; cbn; lia).
  rewrite (proj2 (Nat.eqb_neq _ _)), index_exact by lia. cbn [mbind option_bind].
  set (n := Z.of_nat (length samples) - 1) in *.
  assert (0 <= n * p / 100 <= n).
  { split; [apply Z.div_pos; nia|apply Z.div_le_upper_bound; nia]. }
  rewrite (proj2 (Z.ltb_ge _ _)) by lia.
  destruct (lookup_lt_is_Some_2 (merge_sort Z.le samples) (Z.to_nat (n * p / 100))) as [ns Hns].
  { rewrite EL. lia. }
  exists ns. rewrite Hns. done.
Qed.

Lemma max_sample_fold samples : forall m0,
  let f := fun m v => if m <? v then v else m in
  m0 <= fold_left f samples m0 /\ Forall (fun v => v <= fold_left f samples m0) samples /\
  (fold_left f samples m0 = m0 \/ fold_left f samples m0 ∈ samples).
Proof.
  induction samples as [|v samples IH]; intros m0 f; cbn; [split_and!; [lia|done|by left]|].
  destruct (IH (f m0 v)) as (I1 & I2 & I3). subst f. cbn in *.
  destruct (Z.ltb_spec m0 v); (split_and!; [lia|constructor; [lia|done]|]);
    destruct I3 as [->|]; set_solver.
Qed.

(** The order of the reported values. *)
Lemma percentiles_ordered samples p q :
  Forall (fun ns => 0 <= ns < 2 ^ 63) samples -> Z.of_nat (length samples) <= 2 ^ 20 -> 0 <= p <= q -> q <= 100 ->
  exists x y, percentileMs samples (of_int p) = Some x /\ percentileMs samples (of_int q) = Some y /\
    fleb x y = true /\ fleb y (maxMs samples) = true.
Proof.
  intros Hs Hlen Hp Hq. destruct samples as [|v l] eqn:E; [by exists fzero, fzero|]. rewrite <- E in *.
  assert (samples <> []) as Hne by (by rewrite E).
  assert (0 < Z.of_nat (length samples)) as Hpos by (rewrite E; cbn; lia).
  destruct (percentileMs_sorted samples p Hne Hlen ltac:(lia)) as (x & Hx & Ex).
  destruct (percentileMs_sorted samples q Hne Hlen ltac:(lia)) as (y & Hy & Ey).
  assert (forall z i, merge_sort Z.le samples !! i = Some z -> z ∈ samples) as Hin.
  { intros z i Hz%list_elem_of_lookup_2. by rewrite merge_sort_Permutation in Hz. }
  rewrite Forall_forall in Hs.
  pose proof (Hs _ (Hin _ _ Hx)) as Bx. pose proof (Hs _ (Hin _ _ Hy)) as By.
  destruct (max_sample_fold samples 0) as (M0 & M1 & M2). fold (max_sample samples) in M0, M1, M2.
  exists (ms x), (ms y). split_and!; [done..| |].
  - apply ms_mono; [|lia]. split; [lia|].
    eapply sorted_le_lookup; [apply (StronglySorted_merge_sort Z.le samples)| |exact Hx|exact Hy].
    apply Z2Nat.inj_le; [apply Z.div_pos; nia..|]. apply Z.div_le_mono; [lia|]. nia.
  - unfold maxMs. rewrite (proj2 (Nat.eqb_neq _ _)) by (rewrite E; done).
    rewrite Forall_forall in M1. pose proof (M1 _ (Hin _ _ Hy)).
    apply ms_mono; [lia|]. destruct M2 as [->|M2]; [lia|]. by apply Hs.
Qed.
