(* ===== verification/Measure.v ===== *)
(** * benchmark/scenarios.go: whole scenarios and their results

    [runScenario] and [runListHeavy] run a warmup phase, whose counts are
    thrown away, and a measurement phase, and turn the counters and samples of
    the latter into a [ScenarioResult]. What is not determined by the program
    (the interleaving of the goroutines, lost and late requests, clock
    readings) is a [schedule]. A phase begins with the server and the requests
    in the network that the one before it left. *)

From S2P Require Import Prelude Utf8 Json GoTime LockSpec InMemory Sharded Http HttpFacts Validate Scenarios.
From S2P Require Import Float64 Stats.
From stdpp Require Import options.
Local Open Scope Z_scope.

(** ** types.go *)

(** A [float64] is a [spec_float] of precision 53 and maximal exponent 1024. *)
Record ScenarioResult := mkScenarioResult {
  ScenarioID : string; RequestsTotal : Z; DurationMs : Z; RPS : spec_float;
  P50Ms : spec_float; P95Ms : spec_float; P99Ms : spec_float; MaxMs : spec_float;
  ErrorRate : spec_float; ConflictRate : spec_float; LeakedLocks : Z
}.

(** ** From counters to results *)

(** [float64(total) / elapsed.Seconds()], guarded *)
Definition per_second (total elapsed : Z) : spec_float :=
  if fltb fzero (Seconds elapsed) then fdiv (of_int total) (Seconds elapsed) else fzero.

(** [float64(n) / float64(total)], guarded *)
Definition share (n total : Z) : spec_float :=
  if 0 <? total then fdiv (of_int n) (of_int total) else fzero.

(** The result of a measurement. Both functions end this way. [None] is a
    panic of [percentileMs]. *)
Definition summarize (id : string) (elapsed : Z) (m : metrics) (leakedLocks : Z) : option ScenarioResult :=
  let samples := m.(m_latencies) in
  let total := m.(m_total) in
  p50 ← percentileMs samples (of_int 50);
  p95 ← percentileMs samples (of_int 95);
  p99 ← percentileMs samples (of_int 99);
  Some (mkScenarioResult id total (Milliseconds elapsed) (per_second total elapsed)
          p50 p95 p99 (maxMs samples)
          (share m.(m_errors) total) (share m.(m_conflicts) total) leakedLocks).

(** ** Schedules *)

Record schedule := mkSchedule {
  sch_warmup : list wlabel;               (* the actions of the warmup phase *)
  sch_measure : list wlabel;              (* the actions of the measurement *)
  sch_elapsed : Z;                        (* time.Since(start), ns *)
  sch_leak : result net_error (Z * iteration)   (* the request of the leak check *)
}.

(** A request was not answered in time, or the program crashed. *)
Inductive run_error := TimedOut | Panicked.

Section scenarios.
Context {St : Type} `{!LockService St}.

(** The server and the requests given up on. *)
Notation world := (St * list request)%type.

Definition stopped (pc : wpc) : bool := match pc with WStopped => true | _ => false end.

(** [runPhase]: the actions [ls], after which every goroutine has returned or
    one has panicked. It fails when [abort] was called. [None]: [ls] is no
    complete phase. *)
Definition runPhase (rs : list role) (ls : list wlabel) (m : metrics) (w : world)
    : option (result run_error metrics * world) :=
  p ← phase_run rs ls (phase_start rs w.1 w.2 m);
  let w' := (p.(p_srv), p.(p_net)) in
  if p.(p_crashed) then Some (Err Panicked, w')
  else if bool_decide (map_Forall (fun _ pc => stopped pc = true) p.(p_pcs))
  then Some (if p.(p_cause) then Err TimedOut else Ok p.(p_metrics), w')
  else None.

(** The counters set to zero and the channel drained. *)
Definition reset (m : metrics) : metrics := mkMetrics [] 0 0 0.

(** Warmup, if any, and measurement. *)
Definition run_phases (rs : list role) (warmup : Z) (sch : schedule) (w : world)
    : option (result run_error metrics * world) :=
  '(r, w) ← (if 0 <? warmup then runPhase rs sch.(sch_warmup) no_metrics w else Some (Ok no_metrics, w));
  match r with
  | Err e => Some (Err e, w)
  | Ok m => runPhase rs sch.(sch_measure) (if 0 <? warmup then reset m else m) w
  end.

(** The network of the leak check: the request is answered, or [http.Get]
    fails. *)
Definition one_request (f : result net_error (Z * iteration)) : Transport St := fun r s =>
  match f with
  | Err e => (Err e, s)
  | Ok (now, it) =>
      match serve now it r s with
      | Some (resp, s') => (Ok (mkReply resp.(status) (Ok resp.(body))), s')
      | None => (Err ErrConnection, s)
      end
  end.

(** The two functions up to the goroutines they start. *)
Definition run_and_check (id : string) (rs : list role) (warmup : Z) (sch : schedule) (w : world)
    : option (result run_error ScenarioResult * world) :=
  '(r, w) ← run_phases rs warmup sch w;
  match r with
  | Err e => Some (Err e, w)
  | Ok m =>
      let '(leakedLocks, s) := @checkLeakedLocks St (one_request sch.(sch_leak)) w.1 in
      Some (match summarize id sch.(sch_elapsed) m leakedLocks with
            | None => Err Panicked
            | Some sc => Ok sc
            end, (s, w.2))
  end.

Definition runScenario (cfg : scenarioCfg)
    : schedule -> world -> option (result run_error ScenarioResult * world) :=
  run_and_check cfg.(ID) (scenario_roles cfg) cfg.(Warmup).

Definition runListHeavy (warmup : Z) : schedule -> world -> option (result run_error ScenarioResult * world) :=
  run_and_check "list_heavy" list_heavy_roles warmup.

End scenarios.
