(* ===== verification/MeasureFacts.v ===== *)
(** * Facts about the results of a scenario

    Soundness of the numbers for any schedule, and the bounds on errors and
    leaked locks when requests are cut off by the ends of phases only. *)

From S2P Require Import Prelude Utf8 Json JsonFacts GoTime LockSpec InMemory Sharded Http HttpFacts.
From S2P Require Import Validate ValidateFacts Scenarios ScenarioFacts ScenarioBounds ScenarioTheorems.
From S2P Require Import Float64 Float64Facts Stats Measure.
From stdpp Require Import options.
Local Open Scope Z_scope.

(** ** The derived numbers *)

Lemma Seconds_quantity d :
  0 <= d < 2 ^ 63 -> exists V, quantity 129 (Seconds d) V /\ (0 < d -> 0 < V).
Proof.
  intros Hd. pose proof one_pos as Po. unfold Seconds.
  rewrite Z.quot_div_nonneg, Z.rem_mod_nonneg by lia.
  pose proof (Z.div_mod d 1000000000 ltac:(lia)) as E.
  pose proof (Z.mod_pos_bound d 1000000000 ltac:(lia)) as Hm.
  assert (0 <= d / 1000000000 < 2 ^ 53) as Hq
    by (split; [apply Z.div_pos; lia|apply Z.div_lt_upper_bound; lia]).
  destruct (fdiv_quantity 64 64 (of_int (d mod 1000000000)) (of_int 1000000000)
              (d mod 1000000000 * one) (1000000000 * one)) as (V & QV & RV);
    [lia..|apply of_int_exact; lia|by apply of_int_exact|lia|].
  destruct (fadd_quantity 128 (of_int (d / 1000000000)) (fdiv (of_int (d mod 1000000000)) (of_int 1000000000))
              (d / 1000000000 * one) V) as (W & QW & RW); [lia| |done|].
  { apply (quantity_mono 64); [lia|]. by apply of_int_exact. }
  exists W. split; [done|]. intros Hpos.
  destruct RW as [[EW _]|[_ RW]]; [|by apply rounded_pos in RW]. exfalso.
  pose proof (nonneg_ge _ _ (quantity_nonneg _ _ _ QV)).
  destruct RV as [[EV _]|[_ RV%rounded_pos]]; nia.
Qed.

Lemma per_second_quantity total elapsed :
  0 <= total < 2 ^ 63 -> 0 <= elapsed < 2 ^ 63 -> exists V, quantity 193 (per_second total elapsed) V.
Proof.
  intros Ht He. unfold per_second.
  destruct (Seconds_quantity elapsed He) as (V & QV & _).
  rewrite (fltb_nonneg _ _ 0 V) by (eauto using quantity_nonneg; by left).
  destruct (Z.ltb_spec 0 V); [|exists 0; by left].
  destruct (of_int_quantity total ltac:(lia)) as (T & QT & _).
  destruct (fdiv_quantity 64 129 _ _ T V ltac:(lia) ltac:(lia) ltac:(lia) QT QV) as (W & QW & _); eauto.
Qed.

(** A share of a whole lies between 0 and 1. *)
Lemma share_quantity n total :
  0 <= n <= total -> total < 2 ^ 63 ->
  exists V, quantity 128 (share n total) V /\ V <= one /\ (n = 0 -> share n total = fzero).
Proof.
  intros Hn Ht. pose proof one_pos as Po. unfold share.
  destruct (Z.ltb_spec 0 total); [|exists 0; split_and!; [by left|lia|done]].
  destruct (of_int_quantity n ltac:(lia)) as (N & QN & RN).
  destruct (of_int_quantity total ltac:(lia)) as (T & QT & RT).
  assert (N <= T) by (eapply rounded0_mono; [| |exact RN|exact RT|]; nia).
  assert (0 < T) by (destruct RT as [[E _]|[_ RT%rounded_pos]]; nia).
  destruct (fdiv_quantity 64 64 _ _ N T ltac:(lia) ltac:(lia) ltac:(lia) QN QT) as (W & QW & RW); [done|].
  exists W. split_and!; [done| |].
  - rewrite <- (Z.mul_1_l one).
    apply (rounded0_le (N * one) T W 1 unit_exp); [done|lia|unfold unit_exp; lia|done|].
    change (2 ^ unit_exp) with one. nia.
  - intros ->. assert (0 < T -> fdiv (of_int 0) (of_int total) = fzero) as E; [|auto].
    intros HT. destruct (quantity_pos _ _ _ QT HT) as [(m & e & -> & _) _]. done.
Qed.

Lemma quantity_unit b f V :
  quantity b f V -> V <= one -> fleb fzero f = true /\ fleb f (of_int 1) = true.
Proof.
  intros Q H. pose proof (quantity_nonneg _ _ _ Q) as N. pose proof (nonneg_ge _ _ N).
  rewrite (fleb_nonneg fzero f 0 V) by (done || by left).
  rewrite (fleb_nonneg f (of_int 1) V (1 * one)); [lia|done|].
  by apply (quantity_nonneg 64), of_int_exact.
Qed.

Lemma quantity_ge0 b f V : quantity b f V -> fleb fzero f = true /\ is_finite f = true.
Proof.
  intros Q%quantity_nonneg. pose proof (nonneg_ge _ _ Q).
  rewrite (fleb_nonneg fzero f 0 V) by (done || by left). split; [lia|by eapply nonneg_finite].
Qed.

(** ** What a result promises *)

Definition numbers (sc : ScenarioResult) : list spec_float :=
  [RPS sc; P50Ms sc; P95Ms sc; P99Ms sc; MaxMs sc; ErrorRate sc; ConflictRate sc].

(** All numbers are finite and not negative, and far from overflow and
    underflow; the percentiles are in order, the rates are shares of one, and
    the leak check returned a count or [-1]. *)
Record sound_result (sc : ScenarioResult) : Prop := mkSound {
  so_finite : Forall (fun f => is_finite f = true /\ fleb fzero f = true) (numbers sc);
  so_quantity : Forall (fun f => exists V, quantity 200 f V) (numbers sc);
  so_ordered : fleb (P50Ms sc) (P95Ms sc) = true /\ fleb (P95Ms sc) (P99Ms sc) = true /\
               fleb (P99Ms sc) (MaxMs sc) = true;
  so_rates : fleb (ErrorRate sc) (of_int 1) = true /\ fleb (ConflictRate sc) (of_int 1) = true;
  so_counts : 0 <= RequestsTotal sc < 2 ^ 63 /\ 0 <= DurationMs sc < 2 ^ 63;
  so_leaked : -1 <= LeakedLocks sc
}.

(** The counters when all goroutines have returned. *)
Record counted (m : metrics) : Prop := mkCounted {
  co_errors : 0 <= m_errors m;
  co_conflicts : 0 <= m_conflicts m;
  co_total : m_errors m + m_conflicts m <= m_total m;
  co_capacity : Z.of_nat (length (m_latencies m)) <= latency_capacity
}.

(** What the clocks and counters of a measurement can be. *)
Record sane_metrics (m : metrics) : Prop := mkSane {
  sm_counted : counted m;
  sm_total : m_total m < 2 ^ 63;
  sm_latencies : Forall (fun ns => 0 <= ns < 2 ^ 63) (m_latencies m)
}.

Lemma percentile_quantity samples p f :
  Forall (fun ns => 0 <= ns < 2 ^ 63) samples -> Z.of_nat (length samples) <= 2 ^ 20 -> 0 <= p <= 100 ->
  percentileMs samples (of_int p) = Some f -> exists V, quantity 128 f V.
Proof.
  intros Hs Hlen Hp H. destruct (decide (samples = [])) as [->|Hne].
  { cbn in H. simplify_eq. exists 0. by left. }
  destruct (percentileMs_sorted samples p Hne Hlen Hp) as (ns & Hns & E). rewrite E in H. simplify_eq.
  destruct (ms_spec ns) as (_ & W & _ & _ & Q); [|by exists W].
  rewrite Forall_forall in Hs. apply Hs. apply list_elem_of_lookup_2 in Hns.
  by rewrite sorting.merge_sort_Permutation in Hns.
Qed.

Lemma maxMs_quantity samples :
  Forall (fun ns => 0 <= ns < 2 ^ 63) samples -> exists V, quantity 128 (maxMs samples) V.
Proof.
  intros Hs. unfold maxMs. destruct (Nat.eqb _ _); [exists 0; by left|].
  destruct (max_sample_fold samples 0) as (M0 & _ & M2). fold (max_sample samples) in M0, M2.
  destruct (ms_spec (max_sample samples)) as (_ & W & _ & _ & Q); [|by exists W].
  split; [done|]. destruct M2 as [->|M2]; [lia|]. rewrite Forall_forall in Hs. by apply Hs.
Qed.

Lemma summarize_sound id elapsed m leaked :
  sane_metrics m -> 0 <= elapsed < 2 ^ 63 -> -1 <= leaked ->
  exists sc, summarize id elapsed m leaked = Some sc /\ sound_result sc.
Proof.
  intros [[He Hc Ht Hcap] Htot Hlat] Hel Hleak. unfold latency_capacity in Hcap.
  destruct (percentiles_ordered (m_latencies m) 50 95 Hlat Hcap ltac:(lia) ltac:(lia))
    as (p50 & p95 & E50 & E95 & O1 & _).
  destruct (percentiles_ordered (m_latencies m) 95 99 Hlat Hcap ltac:(lia) ltac:(lia))
    as (p95' & p99 & E95' & E99 & O2 & O3).
  rewrite E95 in E95'. injection E95' as <-.
  destruct (percentile_quantity _ 50 _ Hlat Hcap ltac:(lia) E50) as [V50 Q50].
  destruct (percentile_quantity _ 95 _ Hlat Hcap ltac:(lia) E95) as [V95 Q95].
  destruct (percentile_quantity _ 99 _ Hlat Hcap ltac:(lia) E99) as [V99 Q99].
  destruct (maxMs_quantity _ Hlat) as [Vm Qm].
  destruct (per_second_quantity (m_total m) elapsed ltac:(lia) Hel) as [Vr Qr].
  destruct (share_quantity (m_errors m) (m_total m) ltac:(lia) Htot) as (Ve & Qe & Le & _).
  destruct (share_quantity (m_conflicts m) (m_total m) ltac:(lia) Htot) as (Vc & Qc & Lc & _).
  unfold summarize. rewrite E50, E95, E99. eexists. split; [done|].
  assert (forall b f W, 0 <= b <= 200 -> quantity b f W -> exists W', quantity 200 f W') as Hq
    by (intros b f W Hb Q; exists W; by apply (quantity_mono b)).
  split; cbn -[of_int Z.pow]; unfold numbers; cbn -[of_int]; rewrite ?Forall_cons, ?Forall_nil.
  - split_and!; try done; eapply quantity_ge0; eassumption.
  - split_and!; try done; (eapply Hq; [|eassumption]); lia.
  - done.
  - split; eapply quantity_unit; eassumption.
  - unfold Milliseconds. rewrite Z.quot_div_nonneg by lia.
    split; [lia|split; [apply Z.div_pos; lia|apply Z.div_lt_upper_bound; lia]].
  - done.
Qed.

(** ** The metrics of a phase *)

Lemma offer_latencies x m :
  m_latencies (offer x m) = m_latencies m \/ m_latencies (offer x m) = m_latencies m ++ [x].
Proof. unfold offer. destruct (_ <? _); cbn; auto. Qed.

Lemma move_one_more l d ro pc pc' add f ab m :
  move l d ro pc pc' add f ab ->
  m_total (f m) <= m_total m + 1 /\
  (m_latencies (f m) = m_latencies m \/ m_latencies (f m) = m_latencies m ++ [label_elapsed l]).
Proof.
  destruct (offer_counters (label_elapsed l) m) as (_ & _ & E).
  destruct 1; cbn; unfold kept; (split; [lia|auto]); apply offer_latencies.
Qed.

Definition timed (ls : list wlabel) : Prop := Forall (fun l => 0 <= label_elapsed l < 2 ^ 63) ls.

Section phases.
Context {St : Type} `{LSL : LockServiceLaws St}.
Implicit Types (p : phase St) (w : St * list request).

Lemma effect_one_more rs l p p' :
  effect rs l p p' ->
  m_total (p_metrics p') <= m_total (p_metrics p) + 1 /\
  (m_latencies (p_metrics p') = m_latencies (p_metrics p) \/
   m_latencies (p_metrics p') = m_latencies (p_metrics p) ++ [label_elapsed l]).
Proof.
  intros He. destruct He as [id ro pc pc' add f ab Hl Hr Hp Hw Hw' Hm ->| | | |]; cbn;
    [by eapply move_one_more|split; [lia|auto]..].
Qed.

Lemma phase_run_metrics rs ls p p' :
  fleet_ok rs -> base rs p -> phase_run rs ls p = Some p' -> timed ls ->
  Forall (fun ns => 0 <= ns < 2 ^ 63) (m_latencies (p_metrics p)) ->
  m_total (p_metrics p') <= m_total (p_metrics p) + Z.of_nat (length ls) /\
  Forall (fun ns => 0 <= ns < 2 ^ 63) (m_latencies (p_metrics p')).
Proof.
  intros Hf. revert p. induction ls as [|l ls IH]; intros p Hb H Hls Hp; cbn in H; [simplify_eq; split; [cbn; lia|done]|].
  apply Forall_cons in Hls as [Hl Hls].
  destruct (phase_step rs l p) as [p1|] eqn:E; [|done]. cbn in H.
  pose proof (phase_step_effect _ Hf _ _ _ Hb E) as He.
  destruct (effect_one_more _ _ _ _ He) as [E1 E2].
  destruct (IH p1 (base_effect _ Hf _ _ _ Hb He) H Hls) as [I1 I2].
  - destruct E2 as [->| ->]; [done|]. apply Forall_app. split; [done|]. by apply Forall_singleton.
  - split; [cbn [length]; lia|done].
Qed.

(** ** [runPhase] *)

(** What a phase can begin with. *)
Definition world_ok w : Prop := ls_inv w.1 /\ Forall client_request w.2.

Lemma runPhase_inv rs ls m w r w' :
  fleet_ok rs -> armed rs -> world_ok w -> runPhase rs ls m w = Some (r, w') ->
  world_ok w' /\
  exists p, phase_run rs ls (phase_start rs w.1 w.2 m) = Some p /\ all_stopped p /\ w' = (p_srv p, p_net p) /\
    r = if p_cause p then Err TimedOut else Ok (p_metrics p).
Proof.
  intros Hf Ha [Hi Hn]. unfold runPhase. destruct (phase_run _ _ _) as [p|] eqn:Hrun; [|done]. cbn.
  rewrite (armed_run rs Hf ls w.1 w.2 m p Ha Hi Hn Hrun).
  case_bool_decide as Hst; [|done]. intros [= <- <-].
  destruct (phase_inv rs Hf (fun _ => True) ls _ p ltac:(done) (phase_start_base rs w.1 w.2 m Hi Hn) I Hrun)
    as [[Hi' Hn' _] _].
  split; [done|]. exists p. split_and!; try done.
  intros id pc Hpc. specialize (Hst id pc Hpc). by destruct pc.
Qed.

Lemma stopped_counted rs ls s net p :
  fleet_ok rs -> ls_inv s -> Forall client_request net ->
  phase_run rs ls (phase_start rs s net no_metrics) = Some p -> all_stopped p -> counted (p_metrics p).
Proof.
  intros Hf Hi Hn Hrun Hst. destruct (counters_run rs Hf ls s net p Hi Hn Hrun) as [? ? Ht Hs].
  split; [done..|lia|]. rewrite Hs. lia.
Qed.

Lemma runPhase_sane rs ls w r w' :
  fleet_ok rs -> armed rs -> world_ok w -> timed ls -> Z.of_nat (length ls) < 2 ^ 63 ->
  runPhase rs ls no_metrics w = Some (r, w') ->
  world_ok w' /\ r <> Err Panicked /\ forall m, r = Ok m -> sane_metrics m.
Proof.
  intros Hf Ha Hw Hls Hlen Hrun.
  destruct (runPhase_inv _ _ _ _ _ _ Hf Ha Hw Hrun) as (Hw' & p & Hp & Hst & _ & ->). destruct Hw as [Hi Hn].
  split_and!; [done|by destruct (p_cause p)|]. intros m Hm. destruct (p_cause p); simplify_eq.
  destruct (phase_run_metrics _ _ _ _ Hf (phase_start_base rs w.1 w.2 no_metrics Hi Hn) Hp Hls (Forall_nil_2 _))
    as [Ht Hl].
  split; [by eapply (stopped_counted rs ls w.1 w.2)| |done]. cbn in Ht. lia.
Qed.

Record schedule_ok (sch : schedule) : Prop := mkScheduleOk {
  so_warmup : timed (sch_warmup sch);
  so_measure : timed (sch_measure sch);
  so_length : Z.of_nat (length (sch_warmup sch)) < 2 ^ 63 /\ Z.of_nat (length (sch_measure sch)) < 2 ^ 63;
  so_elapsed : 0 <= sch_elapsed sch < 2 ^ 63
}.

Lemma run_phases_sane rs warmup sch w r w' :
  fleet_ok rs -> armed rs -> world_ok w -> schedule_ok sch -> run_phases rs warmup sch w = Some (r, w') ->
  world_ok w' /\ r <> Err Panicked /\ forall m, r = Ok m -> sane_metrics m.
Proof.
  intros Hf Ha Hi [H1 H2 [L1 L2] _]. unfold run_phases. destruct (0 <? warmup).
  - destruct (runPhase rs (sch_warmup sch) no_metrics w) as [[r0 w0]|] eqn:E; [|done]. cbn.
    destruct (runPhase_sane _ _ _ _ _ Hf Ha Hi H1 L1 E) as (I0 & P0 & _).
    destruct r0 as [m|e]; [|intros [= <- <-]; split_and!; [done|congruence|done]].
    intros H. by apply (runPhase_sane rs (sch_measure sch) w0).
  - cbn. intros H. by apply (runPhase_sane rs (sch_measure sch) w).
Qed.

Lemma leak_check_bound {W} `{!Transport W} (x : W) : -1 <= (checkLeakedLocks x).1.
Proof. unfold checkLeakedLocks. repeat case_match; cbn; lia. Qed.

Lemma run_and_check_sound id rs warmup sch w r w' :
  fleet_ok rs -> armed rs -> world_ok w -> schedule_ok sch -> run_and_check id rs warmup sch w = Some (r, w') ->
  r <> Err Panicked /\ forall sc, r = Ok sc -> sound_result sc.
Proof.
  intros Hf Ha Hi Hs. unfold run_and_check.
  destruct (run_phases rs warmup sch w) as [[r0 w0]|] eqn:E; [|done]. cbn.
  destruct (run_phases_sane _ _ _ _ _ _ Hf Ha Hi Hs E) as (_ & P0 & Hm).
  destruct r0 as [m|e]; [|intros [= <- <-]; split; [congruence|done]].
  pose proof (@leak_check_bound St (one_request (sch_leak sch)) w0.1) as Hl.
  destruct (checkLeakedLocks w0.1) as [leaked s1]. intros [= <- <-].
  destruct (summarize_sound id (sch_elapsed sch) m leaked (Hm m eq_refl) (so_elapsed _ Hs) Hl)
    as (sc & -> & Hsc). split; [done|]. by intros ? [= <-].
Qed.

(** ** Scenarios on a server that answers promptly *)

(** Requests are given up on only when their phase is over, and the leak check
    is answered. *)
Definition prompt_schedule (sch : schedule) : Prop :=
  prompt (sch_warmup sch) /\ prompt (sch_measure sch) /\ is_ok (sch_leak sch) = true.

(** After at most [k] cut-off requests: the locks in the table or on the way,
    and the requests on the way. *)
Definition left_by (k : nat) w : Prop :=
  table_ok (ls_abs w.1) /\ (size (ls_abs w.1) + posts w.2 <= k)%nat /\ (length w.2 <= 2 * k)%nat.

(** Every key of a worker is held by it only. *)
Definition apart_world rs w : Prop := own_table rs (ls_abs w.1) /\ Forall (own_request rs) w.2.

Lemma runPhase_prompt rs ls k w r w' :
  fleet_ok rs -> armed rs -> world_ok w -> prompt ls -> left_by k w ->
  runPhase rs ls no_metrics w = Some (r, w') ->
  left_by (k + length rs) w' /\
  exists m, r = Ok m /\ m_errors m <= Z.of_nat (2 * (k + length rs)) /\
    (partitioned rs -> apart_world rs w -> m_conflicts m = 0 /\ apart_world rs w').
Proof.
  intros Hf Ha Hw Hpr (Ht & Hs & Hl) Hrun.
  destruct (runPhase_inv _ _ _ _ _ _ Hf Ha Hw Hrun) as (Hw' & p & Hp & Hst & -> & ->). destruct Hw as [Hi Hn].
  destruct (prompt_run rs Hf ls w.1 w.2 p Hi Hn Hpr Hp) as [-> Hb]. destruct (Hb Hst) as [HE HL].
  destruct (table_ok_run rs Hf ls w.1 w.2 no_metrics p Hi Hn Ht Hp) as [_ Ht'].
  destruct (stopped_counted rs ls w.1 w.2 p Hf Hi Hn Hp Hst) as [He _ _ _].
  split; [split_and!; cbn [fst snd]; [done|lia|lia]|].
  exists (p_metrics p). split_and!; [done|lia|]. intros Hpart [Ht0 Hn0].
  destruct (apart_run rs Hf ls w.1 w.2 p Hpart Hi Hn0 Ht0 Hp) as [? ? ? _]. done.
Qed.

Lemma run_phases_prompt rs warmup sch k w r w' :
  fleet_ok rs -> armed rs -> world_ok w -> schedule_ok sch -> prompt_schedule sch -> left_by k w ->
  run_phases rs warmup sch w = Some (r, w') ->
  left_by (k + 2 * length rs) w' /\
  exists m, r = Ok m /\ m_errors m <= Z.of_nat (2 * (k + 2 * length rs)) /\
    (partitioned rs -> apart_world rs w -> m_conflicts m = 0).
Proof.
  intros Hf Ha Hw [T1 T2 [L1 L2] _] (H1 & H2 & _) Hk. unfold run_phases. destruct (0 <? warmup).
  - destruct (runPhase rs (sch_warmup sch) no_metrics w) as [[r0 w0]|] eqn:E; [|done].
    cbn [mbind option_bind].
    destruct (runPhase_prompt _ _ _ _ _ _ Hf Ha Hw H1 Hk E) as (K0 & m0 & -> & _ & A0).
    destruct (runPhase_sane _ _ _ _ _ Hf Ha Hw T1 L1 E) as (W0 & _ & _).
    intros H. destruct (runPhase_prompt rs (sch_measure sch) _ w0 r w' Hf Ha W0 H2 K0 H) as (K1 & m & -> & Em & A1).
    replace (k + 2 * length rs)%nat with (k + length rs + length rs)%nat by lia.
    split; [done|]. exists m. split_and!; [done..|]. intros Hp Hap. by apply A1, A0.
  - cbn [mbind option_bind]. intros H. destruct (runPhase_prompt rs (sch_measure sch) _ w r w' Hf Ha Hw H2 Hk H) as (K1 & m & -> & Em & A1).
    destruct K1 as (? & ? & ?). split; [split_and!; [done|lia|lia]|]. exists m.
    split_and!; [done|lia|]. intros Hp Hap. by apply A1.
Qed.

Lemma leak_check_exact_prompt leak s :
  is_ok leak = true -> ls_inv s -> table_ok (ls_abs s) ->
  exists s', @checkLeakedLocks St (one_request leak) s = (Z.of_nat (size (ls_abs s)), s') /\
    ls_inv s' /\ ls_abs s' = ls_abs s.
Proof.
  destruct leak as [[now it]|]; [|done]. intros _ Hi Ht.
  destruct (serve_refines now it (mkRequest "GET" "/locks" "") s Hi) as (resp & s' & E & Hi' & Hs).
  exists s'. destruct (@leak_check_served St (one_request (Ok (now, it))) now (ls_abs s) resp (ls_abs s') s s')
    as [-> Ht']; [|done..].
  unfold client_Do, one_request. by rewrite E.
Qed.

(** A scenario that ran to its end with at most [k] requests cut off so far. *)
Record bounded_result (id : string) (k : nat) (sc : ScenarioResult) : Prop := mkBounded {
  br_sound : sound_result sc;
  br_id : ScenarioID sc = id;
  br_errors : exists errs, 0 <= errs <= Z.of_nat (2 * k) /\ ErrorRate sc = share errs (RequestsTotal sc);
  br_leaked : 0 <= LeakedLocks sc <= Z.of_nat k
}.

Lemma summarize_fields id elapsed m leaked sc :
  summarize id elapsed m leaked = Some sc ->
  ScenarioID sc = id /\ RequestsTotal sc = m_total m /\ ErrorRate sc = share (m_errors m) (m_total m) /\
  ConflictRate sc = share (m_conflicts m) (m_total m) /\ LeakedLocks sc = leaked.
Proof.
  unfold summarize. destruct (percentileMs _ (of_int 50)), (percentileMs _ (of_int 95)), (percentileMs _ (of_int 99));
    cbn [mbind option_bind]; intros ?; by simplify_eq.
Qed.

Lemma run_and_check_prompt id rs warmup sch k w r w' :
  fleet_ok rs -> armed rs -> world_ok w -> schedule_ok sch -> prompt_schedule sch -> left_by k w ->
  run_and_check id rs warmup sch w = Some (r, w') ->
  world_ok w' /\ left_by (k + 2 * length rs) w' /\
  exists sc, r = Ok sc /\ bounded_result id (k + 2 * length rs) sc /\
    (partitioned rs -> apart_world rs w -> ConflictRate sc = fzero).
Proof.
  intros Hf Ha Hw Hs Hpr Hk Hrun.
  destruct (run_and_check_sound _ _ _ _ _ _ _ Hf Ha Hw Hs Hrun) as [_ Hsound].
  unfold run_and_check in Hrun.
  destruct (run_phases rs warmup sch w) as [[r0 w0]|] eqn:E; [|done]. cbn in Hrun.
  destruct (run_phases_sane _ _ _ _ _ _ Hf Ha Hw Hs E) as ([Hi0 Hn0] & _ & Hm).
  destruct (run_phases_prompt _ _ _ _ _ _ _ Hf Ha Hw Hs Hpr Hk E) as ((Ht & Hz & Hl) & m & -> & He & Hc).
  destruct (leak_check_exact_prompt (sch_leak sch) w0.1) as (s1 & El & Hi1 & Ha1); [apply Hpr|done..|].
  rewrite El in Hrun. destruct (Hm m eq_refl) as [[? ? ? ?] Htot ?].
  remember (Z.of_nat (size (ls_abs w0.1))) as leaked eqn:Hleaked.
  destruct (summarize_sound id (sch_elapsed sch) m leaked (Hm m eq_refl) (so_elapsed _ Hs) ltac:(lia))
    as (sc & Esum & _). rewrite Esum in Hrun. simplify_eq.
  destruct (summarize_fields _ _ _ _ _ Esum) as (F1 & F2 & F3 & F4 & F5).
  split; [done|]. split; [unfold left_by; cbn [fst snd]; by rewrite Ha1|]. exists sc. split; [done|]. split.
  - split; [by apply Hsound|done| |rewrite F5; lia]. exists (m_errors m). rewrite F2. done.
  - intros Hp Hap. rewrite F4. specialize (Hc Hp Hap).
    destruct (share_quantity (m_conflicts m) (m_total m)) as (? & _ & _ & Hzero); [lia|done|auto].
Qed.

End phases.
