(* ===== verification/MeasureTheorems.v ===== *)
(** * What the results of a scenario say *)

From S2P Require Import Prelude Utf8 Json JsonFacts GoTime LockSpec InMemory Sharded Http HttpFacts.
From S2P Require Import Validate ValidateFacts Scenarios ScenarioFacts ScenarioBounds ScenarioTheorems.
From S2P Require Import Float64 Float64Facts Stats Measure MeasureFacts.
From stdpp Require Import sorting options.
Local Open Scope Z_scope.

(** C14: percentiles are exact. For every sample count the latency channel can
    hold and every whole percentage, the index that percentileMs computes in
    floating point is the integer part of the exact one and in bounds, so that
    it returns, without a panic, the sample at that place of the sorted list:
    a measured sample that at least the wanted number of samples do not exceed
    and that is itself not exceeded by the others. *)
Theorem percentile_exact samples sorted p :
  samples <> [] -> Z.of_nat (length samples) <= latency_capacity -> 0 <= p <= 100 ->
  Sorted Z.le sorted -> sorted ≡ₚ samples ->
  let idx := Z.to_nat ((Z.of_nat (length samples) - 1) * p / 100) in
  exists ns, (idx < length samples)%nat /\ sorted !! idx = Some ns /\
    percentileMs samples (of_int p) = Some (ms ns) /\ ns ∈ samples /\
    (S idx <= samples_le ns samples)%nat /\ (length samples - idx <= samples_ge ns samples)%nat.
Proof.
  intros Hne Hlen Hp Hs Hperm idx. pose proof (sort_unique _ _ Hs Hperm) as Hsort.
  destruct (percentileMs_sorted samples p Hne Hlen Hp) as (ns & Hns & E). rewrite Hsort in Hns.
  exists ns. destruct (sorted_ranks sorted idx ns) as [H1 H2]; [by apply (Sorted_StronglySorted _)|done|].
  split_and!; try done.
  - rewrite <- Hperm. by eapply lookup_lt_Some.
  - rewrite <- Hperm. by eapply list_elem_of_lookup_2.
  - unfold samples_le in *. by rewrite <- Hperm.
  - unfold samples_ge in *. by rewrite <- Hperm.
Qed.

Definition four_samples : list Z := [5000000; 1000000; 7000000; 2000000].
Definition four_sorted : list Z := [1000000; 2000000; 5000000; 7000000].

Lemma percentile_exact_witness :
  exists ns, (2 < 4)%nat /\ four_sorted !! 2%nat = Some ns /\
    percentileMs four_samples (of_int 95) = Some (ms ns) /\ ns ∈ four_samples /\
    (3 <= samples_le ns four_samples)%nat /\ (4 - 2 <= samples_ge ns four_samples)%nat.
Proof.
  apply (percentile_exact four_samples four_sorted 95).
  - discriminate.
  - vm_compute. discriminate.
  - lia.
  - repeat constructor; lia.
  - apply (bool_decide_unpack _). vm_compute. exact I.
Defined.

(** A worker acquires and releases a key in each phase; the whole takes 1.5 s. *)
Definition short_schedule : schedule :=
  mkSchedule whole_phase whole_phase 1500000000 (Ok (9, insertion_order)).
Definition warm : scenarioCfg := mkScenarioCfg "tiny" 2 4 0 1 true.

Lemma short_schedule_ok : schedule_ok short_schedule.
Proof. split; cbn; try lia; repeat constructor; cbn; lia. Qed.

(** With no keys to choose from, the first worker that starts a round takes
    the program down. *)
Example empty_pool_panics :
  fst <$> runScenario (mkScenarioCfg "none" 1 0 0 0 false)
            (mkSchedule [] [WStep 0 0] 0 (Ok (0, insertion_order))) (InMemory.newStore, [])
  = Some (Err Panicked).
Proof. reflexivity. Qed.

(** C9: the numbers of a result are sound. Take a scenario whose workers have
    keys: they are partitioned (then each worker gets at least one, however
    small the pool) or the shared pool is not empty; or take list_heavy.
    Whatever the network and the interleaving, and whatever earlier phases
    left behind, no goroutine panics for want of a key, no index of a
    percentile is out of range, and a result that is returned has only finite,
    non-negative numbers: no NaN and no infinity, hence nothing that
    json.Marshal refuses; P50 <= P95 <= P99 <= Max; the error and conflict
    rates lie between 0 and 1; the leak count is at least -1. *)
Theorem results_sound {St} `{LSL : LockServiceLaws St} cfg warmup sch (w : St * list request) r w' :
  PartitionKeys cfg = true \/ 0 < KeyPoolSize cfg ->
  world_ok w -> schedule_ok sch ->
  runScenario cfg sch w = Some (r, w') \/ runListHeavy warmup sch w = Some (r, w') ->
  r <> Err Panicked /\ forall sc, r = Ok sc -> sound_result sc.
Proof.
  intros Hk Hi Hs [H|H].
  - exact (run_and_check_sound _ _ _ _ _ _ _ (scenario_fleet cfg) (scenario_armed cfg Hk) Hi Hs H).
  - exact (run_and_check_sound _ _ _ _ _ _ _ list_heavy_fleet list_heavy_armed Hi Hs H).
Qed.

Lemma results_sound_witness :
  exists sc w', runScenario warm short_schedule (InMemory.newStore, []) = Some (Ok sc, w') /\
    RequestsTotal sc = 2 /\ @Ok run_error _ sc <> Err Panicked /\ forall sc', @Ok run_error _ sc = Ok sc' -> sound_result sc'.
Proof.
  eexists _, _. split; [vm_compute; reflexivity|]. split; [vm_compute; reflexivity|].
  eapply (results_sound (St := InMemory.store) warm 1 short_schedule (InMemory.newStore, [])).
  - left. reflexivity.
  - split; [exact InMemory.newStore_inv|constructor].
  - exact short_schedule_ok.
  - left. vm_compute. reflexivity.
Defined.
