(* ===== verification/Docker.v ===== *)
(** * benchmark/docker.go: images, containers and networks

    The Docker daemon, the operating system and the clock are the interface
    [Host]: each operation takes the state of the outside world and returns
    its answer and the new state. The functions of docker.go are programs that
    call it; they also record their calls with their outcomes, so that what
    happens to a container on every path can be stated. Errors keep the text
    the code adds and the error it wraps. *)

From S2P Require Import Prelude Utf8 Json JsonFacts GoTime LockSpec Http HttpFacts Validate Format.
From stdpp Require Import options.
Local Open Scope Z_scope.

(** ** The outside world *)

Record container_spec := mkContainerSpec {
  cs_image : string; cs_port : string; cs_publish : bool;
  cs_network : option (string * string);     (* network name and alias *)
  cs_name : string
}.

(** What [filepath.Walk] passes to its function for one path: the path, the
    error, whether it is a directory, the outcome of making and writing its
    tar header, and of opening and copying its content. *)
Record walk_item := mkWalkItem {
  wi_path : string; wi_err : option string; wi_dir : bool;
  wi_header : result string unit; wi_data : result string string
}.

(** A member of the archive: its name, and its content unless a directory. *)
Definition tar_entry : Type := string * option string.

Class Host (W : Type) := {
  h_now : W -> Z;                                          (* time.Now(), ns *)
  (* select on ctx.Done() and time.After: [false] when the context ended *)
  h_wait : Z -> W -> bool * W;
  h_sleep : Z -> W -> W;                                   (* time.Sleep *)
  h_getenv : string -> W -> string;
  h_ReadFile : string -> W -> result string string;
  h_Stat : string -> W -> result string bool;              (* IsDir() of the file *)
  h_ReadDir : string -> W -> result string (list (string * bool));  (* names with IsDir() *)
  h_NewClient : W -> result string unit;                   (* client.NewClientWithOpts *)
  h_Walk : string -> W -> list walk_item;                  (* filepath.Walk, in order *)
  h_tar : list tar_entry -> result string string;          (* the archive, or the error of Close *)
  h_ImageBuild : string -> string -> W -> result string string * W;
  h_ContainerCreate : container_spec -> W -> result string string * W;
  h_ContainerStart : string -> W -> result string unit * W;
  (* NetworkSettings.Ports[natPort], as the host ports of the bindings *)
  h_ContainerInspect : string -> string -> W -> result string (list string) * W;
  h_ContainerStop : string -> Z -> W -> result string unit * W;
  h_ContainerRemove : string -> W -> result string unit * W;
  h_NetworkCreate : string -> W -> result string string * W;
  h_NetworkRemove : string -> W -> result string unit * W;
  h_NetworkConnect : string -> string -> W -> result string unit * W;
  h_MkdirAll : string -> W -> result string unit * W;
  h_WriteFile : string -> string -> W -> result string unit * W;
  h_http : string -> Transport W                           (* clients of a base URL *)
}.

(** The calls that create, destroy and write, and the printing of the summary. *)
Inductive dcall :=
| CBuild (tag : string)
| CCreate (spec : container_spec)
| CStart (id : string)
| CStop (id : string)
| CRemove (id : string)
| CNetCreate (name : string)
| CNetRemove (id : string)
| CNetConnect (id host : string)
| CMkdir (path : string)
| CWrite (path data : string)
| CPrint (text : string).                 (* the summary; progress output is not recorded *)

(** A call and whether it succeeded. *)
Definition devent : Type := dcall * bool.

Inductive derror :=
| ApiError (e : string)                    (* an error of the daemon or the system *)
| Msg (s : string)                         (* fmt.Errorf without an inner error *)
| Wrapped (s : string) (e : derror)        (* fmt.Errorf("s: %w", err) *)
| CtxEnded                                 (* ctx.Err() *)
| BadJson                                  (* a decoding error *)
| BadPort (hostPort : string)              (* strconv.Atoi failed *)
| SpecError (e : verror).                  (* from validateSpec *)

(** ** Programs *)

Definition io (W A : Type) : Type := W * list devent -> result derror A * (W * list devent).

#[export] Instance io_ret W : MRet (io W) := fun _ a w => (Ok a, w).
#[export] Instance io_bind W : MBind (io W) := fun _ _ k m w =>
  match m w with
  | (Ok a, w') => k a w'
  | (Err e, w') => (Err e, w')
  end.

(** Continue with the result, error or not. *)
Definition try_io {W A} (m : io W A) : io W (result derror A) := fun w =>
  match m w with (r, w') => (Ok r, w') end.
Definition fail {W A} (e : derror) : io W A := fun w => (Err e, w).
(** [if err != nil { return fmt.Errorf("s: %w", err) }] *)
Definition wrapped {W A} (s : string) (m : io W A) : io W A := fun w =>
  match m w with (Ok a, w') => (Ok a, w') | (Err e, w') => (Err (Wrapped s e), w') end.
(** [_ = f()] *)
Definition ignore {W A} (m : io W A) : io W unit := fun w => (Ok (), (m w).2).
(** [defer f()]: run [f] when [m] has returned, whatever it returned. *)
Definition deferred {W A B} (f : io W B) (m : io W A) : io W A := fun w =>
  match m w with (r, w') => (r, (f w').2) end.

(** A call recorded with its outcome, and a query that is not recorded. *)
Definition call {W A} (c : dcall) (op : W -> result string A * W) : io W A := fun w =>
  match op w.1 with
  | (Ok a, w') => (Ok a, (w', w.2 ++ [(c, true)]))
  | (Err e, w') => (Err (ApiError e), (w', w.2 ++ [(c, false)]))
  end.
Definition query {W A} (op : W -> result string A * W) : io W A := fun w =>
  match op w.1 with
  | (Ok a, w') => (Ok a, (w', w.2))
  | (Err e, w') => (Err (ApiError e), (w', w.2))
  end.
Definition read {W A} (op : W -> result string A) : io W A := query (fun w => (op w, w)).
Definition ask {W A} (op : W -> A) : io W A := fun w => (Ok (op w.1), w).

(** ** Names *)

Fixpoint string_map (f : ascii -> ascii) (s : string) : string :=
  match s with "" => "" | String a s => String (f a) (string_map f s) end.

(** [strings.ReplaceAll(s, " ", "-")] *)
Definition dash (a : ascii) : ascii := if Ascii.eqb a " " then "-"%char else a.

Section names.
(** [unicode.ToLower] outside ASCII, a table of the Unicode data. *)
Context (unicode_lower : N -> N).

Definition lower_rune (r : N) : N :=
  if between 65 90 r then r + 32 else if (r <? 128)%N then r else unicode_lower r.
(** [strings.ToLower] *)
Definition ToLower (s : string) : string := cat ((fun rw => encode_rune (lower_rune rw.1)) <$> runes s).

Definition slug (name : string) : string := string_map dash (ToLower name).
Definition ImageTag (name : string) : string := "dl-benchmark-" +:+ slug name.
Definition ContainerName (name : string) : string := "dl-bench-" +:+ slug name.
End names.

Definition portSpec (containerPort : Z) : string := pretty containerPort +:+ "/tcp".

(** ** The output of an image build *)

Record buildMsg := mkBuildMsg { bmStream : string; bmError : string }.

Definition set_buildMsg (r : buildMsg) (f : string) (v : json) : buildMsg * bool :=
  if String.eqb f "stream" then
    let x := set_string r.(bmStream) v in (mkBuildMsg x.1 r.(bmError), x.2)
  else
    let x := set_string r.(bmError) v in (mkBuildMsg r.(bmStream) x.1, x.2).

Definition decode_buildMsg : json -> buildMsg * bool :=
  decode_struct ["stream"; "error"] set_buildMsg (mkBuildMsg "" "").

Inductive build_outcome :=
| BuildDone (log : string)
| BuildUnreadable
| BuildError (msg log : string)
| BuildFuel.

(** The decode loop of [BuildImage] over the rest of the stream. *)
Fixpoint drain_build (n : nat) (s log : string) : build_outcome :=
  match n with
  | O => BuildFuel
  | S n =>
      if is_empty (skip_ws s) then BuildDone log          (* io.EOF *)
      else match parse s with
      | POk v rest =>
          let '(msg, bad) := decode_buildMsg v in
          if (bad : bool) then BuildUnreadable
          else
            let log := if is_empty msg.(bmStream) then log else log +:+ msg.(bmStream) in
            if is_empty msg.(bmError) then drain_build n rest log
            else BuildError msg.(bmError) log
      | _ => BuildUnreadable
      end
  end.

(** ** Archives *)

(** [filepath.Rel(dir, path)] for a path that [filepath.Walk] found in [dir]. *)
Definition path_rel (dir path : string) : string :=
  if String.eqb path dir then "." else sdrop (S (String.length dir)) path.

(** The walk of [createTarball]: the members of the archive, or the first
    error, at which [filepath.Walk] stops. *)
Fixpoint tar_walk (dir : string) (items : list walk_item) : result string (list tar_entry) :=
  match items with
  | [] => Ok []
  | item :: items =>
      match item.(wi_err), item.(wi_header), item.(wi_data) with
      | Some e, _, _ => Err e
      | None, Err e, _ => Err e
      | None, Ok _, data =>
          let rel := path_rel dir item.(wi_path) in
          if item.(wi_dir) then rest ← tar_walk dir items; Ok ((rel, None) :: rest)
          else match data with
               | Err e => Err e
               | Ok content => rest ← tar_walk dir items; Ok ((rel, Some content) :: rest)
               end
      end
  end.

Section docker.
Context {W : Type} `{!Host W}.

Definition createTarball (dir : string) : io W string :=
  items ← ask (h_Walk dir);
  read (fun _ => entries ← tar_walk dir items; h_tar entries).

Definition BuildImage (solutionDir tag : string) : io W unit :=
  tarBuf ← wrapped "create tarball" (createTarball solutionDir);
  resp ← wrapped "image build" (call (CBuild tag) (h_ImageBuild tag tarBuf));
  match drain_build (S (String.length resp)) resp "" with
  | BuildDone _ => mret ()
  | BuildError msg log =>
      fail (Msg ("docker build error: " +:+ msg +:+ newline +:+ "build log:" +:+ newline +:+ log))
  | _ => fail (Wrapped "reading build output" BadJson)
  end.

(** [select { case <-ctx.Done(): ... case <-time.After(d): }] *)
Definition wait (d : Z) : io W bool := fun w =>
  match h_wait d w.1 with (b, w') => (Ok b, (w', w.2)) end.

(** The retry loop of [RunContainer]. *)
Fixpoint await_port (n : nat) (id port : string) (deadline : Z) : io W (string * Z) :=
  match n with
  | O => fail (Msg "out of fuel")
  | S n =>
      bindings ← wrapped "container inspect" (query (h_ContainerInspect id port));
      match bindings with
      | hostPort :: _ =>
          match Atoi hostPort with
          | Some p => mret (id, p)
          | None => fail (BadPort hostPort)
          end
      | [] =>
          now ← ask h_now;
          if deadline <? now then fail (Msg ("no port binding found for " +:+ port +:+ " after 5s"))
          else
            alive ← wait (100 * millisecond);
            if (alive : bool) then await_port n id port deadline else fail CtxEnded
      end
  end.

(** Polls of [await_port] and [WaitHealthy] are 100 ms apart or more. *)
Definition poll_fuel (timeout : Z) : nat := S (S (Z.to_nat (timeout / (100 * millisecond)))).

Definition RunContainer (tag : string) (containerPort : Z) : io W (string * Z) :=
  let spec := mkContainerSpec tag (portSpec containerPort) true None "" in
  id ← wrapped "container create" (call (CCreate spec) (h_ContainerCreate spec));
  _ ← wrapped "container start" (call (CStart id) (h_ContainerStart id));
  now ← ask h_now;
  await_port (poll_fuel (5 * second)) id (portSpec containerPort) (now + 5 * second).

(** One GET /healthz: did it return 200? *)
Definition healthz (baseURL : string) : io W bool := fun w =>
  match @client_Do W (h_http baseURL) (mkRequest "GET" "/healthz" "") w.1 with
  | (Ok r, w') => (Ok (r.(StatusCode) =? StatusOK), (w', w.2))
  | (Err _, w') => (Ok false, (w', w.2))
  end.

(** [math.Min] on two durations below 2^53 ns, which [float64] represents. *)
Definition next_delay (delay : Z) : Z := Z.min (delay * 2) (2 * second).

(** The polling loop of [WaitHealthy]. *)
Fixpoint poll_health (n : nat) (baseURL : string) (timeoutMs deadline delay : Z) : io W unit :=
  match n with
  | O => fail (Msg "out of fuel")
  | S n =>
      now ← ask h_now;
      if deadline <? now then
        fail (Msg ("service at " +:+ baseURL +:+ " not healthy within " +:+ pretty timeoutMs +:+ "ms"))
      else
        healthy ← healthz baseURL;
        if (healthy : bool) then mret ()
        else
          alive ← wait delay;
          if (alive : bool) then poll_health n baseURL timeoutMs deadline (next_delay delay)
          else fail CtxEnded
  end.

(** [time.Duration(timeoutMs) * time.Millisecond], a product of [int64]s. *)
Definition startup_timeout (timeoutMs : Z) : Z := wrap64 (timeoutMs * millisecond).

Definition WaitHealthy (baseURL : string) (timeoutMs : Z) : io W unit :=
  now ← ask h_now;
  poll_health (poll_fuel (startup_timeout timeoutMs)) baseURL timeoutMs
    (now + startup_timeout timeoutMs) (100 * millisecond).

Definition StopContainer (containerID : string) : io W unit :=
  _ ← wrapped "container stop" (call (CStop containerID) (h_ContainerStop containerID 10));
  wrapped "container remove" (call (CRemove containerID) (h_ContainerRemove containerID)).

Definition CreateBenchmarkNetwork : io W (string * string) :=
  now ← ask h_now;
  let name := "dl-benchmark-" +:+ pretty (now / millisecond) in
  id ← wrapped "network create" (call (CNetCreate name) (h_NetworkCreate name));
  mret (id, name).

Definition RemoveNetwork (networkID : string) : io W unit :=
  wrapped "network remove" (call (CNetRemove networkID) (h_NetworkRemove networkID)).

Definition ConnectSelfToNetwork (networkID : string) : io W unit :=
  hostname ← ask (h_getenv "HOSTNAME");
  if is_empty hostname then fail (Msg "HOSTNAME env var not set")
  else wrapped ("network connect self (" +:+ hostname +:+ ")")
         (call (CNetConnect networkID hostname) (h_NetworkConnect networkID hostname)).

Definition RunContainerOnNetwork (tag : string) (containerPort : Z) (networkName containerName : string)
    : io W string :=
  _ ← ignore (call (CRemove containerName) (h_ContainerRemove containerName));
  let spec := mkContainerSpec tag (portSpec containerPort) false (Some (networkName, containerName)) containerName in
  id ← wrapped "container create" (call (CCreate spec) (h_ContainerCreate spec));
  _ ← wrapped "container start" (call (CStart id) (h_ContainerStart id));
  mret id.

End docker.
