(* ===== verification/Reporter.v ===== *)
(** * benchmark/reporter.go: the JSON report, the Markdown tables, the summary

    The texts are functions of the report. [WriteJSON] and [WriteMarkdown]
    write them and [PrintSummary] prints one at the end of a run. *)

From S2P Require Import Prelude Utf8 Json GoTime LockSpec Http Validate Scenarios Float64 Format Measure Docker.
From stdpp Require Import options.
Local Open Scope Z_scope.

(** ** types.go *)

Record SolutionResult := mkSolutionResult { srName : string; srScenarios : list ScenarioResult }.
Record Report := mkReport { Timestamp : string; Solutions : list SolutionResult }.

(** ** The JSON report *)

Definition json_int (n : Z) : json := JNum (pretty n).

(** A slice that was never appended to is nil, which is written as null. *)
Definition json_slice (l : list json) : json := match l with [] => JNull | _ => JArr l end.

(** The error of [json.Marshal] on a number that is not finite is [None]. *)
Definition scenario_json (sc : ScenarioResult) : option json :=
  rps ← json_float sc.(RPS);
  p50 ← json_float sc.(P50Ms);
  p95 ← json_float sc.(P95Ms);
  p99 ← json_float sc.(P99Ms);
  mx ← json_float sc.(MaxMs);
  er ← json_float sc.(ErrorRate);
  cr ← json_float sc.(ConflictRate);
  Some (JObj [("scenarioId", JStr sc.(ScenarioID)); ("requestsTotal", json_int sc.(RequestsTotal));
              ("durationMs", json_int sc.(DurationMs)); ("rps", JNum rps);
              ("p50Ms", JNum p50); ("p95Ms", JNum p95); ("p99Ms", JNum p99); ("maxMs", JNum mx);
              ("errorRate", JNum er); ("conflictRate", JNum cr); ("leakedLocks", json_int sc.(LeakedLocks))]).

Definition solution_json (sol : SolutionResult) : option json :=
  scs ← mapM scenario_json sol.(srScenarios);
  Some (JObj [("name", JStr sol.(srName)); ("scenarios", json_slice scs)]).

Definition report_json (report : Report) : option json :=
  sols ← mapM solution_json report.(Solutions);
  Some (JObj [("timestamp", JStr report.(Timestamp)); ("solutions", json_slice sols)]).

(** [json.MarshalIndent(v, "", "  ")] *)
Definition line_start (d : nat) : string := newline +:+ srepeat d "  ".

Fixpoint print_indent (d : nat) (v : json) : string :=
  match v with
  | JArr [] => "[]"
  | JArr l =>
      "[" +:+ line_start (S d) +:+ String.concat ("," +:+ line_start (S d)) (print_indent (S d) <$> l) +:+
      line_start d +:+ "]"
  | JObj [] => "{}"
  | JObj ms =>
      "{" +:+ line_start (S d) +:+
      String.concat ("," +:+ line_start (S d))
        ((fun kv => quote kv.1 +:+ ": " +:+ print_indent (S d) kv.2) <$> ms) +:+
      line_start d +:+ "}"
  | v => print v
  end.

(** ** The Markdown report *)

(** The scenario IDs of the first solution. *)
Definition scenario_ids (report : Report) : list string :=
  match report.(Solutions) with [] => [] | sol :: _ => ScenarioID <$> sol.(srScenarios) end.

(** [index]: solution name, then scenario ID. A later entry replaces an
    earlier one. *)
Definition index_scenarios (scs : list ScenarioResult) : gmap string ScenarioResult :=
  fold_left (fun m sc => <[sc.(ScenarioID) := sc]> m) scs ∅.
Definition build_index (sols : list SolutionResult) : gmap string (gmap string ScenarioResult) :=
  fold_left (fun m sol => <[sol.(srName) := index_scenarios sol.(srScenarios)]> m) sols ∅.
Definition find_result (index : gmap string (gmap string ScenarioResult)) (name id : string)
    : option ScenarioResult := index !! name ≫= (.!! id).

Definition percent (rate : spec_float) : spec_float := fmul rate (of_int 100).

(** A cell of the comparison table. *)
Definition result_cell (sc : option ScenarioResult) : string :=
  match sc with
  | None => " — |"
  | Some sc => " " +:+ fixed 0 sc.(RPS) +:+ " RPS / " +:+ fixed 1 sc.(P99Ms) +:+ " ms |"
  end.

Definition header_row (sols : list SolutionResult) : string :=
  "| Scenario |" +:+ cat ((fun sol => " " +:+ sol.(srName) +:+ " |") <$> sols).
Definition separator_row (sols : list SolutionResult) : string :=
  "|---|" +:+ cat ((fun _ => "---|") <$> sols).
Definition data_row (sols : list SolutionResult) (id : string) : string :=
  "| " +:+ id +:+ " |" +:+
  cat ((fun sol => result_cell (find_result (build_index sols) sol.(srName) id)) <$> sols).

Definition details_header : string :=
  "| Scenario | Requests | RPS | P50 ms | P95 ms | P99 ms | Max ms | Error% | Conflict% | Leaked |".
Definition details_separator : string := "|---|---|---|---|---|---|---|---|---|---|".
Definition details_row (sc : ScenarioResult) : string :=
  "| " +:+ sc.(ScenarioID) +:+ " | " +:+ pretty sc.(RequestsTotal) +:+ " | " +:+ fixed 0 sc.(RPS) +:+
  " | " +:+ fixed 1 sc.(P50Ms) +:+ " | " +:+ fixed 1 sc.(P95Ms) +:+ " | " +:+ fixed 1 sc.(P99Ms) +:+
  " | " +:+ fixed 1 sc.(MaxMs) +:+ " | " +:+ fixed 2 (percent sc.(ErrorRate)) +:+ "% | " +:+
  fixed 2 (percent sc.(ConflictRate)) +:+ "% | " +:+ pretty sc.(LeakedLocks) +:+ " |".

(** The lines of the report, each ended by a newline. *)
Definition solution_lines (sol : SolutionResult) : list string :=
  ["### " +:+ sol.(srName); ""; details_header; details_separator] ++
  (details_row <$> sol.(srScenarios)) ++ [""].

Definition markdown_lines (report : Report) : list string :=
  ["# Benchmark Report"; ""; "**Timestamp:** " +:+ report.(Timestamp); ""] ++
  match report.(Solutions) with
  | [] => ["No solutions benchmarked."]
  | sols =>
      ["## Results (RPS / P99 ms)"; ""; header_row sols; separator_row sols] ++
      (data_row sols <$> scenario_ids report) ++
      [""; "## Detailed Metrics"; ""] ++ (sols ≫= solution_lines)
  end.

Definition unlines (ls : list string) : string := cat ((fun l => l +:+ newline) <$> ls).

Definition markdown (report : Report) : string := unlines (markdown_lines report).

(** ** The summary *)

Definition scenarioW : nat := 18.
Definition colW : nat := 22.

(** [name[:colW-2]] if longer, counted in bytes *)
Definition short_name (name : string) : string :=
  if (colW - 2 <? String.length name)%nat then String.substring 0 (colW - 2) name else name.

Definition summary_column (s : string) : string := "  " +:+ pad_right (colW - 2) s.

Definition summary_cell (sc : option ScenarioResult) : string :=
  match sc with
  | None => "—"
  | Some sc => fixed 0 sc.(RPS) +:+ " rps / " +:+ fixed 1 sc.(P99Ms) +:+ "ms"
  end.

Definition summary_row (sols : list SolutionResult) (id : string) : string :=
  pad_right scenarioW id +:+
  cat ((fun sol => summary_column (summary_cell (find_result (build_index sols) sol.(srName) id))) <$> sols).

Definition summary (report : Report) : string :=
  match report.(Solutions) with
  | [] => "No results to display." +:+ newline
  | sols =>
      unlines
        (["";
          pad_right scenarioW "Scenario" +:+ cat ((fun sol => summary_column (short_name sol.(srName))) <$> sols);
          pad_right scenarioW (srepeat scenarioW "-") +:+
          cat ((fun _ => summary_column (srepeat (colW - 2) "-")) <$> sols)] ++
         (summary_row sols <$> scenario_ids report) ++ [""])
  end.

(** ** Writing *)

Section writing.
Context {W : Type} `{!Host W}.

Definition WriteJSON (report : Report) (path : string) : io W unit :=
  match report_json report with
  | None => fail (Wrapped "marshal report" BadJson)
  | Some v => let data := print_indent 0 v in call (CWrite path data) (h_WriteFile path data)
  end.

Definition WriteMarkdown (report : Report) (path : string) : io W unit :=
  let data := markdown report in call (CWrite path data) (h_WriteFile path data).

Definition PrintSummary (report : Report) : io W unit :=
  call (CPrint (summary report)) (fun w => (Ok (), w)).

End writing.
