(* ===== verification/ReporterFacts.v ===== *)
(** * Facts about the reports: the JSON text is read back, the tables are regular *)

From S2P Require Import Prelude Utf8 Json JsonFacts GoTime LockSpec Http Validate Scenarios.
From S2P Require Import Float64 Float64Facts Format FormatFacts Measure Docker Reporter.
From stdpp Require Import options.
Local Open Scope N_scope.

(** ** Indented JSON *)

Lemma skip_ws_indent k s : skip_ws (srepeat k "  " +:+ s) = skip_ws s.
Proof. induction k as [|k IH]; [done|]. cbn [srepeat]. by rewrite string_app_assoc. Qed.

Lemma skip_ws_line k s : skip_ws (line_start k +:+ s) = skip_ws s.
Proof. unfold line_start. rewrite string_app_assoc. apply (skip_ws_indent k s). Qed.

Lemma num_stop_line k s : num_stop (line_start k +:+ s) = true.
Proof. done. Qed.

Lemma parse_value_ws n d s s' : skip_ws s = skip_ws s' -> parse_value n d s = parse_value n d s'.
Proof. intros E. destruct n; [done|]. cbn [parse_value]. by rewrite E. Qed.

Lemma parse_members_ws n d s s' : skip_ws s = skip_ws s' -> parse_members n d s = parse_members n d s'.
Proof. intros E. destruct n; [done|]. cbn [parse_members]. by rewrite E. Qed.

Lemma parse_elements_ws n d s s' : skip_ws s = skip_ws s' -> parse_elements n d s = parse_elements n d s'.
Proof. intros E. destruct n; [done|]. cbn [parse_elements]. by rewrite (parse_value_ws _ _ s s'). Qed.

Definition member_indent (k : nat) (kv : string * json) : string :=
  quote kv.1 +:+ ": " +:+ print_indent k kv.2.

Definition reads_indent (v : json) : Prop :=
  forall k n d rest, printable d v -> num_stop rest = true ->
    (2 * String.length (print_indent k v +:+ rest) < n)%nat ->
    parse_value n d (print_indent k v +:+ rest) = POk v rest.

Lemma skip_ws_close k c s : is_space c = false -> skip_ws (line_start k +:+ String c s) = String c s.
Proof. intros Hc. rewrite skip_ws_line. by apply skip_ws_cons. Qed.

Lemma parse_member_indent k n d kv tail :
  reads_indent kv.2 -> utf8 kv.1 -> printable d kv.2 -> num_stop tail = true ->
  (2 * String.length (member_indent k kv +:+ tail) < S n)%nat ->
  parse_members (S n) d (member_indent k kv +:+ tail) =
  match eat "," (skip_ws tail), eat "}" (skip_ws tail) with
  | Some r3, _ => pmap (cons kv) (parse_members n d r3)
  | None, Some r3 => POk [kv] r3
  | None, None => PErr
  end.
Proof.
  destruct kv as [key v]; cbn [fst snd]. intros Hv Hk Hp Hs Hn.
  unfold member_indent in *; cbn [fst snd] in *.
  rewrite !string_app_assoc, quote_eq in *.
  cbn [parse_members]. rewrite skip_ws_cons by done.
  rewrite eat_cons, parse_string_quote by done. cbn [pbind].
  rewrite (string_app_cons ":"), skip_ws_cons, eat_cons by done.
  rewrite (parse_value_ws n d _ (print_indent k v +:+ tail)) by done.
  rewrite Hv; [done|done|done|].
  cbn [String.length] in Hn. rewrite length_sapp in Hn.
  change (": " +:+ print_indent k v +:+ tail) with (String ":" (String " " (print_indent k v +:+ tail))) in Hn.
  cbn [String.length] in Hn. lia.
Qed.

Lemma parse_members_indent ms : forall k n d rest,
  ms <> [] -> Forall (fun kv => reads_indent kv.2) ms ->
  Forall (fun kv => utf8 kv.1 /\ printable d kv.2) ms ->
  let text := String.concat ("," +:+ line_start (S k)) (member_indent (S k) <$> ms) in
  (2 * String.length (text +:+ line_start k +:+ "}" +:+ rest) < n)%nat ->
  parse_members n d (text +:+ line_start k +:+ "}" +:+ rest) = POk ms rest.
Proof.
  induction ms as [|kv ms IH]; intros k n d rest Hne Hr Hp text Hn; [done|]. subst text.
  apply Forall_cons in Hr as [Hr Hrs]. apply Forall_cons in Hp as [[Hk Hp] Hps].
  destruct n as [|n]; [lia|]. destruct ms as [|kv' ms].
  - cbn [fmap list_fmap String.concat] in *. rewrite parse_member_indent by done.
    rewrite (string_app_cons "}"), skip_ws_close by done. by rewrite string_app_nil_l.
  - rewrite !fmap_cons, concat_cons, !string_app_assoc in *.
    rewrite parse_member_indent by done.
    rewrite (string_app_cons ","), string_app_nil_l in *.
    rewrite skip_ws_cons, eat_cons by done.
    rewrite (parse_members_ws n d _ _ (skip_ws_line _ _)).
    rewrite <- !fmap_cons in *. rewrite IH; [done..|].
    rewrite length_sapp in Hn. cbn [String.length] in Hn. rewrite length_sapp in Hn. lia.
Qed.

Lemma parse_elements_indent l : forall k n d rest,
  l <> [] -> Forall reads_indent l -> Forall (printable d) l ->
  let text := String.concat ("," +:+ line_start (S k)) (print_indent (S k) <$> l) in
  (S (2 * String.length (text +:+ line_start k +:+ "]" +:+ rest)) < n)%nat ->
  parse_elements n d (text +:+ line_start k +:+ "]" +:+ rest) = POk l rest.
Proof.
  induction l as [|v l IH]; intros k n d rest Hne Hr Hp text Hn; [done|]. subst text.
  apply Forall_cons in Hr as [Hr Hrs]. apply Forall_cons in Hp as [Hp Hps].
  destruct n as [|n]; [lia|]. destruct l as [|v' l].
  - cbn [fmap list_fmap String.concat] in *. cbn [parse_elements]. rewrite Hr by (done || lia). cbn [pbind].
    rewrite (string_app_cons "]"), skip_ws_close by done. by rewrite string_app_nil_l.
  - rewrite !fmap_cons, concat_cons, !string_app_assoc in *.
    cbn [parse_elements]. rewrite Hr by (done || lia). cbn [pbind].
    rewrite (string_app_cons ","), string_app_nil_l in *.
    rewrite skip_ws_cons, eat_cons by done.
    rewrite (parse_elements_ws n d _ _ (skip_ws_line _ _)).
    rewrite <- !fmap_cons in *. rewrite IH; [done..|].
    rewrite length_sapp in Hn. cbn [String.length] in Hn. rewrite length_sapp in Hn. lia.
Qed.

Lemma print_indent_head k d v : printable d v ->
  exists c s, print_indent k v = String c s /\ is_space c = false /\ c <> "]"%char /\ c <> "}"%char.
Proof.
  intros Hp. pose proof (print_head d v Hp) as Hh.
  destruct v as [| | | |[|v l]|[|kv ms]]; try exact Hh; eexists _, _; (split; [done|]); done.
Qed.

Lemma reads_indent_all v : reads_indent v.
Proof.
  induction v as [|b|l|s|l IH|ms IH] using json_ind'; intros k n d rest Hp Hs Hn.
  1-4: by apply reads_all.
  - destruct l as [|v l]; [by apply (reads_all (JArr []))|].
    destruct n as [|n]; [lia|]. inversion Hp as [| | | |? ? Hd Hall|]; subst.
    cbn [print_indent] in *. rewrite !string_app_assoc, string_app_cons, string_app_nil_l in *. cbn [parse_value].
    rewrite skip_ws_cons by done. cbv iota.
    change (Ascii.eqb "[" "{") with false. change (Ascii.eqb "[" "[") with true. cbv iota.
    destruct (max_depth <? d + 1) eqn:?; [lia|]. rewrite skip_ws_line.
    destruct (eat "]" (skip_ws _)) eqn:E.
    + exfalso. revert E. rewrite fmap_cons. pose proof Hall as [Hv _]%Forall_cons.
      destruct (print_indent_head (S k) (d + 1) v Hv) as (c & t & Et & Hc & H1 & H2).
      destruct l; rewrite ?fmap_cons, ?concat_cons; cbn [fmap list_fmap String.concat];
        rewrite Et, ?string_app_assoc, string_app_cons, skip_ws_cons by done; unfold eat;
        destruct (Ascii.eqb_spec c "]"); done.
    + rewrite (parse_elements_ws _ _ _ _ (skip_ws_line _ _)), (parse_elements_indent (v :: l)); [done..|].
      cbn [String.length] in Hn. rewrite length_sapp in Hn. cbn [String.length] in Hn. lia.
  - destruct ms as [|kv ms]; [by apply (reads_all (JObj []))|].
    destruct n as [|n]; [lia|]. inversion Hp as [| | | | |? ? Hd Hall]; subst.
    cbn [print_indent] in *. rewrite !string_app_assoc, string_app_cons, string_app_nil_l in *. cbn [parse_value].
    rewrite skip_ws_cons by done. cbv iota. change (Ascii.eqb "{" "{") with true. cbv iota.
    destruct (max_depth <? d + 1) eqn:?; [lia|]. rewrite skip_ws_line.
    change ((fun kv : string * json => quote kv.1 +:+ ": " +:+ print_indent (S k) kv.2)) with (member_indent (S k)) in *.
    destruct (eat "}" (skip_ws _)) eqn:E.
    + exfalso. revert E. rewrite fmap_cons.
      destruct ms; rewrite ?fmap_cons, ?concat_cons; cbn [fmap list_fmap String.concat]; unfold member_indent at 1;
        rewrite ?string_app_assoc, quote_eq; done.
    + rewrite (parse_members_ws _ _ _ _ (skip_ws_line _ _)), (parse_members_indent (kv :: ms)); [done..|].
      cbn [String.length] in Hn. rewrite length_sapp in Hn. cbn [String.length] in Hn. lia.
Qed.

Lemma parse_print_indent v : printable 0 v -> parse (print_indent 0 v) = POk v "".
Proof.
  intros Hp. unfold parse. rewrite <- (string_app_nil_r (print_indent 0 v)) at 2. apply reads_indent_all; auto.
  rewrite string_app_nil_r. lia.
Qed.

Local Open Scope Z_scope.

(** ** Reading the report back *)

(** The value of a member, and the values of the types of the report. *)
Fixpoint assoc (k : string) (ms : list (string * json)) : option json :=
  match ms with [] => None | (k', v) :: ms => if String.eqb k' k then Some v else assoc k ms end.
Definition member_of (k : string) (v : json) : option json :=
  match v with JObj ms => assoc k ms | _ => None end.
Definition read_string (v : json) : option string := match v with JStr s => Some s | _ => None end.
Definition read_int (v : json) : option Z := match v with JNum lit => Atoi lit | _ => None end.
Definition read_float (v : json) : option spec_float := match v with JNum lit => ParseFloat lit | _ => None end.
Definition read_slice {A} (f : json -> option A) (v : json) : option (list A) :=
  match v with JNull => Some [] | JArr l => mapM f l | _ => None end.

Definition read_scenario (v : json) : option ScenarioResult :=
  id ← member_of "scenarioId" v ≫= read_string;
  total ← member_of "requestsTotal" v ≫= read_int;
  dur ← member_of "durationMs" v ≫= read_int;
  rps ← member_of "rps" v ≫= read_float;
  p50 ← member_of "p50Ms" v ≫= read_float;
  p95 ← member_of "p95Ms" v ≫= read_float;
  p99 ← member_of "p99Ms" v ≫= read_float;
  mx ← member_of "maxMs" v ≫= read_float;
  er ← member_of "errorRate" v ≫= read_float;
  cr ← member_of "conflictRate" v ≫= read_float;
  leaked ← member_of "leakedLocks" v ≫= read_int;
  Some (mkScenarioResult id total dur rps p50 p95 p99 mx er cr leaked).

Definition read_solution (v : json) : option SolutionResult :=
  name ← member_of "name" v ≫= read_string;
  scs ← member_of "scenarios" v ≫= read_slice read_scenario;
  Some (mkSolutionResult name scs).

Definition read_report (v : json) : option Report :=
  ts ← member_of "timestamp" v ≫= read_string;
  sols ← member_of "solutions" v ≫= read_slice read_solution;
  Some (mkReport ts sols).

(** The report of a file. *)
Definition load_report (data : string) : option Report :=
  match parse data with POk v r => if String.eqb (skip_ws r) "" then read_report v else None | _ => None end.

(** What can be written: numbers as scenarios produce them, names that are
    valid UTF-8, integers that fit. *)
Record writable_result (sc : ScenarioResult) : Prop := mkWritable {
  wr_id : utf8 (ScenarioID sc);
  wr_ints : Forall (fun n => - 2 ^ 63 <= n < 2 ^ 63) [RequestsTotal sc; DurationMs sc; LeakedLocks sc];
  wr_floats : Forall (fun f => exists V, quantity 200 f V)
                [RPS sc; P50Ms sc; P95Ms sc; P99Ms sc; MaxMs sc; ErrorRate sc; ConflictRate sc]
}.

Definition writable (report : Report) : Prop :=
  utf8 (Timestamp report) /\
  Forall (fun sol => utf8 (srName sol) /\ Forall writable_result (srScenarios sol)) (Solutions report).

(** [v] is written for [x], and read back as [x]. *)
Definition conveys {A} (d : N) (read : json -> option A) (x : A) (v : json) : Prop :=
  printable d v /\ read v = Some x.

Lemma conveys_int d n : - 2 ^ 63 <= n < 2 ^ 63 -> conveys d read_int n (json_int n).
Proof. intros Hn%atoi_pretty. split; [constructor|]; apply Hn. Qed.

Lemma json_float_conveys f :
  (exists V, quantity 200 f V) -> exists lit, json_float f = Some lit /\ forall d, conveys d read_float f (JNum lit).
Proof.
  intros [V Q]. destruct (json_float_reads 200 f V ltac:(lia) Q) as (lit & E & Hn & Hp).
  exists lit. split; [done|]. intros d. split; [by constructor|done].
Qed.

(** The members of an object with constant names. *)
Ltac printable_members :=
  repeat (apply Forall_cons; split; [cbn [fst snd]; split; [by apply utf8_ascii|solve [eauto with json]]|]);
  constructor.

Lemma scenario_conveys sc (d : N) :
  (d + 1 <= max_depth)%N -> writable_result sc ->
  exists v, scenario_json sc = Some v /\ conveys d read_scenario sc v.
Proof.
  intros Hd [Hid Hi Hf]. rewrite !Forall_cons in Hi. rewrite !Forall_cons in Hf.
  destruct Hi as ([I1 N1]%(conveys_int (d + 1)) & [I2 N2]%(conveys_int (d + 1)) & [I3 N3]%(conveys_int (d + 1)) & _).
  destruct Hf as (F1 & F2 & F3 & F4 & F5 & F6 & F7 & _).
  destruct (json_float_conveys _ F1) as (l1 & E1 & C1), (json_float_conveys _ F2) as (l2 & E2 & C2),
    (json_float_conveys _ F3) as (l3 & E3 & C3), (json_float_conveys _ F4) as (l4 & E4 & C4),
    (json_float_conveys _ F5) as (l5 & E5 & C5), (json_float_conveys _ F6) as (l6 & E6 & C6),
    (json_float_conveys _ F7) as (l7 & E7 & C7).
  destruct (C1 (d + 1)%N) as [P1 R1], (C2 (d + 1)%N) as [P2 R2], (C3 (d + 1)%N) as [P3 R3],
    (C4 (d + 1)%N) as [P4 R4], (C5 (d + 1)%N) as [P5 R5], (C6 (d + 1)%N) as [P6 R6], (C7 (d + 1)%N) as [P7 R7].
  unfold scenario_json. rewrite E1, E2, E3, E4, E5, E6, E7. eexists. split; [done|]. split.
  - constructor; [done|]. printable_members.
  - cbn [read_float read_int json_int] in *.
    unfold read_scenario, member_of. cbn -[Atoi ParseFloat read_float read_int].
    unfold read_float, read_int, json_int. rewrite N1, N2, N3, R1, R2, R3, R4, R5, R6, R7. cbn. by destruct sc.
Qed.

Lemma slice_conveys {A} (d : N) (write : A -> option json) (read : json -> option A) (P : A -> Prop) l :
  (forall x, P x -> exists v, write x = Some v /\ conveys (d + 1) read x v) -> (d + 1 <= max_depth)%N -> Forall P l ->
  exists vs, mapM write l = Some vs /\ conveys d (read_slice read) l (json_slice vs).
Proof.
  intros Hw Hd Hl.
  assert (exists vs, mapM write l = Some vs /\ Forall (printable (d + 1)) vs /\ mapM read vs = Some l) as (vs & E & Hp & Hr).
  { induction Hl as [|x l Hx _ IH]; [by exists []|]. destruct IH as (vs & E & Hp & Hr).
    destruct (Hw x Hx) as (v & Ev & Hv & Rv). exists (v :: vs). cbn. rewrite Ev, E. cbn.
    split_and!; [done|by constructor|]. rewrite Rv, Hr. done. }
  exists vs. split; [done|]. destruct vs as [|v vs]; cbn [json_slice].
  - split; [constructor|]. cbn in Hr. by injection Hr as <-.
  - split; [by constructor|done].
Qed.

Lemma solution_conveys sol (d : N) :
  (d + 3 <= max_depth)%N -> utf8 (srName sol) -> Forall writable_result (srScenarios sol) ->
  exists v, solution_json sol = Some v /\ conveys d read_solution sol v.
Proof.
  intros Hd Hn Hs.
  destruct (slice_conveys (d + 1) scenario_json read_scenario writable_result (srScenarios sol))
    as (vs & E & Hp & Hr); [intros sc Hsc; apply scenario_conveys; [lia|done]|lia|done|].
  unfold solution_json. rewrite E. eexists. split; [done|]. split.
  - constructor; [lia|]. printable_members.
  - unfold read_solution. cbn -[read_slice]. rewrite Hr. cbn. by destruct sol.
Qed.

Lemma report_conveys report :
  writable report -> exists v, report_json report = Some v /\ conveys 0 read_report report v.
Proof.
  intros [Ht Hs].
  destruct (slice_conveys 1 solution_json read_solution
    (fun sol => utf8 (srName sol) /\ Forall writable_result (srScenarios sol)) (Solutions report))
    as (vs & E & Hp & Hr); [intros sol []; by apply solution_conveys|done|done|].
  unfold report_json. rewrite E. eexists. split; [done|]. split.
  - constructor; [done|]. printable_members.
  - unfold read_report. cbn -[read_slice]. rewrite Hr. cbn. by destruct report.
Qed.

Lemma load_printed report v : conveys 0 read_report report v -> load_report (print_indent 0 v) = Some report.
Proof. intros [Hp Hr]. unfold load_report. by rewrite parse_print_indent. Qed.

(** ** The index of the tables *)

(** The result of a scenario in a solution. *)
Definition lookup_result (sol : SolutionResult) (id : string) : option ScenarioResult :=
  snd <$> list_find (fun sc => ScenarioID sc = id) (srScenarios sol).

Lemma index_scenarios_snoc scs sc :
  index_scenarios (scs ++ [sc]) = <[ScenarioID sc := sc]> (index_scenarios scs).
Proof. unfold index_scenarios. by rewrite fold_left_app. Qed.

Lemma build_index_snoc sols sol :
  build_index (sols ++ [sol]) = <[srName sol := index_scenarios (srScenarios sol)]> (build_index sols).
Proof. unfold build_index. by rewrite fold_left_app. Qed.

(** The last scenario with an ID, the last solution with a name. *)
Lemma index_scenarios_None scs id :
  Forall (fun sc => ScenarioID sc <> id) scs -> index_scenarios scs !! id = None.
Proof.
  induction scs as [|sc scs IH] using rev_ind; intros H; [apply lookup_empty|].
  apply Forall_app in H as [H1 H2]. rewrite Forall_singleton in H2.
  rewrite index_scenarios_snoc, lookup_insert_ne by done. auto.
Qed.

Lemma index_scenarios_last scs sc rest :
  Forall (fun x => ScenarioID x <> ScenarioID sc) rest ->
  index_scenarios (scs ++ sc :: rest) !! ScenarioID sc = Some sc.
Proof.
  induction rest as [|x rest IH] using rev_ind; intros H.
  - rewrite index_scenarios_snoc. apply lookup_insert_eq.
  - apply Forall_app in H as [H1 H2]. rewrite Forall_singleton in H2.
    rewrite app_comm_cons, app_assoc, index_scenarios_snoc, lookup_insert_ne by done. auto.
Qed.

Lemma build_index_last sols sol rest :
  Forall (fun x => srName x <> srName sol) rest ->
  build_index (sols ++ sol :: rest) !! srName sol = Some (index_scenarios (srScenarios sol)).
Proof.
  induction rest as [|x rest IH] using rev_ind; intros H.
  - rewrite build_index_snoc. apply lookup_insert_eq.
  - apply Forall_app in H as [H1 H2]. rewrite Forall_singleton in H2.
    rewrite app_comm_cons, app_assoc, build_index_snoc, lookup_insert_ne by done. auto.
Qed.

(** The parts of a list without duplicates around an element. *)
Lemma NoDup_fmap_split {A} (f : A -> string) l x r :
  NoDup (f <$> l ++ x :: r) -> Forall (fun y => f y <> f x) l /\ Forall (fun y => f y <> f x) r.
Proof.
  rewrite fmap_app, fmap_cons. intros (_ & H1 & [H2 _]%NoDup_cons)%NoDup_app.
  split; apply Forall_forall; intros y Hy E.
  - apply (H1 (f y)); [by apply list_elem_of_fmap_2|]. rewrite E. set_solver.
  - apply H2. rewrite <- E. by apply list_elem_of_fmap_2.
Qed.

Lemma index_scenarios_lookup sol id :
  NoDup (ScenarioID <$> srScenarios sol) -> index_scenarios (srScenarios sol) !! id = lookup_result sol id.
Proof.
  intros Hnd. unfold lookup_result.
  destruct (list_find _ _) as [[i sc]|] eqn:E; cbn.
  - apply list_find_Some in E as (Hi & <- & _).
    destruct (list_elem_of_split _ _ (list_elem_of_lookup_2 _ _ _ Hi)) as (l & r & Es). rewrite Es in *.
    apply index_scenarios_last. by eapply NoDup_fmap_split.
  - apply list_find_None in E. by apply index_scenarios_None.
Qed.

Lemma find_result_lookup sols sol id :
  NoDup (srName <$> sols) -> sol ∈ sols -> NoDup (ScenarioID <$> srScenarios sol) ->
  find_result (build_index sols) (srName sol) id = lookup_result sol id.
Proof.
  intros Hn (l & r & ->)%list_elem_of_split Hs. unfold find_result.
  rewrite build_index_last by (by eapply NoDup_fmap_split). cbn. by apply index_scenarios_lookup.
Qed.

(** ** Lines and columns *)

Fixpoint count (c : ascii) (s : string) : nat :=
  match s with "" => 0 | String a s => (if Ascii.eqb a c then 1 else 0) + count c s end.

Lemma count_app c s t : count c (s +:+ t) = (count c s + count c t)%nat.
Proof. induction s as [|a s IH]; [done|]. rewrite string_app_cons. cbn. rewrite IH. lia. Qed.

Lemma count_cat c l : count c (cat l) = sum_list (count c <$> l).
Proof. induction l as [|s l IH]; [done|]. cbn [fmap list_fmap cat foldr sum_list]. rewrite count_app. cbn in IH. unfold cat in IH. by rewrite IH. Qed.

Definition nl : ascii := "010"%char.
Definition pipe : ascii := "|"%char.
(** Text that does not disturb a table. *)
Definition plain (s : string) : Prop := count pipe s = 0%nat /\ count nl s = 0%nat.

(** The lines of a text. *)
Fixpoint lines (s : string) : list string :=
  match s with
  | "" => []
  | String a s =>
      if Ascii.eqb a nl then "" :: lines s
      else match lines s with [] => [str1 a] | l :: ls => String a l :: ls end
  end.

Lemma lines_cons l rest : count nl l = 0%nat -> lines (l +:+ newline +:+ rest) = l :: lines rest.
Proof.
  induction l as [|a l IH]; intros H; [done|]. cbn in H. rewrite string_app_cons. cbn [lines].
  destruct (Ascii.eqb a nl); [done|]. by rewrite IH.
Qed.

Lemma lines_unlines ls : Forall (fun l => count nl l = 0%nat) ls -> lines (unlines ls) = ls.
Proof.
  induction 1 as [|l ls Hl _ IH]; [done|]. unfold unlines. rewrite fmap_cons. cbn [cat foldr].
  rewrite string_app_assoc, lines_cons by done. f_equal. exact IH.
Qed.

(** Digits are plain. *)
Lemma digit_plain d c : 0 <= d < 10 -> c = pipe \/ c = nl -> Ascii.eqb (digit d) c = false.
Proof.
  intros Hd Hc. destruct (Ascii.eqb_spec (digit d) c) as [E|]; [|done].
  apply (f_equal byte) in E. rewrite byte_digit in E by lia.
  destruct Hc as [->| ->]; [change (byte pipe) with 124%N in E|change (byte nl) with 10%N in E]; lia.
Qed.

Lemma count_padded c p n : c = pipe \/ c = nl -> count c (padded p n) = 0%nat.
Proof.
  intros Hc. induction p as [|p IH] in n |- *; [done|]. cbn [padded]. rewrite count_app, IH. cbn.
  rewrite digit_plain; [done|apply Z.mod_pos_bound; lia|done].
Qed.

Lemma count_pretty c n : c = pipe \/ c = nl -> count c (pretty (n : Z)) = 0%nat.
Proof.
  intros Hc.
  assert (forall x, 0 < x -> count c (pretty x) = 0%nat) as Hpos.
  { intros x Hx. destruct (pow10_bracket x Hx) as [p Hp]. rewrite (pretty_padded p x Hp). by apply count_padded. }
  destruct n as [|p|p]; [by destruct Hc as [->| ->]|by apply Hpos|].
  change (pretty (Z.neg p)) with (String "-" (pretty (Z.pos p))). cbn [count]. rewrite Hpos by done.
  by destruct Hc as [->| ->].
Qed.

Lemma count_fixed c p f : c = pipe \/ c = nl -> count c (fixed p f) = 0%nat.
Proof.
  intros Hc. assert (forall s : string, (s = "" \/ s = "-" \/ s = "NaN" \/ s = "-Inf" \/ s = "+Inf" \/ s = ".") -> count c s = 0%nat) as Hs.
  { intros s H. destruct Hc as [->| ->]; decompose [or] H; by subst. }
  destruct f as [s|s| |s m e]; unfold fixed; [|destruct s; apply Hs; tauto|apply Hs; tauto|];
    rewrite !count_app, count_pretty by done; (rewrite Hs by (destruct s; tauto));
    destruct p as [|p]; (try by rewrite Hs by tauto); rewrite count_app, count_padded, Hs by tauto; done.
Qed.

(** ** Printed decimals *)

(** The digits of a decimal number and how many of them are decimals. *)
Definition read_fixed (s : string) : option (Z * nat) :=
  let '(i, r) := digits s in
  match r with
  | "" => n ← atoi_digits i 0; Some (n, 0%nat)
  | _ =>
      r ← eat "." r;
      let '(fr, r) := digits r in
      if String.eqb r "" then n ← atoi_digits (i +:+ fr) 0; Some (n, String.length fr) else None
  end.

(** The value of a non-negative finite number. *)
Definition value_ratio (f : spec_float) : Z * Z :=
  match f with S754_finite _ m e => ratio m e | _ => (0, 1) end.

Lemma ratio_pos m e : 0 < (ratio m e).1 /\ 0 < (ratio m e).2.
Proof.
  unfold ratio. destruct (Z.leb_spec 0 e); cbn [fst snd].
  - pose proof (pow2_pos e). lia.
  - pose proof (pow2_pos (- e)). lia.
Qed.

Lemma fixed_units_value p f :
  is_finite f = true -> fixed_units p f = rne ((value_ratio f).1 * 10 ^ Z.of_nat p) (value_ratio f).2.
Proof.
  destruct f as [s| | |s m e]; intros H; try done; cbn [fixed_units value_ratio].
  by destruct (ratio m e).
Qed.

Lemma value_ratio_pos f : 0 <= (value_ratio f).1 /\ 0 < (value_ratio f).2.
Proof. destruct f as [| | |s m e]; cbn; try lia. pose proof (ratio_pos m e). lia. Qed.

Lemma fixed_read p f :
  is_finite f = true -> sign_of f = "" -> read_fixed (fixed p f) = Some (fixed_units p f, p).
Proof.
  intros Hf Hs. pose proof (value_ratio_pos f) as [HN HD].
  assert (0 <= fixed_units p f) as Hu.
  { rewrite fixed_units_value by done. apply rne_bounds with (b := (value_ratio f).1 * 10 ^ Z.of_nat p); [done|].
    pose proof (Z.pow_pos_nonneg 10 (Z.of_nat p)). nia. }
  set (u := fixed_units p f) in *. set (T := 10 ^ Z.of_nat p).
  assert (fixed p f = pretty (u / T) +:+ match p with O => "" | _ => "." +:+ padded p u end) as ->.
  { unfold fixed. fold u T. destruct f; try done; by rewrite Hs, string_app_nil_l. }
  assert (0 < T) as HT by (apply Z.pow_pos_nonneg; lia).
  assert (0 <= u / T) as Hq by (apply Z.div_pos; lia).
  destruct (pretty_nat_literal (u / T) Hq) as [Hi Ha]. pose proof (int_part_digits _ Hi) as [Hd Hne].
  unfold read_fixed. destruct p as [|p].
  - rewrite digits_all by done. cbn. rewrite Ha. cbn. subst T. by rewrite Z.div_1_r.
  - rewrite digits_all by done. rewrite string_app_cons, string_app_nil_l, eat_cons. cbn [mbind option_bind].
    rewrite (all_digits_padded (S p) u). cbn [String.eqb]. rewrite atoi_digits_app, Ha. cbn [mbind option_bind].
    assert (padded (S p) u = padded (S p) (u mod T)) as ->.
    { apply padded_mod. }
    rewrite atoi_padded by (by apply Z.mod_pos_bound). cbn [mbind option_bind]. rewrite length_padded.
    do 2 f_equal. fold T. pose proof (Z.div_mod u T ltac:(lia)). lia.
Qed.

(** [u] units of the [p]th decimal are the value of [f], correctly rounded:
    at most half a unit away, and even if exactly half a unit away. *)
Definition rounds (p : nat) (f : spec_float) (u : Z) : Prop :=
  let '(N, D) := value_ratio f in
  let distance := Z.abs (N * 10 ^ Z.of_nat p - u * D) in
  2 * distance <= D /\ (2 * distance = D -> Z.even u = true).

Lemma fixed_rounds p f : is_finite f = true -> rounds p f (fixed_units p f).
Proof.
  intros Hf. rewrite (fixed_units_value p f Hf). unfold rounds. pose proof (value_ratio_pos f) as [_ HD].
  destruct (value_ratio f) as [N D]. cbn [fst snd] in *. split; [by apply rne_close|by apply rne_even].
Qed.

Lemma value_ratio_units f V : nonneg f V -> (value_ratio f).1 * one = V * (value_ratio f).2.
Proof.
  intros [[-> ->]|(m & e & -> & _ & He & ->)]; [done|]. cbn [value_ratio]. unfold ratio, one.
  destruct (Z.leb_spec 0 e); cbn [fst snd].
  - rewrite Z.pow_add_r by (unfold unit_exp; lia). ring.
  - rewrite <- Z.mul_assoc, <- Z.pow_add_r by (unfold unit_exp; lia). do 2 f_equal. lia.
Qed.

Lemma fixed_units_mono p f g V W : nonneg f V -> nonneg g W -> V <= W -> fixed_units p f <= fixed_units p g.
Proof.
  intros Hf Hg HVW. rewrite !fixed_units_value by (by eapply nonneg_finite).
  pose proof (value_ratio_units f V Hf) as Ef. pose proof (value_ratio_units g W Hg) as Eg.
  pose proof (value_ratio_pos f) as [Pf Df]. pose proof (value_ratio_pos g) as [Pg Dg].
  destruct (value_ratio f) as [N D], (value_ratio g) as [N' D']. cbn [fst snd] in *.
  pose proof one_pos. pose proof (Z.pow_pos_nonneg 10 (Z.of_nat p) ltac:(lia) ltac:(lia)).
  apply rne_mono; [done..|].
  assert (N * D' <= N' * D); [|nia]. apply (Z.mul_le_mono_pos_r _ _ one); [done|].
  replace (N * D' * one) with (V * (D * D')) by (rewrite Z.mul_assoc, <- Ef; ring).
  replace (N' * D * one) with (W * (D * D')) by (rewrite (Z.mul_comm D D'), Z.mul_assoc, <- Eg; ring).
  apply Z.mul_le_mono_nonneg_r; nia.
Qed.

Lemma fixed_units_nonneg p f V : nonneg f V -> 0 <= fixed_units p f.
Proof.
  intros H. pose proof (nonneg_ge _ _ H).
  by apply (fixed_units_mono p fzero f 0 V); [left|..].
Qed.

Lemma nonneg_sign f V : nonneg f V -> sign_of f = "".
Proof. by intros [[-> _]|(m & e & -> & _)]. Qed.

(** The percentage of a rate between 0 and 1 is between 0 and 100. *)
Lemma percent_nonneg f V :
  quantity 200 f V -> V <= one -> exists W, nonneg (percent f) W /\ W <= 100 * one.
Proof.
  intros Q HV. pose proof one_pos as Po.
  destruct (fmul_quantity 200 64 f (of_int 100) V (100 * one)) as (W & QW & RW); [lia..|done|by apply of_int_exact|].
  exists W. split; [by eapply quantity_nonneg|].
  apply (rounded0_le (V * (100 * one)) one W 100 unit_exp); [done|lia|unfold unit_exp; lia|done|].
  change (2 ^ unit_exp) with one. nia.
Qed.

(** ** Reading a row *)

(** The texts between the vertical bars of a line. *)
Fixpoint fields (s : string) : list string :=
  match s with
  | "" => [""]
  | String a s =>
      if Ascii.eqb a pipe then "" :: fields s
      else match fields s with [] => [] | f :: fs => String a f :: fs end
  end.

Lemma fields_cons f rest : count pipe f = 0%nat -> fields (f +:+ String pipe rest) = f :: fields rest.
Proof.
  induction f as [|a f IH]; intros H; [done|]. cbn in H. rewrite string_app_cons. cbn [fields].
  destruct (Ascii.eqb a pipe); [done|]. by rewrite IH.
Qed.

(** A cell without the space before and the text [unit] after it. *)
Definition read_cell (unit s : string) : string :=
  String.substring 1 (String.length s - S (String.length unit)) s.

Lemma substring_prefix s t : String.substring 0 (String.length s) (s +:+ t) = s.
Proof. induction s as [|a s IH]; [by destruct t|]. rewrite string_app_cons. cbn. by rewrite IH. Qed.

Lemma read_cell_ok unit s : read_cell unit (String " " (s +:+ unit)) = s.
Proof.
  unfold read_cell. cbn [String.length String.substring]. rewrite length_sapp.
  replace (_ - _)%nat with (String.length s) by lia. apply substring_prefix.
Qed.

(** What a row of a detail table says; each decimal number in units of its
    last decimal. *)
Record printed := mkPrinted {
  pr_id : string; pr_requests : Z; pr_rps : Z; pr_p50 : Z; pr_p95 : Z; pr_p99 : Z; pr_max : Z;
  pr_errors : Z; pr_conflicts : Z; pr_leaked : Z
}.

Definition read_decimals (p : nat) (s : string) : option Z :=
  '(u, p') ← read_fixed s; if Nat.eqb p p' then Some u else None.

Definition read_details (line : string) : option printed :=
  match fields line with
  | [_; id; requests; rps; p50; p95; p99; mx; errors; conflicts; leaked; _] =>
      requests ← Atoi (read_cell " " requests);
      rps ← read_decimals 0 (read_cell " " rps);
      p50 ← read_decimals 1 (read_cell " " p50);
      p95 ← read_decimals 1 (read_cell " " p95);
      p99 ← read_decimals 1 (read_cell " " p99);
      mx ← read_decimals 1 (read_cell " " mx);
      errors ← read_decimals 2 (read_cell "% " errors);
      conflicts ← read_decimals 2 (read_cell "% " conflicts);
      leaked ← Atoi (read_cell " " leaked);
      Some (mkPrinted (read_cell " " id) requests rps p50 p95 p99 mx errors conflicts leaked)
  | _ => None
  end.

Lemma decimals_read p f V : nonneg f V -> read_decimals p (fixed p f) = Some (fixed_units p f).
Proof.
  intros H. unfold read_decimals. rewrite fixed_read by eauto using nonneg_finite, nonneg_sign.
  cbn. by rewrite Nat.eqb_refl.
Qed.

(** ** The shape of the tables *)

Lemma count_special c s : c = pipe \/ c = nl -> plain s -> count c s = 0%nat.
Proof. by intros [->| ->] []. Qed.

Lemma sum_const {A} (f : A -> nat) k (l : list A) :
  (forall x, x ∈ l -> f x = k) -> sum_list (f <$> l) = (k * length l)%nat.
Proof.
  induction l as [|x l IH]; intros H; cbn; [lia|].
  rewrite H by set_solver. fold (f <$> l). rewrite IH by set_solver. lia.
Qed.

Lemma count_result_cell c sc :
  c = pipe \/ c = nl -> count c (result_cell sc) = if Ascii.eqb c pipe then 1%nat else 0%nat.
Proof.
  intros Hc. destruct sc as [sc|]; cbn [result_cell]; [|by destruct Hc as [->| ->]].
  rewrite !count_app, !count_fixed by done. by destruct Hc as [->| ->].
Qed.

Lemma count_cells c {A} (cell : A -> string) (l : list A) :
  (forall x, x ∈ l -> count c (cell x) = if Ascii.eqb c pipe then 1%nat else 0%nat) ->
  count c (cat (cell <$> l)) = if Ascii.eqb c pipe then length l else 0%nat.
Proof.
  intros H. rewrite count_cat, <- list_fmap_compose.
  rewrite (sum_const _ (if Ascii.eqb c pipe then 1%nat else 0%nat)) by (intros x Hx; by apply H).
  destruct (Ascii.eqb c pipe); lia.
Qed.

(** Pipes of a line of the comparison table and newlines in it. *)
Lemma count_header c sols :
  c = pipe \/ c = nl -> Forall (fun sol => plain (srName sol)) sols ->
  count c (header_row sols) = if Ascii.eqb c pipe then S (S (length sols)) else 0%nat.
Proof.
  intros Hc Hs. rewrite Forall_forall in Hs. unfold header_row. rewrite count_app, count_cells.
  - by destruct Hc as [->| ->].
  - intros sol Hsol. rewrite !count_app, (count_special c (srName sol)) by auto. by destruct Hc as [->| ->].
Qed.

Lemma count_separator c sols :
  c = pipe \/ c = nl -> count c (separator_row sols) = if Ascii.eqb c pipe then S (S (length sols)) else 0%nat.
Proof.
  intros Hc. unfold separator_row. rewrite count_app, count_cells by (intros; by destruct Hc as [->| ->]).
  by destruct Hc as [->| ->].
Qed.

Lemma count_data_row c sols id :
  c = pipe \/ c = nl -> plain id ->
  count c (data_row sols id) = if Ascii.eqb c pipe then S (S (length sols)) else 0%nat.
Proof.
  intros Hc Hid. unfold data_row. rewrite !count_app, (count_special c id) by done.
  rewrite count_cells by (intros; by apply count_result_cell). by destruct Hc as [->| ->].
Qed.

Lemma count_details_row c sc :
  c = pipe \/ c = nl -> plain (ScenarioID sc) ->
  count c (details_row sc) = if Ascii.eqb c pipe then 11%nat else 0%nat.
Proof.
  intros Hc Hid. unfold details_row.
  rewrite !count_app, !count_fixed, !count_pretty, (count_special c (ScenarioID sc)) by done.
  by destruct Hc as [->| ->].
Qed.

Definition cell (unit s : string) : string := String " " (s +:+ unit).

(** The fields of a detail row. *)
Lemma details_fields sc :
  plain (ScenarioID sc) ->
  fields (details_row sc) =
    [""; cell " " (ScenarioID sc); cell " " (pretty (RequestsTotal sc)); cell " " (fixed 0 (RPS sc));
     cell " " (fixed 1 (P50Ms sc)); cell " " (fixed 1 (P95Ms sc)); cell " " (fixed 1 (P99Ms sc));
     cell " " (fixed 1 (MaxMs sc)); cell "% " (fixed 2 (percent (ErrorRate sc)));
     cell "% " (fixed 2 (percent (ConflictRate sc))); cell " " (pretty (LeakedLocks sc)); ""].
Proof.
  intros [Hid _].
  assert (forall unit s rest, count pipe unit = 0%nat -> count pipe s = 0%nat ->
    fields (String " " (s +:+ unit +:+ String pipe rest)) = cell unit s :: fields rest) as Hc.
  { intros unit s rest Hu Hs. unfold cell. rewrite <- string_app_assoc. apply (fields_cons (String " " (s +:+ unit))).
    cbn. by rewrite count_app, Hs, Hu. }
  assert (forall p f, count pipe (fixed p f) = 0%nat) as Hf by (intros; apply count_fixed; by left).
  assert (forall n : Z, count pipe (pretty n) = 0%nat) as Hp by (intros; apply count_pretty; by left).
  change (fields (details_row sc)) with ("" :: fields (sdrop 1 (details_row sc))). f_equal.
  unfold details_row. cbn [sdrop].
  do 7 (etrans; [apply (Hc " "); done|f_equal]). do 2 (etrans; [apply (Hc "% "); done|f_equal]).
  by etrans; [apply (Hc " "); done|f_equal].
Qed.
