(* ===== verification/Runner.v ===== *)
(** * benchmark/runner.go and benchmark/main.go: the life of a benchmark run

    For each solution: read its manifest, build and start its container, wait
    until it is healthy, validate it, run the scenarios, stop the container.
    [os.Exit] ends the process without running deferred calls; [main] is
    modelled with its exit status. Of the output to the terminal only the final
    summary is modelled. *)

From S2P Require Import Prelude Utf8 Json GoTime LockSpec Http Validate Scenarios Float64 Format Measure Docker Reporter.
From stdpp Require Import options.
Local Open Scope Z_scope.

(** ** types.go *)

(** The result records are in [Measure] and [Reporter]. *)
Record SolutionManifest := mkManifest {
  smName : string; smDescription : string; smPort : Z; smStartupTimeoutMs : Z
}.

(** ** solution.json *)

(** A number into an [int]: an integer literal in range. *)
Definition set_int (old : Z) (v : json) : Z * bool :=
  match v with
  | JNum lit => match Atoi lit with Some n => (n, false) | None => (old, true) end
  | JNull => (old, false)
  | _ => (old, true)
  end.

Definition set_manifest (r : SolutionManifest) (f : string) (v : json) : SolutionManifest * bool :=
  if String.eqb f "name" then
    let x := set_string r.(smName) v in
    (mkManifest x.1 r.(smDescription) r.(smPort) r.(smStartupTimeoutMs), x.2)
  else if String.eqb f "description" then
    let x := set_string r.(smDescription) v in
    (mkManifest r.(smName) x.1 r.(smPort) r.(smStartupTimeoutMs), x.2)
  else if String.eqb f "port" then
    let x := set_int r.(smPort) v in
    (mkManifest r.(smName) r.(smDescription) x.1 r.(smStartupTimeoutMs), x.2)
  else
    let x := set_int r.(smStartupTimeoutMs) v in
    (mkManifest r.(smName) r.(smDescription) r.(smPort) x.1, x.2).

Definition decode_manifest : json -> SolutionManifest * bool :=
  decode_struct ["name"; "description"; "port"; "startupTimeoutMs"] set_manifest (mkManifest "" "" 0 0).

(** [filepath.Join] of a clean directory path and a file name. *)
Definition path_join (dir name : string) : string := dir +:+ "/" +:+ name.

(** What the runner needs from the load generator: [runScenario] and
    [runListHeavy] against a base URL (see [Scenarios] for their phases). *)
Class Bench (W : Type) := {
  b_runScenario : string -> scenarioCfg -> W -> result derror ScenarioResult * W;
  b_runListHeavy : string -> Z -> Z -> W -> result derror ScenarioResult * W
}.

Section runner.
Context {W : Type} `{!Host W} (unicode_lower : N -> N).

(** ** runner.go *)

Definition has_manifest (dir : string) : io W bool :=
  r ← ask (h_Stat (path_join dir "solution.json")); mret (is_ok r).

Fixpoint filter_solutions (root : string) (entries : list (string * bool)) : io W (list string) :=
  match entries with
  | [] => mret []
  | (name, isDir) :: entries =>
      if negb isDir then filter_solutions root entries
      else
        let candidate := path_join root name in
        found ← has_manifest candidate;
        dirs ← filter_solutions root entries;
        mret (if (found : bool) then candidate :: dirs else dirs)
  end.

Definition discoverSolutions (root : string) : io W (list string) :=
  isDir ← read (h_Stat root);
  single ← (if (isDir : bool) then has_manifest root else mret false);
  if (single : bool) then mret [root]
  else
    entries ← read (h_ReadDir root);
    filter_solutions root entries.

Definition load_manifest (dir : string) : io W SolutionManifest :=
  data ← wrapped "read solution.json" (read (h_ReadFile (path_join dir "solution.json")));
  match Unmarshal decode_manifest data with
  | None => fail (Wrapped "parse solution.json" BadJson)
  | Some m => mret m
  end.

(** The container and its base URL. *)
Definition start_solution (manifest : SolutionManifest) (tag networkName : string) : io W (string * string) :=
  if negb (is_empty networkName) then
    let cName := ContainerName unicode_lower manifest.(smName) in
    containerID ← wrapped "run container" (RunContainerOnNetwork tag manifest.(smPort) networkName cName);
    mret (containerID, "http://" +:+ cName +:+ ":" +:+ pretty manifest.(smPort))
  else
    '(containerID, hostPort) ← wrapped "run container" (RunContainer tag manifest.(smPort));
    mret (containerID, "http://127.0.0.1:" +:+ pretty (hostPort : Z)).

Definition timeout_of (manifest : SolutionManifest) : Z :=
  if manifest.(smStartupTimeoutMs) =? 0 then 10000 else manifest.(smStartupTimeoutMs).

(** [validateSpec(baseURL)] *)
Definition spec_check (baseURL : string) : io W unit := fun w =>
  match @validateSpec W (h_http baseURL) w.1 with
  | (Ok u, w') => (Ok u, (w', w.2))
  | (Err e, w') => (Err (SpecError e), (w', w.2))
  end.

Definition validateSolution (dir networkName : string) : io W unit :=
  manifest ← load_manifest dir;
  let tag := ImageTag unicode_lower manifest.(smName) in
  _ ← wrapped "build image" (BuildImage dir tag);
  '(containerID, baseURL) ← start_solution manifest tag networkName;
  deferred (StopContainer containerID)
    (_ ← wrapped "wait healthy" (WaitHealthy baseURL (timeout_of manifest));
     spec_check baseURL).

Context `{!Bench W}.

(** An operation of the load generator; it makes no calls to the daemon. *)
Definition bench {A} (op : W -> result derror A * W) : io W A := fun w =>
  match op w.1 with (r, w') => (r, (w', w.2)) end.
Definition sleep (d : Z) : io W unit := fun w => (Ok (), (h_sleep d w.1, w.2)).

(** The loop over the scenarios: the results, and whether one timed out. *)
Fixpoint run_scenarios (baseURL : string) (cfgs : list scenarioCfg) (acc : list ScenarioResult)
    : io W (list ScenarioResult * bool) :=
  match cfgs with
  | [] => mret (acc, false)
  | cfg :: cfgs =>
      r ← try_io (bench (b_runScenario baseURL cfg));
      match r with
      | Err _ => mret (acc, true)
      | Ok sc => _ ← sleep (2 * second); run_scenarios baseURL cfgs (acc ++ [sc])
      end
  end.

(** [scenarios[i].Duration = duration; scenarios[i].Warmup = warmup], on the
    array of the global [defaultScenarios], which [scenarios] shares. *)
Definition configure (warmup duration : Z) (cfgs : list scenarioCfg) : list scenarioCfg :=
  (fun c => mkScenarioCfg c.(ID) c.(Concurrency) c.(KeyPoolSize) duration warmup c.(PartitionKeys)) <$> cfgs.

Definition measure (baseURL : string) (warmup duration : Z) (scenarios : list scenarioCfg)
    : io W (list ScenarioResult) :=
  '(results, aborted) ← run_scenarios baseURL scenarios [];
  if (aborted : bool) then mret results
  else
    r ← try_io (bench (b_runListHeavy baseURL warmup duration));
    mret (match r with Err _ => results | Ok sc => results ++ [sc] end).

(** The result and the new content of [defaultScenarios]. Every error is
    returned before the array is written. *)
Definition benchmarkSolution (dir : string) (warmup duration : Z) (networkName : string)
    (defaults : list scenarioCfg) : io W (SolutionResult * list scenarioCfg) :=
  manifest ← load_manifest dir;
  let tag := ImageTag unicode_lower manifest.(smName) in
  _ ← wrapped "build image" (BuildImage dir tag);
  '(containerID, baseURL) ← start_solution manifest tag networkName;
  deferred (StopContainer containerID)
    (_ ← wrapped "wait healthy" (WaitHealthy baseURL (timeout_of manifest));
     _ ← wrapped "spec validation failed" (spec_check baseURL);
     let scenarios := configure warmup duration defaults in
     results ← measure baseURL warmup duration scenarios;
     mret (mkSolutionResult manifest.(smName) results, scenarios)).

End runner.

(** ** main.go *)

(** How the process ends: [os.Exit], which skips the deferred calls, or a
    return from [main], with the report it wrote, if any. *)
Inductive ending :=
| Exit (code : Z)
| Returned (report : option Report).

Definition exit_code (e : ending) : Z := match e with Exit c => c | Returned _ => 0 end.

Section main.
Context {W : Type} `{!Host W} `{!Bench W} (unicode_lower : N -> N).

Definition isRunningInDocker : io W bool := r ← ask (h_Stat "/.dockerenv"); mret (is_ok r).

Fixpoint discover_all (args : list string) : io W (list string) :=
  match args with
  | [] => mret []
  | arg :: args => dirs ← discoverSolutions arg; rest ← discover_all args; mret (dirs ++ rest)
  end.

(** The number of solutions that failed. *)
Fixpoint validate_all (dirs : list string) (networkName : string) : io W Z :=
  match dirs with
  | [] => mret 0
  | dir :: dirs =>
      r ← try_io (validateSolution unicode_lower dir networkName);
      failed ← validate_all dirs networkName;
      mret (if is_ok r then failed else failed + 1)
  end.

Fixpoint benchmark_all (dirs : list string) (warmup duration : Z) (networkName : string)
    (defaults : list scenarioCfg) : io W (list SolutionResult) :=
  match dirs with
  | [] => mret []
  | dir :: dirs =>
      r ← try_io (benchmarkSolution unicode_lower dir warmup duration networkName defaults);
      match r with
      | Err _ => benchmark_all dirs warmup duration networkName defaults
      | Ok (result, defaults) =>
          rest ← benchmark_all dirs warmup duration networkName defaults;
          mret (result :: rest)
      end
  end.

(** [strings.ReplaceAll(report.Timestamp, ":", "-")] *)
Definition stamp (timestamp : string) : string :=
  string_map (fun a => if Ascii.eqb a ":" then "-"%char else a) timestamp.

(** The end of [main]: errors of the writes are printed only. *)
Definition write_report (report : Report) : io W ending :=
  _ ← try_io (call (CMkdir "../results") (h_MkdirAll "../results"));
  let base := "../results/benchmark-" +:+ stamp report.(Timestamp) in
  _ ← try_io (WriteJSON report (base +:+ ".json"));
  _ ← try_io (WriteMarkdown report (base +:+ ".md"));
  _ ← PrintSummary report;
  mret (Returned (Some report)).

(** The part of [main] after the network is set up. *)
Definition main_body (dirs : list string) (warmup duration : Z) (validateOnly : bool)
    (networkName : string) : io W ending :=
  if validateOnly then
    failed ← validate_all dirs networkName;
    mret (if 0 <? failed then Exit 1 else Returned None)
  else
    now ← ask h_now;
    solutions ← benchmark_all dirs warmup duration networkName defaultScenarios;
    write_report (mkReport (rfc3339 now) solutions).

(** [defer f()] in [main]: not run by [os.Exit]. *)
Definition deferred_main (f : io W unit) (m : io W ending) : io W ending := fun w =>
  match m w with
  | (Ok (Returned r), w') => (Ok (Returned r), (f w').2)
  | other => other
  end.

Definition main_network (dirs : list string) (warmup duration : Z) (validateOnly : bool) : io W ending :=
  inDocker ← isRunningInDocker;
  if (inDocker : bool) then
    net ← try_io CreateBenchmarkNetwork;
    match net with
    | Err _ => mret (Exit 1)
    | Ok (networkID, name) =>
        deferred_main (RemoveNetwork networkID)
          (connected ← try_io (ConnectSelfToNetwork networkID);
           match connected with
           | Err _ => mret (Exit 1)
           | Ok _ => main_body dirs warmup duration validateOnly name
           end)
    end
  else main_body dirs warmup duration validateOnly "".

Definition main (args : list string) (warmup duration : Z) (validateOnly : bool) : io W ending :=
  match args with
  | [] => mret (Exit 1)
  | _ =>
      found ← try_io (discover_all args);
      match found with
      | Err _ | Ok [] => mret (Exit 1)
      | Ok dirs =>
          client ← try_io (read h_NewClient);
          match client with
          | Err _ => mret (Exit 1)
          | Ok _ => main_network dirs warmup duration validateOnly
          end
      end
  end.

End main.
