(* ===== verification/RunnerFacts.v ===== *)
(** * Calls, time and build output of the runner

    The calls each function makes, with their outcomes; the clock of the
    polling loops; the build messages. *)

From S2P Require Import Prelude Utf8 Json JsonFacts GoTime LockSpec Http HttpFacts Validate.
From S2P Require Import Scenarios Float64 Format Measure Docker Reporter Runner.
From stdpp Require Import options.
Local Open Scope Z_scope.

(** ** Which calls a program makes *)

(** [m] adds to the record only calls that satisfy [P]. *)
Definition emits {W A} (P : dcall -> Prop) (m : io W A) : Prop :=
  forall w, exists l, (m w).2.2 = w.2 ++ l /\ Forall (fun ev => P ev.1) l.
(** [m] makes no recorded call. *)
Definition quiet {W A} (m : io W A) : Prop := forall w, (m w).2.2 = w.2.

Create HintDb calls.

Section calls.
Context {W : Type}.
Implicit Types (P : dcall -> Prop).

Lemma emits_ret {A} P (a : A) : emits P (mret a : io W A).
Proof. intros w. exists []. by rewrite app_nil_r. Qed.
Lemma emits_bind {A B} P (m : io W A) (k : A -> io W B) :
  emits P m -> (forall a, emits P (k a)) -> emits P (m ≫= k).
Proof.
  intros Hm Hk w. unfold mbind, io_bind. destruct (Hm w) as (l & E & Hl).
  destruct (m w) as [[a|e] w1]; cbn in E; [|by exists l].
  destruct (Hk a w1) as (l' & E' & Hl'). exists (l ++ l'). rewrite E', E, app_assoc.
  split; [done|]. by apply Forall_app.
Qed.
Lemma emits_wrapped {A} P s (m : io W A) : emits P m -> emits P (wrapped s m).
Proof. intros Hm w. unfold wrapped. destruct (Hm w) as (l & E & Hl), (m w) as [[] ?]; eauto. Qed.
Lemma emits_fail {A} P e : emits P (fail e : io W A).
Proof. intros w. exists []. by rewrite app_nil_r. Qed.
Lemma emits_call {A} P c (op : W -> result string A * W) : P c -> emits P (call c op).
Proof. intros Hc w. unfold call. destruct (op w.1) as [[] ?]; (eexists [_]; split; [done|by repeat constructor]). Qed.
Lemma emits_ignore {A} P (m : io W A) : emits P m -> emits P (ignore m).
Proof. intros Hm w. apply (Hm w). Qed.
Lemma emits_try {A} P (m : io W A) : emits P m -> emits P (try_io m).
Proof. intros Hm w. unfold try_io. destruct (Hm w) as (l & E & Hl), (m w); eauto. Qed.
Lemma emits_quiet {A} P (m : io W A) : quiet m -> emits P m.
Proof. intros Hm w. exists []. by rewrite Hm, app_nil_r. Qed.
Lemma emits_deferred {A B} P (f : io W B) (m : io W A) : emits P f -> emits P m -> emits P (deferred f m).
Proof.
  intros Hf Hm w. unfold deferred. destruct (Hm w) as (l & E & Hl), (m w) as [r w1]. cbn in E.
  destruct (Hf w1) as (l' & E' & Hl'). exists (l ++ l'). cbn. rewrite E', E, app_assoc.
  split; [done|]. by apply Forall_app.
Qed.

Lemma io_bind_Ok {A B} (m : io W A) (k : A -> io W B) w a w1 :
  m w = (Ok a, w1) -> (m ≫= k) w = k a w1.
Proof. intros E. unfold mbind, io_bind. by rewrite E. Qed.

Lemma io_bind_Err {A B} (m : io W A) (k : A -> io W B) w e w1 :
  m w = (Err e, w1) -> (m ≫= k) w = (Err e, w1).
Proof. intros E. unfold mbind, io_bind. by rewrite E. Qed.

(** A wrapped error is not a plain message. *)
Lemma wrapped_bind_err {A B} s (m : io W A) (k : A -> io W B) w x :
  (forall a w1, (k a w1).1 <> Err (Msg x)) -> ((wrapped s m ≫= k) w).1 <> Err (Msg x).
Proof.
  intros Hk. unfold mbind, io_bind, wrapped. by destruct (m w) as [[a|e] w1].
Qed.

Lemma call_events {A} s c (op : W -> result string A * W) w :
  (wrapped s (call c op) w).2.2 = w.2 ++ [(c, is_ok (wrapped s (call c op) w).1)].
Proof. unfold wrapped, call. by destruct (op w.1) as [[] ?]. Qed.

Lemma quiet_ret {A} (a : A) : quiet (mret a : io W A).
Proof. done. Qed.
Lemma quiet_fail {A} e : quiet (fail e : io W A).
Proof. done. Qed.
Lemma quiet_bind {A B} (m : io W A) (k : A -> io W B) :
  quiet m -> (forall a, quiet (k a)) -> quiet (m ≫= k).
Proof.
  intros Hm Hk w. unfold mbind, io_bind. specialize (Hm w).
  destruct (m w) as [[a|e] w1]; cbn in Hm; [by rewrite Hk|done].
Qed.
Lemma quiet_wrapped {A} s (m : io W A) : quiet m -> quiet (wrapped s m).
Proof. intros Hm w. unfold wrapped. specialize (Hm w). by destruct (m w) as [[] ?]. Qed.
Lemma quiet_query {A} (op : W -> result string A * W) : quiet (query op).
Proof. intros w. unfold query. by destruct (op w.1) as [[] ?]. Qed.
Lemma quiet_read {A} (op : W -> result string A) : quiet (read op).
Proof. apply quiet_query. Qed.
Lemma quiet_ask {A} (op : W -> A) : quiet (ask op).
Proof. done. Qed.
Lemma quiet_try {A} (m : io W A) : quiet m -> quiet (try_io m).
Proof. intros Hm w. unfold try_io. specialize (Hm w). by destruct (m w). Qed.

End calls.

#[export] Hint Resolve emits_ret emits_bind emits_wrapped emits_fail emits_call emits_ignore
  emits_try emits_deferred quiet_ret quiet_fail quiet_bind quiet_wrapped quiet_query quiet_read
  quiet_ask quiet_try : calls.

Section docker_calls.
Context {W : Type} `{!Host W}.

Lemma quiet_wait d : quiet (wait d : io W bool).
Proof. intros w. unfold wait. by destruct (h_wait d w.1). Qed.
Lemma quiet_healthz url : quiet (healthz url : io W bool).
Proof. intros w. unfold healthz. by destruct (client_Do _ w.1) as [[] ?]. Qed.
#[local] Hint Resolve quiet_wait quiet_healthz : calls.

Lemma quiet_poll_health n url ms deadline delay : quiet (poll_health n url ms deadline delay : io W unit).
Proof.
  revert delay. induction n as [|n IH]; intros delay; cbn; auto with calls.
  apply quiet_bind; [auto with calls|]. intros now. destruct (_ <? _); auto with calls.
  apply quiet_bind; [auto with calls|]. intros []; auto with calls.
  apply quiet_bind; [auto with calls|]. intros []; auto with calls.
Qed.

Lemma quiet_WaitHealthy url ms : quiet (WaitHealthy url ms : io W unit).
Proof. unfold WaitHealthy. auto using quiet_poll_health with calls. Qed.

Lemma quiet_await_port n id port deadline : quiet (await_port n id port deadline : io W (string * Z)).
Proof.
  induction n as [|n IH]; cbn; auto with calls.
  apply quiet_bind; [auto with calls|]. intros [|hp ?]; [|destruct (Atoi hp); auto with calls].
  apply quiet_bind; [auto with calls|]. intros now. destruct (_ <? _); auto with calls.
  apply quiet_bind; [auto with calls|]. intros []; auto with calls.
Qed.

Lemma await_port_id n id port deadline w a w' :
  (await_port n id port deadline : io W (string * Z)) w = (Ok a, w') -> a.1 = id.
Proof.
  revert w. induction n as [|n IH]; intros w H; cbn in H; [done|].
  destruct (wrapped "container inspect" (query (h_ContainerInspect id port)) w) as [[bs|e] w1] eqn:Ei.
  2: by rewrite (io_bind_Err _ _ _ _ _ Ei) in H.
  rewrite (io_bind_Ok _ _ _ _ _ Ei) in H. destruct bs as [|hp ?].
  - rewrite (io_bind_Ok (ask h_now) _ w1 (h_now w1.1) w1 eq_refl) in H. destruct (_ <? _); [done|].
    unfold mbind, io_bind, wait in H. destruct (h_wait _ _) as [[] ?]; [by eapply IH|done].
  - destruct (Atoi hp); [|done]. by injection H as <- _.
Qed.

Lemma quiet_spec_check url : quiet (spec_check url : io W unit).
Proof. intros w. unfold spec_check. by destruct (validateSpec w.1) as [[] ?]. Qed.

Lemma quiet_load_manifest dir : quiet (load_manifest dir : io W SolutionManifest).
Proof.
  unfold load_manifest. apply quiet_bind; [auto with calls|]. intros data.
  destruct (Unmarshal _ _); auto with calls.
Qed.

(** Stopping makes one call, or two. *)
Definition stop_events (id : string) (evs : list devent) : Prop :=
  evs = [(CStop id, false)] \/ exists removed, evs = [(CStop id, true); (CRemove id, removed)].

Lemma StopContainer_events id w :
  exists evs, (StopContainer id w : result derror unit * (W * list devent)).2.2 = w.2 ++ evs /\
    stop_events id evs.
Proof.
  unfold StopContainer, mbind, io_bind, wrapped, call, stop_events.
  destruct (h_ContainerStop id 10 w.1) as [[u|e] w1]; cbn; [|by eauto].
  destruct (h_ContainerRemove id w1) as [[u'|e] w2]; cbn; rewrite <- app_assoc; cbn; eauto.
Qed.

Lemma BuildImage_events dir tag w :
  let '(r, w') := (BuildImage dir tag w : result derror unit * (W * list devent)) in
  (w'.2 = w.2 /\ is_ok r = false) \/ exists built, w'.2 = w.2 ++ [(CBuild tag, built)] /\ (is_ok r = true -> built = true).
Proof.
  unfold BuildImage.
  pose proof (quiet_wrapped "create tarball" (createTarball dir)) as Q0.
  specialize (Q0 (quiet_bind _ _ (quiet_ask _) (fun _ => quiet_read _)) w).
  destruct (wrapped "create tarball" _ w) as [[tar|e] w0] eqn:E0; cbn in Q0;
    [rewrite (io_bind_Ok _ _ _ _ _ E0)|rewrite (io_bind_Err _ _ _ _ _ E0); by left].
  pose proof (call_events "image build" (CBuild tag) (h_ImageBuild tag tar) w0) as Q1. rewrite Q0 in Q1.
  destruct (wrapped "image build" _ w0) as [[out|e] w1] eqn:E1; cbn in Q1;
    [rewrite (io_bind_Ok _ _ _ _ _ E1)|rewrite (io_bind_Err _ _ _ _ _ E1); right; by exists false].
  destruct (drain_build (S (String.length out)) out ""); right; by exists true.
Qed.

(** ** The life of the container *)

(** The part the two entry points of runner.go have in common. *)
Definition with_container {A} (ul : N -> N) (dir networkName : string)
    (body : SolutionManifest -> string -> io W A) : io W A :=
  manifest ← load_manifest dir;
  let tag := ImageTag ul manifest.(smName) in
  _ ← wrapped "build image" (BuildImage dir tag);
  '(containerID, baseURL) ← start_solution ul manifest tag networkName;
  deferred (StopContainer containerID) (body manifest baseURL).

(** The creation and the start of a container, and the container that is handed
    over. One that was created but did not start is not handed over, nor,
    without a network, one that started but whose host port could not be found
    out. *)
Inductive create_events (networkName : string) : option string -> list devent -> Prop :=
| ce_not_created spec : create_events networkName None [(CCreate spec, false)]
| ce_not_started spec id : create_events networkName None [(CCreate spec, true); (CStart id, false)]
| ce_no_port spec id : networkName = "" ->
    create_events networkName None [(CCreate spec, true); (CStart id, true)]
| ce_started spec id : create_events networkName (Some id) [(CCreate spec, true); (CStart id, true)].

(** The calls of [start_solution]: on a network the leftover container of the
    same name is removed first. *)
Definition start_events (networkName : string) (o : option string) (evs : list devent) : Prop :=
  (networkName = "" /\ create_events networkName o evs) \/
  (networkName <> "" /\ exists name removed evs',
     evs = (CRemove name, removed) :: evs' /\ create_events networkName o evs').

(** The calls of a whole run and whether it succeeded: it failed before any
    container; the container was not handed over, and nothing stops or removes
    it; or it was handed over and stopped at the very end. *)
Inductive lifecycle (networkName : string) : bool -> list devent -> Prop :=
| lc_no_build : lifecycle networkName false []
| lc_build_failed tag built : lifecycle networkName false [(CBuild tag, built)]
| lc_not_handed_over tag evs :
    start_events networkName None evs -> lifecycle networkName false ((CBuild tag, true) :: evs)
| lc_stopped tag evs id stops ok :
    start_events networkName (Some id) evs -> stop_events id stops ->
    lifecycle networkName ok ((CBuild tag, true) :: evs ++ stops).

Lemma create_and_start {A} net spec (k : string -> io W A) (ret : A -> string) w :
  (forall id, quiet (k id)) -> (forall id w1 a w2, k id w1 = (Ok a, w2) -> ret a = id) ->
  (net = "" \/ forall id w1, is_ok (k id w1).1 = true) ->
  let '(r, w') := (id ← wrapped "container create" (call (CCreate spec) (h_ContainerCreate spec));
                   _ ← wrapped "container start" (call (CStart id) (h_ContainerStart id)); k id) w in
  exists evs, w'.2 = w.2 ++ evs /\
    create_events net (match r with Ok a => Some (ret a) | Err _ => None end) evs.
Proof.
  intros Hq Hret Hnet. unfold wrapped, call. unfold mbind, io_bind.
  destruct (h_ContainerCreate spec w.1) as [[id|e] w1]; cbn [fst snd].
  2: { exists [(CCreate spec, false)]. split; [done|constructor]. }
  destruct (h_ContainerStart id w1) as [[u|e] w2]; cbn [fst snd].
  2: { exists [(CCreate spec, true); (CStart id, false)]. split; [by rewrite <- app_assoc|constructor]. }
  pose proof (Hq id (w2, (w.2 ++ [(CCreate spec, true)]) ++ [(CStart id, true)])) as Q.
  destruct (k id _) as [[a|e] w3] eqn:E; cbn in Q;
    (exists [(CCreate spec, true); (CStart id, true)]; split; [by rewrite Q, <- app_assoc|]).
  - rewrite (Hret _ _ _ _ E). constructor.
  - destruct Hnet as [->|Hnet]; [by constructor|].
    specialize (Hnet id (w2, (w.2 ++ [(CCreate spec, true)]) ++ [(CStart id, true)])). by rewrite E in Hnet.
Qed.

Lemma start_solution_events ul m tag net w :
  let '(r, w') := (start_solution ul m tag net w : result derror (string * string) * (W * list devent)) in
  exists evs, w'.2 = w.2 ++ evs /\
    start_events net (match r with Ok (id, _) => Some id | Err _ => None end) evs.
Proof.
  unfold start_solution. unfold is_empty. destruct (String.eqb_spec net "") as [->|Hnet]; cbn [negb].
  - pose proof (create_and_start "" (mkContainerSpec tag (portSpec (smPort m)) true None "")
      (fun id => now ← ask h_now; await_port (poll_fuel (5 * second)) id (portSpec (smPort m)) (now + 5 * second))
      fst w) as H.
    unfold wrapped at 1. unfold mbind at 1, io_bind at 1. unfold RunContainer. cbv zeta.
    destruct ((wrapped "container create" _ ≫= _) w) as [r w'].
    destruct H as (evs & Hw & Hs).
    + intros id. apply quiet_bind; [apply quiet_ask|]. intros. apply quiet_await_port.
    + intros id w1 a w2 Ha. rewrite (io_bind_Ok (ask h_now) _ w1 (h_now w1.1) w1 eq_refl) in Ha.
      by eapply await_port_id.
    + by left.
    + destruct r as [[id p]|e]; cbn; (exists evs; split; [done|by left]).
  - set (name := ContainerName ul (smName m)).
    set (spec := mkContainerSpec tag (portSpec (smPort m)) false (Some (net, name)) name).
    unfold wrapped at 1. unfold mbind at 1, io_bind at 1. unfold RunContainerOnNetwork. cbv zeta.
    fold spec. unfold ignore. unfold mbind at 1, io_bind at 1.
    set (w0 := (call (CRemove name) (h_ContainerRemove name) w).2).
    pose proof (create_and_start net spec (fun id => mret id) (fun id => id) w0) as H.
    destruct ((wrapped "container create" _ ≫= _) w0) as [r w'].
    destruct H as (evs & Hw & Hs); [done|by intros id w1 a w2 [= <- _]|by right|].
    assert (exists removed, w0.2 = w.2 ++ [(CRemove name, removed)]) as [removed Hw0].
    { unfold w0, call. destruct (h_ContainerRemove name w.1) as [[] ?]; eauto. }
    rewrite Hw0, <- app_assoc in Hw.
    destruct r as [id|e]; cbn; (exists ((CRemove name, removed) :: evs)); (split; [done|]); right; split; (done || by exists name, removed, evs).
Qed.

Lemma with_container_lifecycle {A} ul dir networkName (body : SolutionManifest -> string -> io W A) w r w' :
  (forall m url, quiet (body m url)) -> with_container ul dir networkName body w = (r, w') ->
  (exists evs, w'.2 = w.2 ++ evs /\ lifecycle networkName (is_ok r) evs) /\
  (is_ok r = true -> exists manifest tag w1 id url w2 w3 a,
     r = Ok a /\ start_solution ul manifest tag networkName w1 = (Ok (id, url), w2) /\
     body manifest url w2 = (Ok a, w3)).
Proof.
  intros Hq H. unfold with_container in H.
  pose proof (quiet_load_manifest dir w) as Q0.
  destruct (load_manifest dir w) as [[manifest|e] w0] eqn:E0; cbn in Q0.
  2: { rewrite (io_bind_Err _ _ _ _ _ E0) in H. injection H as <- <-.
       split; [|done]. exists []. rewrite app_nil_r. split; [done|constructor]. }
  rewrite (io_bind_Ok _ _ _ _ _ E0) in H. cbv zeta in H.
  set (tag := ImageTag ul (smName manifest)) in *.
  pose proof (BuildImage_events dir tag w0) as Q1.
  unfold wrapped in H at 1. unfold mbind at 1, io_bind at 1 in H.
  destruct (BuildImage dir tag w0) as [[u|e] w1]; cbn in Q1; rewrite Q0 in Q1.
  2: { injection H as <- <-. split; [|done]. destruct Q1 as [[Q1 _]|(built & Q1 & _)].
       - exists []. rewrite app_nil_r. split; [done|constructor].
       - exists [(CBuild tag, built)]. split; [done|constructor]. }
  destruct Q1 as [[_ Q1]|(built & Q1 & Hb)]; [done|]. rewrite (Hb eq_refl) in Q1.
  pose proof (start_solution_events ul manifest tag networkName w1) as Q2.
  destruct (start_solution ul manifest tag networkName w1) as [[[id url]|e] w2] eqn:E2;
    destruct Q2 as (evs & Q2 & Hs); rewrite Q1, <- app_assoc in Q2.
  2: { rewrite (io_bind_Err _ _ _ _ _ E2) in H. injection H as <- <-.
       split; [|done]. eexists. split; [exact Q2|by constructor]. }
  rewrite (io_bind_Ok _ _ _ _ _ E2) in H. unfold deferred in H.
  pose proof (Hq manifest url w2) as Q3. destruct (body manifest url w2) as [r3 w3] eqn:E3. cbn in Q3.
  injection H as <- <-.
  destruct (StopContainer_events id w3) as (stops & Hst & Hstop). rewrite Q3, Q2, <- app_assoc in Hst.
  split; [eexists; split; [exact Hst|by econstructor]|]. intros Hok. destruct r3 as [a|]; [|done].
  by exists manifest, tag, w1, id, url, w2, w3, a.
Qed.

End docker_calls.

(** ** Build output *)

(** [s] starts with the messages [msgs], and [r] is what follows. *)
Inductive stream_msgs : string -> list buildMsg -> string -> Prop :=
| sm_nil s : stream_msgs s [] s
| sm_cons s v rest msg msgs r :
    is_empty (skip_ws s) = false -> parse s = POk v rest -> decode_buildMsg v = (msg, false) ->
    stream_msgs rest msgs r -> stream_msgs s (msg :: msgs) r.

Definition no_error (msg : buildMsg) : Prop := bmError msg = "".
Definition log_of (msgs : list buildMsg) : string := cat (bmStream <$> msgs).

(** What the decode loop has seen when it ends. *)
Definition drained (s log : string) (o : build_outcome) : Prop :=
  match o with
  | BuildDone l => exists msgs r, stream_msgs s msgs r /\ is_empty (skip_ws r) = true /\
      Forall no_error msgs /\ l = log +:+ log_of msgs
  | BuildError e l => exists msgs msg r, stream_msgs s (msgs ++ [msg]) r /\
      Forall no_error msgs /\ bmError msg = e /\ e <> "" /\ l = log +:+ log_of (msgs ++ [msg])
  | BuildUnreadable => exists msgs r, stream_msgs s msgs r /\ Forall no_error msgs /\
      is_empty (skip_ws r) = false /\
      forall v rest msg, parse r = POk v rest -> decode_buildMsg v <> (msg, false)
  | BuildFuel => False
  end.

Lemma drained_cons s v rest msg log o :
  is_empty (skip_ws s) = false -> parse s = POk v rest -> decode_buildMsg v = (msg, false) ->
  no_error msg -> drained rest (log +:+ bmStream msg) o -> drained s log o.
Proof.
  intros Hb Hp Hd Hn. destruct o as [l| |e l|]; cbn; [| | |done].
  - intros (msgs & r & Hs & Hr & Hf & ->). exists (msg :: msgs), r.
    split_and!; [by econstructor|done|by constructor|]. by rewrite string_app_assoc.
  - intros (msgs & r & Hs & Hf & Hr). exists (msg :: msgs), r. split_and!; [by econstructor|by constructor|apply Hr..].
  - intros (msgs & m & r & Hs & Hf & He & Hne & ->). exists (msg :: msgs), m, r.
    split_and!; [by econstructor|by constructor|done..|]. by rewrite string_app_assoc.
Qed.

Lemma log_append (log s : string) : (if is_empty s then log else log +:+ s) = log +:+ s.
Proof.
  unfold is_empty. destruct (String.eqb_spec s "") as [->|]; [|done]. by rewrite string_app_nil_r.
Qed.

Lemma drain_build_spec n s log : (String.length s < n)%nat -> drained s log (drain_build n s log).
Proof.
  revert s log. induction n as [|n IH]; intros s log Hn; [lia|]. cbn [drain_build].
  destruct (is_empty (skip_ws s)) eqn:Hb.
  { exists [], s. split_and!; [constructor|done..|]. by rewrite string_app_nil_r. }
  destruct (parse s) as [v rest| |] eqn:Hp.
  - destruct (decode_buildMsg v) as [msg []] eqn:Hd.
    + exists [], s. split_and!; [constructor|done..|]. intros v' rest' msg' E. simplify_eq. congruence.
    + rewrite log_append. destruct (is_empty (bmError msg)) eqn:He.
      * eapply drained_cons; eauto.
        { unfold no_error. unfold is_empty in He. by apply String.eqb_eq. }
        apply IH. apply parse_value_shorter in Hp. lia.
      * exists [], msg, rest. split_and!; [by repeat econstructor|done..| |].
        { intros E. rewrite E in He. done. }
        cbn. by rewrite string_app_nil_r.
  - exists [], s. split_and!; [constructor|done..|]. intros ? ? ? ?. congruence.
  - exists [], s. split_and!; [constructor|done..|]. intros ? ? ? ?. congruence.
Qed.

(** ** Polling *)

(** The clock never goes back, and a wait that is not cut short by the end of
    the context lasts at least as long as asked. *)
Class HostClock (W : Type) `{!Host W} := {
  hc_wait d w : 0 <= d -> (h_wait d w).1 = true -> h_now w + d <= h_now (h_wait d w).2;
  hc_http url r w : h_now w <= h_now (@client_Do W (h_http url) r w).2;
  hc_inspect id port w : h_now w <= h_now (h_ContainerInspect id port w).2
}.

Section polling.
Context {W : Type} `{HC : HostClock W}.
Implicit Types (w : W * list devent).

(** How a wait for health ends. *)
Definition health_outcome (url : string) (ms deadline : Z) (r : result derror unit) w' : Prop :=
  match r with
  | Ok _ => exists w1, healthz url w1 = (Ok true, w')
  | Err e =>
      (e = Msg ("service at " +:+ url +:+ " not healthy within " +:+ pretty ms +:+ "ms") /\
       deadline < h_now w'.1) \/
      (e = CtxEnded /\ exists d (w1 : W), h_wait d w1 = (false, w'.1))
  end.

Lemma next_delay_bounds delay :
  100 * millisecond <= delay -> 100 * millisecond <= next_delay delay <= 2 * second.
Proof. unfold next_delay, millisecond, second. lia. Qed.

Lemma poll_health_outcome n url ms deadline delay w :
  100 * millisecond <= delay ->
  deadline < h_now w.1 + (Z.of_nat n - 1) * (100 * millisecond) -> (0 < n)%nat ->
  let '(r, w') := poll_health n url ms deadline delay w in health_outcome url ms deadline r w'.
Proof using HC.
  revert delay w. induction n as [|n IH]; intros delay w Hd Hn H0; [lia|]. cbn [poll_health].
  rewrite (io_bind_Ok (ask h_now) _ w (h_now w.1) w eq_refl).
  destruct (Z.ltb_spec deadline (h_now w.1)) as [Hlt|Hge]; [by left|].
  destruct (healthz url w) as [[b|e] w1] eqn:Eh.
  2: { unfold healthz in Eh. by destruct (client_Do _ w.1) as [[] ?]. }
  rewrite (io_bind_Ok _ _ _ _ _ Eh). destruct b; [by exists w|].
  assert (h_now w.1 <= h_now w1.1) as Hm1.
  { pose proof (hc_http url (mkRequest "GET" "/healthz" "") w.1) as Hm. unfold healthz in Eh.
    destruct (client_Do _ w.1) as [[] ?]; simplify_eq/=; done. }
  destruct (h_wait delay w1.1) as [alive w2] eqn:Ew.
  pose proof (hc_wait delay w1.1) as Hw. rewrite Ew in Hw. cbn in Hw.
  unfold millisecond in *.
  rewrite (io_bind_Ok (wait delay) _ w1 alive (w2, w1.2)) by (unfold wait; by rewrite Ew).
  destruct alive; [|right; split; [done|]; by exists delay, w1.1].
  specialize (fun Hd0 => Hw Hd0 eq_refl).
  apply IH; [pose proof (next_delay_bounds delay); unfold millisecond in *; lia| |].
  - cbn [fst]. lia.
  - destruct n; [lia|lia].
Qed.

Lemma poll_fuel_enough t : t < (Z.of_nat (poll_fuel t) - 1) * (100 * millisecond).
Proof. unfold poll_fuel, millisecond. lia. Qed.

Lemma await_port_fuel n id port deadline w :
  deadline < h_now w.1 + (Z.of_nat n - 1) * (100 * millisecond) -> (0 < n)%nat ->
  (await_port n id port deadline w).1 <> Err (Msg "out of fuel").
Proof using HC.
  revert w. induction n as [|n IH]; intros w Hn H0; [lia|]. cbn [await_port].
  destruct (wrapped "container inspect" (query (h_ContainerInspect id port)) w) as [[bs|e] w1] eqn:Ei.
  2: { rewrite (io_bind_Err _ _ _ _ _ Ei). unfold wrapped, query in Ei.
       destruct (h_ContainerInspect id port w.1) as [[] ?]; by simplify_eq. }
  rewrite (io_bind_Ok _ _ _ _ _ Ei).
  destruct bs as [|hp ?]; [|by destruct (Atoi hp)].
  assert (h_now w.1 <= h_now w1.1) as Hm1.
  { pose proof (hc_inspect id port w.1) as Hm. unfold wrapped, query in Ei.
    destruct (h_ContainerInspect id port w.1) as [[] ?]; simplify_eq/=; done. }
  rewrite (io_bind_Ok (ask h_now) _ w1 (h_now w1.1) w1 eq_refl).
  destruct (Z.ltb_spec deadline (h_now w1.1)) as [Hlt|Hge]; [done|].
  destruct (h_wait (100 * millisecond) w1.1) as [alive w2] eqn:Ew.
  pose proof (hc_wait (100 * millisecond) w1.1) as Hw. rewrite Ew in Hw. cbn in Hw.
  rewrite (io_bind_Ok (wait (100 * millisecond)) _ w1 alive (w2, w1.2)) by (unfold wait; by rewrite Ew).
  destruct alive; [|done]. specialize (fun Hd0 => Hw Hd0 eq_refl). unfold millisecond in *.
  apply IH; [cbn [fst]; lia|]. destruct n; lia.
Qed.

End polling.

(** ** The benchmark network *)

(** Any call but the removal of a network. *)
Definition keeps_network (c : dcall) : Prop := match c with CNetRemove _ => False | _ => True end.

(** How the runner's connecting itself to the network shows. *)
Lemma connect_events {W} `{!Host W} networkID (w : W * list devent) :
  let '(r, w') := (ConnectSelfToNetwork networkID w : result derror unit * (W * list devent)) in
  match r with
  | Ok _ => exists host, w'.2 = w.2 ++ [(CNetConnect networkID host, true)]
  | Err _ => exists evs, Forall (fun ev => keeps_network ev.1) evs /\ w'.2 = w.2 ++ evs
  end.
Proof.
  unfold ConnectSelfToNetwork. set (host := h_getenv "HOSTNAME" w.1).
  rewrite (io_bind_Ok (ask (h_getenv "HOSTNAME")) _ w host w eq_refl).
  destruct (is_empty host); [exists []; by rewrite app_nil_r|].
  unfold wrapped, call. destruct (h_NetworkConnect networkID host w.1) as [[] ?]; cbn; [by exists host|].
  exists [(CNetConnect networkID host, false)]. split; [by repeat constructor|done].
Qed.

Section network.
Context {W : Type} `{!Host W} `{!Bench W} (ul : N -> N).
#[local] Hint Resolve emits_quiet quiet_load_manifest quiet_WaitHealthy quiet_await_port
  quiet_spec_check : calls.

Lemma emits_StopContainer id : emits keeps_network (StopContainer id : io W unit).
Proof. unfold StopContainer. apply emits_bind; auto with calls; intros; apply emits_wrapped, emits_call; done. Qed.

Lemma emits_BuildImage dir tag : emits keeps_network (BuildImage dir tag : io W unit).
Proof.
  intros w. pose proof (BuildImage_events dir tag w) as H. destruct (BuildImage dir tag w) as [r w'].
  destruct H as [[H _]|(built & H & _)]; cbn [snd]; rewrite H.
  - exists []. by rewrite app_nil_r.
  - exists [(CBuild tag, built)]. by repeat constructor.
Qed.

Lemma emits_start_solution m tag net : emits keeps_network (start_solution ul m tag net : io W _).
Proof.
  unfold start_solution, RunContainerOnNetwork, RunContainer. destruct (negb _).
  - apply emits_bind; [|auto with calls]. apply emits_wrapped.
    apply emits_bind; [by apply emits_ignore, emits_call|]. intros _.
    apply emits_bind; [by apply emits_wrapped, emits_call|]. intros id.
    apply emits_bind; [by apply emits_wrapped, emits_call|auto with calls].
  - apply emits_bind; [|intros []; auto with calls]. apply emits_wrapped.
    apply emits_bind; [by apply emits_wrapped, emits_call|]. intros id.
    apply emits_bind; [by apply emits_wrapped, emits_call|]. auto 6 with calls.
Qed.

Lemma emits_with_container {A} dir net (body : SolutionManifest -> string -> io W A) :
  (forall m url, quiet (body m url)) -> emits keeps_network (with_container ul dir net body).
Proof.
  intros Hq. unfold with_container. apply emits_bind; [auto with calls|]. intros m. cbv zeta.
  apply emits_bind; [apply emits_wrapped, emits_BuildImage|]. intros _.
  apply emits_bind; [apply emits_start_solution|]. intros [id url].
  apply emits_deferred; [apply emits_StopContainer|]. auto with calls.
Qed.

(** The bodies make no recorded call. *)
Definition validate_body (m : SolutionManifest) (url : string) : io W unit :=
  _ ← wrapped "wait healthy" (WaitHealthy url (timeout_of m)); spec_check url.

Lemma validateSolution_eq dir net :
  validateSolution ul dir net = (with_container ul dir net validate_body : io W unit).
Proof. done. Qed.

Lemma quiet_validate_body m url : quiet (validate_body m url).
Proof. unfold validate_body. auto with calls. Qed.

Definition benchmark_body (warmup duration : Z) (defaults : list scenarioCfg)
    (m : SolutionManifest) (url : string) : io W (SolutionResult * list scenarioCfg) :=
  _ ← wrapped "wait healthy" (WaitHealthy url (timeout_of m));
  _ ← wrapped "spec validation failed" (spec_check url);
  let scenarios := configure warmup duration defaults in
  results ← measure url warmup duration scenarios;
  mret (mkSolutionResult m.(smName) results, scenarios).

Lemma benchmarkSolution_eq dir warmup duration net defaults :
  benchmarkSolution ul dir warmup duration net defaults
  = (with_container ul dir net (benchmark_body warmup duration defaults) : io W _).
Proof. done. Qed.

Lemma quiet_bench {A} (op : W -> result derror A * W) : quiet (bench op).
Proof. intros w. unfold bench. by destruct (op w.1). Qed.
#[local] Hint Resolve quiet_bench : calls.

Lemma quiet_run_scenarios url cfgs acc : quiet (run_scenarios url cfgs acc : io W _).
Proof.
  revert acc. induction cfgs as [|cfg cfgs IH]; intros acc; cbn; [done|].
  apply quiet_bind; [auto with calls|]. intros []; [|done]. by apply quiet_bind.
Qed.

Lemma quiet_benchmark_body warmup duration defaults m url :
  quiet (benchmark_body warmup duration defaults m url).
Proof.
  unfold benchmark_body, measure. apply quiet_bind; [auto with calls|]. intros _.
  apply quiet_bind; [auto with calls|]. intros _. cbv zeta.
  apply quiet_bind; [|auto with calls]. apply quiet_bind; [apply quiet_run_scenarios|].
  intros [results []]; auto with calls. 
Qed.

Lemma emits_write_report report : emits keeps_network (write_report report : io W ending).
Proof.
  unfold write_report. apply emits_bind; [by apply emits_try, emits_call|]. intros _. cbv zeta.
  apply emits_bind; [|intros _; apply emits_bind; [by apply emits_try, emits_call|]].
  2: intros _; apply emits_bind; [by apply emits_call|auto with calls].
  apply emits_try. unfold WriteJSON. destruct (report_json report); [by apply emits_call|auto with calls].
Qed.

Lemma emits_main_body dirs warmup duration vo net :
  emits keeps_network (main_body ul dirs warmup duration vo net : io W ending).
Proof.
  unfold main_body. destruct vo.
  - apply emits_bind; [|auto with calls]. induction dirs as [|dir dirs IH]; cbn; [auto with calls|].
    apply emits_bind; [|auto with calls]. apply emits_try. rewrite validateSolution_eq.
    apply emits_with_container, quiet_validate_body.
  - apply emits_bind; [auto with calls|]. intros now. apply emits_bind; [|auto using emits_write_report].
    generalize defaultScenarios. induction dirs as [|dir dirs IH]; intros defaults; cbn; [auto with calls|].
    apply emits_bind.
    + apply emits_try. rewrite benchmarkSolution_eq. apply emits_with_container.
      intros. apply quiet_benchmark_body.
    + intros [[result defaults']|]; auto with calls.
Qed.

(** ** Results *)

(** All of these scenarios ran, in order, each from where the pause after the
    one before it left off, and these are their results. *)
Inductive ran (url : string) : list scenarioCfg -> W -> list ScenarioResult -> W -> Prop :=
| ran_nil w : ran url [] w [] w
| ran_cons cfg cfgs w sc w1 results w2 :
    b_runScenario url cfg w = (Ok sc, w1) -> ran url cfgs (h_sleep (2 * second) w1) results w2 ->
    ran url (cfg :: cfgs) w (sc :: results) w2.

Lemma run_scenarios_spec url cfgs acc (w : W * list devent) :
  exists before after results w1, cfgs = before ++ after /\ ran url before w.1 results w1 /\
    match after with
    | [] => run_scenarios url cfgs acc w = (Ok (acc ++ results, false), (w1, w.2))
    | cfg :: _ => exists e w2, b_runScenario url cfg w1 = (Err e, w2) /\
        run_scenarios url cfgs acc w = (Ok (acc ++ results, true), (w2, w.2))
    end.
Proof.
  revert acc w. induction cfgs as [|cfg cfgs IH]; intros acc w.
  - exists [], [], [], w.1. split_and!; [done|constructor|]. rewrite app_nil_r. by destruct w.
  - assert (run_scenarios url (cfg :: cfgs) acc w =
      match b_runScenario url cfg w.1 with
      | (Ok sc, w1) => run_scenarios url cfgs (acc ++ [sc]) (h_sleep (2 * second) w1, w.2)
      | (Err _, w1) => (Ok (acc, true), (w1, w.2))
      end) as Hrun.
    { cbn [run_scenarios]. unfold mbind, io_bind, try_io, bench. by destruct (b_runScenario url cfg w.1) as [[] ?]. }
    destruct (b_runScenario url cfg w.1) as [[sc|e] w1] eqn:E.
    + destruct (IH (acc ++ [sc]) (h_sleep (2 * second) w1, w.2)) as (before & after & results & w2 & -> & Hr & H).
      exists (cfg :: before), after, (sc :: results), w2. split_and!; [done|by econstructor|].
      cbn [app] in *. rewrite Hrun. rewrite <- app_assoc in H. exact H.
    + exists [], (cfg :: cfgs), [], w.1. split_and!; [done|constructor|]. exists e, w1.
      by rewrite app_nil_r.
Qed.

End network.

(** ** Archives *)

(** What an item of the walk contributes, or the error it stops the walk with. *)
Definition item_entry (dir : string) (item : walk_item) : result string tar_entry :=
  match item.(wi_err) with
  | Some e => Err e
  | None =>
      _ ← item.(wi_header);
      if item.(wi_dir) then Ok (path_rel dir item.(wi_path), None)
      else content ← item.(wi_data); Ok (path_rel dir item.(wi_path), Some content)
  end.

Lemma tar_walk_cons dir item items :
  tar_walk dir (item :: items) =
  (entry ← item_entry dir item; rest ← tar_walk dir items; Ok (entry :: rest)).
Proof.
  cbn [tar_walk]. unfold item_entry.
  by destruct (wi_err item), (wi_header item), (wi_dir item), (wi_data item).
Qed.

Lemma tar_walk_spec dir items :
  match tar_walk dir items with
  | Ok entries => Forall2 (fun item entry => item_entry dir item = Ok entry) items entries
  | Err e => exists pre item post, items = pre ++ item :: post /\
      Forall (fun i => is_ok (item_entry dir i) = true) pre /\ item_entry dir item = Err e
  end.
Proof.
  induction items as [|item items IH]; [by constructor|]. rewrite tar_walk_cons.
  destruct (item_entry dir item) as [entry|e] eqn:E; cbn.
  - destruct (tar_walk dir items) as [rest|e]; cbn; [by constructor|].
    destruct IH as (pre & i & post & -> & Hp & Hi). exists (item :: pre), i, post.
    split_and!; [done| |done]. constructor; [by rewrite E|done].
  - by exists [], item, items.
Qed.
