(* ===== verification/RunnerTheorems.v ===== *)
(** * What a benchmark run does to the machine it runs on *)

From S2P Require Import Prelude Utf8 Json JsonFacts GoTime LockSpec InMemory Http HttpFacts Validate.
From S2P Require Import Scenarios Float64 Format Measure Docker Reporter Runner RunnerFacts.
From stdpp Require Import options.
Local Open Scope Z_scope.

(** ** A small host for the witnesses

    Its state is the clock and the in-memory server of the container. Files,
    builds and networks work; [ready] says when the service is up, by default
    from the instant 10 s on.
    [starts] says whether containers start, [indocker] whether the runner is
    inside one. *)
Definition manifest_text : string := print (JObj [("name", JStr "Go X"); ("port", JNum "8080")]).

Definition demo_world : Type := Z * (nat * InMemory.store).
Definition tick (d : Z) (w : demo_world) : demo_world := (w.1 + Z.max 0 d, w.2).
Definition demo_http (ready : Z -> bool) (r : request) (w : demo_world) : result net_error reply * demo_world :=
  if ready w.1 then
    let '(res, w') := @client_Do _ (serve_transport (fun _ => 0) (fun _ => insertion_order)) r w.2 in
    (res, (w.1, w'))
  else (Err ErrConnection, w).

Definition demo_host_when (ready : Z -> bool) (starts indocker : bool) : Host demo_world := {|
  h_now w := w.1;
  h_wait d w := (true, tick d w);
  h_sleep := tick;
  h_getenv _ _ := "abc";
  h_ReadFile _ _ := Ok manifest_text;
  h_Stat p _ := if String.eqb p "/.dockerenv" then (if indocker then Ok false else Err "none") else Ok true;
  h_ReadDir _ _ := Ok [];
  h_NewClient _ := Ok ();
  h_Walk dir _ := [mkWalkItem dir None true (Ok ()) (Err "is a directory");
                   mkWalkItem (dir +:+ "/Dockerfile") None false (Ok ()) (Ok "FROM scratch")];
  h_tar _ := Ok "tar";
  h_ImageBuild _ _ w := (Ok "{}", w);
  h_ContainerCreate _ w := (Ok "c1", w);
  h_ContainerStart _ w := (if starts then Ok () else Err "no", w);
  h_ContainerInspect _ _ w := (Ok ["49153"], w);
  h_ContainerStop _ _ w := (Ok (), w);
  h_ContainerRemove _ w := (Ok (), w);
  h_NetworkCreate _ w := (Ok "n1", w);
  h_NetworkRemove _ w := (Ok (), w);
  h_NetworkConnect _ _ w := (Ok (), w);
  h_MkdirAll _ w := (Ok (), w);
  h_WriteFile _ _ w := (Ok (), w);
  h_http _ := demo_http ready
|}.
Definition demo_host : bool -> bool -> Host demo_world := demo_host_when (fun t => 10 * second <=? t).

Lemma demo_clock starts indocker : @HostClock demo_world (demo_host starts indocker).
Proof.
  split; cbn; try lia. intros url r w. unfold client_Do, demo_http.
  destruct (_ <=? _); [|cbn; lia]. case_match; cbn; lia.
Qed.

Definition demo_start : demo_world * list devent := ((5 * second, (0%nat, InMemory.newStore)), []).

Definition named (id : string) : ScenarioResult :=
  mkScenarioResult id 0 0 (S754_zero false) (S754_zero false) (S754_zero false) (S754_zero false)
    (S754_zero false) (S754_zero false) (S754_zero false) 0.
Definition demo_bench : Bench demo_world := {|
  b_runScenario _ cfg w := (Ok (named (ID cfg)), w);
  b_runListHeavy _ _ _ w := (Ok (named "list_heavy"), w)
|}.

Definition same (r : N) : N := r.

(** * The properties *)

(** C7: what becomes of the container. Whatever the daemon, the file system and
    the service do, the recorded calls of validateSolution and of
    benchmarkSolution, with their outcomes, are one of these: none; the build
    only; the build and an attempt to create and start a container that was
    not handed over, after which nothing stops or removes it, be it created
    and not started or, without a network, even running with a host port that
    could not be found out; or the build, the creation and the start of a
    container, and then, on success and on every error alike, as the last calls
    and once, the stop of exactly this container and, if the stop succeeded,
    its removal. A run succeeds in the last case only. *)
Theorem container_lifecycle {W} `{!Host W} `{!Bench W} ul dir net warmup duration defaults w :
  (let '(r, w') := validateSolution ul dir net w in
   exists evs, w'.2 = w.2 ++ evs /\ lifecycle net (is_ok r) evs) /\
  (let '(r, w') := benchmarkSolution ul dir warmup duration net defaults w in
   exists evs, w'.2 = w.2 ++ evs /\ lifecycle net (is_ok r) evs).
Proof.
  split.
  - rewrite validateSolution_eq. destruct (with_container _ _ _ _ w) as [r w'] eqn:E.
    eapply with_container_lifecycle; [|exact E]. apply quiet_validate_body.
  - rewrite benchmarkSolution_eq. destruct (with_container _ _ _ _ w) as [r w'] eqn:E.
    eapply with_container_lifecycle; [|exact E]. intros. apply quiet_benchmark_body.
Qed.

(** C31: a reported pass is a pass. validateSolution returns no error only when
    the container was started, its health check answered 200 and validateSpec
    accepted the service at the container's own base URL. *)
Theorem pass_is_validated {W} `{HC : HostClock W} ul dir net (w w' : W * list devent) :
  validateSolution ul dir net w = (Ok (), w') ->
  exists manifest tag w1 id url w2 wh w3,
    start_solution ul manifest tag net w1 = (Ok (id, url), w2) /\
    (exists wp, healthz url wp = (Ok true, wh)) /\
    @validateSpec W (h_http url) wh.1 = (Ok (), w3).
Proof.
  rewrite validateSolution_eq. intros H.
  destruct (with_container_lifecycle ul dir net validate_body w _ w' quiet_validate_body H) as [_ Hok].
  destruct (Hok eq_refl) as (m & tag & w1 & id & url & w2 & w3 & a & _ & Hs & Hb).
  unfold validate_body in Hb.
  destruct (WaitHealthy url (timeout_of m) w2) as [[u|e] wh] eqn:Ew.
  2: { erewrite io_bind_Err in Hb by (unfold wrapped; by rewrite Ew). done. }
  erewrite io_bind_Ok in Hb by (unfold wrapped; by rewrite Ew).
  pose proof (poll_health_outcome (poll_fuel (startup_timeout (timeout_of m))) url (timeout_of m)
    (h_now w2.1 + startup_timeout (timeout_of m)) (100 * millisecond) w2) as Ho.
  change (poll_health _ _ _ _ _ w2) with (WaitHealthy url (timeout_of m) w2) in Ho. rewrite Ew in Ho.
  unfold spec_check in Hb.
  destruct (@validateSpec W (h_http url) wh.1) as [[[]|] wv] eqn:Ev; [|done].
  exists m, tag, w1, id, url, w2, wh, wv. split_and!; [done| |done].
  apply Ho; [lia| |unfold poll_fuel; lia].
  pose proof (poll_fuel_enough (startup_timeout (timeout_of m))). lia.
Qed.

Lemma pass_is_validated_witness :
  exists manifest tag w1 id url w2 wh w3,
    @start_solution _ (demo_host true false) same manifest tag "" w1 = (Ok (id, url), w2) /\
    (exists wp, @healthz _ (demo_host true false) url wp = (Ok true, wh)) /\
    @validateSpec _ (@h_http _ (demo_host true false) url) wh.1 = (Ok (), w3).
Proof.
  eapply (@pass_is_validated _ (demo_host true false) (demo_clock true false) same "solutions/x" "" demo_start).
  vm_compute. reflexivity.
Defined.

(** C32: the waits end. With a clock that advances by every wait that is not
    cut short, WaitHealthy always returns: without an error only after a health
    check that answered 200, with a timeout error only after the time allowed,
    or because the context ended; and the inspect loop of RunContainer always
    returns too. The time allowed is the product of timeoutMs and a million as
    an int64, which is the number of milliseconds asked for up to 9223372036854
    and wraps around beyond. The fuel of the two loops, two polls more than the
    time allowed has tenths of a second, is never used up. *)
Theorem waits_end {W} `{HC : HostClock W} url timeoutMs tag containerPort (w : W * list devent) :
  (let '(r, w') := WaitHealthy url timeoutMs w in
   health_outcome url timeoutMs (h_now w.1 + wrap64 (timeoutMs * millisecond)) r w') /\
  (0 <= timeoutMs <= 9223372036854 -> wrap64 (timeoutMs * millisecond) = timeoutMs * millisecond) /\
  (RunContainer tag containerPort w).1 <> Err (Msg "out of fuel").
Proof.
  split_and!.
  - apply (poll_health_outcome (poll_fuel (startup_timeout timeoutMs))); [lia| |unfold poll_fuel; lia].
    pose proof (poll_fuel_enough (startup_timeout timeoutMs)). unfold startup_timeout in *. lia.
  - intros H. apply wrap64_id. unfold millisecond. lia.
  - unfold RunContainer. cbv zeta. apply wrapped_bind_err. intros id w1.
    apply wrapped_bind_err. intros _ w2.
    rewrite (io_bind_Ok (ask h_now) _ w2 (h_now w2.1) w2 eq_refl).
    apply await_port_fuel; [|unfold poll_fuel; lia]. pose proof (poll_fuel_enough (5 * second)). lia.
Qed.

Lemma waits_end_witness :
  (let '(r, w') := @WaitHealthy _ (demo_host true false) "u" 7000 demo_start in
   @health_outcome _ (demo_host true false) "u" 7000 (12 * second) r w') /\
  wrap64 (7000 * millisecond) = 7 * second /\
  (@RunContainer _ (demo_host true false) "t" 8080 demo_start).1 <> Err (Msg "out of fuel").
Proof.
  destruct (@waits_end _ (demo_host true false) (demo_clock true false) "u" 7000 "t" 8080 demo_start) as (H1 & H2 & H3).
  split; [exact H1|]. split; [exact (H2 ltac:(lia))|exact H3].
Defined.

(** A timeout of a hundred thousand years is over at once. *)
Example timeout_wraps : startup_timeout 9300000000000 < 0.
Proof. reflexivity. Qed.

(** C33: the build log is read to the end. For every output of the daemon the
    decode loop of BuildImage stops without using up its fuel; it reports
    success exactly on a stream of messages without errors that ends cleanly,
    and a build error with the first error message and all the output up to
    and including it. *)
Theorem build_output_read (out : string) :
  drained out "" (drain_build (S (String.length out)) out "").
Proof. apply drain_build_spec. lia. Qed.

(** C35: the benchmark network. Inside Docker, once the network has been
    created, main asks for its removal exactly when it returns normally, as its
    last call and once; whether the daemon removes it makes no difference to
    how main ends. Every such return comes after the runner connected itself
    to the network, and no call takes that connection back. Every [os.Exit]
    after the creation (the runner could not be connected, or a solution failed
    validation) does not even ask for the removal. *)
Theorem network_cleanup {W} `{!Host W} `{!Bench W} ul dirs warmup duration vo (w : W * list devent)
    networkID name w1 e w' :
  is_ok (h_Stat "/.dockerenv" w.1) = true -> CreateBenchmarkNetwork w = (Ok (networkID, name), w1) ->
  main_network ul dirs warmup duration vo w = (Ok e, w') ->
  exists calls, Forall (fun ev => keeps_network ev.1) calls /\
    match e with
    | Returned _ => exists host rest removed,
        calls = (CNetConnect networkID host, true) :: rest /\ w'.2 = w1.2 ++ calls ++ [(CNetRemove networkID, removed)]
    | Exit _ => w'.2 = w1.2 ++ calls
    end.
Proof.
  intros Hd Hc H. unfold main_network, isRunningInDocker in H.
  erewrite io_bind_Ok in H by (unfold mbind, io_bind, ask, mret, io_ret; reflexivity).
  rewrite Hd in H. erewrite io_bind_Ok in H by (unfold try_io; by rewrite Hc).
  unfold deferred_main in H. unfold mbind at 1, io_bind at 1, try_io at 1 in H.
  destruct (ConnectSelfToNetwork networkID w1) as [r w2] eqn:Ec.
  pose proof (connect_events networkID w1) as Hconn. rewrite Ec in Hconn. destruct r as [u|err].
  2: { injection H as <- <-. destruct Hconn as (evs & E & Hev). by exists evs. }
  destruct Hconn as (host & Econn).
  destruct (emits_main_body ul dirs warmup duration vo name w2) as (l & El & Hl).
  destruct (main_body ul dirs warmup duration vo name w2) as [[[c|rep]|err] w3]; cbn in El; [| |done];
    injection H as <- <-; (exists ((CNetConnect networkID host, true) :: l)); (split; [by constructor|]).
  - by rewrite El, Econn, <- app_assoc.
  - exists host, l. unfold RemoveNetwork. rewrite call_events, El, Econn. eexists. split; [done|].
    by rewrite <- !app_assoc.
Qed.

Lemma network_cleanup_witness :
  exists calls, Forall (fun ev => keeps_network ev.1) calls /\
    exists host rest removed, calls = (CNetConnect "n1" host, true) :: rest /\
    (@main_network _ (demo_host true true) demo_bench same ["d"] 0 0 true demo_start).2.2
    = [(CNetCreate "dl-benchmark-5000", true)] ++ calls ++ [(CNetRemove "n1", removed)].
Proof.
  apply (@network_cleanup _ (demo_host true true) demo_bench same ["d"] 0 0 true demo_start "n1"
           "dl-benchmark-5000" (demo_start.1, [(CNetCreate "dl-benchmark-5000", true)]) (Returned None)).
  - reflexivity.
  - vm_compute. reflexivity.
  - vm_compute. reflexivity.
Defined.

(** C36: the results are those of the scenarios that ran. Some first part of
    the configured scenarios ran, one after the other with a pause after each,
    and all of them returned a result. If there is a next one, it failed, and
    the results are exactly those of the first part: no further scenario is
    run, list_heavy included. If there is none, list_heavy was run too, and
    its result comes last unless it failed. *)
Theorem results_in_order {W} `{!Host W} `{!Bench W} url warmup duration cfgs (w : W * list devent) :
  exists before after results w1, cfgs = before ++ after /\ ran url before w.1 results w1 /\
    measure url warmup duration cfgs w =
    match after with
    | cfg :: _ => (Ok results, ((b_runScenario url cfg w1).2, w.2))
    | [] =>
        (Ok (results ++ match (b_runListHeavy url warmup duration w1).1 with Ok sc => [sc] | Err _ => [] end),
         ((b_runListHeavy url warmup duration w1).2, w.2))
    end /\
    match after with cfg :: _ => is_ok (b_runScenario url cfg w1).1 = false | [] => True end.
Proof.
  destruct (run_scenarios_spec url cfgs [] w) as (before & after & results & w1 & E & Hr & H).
  exists before, after, results, w1. split; [done|]. split; [done|]. unfold measure. destruct after as [|cfg after].
  - rewrite (io_bind_Ok _ _ _ _ _ H). cbn [app]. unfold mbind, io_bind, try_io, bench. cbn [fst snd].
    destruct (b_runListHeavy url warmup duration w1) as [[sc|err] w2]; [done|]. by rewrite app_nil_r.
  - destruct H as (e & w2 & Ee & H). rewrite (io_bind_Ok _ _ _ _ _ H), Ee. done.
Qed.

(** The build context is the whole directory. When the walk of
    createTarball succeeds, the archive has exactly one member per path found,
    in the order of the walk, named relative to the directory, with the file's
    content or as a directory; otherwise the error is that of the first path
    that failed. *)
Theorem archive_is_the_tree dir items :
  match tar_walk dir items with
  | Ok entries => Forall2 (fun item entry => item_entry dir item = Ok entry) items entries
  | Err e => exists pre item post, items = pre ++ item :: post /\
      Forall (fun i => is_ok (item_entry dir i) = true) pre /\ item_entry dir item = Err e
  end.
Proof. apply tar_walk_spec. Qed.
