(* ===== verification/ReporterTheorems.v ===== *)
(** * What the reports say *)

From S2P Require Import Prelude Utf8 Json JsonFacts GoTime LockSpec InMemory Http HttpFacts Validate ValidateFacts.
From S2P Require Import Scenarios ScenarioFacts ScenarioTheorems Float64 Float64Facts Format FormatFacts Stats Measure MeasureFacts.
From S2P Require Import MeasureTheorems Docker Reporter ReporterFacts Runner RunnerFacts RunnerTheorems.
From stdpp Require Import options.
Local Open Scope Z_scope.

(** ** A report for the witnesses *)

Definition demo_result (id : string) : ScenarioResult :=
  mkScenarioResult id 3 1500 (of_int 2) (ms 1250000) (ms 2345678) (ms 2345678) (ms 9000001)
    fzero (share 1 3) (-1).
Definition demo_report : Report :=
  mkReport "2026-05-03T21:24:55Z"
    [mkSolutionResult "Go In-Memory" [demo_result "sequential"; demo_result "contention"];
     mkSolutionResult "Bun" [demo_result "sequential"]].

(** What a run can report: results of scenarios, under valid names. *)
Definition reportable (report : Report) : Prop :=
  utf8 (Timestamp report) /\
  Forall (fun sol => utf8 (srName sol) /\
    Forall (fun sc => sound_result sc /\ utf8 (ScenarioID sc) /\ LeakedLocks sc < 2 ^ 63) (srScenarios sol))
    (Solutions report).

Lemma reportable_writable report : reportable report -> writable report.
Proof.
  intros [Ht Hs]. split; [done|]. eapply Forall_impl; [exact Hs|]. intros sol [Hn Hr]. split; [done|].
  eapply Forall_impl; [exact Hr|]. intros sc ([_ Hq _ _ [H1 H2] H3] & Hid & Hl). split; [done| |done].
  repeat (apply Forall_cons; split; [lia|]). constructor.
Qed.

Lemma demo_result_sound id : sound_result (demo_result id).
Proof.
  destruct (ms_spec 1250000) as (_ & V1 & _ & _ & Q1); [lia|]. destruct (ms_spec 2345678) as (_ & V2 & _ & _ & Q2); [lia|].
  destruct (ms_spec 9000001) as (_ & V3 & _ & _ & Q3); [lia|].
  destruct (share_quantity 1 3) as (V4 & Q4 & H4 & _); [lia|lia|].
  assert (quantity 64 (of_int 2) (2 * one)) as Q0 by (by apply of_int_exact).
  assert (forall f b V, 0 <= b <= 200 -> quantity b f V -> exists V', quantity 200 f V') as Hq
    by (intros f b V Hb Q; exists V; by apply (quantity_mono b)).
  assert (exists V, quantity 200 fzero V) as Qz by (exists 0; by left).
  split; unfold demo_result, numbers; cbn -[of_int ms share].
  - repeat (apply Forall_cons; split; [split; vm_compute; reflexivity|]). constructor.
  - repeat (apply Forall_cons; split; [first [exact Qz|eapply Hq; [|eassumption]; lia]|]). constructor.
  - split_and!; vm_compute; reflexivity.
  - split; vm_compute; reflexivity.
  - lia.
  - lia.
Qed.

Lemma demo_reportable : reportable demo_report.
Proof.
  assert (forall id, ascii_only id = true ->
    sound_result (demo_result id) /\ utf8 id /\ LeakedLocks (demo_result id) < 2 ^ 63) as Hsc.
  { intros id Hid. split_and!; [apply demo_result_sound|by apply utf8_ascii|cbn; lia]. }
  split; [by apply utf8_ascii|].
  repeat (apply Forall_cons; split; [split; [by apply utf8_ascii|]|]); [| |constructor].
  all: repeat (apply Forall_cons; split; [by apply Hsc|]); constructor.
Qed.

(** ** The report of a run *)

(** Every value a program returns satisfies [P]. *)
Definition returns {W A} (P : A -> Prop) (m : io W A) : Prop :=
  forall w a w', m w = (Ok a, w') -> P a.

Lemma returns_bind {W A B} (P : A -> Prop) (Q : B -> Prop) (m : io W A) (k : A -> io W B) :
  returns P m -> (forall a, P a -> returns Q (k a)) -> returns Q (m ≫= k).
Proof.
  intros Hm Hk w b w'. unfold mbind, io_bind. destruct (m w) as [[a|e] w1] eqn:E; [|done].
  apply Hk. by eapply Hm.
Qed.

Lemma returns_any {W A} (m : io W A) : returns (fun _ => True) m.
Proof. done. Qed.

Lemma returns_ret {W A} (P : A -> Prop) (a : A) : P a -> returns P (mret a : io W A).
Proof. intros Ha w b w' [= <- _]. done. Qed.

Lemma returns_deferred {W A B} (P : A -> Prop) (g : io W B) (m : io W A) :
  returns P m -> returns P (deferred g m).
Proof. intros Hm w a w'. unfold deferred. destruct (m w) as [r w1] eqn:E. intros [= -> _]. by eapply Hm. Qed.

Lemma returns_try {W A} (P : A -> Prop) (m : io W A) :
  returns P m -> returns (fun r => forall a, r = Ok a -> P a) (try_io m).
Proof.
  intros Hm w r w'. unfold try_io. destruct (m w) as [r1 w1] eqn:E. intros [= <- _] a ->. by eapply Hm.
Qed.

(** A result that can be reported. *)
Definition good_result (sc : ScenarioResult) : Prop :=
  sound_result sc /\ utf8 (ScenarioID sc) /\ LeakedLocks sc < 2 ^ 63.
Definition good_solution (sol : SolutionResult) : Prop :=
  utf8 (srName sol) /\ Forall good_result (srScenarios sol).

(** What the runner relies on from the load generator; [results_sound] shows it
    of [runScenario] and [runListHeavy]. *)
Class SoundBench (W : Type) `{!Bench W} : Prop := {
  sb_scenario url cfg (w : W) sc w' : b_runScenario url cfg w = (Ok sc, w') -> good_result sc;
  sb_list_heavy url warmup duration (w : W) sc w' :
    b_runListHeavy url warmup duration w = (Ok sc, w') -> good_result sc
}.

(** What the report relies on from the file system: a file holds what was
    written to it when the write succeeded, a write leaves the other files
    alone, and so does the removal of a network. *)
Class HostFiles (W : Type) `{!Host W} : Prop := {
  hf_write path data (w w' : W) : h_WriteFile path data w = (Ok (), w') -> h_ReadFile path w' = Ok data;
  hf_other path data other (w : W) : other <> path ->
    h_ReadFile other (h_WriteFile path data w).2 = h_ReadFile other w;
  hf_network id path (w : W) : h_ReadFile path (h_NetworkRemove id w).2 = h_ReadFile path w
}.

Section run.
Context {W : Type} `{!Host W, !Bench W, SB : !SoundBench W, HF : !HostFiles W} (ul : N -> N).

Lemma manifest_utf8 dir : returns (fun m => utf8 (smName m)) (load_manifest dir : io W _).
Proof.
  unfold load_manifest. eapply returns_bind; [apply returns_any|]. intros data _.
  unfold Unmarshal. destruct (parse data) as [v r| |] eqn:E; [|by intros w a w' [=]..].
  destruct (String.eqb _ _); [|by intros w a w' [=]].
  destruct ((decode_manifest v).2); [by intros w a w' [=]|]. apply returns_ret.
  apply (decode_struct_ind (fun m => utf8 (smName m))); [by apply utf8_ascii| |by eapply parse_utf8].
  intros m f j Hm Hj. unfold set_manifest. repeat case_match; cbn; auto using set_string_utf8.
Qed.

Lemma run_scenarios_good url cfgs : forall acc,
  Forall good_result acc -> returns (fun r => Forall good_result r.1) (run_scenarios url cfgs acc : io W _).
Proof using SB.
  induction cfgs as [|cfg cfgs IH]; intros acc Hacc; [by apply returns_ret|]. cbn [run_scenarios].
  eapply (returns_bind (fun r => forall sc, r = Ok sc -> good_result sc)).
  - apply returns_try. intros w sc w'. unfold bench.
    destruct (b_runScenario url cfg w.1) as [r w1] eqn:E. intros [= -> _]. by eapply sb_scenario.
  - intros [sc|e] Hsc; [|by apply returns_ret]. eapply returns_bind; [apply returns_any|]. intros _ _.
    apply IH, Forall_app. split; [done|]. apply Forall_singleton. auto.
Qed.

Lemma measure_good url warmup duration cfgs :
  returns (Forall good_result) (measure url warmup duration cfgs : io W _).
Proof using SB.
  unfold measure. eapply returns_bind; [by apply run_scenarios_good|]. intros [results []] Hr; [by apply returns_ret|].
  eapply (returns_bind (fun r => forall sc, r = Ok sc -> good_result sc)).
  - apply returns_try. intros w sc w'. unfold bench.
    destruct (b_runListHeavy url warmup duration w.1) as [r w1] eqn:E. intros [= -> _]. by eapply sb_list_heavy.
  - intros [sc|e] Hsc; apply returns_ret; [|done]. apply Forall_app. split; [done|]. apply Forall_singleton. auto.
Qed.

Lemma benchmarkSolution_good dir warmup duration net defaults :
  returns (fun r => good_solution r.1) (benchmarkSolution ul dir warmup duration net defaults : io W _).
Proof using SB.
  unfold benchmarkSolution. eapply returns_bind; [apply manifest_utf8|]. intros m Hm. cbv zeta.
  eapply returns_bind; [apply returns_any|]. intros _ _.
  eapply returns_bind; [apply returns_any|]. intros [id url] _. apply returns_deferred.
  do 2 (eapply returns_bind; [apply returns_any|]; intros _ _).
  eapply returns_bind; [apply measure_good|]. intros results Hr. by apply returns_ret.
Qed.

Lemma benchmark_all_good dirs warmup duration net : forall defaults,
  returns (Forall good_solution) (benchmark_all ul dirs warmup duration net defaults : io W _).
Proof using SB.
  induction dirs as [|dir dirs IH]; intros defaults; [by apply returns_ret|]. cbn [benchmark_all].
  eapply returns_bind; [apply returns_try, benchmarkSolution_good|].
  intros [[result defaults']|e] Hr; [|apply IH]. eapply returns_bind; [apply IH|]. intros rest Hrest.
  apply returns_ret. constructor; [by apply (Hr (result, defaults'))|done].
Qed.

(** Where the report goes. *)
Definition report_base (report : Report) : string := "../results/benchmark-" +:+ stamp (Timestamp report).

(** The calls of [write_report], with outcomes. *)
Definition report_events (report : Report) (data : string) (made json md : bool) : list devent :=
  [(CMkdir "../results", made); (CWrite (report_base report +:+ ".json") data, json);
   (CWrite (report_base report +:+ ".md") (markdown report), md); (CPrint (summary report), true)].

(** What the files hold that were written. *)
Definition files_hold (report : Report) (data : string) (json md : bool) (w : W) : Prop :=
  (json = true -> h_ReadFile (report_base report +:+ ".json") w = Ok data) /\
  (md = true -> h_ReadFile (report_base report +:+ ".md") w = Ok (markdown report)).

Lemma write_report_events report (w : W * list devent) :
  reportable report -> exists data made json md w',
    write_report report w = (Ok (Returned (Some report)), w') /\
    w'.2 = w.2 ++ report_events report data made json md /\
    load_report data = Some report /\ files_hold report data json md w'.1.
Proof using HF.
  intros H%reportable_writable. destruct (report_conveys report H) as (v & E & Hv).
  unfold write_report, WriteJSON, WriteMarkdown, PrintSummary. rewrite E. cbv zeta. fold (report_base report).
  set (base := report_base report).
  assert (base +:+ ".json" <> base +:+ ".md") as Hne by (intros Heq; by apply (inj (String.app base)) in Heq).
  destruct (h_MkdirAll "../results" w.1) as [r1 w1] eqn:E1.
  destruct (h_WriteFile (base +:+ ".json") (print_indent 0 v) w1) as [r2 w2] eqn:E2.
  destruct (h_WriteFile (base +:+ ".md") (markdown report) w2) as [r3 w3] eqn:E3.
  exists (print_indent 0 v), (is_ok r1), (is_ok r2), (is_ok r3), (w3, w.2 ++ report_events report (print_indent 0 v) (is_ok r1) (is_ok r2) (is_ok r3)).
  split_and!; [|done|by apply load_printed|].
  - unfold mbind, io_bind, try_io, call. rewrite E1. destruct r1; cbn [fst snd]; rewrite E2;
      destruct r2; cbn [fst snd]; rewrite E3; destruct r3; cbn [fst snd]; by rewrite <- !app_assoc.
  - split; cbn [fst]; intros Hok.
    + pose proof (hf_other (base +:+ ".md") (markdown report) (base +:+ ".json") w2 Hne) as Ho. rewrite E3 in Ho. cbn [snd] in Ho.
      fold base. rewrite Ho. destruct r2 as [[]|]; [|done]. by apply hf_write in E2.
    + destruct r3 as [[]|]; [|done]. by apply hf_write in E3.
Qed.

Lemma main_body_report dirs warmup duration vo net (w : W * list devent) report w' :
  main_body ul dirs warmup duration vo net w = (Ok (Returned (Some report)), w') ->
  reportable report /\ exists w0, write_report report w0 = (Ok (Returned (Some report)), w').
Proof using SB HF.
  unfold main_body. destruct vo.
  { unfold mbind, io_bind. destruct (validate_all _ _ _ _) as [[failed|e] w1]; [|done].
    cbn. by destruct (0 <? failed). }
  rewrite (io_bind_Ok (ask h_now) _ w (h_now w.1) w eq_refl).
  destruct (benchmark_all ul dirs warmup duration net defaultScenarios w) as [[sols|e] w1] eqn:E.
  2: by rewrite (io_bind_Err _ _ _ _ _ E).
  rewrite (io_bind_Ok _ _ _ _ _ E). apply benchmark_all_good in E.
  assert (reportable (mkReport (rfc3339 (h_now w.1)) sols)) as Hr
    by (split; [apply utf8_ascii, ascii_only_rfc3339|exact E]).
  destruct (write_report_events _ w1 Hr) as (data & b1 & b2 & b3 & w2 & Ew & _). rewrite Ew. intros [= <- <-]. eauto.
Qed.

(** C15: a benchmark run leaves its report behind. When main returns with a
    report, the last thing it did before asking for the removal of its network
    was to create the results directory, to write a JSON and a Markdown file
    named after the report's time, and to print the summary. Marshalling never
    fails: the JSON text is one from which exactly this report can be read back,
    every name, every count and every bit of every floating-point number. Each
    of the two files whose write succeeded then holds its text when main has
    returned. A write that fails, like a directory that cannot be made, is only
    noted in the outcomes: main still prints the summary and returns. *)
Theorem report_written args warmup duration vo (w : W * list devent) report w' :
  main ul args warmup duration vo w = (Ok (Returned (Some report)), w') ->
  exists data made json md before after,
    w'.2 = before ++ report_events report data made json md ++ after /\
    load_report data = Some report /\ files_hold report data json md w'.1 /\
    (after = [] \/ exists id removed, after = [(CNetRemove id, removed)]).
Proof using SB HF.
  assert (forall dirs net w1 w2, main_body ul dirs warmup duration vo net w1 = (Ok (Returned (Some report)), w2) ->
    exists data made json md before, w2.2 = before ++ report_events report data made json md /\
      load_report data = Some report /\ files_hold report data json md w2.1) as Hbody.
  { intros dirs net w1 w2 (Hr & w0 & Hw)%main_body_report.
    destruct (write_report_events report w0 Hr) as (data & made & json & md & w3 & E & Hc & Hl & Hf).
    rewrite Hw in E. injection E as <-. by exists data, made, json, md, w0.2. }
  intros H. unfold main in H. destruct args as [|arg args]; [done|].
  unfold mbind at 1, io_bind at 1, try_io at 1 in H.
  destruct (discover_all (arg :: args) w) as [[[|dir dirs]|e] w1]; [done| |done].
  unfold mbind at 1, io_bind at 1, try_io at 1 in H. destruct (read h_NewClient w1) as [[u|e] w2]; [|done].
  unfold main_network in H. unfold mbind at 1, io_bind at 1 in H.
  destruct (isRunningInDocker w2) as [[[]|e] w3]; [| |done].
  - unfold mbind at 1, io_bind at 1, try_io at 1 in H.
    destruct (CreateBenchmarkNetwork w3) as [[[id name]|e] w4]; [|done]. unfold deferred_main in H.
    unfold mbind at 1, io_bind at 1, try_io at 1 in H.
    destruct (ConnectSelfToNetwork id w4) as [[u'|e] w5]; [|done].
    destruct (main_body ul (dir :: dirs) warmup duration vo name w5) as [[[c|r]|e] w6] eqn:E; [done| |done].
    injection H as -> <-. destruct (Hbody _ _ _ _ E) as (data & made & json & md & before & Hc & Hl & Hf).
    exists data, made, json, md, before. eexists. split_and!; [|done| |right; eexists _, _; reflexivity].
    + unfold RemoveNetwork. by rewrite call_events, Hc, <- app_assoc.
    + assert ((RemoveNetwork id w6 : result derror unit * (W * list devent)).2.1 = (h_NetworkRemove id w6.1).2) as ->.
      { unfold RemoveNetwork, wrapped, call. by destruct (h_NetworkRemove id w6.1) as [[] ?]. }
      unfold files_hold. by rewrite !hf_network.
  - destruct (Hbody _ _ _ _ H) as (data & made & json & md & before & Hc & Hl & Hf).
    exists data, made, json, md, before, []. rewrite app_nil_r. auto.
Qed.

End run.

(** A host with files, for the witness: the write to the results directory
    succeeds for JSON files and fails for the others. *)
Definition file_world : Type := demo_world * gmap string string.
Definition lift {A} (op : demo_world -> A * demo_world) (w : file_world) : A * file_world :=
  let '(a, w') := op w.1 in (a, (w', w.2)).
Definition file_host : Host file_world :=
  let h := demo_host true true in {|
  h_now w := @h_now _ h w.1;
  h_wait d := lift (@h_wait _ h d);
  h_sleep d w := (@h_sleep _ h d w.1, w.2);
  h_getenv s w := @h_getenv _ h s w.1;
  h_ReadFile p w := match w.2 !! p with Some data => Ok data | None => @h_ReadFile _ h p w.1 end;
  h_Stat p w := @h_Stat _ h p w.1;
  h_ReadDir p w := @h_ReadDir _ h p w.1;
  h_NewClient w := @h_NewClient _ h w.1;
  h_Walk d w := @h_Walk _ h d w.1;
  h_tar := @h_tar _ h;
  h_ImageBuild t b := lift (@h_ImageBuild _ h t b);
  h_ContainerCreate c := lift (@h_ContainerCreate _ h c);
  h_ContainerStart c := lift (@h_ContainerStart _ h c);
  h_ContainerInspect c p := lift (@h_ContainerInspect _ h c p);
  h_ContainerStop c t := lift (@h_ContainerStop _ h c t);
  h_ContainerRemove c := lift (@h_ContainerRemove _ h c);
  h_NetworkCreate n := lift (@h_NetworkCreate _ h n);
  h_NetworkRemove n w := (Err "network has active endpoints", w);
  h_NetworkConnect n c := lift (@h_NetworkConnect _ h n c);
  h_MkdirAll p := lift (@h_MkdirAll _ h p);
  h_WriteFile p data w :=
    if String.eqb (sdrop (String.length p - 5) p) ".json" then (Ok (), (w.1, <[p := data]> w.2)) else (Err "disk full", w);
  h_http url r := lift (@h_http _ h url r)
|}.

Lemma file_host_files : @HostFiles file_world file_host.
Proof.
  split.
  - intros p data w w' H. cbn in H |- *. destruct (String.eqb _ _); [|done]. injection H as <-.
    cbn [snd]. by rewrite lookup_insert_eq.
  - intros p data p' w Hne. cbn. destruct (String.eqb _ _); [|done]. cbn [snd]. by rewrite lookup_insert_ne.
  - done.
Qed.

Definition file_bench : Bench file_world := {|
  b_runScenario _ _ w := (Ok (demo_result "demo"), w);
  b_runListHeavy _ _ _ w := (Ok (demo_result "list_heavy"), w)
|}.

Lemma file_bench_sound : @SoundBench file_world file_bench.
Proof.
  split; intros; simplify_eq/=; (split_and!; [apply demo_result_sound|by apply utf8_ascii|cbn; lia]).
Qed.

Definition file_start : file_world * list devent := ((demo_start.1, ∅), []).

Lemma report_written_witness :
  exists report w', @main _ file_host file_bench same ["d"] 0 0 false file_start
      = (Ok (Returned (Some report)), w') /\ length (Solutions report) = 1%nat /\
    exists data made json md before after,
      w'.2 = before ++ report_events report data made json md ++ after /\
      load_report data = Some report /\ @files_hold _ file_host report data json md w'.1 /\
      (after = [] \/ exists id removed, after = [(CNetRemove id, removed)]).
Proof.
  eexists _, _. split; [vm_compute; reflexivity|]. split; [reflexivity|].
  apply (@report_written _ file_host file_bench file_bench_sound file_host_files same ["d"] 0 0 false file_start).
  vm_compute. reflexivity.
Defined.

(** C27: the comparison table shows each solution's own results. When no two
    solutions and no two scenarios of a solution share a name, every row of the
    Markdown table and of the printed summary has, in the column of each
    solution, the numbers of that very solution in that scenario, and a dash
    exactly where the solution has no such result. *)
Theorem tables_show_results sols id :
  NoDup (srName <$> sols) -> Forall (fun sol => NoDup (ScenarioID <$> srScenarios sol)) sols ->
  data_row sols id = "| " +:+ id +:+ " |" +:+ cat ((fun sol => result_cell (lookup_result sol id)) <$> sols) /\
  summary_row sols id = pad_right scenarioW id +:+
    cat ((fun sol => summary_column (summary_cell (lookup_result sol id))) <$> sols).
Proof.
  intros Hn Hs. rewrite Forall_forall in Hs. unfold data_row, summary_row. split.
  - do 4 f_equal. apply list_fmap_ext. intros i sol Hi%list_elem_of_lookup_2.
    by rewrite find_result_lookup by auto.
  - do 2 f_equal. apply list_fmap_ext. intros i sol Hi%list_elem_of_lookup_2.
    by rewrite find_result_lookup by auto.
Qed.

Lemma tables_show_results_witness :
  data_row (Solutions demo_report) "contention" = "| contention | 2 RPS / 2.3 ms | — |" /\
  data_row (Solutions demo_report) "contention" =
    "| " +:+ "contention" +:+ " |" +:+
    cat ((fun sol => result_cell (lookup_result sol "contention")) <$> Solutions demo_report) /\
  summary_row (Solutions demo_report) "contention" = pad_right scenarioW "contention" +:+
    cat ((fun sol => summary_column (summary_cell (lookup_result sol "contention"))) <$> Solutions demo_report).
Proof.
  split; [vm_compute; reflexivity|]. apply (tables_show_results (Solutions demo_report) "contention").
  - apply (bool_decide_unpack _). vm_compute. exact I.
  - repeat constructor; apply (bool_decide_unpack _); vm_compute; exact I.
Defined.

(** Names that do not disturb the tables. *)
Definition plain_report (report : Report) : Prop :=
  plain (Timestamp report) /\
  Forall (fun sol => plain (srName sol) /\ Forall (fun sc => plain (ScenarioID sc)) (srScenarios sol))
    (Solutions report).

(** C29: the tables are tables. When names contain no newline and no vertical
    bar, the lines of the Markdown file are exactly the intended ones, header,
    separator and all rows of the comparison table have one column per solution
    besides the scenario's, and header, separator and all rows of each detail
    table have ten columns. *)
Theorem tables_regular report :
  plain_report report ->
  lines (markdown report) = markdown_lines report /\
  Forall (fun l => count pipe l = S (S (length (Solutions report))))
    (header_row (Solutions report) :: separator_row (Solutions report) ::
     (data_row (Solutions report) <$> scenario_ids report)) /\
  Forall (fun sol => Forall (fun l => count pipe l = 11%nat)
    (details_header :: details_separator :: (details_row <$> srScenarios sol))) (Solutions report).
Proof.
  intros [Ht Hs].
  assert (Forall (fun sol => plain (srName sol)) (Solutions report)) as Hnames
    by (eapply Forall_impl; [exact Hs|]; by intros sol []).
  assert (Forall plain (scenario_ids report)) as Hids.
  { unfold scenario_ids. destruct (Solutions report) as [|sol sols]; [done|].
    apply Forall_cons in Hs as [[_ Hsc] _]. by apply Forall_fmap. }
  split_and!.
  - apply lines_unlines. unfold markdown_lines. apply Forall_app. split.
    { repeat (apply Forall_cons; split; [first [done|rewrite count_app; apply Ht]|]). constructor. }
    destruct (Solutions report) as [|sol0 sols0] eqn:Es; [by repeat constructor|]. rewrite <- Es in *.
    repeat (apply Forall_app; split); try by repeat constructor.
    + repeat (apply Forall_cons; split; [first [done|rewrite count_header by (done || by right); done
        |rewrite count_separator by (by right); done]|]). constructor.
    + apply Forall_fmap. eapply Forall_impl; [exact Hids|]. intros id Hid. cbn.
      by rewrite count_data_row by (done || by right).
    + apply Forall_bind. eapply Forall_impl; [exact Hs|]. intros sol [Hn Hsc]. unfold solution_lines.
      repeat (apply Forall_app; split); [|apply Forall_fmap|by repeat constructor].
      * repeat (apply Forall_cons; split; [first [done|rewrite count_app; apply Hn]|]). constructor.
      * eapply Forall_impl; [exact Hsc|]. intros sc Hid. cbn. by rewrite count_details_row by (done || by right).
  - apply Forall_cons; split; [by rewrite count_header by (done || by left)|].
    apply Forall_cons; split; [by rewrite count_separator by (by left)|].
    apply Forall_fmap. eapply Forall_impl; [exact Hids|]. intros id Hid. cbn.
    by rewrite count_data_row by (done || by left).
  - eapply Forall_impl; [exact Hs|]. intros sol [_ Hsc]. do 2 (apply Forall_cons; split; [done|]).
    apply Forall_fmap. eapply Forall_impl; [exact Hsc|]. intros sc Hid. cbn.
    by rewrite count_details_row by (done || by left).
Qed.

Lemma tables_regular_witness :
  lines (markdown demo_report) = markdown_lines demo_report /\
  Forall (fun l => count pipe l = 4%nat)
    (header_row (Solutions demo_report) :: separator_row (Solutions demo_report) ::
     (data_row (Solutions demo_report) <$> scenario_ids demo_report)) /\
  Forall (fun sol => Forall (fun l => count pipe l = 11%nat)
    (details_header :: details_separator :: (details_row <$> srScenarios sol))) (Solutions demo_report).
Proof. apply (tables_regular demo_report). repeat constructor. Defined.

(** What can be said of the numbers of a printed row. *)
Record row_of (sc : ScenarioResult) (r : printed) : Prop := mkRowOf {
  ro_id : pr_id r = ScenarioID sc;
  ro_counts : pr_requests r = RequestsTotal sc /\ pr_leaked r = LeakedLocks sc;
  ro_rps : rounds 0 (RPS sc) (pr_rps r);
  ro_latencies : rounds 1 (P50Ms sc) (pr_p50 r) /\ rounds 1 (P95Ms sc) (pr_p95 r) /\
                 rounds 1 (P99Ms sc) (pr_p99 r) /\ rounds 1 (MaxMs sc) (pr_max r);
  ro_rates : rounds 2 (percent (ErrorRate sc)) (pr_errors r) /\
             rounds 2 (percent (ConflictRate sc)) (pr_conflicts r);
  ro_ordered : 0 <= pr_p50 r <= pr_p95 r /\ pr_p95 r <= pr_p99 r <= pr_max r;
  ro_percentages : 0 <= pr_errors r <= 100_00 /\ 0 <= pr_conflicts r <= 100_00
}.

Lemma fleb_units f g V W : quantity 200 f V -> quantity 200 g W -> fleb f g = true -> V <= W.
Proof.
  intros Hf%quantity_nonneg Hg%quantity_nonneg H. rewrite (fleb_nonneg f g V W) in H by done. lia.
Qed.

Lemma percentage rate V :
  quantity 200 rate V -> fleb rate (of_int 1) = true ->
  (exists W, nonneg (percent rate) W) /\ 0 <= fixed_units 2 (percent rate) <= 100_00.
Proof.
  intros Q H. assert (quantity 200 (of_int 1) (1 * one)) as Q1 by (apply (quantity_mono 64); [lia|by apply of_int_exact]).
  destruct (percent_nonneg rate V Q) as (W & HW & HWle); [pose proof (fleb_units _ _ _ _ Q Q1 H); lia|].
  split; [by exists W|]. split; [by eapply fixed_units_nonneg|].
  change 100_00 with (fixed_units 2 (of_int 100)).
  apply (fixed_units_mono 2 _ _ W (100 * one)); [done| |done]. by eapply quantity_nonneg, of_int_exact.
Qed.

(** C28: a printed row can be trusted. From the row of a result in the detail
    table one reads back the scenario, the exact counts, and every other number
    of the result correctly rounded to its decimals, ties to even; the printed
    percentiles are in order, P50 <= P95 <= P99 <= Max, and the printed
    percentages are between 0.00 and 100.00. *)
Theorem details_row_reads sc :
  sound_result sc -> plain (ScenarioID sc) -> LeakedLocks sc < 2 ^ 63 ->
  exists r, read_details (details_row sc) = Some r /\ row_of sc r.
Proof.
  intros [_ Hq (O1 & O2 & O3) (R1 & R2) Hc Hl] Hid Hl'. unfold numbers in Hq.
  apply Forall_cons in Hq as [[V0 Q0] Hq]. apply Forall_cons in Hq as [[V1 Q1] Hq].
  apply Forall_cons in Hq as [[V2 Q2] Hq]. apply Forall_cons in Hq as [[V3 Q3] Hq].
  apply Forall_cons in Hq as [[V4 Q4] Hq]. apply Forall_cons in Hq as [[V5 Q5] Hq].
  apply Forall_cons in Hq as [[V6 Q6] _].
  pose proof (fleb_units _ _ _ _ Q1 Q2 O1). pose proof (fleb_units _ _ _ _ Q2 Q3 O2).
  pose proof (fleb_units _ _ _ _ Q3 Q4 O3).
  destruct (percentage _ _ Q5 R1) as [[W5 P5] B5]. destruct (percentage _ _ Q6 R2) as [[W6 P6] B6].
  apply quantity_nonneg in Q0, Q1, Q2, Q3, Q4.
  unfold read_details. rewrite details_fields by done. unfold cell. rewrite !read_cell_ok.
  rewrite (proj1 (atoi_pretty (RequestsTotal sc) ltac:(lia))), (proj1 (atoi_pretty (LeakedLocks sc) ltac:(lia))).
  cbn [mbind option_bind].
  do 7 (erewrite decimals_read by eassumption; cbn [mbind option_bind]).
  eexists. split; [reflexivity|].
  split; cbn [pr_id pr_requests pr_rps pr_p50 pr_p95 pr_p99 pr_max pr_errors pr_conflicts pr_leaked]; split_and?; try done; try (by apply fixed_rounds; eapply nonneg_finite); try lia;
    first [by eapply fixed_units_nonneg|by eapply fixed_units_mono].
Qed.

Lemma details_row_reads_witness :
  details_row (demo_result "contention") =
    "| contention | 3 | 2 | 1.2 | 2.3 | 2.3 | 9.0 | 0.00% | 33.33% | -1 |" /\
  exists r, read_details (details_row (demo_result "contention")) = Some r /\ row_of (demo_result "contention") r.
Proof.
  split; [vm_compute; reflexivity|]. apply (details_row_reads (demo_result "contention")).
  - apply demo_result_sound.
  - split; reflexivity.
  - cbn. lia.
Defined.

(** ** Limits of the tables *)

(** The table is indexed by name: the columns of two solutions of the same name
    both show the results of the later one. *)
Lemma same_name_shows_last sols1 sol1 sols2 sol2 rest id :
  srName sol1 = srName sol2 -> Forall (fun x => srName x <> srName sol2) rest ->
  let index := build_index (sols1 ++ sol1 :: sols2 ++ sol2 :: rest) in
  find_result index (srName sol1) id = find_result (build_index [sol2]) (srName sol2) id.
Proof.
  intros E H. cbv zeta. unfold find_result. rewrite E, app_comm_cons, app_assoc, build_index_last by done.
  change (build_index [sol2]) with (build_index ([] ++ [sol2])). by rewrite build_index_last.
Qed.

(** The rows are the scenarios of the first solution: when its benchmark was
    cut short, the results the other solutions have beyond it are in no row. *)
Example later_scenarios_have_no_row :
  let go := mkSolutionResult "Go In-Memory" [demo_result "sequential"; demo_result "contention"] in
  let report := mkReport "" [mkSolutionResult "Bun" [demo_result "sequential"]; go] in
  lookup_result go "contention" = Some (demo_result "contention") /\ scenario_ids report = ["sequential"].
Proof. done. Qed.

(** Names are cut after 20 bytes, which may be inside of a character: the name
    is valid UTF-8 and the printed one ends in an ill-formed byte. *)
Example short_name_splits_a_character :
  let name := "Rust version partagée" in
  utf8 name /\ last (runes (short_name name)) = Some (RuneError, 1%nat).
Proof.
  split; [|vm_compute; reflexivity]. apply (utf8_app "Rust version partag" (encode_rune 233 +:+ "e")).
  - by apply utf8_ascii.
  - apply utf8_app; [by apply utf8_rune|by apply utf8_ascii].
Qed.
