(* ===== verification/BenchmarkTheorems.v ===== *)
(** * The benchmark of a solution from scenario to scenario

    The runner sees the load generator through [Bench]; [BenchLaws] states
    what [Measure] promises about it: each call is some complete run of
    [runScenario] or [runListHeavy] against the solution's server and the
    requests earlier runs gave up on, and nothing else touches that server. *)

From S2P Require Import Prelude Utf8 Json JsonFacts GoTime LockSpec InMemory Sharded Http HttpFacts.
From S2P Require Import Validate ValidateFacts Scenarios ScenarioFacts ScenarioBounds ScenarioTheorems.
From S2P Require Import Float64 Float64Facts Stats Measure MeasureFacts.
From S2P Require Import Format Docker Reporter Runner RunnerFacts RunnerTheorems.
From stdpp Require Import options.
Local Open Scope Z_scope.

(** The same value, or both errors. *)
Definition agree {E E' A} (r : result E A) (r' : result E' A) : Prop :=
  match r, r' with Ok a, Ok a' => a = a' | Err _, Err _ => True | _, _ => False end.

(** Between two scenarios the server handles some of the requests that were
    given up on. *)
Inductive settles {St} `{!LockService St} : St * list request -> St * list request -> Prop :=
| settles_now w : settles w w
| settles_late s net n r now it resp s' w' :
    net !! n = Some r -> serve now it r s = Some (resp, s') -> settles (s', delete n net) w' ->
    settles (s, net) w'.

(** [view] is the server behind [url] with the requests on the way to it, [ok]
    the schedules that occur. The number of goroutines is bounded, so that the
    actions of a phase can be. *)
Class BenchLaws (W : Type) `{!Host W, !Bench W} {St : Type} `{LSL : LockServiceLaws St}
    (url : string) (view : W -> St * list request) (ok : schedule -> Prop) : Prop := {
  bl_scenario cfg w : armed (scenario_roles cfg) -> Concurrency cfg < 2 ^ 32 -> world_ok (view w) ->
    exists sch r v, ok sch /\ runScenario cfg sch (view w) = Some (r, v) /\
      agree r (b_runScenario url cfg w).1 /\ v = view (b_runScenario url cfg w).2;
  bl_list_heavy warmup duration w : world_ok (view w) ->
    exists sch r v, ok sch /\ runListHeavy warmup sch (view w) = Some (r, v) /\
      agree r (b_runListHeavy url warmup duration w).1 /\ v = view (b_runListHeavy url warmup duration w).2;
  bl_sleep d w : settles (view w) (view (h_sleep d w))
}.

(** Requests are answered as long as their context is alive. *)
Definition reliable (sch : schedule) : Prop := schedule_ok sch /\ prompt_schedule sch.

(** Free of locks, with nothing on the way. *)
Definition idle {St} `{LSL : LockServiceLaws St} (w : St * list request) : Prop :=
  ls_inv w.1 /\ ls_abs w.1 = ∅ /\ w.2 = [].

Section benchmark.
Context {W : Type} `{!Host W, !Bench W} {St : Type} `{LSL : LockServiceLaws St}.
Context (url : string) (view : W -> St * list request) `{BL : !BenchLaws W url view reliable}.

Lemma settles_keeps k (w w' : St * list request) :
  settles w w' -> world_ok w -> left_by k w -> world_ok w' /\ left_by k w'.
Proof.
  induction 1 as [|s net n r now it resp s' w' Hr Hs _ IH]; [done|].
  intros [Hi Hn] (Ht & Hsz & Hlen). cbn [fst snd] in *.
  destruct (Forall_lookup_1 _ _ _ _ Hn Hr) as (q & Hq & ->).
  destruct (serve_query now it q s Hi Hq) as (resp' & s'' & E & Hi' & Hh). rewrite E in Hs. simplify_eq.
  destruct (handled_size _ _ _ _ Hh) as [H1 _]. rewrite (posts_delete _ _ _ Hr) in Hsz.
  assert (posts [query_request q] = match q with QLock _ _ => 1 | _ => 0 end)%nat as Hp by (by destruct q).
  pose proof (length_delete net n ltac:(by rewrite Hr)).
  apply IH; [split; [done|by apply Forall_delete]|].
  split_and!; cbn [fst snd]; [by eapply handled_table_ok|lia|lia].
Qed.

Lemma scenario_bounded k cfg w :
  armed (scenario_roles cfg) -> Concurrency cfg < 2 ^ 32 -> world_ok (view w) -> left_by k (view w) ->
  let k' := (k + 2 * Z.to_nat (Concurrency cfg))%nat in
  exists sc w', b_runScenario url cfg w = (Ok sc, w') /\ world_ok (view w') /\ left_by k' (view w') /\
    bounded_result (ID cfg) k' sc /\
    (PartitionKeys cfg = true -> apart_world (scenario_roles cfg) (view w) -> ConflictRate sc = fzero).
Proof using BL.
  intros Ha Hc Hw Hk. destruct (bl_scenario cfg w Ha Hc Hw) as (sch & r & v & [Hs Hp] & Hrun & Hag & ->).
  destruct (run_and_check_prompt _ _ _ _ _ _ _ _ (scenario_fleet cfg) Ha Hw Hs Hp Hk Hrun)
    as (Hw' & Hk' & sc & -> & Hb & Hconf).
  destruct (b_runScenario url cfg w) as [[sc'|e] w']; [|done]. cbn in Hag. subst sc'.
  replace (length (scenario_roles cfg)) with (Z.to_nat (Concurrency cfg)) in *
    by (unfold scenario_roles; by rewrite length_fmap, length_seqZ).
  exists sc, w'. split_and!; try done. intros Hpart Hap. apply Hconf; [|done]. by apply scenario_partitioned.
Qed.

Lemma list_heavy_bounded k warmup duration w :
  world_ok (view w) -> left_by k (view w) ->
  exists sc w', b_runListHeavy url warmup duration w = (Ok sc, w') /\ bounded_result "list_heavy" (k + 50) sc.
Proof using BL.
  intros Hw Hk. destruct (bl_list_heavy warmup duration w Hw) as (sch & r & v & [Hs Hp] & Hrun & Hag & ->).
  destruct (run_and_check_prompt _ _ _ _ _ _ _ _ list_heavy_fleet list_heavy_armed Hw Hs Hp Hk Hrun)
    as (Hw' & Hk' & sc & -> & Hb & _).
  destruct (b_runListHeavy url warmup duration w) as [[sc'|e] w']; [|done]. cbn in Hag. subst sc'.
  by exists sc, w'.
Qed.

(** What is promised of the scenarios that start after at most [k] requests
    were cut off: each phase cuts off at most one per goroutine. *)
Fixpoint promised (k : nat) (cfgs : list scenarioCfg) : list (string * nat) :=
  match cfgs with
  | [] => []
  | cfg :: cfgs =>
      let k' := (k + 2 * Z.to_nat (Concurrency cfg))%nat in (ID cfg, k') :: promised k' cfgs
  end.
Definition cut_off_by (k : nat) (cfgs : list scenarioCfg) : nat :=
  foldl (fun k cfg => k + 2 * Z.to_nat (Concurrency cfg))%nat k cfgs.

Definition keeps_promise (e : string * nat) (sc : ScenarioResult) : Prop := bounded_result e.1 e.2 sc.

Lemma run_scenarios_bounded cfgs : forall k acc w tr,
  Forall (fun cfg => armed (scenario_roles cfg) /\ Concurrency cfg < 2 ^ 32) cfgs ->
  world_ok (view w) -> left_by k (view w) ->
  exists results w', run_scenarios url cfgs acc (w, tr) = (Ok (acc ++ results, false), (w', tr)) /\
    world_ok (view w') /\ left_by (cut_off_by k cfgs) (view w') /\
    Forall2 keeps_promise (promised k cfgs) results /\
    forall cfg cfgs' sc results', cfgs = cfg :: cfgs' -> results = sc :: results' ->
      PartitionKeys cfg = true -> apart_world (scenario_roles cfg) (view w) -> ConflictRate sc = fzero.
Proof using BL.
  induction cfgs as [|cfg cfgs IH]; intros k acc w tr Hcfgs Hw Hk.
  - exists [], w. rewrite app_nil_r. by split_and!.
  - apply Forall_cons in Hcfgs as [[Ha Hc] Hcfgs].
    destruct (scenario_bounded k cfg w Ha Hc Hw Hk) as (sc & w1 & E & Hw1 & Hk1 & Hb & Hconf).
    destruct (settles_keeps _ _ _ (bl_sleep (2 * second) w1) Hw1 Hk1) as [Hw2 Hk2].
    destruct (IH _ (acc ++ [sc]) (h_sleep (2 * second) w1) tr Hcfgs Hw2 Hk2) as (results & w2 & E2 & H1 & H2 & H3 & _).
    exists (sc :: results), w2. split_and!; [|done|done|by constructor|by intros ? ? ? ? [= <- <-] [= <- <-]].
    cbn [run_scenarios]. erewrite io_bind_Ok by (unfold try_io, bench; cbn [fst snd]; by rewrite E).
    cbn beta iota. erewrite io_bind_Ok by done. cbn [fst snd]. rewrite E2, <- app_assoc. done.
Qed.

(** The results of a benchmark: at most this many requests cut off up to each
    scenario's end. *)
Definition benchmark_promise : list (string * nat) :=
  [("sequential", 2); ("low_concurrency", 22); ("high_concurrency", 222); ("contention", 322);
   ("list_heavy", 372)]%nat.

Definition bounded_results (results : list ScenarioResult) : Prop :=
  Forall2 keeps_promise benchmark_promise results /\
  forall sc rest, results = sc :: rest -> ConflictRate sc = fzero.

Lemma defaults_armed warmup duration :
  Forall (fun cfg => armed (scenario_roles cfg) /\ Concurrency cfg < 2 ^ 32) (configure warmup duration defaultScenarios).
Proof. repeat (apply Forall_cons; split; [split; [apply scenario_armed; cbn; auto; by right|done]|]). constructor. Qed.

Lemma idle_left w : idle w -> world_ok w /\ left_by 0 w /\ forall rs, apart_world rs w.
Proof.
  destruct w as [s net]. intros (Hi & Ht & Hn). cbn in *. subst net.
  split; [split; [done|constructor]|]. split.
  - split_and!; cbn [fst snd]; [rewrite Ht; apply map_Forall_empty|by rewrite Ht, map_size_empty|done].
  - intros rs. split; [|constructor]. intros id w k h _ _. cbn. by rewrite Ht, lookup_empty.
Qed.

Lemma measure_bounded warmup duration w tr :
  idle (view w) ->
  exists results w',
    measure url warmup duration (configure warmup duration defaultScenarios) (w, tr) = (Ok results, (w', tr)) /\
    bounded_results results.
Proof using BL.
  intros (Hw & Hk & Hap)%idle_left. set (cfgs := configure warmup duration defaultScenarios).
  destruct (run_scenarios_bounded cfgs 0 [] w tr (defaults_armed _ _) Hw Hk)
    as (results & w1 & E1 & Hw1 & Hk1 & Hc & Hfirst).
  destruct (list_heavy_bounded _ warmup duration w1 Hw1 Hk1) as (sc & w2 & E2 & Hl).
  exists (results ++ [sc]), w2. split; [|split].
  - unfold measure. rewrite (io_bind_Ok _ _ _ _ _ E1).
    unfold mbind, io_bind, try_io, bench. cbn [fst snd app]. by rewrite E2.
  - change benchmark_promise with (promised 0 cfgs ++ [("list_heavy", cut_off_by 0 cfgs + 50)%nat]).
    apply Forall2_app; [done|]. apply Forall2_cons_2; [exact Hl|constructor].
  - intros sc0 rest H. inversion Hc as [|e sc1 es results1 He Hes E E']. rewrite <- E' in H. cbn in H. simplify_eq.
    by eapply Hfirst.
Qed.

(** Requests to [url] are served by the server of [view]. *)
Context (now_at : W -> Z)
  (Hserved : forall r w, ls_inv (view w).1 -> exists resp w',
     @client_Do W (h_http url) r w = (Ok (mkReply (status resp) (Ok (body resp))), w') /\
     ls_inv (view w').1 /\ (view w').2 = (view w).2 /\
     api_step (now_at w) r (ls_abs (view w).1) resp (ls_abs (view w').1)).

Definition host_served : @Served W (h_http url).
Proof using Hserved.
  refine {| sv_ok w := ls_inv (view w).1 /\ (view w).2 = []; sv_tab w := ls_abs (view w).1;
            sv_now := now_at; sv_step _ _ := True |}.
  intros r w [Hi Hn]. destruct (Hserved r w Hi) as (resp & w' & ? & ? & Hn' & ?). exists resp, w'.
  rewrite Hn'. done.
Defined.

(** The first poll finds the service healthy. *)
Lemma healthy_at_once timeoutMs w tr :
  0 <= timeoutMs <= 9223372036854 -> idle (view w) ->
  exists w', WaitHealthy url timeoutMs (w, tr) = (Ok (), (w', tr)) /\ idle (view w').
Proof using Hserved LSL.
  intros Ht (Hi & Ha & Hn). unfold WaitHealthy. rewrite (io_bind_Ok (ask h_now) _ (w, tr) (h_now w) (w, tr) eq_refl).
  unfold poll_fuel. cbn [poll_health].
  rewrite (io_bind_Ok (ask h_now) _ (w, tr) (h_now w) (w, tr) eq_refl).
  rewrite (proj2 (Z.ltb_ge _ _)).
  2: { unfold startup_timeout. rewrite wrap64_id; unfold millisecond; lia. }
  destruct (Hserved (mkRequest "GET" "/healthz" "") w Hi) as (resp & w' & E & Hi' & Hn' & Hs).
  apply api_step_healthz in Hs as [-> Ha'].
  exists w'. split; [|split_and!; [done|by rewrite Ha'|by rewrite Hn']].
  erewrite io_bind_Ok; [|unfold healthz; cbn [fst snd]; rewrite E; reflexivity]. done.
Qed.

Lemma spec_check_idle w tr :
  idle (view w) -> exists w', spec_check url (w, tr) = (Ok (), (w', tr)) /\ idle (view w').
Proof using Hserved LSL.
  intros (Hi & Ha & Hn).
  destruct (@validateSpec_passes W (h_http url) host_served w (conj Hi Hn)) as (w' & E & [Hi' Hn'] & Ht & _).
  - cbn. rewrite Ha. apply map_Forall_empty.
  - cbn. rewrite Ha. apply lookup_empty.
  - exists w'. unfold spec_check. cbn [fst snd]. rewrite E. split; [done|]. split_and!; [done| |done].
    cbn in Ht. by rewrite Ht.
Qed.

(** C8: a correct solution gets through the whole benchmark. Take any solution
    whose image builds and whose container starts a server that implements the
    API, holds no locks and answers every request as long as the request's
    context is alive. Requests in flight when a phase ends are cut off, before
    or after the server has handled them, and may be handled at any later time.
    Then benchmarkSolution waits for health, validates the solution and
    completes all scenarios with warmup and measurement: the four configured
    ones and list_heavy, in order. Every result has sound numbers; the locks it
    reports as leaked are at most the requests cut off so far, one per goroutine
    and phase (2, 22, 222, 322 and 372), and the errors behind its error rate
    at most twice as many; the first scenario has no conflicts. *)
Theorem correct_solution_benchmarked ul dir net warmup duration (w : W * list devent) m w0 w1 id w2 :
  load_manifest dir w = (Ok m, w0) -> 0 <= smStartupTimeoutMs m <= 9223372036854 ->
  BuildImage dir (ImageTag ul (smName m)) w0 = (Ok (), w1) ->
  start_solution ul m (ImageTag ul (smName m)) net w1 = (Ok (id, url), w2) -> idle (view w2.1) ->
  exists results w',
    benchmarkSolution ul dir warmup duration net defaultScenarios w
      = (Ok (mkSolutionResult (smName m) results, configure warmup duration defaultScenarios), w') /\
    bounded_results results.
Proof using BL LSL Hserved.
  intros E0 Ht E1 E2 Hi. destruct w2 as [w2 tr].
  assert (0 <= timeout_of m <= 9223372036854) as Ht' by (unfold timeout_of; destruct (_ =? 0); lia).
  destruct (healthy_at_once (timeout_of m) w2 tr Ht' Hi) as (w3 & E3 & Hi3).
  destruct (spec_check_idle w3 tr Hi3) as (w4 & E4 & Hi4).
  destruct (measure_bounded warmup duration w4 tr Hi4) as (results & w5 & E5 & Hc).
  exists results. eexists. split; [|exact Hc].
  unfold benchmarkSolution. rewrite (io_bind_Ok _ _ _ _ _ E0). cbv zeta.
  erewrite io_bind_Ok by (unfold wrapped; by rewrite E1). rewrite (io_bind_Ok _ _ _ _ _ E2). cbn beta iota.
  unfold deferred. erewrite io_bind_Ok by (unfold wrapped; by rewrite E3).
  erewrite io_bind_Ok by (unfold wrapped; by rewrite E4). rewrite (io_bind_Ok _ _ _ _ _ E5). done.
Qed.

End benchmark.

(** ** A load generator for the witness: every worker completes a round *)

Section rounds.
Context {St : Type} `{LSL : LockServiceLaws St}.
Implicit Types (v : St * list request).

Definition after_round (rs : list role) v : St * list request :=
  let p := (round rs v.1 v.2).2 in (p_srv p, p_net p).
Definition round_schedule (rs : list role) (warmup : Z) v : schedule :=
  mkSchedule (round rs v.1 v.2).1
    (let v' := if 0 <? warmup then after_round rs v else v in (round rs v'.1 v'.2).1)
    1000000 (Ok (0, insertion_order)).

Lemma round_phase rs v :
  fleet_ok rs -> armed rs -> world_ok v ->
  exists m, runPhase rs (round rs v.1 v.2).1 no_metrics v = Some (Ok m, after_round rs v) /\
    world_ok (after_round rs v) /\ prompt (round rs v.1 v.2).1 /\ timed (round rs v.1 v.2).1 /\
    (length (round rs v.1 v.2).1 <= 22 * length rs + 1)%nat.
Proof.
  intros Hf Ha Hw. pose proof (round_ok rs Hf v.1 v.2 Ha (proj1 Hw) (proj2 Hw)) as H. unfold after_round.
  destruct (round rs v.1 v.2) as [ls p]. cbn [fst snd]. destruct H as (Hrun & Hst & Hc & Hp & Hel & Hlen).
  assert (runPhase rs ls no_metrics v =
    Some (if p_cause p then Err TimedOut else Ok (p_metrics p), (p_srv p, p_net p))) as E.
  { unfold runPhase. rewrite Hrun. cbn. rewrite Hc, bool_decide_true; [done|].
    intros id pc Hpc. by rewrite (Hst id pc Hpc). }
  rewrite (proj1 (prompt_run rs Hf ls v.1 v.2 p (proj1 Hw) (proj2 Hw) Hp Hrun)) in E.
  exists (p_metrics p). split_and!; [done| |done| |done].
  - by apply (runPhase_inv rs ls no_metrics v _ _ Hf Ha Hw E).
  - eapply Forall_impl; [exact Hel|]. intros l ->. lia.
Qed.

Lemma round_runs id rs warmup v :
  fleet_ok rs -> armed rs -> world_ok v -> (length rs < 2 ^ 32)%nat ->
  reliable (round_schedule rs warmup v) /\
  exists sc v', run_and_check id rs warmup (round_schedule rs warmup v) v = Some (Ok sc, v').
Proof.
  intros Hf Ha Hw Hlen.
  assert (Z.of_nat (length rs) < 2 ^ 32) as Hlen' by lia. clear Hlen.
  destruct (round_phase rs v Hf Ha Hw) as (m1 & E1 & W1 & P1 & T1 & L1).
  set (v' := if 0 <? warmup then after_round rs v else v).
  assert (world_ok v') as Wv by (unfold v'; by destruct (0 <? warmup)).
  destruct (round_phase rs v' Hf Ha Wv) as (m2 & E2 & W2 & P2 & T2 & L2).
  assert (schedule_ok (round_schedule rs warmup v)) as Hs by (split; cbn; fold v'; try done; lia).
  split; [split; [done|split; done]|].
  assert (run_phases rs warmup (round_schedule rs warmup v) v = Some (Ok m2, after_round rs v')) as Er.
  { unfold run_phases. cbn [sch_warmup sch_measure round_schedule]. fold v'. unfold v' in *.
    destruct (0 <? warmup); [rewrite E1|]; cbn [mbind option_bind]; by rewrite <- E2. }
  destruct (run_and_check id rs warmup (round_schedule rs warmup v) v) as [[r w']|] eqn:Erun.
  - destruct (run_and_check_sound _ _ _ _ _ _ _ Hf Ha Hw Hs Erun) as [Hp _].
    destruct r as [sc|[]]; [by eauto| |done]. unfold run_and_check in Erun. rewrite Er in Erun. cbn in Erun.
    destruct (checkLeakedLocks _). by destruct (summarize _ _ _ _).
  - unfold run_and_check in Erun. rewrite Er in Erun. cbn in Erun. by destruct (checkLeakedLocks _).
Qed.

End rounds.

(** In the scenario "sequential" the worker acquires and releases a key in each
    phase. *)
Example round_measures :
  let cfg := mkScenarioCfg "sequential" 1 1000 15 5 true in
  (fun r => match r.1 with Ok sc => Some (RequestsTotal sc, LeakedLocks sc) | Err _ => None end) <$>
    runScenario cfg (round_schedule (scenario_roles cfg) 5 (InMemory.newStore, [])) (InMemory.newStore, [])
  = Some (Some (2, 0)).
Proof. vm_compute. reflexivity. Qed.

(** The host of the demonstration, with the requests on the way to its server. *)
Definition load_world : Type := demo_world * list request.
Definition server_of (w : load_world) : InMemory.store * list request := (w.1.2.2, w.2).
Definition with_server (w : load_world) (v : InMemory.store * list request) : load_world :=
  ((w.1.1, (w.1.2.1, v.1)), v.2).
Definition load_lift {A} (op : demo_world -> A * demo_world) (w : load_world) : A * load_world :=
  let '(a, w') := op w.1 in (a, (w', w.2)).

(** Its service is always up. *)
Definition up_host : Host load_world :=
  let h := demo_host_when (fun _ => true) true false in {|
  h_now w := @h_now _ h w.1;
  h_wait d := load_lift (@h_wait _ h d);
  h_sleep d w := (@h_sleep _ h d w.1, w.2);
  h_getenv s w := @h_getenv _ h s w.1;
  h_ReadFile p w := @h_ReadFile _ h p w.1;
  h_Stat p w := @h_Stat _ h p w.1;
  h_ReadDir p w := @h_ReadDir _ h p w.1;
  h_NewClient w := @h_NewClient _ h w.1;
  h_Walk d w := @h_Walk _ h d w.1;
  h_tar := @h_tar _ h;
  h_ImageBuild t b := load_lift (@h_ImageBuild _ h t b);
  h_ContainerCreate c := load_lift (@h_ContainerCreate _ h c);
  h_ContainerStart c := load_lift (@h_ContainerStart _ h c);
  h_ContainerInspect c p := load_lift (@h_ContainerInspect _ h c p);
  h_ContainerStop c t := load_lift (@h_ContainerStop _ h c t);
  h_ContainerRemove c := load_lift (@h_ContainerRemove _ h c);
  h_NetworkCreate n := load_lift (@h_NetworkCreate _ h n);
  h_NetworkRemove n := load_lift (@h_NetworkRemove _ h n);
  h_NetworkConnect n c := load_lift (@h_NetworkConnect _ h n c);
  h_MkdirAll p := load_lift (@h_MkdirAll _ h p);
  h_WriteFile p d := load_lift (@h_WriteFile _ h p d);
  h_http url r := load_lift (@h_http _ h url r)
|}.
Definition demo_url : string := "http://127.0.0.1:49153".

Definition round_bench : Bench load_world := {|
  b_runScenario _ cfg w :=
    match runScenario cfg (round_schedule (scenario_roles cfg) (Warmup cfg) (server_of w)) (server_of w) with
    | Some (Ok sc, v) => (Ok sc, with_server w v)
    | _ => (Err CtxEnded, w)
    end;
  b_runListHeavy _ warmup _ w :=
    match runListHeavy warmup (round_schedule list_heavy_roles warmup (server_of w)) (server_of w) with
    | Some (Ok sc, v) => (Ok sc, with_server w v)
    | _ => (Err CtxEnded, w)
    end
|}.

Lemma round_bench_laws :
  @BenchLaws load_world up_host round_bench InMemory.store _ _ demo_url server_of reliable.
Proof.
  split.
  - intros cfg w Ha Hc Hw.
    destruct (round_runs (ID cfg) (scenario_roles cfg) (Warmup cfg) (server_of w) (scenario_fleet cfg) Ha Hw)
      as (Hrel & sc & v & E).
    { unfold scenario_roles. rewrite length_fmap, length_seqZ. lia. }
    change (runScenario cfg (round_schedule (scenario_roles cfg) (Warmup cfg) (server_of w)) (server_of w) = Some (Ok sc, v)) in E.
    exists (round_schedule (scenario_roles cfg) (Warmup cfg) (server_of w)), (Ok sc), v.
    cbn -[round_schedule]. rewrite E. split_and!; [done..|]. by destruct v.
  - intros warmup duration w Hw.
    destruct (round_runs "list_heavy" list_heavy_roles warmup (server_of w) list_heavy_fleet list_heavy_armed Hw)
      as (Hrel & sc & v & E).
    { change (25 < 2 ^ 32)%nat. lia. }
    change (runListHeavy warmup (round_schedule list_heavy_roles warmup (server_of w)) (server_of w) = Some (Ok sc, v)) in E.
    exists (round_schedule list_heavy_roles warmup (server_of w)), (Ok sc), v.
    cbn -[round_schedule list_heavy_roles]. rewrite E. split_and!; [done..|]. by destruct v.
  - intros d w. constructor.
Qed.

Lemma up_host_served (r : request) (w : load_world) :
  ls_inv (server_of w).1 -> exists resp w',
    @client_Do _ (@h_http _ up_host demo_url) r w = (Ok (mkReply (status resp) (Ok (body resp))), w') /\
    ls_inv (server_of w').1 /\ (server_of w').2 = (server_of w).2 /\
    api_step 0 r (ls_abs (server_of w).1) resp (ls_abs (server_of w').1).
Proof.
  destruct w as [[t [i s]] net]. cbn [fst snd server_of]. intros Hi.
  destruct (serve_refines 0 insertion_order r s Hi) as (resp & s' & E & Hi' & Hs).
  exists resp, ((t, (S i, s')), net). split_and!; [|done..].
  change (load_lift (demo_http (fun _ => true) r) ((t, (i, s)), net)
    = (Ok (mkReply (status resp) (Ok (body resp))), ((t, (S i, s')), net))).
  unfold load_lift, demo_http, client_Do, serve_transport. cbn [fst snd]. by rewrite E.
Qed.

Definition demo_manifest : SolutionManifest := mkManifest "Go X" "" 8080 0.
Definition load_start : load_world * list devent := ((demo_start.1, []), []).

Lemma correct_solution_benchmarked_witness :
  exists results w',
    @benchmarkSolution _ up_host same round_bench "d" 5 15 "" defaultScenarios load_start
      = (Ok (mkSolutionResult "Go X" results, configure 5 15 defaultScenarios), w') /\
    bounded_results results.
Proof.
  eapply (@correct_solution_benchmarked _ up_host round_bench InMemory.store _ _ demo_url server_of
            round_bench_laws (fun _ => 0) up_host_served same "d" "" 5 15 load_start demo_manifest).
  - vm_compute. reflexivity.
  - cbn. lia.
  - vm_compute. reflexivity.
  - vm_compute. reflexivity.
  - split; [exact InMemory.newStore_inv|]. split; reflexivity.
Defined.
